(* ===== verification/_CoqProject ===== *)
-Q . S2P
Prelude.v
Slice.v
Ihash.v
Murmur.v
Rlock.v
Idvec.v
Ugids.v
Iouser.v
Flock.v
Pq.v
Pipe.v
Store.v
StoreRefine.v
StoreTree.v
StoreProps.v
StoreOps.v
StoreEnc.v
Dev.v
DevRefine.v
Refcount.v
Threadpool.v
Fat.v
FatChain.v
Bpf.v
Queue.v
TermQueue.v
Munge.v
MungeEdit.v
Bitmap.v
Balloc.v
Ialloc.v
Blockmap.v
Getblk.v
Truncate.v
Ext2Grow.v
Ext2Dir.v
Ext2DirMap.v
Ext2DirList.v
