(* ===== verification/Prelude.v ===== *)
(** * Verification of the NeOx Ghost / GNU Hurd core libraries and servers

    ** The program

    The repository is a multi-server operating system on top of the Mach
    microkernel: servers (file systems, process server, terminals) that are
    linked with a set of C libraries.  This development models libraries that
    the servers share, and the server algorithms that need no Mach call, and
    proves what their callers rely on.

    ** Files, and the code they model

    - [Prelude.v] (this file): error codes, machine integers, arrays, the
      allocation oracle, the outcome types and the tactics the others share;
      [Slice.v]: parts of arrays, and memory that is read and written by parts.
    - [Ihash.v], [src/libihash/ihash.c] and [ihash.h]: the hash table with open
      addressing and tombstones by which servers find objects by integer key.
    - [Murmur.v], [src/libihash/murmur3.c]: the hash function of the tables that
      are keyed by names.
    - [Rlock.v], [src/libfshelp/rlock-*.c] and [rlock.h]: POSIX record locks.
    - [Flock.v], [src/libfshelp/lock-acquire.c], [lock-init.c]: whole-file locks.
    - [Idvec.v], [src/libshouldbeinlibc/idvec.c]: vectors of user or group ids.
    - [Ugids.v], [src/libshouldbeinlibc/ugids*.c], [idvec-impgids.c]: sets of user
      and group ids, on top of [Idvec.v].
    - [Iouser.v], [src/libiohelp/iouser-*.c], [src/libfshelp/perms-*.c]: the users
      of an I/O server and the permission checks, on top of [Idvec.v].
    - [Pq.v], [src/libpipe/pq.c], [pq.h]: packets and packet queues.
    - [Pipe.v], [src/libpipe/pipe.c], [pipe.h], [stream.c], [dgram.c],
      [seqpack.c]: pipes, on top of [Pq.v].
    - [Store.v], [src/libstore/rdwr.c], [derive.c], [make.c], [set.c], [store.h]:
      stores, which are trees that map a contiguous range of blocks to runs of
      blocks below.  [StoreRefine.v] and [StoreTree.v] hold the abstract view
      and the refinement proofs, [StoreProps.v] creation and errors.
    - [StoreOps.v], [src/libstore/remap.c], [stripe.c], [zero.c], [kids.c]: the
      operations that build stores from stores.
    - [StoreEnc.v], [src/libstore/enc.c], [encode.c], [decode.c]: a store as
      vectors of integers, offsets, bytes and ports, and back.
    - [Dev.v], [src/storeio/dev.c], [dev.h]: byte access to a store through a
      buffer of one block, on top of [Store.v]; [DevRefine.v] its refinement.
    - [Refcount.v], [src/libshouldbeinlibc/refcount.h]: reference counts, and
      pairs of hard and weak counts in one word.
    - [Threadpool.v], [src/libports/port-deref-deferred.c] and [.h]: deferred
      deallocation with two generations of threads.
    - [Fat.v] and [FatChain.v], [src/fatfs/fat.c], [fat.h]: superblock, allocation
      table, names and times of the FAT file system; the cached cluster chains.
    - [Bpf.v], [src/libbpf/bpf_impl.c]: the interpreter for packet filters and the
      check of a program; [Queue.v], [src/libbpf/queue.c] and [queue.h]: circular
      lists on a heap of pointers.
    - [TermQueue.v], [src/term/term.h]: the character queues of a terminal;
      [Munge.v], [src/term/munge.c]: its line discipline, on top of them;
      [MungeEdit.v]: the discipline as a line editor.
    - [Bitmap.v], [src/ext2fs/bitmap.c]: the bitmaps of the ext2 file system;
      [Balloc.v], [src/ext2fs/balloc.c]: allocation of blocks; [Ialloc.v],
      [src/ext2fs/ialloc.c]: allocation of inodes.
    - [Getblk.v], [src/ext2fs/getblk.c]: the blocks of a file, through indirect
      blocks, on top of [Balloc.v]; [Truncate.v], [src/ext2fs/truncate.c]: freeing
      them; [Blockmap.v] is the tree of block pointers both are proved against.
    - [Ext2Dir.v], [src/ext2fs/dir.c]: directories; [Ext2DirMap.v] a directory as
      a finite map, [Ext2DirList.v] its listing; [Ext2Grow.v], [diskfs_grow] of
      [src/ext2fs/pager.c]: the growth of files, on top of [Getblk.v].

    ** How code is rendered

    A C structure is a [Record] with the names of its fields, an enumeration an
    [Inductive] or its integer constants.  A function is a [Definition] or
    [Fixpoint] on the state it reads, and returns the state it leaves.  Integers
    are [Z] with the wrap-around of their width written out ([u32], [u64], [s32],
    [s64]) in the arithmetic that the theorems are about, and [size_t] has 64 bits
    where its width is not a parameter; [chk64] and [chk32] are signed operations
    whose overflow is undefined.  Where the code is right only without overflow, a
    hypothesis bounds the values.  Counters of objects in memory, such as the
    length of a list, are not bounded.  [None] stands for a failed assertion, an
    access outside of an array or after a free, and undefined arithmetic, so that
    a theorem which gives a [Some] result says that none of them happens.

    [malloc] may fail: an allocation oracle, a list of booleans, says which
    allocations succeed.  The theorems on hash tables, locks and ids hold for
    every oracle.  Those on reading stores, encodings, devices, cluster chains, pipes and
    directories are for the oracle in which every allocation succeeds, and say so;
    terminal queues have a platform that can allocate up to a bound.  Threads are
    rendered at the grain of the locks the code holds: [Flock.v] is a step
    relation over the requests of all opens, with any interleaving; [Pipe.v] takes
    a list of what the other threads do each time a call gives up the lock. Code
    outside of the repository (the password database, the authentication server,
    the devices below a store) is a parameter, with the hypotheses on it named:
    [MediaOk] of [StoreTree.v] is the largest of these interfaces.  The devices
    know their store only by the interface [ArrayStore] of [DevRefine.v], which
    trees of stores implement.

    Loops that are not structural take fuel.  Where it is computed from the
    arguments, the lemmas show that it does not run out: one round per slot of a
    hash table, per run of a store, per lock of a node, per entry of an allocation
    table.  Where it is an argument ([Pipe.v], [FatChain.v]), the theorems name
    the amount that is enough, or hold for every amount.

    ** What the theorems show

    - Tables: every operation of the hash table changes the bindings as a finite
      map would, for keys other than 0, keeps each object's location pointer and calls the cleanup
      function for exactly the displaced object; the hash function equals its
      reference definition by blocks, and has no collision of a stated kind.
    - Locks: no two opens ever hold conflicting locks; a request that is granted
      adds exactly its range, an unlock removes exactly its range; waiters are
      woken.  The theorems on record locks need that the start and the end of a
      region fit in the type of offsets, and that no open asks for a region which
      ends before an open-ended lock of its own; beyond either limit the code
      breaks exclusion, which is a theorem too.  What a whole-file lock grants is
      stated for executions in which no sleeping upgrade is interrupted.
    - Ids and permissions: the id operations are the list and set operations
      they are named after, on every allocation failure; a restricted user has
      no id the caller lacks; the permission checks decide the mode bits.
    - Pipes: the bytes a reader gets are the bytes that were written, in order;
      a writer never exceeds the limit; draining ends.
    - Stores: reading and writing refine an array of blocks; a write is read back,
      in trees of one block size whose runs do not repeat; construction
      establishes the invariant; concatenation and remapping have the expected
      address maps; decoding an encoded store gives it back.
    - Devices: reads and writes of any bytes refine an array of bytes, whatever is
      in the buffer, on devices below 4 GiB that are opened with a buffer.
    - References: the operations on the packed word equal those on the pair; the
      counts are exact in every interleaving; a deferred object is released, and
      only when no thread can still use it.
    - FAT: links are written and read back without a change to others; the search
      for a free cluster ends; the cached chain refines the chain on the disk.
    - Packet filters: a program that passes the check, and stays clear of the
      cases the check leaves out, returns, with every access in bounds; a session
      is found exactly when there is one; the circular lists refine lists.
    - Terminals: the queues refine lists; what is typed, erased and killed makes up the line that
      an abstract editor says.
    - ext2: a block or inode that is allocated was free, alone changes its state
      and is found if there is one, with the exception the code makes; freeing
      gives back exactly what is freed; the counts of the groups and of the
      superblock stay those of the bitmaps.  The blocks of a file are a tree: a
      block is found or put in its place only, no two places share a block, what
      is cut off is freed and nothing else, and other files keep their blocks;
      that everything behind the end is cut off is shown for ends up to the first
      indirect block, beyond which the code can leave blocks.  A directory is a
      finite map under lookup, entering, removing and rewriting, whatever slot a
      new name goes to, and its listing is the entries in use.

    Behaviour that is not what a comment or a caller expects is shown by evaluated
    examples next to the theorems whose hypotheses exclude it.

    ** Not modelled

    The remote procedure call stubs and message loops, which are Mach calls; the
    classes at the leaves of stores; the pagers, but for the growth of files; the
    disk, network and console servers beyond the files above; the vendored network
    stack; and the parts of the repository that are not C programs which compile
    (amk, neoxmux). Preemption inside of a section that holds a lock is not
    modelled, nor is the memory order of the atomic operations. *)

From stdpp Require Export base tactics option list numbers gmap sorting.
From Stdlib Require Export ZArith Lia.

#[export] Set Default Goal Selector "!".
#[global] Open Scope Z_scope.

(** ** Error codes

    The [error_t] values the modelled code returns; [E0] is the C constant 0
    (success), so the C test [if (err)] is [err ≠ E0]. *)
Inductive error_t :=
| E0 | EPERM | ENOENT | EINTR | EBADF | EAGAIN | ENOMEM | EACCES | EBUSY
| EINVAL | EPIPE | EDEADLK | EOPNOTSUPP | ENOBUFS | ETIMEDOUT
| EIO | EROFS | EOVERFLOW | EGRATUITOUS | ENODEV | ENOTSUP | ENOSPC | EFAULT
| ENAMETOOLONG | EEXIST | ENOTDIR | EISDIR | EXDEV | ERANGE.

#[export] Instance error_t_eq_dec : EqDecision error_t.
Proof. solve_decision. Defined.

(** [EWOULDBLOCK] is defined to [EAGAIN] by the sources. *)
Abbreviation EWOULDBLOCK := EAGAIN (only parsing).

(** ** Memory allocation

    Whether [malloc], [calloc] or [realloc] succeeds is not under the
    program's control.  An [allocs] lists the outcomes of the allocations to
    come; when it is used up every later allocation succeeds. *)
Abbreviation allocs := (list bool) (only parsing).

Definition alloc (o : allocs) : bool * allocs :=
  match o with
  | [] => (true, [])
  | b :: o' => (b, o')
  end.

(** A call that allocates and returns an error code or a value. *)
Abbreviation outcome A := (option ((error_t + A) * list bool)).

Lemma alloc_nil o b o' : alloc o = (b, o') → o = [] → o' = [].
Proof. intros H ->. by injection H as <- <-. Qed.

Lemma alloc_fail o o' : alloc o = (false, o') → o ≠ [].
Proof. by intros H ->. Qed.

(** ** Machine integers *)
Definition u32 (z : Z) : Z := z mod 2 ^ 32.
Definition u64 (z : Z) : Z := z mod 2 ^ 64.

Definition s32 (z : Z) : Z := (z + 2 ^ 31) mod 2 ^ 32 - 2 ^ 31.
Definition s64 (z : Z) : Z := (z + 2 ^ 63) mod 2 ^ 64 - 2 ^ 63.

(** The result of a signed 64-bit operation; an overflow is undefined. *)
Definition chk64 (z : Z) : option Z :=
  if decide (- 2 ^ 63 ≤ z < 2 ^ 63) then Some z else None.

Lemma s32_id z : - 2 ^ 31 ≤ z < 2 ^ 31 → s32 z = z.
Proof. intros. unfold s32. rewrite Z.mod_small; lia. Qed.

Lemma s64_id z : - 2 ^ 63 ≤ z < 2 ^ 63 → s64 z = z.
Proof. intros. unfold s64. rewrite Z.mod_small; lia. Qed.

Lemma chk64_Some z : - 2 ^ 63 ≤ z < 2 ^ 63 → chk64 z = Some z.
Proof. intros. unfold chk64. by rewrite decide_True. Qed.

Lemma u32_range z : 0 ≤ u32 z < 2 ^ 32.
Proof. by apply Z.mod_pos_bound. Qed.

Lemma u32_id z : 0 ≤ z < 2 ^ 32 → u32 z = z.
Proof. apply Z.mod_small. Qed.

Lemma u64_id z : 0 ≤ z < 2 ^ 64 → u64 z = z.
Proof. apply Z.mod_small. Qed.

(** ** Array accesses

    [l !z i] is the C read [l[i]]: [None] stands for an access outside the
    array.  [updz l i x] is the store [l[i] = x]. *)
Definition lookupz {A} (l : list A) (i : Z) : option A :=
  if decide (0 ≤ i) then l !! Z.to_nat i else None.
Notation "l !z i" := (lookupz l i) (at level 20) : Z_scope.

Definition updz {A} (i : Z) (x : A) (l : list A) : list A := <[Z.to_nat i := x]> l.

Abbreviation zlen l := (Z.of_nat (length l)).

Section arrays.
Context {A : Type}.
Implicit Types (l : list A) (x : A) (i j : Z).

Lemma lookupz_lt l i x : l !z i = Some x → 0 ≤ i < zlen l.
Proof.
  unfold lookupz. case_decide; [|done]. intros H1%lookup_lt_Some. lia.
Qed.

Lemma lookupz_is_Some l i : 0 ≤ i < zlen l → ∃ x, l !z i = Some x.
Proof.
  intros ?. unfold lookupz. rewrite decide_True by lia.
  apply lookup_lt_is_Some. lia.
Qed.

Lemma length_updz i x l : length (updz i x l) = length l.
Proof. apply length_insert. Qed.

Lemma lookupz_updz l i j x :
  0 ≤ i < zlen l → updz i x l !z j = if decide (i = j) then Some x else l !z j.
Proof.
  intros Hi. unfold lookupz, updz. case_decide as Hj.
  - case_decide; subst.
    + apply list_lookup_insert_eq. lia.
    + apply list_lookup_insert_ne. lia.
  - by rewrite decide_False by lia.
Qed.

Lemma lookupz_updz_eq l i x : 0 ≤ i < zlen l → updz i x l !z i = Some x.
Proof. intros. rewrite lookupz_updz by done. by rewrite decide_True. Qed.

Lemma lookupz_updz_ne l i j x :
  0 ≤ i < zlen l → i ≠ j → updz i x l !z j = l !z j.
Proof. intros. rewrite lookupz_updz by done. by rewrite decide_False. Qed.

Lemma lookupz_elem_of l i x : l !z i = Some x → x ∈ l.
Proof.
  unfold lookupz. case_decide; [|done]. apply list_elem_of_lookup_2.
Qed.

Lemma elem_of_lookupz l x : x ∈ l → ∃ i, l !z i = Some x.
Proof.
  intros [i Hi]%list_elem_of_lookup. exists (Z.of_nat i).
  unfold lookupz. rewrite decide_True by lia. by rewrite Nat2Z.id.
Qed.

Lemma lookupz_replicate n i x y :
  replicate n x !z i = Some y ↔ y = x ∧ 0 ≤ i < Z.of_nat n.
Proof.
  unfold lookupz. case_decide.
  - rewrite lookup_replicate. split; intros [??]; (split; [done|lia]).
  - split; [done|lia].
Qed.
End arrays.

Lemma lookupz_app_r {A} (l m : list A) i : 0 ≤ i → (l ++ m) !z (zlen l + i) = m !z i.
Proof.
  intros Hi. unfold lookupz. rewrite !decide_True by lia. rewrite lookup_app_r by lia.
  f_equal. lia.
Qed.

Lemma Forall_lookupz {A} (P : A → Prop) (l : list A) i x : Forall P l → l !z i = Some x → P x.
Proof. intros H Hx%lookupz_elem_of. rewrite Forall_forall in H. auto. Qed.

(** ** Counting *)
Section count.
Context {A : Type} (p : A → bool).

Fixpoint countb (l : list A) : Z :=
  match l with
  | [] => 0
  | x :: l' => (if p x then 1 else 0) + countb l'
  end.

Lemma countb_bounds l : 0 ≤ countb l ≤ zlen l.
Proof. induction l as [|x l IH]; simpl; [lia|]. destruct (p x); lia. Qed.

Lemma countb_app l1 l2 : countb (l1 ++ l2) = countb l1 + countb l2.
Proof. induction l1 as [|x l IH]; simpl; [lia|]. rewrite IH. lia. Qed.

Lemma countb_insert l (i : nat) x y :
  l !! i = Some y →
  countb (<[i := x]> l) =
    countb l - (if p y then 1 else 0) + (if p x then 1 else 0).
Proof.
  revert i. induction l as [|z l IH]; intros [|i] H; simpl in *; simplify_eq; [lia|].
  rewrite (IH i) by done. lia.
Qed.

Lemma countb_updz l i x y :
  l !z i = Some y →
  countb (updz i x l) =
    countb l - (if p y then 1 else 0) + (if p x then 1 else 0).
Proof.
  unfold lookupz, updz. case_decide; [|done]. apply countb_insert.
Qed.

Lemma countb_replicate n x : countb (replicate n x) = if p x then Z.of_nat n else 0.
Proof. induction n; simpl; [by destruct (p x)|]. destruct (p x); lia. Qed.

Lemma countb_pos l : 0 < countb l ↔ ∃ x, x ∈ l ∧ p x = true.
Proof.
  induction l as [|y l IH]; simpl.
  - split; [lia|]. intros (? & H%elem_of_nil & _). done.
  - pose proof (countb_bounds l). destruct (p y) eqn:E.
    + split; [|lia]. intros _. exists y. split; [left|done].
    + split.
      * intros (x & ? & ?)%IH. exists x. split; [by right|done].
      * intros (x & Hx & Hp). apply elem_of_cons in Hx as [->|Hx]; [congruence|].
        apply IH. eauto.
Qed.

Lemma countb_zero l : countb l = 0 ↔ ∀ x, x ∈ l → p x = false.
Proof.
  pose proof (countb_bounds l). split.
  - intros H0 x Hx. destruct (p x) eqn:E; [|done].
    assert (0 < countb l); [|lia]. apply countb_pos. eauto.
  - intros H0. destruct (decide (0 < countb l)) as [H1|]; [|lia].
    apply countb_pos in H1 as (x & Hx & Hp). rewrite H0 in Hp; done.
Qed.
End count.

Lemma countb_ext {A} (p q : A → bool) l :
  (∀ x, x ∈ l → p x = q x) → countb p l = countb q l.
Proof.
  induction l as [|y l IH]; intros H; simpl; [done|].
  rewrite (H y) by left. rewrite IH; [done|]. intros. apply H. by right.
Qed.

(** [l[i] = x] with its bounds, and the C function [memmove] within an array. *)
Definition storez {A} (i : Z) (x : A) (l : list A) : option (list A) :=
  if decide (0 ≤ i < zlen l) then Some (updz i x l) else None.

Definition memmove {A} (dst src n : Z) (l : list A) : option (list A) :=
  if decide (0 ≤ dst ∧ 0 ≤ src ∧ 0 ≤ n ∧ dst + n ≤ zlen l ∧ src + n ≤ zlen l) then
    Some (take (Z.to_nat dst) l ++ take (Z.to_nat n) (drop (Z.to_nat src) l)
          ++ drop (Z.to_nat (dst + n)) l)
  else None.

Section blocks.
Context {A : Type}.
Implicit Types (l m k : list A).

(** The cell after a prefix. *)
Lemma lookupz_mid l x m i : i = zlen l → (l ++ x :: m) !z i = Some x.
Proof.
  intros ->. unfold lookupz. rewrite decide_True by lia. rewrite Nat2Z.id.
  by apply list_lookup_middle.
Qed.

Lemma storez_mid l x y m i : i = zlen l → storez i y (l ++ x :: m) = Some (l ++ y :: m).
Proof.
  intros ->. unfold storez, updz. rewrite decide_True by (rewrite length_app; simpl; lia).
  rewrite Nat2Z.id. f_equal. rewrite <- (Nat.add_0_r (length l)) at 1. by rewrite insert_app_r.
Qed.

(** Moving a block one cell up, and one cell down. *)
Lemma memmove_up l m k x dst src n :
  dst = zlen l + 1 → src = zlen l → n = zlen m →
  ∃ z, memmove dst src n (l ++ m ++ x :: k) = Some (l ++ z :: m ++ k).
Proof.
  intros -> -> ->. unfold memmove. rewrite decide_True by (rewrite !length_app; simpl; lia).
  rewrite Z2Nat.inj_add, !Nat2Z.id by lia.
  replace (Z.to_nat (zlen l + 1 + zlen m)) with (length l + (length m + 1))%nat by lia.
  rewrite drop_app_length, take_app_length, drop_app_add, drop_app_add. simpl. rewrite take_app_add.
  destruct m as [|z m]; simpl; eexists; by rewrite <- app_assoc.
Qed.

Lemma memmove_down l m k x dst src n :
  dst = zlen l → src = zlen l + 1 → n = zlen m →
  ∃ z, memmove dst src n (l ++ x :: m ++ k) = Some (l ++ m ++ z :: k).
Proof.
  intros -> -> ->. unfold memmove. rewrite decide_True by (simpl; rewrite !length_app; simpl; rewrite length_app; lia).
  replace (Z.to_nat (zlen l + 1)) with (length l + 1)%nat by lia. rewrite !Nat2Z.id.
  replace (Z.to_nat (zlen l + zlen m)) with (length l + length m)%nat by lia.
  rewrite take_app_length, !drop_app_add.
  change (drop 1 (x :: m ++ k)) with (m ++ k). rewrite take_app_length.
  change (x :: m ++ k) with ((x :: m) ++ k). rewrite drop_app_le by (simpl; lia).
  destruct (drop (length m) (x :: m)) as [|z r] eqn:Hd.
  - apply (f_equal length) in Hd. rewrite length_drop in Hd. simpl in Hd. lia.
  - exists z. apply (f_equal length) in Hd. rewrite length_drop in Hd. simpl in Hd.
    by destruct r; [|simpl in Hd; lia].
Qed.
End blocks.

(** Reading cells all of which are initialised. *)
Lemma mapM_id_Some {A} (l : list A) : mapM id (Some <$> l) = Some l.
Proof. apply mapM_Some, Forall2_fmap_l, Forall_Forall2_diag, Forall_true. done. Qed.

(** ** Bit masks *)

(** One bit of a word. *)
Lemma land_pow2 m b : 0 ≤ b → Z.land m (2 ^ b) = if Z.testbit m b then 2 ^ b else 0.
Proof.
  intros Hb. apply Z.bits_inj'. intros i Hi. rewrite Z.land_spec, Z.pow2_bits_eqb by lia.
  destruct (Z.eqb_spec b i) as [->|Hne].
  - rewrite andb_true_r. destruct (Z.testbit m i); [by rewrite Z.pow2_bits_true|by rewrite Z.bits_0].
  - rewrite andb_false_r. destruct (Z.testbit m b); [by rewrite Z.pow2_bits_false|by rewrite Z.bits_0].
Qed.

Lemma land_bit m b : 0 ≤ b → bool_decide (Z.land m (2 ^ b) ≠ 0) = Z.testbit m b.
Proof.
  intros Hb. rewrite land_pow2 by done.
  destruct (Z.testbit m b); [apply bool_decide_true|by apply bool_decide_false; auto].
  pose proof (Z.pow_pos_nonneg 2 b). lia.
Qed.

Lemma land_mask x n : 0 ≤ n → Z.land x (2 ^ n - 1) = x mod 2 ^ n.
Proof. intros. rewrite <-Z.land_ones by done. by rewrite Z.ones_equiv. Qed.

(** ** Calls that return an error code

    A call that changes a state [S], allocates and returns an [error_t]; [None]
    as everywhere is a failed assertion or an undefined access. *)
Definition op (S : Type) : Type := S → allocs → option (error_t * S * allocs).

(** [err = m1; if (! err) err = m2;] *)
Definition op_seq {S} (m1 m2 : op S) : op S := λ s o,
  '(err, s', o') ← m1 s o;
  if decide (err = E0) then m2 s' o' else Some (err, s', o').
Notation "m1 ;;? m2" := (op_seq m1 m2) (at level 90, right associativity) : Z_scope.

Definition op_ret {S} (err : error_t) : op S := λ s o, Some (err, s, o).

(** A call that cannot fail. *)
Definition op_lift {S} (f : S → option S) : op S := λ s o, s' ← f s; Some (E0, s', o).

(** A call on one field of the state. *)
Definition op_on {S T} (get : S → T) (set : T → S → S) (m : op T) : op S := λ s o,
  '(err, v, o') ← m (get s) o; Some (err, set v s, o').

(** [r] is a result with [Q] on success and [E] on an error; ENOMEM is
    returned only when an allocation fails. *)
Definition returns {S} (o : allocs) (r : option (error_t * S * allocs)) (Q : S → Prop)
    (E : error_t → S → Prop) : Prop :=
  ∃ err s' o', r = Some (err, s', o') ∧ (o = [] → o' = [] ∧ err ≠ ENOMEM)
    ∧ ((err = E0 ∧ Q s') ∨ (err ≠ E0 ∧ E err s')).

Definition op_spec {S} (m : op S) (s : S) (Q : S → Prop) (E : error_t → S → Prop) : Prop :=
  ∀ o, returns o (m s o) Q E.

Lemma returns_ok {S} o o' (s : S) (Q : S → Prop) E :
  Q s → (o = [] → o' = []) → returns o (Some (E0, s, o')) Q E.
Proof. intros. exists E0, s, o'. auto. Qed.

Lemma returns_error {S} o o' e (s : S) Q (E : error_t → S → Prop) :
  e ≠ E0 → E e s → (o = [] → o' = [] ∧ e ≠ ENOMEM) → returns o (Some (e, s, o')) Q E.
Proof. intros. exists e, s, o'. auto. Qed.

Lemma returns_mono {S} o o1 (r : option (error_t * S * allocs)) Q E :
  (o = [] → o1 = []) → returns o1 r Q E → returns o r Q E.
Proof.
  intros Ho (err & s & o' & Hr & Ho' & Hp). exists err, s, o'. split; [done|]. split; [|done].
  intros Hn. by apply Ho', Ho.
Qed.

Lemma returns_weaken {S} o (r : option (error_t * S * allocs)) (Q Q' : S → Prop)
    (E E' : error_t → S → Prop) :
  returns o r Q E → (∀ s, Q s → Q' s) → (∀ e s, E e s → E' e s) → returns o r Q' E'.
Proof.
  intros (err & s & o' & ? & ? & Hp) HQ HE. exists err, s, o'.
  do 2 (split; [done|]). destruct Hp as [[? ?]|[? ?]]; [left|right]; auto.
Qed.

(** A call and what follows it. *)
Lemma returns_bind {S T} o (r : option (error_t * S * allocs)) Q E
    (k : error_t → S → allocs → option (error_t * T * allocs)) Q' E' :
  returns o r Q E →
  (∀ s o1, Q s → (o = [] → o1 = []) → returns o1 (k E0 s o1) Q' E') →
  (∀ e s o1, E e s → e ≠ E0 → (o = [] → o1 = [] ∧ e ≠ ENOMEM) → returns o (k e s o1) Q' E') →
  returns o ('(err, s, o1) ← r; k err s o1) Q' E'.
Proof.
  intros (err & s & o1 & -> & Ho & Hp) Hok Herr. simpl. destruct Hp as [[-> HQ]|[Hne HE]].
  - eapply returns_mono; [|apply Hok; [done|]]; intros Hn; by apply Ho.
  - by apply Herr.
Qed.

Section ops.
Context {S : Type}.
Implicit Types (m : op S) (s : S) (Q : S → Prop) (E : error_t → S → Prop).

Lemma op_spec_weaken m s Q E Q' E' :
  op_spec m s Q E → (∀ s', Q s' → Q' s') → (∀ e s', E e s' → E' e s') → op_spec m s Q' E'.
Proof.
  intros H HQ HE o. by eapply returns_weaken.
Qed.

Lemma op_spec_seq m1 m2 s Q1 Q E :
  op_spec m1 s Q1 E → (∀ s1, Q1 s1 → op_spec m2 s1 Q E) → op_spec (m1 ;;? m2) s Q E.
Proof.
  intros H1 H2 o. unfold op_seq. eapply returns_bind; [apply H1|..].
  - intros s1 o1 HQ Ho. rewrite decide_True by done. by apply H2.
  - intros e s1 o1 HE Hne Ho. rewrite decide_False by done. by apply returns_error.
Qed.

Lemma op_spec_ret s Q E : Q s → op_spec (op_ret E0) s Q E.
Proof. intros HQ o. exists E0, s, o. auto. Qed.

Lemma op_spec_lift (f : S → option S) s Q E :
  (∃ s', f s = Some s' ∧ Q s') → op_spec (op_lift f) s Q E.
Proof. intros (s' & Hf & HQ) o. unfold op_lift. rewrite Hf. exists E0, s', o. auto. Qed.

Lemma op_spec_on {T} (get : S → T) (set : T → S → S) (m : op T) s (Q : T → Prop) (E : error_t → T → Prop) :
  op_spec m (get s) Q E →
  op_spec (op_on get set m) s (λ s', ∃ v, s' = set v s ∧ Q v) (λ e s', ∃ v, s' = set v s ∧ E e v).
Proof.
  intros H o. unfold op_on. eapply returns_bind; [apply H|..].
  - intros v o1 HQ Ho. apply returns_ok; [eauto|auto].
  - intros e v o1 HE Hne Ho. apply returns_error; [done|eauto|auto].
Qed.
End ops.

(** ** Tactics and hints *)
Create HintDb hurd.
#[export] Hint Resolve op_spec_ret : hurd.

Ltac destruct_option :=
  repeat match goal with
  | H : context [match ?x with Some _ => _ | None => _ end] |- _ =>
      let E := fresh "E" in destruct x eqn:E; try discriminate H
  | H : (_ ≫= _) = Some _ |- _ => apply bind_Some in H as (? & ? & H)
  end.

(** Rewrites with array lookups and lengths of updated arrays. *)
Ltac simpl_arr :=
  repeat first
    [ rewrite length_updz
    | rewrite lookupz_updz_eq by (rewrite ?length_updz; (lia || eauto))
    | rewrite lookupz_updz_ne by (rewrite ?length_updz; (lia || eauto || congruence)) ].
