(* ===== verification/Slice.v ===== *)
(** * Parts of arrays

    The elements of an array from an index on, the array with some of them
    replaced, and the C function [memcpy] in terms of the two.  Equalities between
    such arrays are proved index by index (tactic [slices]). *)

From S2P Require Import Prelude.

(** The [n] elements from index [i]; the list with [d] in place of those from [i]. *)
Definition slice {A} (i n : Z) (l : list A) : list A := take (Z.to_nat n) (drop (Z.to_nat i) l).
Definition splice {A} (i : Z) (d l : list A) : list A :=
  take (Z.to_nat i) l ++ d ++ drop (Z.to_nat (i + zlen d)) l.

(** [memcpy (mem + i, data, len)] *)
Definition mem_write (i : Z) (data mem : list Z) : option (list Z) :=
  if decide (0 ≤ i ∧ i + zlen data ≤ zlen mem) then
    Some (splice i data mem)
  else None.

(** The [len] bytes at [mem + i] *)
Definition mem_read (i len : Z) (mem : list Z) : option (list Z) :=
  if decide (0 ≤ i ∧ 0 ≤ len ∧ i + len ≤ zlen mem) then
    Some (slice i len mem)
  else None.

Section slices.
Context {A : Type}.
Implicit Types (l d b c : list A).

Lemma eq_lookupz l d : (∀ j, 0 ≤ j → l !z j = d !z j) → l = d.
Proof.
  intros Hj. apply list_eq. intros i. specialize (Hj (Z.of_nat i)). unfold lookupz in Hj.
  rewrite !decide_True, !Nat2Z.id in Hj by lia. apply Hj. lia.
Qed.

Lemma lookupz_slice i n l j :
  0 ≤ i → 0 ≤ n → slice i n l !z j = if decide (0 ≤ j < n) then l !z (i + j) else None.
Proof.
  intros Hi Hn. unfold slice, lookupz. case_decide as Hj; [|by rewrite decide_False by lia].
  case_decide as Hjn.
  - rewrite lookup_take_lt, lookup_drop, decide_True by lia. f_equal. lia.
  - by rewrite lookup_take_ge by lia.
Qed.

Lemma lookupz_splice i d l j :
  0 ≤ i → i + zlen d ≤ zlen l → 0 ≤ j →
  splice i d l !z j = if decide (i ≤ j < i + zlen d) then d !z (j - i) else l !z j.
Proof.
  intros Hi Hd Hj. unfold splice, lookupz. rewrite (decide_True (P := 0 ≤ j)) by lia.
  assert (Ht : length (take (Z.to_nat i) l) = Z.to_nat i) by (rewrite length_take; lia).
  case_decide as Hin.
  - rewrite decide_True, lookup_app_r, Ht, lookup_app_l by lia. f_equal. lia.
  - rewrite decide_True by lia. destruct (decide (j < i)).
    + by rewrite lookup_app_l, lookup_take_lt by lia.
    + rewrite lookup_app_r, Ht, lookup_app_r, lookup_drop by lia. f_equal. lia.
Qed.

Lemma zlen_slice i n l : 0 ≤ i → 0 ≤ n → i + n ≤ zlen l → zlen (slice i n l) = n.
Proof. intros. unfold slice. rewrite length_take, length_drop. lia. Qed.

Lemma zlen_splice i d l : 0 ≤ i → i + zlen d ≤ zlen l → zlen (splice i d l) = zlen l.
Proof. intros. unfold splice. rewrite !length_app, length_take, length_drop. lia. Qed.
End slices.

(** Lengths of slices, and equality of lists of slices, index by index. *)
Ltac slice_len := rewrite ?zlen_slice by slice_len; rewrite ?zlen_splice by slice_len; lia.

Ltac slices :=
  apply eq_lookupz; let j := fresh "j" in intros j ?;
  repeat first
    [ rewrite lookupz_slice by slice_len
    | rewrite lookupz_splice by slice_len
    | rewrite zlen_slice by slice_len
    | rewrite zlen_splice by slice_len
    | case_decide; try lia ];
  try (f_equal; lia); try done.

Section slice_lemmas.
Context {A : Type}.
Implicit Types (l d b c : list A).

Lemma lookupz_ge l j : zlen l ≤ j → l !z j = None.
Proof. intros. unfold lookupz. case_decide; [|done]. apply lookup_ge_None. lia. Qed.

Lemma splice_slice i n l : 0 ≤ i → 0 ≤ n → i + n ≤ zlen l → splice i (slice i n l) l = l.
Proof. intros. slices. Qed.

(** A part of a block that replaces a part of an array. *)
Lemma splice_nested i o d b c :
  0 ≤ i → 0 ≤ o → o + zlen d ≤ zlen b → i + zlen b ≤ zlen c →
  splice i (splice o d b) c = splice (i + o) d (splice i b c).
Proof. intros. slices. Qed.

Lemma slice_nested i o n b c :
  0 ≤ i → 0 ≤ o → 0 ≤ n → o + n ≤ zlen b → i + zlen b ≤ zlen c →
  slice (i + o) n (splice i b c) = slice o n b.
Proof. intros. slices. Qed.

Lemma slice_splice i d l : 0 ≤ i → i + zlen d ≤ zlen l → slice i (zlen d) (splice i d l) = d.
Proof. intros. slices. symmetry. apply lookupz_ge. lia. Qed.

Lemma splice_slices i k n d l :
  0 ≤ i → 0 ≤ k → 0 ≤ n → k + n ≤ zlen d → i + k + n ≤ zlen l →
  splice (i + k) (slice k n d) (splice i (slice 0 k d) l) = splice i (slice 0 (k + n) d) l.
Proof. intros. slices. Qed.

Lemma splice_empty i l : splice i [] l = l.
Proof. unfold splice. simpl. rewrite Z.add_0_r. apply take_drop. Qed.

Lemma splice_all d l : zlen d = zlen l → splice 0 d l = d.
Proof. intros. unfold splice. rewrite drop_ge by lia. apply app_nil_r. Qed.

(** Memory that holds the first [k] bytes gets the next [n]. *)
Lemma slice_extend i k n mem l :
  0 ≤ i → 0 ≤ k → 0 ≤ n → k + n ≤ zlen mem → i + k + n ≤ zlen l →
  slice 0 k mem = slice i k l →
  slice 0 (k + n) (splice k (slice (i + k) n l) mem) = slice i (k + n) l.
Proof.
  intros ? ? ? ? ? Hk. slices. assert (Hj : slice 0 k mem !z j = slice i k l !z j) by (by rewrite Hk).
  rewrite !lookupz_slice, !decide_True in Hj by lia. done.
Qed.
End slice_lemmas.

Lemma mem_write_ok i d mem : 0 ≤ i → i + zlen d ≤ zlen mem → mem_write i d mem = Some (splice i d mem).
Proof. intros. unfold mem_write. by rewrite decide_True. Qed.

Lemma mem_read_ok i n mem : 0 ≤ i → 0 ≤ n → i + n ≤ zlen mem → mem_read i n mem = Some (slice i n mem).
Proof. intros. unfold mem_read. by rewrite decide_True. Qed.

(** ** A part in the middle *)
Lemma slice_mid {A} (a b c : list A) i n : i = zlen a → n = zlen b → slice i n (a ++ b ++ c) = b.
Proof. intros -> ->. unfold slice. rewrite !Nat2Z.id, drop_app_length, take_app_length. done. Qed.

Lemma mem_read_mid a b c i n : i = zlen a → n = zlen b → mem_read i n (a ++ b ++ c) = Some b.
Proof. intros -> ->. rewrite mem_read_ok, slice_mid; rewrite ?length_app; try done; lia. Qed.

Lemma mem_write_mid a b b' c i : i = zlen a → zlen b' = zlen b → mem_write i b' (a ++ b ++ c) = Some (a ++ b' ++ c).
Proof.
  intros -> Hl. rewrite mem_write_ok by (rewrite ?length_app; lia). f_equal. unfold splice.
  rewrite Nat2Z.id, take_app_length, Hl. do 2 f_equal. rewrite app_assoc, drop_app_ge, length_app by (rewrite length_app; lia).
  by replace (_ - _)%nat with 0%nat by lia.
Qed.
