(* ===== verification/Ihash.v ===== *)
(** * The integer-keyed hash table (src/libihash/ihash.c, ihash.h)

    Open addressing with linear probing and tombstones.  A table is modelled
    with its C fields; [None] results stand for a failed assertion or an
    access outside the item array.  Calls of the user's cleanup function and
    the location pointers stored into user objects are part of the state. *)

From S2P Require Import Prelude.

(** ** Data *)

(** [struct _hurd_ihash_item] *)
Record hurd_ihash_item := mk_item { value : Z; key : Z }.

Abbreviation HURD_IHASH_EMPTY := 0 (only parsing).
Abbreviation HURD_IHASH_DELETED := (2 ^ 64 - 1) (only parsing).

Abbreviation HURD_IHASH_MIN_SIZE := 32 (only parsing).
Abbreviation HURD_IHASH_MAX_LOAD_DEFAULT := 96 (only parsing).
Abbreviation HURD_IHASH_NO_LOCP := (- 2 ^ 63) (only parsing).

(** What a cleanup call receives: the value of the removed item, or (in
    [hurd_ihash_locp_add]) the address of a slot of the item array. *)
Inductive cleanup_arg := CValue (v : Z) | CLocp (slot : Z).

(** [struct hurd_ihash].  [cleanup] is the function pointer and its
    [cleanup_data]; the last two fields are the effects on the outside: the
    user words that hold location pointers (a location pointer is the index
    of the slot it points to) and the cleanup calls made so far. *)
Record hurd_ihash := mk_ihash {
  nr_items : Z;
  items : list hurd_ihash_item;
  size : Z;
  locp_offset : Z;
  max_load : Z;
  cleanup : option (Z * Z);
  fct_hash : option (Z → Z);
  fct_cmp : option (Z → Z → bool);
  nr_free : Z;
  locps : gmap Z Z;
  cleaned : list (Z * cleanup_arg * Z)
}.

(** Field updates. *)
Definition set_slot (i : Z) (it : hurd_ihash_item) (ht : hurd_ihash) : hurd_ihash :=
  mk_ihash (nr_items ht) (updz i it (items ht)) (size ht) (locp_offset ht) (max_load ht)
    (cleanup ht) (fct_hash ht) (fct_cmp ht) (nr_free ht) (locps ht) (cleaned ht).
Definition set_counts (ni nf : Z) (ht : hurd_ihash) : hurd_ihash :=
  mk_ihash ni (items ht) (size ht) (locp_offset ht) (max_load ht)
    (cleanup ht) (fct_hash ht) (fct_cmp ht) nf (locps ht) (cleaned ht).
Definition set_array (l : list hurd_ihash_item) (sz ni nf : Z) (ht : hurd_ihash) : hurd_ihash :=
  mk_ihash ni l sz (locp_offset ht) (max_load ht)
    (cleanup ht) (fct_hash ht) (fct_cmp ht) nf (locps ht) (cleaned ht).
Definition call_cleanup (arg : cleanup_arg) (ht : hurd_ihash) : hurd_ihash :=
  match cleanup ht with
  | Some (f, data) =>
      mk_ihash (nr_items ht) (items ht) (size ht) (locp_offset ht) (max_load ht)
        (cleanup ht) (fct_hash ht) (fct_cmp ht) (nr_free ht) (locps ht)
        (cleaned ht ++ [(f, arg, data)])
  | None => ht
  end.
Definition store_locp (v i : Z) (ht : hurd_ihash) : hurd_ihash :=
  if decide (locp_offset ht = HURD_IHASH_NO_LOCP) then ht
  else mk_ihash (nr_items ht) (items ht) (size ht) (locp_offset ht) (max_load ht)
        (cleanup ht) (fct_hash ht) (fct_cmp ht) (nr_free ht)
        (<[v + locp_offset ht := i]> (locps ht)) (cleaned ht).

(** ** Helpers of ihash.c and ihash.h *)

Definition hurd_ihash_value_valid (v : Z) : bool :=
  bool_decide (v ≠ HURD_IHASH_EMPTY) && bool_decide (v ≠ HURD_IHASH_DELETED).

Definition hash (ht : hurd_ihash) (k : Z) : Z :=
  match fct_hash ht with Some f => f k | None => k end.

Definition compare (ht : hurd_ihash) (a b : Z) : bool :=
  match fct_cmp ht with
  | Some f => bool_decide (a ≠ 0) && f a b
  | None => bool_decide (a = b)
  end.

Definition index_empty (ht : hurd_ihash) (idx : Z) : option bool :=
  it ← items ht !z idx; Some (negb (hurd_ihash_value_valid (value it))).

Definition index_valid (ht : hurd_ihash) (idx : Z) (k : Z) : option bool :=
  it ← items ht !z idx;
  Some (hurd_ihash_value_valid (value it) && compare ht (key it) k).

(** [__builtin_ctzl]: the number of trailing zero bits. *)
Definition ctzl (x : Z) : Z := Z.log2 (Z.land x (- x)).

Definition load_of (sz n : Z) : Z :=
  let d := ctzl sz - 7 in
  u32 (if decide (0 ≤ d) then Z.shiftr n d else u64 (Z.shiftl n (- d))).

Definition hurd_ihash_get_load (ht : hurd_ihash) : Z := load_of (size ht) (nr_items ht).

Definition hurd_ihash_get_effective_load (ht : hurd_ihash) : Z :=
  load_of (size ht) (u64 (size ht - nr_free ht)).

(** The do-while loop of [find_index]; [first_deleted] is [None] while
    [first_deleted_set] is 0. *)
Fixpoint find_index_loop (fuel : nat) (ht : hurd_ihash) (k mask idx up_idx : Z)
    (first_deleted : option Z) : option Z :=
  match fuel with
  | O => None
  | S fuel' =>
      it ← items ht !z up_idx;
      if decide (value it = HURD_IHASH_EMPTY) then Some (default up_idx first_deleted)
      else if compare ht (key it) k then Some up_idx
      else
        let first_deleted' :=
          match first_deleted with
          | Some _ => first_deleted
          | None => if decide (value it = HURD_IHASH_DELETED) then Some up_idx else None
          end in
        let up_idx' := Z.land (u32 (up_idx + 1)) mask in
        if decide (up_idx' = idx) then Some (default 0 first_deleted')
        else find_index_loop fuel' ht k mask idx up_idx' first_deleted'
  end.

(** One round per slot is enough fuel (lemma [find_index_spec]). *)
Definition find_index (ht : hurd_ihash) (k : Z) : option Z :=
  let mask := u32 (size ht - 1) in
  let idx := u32 (Z.land (hash ht k) mask) in
  find_index_loop (Z.to_nat (size ht)) ht k mask idx idx None.

Definition locp_remove (ht : hurd_ihash) (locp : Z) : option hurd_ihash :=
  it ← items ht !z locp;
  if hurd_ihash_value_valid (value it) then
    let ht1 := call_cleanup (CValue (value it)) ht in
    let ht2 := set_slot locp (mk_item HURD_IHASH_DELETED 0) ht1 in
    Some (set_counts (nr_items ht2 - 1) (nr_free ht2) ht2)
  else None.

(** ** Construction *)

Definition hurd_ihash_init (locp_offs : Z) : hurd_ihash :=
  mk_ihash 0 [] 0 locp_offs HURD_IHASH_MAX_LOAD_DEFAULT None None None 0 ∅ [].

Definition hurd_ihash_create (locp_offs : Z) (o : allocs) : option hurd_ihash * error_t * allocs :=
  let '(ok, o') := alloc o in
  if ok then (Some (hurd_ihash_init locp_offs), E0, o') else (None, ENOMEM, o').

Definition hurd_ihash_set_cleanup (f data : Z) (ht : hurd_ihash) : hurd_ihash :=
  mk_ihash (nr_items ht) (items ht) (size ht) (locp_offset ht) (max_load ht)
    (if decide (f = 0) then None else Some (f, data))
    (fct_hash ht) (fct_cmp ht) (nr_free ht) (locps ht) (cleaned ht).

(** Both functions are asserted non-null, the table to be unused. *)
Definition hurd_ihash_set_gki (fh : Z → Z) (fc : Z → Z → bool) (ht : hurd_ihash)
    : option hurd_ihash :=
  if decide (size ht = 0) then
    Some (mk_ihash (nr_items ht) (items ht) (size ht) (locp_offset ht) (max_load ht)
      (cleanup ht) (Some fh) (Some fc) (nr_free ht) (locps ht) (cleaned ht))
  else None.

Definition hurd_ihash_set_max_load (ml : Z) (ht : hurd_ihash) : hurd_ihash :=
  mk_ihash (nr_items ht) (items ht) (size ht) (locp_offset ht) ml
    (cleanup ht) (fct_hash ht) (fct_cmp ht) (nr_free ht) (locps ht) (cleaned ht).

(** [HURD_IHASH_ITERATE]: the values the block runs on, in slot order. *)
Definition iterate (ht : hurd_ihash) : list Z :=
  List.filter hurd_ihash_value_valid (value <$> items ht).

(** The cleanup calls made when a table is destroyed. *)
Definition hurd_ihash_destroy (ht : hurd_ihash) : list (Z * cleanup_arg * Z) :=
  match cleanup ht with
  | Some (f, data) => (λ v, (f, CValue v, data)) <$> iterate ht
  | None => []
  end.

Definition hurd_ihash_free (ht : hurd_ihash) : list (Z * cleanup_arg * Z) := hurd_ihash_destroy ht.

(** ** Insertion *)

(** The second half of [add_one]: store the item if slot [idx] is free. *)
Definition fill_slot (ht : hurd_ihash) (idx k v : Z) : option (hurd_ihash * bool) :=
  it ← items ht !z idx;
  if hurd_ihash_value_valid (value it) then Some (ht, false)
  else
    let ht1 := set_counts (nr_items ht + 1) (nr_free ht) ht in
    ht2 ← (if decide (value it = HURD_IHASH_EMPTY) then
             if decide (0 < nr_free ht1)
             then Some (set_counts (nr_items ht1) (nr_free ht1 - 1) ht1)
             else None
           else Some ht1);
    Some (store_locp v idx (set_slot idx (mk_item v k) ht2), true).

Definition add_one (ht : hurd_ihash) (k v : Z) : option (hurd_ihash * bool) :=
  idx ← find_index ht k;
  iv ← index_valid ht idx k;
  ht1 ← (if iv : bool then locp_remove ht idx else Some ht);
  fill_slot ht1 idx k v.

(** The table [hurd_ihash_add] moves to: twice the size when the load is too
    high, else the same size without tombstones. *)
Definition new_size (ht : hurd_ihash) : Z :=
  if decide (size ht = 0) then HURD_IHASH_MIN_SIZE
  else if decide (max_load ht < hurd_ihash_get_load ht) then u64 (Z.shiftl (size ht) 1)
  else size ht.

Definition fresh_table (ht : hurd_ihash) : hurd_ihash :=
  set_array (replicate (Z.to_nat (new_size ht)) (mk_item HURD_IHASH_EMPTY 0))
    (new_size ht) 0 (new_size ht) ht.

(** The rehash loop over the old items; a failed insertion is the failed
    assertion [was_added]. *)
Fixpoint rehash (old : list hurd_ihash_item) (ht : hurd_ihash) : option hurd_ihash :=
  match old with
  | [] => Some ht
  | it :: old' =>
      if hurd_ihash_value_valid (value it) then
        '(ht', was_added) ← add_one ht (key it) (value it);
        if was_added : bool then rehash old' ht' else None
      else rehash old' ht
  end.

Definition add_result : Type := option (hurd_ihash * error_t * allocs).

(** [hurd_ihash_add] from [ht->nr_items = 0] on.  [retry] is what the
    [goto add_one] after a failed [calloc] leads to. *)
Definition add_reorganized (fatal : bool) (retry : allocs → add_result)
    (ht : hurd_ihash) (k v : Z) (o : allocs) : add_result :=
  let '(ok, o') := alloc o in
  if ok then
    ht1 ← rehash (items ht) (fresh_table ht);
    '(ht2, was_added) ← add_one ht1 k v;
    if was_added : bool then Some (ht2, E0, o') else None
  else if fatal || bool_decide (size ht = 0) then Some (ht, ENOMEM, o')
  else retry o'.

(** The labelled [if (add_one (ht, key, item)) return 0;]. *)
Definition add_or_else (otherwise : allocs → add_result)
    (ht : hurd_ihash) (k v : Z) (o : allocs) : add_result :=
  '(ht', added) ← add_one ht k v;
  if added : bool then Some (ht', E0, o) else otherwise o.

Definition hurd_ihash_add (ht : hurd_ihash) (k v : Z) (o : allocs) : add_result :=
  let last := add_reorganized true (λ _, None) ht k v in
  let reorganize := add_reorganized false (add_or_else last ht k v) ht k v in
  if bool_decide (size ht ≠ 0)
     && bool_decide (hurd_ihash_get_effective_load ht ≤ max_load ht)
  then add_or_else reorganize ht k v o
  else reorganize o.

(** ** Lookup and removal *)

Definition hurd_ihash_find (ht : hurd_ihash) (k : Z) : option Z :=
  if decide (size ht = 0) then Some 0
  else
    idx ← find_index ht k;
    iv ← index_valid ht idx k;
    it ← items ht !z idx;
    Some (if iv : bool then value it else 0).

(** The found value and the location, [None] for the null location. *)
Definition hurd_ihash_locp_find (ht : hurd_ihash) (k : Z) : option (Z * option Z) :=
  if decide (size ht = 0) then Some (0, None)
  else
    idx ← find_index ht k;
    iv ← index_valid ht idx k;
    it ← items ht !z idx;
    Some (if iv : bool then value it else 0, Some idx).

Definition hurd_ihash_remove (ht : hurd_ihash) (k : Z) : option (hurd_ihash * bool) :=
  if decide (size ht = 0) then Some (ht, false)
  else
    idx ← find_index ht k;
    iv ← index_valid ht idx k;
    if iv : bool then ht' ← locp_remove ht idx; Some (ht', true)
    else Some (ht, false).

Definition hurd_ihash_locp_remove (ht : hurd_ihash) (locp : Z) : option hurd_ihash :=
  locp_remove ht locp.

(** Insertion at a known location. *)
Definition hurd_ihash_locp_add (ht : hurd_ihash) (locp : option Z) (k v : Z) (o : allocs)
    : add_result :=
  match locp with
  | None => hurd_ihash_add ht k v o
  | Some slot =>
      if decide (size ht = 0) then hurd_ihash_add ht k v o
      else
        it ← items ht !z slot;
        if (hurd_ihash_value_valid (value it) && negb (compare ht (key it) k))
           || bool_decide (max_load ht < hurd_ihash_get_effective_load ht)
        then hurd_ihash_add ht k v o
        else
          ht1 ← (if hurd_ihash_value_valid (value it) then
                   if compare ht (key it) k then Some (call_cleanup (CLocp slot) ht) else None
                 else
                   let ht' := set_counts (nr_items ht + 1) (nr_free ht)
                                (set_slot slot (mk_item (value it) k) ht) in
                   if decide (value it = HURD_IHASH_EMPTY) then
                     if decide (0 < nr_free ht')
                     then Some (set_counts (nr_items ht') (nr_free ht' - 1) ht')
                     else None
                   else Some ht');
          it1 ← items ht1 !z slot;
          Some (store_locp v slot (set_slot slot (mk_item v (key it1)) ht1), E0, o)
  end.

(** ** Invariant *)

Definition valid_item (it : hurd_ihash_item) : bool := hurd_ihash_value_valid (value it).
Definition empty_item (it : hurd_ihash_item) : bool :=
  bool_decide (value it = HURD_IHASH_EMPTY).

(** What the user's hash and comparison functions must satisfy: the
    comparison is an equivalence on the keys (never null) that the hash
    respects.  The integer interface satisfies it ([default_gki_ok]). *)
Record gki_ok (ht : hurd_ihash) : Prop := {
  gki_refl : ∀ a, a ≠ 0 → compare ht a a = true;
  gki_sym : ∀ a b, a ≠ 0 → b ≠ 0 → compare ht a b = true → compare ht b a = true;
  gki_trans : ∀ a b c, a ≠ 0 → b ≠ 0 → c ≠ 0 →
    compare ht a b = true → compare ht b c = true → compare ht a c = true;
  gki_hash : ∀ a b, a ≠ 0 → b ≠ 0 → compare ht a b = true → hash ht a = hash ht b
}.

(** The [j]-th slot that is probed for the key [k]. *)
Definition probe (ht : hurd_ihash) (k j : Z) : Z := (hash ht k + j) mod size ht.

(** The slots probed for [k] before the [j]-th. *)
Definition before (ht : hurd_ihash) (k j : Z) (P : hurd_ihash_item → Prop) : Prop :=
  ∀ j', 0 ≤ j' < j → ∃ it, items ht !z probe ht k j' = Some it ∧ P it.

Definition reachable (ht : hurd_ihash) (k i : Z) : Prop :=
  ∃ j, 0 ≤ j < size ht ∧ i = probe ht k j ∧
    before ht k j (λ it, value it ≠ HURD_IHASH_EMPTY).

Record table_wf (ht : hurd_ihash) : Prop := {
  wf_size : ∃ n, 0 ≤ n ≤ 31 ∧ size ht = 2 ^ n;
  wf_len : zlen (items ht) = size ht;
  wf_nr_items : nr_items ht = countb valid_item (items ht);
  wf_nr_free : nr_free ht = countb empty_item (items ht);
  wf_vacant : ∀ i it, items ht !z i = Some it → valid_item it = false → key it = 0;
  wf_key : ∀ i it, items ht !z i = Some it → valid_item it = true → key it ≠ 0;
  wf_unique : ∀ i j it jt, items ht !z i = Some it → items ht !z j = Some jt →
    valid_item it = true → valid_item jt = true →
    compare ht (key it) (key jt) = true → i = j;
  wf_reach : ∀ i it, items ht !z i = Some it → valid_item it = true →
    reachable ht (key it) i
}.

Definition ihash_wf (ht : hurd_ihash) : Prop :=
  gki_ok ht ∧
  ((size ht = 0 ∧ items ht = [] ∧ nr_items ht = 0 ∧ nr_free ht = 0) ∨ table_wf ht).

(** The abstract content of the table: [k] is bound to [v]. *)
Definition binds (ht : hurd_ihash) (k v : Z) : Prop :=
  ∃ i it, items ht !z i = Some it ∧ valid_item it = true ∧
    compare ht (key it) k = true ∧ value it = v.

Lemma default_gki_ok ht : fct_cmp ht = None → gki_ok ht.
Proof.
  intros Hc. split; intros *; unfold compare; rewrite Hc, ?bool_decide_eq_true; naive_solver.
Qed.

Lemma valid_item_false it :
  valid_item it = false ↔ value it = HURD_IHASH_EMPTY ∨ value it = HURD_IHASH_DELETED.
Proof.
  unfold valid_item, hurd_ihash_value_valid.
  rewrite andb_false_iff, !bool_decide_eq_false.
  split; (intros [H|H]; [left|right]); [by apply dec_stable..|by intros ?|by intros ?].
Qed.

Lemma valid_item_true it :
  valid_item it = true ↔ value it ≠ HURD_IHASH_EMPTY ∧ value it ≠ HURD_IHASH_DELETED.
Proof.
  unfold valid_item, hurd_ihash_value_valid.
  rewrite andb_true_iff, !bool_decide_eq_true. tauto.
Qed.

(** A tombstone or an empty slot has key 0 and matches no key. *)
Lemma compare_zero ht k : k ≠ 0 → compare ht 0 k = false.
Proof.
  intros. unfold compare. destruct (fct_cmp ht); [done|].
  apply bool_decide_eq_false. congruence.
Qed.

(** ** The probe loop *)

Section probe_loop.
Context (ht : hurd_ihash) (Hwf : table_wf ht).

Lemma size_pos : 0 < size ht ≤ 2 ^ 31.
Proof.
  destruct (wf_size ht Hwf) as (n & Hn & ->). split; [apply Z.pow_pos_nonneg; lia|].
  apply Z.pow_le_mono_r; lia.
Qed.

Lemma land_mask_size x : Z.land x (u32 (size ht - 1)) = x mod size ht.
Proof.
  pose proof size_pos. rewrite u32_id by lia.
  destruct (wf_size ht Hwf) as (n & Hn & ->). apply land_mask. lia.
Qed.

Lemma probe_range k j : 0 ≤ probe ht k j < size ht.
Proof. apply Z.mod_pos_bound. pose proof size_pos. lia. Qed.

Lemma probe_slot k j : ∃ it, items ht !z probe ht k j = Some it.
Proof.
  apply lookupz_is_Some. rewrite (wf_len ht Hwf). apply probe_range.
Qed.

Lemma first_idx k : u32 (Z.land (hash ht k) (u32 (size ht - 1))) = probe ht k 0.
Proof.
  pose proof size_pos. rewrite land_mask_size. unfold probe. rewrite Z.add_0_r.
  apply u32_id. pose proof (Z.mod_pos_bound (hash ht k) (size ht)). lia.
Qed.

Lemma next_idx k j :
  Z.land (u32 (probe ht k j + 1)) (u32 (size ht - 1)) = probe ht k (j + 1).
Proof.
  pose proof size_pos. pose proof (probe_range k j). rewrite land_mask_size.
  rewrite u32_id by lia. unfold probe.
  rewrite Zplus_mod_idemp_l. f_equal. lia.
Qed.

Lemma probe_wrap k j : 0 < j ≤ size ht → probe ht k j = probe ht k 0 → j = size ht.
Proof.
  pose proof size_pos. unfold probe. intros Hj Heq.
  assert ((hash ht k + j - (hash ht k + 0)) mod size ht = 0) as Hm.
  { rewrite Zminus_mod, Heq, Z.sub_diag. apply Z.mod_0_l. lia. }
  replace (hash ht k + j - (hash ht k + 0)) with j in Hm by lia.
  destruct (decide (j = size ht)); [done|].
  rewrite Z.mod_small in Hm; lia.
Qed.

(** The three ways the search for [k] ends at slot [r]. *)
Definition passed (k : Z) (it : hurd_ihash_item) : Prop :=
  value it ≠ HURD_IHASH_EMPTY ∧ compare ht (key it) k = false.

Inductive search_ends (k r : Z) (it : hurd_ihash_item) : Prop :=
| search_match :
    compare ht (key it) k = true → value it ≠ HURD_IHASH_EMPTY → search_ends k r it
| search_room jend :
    valid_item it = false → reachable ht k r →
    0 ≤ jend ≤ size ht → before ht k jend (passed k) →
    (jend = size ht ∨
      ∃ e, items ht !z probe ht k jend = Some e ∧ value e = HURD_IHASH_EMPTY) →
    search_ends k r it
| search_full :
    before ht k (size ht) (λ e, passed k e ∧ value e ≠ HURD_IHASH_DELETED) →
    search_ends k r it.

Lemma before_step k j P it :
  0 ≤ j → before ht k j P → items ht !z probe ht k j = Some it → P it →
  before ht k (j + 1) P.
Proof.
  intros Hj Hb Hit HP j' Hj'.
  destruct (decide (j' = j)) as [->|]; [by eauto|]. apply Hb. lia.
Qed.

Lemma before_weaken k j j' P Q :
  j' ≤ j → (∀ it, P it → Q it) → before ht k j P → before ht k j' Q.
Proof.
  intros Hj HPQ Hb i Hi. destruct (Hb i) as (it & ? & ?); [lia|]. eauto.
Qed.

(** The first tombstone seen so far. *)
Definition tombstone_seen (k j : Z) (fd : option Z) : Prop :=
  match fd with
  | Some d => ∃ jd e, 0 ≤ jd < j ∧ d = probe ht k jd ∧
      items ht !z d = Some e ∧ value e = HURD_IHASH_DELETED
  | None => before ht k j (λ e, value e ≠ HURD_IHASH_DELETED)
  end.

Lemma seen_reachable k j jd :
  0 ≤ jd < j → j ≤ size ht → before ht k j (passed k) → reachable ht k (probe ht k jd).
Proof.
  intros ? ? Hb. exists jd. split; [lia|]. split; [done|].
  eapply before_weaken; [| |exact Hb]; [lia|]. by intros ? [? ?].
Qed.

Lemma search_stops k jend fd r0 :
  0 ≤ jend ≤ size ht → before ht k jend (passed k) → tombstone_seen k jend fd →
  (jend = size ht ∧ r0 = 0 ∨
    ∃ e, jend < size ht ∧ r0 = probe ht k jend ∧
      items ht !z r0 = Some e ∧ value e = HURD_IHASH_EMPTY) →
  ∃ it, items ht !z default r0 fd = Some it ∧ search_ends k (default r0 fd) it.
Proof.
  pose proof size_pos as Hsz.
  intros Hj Hb Hfd Hend. destruct fd as [d|]; simpl in *.
  - destruct Hfd as (jd & e & Hjd & -> & He & Hv). exists e. split; [done|].
    apply (search_room k _ e jend); [| |done|done|].
    + apply valid_item_false. by right.
    + eapply seen_reachable; [exact Hjd|lia|done].
    + destruct Hend as [[-> _]|(e' & ? & -> & ? & ?)]; [by left|]. right. eauto.
  - destruct Hend as [[-> ->]|(e & Hlt & -> & He & Hv)].
    + destruct (lookupz_is_Some (items ht) 0) as [it Hit].
      { rewrite (wf_len ht Hwf). lia. }
      exists it. split; [done|]. apply search_full.
      intros j' Hj'. destruct (Hb j' Hj') as (e1 & H1 & HP).
      destruct (Hfd j' Hj') as (e2 & H2 & HD). simplify_eq. eauto.
    + exists e. split; [done|]. apply (search_room k _ e jend); [| |lia|done|].
      * apply valid_item_false. by left.
      * exists jend. split; [lia|]. split; [done|].
        eapply before_weaken; [| |exact Hb]; [lia|]. by intros ? [? ?].
      * right. eauto.
Qed.

Lemma find_index_loop_spec k fuel j fd :
  0 ≤ j < size ht → Z.of_nat fuel = size ht - j →
  before ht k j (passed k) → tombstone_seen k j fd →
  ∃ r it, find_index_loop fuel ht k (u32 (size ht - 1)) (probe ht k 0) (probe ht k j) fd
            = Some r ∧ items ht !z r = Some it ∧ search_ends k r it.
Proof.
  revert j fd. induction fuel as [|fuel IH]; intros j fd Hj Hfuel Hb Hfd; [lia|].
  destruct (probe_slot k j) as [it Hit]. simpl. rewrite Hit. simpl.
  case_decide as Hempty.
  { destruct (search_stops k j fd (probe ht k j)) as (it' & ? & ?); [lia|done|done| |].
    - right. exists it. split; [lia|]. by rewrite Hit.
    - eauto. }
  destruct (compare ht (key it) k) eqn:Hcmp.
  { exists (probe ht k j), it. split; [done|]. split; [done|]. by apply search_match. }
  rewrite next_idx.
  set (fd' := match fd with Some _ => fd | None => _ end).
  assert (before ht k (j + 1) (passed k)) as Hb'.
  { eapply before_step; [lia|done|exact Hit|done]. }
  assert (tombstone_seen k (j + 1) fd') as Hfd'.
  { subst fd'. destruct fd as [d|].
    - destruct Hfd as (jd & e & ? & ?). exists jd, e. split; [lia|done].
    - simpl. case_decide as Hdel.
      + exists j, it. split; [lia|]. done.
      + simpl. eapply before_step; [lia|exact Hfd|exact Hit|done]. }
  case_decide as Hwrap.
  - apply probe_wrap in Hwrap; [|lia].
    destruct (search_stops k (j + 1) fd' 0) as (it' & ? & ?); [lia|done|done| |eauto].
    left. done.
  - apply IH; [|lia|done|done]. split; [lia|].
    destruct (decide (j + 1 = size ht)) as [Heq|]; [|lia].
    exfalso. apply Hwrap. rewrite Heq. unfold probe.
    rewrite Z.add_0_r, <-(Z.mul_1_l (size ht)) at 1. apply Z_mod_plus_full.
Qed.

Lemma find_index_ends k :
  ∃ r it, find_index ht k = Some r ∧ items ht !z r = Some it ∧ search_ends k r it.
Proof.
  pose proof size_pos. unfold find_index. rewrite first_idx.
  apply find_index_loop_spec; [lia|lia| |]; intros j' ?; lia.
Qed.

(** No binding of [k] lies beyond the end of the search. *)
Lemma search_complete k jend :
  gki_ok ht → k ≠ 0 →
  0 ≤ jend ≤ size ht → before ht k jend (passed k) →
  (jend = size ht ∨
    ∃ e, items ht !z probe ht k jend = Some e ∧ value e = HURD_IHASH_EMPTY) →
  ∀ v, ¬ binds ht k v.
Proof.
  intros Hg Hk Hj Hb Hend v (i & it & Hit & Hval & Hcmp & _).
  pose proof (wf_key ht Hwf i it Hit Hval) as Hk'.
  destruct (wf_reach ht Hwf i it Hit Hval) as (ji & Hji & Hi & Hbi).
  assert (∀ j, probe ht (key it) j = probe ht k j) as Hpr.
  { intros j. unfold probe. by rewrite (gki_hash ht Hg (key it) k). }
  rewrite Hpr in Hi. subst i.
  destruct (decide (ji < jend)).
  { destruct (Hb ji) as (it' & ? & [_ Hno]); [lia|]. simplify_eq. congruence. }
  destruct Hend as [->|(e & He & Hv)]; [lia|].
  destruct (decide (ji = jend)) as [->|].
  - simplify_eq. apply valid_item_true in Hval as [? _]. done.
  - destruct (Hbi jend) as (e' & He' & Hne); [lia|]. rewrite Hpr in He'. by simplify_eq.
Qed.
End probe_loop.

(** Every slot is probed for every key. *)
Lemma slot_is_probed ht k i :
  table_wf ht → 0 ≤ i < size ht → ∃ j, 0 ≤ j < size ht ∧ i = probe ht k j.
Proof.
  intros Hwf Hi. exists ((i - hash ht k) mod size ht). split.
  - apply Z.mod_pos_bound. lia.
  - unfold probe. rewrite Zplus_mod_idemp_r.
    replace (hash ht k + (i - hash ht k)) with i by lia. by rewrite Z.mod_small.
Qed.

Definition unbound (ht : hurd_ihash) (k : Z) : Prop := ∀ v, ¬ binds ht k v.

(** What [find_index] establishes for its callers. *)
Inductive slot_for (ht : hurd_ihash) (k r : Z) (it : hurd_ihash_item) : Prop :=
| slot_bound : valid_item it = true → compare ht (key it) k = true → slot_for ht k r it
| slot_room : unbound ht k → valid_item it = false → reachable ht k r → slot_for ht k r it
| slot_none : unbound ht k → valid_item it = true → compare ht (key it) k = false →
    (∀ x, x ∈ items ht → valid_item x = true) → slot_for ht k r it.

Lemma find_index_spec ht k :
  table_wf ht → gki_ok ht → k ≠ 0 →
  ∃ r it, find_index ht k = Some r ∧ items ht !z r = Some it ∧ slot_for ht k r it.
Proof.
  intros Hwf Hg Hk. destruct (find_index_ends ht Hwf k) as (r & it & Hr & Hit & Hend).
  exists r, it. split; [done|]. split; [done|].
  destruct Hend as [Hc Hne|jend Hv Hreach Hj Hb Hstop|Hall].
  - destruct (valid_item it) eqn:Hv; [by apply slot_bound|].
    rewrite (wf_vacant ht Hwf r it Hit Hv), compare_zero in Hc; done.
  - apply slot_room; [|done|done]. intros v. by apply (search_complete ht Hwf k jend).
  - assert (∀ x, x ∈ items ht → valid_item x = true ∧ compare ht (key x) k = false) as Hx.
    { intros x [i Hi]%elem_of_lookupz. pose proof (lookupz_lt _ _ _ Hi) as Hlt.
      rewrite (wf_len ht Hwf) in Hlt.
      destruct (slot_is_probed ht k i Hwf Hlt) as (j & Hj & ->).
      destruct (Hall j Hj) as (x' & ? & [? ?] & ?). simplify_eq.
      by rewrite valid_item_true. }
    destruct (Hx it) as [? ?]; [by eapply lookupz_elem_of|].
    apply slot_none; [|done|done|by intros x [? _]%Hx].
    intros v (i & x & Hxi & _ & Hc & _). destruct (Hx x); [by eapply lookupz_elem_of|].
    congruence.
Qed.

(** ** Preservation by slot updates *)

(** The configuration the operations leave alone. *)
Definition same_config (ht ht' : hurd_ihash) : Prop :=
  locp_offset ht' = locp_offset ht ∧ max_load ht' = max_load ht ∧
  cleanup ht' = cleanup ht ∧ fct_hash ht' = fct_hash ht ∧ fct_cmp ht' = fct_cmp ht.

#[export] Instance same_config_preorder : PreOrder same_config.
Proof.
  split; [done|]. intros x y z (?&?&?&?&?) (?&?&?&?&?). repeat split; congruence.
Qed.

Lemma same_compare ht ht' a b : same_config ht ht' → compare ht' a b = compare ht a b.
Proof. intros (_ & _ & _ & _ & H). unfold compare. by rewrite H. Qed.

Lemma same_hash ht ht' a : same_config ht ht' → hash ht' a = hash ht a.
Proof. intros (_ & _ & _ & H & _). unfold hash. by rewrite H. Qed.

Lemma same_gki ht ht' : same_config ht ht' → gki_ok ht → gki_ok ht'.
Proof.
  intros Hs [H1 H2 H3 H4]. split; intros *; rewrite ?(same_compare _ _ _ _ Hs), ?(same_hash _ _ _ Hs);
    eauto.
Qed.

(** A table that differs in one slot, which did not become empty. *)
Record slot_changed (ht ht' : hurd_ihash) (r : Z) (old new : hurd_ihash_item) : Prop := {
  sc_config : same_config ht ht';
  sc_size : size ht' = size ht;
  sc_old : items ht !z r = Some old;
  sc_items : items ht' = updz r new (items ht);
  sc_new : value new ≠ HURD_IHASH_EMPTY
}.

Section slot_changed.
Context (ht ht' : hurd_ihash) (r : Z) (old new : hurd_ihash_item).
Context (Hwf : table_wf ht) (Hg : gki_ok ht) (Hsc : slot_changed ht ht' r old new).

Let Hs : same_config ht ht' := sc_config _ _ _ _ _ Hsc.

Lemma changed_lookup i :
  items ht' !z i = if decide (r = i) then Some new else items ht !z i.
Proof.
  rewrite (sc_items _ _ _ _ _ Hsc). apply lookupz_updz.
  eapply lookupz_lt. apply (sc_old _ _ _ _ _ Hsc).
Qed.

Lemma changed_probe k j : probe ht' k j = probe ht k j.
Proof. unfold probe. by rewrite (same_hash _ _ _ Hs), (sc_size _ _ _ _ _ Hsc). Qed.

Lemma changed_reachable k i : reachable ht k i → reachable ht' k i.
Proof.
  intros (j & Hj & -> & Hb). exists j. rewrite changed_probe, (sc_size _ _ _ _ _ Hsc).
  split; [done|]. split; [done|]. intros j' Hj'. rewrite changed_probe, changed_lookup.
  case_decide; [|by apply Hb]. exists new. split; [done|]. apply (sc_new _ _ _ _ _ Hsc).
Qed.

Lemma changed_wf :
  nr_items ht' = nr_items ht - (if valid_item old then 1 else 0)
                 + (if valid_item new then 1 else 0) →
  nr_free ht' = nr_free ht - (if empty_item old then 1 else 0) →
  (valid_item new = false → key new = 0) →
  (valid_item new = true →
     key new ≠ 0 ∧ reachable ht (key new) r ∧
     ∀ i it, items ht !z i = Some it → i ≠ r → valid_item it = true →
       compare ht (key it) (key new) = false) →
  table_wf ht'.
Proof.
  intros Hni Hnf Hvac Hval.
  pose proof (sc_old _ _ _ _ _ Hsc) as Hold. split.
  - rewrite (sc_size _ _ _ _ _ Hsc). apply Hwf.
  - rewrite (sc_items _ _ _ _ _ Hsc), length_updz, (sc_size _ _ _ _ _ Hsc). apply Hwf.
  - rewrite (sc_items _ _ _ _ _ Hsc), (countb_updz _ _ _ _ old), Hni by done.
    by rewrite (wf_nr_items ht Hwf).
  - rewrite (sc_items _ _ _ _ _ Hsc), (countb_updz _ _ _ _ old), Hnf by done.
    rewrite (wf_nr_free ht Hwf).
    assert (empty_item new = false) as ->; [|lia].
    apply bool_decide_eq_false_2, (sc_new _ _ _ _ _ Hsc).
  - intros i it. rewrite changed_lookup. case_decide; [|apply Hwf].
    intros [= <-]. done.
  - intros i it. rewrite changed_lookup. case_decide; [|apply Hwf].
    intros [= <-] Hv. by apply Hval.
  - intros i j it jt. rewrite !changed_lookup. rewrite (same_compare _ _ _ _ Hs).
    intros Hi Hj Hvi Hvj Hc. repeat case_decide; simplify_eq; [done| | |].
    + exfalso. destruct (Hval Hvj) as (Hk & _ & Hno). rewrite (Hno i it) in Hc; done.
    + exfalso. destruct (Hval Hvi) as (Hk & _ & Hno).
      apply (gki_sym ht Hg) in Hc; [|done|by eapply wf_key].
      rewrite (Hno j jt) in Hc; done.
    + by apply (wf_unique ht Hwf i j it jt).
  - intros i it. rewrite changed_lookup. case_decide as Hi.
    + intros [= <-] Hv. subst i. apply changed_reachable. by apply Hval.
    + intros Hit Hv. apply changed_reachable. by apply (wf_reach ht Hwf).
Qed.

(** The bindings after the change: those of the other slots, and the new. *)
Lemma changed_binds k v :
  binds ht' k v ↔
    (valid_item new = true ∧ compare ht (key new) k = true ∧ value new = v) ∨
    ∃ i it, i ≠ r ∧ items ht !z i = Some it ∧ valid_item it = true ∧
      compare ht (key it) k = true ∧ value it = v.
Proof.
  split.
  - intros (i & it & Hit & Hv & Hc & <-). rewrite changed_lookup in Hit.
    rewrite (same_compare _ _ _ _ Hs) in Hc. case_decide; simplify_eq; [by left|].
    right. exists i, it. done.
  - intros [(Hv & Hc & <-)|(i & it & Hi & Hit & Hv & Hc & <-)].
    + exists r, new. rewrite changed_lookup, decide_True by done.
      by rewrite (same_compare _ _ _ _ Hs).
    + exists i, it. rewrite changed_lookup, decide_False by done.
      by rewrite (same_compare _ _ _ _ Hs).
Qed.
End slot_changed.

(** ** Removal of a slot *)

Definition log_cleanup (ht : hurd_ihash) (arg : cleanup_arg) : list (Z * cleanup_arg * Z) :=
  match cleanup ht with Some (f, data) => [(f, arg, data)] | None => [] end.

Lemma call_cleanup_fields arg ht :
  call_cleanup arg ht =
    mk_ihash (nr_items ht) (items ht) (size ht) (locp_offset ht) (max_load ht)
      (cleanup ht) (fct_hash ht) (fct_cmp ht) (nr_free ht) (locps ht)
      (cleaned ht ++ log_cleanup ht arg).
Proof.
  unfold call_cleanup, log_cleanup. destruct ht as [? ? ? ? ? [[f d]|]]; simpl; [done|].
  by rewrite app_nil_r.
Qed.

Lemma binds_unique ht i it k :
  table_wf ht → gki_ok ht → k ≠ 0 →
  items ht !z i = Some it → valid_item it = true → compare ht (key it) k = true →
  ∀ i' it', items ht !z i' = Some it' → valid_item it' = true →
    compare ht (key it') k = true → i' = i.
Proof.
  intros Hwf Hg Hk Hi Hv Hc i' it' Hi' Hv' Hc'.
  pose proof (wf_key ht Hwf _ _ Hi Hv). pose proof (wf_key ht Hwf _ _ Hi' Hv').
  apply (wf_unique ht Hwf i' i it' it); [done..|].
  apply (gki_trans ht Hg _ k); [done..|]. by apply (gki_sym ht Hg).
Qed.

Lemma locp_remove_spec ht r it :
  table_wf ht → gki_ok ht → items ht !z r = Some it → valid_item it = true →
  ∃ ht', locp_remove ht r = Some ht' ∧ table_wf ht' ∧
    slot_changed ht ht' r it (mk_item HURD_IHASH_DELETED 0) ∧
    cleaned ht' = cleaned ht ++ log_cleanup ht (CValue (value it)) ∧
    locps ht' = locps ht ∧ nr_items ht' = nr_items ht - 1 ∧ nr_free ht' = nr_free ht.
Proof.
  intros Hwf Hg Hit Hv. unfold locp_remove. rewrite Hit. simpl.
  change (hurd_ihash_value_valid (value it)) with (valid_item it). rewrite Hv.
  rewrite call_cleanup_fields. eexists. split; [done|].
  match goal with |- table_wf ?h ∧ _ => set (ht' := h) end.
  assert (slot_changed ht ht' r it (mk_item HURD_IHASH_DELETED 0)) as Hsc by done.
  split; [|done]. apply (changed_wf ht ht' r it _ Hwf Hg Hsc); subst ht'; simpl.
  - rewrite Hv. change (valid_item (mk_item HURD_IHASH_DELETED 0)) with false. lia.
  - apply valid_item_true in Hv as [? _]. unfold empty_item.
    rewrite bool_decide_eq_false_2 by done. lia.
  - done.
  - by intros [_ []]%valid_item_true.
Qed.

Lemma binds_remove ht ht' r it k v :
  table_wf ht → gki_ok ht → valid_item it = true → k ≠ 0 →
  slot_changed ht ht' r it (mk_item HURD_IHASH_DELETED 0) →
  binds ht' k v ↔ binds ht k v ∧ compare ht (key it) k = false.
Proof.
  intros Hwf Hg Hv Hk Hsc. rewrite (changed_binds _ _ _ _ _ Hsc).
  pose proof (sc_old _ _ _ _ _ Hsc) as Hit. split.
  - intros [(Hd & _)|(i & jt & Hi & Hjt & Hvj & Hc & <-)].
    { by apply valid_item_true in Hd as [_ []]. }
    split; [by exists i, jt|]. apply not_true_is_false. intros Hc'.
    apply Hi. by eapply (binds_unique ht r it k).
  - intros [(i & jt & Hjt & Hvj & Hc & <-) Hno]. right. exists i, jt.
    split; [|done]. intros ->. simplify_eq. congruence.
Qed.

(** ** Insertion *)

Definition stored_locp (ht : hurd_ihash) (v r : Z) : gmap Z Z :=
  if decide (locp_offset ht = HURD_IHASH_NO_LOCP) then locps ht
  else <[v + locp_offset ht := r]> (locps ht).

Lemma store_locp_fields v r ht :
  store_locp v r ht =
    mk_ihash (nr_items ht) (items ht) (size ht) (locp_offset ht) (max_load ht)
      (cleanup ht) (fct_hash ht) (fct_cmp ht) (nr_free ht) (stored_locp ht v r) (cleaned ht).
Proof. unfold store_locp, stored_locp. case_decide; by destruct ht. Qed.

Lemma fill_slot_spec ht r it k v :
  table_wf ht → gki_ok ht → k ≠ 0 → hurd_ihash_value_valid v = true →
  items ht !z r = Some it → valid_item it = false → reachable ht k r → unbound ht k →
  ∃ ht', fill_slot ht r k v = Some (ht', true) ∧ table_wf ht' ∧
    slot_changed ht ht' r it (mk_item v k) ∧
    cleaned ht' = cleaned ht ∧ locps ht' = stored_locp ht v r ∧
    nr_items ht' = nr_items ht + 1.
Proof.
  intros Hwf Hg Hk Hv Hit Hvac Hreach Hunb. unfold fill_slot. rewrite Hit. simpl.
  change (hurd_ihash_value_valid (value it)) with (valid_item it). rewrite Hvac.
  assert (empty_item it = true → 0 < nr_free ht) as Hfree.
  { intros He. rewrite (wf_nr_free ht Hwf). apply countb_pos. exists it.
    split; [by eapply lookupz_elem_of|done]. }
  assert (∀ ht', slot_changed ht ht' r it (mk_item v k) →
    nr_items ht' = nr_items ht + 1 →
    nr_free ht' = nr_free ht - (if empty_item it then 1 else 0) → table_wf ht') as Hnew.
  { intros ht' Hsc Hni Hnf. apply (changed_wf ht ht' r it _ Hwf Hg Hsc).
    - rewrite Hvac. change (valid_item (mk_item v k)) with (hurd_ihash_value_valid v).
      rewrite Hv. lia.
    - done.
    - change (valid_item (mk_item v k)) with (hurd_ihash_value_valid v). congruence.
    - intros _. split; [done|]. split; [done|]. intros i jt Hjt _ Hvj.
      apply not_true_is_false. intros Hc. eapply Hunb. by exists i, jt. }
  assert (value (mk_item v k) ≠ HURD_IHASH_EMPTY) as Hne.
  { by apply (valid_item_true (mk_item v k)). }
  destruct (empty_item it) eqn:He.
  - rewrite decide_True by (by apply bool_decide_eq_true in He).
    rewrite decide_True by (simpl; by apply Hfree). simpl.
    rewrite store_locp_fields. eexists. split; [done|]. split; [by apply Hnew|]. done.
  - rewrite decide_False by (by apply bool_decide_eq_false in He). simpl.
    rewrite store_locp_fields. eexists. split; [done|].
    split; [apply Hnew; [done|done|simpl; lia]|]. done.
Qed.

(** How a successful insertion changes the bindings. *)
Definition bindings_updated (ht ht' : hurd_ihash) (k v : Z) : Prop :=
  ∀ k' v', k' ≠ 0 →
    binds ht' k' v' ↔
      (compare ht k k' = true ∧ v' = v) ∨ (compare ht k k' = false ∧ binds ht k' v').

(** The value an insertion under [k] throws out, and its cleanup call. *)
Definition cleanup_of_old (ht : hurd_ihash) (k : Z) (log : list (Z * cleanup_arg * Z)) : Prop :=
  (∀ v, binds ht k v → log = log_cleanup ht (CValue v)) ∧ (unbound ht k → log = []).

Lemma binds_fill ht ht' r it k v :
  gki_ok ht → k ≠ 0 → table_wf ht → hurd_ihash_value_valid v = true → unbound ht k →
  valid_item it = false →
  slot_changed ht ht' r it (mk_item v k) → bindings_updated ht ht' k v.
Proof.
  intros Hg Hk Hwf Hv Hunb Hvac Hsc k' v' Hk'. rewrite (changed_binds _ _ _ _ _ Hsc).
  pose proof (sc_old _ _ _ _ _ Hsc) as Hit. simpl. split.
  - intros [(_ & Hc & <-)|(i & jt & Hi & Hjt & Hvj & Hc & <-)]; [by left|].
    right. split; [|by exists i, jt]. apply not_true_is_false. intros Hc'.
    apply (Hunb (value jt)). exists i, jt. repeat split; [done..|].
    pose proof (wf_key ht Hwf _ _ Hjt Hvj).
    apply (gki_trans ht Hg _ k'); [done..|]. by apply (gki_sym ht Hg).
  - intros [[Hc ->]|[Hc (i & jt & Hjt & Hvj & Hcj & <-)]]; [by left|].
    right. exists i, jt. split; [|done]. intros ->. simplify_eq. congruence.
Qed.

Record added (ht ht' : hurd_ihash) (k v : Z) : Prop := {
  added_config : same_config ht ht';
  added_binds : bindings_updated ht ht' k v;
  added_cleaned : ∃ log, cleaned ht' = cleaned ht ++ log ∧ cleanup_of_old ht k log;
  added_count : (unbound ht k → nr_items ht' = nr_items ht + 1) ∧
    ∀ v0, binds ht k v0 → nr_items ht' = nr_items ht
}.

(** An insertion puts the item in one slot and keeps the other valid ones. *)
Definition stored_at (ht ht' : hurd_ihash) (k v r : Z) : Prop :=
  items ht' !z r = Some (mk_item v k) ∧ locps ht' = stored_locp ht v r ∧
  ∀ i it, items ht' !z i = Some it → i = r ∨ items ht !z i = Some it.

Lemma changed_stored ht ht' r it k v :
  slot_changed ht ht' r it (mk_item v k) → locps ht' = stored_locp ht v r →
  stored_at ht ht' k v r.
Proof.
  intros Hsc Hl. split; [|split; [done|]].
  - rewrite (changed_lookup _ _ _ _ _ Hsc). by rewrite decide_True.
  - intros i jt. rewrite (changed_lookup _ _ _ _ _ Hsc). case_decide; naive_solver.
Qed.

Lemma add_one_bound ht r it k v :
  table_wf ht → gki_ok ht → k ≠ 0 → hurd_ihash_value_valid v = true →
  items ht !z r = Some it → valid_item it = true → compare ht (key it) k = true →
  ∃ ht1 ht', locp_remove ht r = Some ht1 ∧ fill_slot ht1 r k v = Some (ht', true) ∧
    table_wf ht' ∧ size ht' = size ht ∧ added ht ht' k v ∧ stored_at ht ht' k v r.
Proof.
  intros Hwf Hg Hk Hv Hit Hvi Hc.
  pose proof (wf_key ht Hwf _ _ Hit Hvi) as Hki.
  destruct (locp_remove_spec ht r it) as (ht1 & -> & Hwf1 & Hsc & Hlog & Hl1 & Hn1 & Hf1); [done..|].
  pose proof (sc_config _ _ _ _ _ Hsc) as Hs1.
  assert (unbound ht1 k) as Hunb.
  { intros v' [_ Hb]%(binds_remove _ _ _ _ _ _ Hwf Hg Hvi Hk Hsc). congruence. }
  assert (reachable ht1 k r) as Hreach.
  { apply (changed_reachable _ _ _ _ _ Hsc).
    destruct (wf_reach ht Hwf r it Hit Hvi) as (j & Hj & Hr & Hb).
    assert (∀ j, probe ht (key it) j = probe ht k j) as Hp.
    { intros ?. unfold probe. by rewrite (gki_hash ht Hg (key it) k). }
    exists j. split; [done|]. rewrite <-Hp. split; [done|].
    intros j' Hj'. rewrite <-Hp. by apply Hb. }
  destruct (fill_slot_spec ht1 r (mk_item HURD_IHASH_DELETED 0) k v)
    as (ht' & ? & Hwf' & Hsc' & Hlog' & Hl' & Hn'); [done|by eapply same_gki|done|done| |done|done|done|].
  { rewrite (changed_lookup _ _ _ _ _ Hsc). by rewrite decide_True. }
  pose proof (sc_config _ _ _ _ _ Hsc') as Hs'.
  exists ht1, ht'. split; [done|]. split; [done|]. split; [done|].
  split; [by rewrite (sc_size _ _ _ _ _ Hsc'), (sc_size _ _ _ _ _ Hsc)|]. split.
  - split; [by transitivity ht1| | |].
    + intros k' v' Hk'.
      assert (bindings_updated ht1 ht' k v) as Hbu.
      { apply (binds_fill ht1 ht' r (mk_item HURD_IHASH_DELETED 0)); [by eapply same_gki|done..]. }
      rewrite (Hbu k' v' Hk').
      rewrite !(same_compare _ _ _ _ Hs1), (binds_remove _ _ _ _ _ _ Hwf Hg Hvi Hk' Hsc).
      split; [tauto|]. intros [?|[Hcf Hb]]; [by left|]. right. split; [done|]. split; [done|].
      apply not_true_is_false. intros Hc'.
      rewrite (gki_trans ht Hg k (key it) k') in Hcf; [done..| |done]. by apply (gki_sym ht Hg).
    + exists (log_cleanup ht (CValue (value it))). rewrite Hlog', Hlog. split; [done|].
      split; [|intros Hu; destruct (Hu (value it)); by exists r, it].
      intros v' (i & jt & Hjt & Hvj & Hcj & <-).
      assert (i = r) as -> by (by eapply (binds_unique ht r it k)). by simplify_eq.
    + split; [|lia]. intros Hu. destruct (Hu (value it)). by exists r, it.
  - apply (changed_stored _ _ _ _ _ _ Hsc') in Hl' as (Hr & Hl' & Hrest).
    split; [done|]. split.
    + rewrite Hl'. unfold stored_locp. destruct Hs1 as (-> & _). by rewrite Hl1.
    + intros i jt [->|Hi]%Hrest; [by left|].
      rewrite (changed_lookup _ _ _ _ _ Hsc) in Hi. case_decide; naive_solver.
Qed.

Lemma add_one_spec ht k v :
  table_wf ht → gki_ok ht → k ≠ 0 → hurd_ihash_value_valid v = true →
  ∃ ht' b, add_one ht k v = Some (ht', b) ∧
    if b : bool then
      table_wf ht' ∧ size ht' = size ht ∧ added ht ht' k v ∧ ∃ r, stored_at ht ht' k v r
    else ht' = ht ∧ unbound ht k ∧ nr_items ht = size ht.
Proof.
  intros Hwf Hg Hk Hv. unfold add_one.
  destruct (find_index_spec ht k) as (r & it & -> & Hit & Hslot); [done..|].
  simpl. unfold index_valid. rewrite Hit. simpl.
  change (hurd_ihash_value_valid (value it)) with (valid_item it).
  destruct Hslot as [Hvi Hc|Hunb Hvac Hreach|Hunb Hvi Hc Hall].
  - rewrite Hvi, Hc. simpl.
    destruct (add_one_bound ht r it k v) as (ht1 & ht' & -> & Hf & ? & ? & ? & Hst); [done..|].
    simpl. rewrite Hf. exists ht', true. split; [done|]. eauto.
  - rewrite Hvac. simpl.
    destruct (fill_slot_spec ht r it k v) as (ht' & -> & ? & Hsc & Hlog & Hl & Hn); [done..|].
    exists ht', true. split; [done|]. split; [done|]. split; [apply Hsc|].
    split; [|by eauto using changed_stored]. split; [apply Hsc|by eapply binds_fill| |].
    + exists []. rewrite app_nil_r. split; [done|]. split; [|done]. intros v' Hb. by destruct (Hunb v').
    + split; [lia|]. intros v' Hb. by destruct (Hunb v').
  - rewrite Hvi, Hc. simpl. unfold fill_slot. rewrite Hit. simpl.
    change (hurd_ihash_value_valid (value it)) with (valid_item it). rewrite Hvi.
    exists ht, false. split; [done|]. split; [done|]. split; [done|].
    rewrite (wf_nr_items ht Hwf), <-(wf_len ht Hwf).
    clear -Hall. induction (items ht) as [|x l IH]; simpl; [done|].
    rewrite (Hall x) by left. rewrite IH; [lia|]. intros. apply Hall. by right.
Qed.

(** ** Location pointers *)

(** Every user object holds the location of its slot. *)
Definition locp_wf (ht : hurd_ihash) : Prop :=
  locp_offset ht ≠ HURD_IHASH_NO_LOCP →
  ∀ i it, items ht !z i = Some it → valid_item it = true →
    locps ht !! (value it + locp_offset ht) = Some i.

(** [v] is not the object of another key. *)
Definition fresh_value (ht : hurd_ihash) (k v : Z) : Prop :=
  locp_offset ht ≠ HURD_IHASH_NO_LOCP →
  ∀ k', k' ≠ 0 → binds ht k' v → compare ht k' k = true.

Lemma stored_locp_wf ht ht' k v r :
  gki_ok ht → table_wf ht' → same_config ht ht' → hurd_ihash_value_valid v = true →
  locp_wf ht → fresh_value ht k v → stored_at ht ht' k v r → locp_wf ht'.
Proof.
  intros Hg Hwf Hs Hv Hl Hfresh (Hr & Hlocps & Hrest) Hoff i it Hit Hvi.
  pose proof Hs as (Ho & _). rewrite Ho in *. rewrite Hlocps. unfold stored_locp.
  rewrite decide_False by done. destruct (Hrest i it Hit) as [->|Hold].
  { simplify_eq. simpl. apply lookup_insert_eq. }
  destruct (decide (value it = v)) as [Heq|Hne].
  - assert (i = r) as ->; [|rewrite Heq; apply lookup_insert_eq].
    apply (wf_unique ht' Hwf i r it (mk_item v k)); [done..|].
    rewrite (same_compare _ _ _ _ Hs). pose proof (wf_key ht' Hwf i it Hit Hvi).
    apply (Hfresh Hoff); [done|]. exists i, it. repeat split; [done..| |done].
    by apply (gki_refl ht Hg).
  - rewrite lookup_insert_ne by lia. by apply (Hl Hoff i).
Qed.

(** ** Rehashing *)

(** Two items that may be in one table. *)
Definition apart (ht : hurd_ihash) (a b : hurd_ihash_item) : Prop :=
  valid_item a = true → valid_item b = true →
  compare ht (key a) (key b) = false ∧
  (locp_offset ht ≠ HURD_IHASH_NO_LOCP → value a ≠ value b).

Lemma same_apart ht ht' a b : same_config ht ht' → apart ht a b → apart ht' a b.
Proof.
  intros Hs Hap Ha Hb. rewrite (same_compare _ _ _ _ Hs).
  destruct Hs as (-> & _). by apply Hap.
Qed.

Record rehashed (old : list hurd_ihash_item) (ht ht' : hurd_ihash) : Prop := {
  rh_wf : table_wf ht';
  rh_size : size ht' = size ht;
  rh_config : same_config ht ht';
  rh_cleaned : cleaned ht' = cleaned ht;
  rh_count : nr_items ht' = nr_items ht + countb valid_item old;
  rh_locp : locp_wf ht';
  rh_binds : ∀ k v, k ≠ 0 → binds ht' k v ↔ binds ht k v ∨
    ∃ it, it ∈ old ∧ valid_item it = true ∧ compare ht (key it) k = true ∧ value it = v
}.

Lemma rehashed_nil ht : table_wf ht → locp_wf ht → rehashed [] ht ht.
Proof.
  intros Hwf Hl. split; [done|done|reflexivity|done|simpl; lia|done|].
  intros k v _. split; [by left|]. intros [?|(? & H%elem_of_nil & _)]; done.
Qed.

Lemma rehashed_vacant it old ht ht' :
  valid_item it = false → rehashed old ht ht' → rehashed (it :: old) ht ht'.
Proof.
  intros Hvi [Hwf Hsz Hs Hcl Hct Hl Hb]. split; [done..|simpl; by rewrite Hvi|done|].
  intros k v Hk. rewrite (Hb k v Hk).
  split; (intros [?|(x & Hx & Hv & ?)]; [by left|right; exists x]).
  - split; [by right|done].
  - apply elem_of_cons in Hx as [->|?]; [congruence|done].
Qed.

Lemma rehashed_cons it old ht ht1 ht' :
  gki_ok ht → key it ≠ 0 → unbound ht (key it) → valid_item it = true →
  size ht1 = size ht → added ht ht1 (key it) (value it) → cleaned ht1 = cleaned ht →
  rehashed old ht1 ht' → rehashed (it :: old) ht ht'.
Proof.
  intros Hg Hkit Hunb Hvi Hsz1 [Hs1 Hb1 _ [Hn1 _]] Hcl1 [Hwf Hsz Hs Hcl Hct Hl Hb].
  split; [done|congruence|by transitivity ht1|congruence| |done|].
  - simpl. rewrite Hct, Hn1, Hvi by done. lia.
  - intros k v Hk. rewrite (Hb k v Hk), (Hb1 k v Hk). split.
    + intros [[[Hc ->]|[_ ?]]|(x & Hx & Hv & Hc & ?)].
      * right. exists it. split; [left|done].
      * by left.
      * right. exists x. rewrite (same_compare _ _ _ _ Hs1) in Hc. split; [by right|done].
    + intros [Hbk|(x & Hx & Hv & Hc & <-)].
      * left. right. split; [|done]. apply not_true_is_false. intros Hc.
        destruct Hbk as (i & jt & Hjt & Hvj & Hcj & ?).
        destruct (Hunb (value jt)). exists i, jt. repeat split; [done..|].
        destruct (decide (key jt = 0)) as [Hz|Hz].
        { rewrite Hz, compare_zero in Hcj; done. }
        apply (gki_trans ht Hg _ k); [done..|]. by apply (gki_sym ht Hg).
      * apply elem_of_cons in Hx as [->|Hx].
        -- left. by left.
        -- right. exists x. by rewrite (same_compare _ _ _ _ Hs1).
Qed.

Lemma apart_unbound ht it :
  gki_ok ht → table_wf ht → key it ≠ 0 → valid_item it = true →
  (∀ a, a ∈ items ht → apart ht a it) →
  unbound ht (key it) ∧ fresh_value ht (key it) (value it).
Proof.
  intros Hg Hwf Hk Hvi Hap. split.
  - intros v (i & jt & Hjt & Hvj & Hc & _).
    destruct (Hap jt) as [? _]; [by eapply lookupz_elem_of|done|done|]. congruence.
  - intros Hoff k' Hk' (i & jt & Hjt & Hvj & Hc & Hv). exfalso.
    destruct (Hap jt) as [_ Hd]; [by eapply lookupz_elem_of|done|done|]. by apply Hd.
Qed.

Lemma rehash_spec old ht :
  table_wf ht → gki_ok ht → locp_wf ht →
  (∀ it, it ∈ old → valid_item it = true → key it ≠ 0) →
  ForallOrdPairs (apart ht) old →
  (∀ a b, a ∈ items ht → b ∈ old → apart ht a b) →
  nr_items ht + countb valid_item old ≤ size ht →
  ∃ ht', rehash old ht = Some ht' ∧ rehashed old ht ht'.
Proof.
  revert ht. induction old as [|it old IH]; intros ht Hwf Hg Hl Hkeys Hpair Hnew Hroom.
  { exists ht. split; [done|]. by apply rehashed_nil. }
  inversion Hpair as [|? ? Hfirst Hpair']; subst. rewrite List.Forall_forall in Hfirst.
  simpl in Hroom |- *.
  change (hurd_ihash_value_valid (value it)) with (valid_item it).
  destruct (valid_item it) eqn:Hvi.
  2:{ destruct (IH ht) as (ht' & -> & Hr); [done..| |done| |lia|].
      - intros. apply Hkeys; [by right|done].
      - intros. apply Hnew; [done|by right].
      - exists ht'. split; [done|]. by apply rehashed_vacant. }
  assert (key it ≠ 0) as Hk by (apply Hkeys; [left|done]).
  destruct (apart_unbound ht it) as [Hunb Hfresh]; [done..| |].
  { intros a Ha. apply Hnew; [done|left]. }
  destruct (add_one_spec ht (key it) (value it)) as (ht1 & b & -> & Hb); [done..|].
  pose proof (countb_bounds valid_item old).
  destruct b; [|destruct Hb as (_ & _ & ?); lia].
  destruct Hb as (Hwf1 & Hsz1 & Hadd & r & Hst). simpl.
  pose proof (added_config _ _ _ _ Hadd) as Hs1.
  destruct (added_cleaned _ _ _ _ Hadd) as (log & Hcl & [_ Hlog]).
  rewrite (Hlog Hunb), app_nil_r in Hcl.
  destruct (added_count _ _ _ _ Hadd) as [Hn _].
  destruct (IH ht1) as (ht' & -> & Hr).
  - done.
  - by eapply same_gki.
  - eapply stored_locp_wf; [exact Hg|done|done|done|done|done|exact Hst].
  - intros. apply Hkeys; [by right|done].
  - eapply ForallOrdPairs_ind with (P := ForallOrdPairs (apart ht1)); [constructor| |exact Hpair'].
    intros a l Ha _ Hl'. constructor; [|done].
    eapply List.Forall_impl; [|exact Ha]. intros ?. by apply same_apart.
  - intros a b Ha Hb. apply (same_apart ht); [done|].
    apply elem_of_lookupz in Ha as [i Hi]. destruct Hst as (Hr' & _ & Hrest).
    destruct (Hrest i a Hi) as [->|Hold].
    + simplify_eq. intros Hva Hvb. simpl.
      apply (Hfirst b); [by apply list_elem_of_In|done|done].
    + apply Hnew; [by eapply lookupz_elem_of|by right].
  - rewrite Hn, Hsz1 by done. lia.
  - exists ht'. split; [done|]. by eapply (rehashed_cons it old ht ht1).
Qed.

(** ** Loads and table sizes *)

Lemma ctzl_pow2 n : 0 ≤ n → ctzl (2 ^ n) = n.
Proof.
  intros Hn. unfold ctzl.
  replace (- 2 ^ n) with (Z.lnot (Z.ones n)) by (rewrite Z.ones_equiv; unfold Z.lnot; lia).
  rewrite <-Z.ldiff_land, Z.ldiff_ones_r by done.
  rewrite Z.shiftr_div_pow2, Z.div_same, Z.shiftl_1_l by (lia || (apply Z.pow_nonzero; lia)).
  by apply Z.log2_pow2.
Qed.

(** A full table has load 128b%, whatever its size. *)
Lemma load_full n : 0 ≤ n ≤ 31 → load_of (2 ^ n) (2 ^ n) = 128.
Proof.
  intros Hn. unfold load_of. rewrite ctzl_pow2 by lia. case_decide.
  - rewrite Z.shiftr_div_pow2 by lia. rewrite <-Z.pow_sub_r by lia.
    replace (n - (n - 7)) with 7 by lia. done.
  - rewrite Z.shiftl_mul_pow2 by lia. rewrite <-Z.pow_add_r by lia.
    replace (n + - (n - 7)) with 7 by lia. done.
Qed.

Lemma table_full_load ht :
  table_wf ht → nr_items ht = size ht →
  hurd_ihash_get_load ht = 128 ∧ hurd_ihash_get_effective_load ht = 128.
Proof.
  intros Hwf Hfull. unfold hurd_ihash_get_load, hurd_ihash_get_effective_load.
  assert (nr_free ht = 0) as ->.
  { rewrite (wf_nr_free ht Hwf). apply countb_zero. intros x Hx.
    apply bool_decide_eq_false. intros Hv.
    rewrite (wf_nr_items ht Hwf), <-(wf_len ht Hwf) in Hfull. clear -Hfull Hx Hv.
    induction (items ht) as [|y l IH]; [by apply elem_of_nil in Hx|]; simpl in Hfull.
    pose proof (countb_bounds valid_item l). apply elem_of_cons in Hx as [->|Hx].
    - assert (valid_item y = false) as E by (apply valid_item_false; by left).
      rewrite E in Hfull. lia.
    - apply IH; [destruct (valid_item y); lia|done]. }
  pose proof (size_pos ht Hwf).
  rewrite Hfull, Z.sub_0_r, u64_id by lia.
  destruct (wf_size ht Hwf) as (n & Hn & ->). by rewrite load_full.
Qed.

Lemma fresh_table_wf ht n :
  0 ≤ n ≤ 31 → new_size ht = 2 ^ n → table_wf (fresh_table ht) ∧ locp_wf (fresh_table ht).
Proof.
  intros Hn Hsz. assert (0 < 2 ^ n) by (apply Z.pow_pos_nonneg; lia).
  assert (∀ i it, items (fresh_table ht) !z i = Some it →
    it = mk_item HURD_IHASH_EMPTY 0 ∧ valid_item it = false) as Hall.
  { intros i it [-> _]%lookupz_replicate. done. }
  split.
  - split; simpl.
    + eauto.
    + rewrite length_replicate, Hsz. lia.
    + by rewrite countb_replicate.
    + rewrite countb_replicate. simpl. rewrite Hsz. lia.
    + by intros i it [-> ?]%Hall.
    + intros i it [-> ?]%Hall. done.
    + intros i j it jt [-> ?]%Hall. done.
    + intros i it [-> ?]%Hall. done.
  - intros _ i it [-> ?]%Hall. done.
Qed.

Lemma same_config_fresh ht : same_config ht (fresh_table ht).
Proof. done. Qed.

(** The old table's items may all go into a new one. *)
Lemma old_items_apart ht :
  table_wf ht → locp_wf ht → ForallOrdPairs (apart ht) (items ht).
Proof.
  intros Hwf Hl.
  assert (∀ i j a b, items ht !z i = Some a → items ht !z j = Some b → i ≠ j → apart ht a b) as Hap.
  { intros i j a b Ha Hb Hij Hva Hvb. split.
    - apply not_true_is_false. intros Hc. apply Hij. by apply (wf_unique ht Hwf i j a b).
    - intros Hoff Heq. apply Hij. pose proof (Hl Hoff i a Ha Hva) as H1.
      pose proof (Hl Hoff j b Hb Hvb) as H2. rewrite Heq, H2 in H1. congruence. }
  clear Hwf Hl. revert Hap. generalize (items ht). intros l.
  induction l as [|a l IH]; intros Hap; constructor.
  - apply List.Forall_forall. intros b [j Hj]%list_elem_of_In%elem_of_lookupz.
    pose proof (lookupz_lt _ _ _ Hj).
    apply (Hap 0 (j + 1)); [done| |lia]. unfold lookupz in *.
    repeat (rewrite decide_True in * by lia).
    replace (Z.to_nat (j + 1)) with (S (Z.to_nat j)) by lia. done.
  - apply IH. intros i j x y Hx Hy Hij.
    pose proof (lookupz_lt _ _ _ Hx). pose proof (lookupz_lt _ _ _ Hy).
    apply (Hap (i + 1) (j + 1)); [| |lia]; unfold lookupz in *;
      repeat (rewrite decide_True in * by lia);
      [replace (Z.to_nat (i + 1)) with (S (Z.to_nat i)) by lia
      |replace (Z.to_nat (j + 1)) with (S (Z.to_nat j)) by lia]; done.
Qed.

Lemma new_size_spec ht :
  ihash_wf ht → max_load ht ≤ 127 → size ht < 2 ^ 31 →
  ∃ n, 0 ≤ n ≤ 31 ∧ new_size ht = 2 ^ n ∧ nr_items ht < new_size ht.
Proof.
  intros [Hg Hcase] Hml Hsz. unfold new_size. case_decide as H0.
  { exists 5. split; [lia|]. split; [done|].
    destruct Hcase as [(_ & _ & -> & _)|Hwf]; [done|]. pose proof (size_pos ht Hwf). lia. }
  destruct Hcase as [(? & _)|Hwf]; [done|].
  pose proof (size_pos ht Hwf). pose proof (countb_bounds valid_item (items ht)).
  rewrite <-(wf_nr_items ht Hwf), (wf_len ht Hwf) in *.
  destruct (wf_size ht Hwf) as (n & Hn & Hpow). case_decide as Hload.
  - exists (n + 1). rewrite Z.pow_add_r, <-Hpow, Z.shiftl_mul_pow2, u64_id by lia.
    split; [|lia]. split; [lia|].
    assert (n < 31); [|lia]. apply (Z.pow_lt_mono_r_iff 2); lia.
  - exists n. split; [done|]. split; [done|].
    destruct (decide (nr_items ht = size ht)) as [Hfull|]; [|lia].
    destruct (table_full_load ht Hwf Hfull). lia.
Qed.

(** ** [hurd_ihash_add] *)

Definition add_ok (ht : hurd_ihash) (k v : Z) (res : hurd_ihash) : Prop :=
  table_wf res ∧ added ht res k v ∧ (locp_wf ht → fresh_value ht k v → locp_wf res).

Lemma reorganize_spec fatal retry ht k v o :
  ihash_wf ht → locp_wf ht → max_load ht ≤ 127 → size ht < 2 ^ 31 →
  k ≠ 0 → hurd_ihash_value_valid v = true →
  (∃ ht', add_reorganized fatal retry ht k v o = Some (ht', E0, (alloc o).2) ∧ add_ok ht k v ht') ∨
  (alloc o).1 = false ∧
  add_reorganized fatal retry ht k v o =
    if fatal || bool_decide (size ht = 0) then Some (ht, ENOMEM, (alloc o).2)
    else retry (alloc o).2.
Proof.
  intros Hwf Hl Hml Hsz Hk Hv. unfold add_reorganized.
  destruct (alloc o) as [[] o']; [left|by right]. simpl.
  pose proof Hwf as [Hg Hcase].
  destruct (new_size_spec ht) as (n & Hn & Hnew & Hroom); [done..|].
  destruct (fresh_table_wf ht n Hn Hnew) as [Hwf0 Hl0].
  assert (ForallOrdPairs (apart ht) (items ht) ∧
    (∀ it, it ∈ items ht → valid_item it = true → key it ≠ 0) ∧
    nr_items ht = countb valid_item (items ht)) as (Hap & Hkeys & Hcount).
  { destruct Hcase as [(_ & -> & -> & _)|Ht].
    - split; [constructor|]. split; [by intros ? ?%elem_of_nil|done].
    - split; [by apply old_items_apart|]. split; [|apply Ht].
      intros it [i Hi]%elem_of_lookupz. by apply (wf_key ht Ht i). }
  destruct (rehash_spec (items ht) (fresh_table ht)) as (ht1 & -> & Hr).
  - done.
  - by apply (same_gki ht).
  - done.
  - done.
  - done.
  - intros a b [i Hi]%elem_of_lookupz. apply lookupz_replicate in Hi as [-> _].
    intros ?. done.
  - simpl. lia.
  - destruct Hr as [Hwf1 Hsz1 Hs1 Hcl1 Hct1 Hl1 Hb1]. simpl in Hsz1, Hcl1, Hct1.
    pose proof (same_config_fresh ht) as Hs0.
    assert (same_config ht ht1) as Hs by (by transitivity (fresh_table ht)).
    assert (∀ k v, k ≠ 0 → binds ht1 k v ↔ binds ht k v) as Hbinds.
    { intros k' v' Hk'. rewrite Hb1 by done. split.
      - intros [(i & it & Hit & Hvi & _)|(it & [i Hi]%elem_of_lookupz & ?)].
        + apply lookupz_replicate in Hit as [-> _]. done.
        + exists i, it. done.
      - intros (i & it & Hi & ?). right. exists it.
        split; [by eapply lookupz_elem_of|done]. }
    destruct (add_one_spec ht1 k v) as (ht2 & b & Hadd & Hb); [done|by eapply same_gki|done..|].
    simpl. rewrite Hadd.
    destruct b; [|destruct Hb as (_ & _ & ?); lia].
    destruct Hb as (Hwf2 & Hsz2 & [Hs2 Hb2 Hcl2 Hct2] & r & Hst). simpl.
    exists ht2. split; [done|]. split; [done|]. split.
    + split; [by transitivity ht1| | |].
      * intros k' v' Hk'. rewrite (Hb2 k' v' Hk'), (same_compare _ _ _ _ Hs).
        by rewrite (Hbinds k' v' Hk').
      * destruct Hcl2 as (log & -> & Hlog1 & Hlog2). exists log. rewrite Hcl1.
        split; [done|]. unfold log_cleanup in *. destruct Hs as (_ & _ & Hcu & _).
        rewrite Hcu in *. split.
        -- intros v' ?. apply Hlog1. by apply Hbinds.
        -- intros Hu. apply Hlog2. intros v' ?%Hbinds; [|done]. by eapply Hu.
      * destruct Hct2 as [Hc1 Hc2]. rewrite Hct1 in *. split.
        -- intros Hu. rewrite Hc1; [lia|]. intros v' ?%Hbinds; [|done]. by eapply Hu.
        -- intros v0 ?. rewrite (Hc2 v0); [lia|]. by apply Hbinds.
    + intros _ Hfresh. eapply stored_locp_wf; [by apply (same_gki ht)|done|exact Hs2|done|done| |exact Hst].
      intros Hoff k' Hk' Hb%Hbinds; [|done]. rewrite (same_compare _ _ _ _ Hs).
      apply Hfresh; [|done|done]. by destruct Hs as (<- & _).
Qed.

Lemma add_or_else_spec otherwise ht k v o :
  table_wf ht → gki_ok ht → k ≠ 0 → hurd_ihash_value_valid v = true →
  (∃ ht', add_or_else otherwise ht k v o = Some (ht', E0, o) ∧ add_ok ht k v ht') ∨
  (nr_items ht = size ht ∧ add_or_else otherwise ht k v o = otherwise o).
Proof.
  intros Hwf Hg Hk Hv. unfold add_or_else.
  destruct (add_one_spec ht k v) as (ht' & [] & -> & Hb); [done..| |].
  - destruct Hb as (Hwf' & _ & Hadd & r & Hst). left. exists ht'. split; [done|].
    split; [done|]. split; [done|]. intros Hl Hfresh.
    eapply stored_locp_wf; [exact Hg|done|apply Hadd|done|done|done|exact Hst].
  - destruct Hb as (-> & _ & Hfull). right. done.
Qed.

(** The outcome of [hurd_ihash_add]: no assertion fails and no access is out
    of bounds; the insertion is done, or memory is exhausted and the table is
    left as it was. *)
Lemma hurd_ihash_add_spec ht k v o :
  ihash_wf ht → locp_wf ht → max_load ht ≤ 127 → size ht < 2 ^ 31 →
  k ≠ 0 → hurd_ihash_value_valid v = true →
  ∃ ht' err o', hurd_ihash_add ht k v o = Some (ht', err, o') ∧
    (err = E0 ∧ add_ok ht k v ht' ∨ err = ENOMEM ∧ ht' = ht ∧ false ∈ o).
Proof.
  intros Hwf Hl Hml Hsz Hk Hv. pose proof Hwf as [Hg Hcase].
  assert (∀ o, (alloc o).1 = false → false ∈ o) as Hfail.
  { intros [|[] ?]; simpl; try done. intros _. left. }
  assert (∀ o, false ∈ (alloc o).2 → false ∈ o) as Hlater.
  { intros [|b ?]; simpl; try done. intros ?. by right. }
  set (last := add_reorganized true (λ _, None) ht k v).
  assert (∀ o, ∃ ht' err o', add_reorganized false (add_or_else last ht k v) ht k v o
             = Some (ht', err, o') ∧
    (err = E0 ∧ add_ok ht k v ht' ∨ err = ENOMEM ∧ ht' = ht ∧ false ∈ o)) as Hreorg.
  { intros o1. destruct (reorganize_spec false (add_or_else last ht k v) ht k v o1)
      as [(ht' & -> & ?)|[Ha ->]]; [done..|by eauto 8|]. simpl.
    case_bool_decide as Hs0; [by eauto 10|].
    destruct Hcase as [(? & _)|Ht]; [done|].
    destruct (add_or_else_spec last ht k v (alloc o1).2)
      as [(ht' & -> & ?)|[_ ->]]; [done..|by eauto 8|]. subst last.
    destruct (reorganize_spec true (λ _, None) ht k v (alloc o1).2)
      as [(ht' & -> & ?)|[Ha' ->]]; [done..|by eauto 8|]. simpl. eauto 10. }
  unfold hurd_ihash_add. fold last. case_bool_decide as Hs0; simpl; [|apply Hreorg].
  destruct Hcase as [(? & _)|Ht]; [done|].
  case_bool_decide as Hload; [|apply Hreorg].
  destruct (add_or_else_spec (add_reorganized false (add_or_else last ht k v) ht k v) ht k v o)
    as [(ht' & -> & ?)|[Hfull ->]]; [done..|by eauto 8|].
  destruct (table_full_load ht Ht Hfull). lia.
Qed.

(** ** Lookup and removal *)

Lemma binds_functional ht k v v' :
  ihash_wf ht → k ≠ 0 → binds ht k v → binds ht k v' → v = v'.
Proof.
  intros [Hg [(_ & Hnil & _)|Hwf]] Hk (i & it & Hi & Hv & Hc & <-) (j & jt & Hj & Hvj & Hcj & <-).
  { rewrite Hnil in Hi. by apply lookupz_lt in Hi; simpl in Hi; lia. }
  assert (j = i) as -> by (by eapply (binds_unique ht i it k)). by simplify_eq.
Qed.

Lemma binds_valid ht k v : binds ht k v → hurd_ihash_value_valid v = true.
Proof. intros (i & it & _ & Hv & _ & <-). done. Qed.

Lemma empty_unbound ht k : items ht = [] → unbound ht k.
Proof.
  intros Hnil v (i & it & Hi & _). rewrite Hnil in Hi.
  apply lookupz_lt in Hi. simpl in Hi. lia.
Qed.

Lemma hurd_ihash_find_spec ht k :
  ihash_wf ht → k ≠ 0 →
  ∃ v, hurd_ihash_find ht k = Some v ∧ (binds ht k v ∨ v = 0 ∧ unbound ht k).
Proof.
  intros [Hg Hcase] Hk. unfold hurd_ihash_find. case_decide as H0.
  { exists 0. split; [done|]. right. split; [done|].
    destruct Hcase as [(_ & ? & _)|Hwf]; [by apply empty_unbound|].
    pose proof (size_pos ht Hwf). lia. }
  destruct Hcase as [(? & _)|Hwf]; [done|].
  destruct (find_index_spec ht k) as (r & it & -> & Hit & Hslot); [done..|].
  simpl. unfold index_valid. rewrite Hit. simpl.
  change (hurd_ihash_value_valid (value it)) with (valid_item it).
  destruct Hslot as [Hv Hc|Hu Hv _|Hu Hv Hc _].
  - rewrite Hv, Hc. eexists. split; [done|]. left. by exists r, it.
  - rewrite Hv. simpl. eauto.
  - rewrite Hv, Hc. simpl. eauto.
Qed.

(** [hurd_ihash_find] in terms of the bindings. *)
Lemma find_bound ht k v :
  ihash_wf ht → k ≠ 0 → binds ht k v → hurd_ihash_find ht k = Some v.
Proof.
  intros Hwf Hk Hb. destruct (hurd_ihash_find_spec ht k) as (v' & -> & [Hb'|[_ Hu]]); [done..| |].
  - f_equal. by eapply binds_functional.
  - by destruct (Hu v).
Qed.

Lemma find_unbound ht k :
  ihash_wf ht → k ≠ 0 → unbound ht k → hurd_ihash_find ht k = Some 0.
Proof.
  intros Hwf Hk Hu. destruct (hurd_ihash_find_spec ht k) as (v' & -> & [Hb'|[-> _]]); [done..| |done].
  by destruct (Hu v').
Qed.

Lemma find_same_bindings ht ht' k :
  ihash_wf ht → ihash_wf ht' → k ≠ 0 → (∀ v, binds ht' k v ↔ binds ht k v) →
  hurd_ihash_find ht' k = hurd_ihash_find ht k.
Proof.
  intros Hwf Hwf' Hk Hb. destruct (hurd_ihash_find_spec ht k) as (v & -> & [Hv|[-> Hu]]); [done..| |].
  - apply find_bound; [done..|]. by apply Hb.
  - apply find_unbound; [done..|]. intros v ?%Hb. by eapply Hu.
Qed.

Lemma hurd_ihash_remove_spec ht k :
  ihash_wf ht → k ≠ 0 →
  ∃ ht' b, hurd_ihash_remove ht k = Some (ht', b) ∧
    if b : bool then
      ∃ v, binds ht k v ∧ ihash_wf ht' ∧ same_config ht ht' ∧ locps ht' = locps ht ∧
        cleaned ht' = cleaned ht ++ log_cleanup ht (CValue v) ∧
        (locp_wf ht → locp_wf ht') ∧
        ∀ k' v', k' ≠ 0 → binds ht' k' v' ↔ binds ht k' v' ∧ compare ht k k' = false
    else ht' = ht ∧ unbound ht k.
Proof.
  intros [Hg Hcase] Hk. unfold hurd_ihash_remove. case_decide as H0.
  { exists ht, false. split; [done|]. split; [done|].
    destruct Hcase as [(_ & ? & _)|Hwf]; [by apply empty_unbound|].
    pose proof (size_pos ht Hwf). lia. }
  destruct Hcase as [(? & _)|Hwf]; [done|].
  destruct (find_index_spec ht k) as (r & it & -> & Hit & Hslot); [done..|].
  simpl. unfold index_valid. rewrite Hit. simpl.
  change (hurd_ihash_value_valid (value it)) with (valid_item it).
  destruct Hslot as [Hv Hc|Hu Hv _|Hu Hv Hc _].
  - rewrite Hv, Hc. simpl.
    destruct (locp_remove_spec ht r it) as (ht' & -> & Hwf' & Hsc & Hcl & Hl & _); [done..|].
    pose proof (sc_config _ _ _ _ _ Hsc) as Hs. pose proof (wf_key ht Hwf r it Hit Hv).
    exists ht', true. split; [done|]. exists (value it). split; [by exists r, it|].
    split; [split; [by eapply same_gki|by right]|]. split; [done|]. split; [done|].
    split; [done|]. split.
    + intros Hlw Hoff i jt Hjt Hvj. destruct Hs as (Ho & _). rewrite Ho, Hl in *.
      rewrite (changed_lookup _ _ _ _ _ Hsc) in Hjt. case_decide; simplify_eq.
      by apply (Hlw Hoff i).
    + intros k' v' Hk'. rewrite (binds_remove _ _ _ _ _ _ Hwf Hg Hv Hk' Hsc).
      assert (compare ht (key it) k' = compare ht k k') as ->; [|done].
      apply eq_bool_prop_intro. split; intros Hx%Is_true_eq_true; apply Is_true_eq_left.
      * apply (gki_trans ht Hg _ (key it)); [done..| |done]. by apply (gki_sym ht Hg).
      * by apply (gki_trans ht Hg _ k).
  - rewrite Hv. simpl. exists ht, false. done.
  - rewrite Hv, Hc. simpl. exists ht, false. done.
Qed.

Lemma find_updated ht ht' k v :
  ihash_wf ht → ihash_wf ht' → bindings_updated ht ht' k v → ∀ k', k' ≠ 0 →
  hurd_ihash_find ht' k' = if compare ht k k' then Some v else hurd_ihash_find ht k'.
Proof.
  intros Hwf Hwf' Hb k' Hk'. destruct (compare ht k k') eqn:Hc.
  - apply find_bound; [done..|]. apply Hb; [done|]. by left.
  - apply find_same_bindings; [done..|]. intros v'. rewrite (Hb k' v' Hk'), Hc.
    split; [|by right]. by intros [[? _]|[_ ?]].
Qed.

(** What an insertion of [v] under [k] into [ht] may answer. *)
Definition insertion (ht : hurd_ihash) (k v : Z) (o : allocs) (r : add_result) : Prop :=
  ∃ ht' err o', r = Some (ht', err, o') ∧ ihash_wf ht' ∧
    (err = E0 ∧
       (∀ k', k' ≠ 0 →
         hurd_ihash_find ht' k' = if compare ht k k' then Some v else hurd_ihash_find ht k')
     ∨ err = ENOMEM ∧ ht' = ht ∧ false ∈ o).

Lemma add_insertion ht k v o :
  ihash_wf ht → locp_wf ht → max_load ht ≤ 127 → size ht < 2 ^ 31 →
  k ≠ 0 → hurd_ihash_value_valid v = true →
  insertion ht k v o (hurd_ihash_add ht k v o).
Proof.
  intros Hwf Hl Hml Hsz Hk Hv.
  destruct (hurd_ihash_add_spec ht k v o)
    as (ht' & err & o' & Heq & [[-> (Hwf' & Hadd & _)]|(-> & -> & ?)]); [done..| |].
  - assert (ihash_wf ht').
    { split; [|by right]. apply (same_gki ht); [apply Hadd|apply Hwf]. }
    exists ht', E0, o'. split; [done|]. split; [done|]. left. split; [done|].
    apply find_updated; [done..|apply Hadd].
  - exists ht, ENOMEM, o'. split; [done|]. split; [done|]. by right.
Qed.

Lemma insertion_done ht ht' k v o :
  ihash_wf ht → ihash_wf ht' → bindings_updated ht ht' k v →
  insertion ht k v o (Some (ht', E0, o)).
Proof.
  intros. exists ht', E0, o. split; [done|]. split; [done|]. left.
  split; [done|]. by apply find_updated.
Qed.

(** What becomes of the old value, in terms of [hurd_ihash_find]. *)
Lemma added_cleanup ht ht' k v :
  ihash_wf ht → k ≠ 0 → added ht ht' k v →
  ∃ old, hurd_ihash_find ht k = Some old ∧
    cleaned ht' = cleaned ht ++ (if decide (old = 0) then [] else log_cleanup ht (CValue old)) ∧
    nr_items ht' = nr_items ht + (if decide (old = 0) then 1 else 0).
Proof.
  intros Hwf Hk [_ _ (log & -> & Hlog1 & Hlog2) [Hn1 Hn2]].
  destruct (hurd_ihash_find_spec ht k) as (old & -> & [Hb|[-> Hu]]); [done..| |]; eexists; (split; [done|]).
  - rewrite (Hlog1 old Hb), (Hn2 old Hb), !decide_False; [split; [done|lia]|..];
      intros ->; by apply binds_valid in Hb.
  - by rewrite (Hlog2 Hu), (Hn1 Hu), !decide_True.
Qed.

(** ** Properties *)

(** C1. [hurd_ihash_add] on a well-formed table never fails an assertion or
    leaves the array.  Either it returns 0: every lookup then gives the new value
    for (keys equal to) the key and the old result for the others, the cleanup
    function (if there is one) has been called with the old value of the key if
    it had one and otherwise not at all, and the number of items has grown by one
    exactly if the key is new; or it returns ENOMEM, which takes a failed
    allocation, and the table is unchanged.  The invariant and the location
    pointers are preserved.  The key is not 0, the limit on the load is at most
    127 and the table has less than 2^31 slots: with the key 0 an item can be
    lost, and at the limit of 128 an assertion can fail. *)
Theorem ihash_add_correct ht k v o :
  ihash_wf ht → locp_wf ht → max_load ht ≤ 127 → size ht < 2 ^ 31 →
  k ≠ 0 → hurd_ihash_value_valid v = true → fresh_value ht k v →
  ∃ ht' err o', hurd_ihash_add ht k v o = Some (ht', err, o') ∧
    ihash_wf ht' ∧ locp_wf ht' ∧
    (err = E0 ∧
       (∀ k', k' ≠ 0 →
         hurd_ihash_find ht' k' = if compare ht k k' then Some v else hurd_ihash_find ht k') ∧
       (∃ old, hurd_ihash_find ht k = Some old ∧
         cleaned ht' = cleaned ht ++ (if decide (old = 0) then [] else log_cleanup ht (CValue old)) ∧
         nr_items ht' = nr_items ht + (if decide (old = 0) then 1 else 0))
     ∨ err = ENOMEM ∧ ht' = ht ∧ false ∈ o).
Proof.
  intros Hwf Hl Hml Hsz Hk Hv Hfresh.
  destruct (add_insertion ht k v o) as (ht' & err & o' & Heq & Hw' & Hout); [done..|].
  exists ht', err, o'. split; [done|]. split; [done|].
  destruct (hurd_ihash_add_spec ht k v o)
    as (h & e & o1 & Heq' & [[-> (_ & Hadd & Hl')]|(-> & -> & Hfail)]); [done..| |]; simplify_eq; [|by auto].
  split; [by apply Hl'|]. left. destruct Hout as [[_ Hfind]|(? & _)]; [|done].
  split; [done|]. split; [done|]. by eapply added_cleanup.
Qed.

(** The empty table satisfies the invariants. *)
Lemma init_wf off : ihash_wf (hurd_ihash_init off) ∧ locp_wf (hurd_ihash_init off).
Proof.
  split.
  - split; [by apply default_gki_ok|]. left. done.
  - intros _ i it Hi. apply lookupz_lt in Hi. simpl in Hi. lia.
Qed.

Definition one_item : hurd_ihash :=
  match hurd_ihash_add (hurd_ihash_init 8) 5 4096 [] with
  | Some (ht, _, _) => ht
  | None => hurd_ihash_init 8
  end.

Lemma one_item_wf : ihash_wf one_item ∧ locp_wf one_item.
Proof.
  destruct (init_wf 8) as [Hw Hl].
  destruct (hurd_ihash_add_spec (hurd_ihash_init 8) 5 4096 [])
    as (ht & err & o & Heq & [[-> (Ht & Hadd & Hl')]|(_ & _ & []%elem_of_nil)]); [done..|].
  unfold one_item. rewrite Heq. split.
  - split; [|by right]. apply (same_gki (hurd_ihash_init 8)); [apply Hadd|apply Hw].
  - apply Hl'; [done|]. intros _ k' _ Hb. by apply empty_unbound in Hb.
Qed.

(** The value of the key 5 is replaced, and cleaned up by the function 7. *)
Lemma ihash_add_correct_witness :
  let ht := hurd_ihash_set_cleanup 7 9 one_item in
  ∃ ht' err o', hurd_ihash_add ht 5 8192 [] = Some (ht', err, o') ∧
    ihash_wf ht' ∧ locp_wf ht' ∧
    (err = E0 ∧
       (∀ k', k' ≠ 0 →
          hurd_ihash_find ht' k' = if compare ht 5 k' then Some 8192 else hurd_ihash_find ht k') ∧
       (∃ old, hurd_ihash_find ht 5 = Some old ∧
         cleaned ht' = cleaned ht ++ (if decide (old = 0) then [] else log_cleanup ht (CValue old)) ∧
         nr_items ht' = nr_items ht + (if decide (old = 0) then 1 else 0))
     ∨ err = ENOMEM ∧ ht' = ht ∧ false ∈ ([] : list bool)).
Proof.
  intros ht. destruct one_item_wf as [Hw Hl].
  apply (ihash_add_correct ht 5 8192 []); [|exact Hl|by vm_compute|by vm_compute|done|done|].
  - destruct Hw as [[] [Hc|[]]]; (split; [by split|]); [by left|right; by split].
  - intros _ k' Hk' (i & it & Hi & _ & _ & Hv). unfold ht, one_item in Hi.
    assert (Hall : Forall (λ it, value it ≠ 8192) (items ht)) by (apply (bool_decide_unpack _); by vm_compute).
    apply lookupz_elem_of in Hi. rewrite Forall_forall in Hall. by apply Hall in Hi.
Defined.

(** C16. [hurd_ihash_remove] of a key other than 0 on a well-formed table removes exactly the
    bindings of the key, calls the cleanup function (if there is one) once
    with the removed value, and reports whether there was one; the invariants
    are preserved. *)
Theorem ihash_remove_correct ht k :
  ihash_wf ht → locp_wf ht → k ≠ 0 →
  ∃ ht' b, hurd_ihash_remove ht k = Some (ht', b) ∧ ihash_wf ht' ∧ locp_wf ht' ∧
    (∀ k', k' ≠ 0 →
       hurd_ihash_find ht' k' = if compare ht k k' then Some 0 else hurd_ihash_find ht k') ∧
    if b : bool then
      ∃ v, hurd_ihash_find ht k = Some v ∧ v ≠ 0 ∧
        cleaned ht' = cleaned ht ++ log_cleanup ht (CValue v)
    else hurd_ihash_find ht k = Some 0 ∧ ht' = ht.
Proof.
  intros Hwf Hl Hk.
  destruct (hurd_ihash_remove_spec ht k) as (ht' & b & -> & Hb); [done..|].
  exists ht', b. split; [done|]. destruct b.
  - destruct Hb as (v & Hv & Hwf' & Hs & _ & Hcl & Hl' & Hbinds).
    split; [done|]. split; [by apply Hl'|]. split.
    + intros k' Hk'. destruct (compare ht k k') eqn:Hc.
      * apply find_unbound; [done..|]. intros v' [_ ?]%Hbinds; [congruence|done].
      * apply find_same_bindings; [done..|]. intros v'. rewrite Hbinds, Hc by done. tauto.
    + exists v. split; [by apply find_bound|]. split; [|done].
      by apply binds_valid, (valid_item_true (mk_item v 0)) in Hv as [? _].
  - destruct Hb as [-> Hu]. split; [done|]. split; [done|].
    split; [|split; [by apply find_unbound|done]].
    intros k' Hk'. destruct (compare ht k k') eqn:Hc; [|done].
    apply find_unbound; [done..|]. intros v (i & it & Hi & Hv & Hci & <-).
    destruct (Hu (value it)). exists i, it. repeat split; [done..|].
    destruct Hwf as [Hg [(_ & Hnil & _)|Ht]].
    { rewrite Hnil in Hi. by apply lookupz_lt in Hi; simpl in Hi; lia. }
    pose proof (wf_key ht Ht i it Hi Hv).
    apply (gki_trans ht Hg _ k'); [done..|]. by apply (gki_sym ht Hg).
Qed.

(** A table with one item, used to instantiate the theorems. *)
Lemma ihash_remove_correct_witness :
  ∃ ht' b, hurd_ihash_remove one_item 5 = Some (ht', b) ∧ ihash_wf ht' ∧ locp_wf ht' ∧
    (∀ k', k' ≠ 0 →
       hurd_ihash_find ht' k' =
         if compare one_item 5 k' then Some 0 else hurd_ihash_find one_item k') ∧
    if b : bool then
      ∃ v, hurd_ihash_find one_item 5 = Some v ∧ v ≠ 0 ∧
        cleaned ht' = cleaned one_item ++ log_cleanup one_item (CValue v)
    else hurd_ihash_find one_item 5 = Some 0 ∧ ht' = one_item.
Proof. apply (ihash_remove_correct one_item 5); [apply one_item_wf..|done]. Defined.

(** ** Location pointers *)

(** In a table with location pointers, the location an object holds is
    the location of its own slot: [hurd_ihash_locp_remove] at the location
    stored in the object [v] bound to [k] removes exactly the binding of
    [k], and is the same operation as [hurd_ihash_remove] of [k]. *)
Theorem ihash_locp_remove_correct ht k v :
  ihash_wf ht → locp_wf ht → locp_offset ht ≠ HURD_IHASH_NO_LOCP → k ≠ 0 →
  hurd_ihash_find ht k = Some v → v ≠ 0 →
  ∃ locp ht', locps ht !! (v + locp_offset ht) = Some locp ∧
    hurd_ihash_locp_remove ht locp = Some ht' ∧
    hurd_ihash_remove ht k = Some (ht', true) ∧
    hurd_ihash_find ht' k = Some 0.
Proof.
  intros Hwf Hl Hoff Hk Hfind Hv.
  destruct (hurd_ihash_find_spec ht k) as (v' & Hv' & [Hb|[-> _]]); [done..| |congruence].
  rewrite Hfind in Hv'. injection Hv' as <-.
  destruct Hb as (i & it & Hi & Hvi & Hc & <-).
  exists i. pose proof (Hl Hoff i it Hi Hvi) as Hloc.
  destruct (hurd_ihash_remove_spec ht k) as (ht' & [] & Hrem & Hb); [done..| |].
  2:{ destruct Hb as [_ Hu]. destruct (Hu (value it)). by exists i, it. }
  destruct Hb as (v0 & _ & Hwf' & _ & _ & _ & _ & Hbinds).
  exists ht'. split; [done|]. split; [|split; [done|]].
  - unfold hurd_ihash_remove in Hrem. case_decide; [done|].
    destruct Hwf as [Hg [(? & _)|Ht]]; [done|].
    destruct (find_index_spec ht k) as (r & jt & Hr & Hj & Hslot); [done..|].
    rewrite Hr in Hrem. simpl in Hrem. unfold index_valid in Hrem. rewrite Hj in Hrem.
    simpl in Hrem. change (hurd_ihash_value_valid (value jt)) with (valid_item jt) in Hrem.
    destruct (valid_item jt && compare ht (key jt) k) eqn:Hjv; simpl in Hrem; [|done].
    apply andb_true_iff in Hjv as [Hvj Hcj].
    assert (r = i) as -> by (by eapply (binds_unique ht i it k)).
    unfold hurd_ihash_locp_remove. destruct (locp_remove ht i); simpl in Hrem; congruence.
  - apply find_unbound; [done..|]. intros v' [_ Hc']%Hbinds; [|done].
    rewrite (gki_refl ht (proj1 Hwf) k Hk) in Hc'. done.
Qed.

Lemma ihash_locp_remove_correct_witness :
  ∃ locp ht', locps one_item !! (4096 + locp_offset one_item) = Some locp ∧
    hurd_ihash_locp_remove one_item locp = Some ht' ∧
    hurd_ihash_remove one_item 5 = Some (ht', true) ∧
    hurd_ihash_find ht' 5 = Some 0.
Proof.
  apply (ihash_locp_remove_correct one_item 5 4096); [apply one_item_wf|apply one_item_wf| | | |];
    by vm_compute.
Defined.

(** ** Insertion at a location *)

Lemma locp_add_bindings ht ht' r it k v :
  ihash_wf ht → table_wf ht → k ≠ 0 → valid_item it = true → compare ht (key it) k = true →
  hurd_ihash_value_valid v = true →
  slot_changed ht ht' r it (mk_item v (key it)) →
  nr_items ht' = nr_items ht → nr_free ht' = nr_free ht →
  ihash_wf ht' ∧ bindings_updated ht ht' k v.
Proof.
  intros [Hg _] Hwf Hk Hvi Hc Hv Hsc Hni Hnf.
  pose proof (sc_config _ _ _ _ _ Hsc) as Hs. pose proof (sc_old _ _ _ _ _ Hsc) as Hit.
  pose proof (wf_key ht Hwf r it Hit Hvi) as Hki.
  split.
  - split; [by eapply same_gki|]. right.
    apply (changed_wf ht ht' r it _ Hwf Hg Hsc).
    + rewrite Hvi. change (valid_item (mk_item v (key it))) with (hurd_ihash_value_valid v).
      rewrite Hv. lia.
    + rewrite Hnf. apply valid_item_true in Hvi as [? _]. unfold empty_item.
      rewrite bool_decide_eq_false_2 by done. lia.
    + change (valid_item (mk_item v (key it))) with (hurd_ihash_value_valid v). congruence.
    + intros _. split; [done|]. split; [by apply (wf_reach ht Hwf r it)|].
      intros i jt Hjt Hi Hvj. apply not_true_is_false. intros Hcj. apply Hi.
      by apply (wf_unique ht Hwf i r jt it).
  - intros k' v' Hk'. rewrite (changed_binds _ _ _ _ _ Hsc). simpl.
    assert (compare ht (key it) k' = compare ht k k') as Hck.
    { apply eq_bool_prop_intro. split; intros Hx%Is_true_eq_true; apply Is_true_eq_left.
      - apply (gki_trans ht Hg _ (key it)); [done..| |done]. by apply (gki_sym ht Hg).
      - by apply (gki_trans ht Hg _ k). }
    rewrite Hck. split.
    + intros [(_ & ? & <-)|(i & jt & Hi & Hjt & Hvj & Hcj & <-)]; [by left|].
      right. split; [|by exists i, jt]. apply not_true_is_false. rewrite <-Hck. intros Hx.
      apply Hi. by eapply (binds_unique ht r it k').
    + intros [[? ->]|[Hcf (i & jt & Hjt & Hvj & Hcj & <-)]]; [by left|].
      right. exists i, jt. split; [|done]. intros ->. simplify_eq. congruence.
Qed.

Lemma locp_add_room ht r it k v o :
  ihash_wf ht → table_wf ht → k ≠ 0 → hurd_ihash_value_valid v = true →
  hurd_ihash_get_effective_load ht ≤ max_load ht →
  items ht !z r = Some it → valid_item it = false → reachable ht k r → unbound ht k →
  insertion ht k v o (hurd_ihash_locp_add ht (Some r) k v o).
Proof.
  intros Hwf Ht Hk Hv Hload Hit Hvi Hreach Hu. pose proof (proj1 Hwf) as Hg.
  pose proof (size_pos ht Ht). pose proof (lookupz_lt _ _ _ Hit).
  destruct (fill_slot_spec ht r it k v) as (ht' & Hf & Hwf' & Hsc & _ & _ & _); [done..|].
  assert (ihash_wf ht' ∧ bindings_updated ht ht' k v) as [Hw' Hb].
  { split; [split; [|by right]; eapply same_gki; [apply Hsc|done]|]. by eapply binds_fill. }
  enough (hurd_ihash_locp_add ht (Some r) k v o = Some (ht', E0, o)) as ->
    by (by apply insertion_done).
  unfold hurd_ihash_locp_add. rewrite decide_False by lia.
  unfold fill_slot in Hf. rewrite Hit in *. simpl in *.
  change (hurd_ihash_value_valid (value it)) with (valid_item it) in *.
  rewrite Hvi in *. simpl. rewrite bool_decide_eq_false_2 by lia.
  destruct (decide (value it = HURD_IHASH_EMPTY)); simpl in *.
  1: destruct (decide (0 < nr_free ht)); simpl in *; [|done].
  all: rewrite lookupz_updz_eq by done; simpl; unfold set_slot, set_counts in *; simpl in *.
  all: unfold updz in *; rewrite list_insert_insert_eq; by injection Hf as <-.
Qed.

Lemma locp_add_bound ht r it k v o :
  ihash_wf ht → table_wf ht → k ≠ 0 → hurd_ihash_value_valid v = true →
  hurd_ihash_get_effective_load ht ≤ max_load ht →
  items ht !z r = Some it → valid_item it = true → compare ht (key it) k = true →
  insertion ht k v o (hurd_ihash_locp_add ht (Some r) k v o).
Proof.
  intros Hwf Ht Hk Hv Hload Hit Hvi Hc. pose proof (size_pos ht Ht).
  unfold hurd_ihash_locp_add. rewrite decide_False by lia. rewrite Hit. simpl.
  change (hurd_ihash_value_valid (value it)) with (valid_item it).
  rewrite Hvi, Hc. simpl. rewrite bool_decide_eq_false_2 by lia.
  rewrite call_cleanup_fields. simpl. rewrite Hit. simpl. rewrite store_locp_fields.
  match goal with |- insertion _ _ _ _ (Some (?h, _, _)) => set (ht' := h) end.
  destruct (locp_add_bindings ht ht' r it k v) as [Hwf' Hb]; [done..| |done|done|].
  { split; [done|done|done|done|]. by apply (valid_item_true (mk_item v (key it))). }
  by apply insertion_done.
Qed.

Lemma locp_find_find ht k v0 locp :
  hurd_ihash_locp_find ht k = Some (v0, locp) → hurd_ihash_find ht k = Some v0.
Proof.
  unfold hurd_ihash_locp_find, hurd_ihash_find. case_decide; [by intros [= <- _]|].
  destruct (find_index ht k) as [r|]; simpl; [|done].
  destruct (index_valid ht r k); simpl; [|done].
  destruct (items ht !z r); simpl; [|done]. by intros [= <- _].
Qed.

(** Looking a key up with [hurd_ihash_locp_find] and inserting at the
    returned location with [hurd_ihash_locp_add] changes the lookups exactly
    as [hurd_ihash_add] of the same key does. *)
Theorem ihash_locp_add_correct ht k v v0 locp o :
  ihash_wf ht → locp_wf ht → max_load ht ≤ 127 → size ht < 2 ^ 31 →
  k ≠ 0 → hurd_ihash_value_valid v = true →
  hurd_ihash_locp_find ht k = Some (v0, locp) →
  hurd_ihash_find ht k = Some v0 ∧
  ∃ ht' err o', hurd_ihash_locp_add ht locp k v o = Some (ht', err, o') ∧ ihash_wf ht' ∧
    (err = E0 ∧
       (∀ k', k' ≠ 0 →
         hurd_ihash_find ht' k' = if compare ht k k' then Some v else hurd_ihash_find ht k')
     ∨ err = ENOMEM ∧ ht' = ht ∧ false ∈ o).
Proof.
  intros Hwf Hl Hml Hsz Hk Hv Hlf.
  pose proof (add_insertion ht k v o Hwf Hl Hml Hsz Hk Hv) as Hadd.
  split; [by eapply locp_find_find|].
  unfold hurd_ihash_locp_find in Hlf. case_decide as H0; [by simplify_eq|].
  pose proof Hwf as [Hg [(? & _)|Ht]]; [done|].
  destruct (find_index_spec ht k) as (r & it & Hr & Hit & Hslot); [done..|].
  rewrite Hr in Hlf. simpl in Hlf. unfold index_valid in Hlf. rewrite Hit in Hlf.
  simpl in Hlf. simplify_eq.
  destruct (decide (hurd_ihash_get_effective_load ht ≤ max_load ht)) as [Hload|Hload].
  2:{ unfold hurd_ihash_locp_add. rewrite decide_False by done. rewrite Hit. simpl.
      rewrite bool_decide_eq_true_2, orb_true_r by lia. done. }
  destruct Hslot as [Hvi Hc|Hu Hvi Hreach|Hu Hvi Hc Hall].
  - by apply (locp_add_bound ht r it).
  - by apply (locp_add_room ht r it).
  - unfold hurd_ihash_locp_add. rewrite decide_False by done. rewrite Hit. simpl.
    change (hurd_ihash_value_valid (value it)) with (valid_item it). by rewrite Hvi, Hc.
Qed.

Lemma ihash_locp_add_correct_witness :
  hurd_ihash_find one_item 5 = Some 4096 ∧
  ∃ ht' err o', hurd_ihash_locp_add one_item (Some 5) 5 8192 [] = Some (ht', err, o') ∧
    ihash_wf ht' ∧
    (err = E0 ∧
       (∀ k', k' ≠ 0 →
         hurd_ihash_find ht' k' =
           if compare one_item 5 k' then Some 8192 else hurd_ihash_find one_item k')
     ∨ err = ENOMEM ∧ ht' = one_item ∧ false ∈ ([] : list bool)).
Proof.
  apply (ihash_locp_add_correct one_item 5 8192 4096 (Some 5) []);
    [apply one_item_wf|apply one_item_wf|..]; by vm_compute.
Defined.

(** ** Corner cases of the implementation *)

(** Runs a sequence of insertions (all allocations succeed). *)
Fixpoint add_all (l : list (Z * Z)) (ht : hurd_ihash) : option hurd_ihash :=
  match l with
  | [] => Some ht
  | (k, v) :: l' => '(ht', _, _) ← hurd_ihash_add ht k v []; add_all l' ht'
  end.

(** The key 0 does not work with the integer interface: a tombstone also
    has key 0, so after 32 and 0 (same home slot) are inserted and 32 is
    removed, the value of key 0 is still in the table, the lookup of key 0
    fails, and inserting key 0 again leaves two items with that key. *)
Theorem ihash_zero_key_lost :
  ∃ ht1 ht2 ht3, add_all [(32, 1000); (0, 2000)] (hurd_ihash_init HURD_IHASH_NO_LOCP) = Some ht1 ∧
    hurd_ihash_find ht1 0 = Some 2000 ∧
    hurd_ihash_remove ht1 32 = Some (ht2, true) ∧
    iterate ht2 = [2000] ∧ hurd_ihash_find ht2 0 = Some 0 ∧
    hurd_ihash_add ht2 0 3000 [] = Some (ht3, E0, []) ∧ iterate ht3 = [3000; 2000].
Proof. eexists _, _, _. repeat split; vm_compute; reflexivity. Qed.

(** With the maximal load of 128b%, which the interface documents as
    filling the whole table before enlarging it, inserting a further key into
    a full table is not done: the load of a full table is not above 128b%,
    the table is rehashed at the same size and the assertion that the element
    was added fails ([None]). *)
Theorem ihash_max_load_128_asserts :
  ∃ ht, add_all ((λ i, (i, i)) <$> seqZ 1 32)
          (hurd_ihash_set_max_load 128 (hurd_ihash_init HURD_IHASH_NO_LOCP)) = Some ht ∧
    nr_items ht = 32 ∧ size ht = 32 ∧
    ∀ o, (alloc o).1 = true → hurd_ihash_add ht 33 33 o = None.
Proof.
  eexists. split; [vm_compute; reflexivity|]. split; [done|]. split; [done|].
  intros [|[] o]; simpl; [|intros _|done].
  - intros _. by vm_compute.
  - by vm_compute.
Qed.

(** When [hurd_ihash_locp_add] replaces the value at a location, the
    cleanup function is called with the location instead of the old value
    (unlike [hurd_ihash_add], see [ihash_add_correct] and [locp_remove]). *)
Theorem ihash_locp_add_cleans_location ht slot it k v o f data :
  items ht !z slot = Some it → hurd_ihash_value_valid (value it) = true →
  compare ht (key it) k = true → size ht ≠ 0 →
  hurd_ihash_get_effective_load ht ≤ max_load ht → cleanup ht = Some (f, data) →
  ∃ ht', hurd_ihash_locp_add ht (Some slot) k v o = Some (ht', E0, o) ∧
    cleaned ht' = cleaned ht ++ [(f, CLocp slot, data)].
Proof.
  intros Hit Hv Hc Hsz Hload Hcl. unfold hurd_ihash_locp_add.
  rewrite decide_False by done. rewrite Hit. simpl. rewrite Hv, Hc. simpl.
  rewrite bool_decide_eq_false_2 by lia.
  rewrite call_cleanup_fields. simpl. rewrite Hit. simpl. rewrite store_locp_fields.
  eexists. split; [done|]. simpl. unfold log_cleanup. by rewrite Hcl.
Qed.

Lemma ihash_locp_add_cleans_location_witness :
  ∃ ht', hurd_ihash_locp_add (hurd_ihash_set_cleanup 7 9 one_item) (Some 5) 5 8192 []
           = Some (ht', E0, []) ∧
    cleaned ht' = cleaned (hurd_ihash_set_cleanup 7 9 one_item) ++ [(7, CLocp 5, 9)].
Proof.
  apply (ihash_locp_add_cleans_location _ 5 (mk_item 4096 5) 5 8192 [] 7 9); by vm_compute.
Defined.
