(* ===== verification/Murmur.v ===== *)
(** * The Murmur3 hash of libihash

    [src/libihash/murmur3.c] is the hash function the name caches and the
    translator list index their tables with ([hurd_ihash_hash32]).  The model
    keeps every value at its 32 bits.  Each round of the function is a
    bijection of the running hash, and of the block it mixes in; hence the
    function has no collision between two keys of one length that differ in
    one aligned block, or in the bytes after the last whole block. *)

From S2P Require Import Prelude.

(** ** The code *)

(** [x << r] of a [uint32_t] loses the bits above 31. *)
Definition rotl32 (x r : Z) : Z := Z.lor (u32 (Z.shiftl x r)) (Z.shiftr x (32 - r)).

Definition getblock32 (p : list Z) (i : Z) : option Z :=
  p0 ← p !z i; p1 ← p !z (i + 1); p2 ← p !z (i + 2); p3 ← p !z (i + 3);
  Some (u32 (p0 + Z.shiftl p1 8 + Z.shiftl p2 16 + Z.shiftl p3 24)).

Definition fmix32 (h : Z) : Z :=
  let h := Z.lxor h (Z.shiftr h 16) in
  let h := u32 (h * 0x85ebca6b) in
  let h := Z.lxor h (Z.shiftr h 13) in
  let h := u32 (h * 0xc2b2ae35) in
  let h := Z.lxor h (Z.shiftr h 16) in
  h.

Abbreviation c1 := 0xcc9e2d51 (only parsing).
Abbreviation c2 := 0x1b873593 (only parsing).

(** [k1 *= c1; k1 = ROTL32(k1,15); k1 *= c2;] *)
Definition mix_k (k1 : Z) : Z := u32 (rotl32 (u32 (k1 * c1)) 15 * c2).

(** [h1 ^= k1; h1 = ROTL32(h1,13); h1 = h1*5+0xe6546b64;] *)
Definition mix_h (h1 k1 : Z) : Z :=
  let h1 := Z.lxor h1 k1 in
  let h1 := rotl32 h1 13 in
  u32 (h1 * 5 + 0xe6546b64).

(** The loop [for (i = -nblocks; i; i++)], [n] iterations from its end; [data]
    is the key and [tail] the index of its tail. *)
Fixpoint body (n : nat) (data : list Z) (tail h1 : Z) : option Z :=
  match n with
  | O => Some h1
  | S n' =>
      k1 ← getblock32 data (tail + - Z.of_nat n * 4);
      body n' data tail (mix_h h1 (mix_k k1))
  end.

(** The [switch(len & 3)]: each case falls through to the next one. *)
Definition tail_k (data : list Z) (tail len : Z) : option (option Z) :=
  let rest := Z.land len 3 in
  if decide (rest = 0) then Some None else
    k1 ← (if decide (rest = 3) then t ← data !z (tail + 2); Some (Z.lxor 0 (Z.shiftl t 16))
          else Some 0);
    k1 ← (if decide (2 ≤ rest) then t ← data !z (tail + 1); Some (Z.lxor k1 (Z.shiftl t 8))
          else Some k1);
    t ← data !z tail;
    Some (Some (Z.lxor k1 t)).

Definition MurmurHash3_x86_32 (key : list Z) (len seed : Z) : option Z :=
  let nblocks := len / 4 in
  let tail := nblocks * 4 in
  h1 ← body (Z.to_nat nblocks) key tail seed;
  rest ← tail_k key tail len;
  let h1 := match rest with Some k1 => Z.lxor h1 (mix_k k1) | None => h1 end in
  let h1 := Z.lxor h1 (u32 len) in
  Some (fmix32 h1).

(** ** Words of 32 bits *)
Definition word32 (z : Z) : Prop := 0 ≤ z < 2 ^ 32.
Definition byte (z : Z) : Prop := 0 ≤ z < 2 ^ 8.

#[export] Instance byte_dec z : Decision (byte z).
Proof. unfold byte. apply _. Defined.

(** The inverses of the steps. *)
Definition unxorshift (s y : Z) : Z := Z.lxor (Z.lxor y (Z.shiftr y s)) (Z.shiftr y (2 * s)).

Definition fmix32_inv (h : Z) : Z :=
  let h := unxorshift 16 h in
  let h := u32 (h * 0x7ed1b41d) in
  let h := unxorshift 13 h in
  let h := u32 (h * 0xa5cb9243) in
  unxorshift 16 h.

Lemma word32_testbit z i : word32 z → 32 ≤ i → Z.testbit z i = false.
Proof.
  intros Hz Hi. destruct (decide (z = 0)) as [->|]; [apply Z.bits_0|].
  apply Z.bits_above_log2; [unfold word32 in *; lia|].
  assert (Z.log2 z < 32); [|lia]. apply Z.log2_lt_pow2; unfold word32 in *; lia.
Qed.

Lemma word32_bits z : 0 ≤ z → (∀ i, 32 ≤ i → Z.testbit z i = false) → word32 z.
Proof.
  intros Hz Hb. destruct (decide (z = 0)) as [->|]; [done|].
  split; [done|]. apply Z.log2_lt_pow2; [lia|].
  destruct (decide (Z.log2 z < 32)) as [|Hn]; [done|].
  pose proof (Z.bit_log2 z) as Hl. rewrite Hb in Hl by lia. discriminate Hl. lia.
Qed.

Lemma word32_u32 z : word32 (u32 z).
Proof. apply Z.mod_pos_bound. lia. Qed.

Lemma word32_lxor x y : word32 x → word32 y → word32 (Z.lxor x y).
Proof.
  intros Hx Hy. apply word32_bits; [apply Z.lxor_nonneg; unfold word32 in *; lia|].
  intros i Hi. by rewrite Z.lxor_spec, !word32_testbit.
Qed.

Lemma word32_shiftr x s : word32 x → 0 ≤ s → word32 (Z.shiftr x s).
Proof.
  intros Hx Hs. apply word32_bits; [apply Z.shiftr_nonneg; unfold word32 in *; lia|].
  intros i Hi. rewrite Z.shiftr_spec by lia. apply word32_testbit; [done|lia].
Qed.

Lemma word32_rotl32 x r : word32 x → 0 ≤ r ≤ 32 → word32 (rotl32 x r).
Proof.
  intros Hx Hr. apply word32_bits.
  - apply Z.lor_nonneg. split; [apply word32_u32|].
    apply word32_shiftr; [done|lia].
  - intros i Hi. unfold rotl32. rewrite Z.lor_spec, word32_testbit by first [apply word32_u32|lia].
    apply word32_testbit; [apply word32_shiftr; [done|lia]|done].
Qed.

#[local] Hint Resolve word32_u32 word32_lxor : hurd.

Lemma word32_xorshift x s : word32 x → 0 ≤ s → word32 (Z.lxor x (Z.shiftr x s)).
Proof. intros. apply word32_lxor; [done|by apply word32_shiftr]. Qed.

Lemma word32_fmix32 h : word32 h → word32 (fmix32 h).
Proof. intros. apply word32_xorshift; auto with hurd lia. Qed.

Lemma word32_mix_k k : word32 (mix_k k).
Proof. apply word32_u32. Qed.

Lemma word32_mix_h h k : word32 (mix_h h k).
Proof. apply word32_u32. Qed.

(** ** Every step is a bijection *)
Lemma unxorshift_spec s h :
  word32 h → 0 < s → 32 ≤ 3 * s → unxorshift s (Z.lxor h (Z.shiftr h s)) = h.
Proof.
  intros Hh Hs H3. apply Z.bits_inj'. intros i Hi. unfold unxorshift.
  rewrite !Z.lxor_spec, !Z.shiftr_spec, !Z.lxor_spec, !Z.shiftr_spec by lia.
  replace (i + s + s) with (i + 2 * s) by lia.
  rewrite (word32_testbit h (i + 2 * s + s)) by (done || lia).
  by destruct (Z.testbit h i), (Z.testbit h (i + s)), (Z.testbit h (i + 2 * s)).
Qed.

Lemma xorshift_unxorshift s h :
  word32 h → 0 < s → 32 ≤ 3 * s →
  Z.lxor (unxorshift s h) (Z.shiftr (unxorshift s h) s) = h.
Proof.
  intros Hh Hs H3. apply Z.bits_inj'. intros i Hi. unfold unxorshift.
  rewrite !Z.lxor_spec, !Z.shiftr_spec, !Z.lxor_spec, !Z.shiftr_spec by lia.
  replace (i + s + s) with (i + 2 * s) by lia.
  rewrite (word32_testbit h (i + s + 2 * s)) by (done || lia).
  by destruct (Z.testbit h i), (Z.testbit h (i + s)), (Z.testbit h (i + 2 * s)).
Qed.

Lemma word32_unxorshift s h : word32 h → 0 ≤ s → word32 (unxorshift s h).
Proof.
  intros. apply word32_lxor; [by apply word32_xorshift|]. apply word32_shiftr; [done|lia].
Qed.

Lemma mul_inv c d h : word32 h → u32 (c * d) = 1 → u32 (u32 (h * c) * d) = h.
Proof.
  intros Hh Hcd. unfold u32 in *.
  rewrite Z.mul_mod_idemp_l, <-Z.mul_assoc, <-Z.mul_mod_idemp_r, Hcd, Z.mul_1_r by lia.
  by apply Z.mod_small.
Qed.

Lemma rotl32_testbit x r i :
  word32 x → 0 ≤ r ≤ 32 → 0 ≤ i < 32 →
  Z.testbit (rotl32 x r) i = Z.testbit x ((i - r) mod 32).
Proof.
  intros Hx Hr Hi. unfold rotl32, u32.
  rewrite Z.lor_spec, Z.mod_pow2_bits_low, Z.shiftl_spec, Z.shiftr_spec by lia.
  destruct (decide (r ≤ i)) as [Hri|Hri].
  - rewrite (word32_testbit x (i + (32 - r))), orb_false_r by (done || lia).
    by rewrite Z.mod_small by lia.
  - rewrite (Z.testbit_neg_r x (i - r)) by lia. simpl. f_equal.
    rewrite <-(Z.mod_add _ 1) by lia. rewrite Z.mod_small; lia.
Qed.

Lemma rotl32_inv x r : word32 x → 0 ≤ r ≤ 32 → rotl32 (rotl32 x r) (32 - r) = x.
Proof.
  intros Hx Hr. pose proof (word32_rotl32 x r Hx Hr) as Hy.
  apply Z.bits_inj'. intros i Hi. destruct (decide (i < 32)) as [Hlt|Hge].
  - rewrite !rotl32_testbit; try (done || lia); [|apply Z.mod_pos_bound; lia].
    f_equal. rewrite Zminus_mod_idemp_l.
    replace (i - (32 - r) - r) with (i + (-1) * 32) by lia.
    rewrite Z.mod_add by lia. apply Z.mod_small. lia.
  - rewrite !word32_testbit; try (done || lia). apply word32_rotl32; [done|lia].
Qed.

Lemma mix_k_inj k k' : word32 k → word32 k' → mix_k k = mix_k k' → k = k'.
Proof.
  intros Hk Hk' H. unfold mix_k in H.
  apply (f_equal (λ h, u32 (h * 0x56ed309b))) in H.
  rewrite !(mul_inv c2 0x56ed309b) in H; try done;
    [|apply word32_rotl32; [apply word32_u32|lia]..].
  apply (f_equal (λ h, rotl32 h (32 - 15))) in H.
  rewrite !rotl32_inv in H; try (apply word32_u32 || lia).
  apply (f_equal (λ h, u32 (h * 0xdee13bb1))) in H.
  by rewrite !(mul_inv c1 0xdee13bb1) in H.
Qed.

Lemma lxor_inj_r h k k' : Z.lxor h k = Z.lxor h k' → k = k'.
Proof.
  intros H. apply (f_equal (Z.lxor h)) in H.
  by rewrite <-!Z.lxor_assoc, !Z.lxor_nilpotent, !Z.lxor_0_l in H.
Qed.

Lemma lxor_inj_l h h' k : Z.lxor h k = Z.lxor h' k → h = h'.
Proof. rewrite !(Z.lxor_comm _ k). apply lxor_inj_r. Qed.

(** The mix of a block determines the exclusive or it starts from. *)
Lemma mix_h_lxor h k h' k' :
  word32 h → word32 k → word32 h' → word32 k' →
  mix_h h k = mix_h h' k' → Z.lxor h k = Z.lxor h' k'.
Proof.
  intros Hh Hk Hh' Hk' H. unfold mix_h in H.
  assert (Hadd : ∀ x, u32 (u32 (x * 5 + 0xe6546b64) + 0x19ab949c) = u32 (x * 5)).
  { intros x. unfold u32. rewrite Z.add_mod_idemp_l by lia.
    replace (x * 5 + 0xe6546b64 + 0x19ab949c) with (x * 5 + 1 * 2 ^ 32) by lia.
    by rewrite Z.mod_add by lia. }
  apply (f_equal (λ h, u32 (u32 (h + 0x19ab949c) * 0xcccccccd))) in H.
  rewrite !Hadd in H.
  rewrite !(mul_inv 5 0xcccccccd) in H; try done;
    [|apply word32_rotl32; [by apply word32_lxor|lia]..].
  apply (f_equal (λ h, rotl32 h (32 - 13))) in H.
  rewrite !rotl32_inv in H; auto with hurd lia.
Qed.

Lemma fmix32_inv_l h : word32 h → fmix32_inv (fmix32 h) = h.
Proof.
  intros Hh. unfold fmix32_inv, fmix32. cbv zeta.
  rewrite unxorshift_spec by auto with hurd lia.
  rewrite (mul_inv _ 0x7ed1b41d) by (try done; apply word32_xorshift; auto with hurd lia).
  rewrite unxorshift_spec by auto with hurd lia.
  rewrite (mul_inv _ 0xa5cb9243) by (try done; apply word32_xorshift; auto with hurd lia).
  by apply unxorshift_spec.
Qed.

Lemma fmix32_inv_r h : word32 h → fmix32 (fmix32_inv h) = h.
Proof.
  intros Hh. unfold fmix32_inv, fmix32. cbv zeta.
  rewrite xorshift_unxorshift by auto with hurd lia.
  rewrite (mul_inv 0xa5cb9243) by (try done; apply word32_unxorshift; auto with hurd lia).
  rewrite xorshift_unxorshift by auto with hurd lia.
  rewrite (mul_inv 0x7ed1b41d) by (try done; apply word32_unxorshift; auto with hurd lia).
  by apply xorshift_unxorshift.
Qed.

(** ** The reference definition

    Murmur3 by recursion on the key: whole little-endian words first, the last
    up to three bytes as a word of their own, no index arithmetic. *)
Fixpoint le32 (bs : list Z) : Z :=
  match bs with
  | [] => 0
  | b :: bs' => b + 2 ^ 8 * le32 bs'
  end.

Fixpoint absorb (key : list Z) (h : Z) : Z :=
  match key with
  | b0 :: b1 :: b2 :: b3 :: key' => absorb key' (mix_h h (mix_k (le32 [b0; b1; b2; b3])))
  | [] => h
  | _ => Z.lxor h (mix_k (le32 key))
  end.

Definition murmur3 (key : list Z) (seed : Z) : Z :=
  fmix32 (Z.lxor (absorb key seed) (u32 (zlen key))).

Lemma le32_bound bs : Forall byte bs → 0 ≤ le32 bs < 2 ^ (8 * zlen bs).
Proof.
  induction 1 as [|b bs Hb _ IH]; simpl le32; [simpl; lia|].
  replace (8 * zlen (b :: bs)) with (8 * zlen bs + 8) by (simpl; lia).
  rewrite Z.pow_add_r by lia. unfold byte in Hb. lia.
Qed.

Lemma le32_inj bs bs' :
  Forall byte bs → Forall byte bs' → length bs = length bs' → le32 bs = le32 bs' → bs = bs'.
Proof.
  intros Hbs. revert bs'. induction Hbs as [|b bs Hb _ IH]; intros [|b' bs'] Hbs' Hl Heq;
    try done. apply Forall_cons in Hbs' as [Hb' Hbs']. simpl in Hl, Heq. unfold byte in *.
  assert (b = b' ∧ le32 bs = le32 bs') as [-> Hr] by lia.
  f_equal. apply IH; [done|lia|done].
Qed.

Lemma le32_word bs : Forall byte bs → (length bs ≤ 4)%nat → word32 (le32 bs).
Proof.
  intros Hbs Hl. pose proof (le32_bound bs Hbs). split; [lia|].
  eapply Z.lt_le_trans; [apply H|]. apply Z.pow_le_mono_r; lia.
Qed.

Lemma getblock32_app pre b0 b1 b2 b3 post :
  Forall byte [b0; b1; b2; b3] →
  getblock32 (pre ++ b0 :: b1 :: b2 :: b3 :: post) (zlen pre) = Some (le32 [b0; b1; b2; b3]).
Proof.
  intros Hb. unfold getblock32. rewrite <-(Z.add_0_r (zlen pre)) at 1.
  rewrite !lookupz_app_r by lia.
  change (Some (u32 (b0 + Z.shiftl b1 8 + Z.shiftl b2 16 + Z.shiftl b3 24)) =
    Some (le32 [b0; b1; b2; b3])).
  f_equal. rewrite !Z.shiftl_mul_pow2 by lia.
  rewrite u32_id; [simpl; lia|]. repeat (apply Forall_cons in Hb as [? Hb]). unfold byte in *. lia.
Qed.

Lemma body_absorb n pre suf h :
  Forall byte suf → (4 * n ≤ length suf)%nat →
  ∃ h', body n (pre ++ suf) (zlen pre + 4 * Z.of_nat n) h = Some h'
    ∧ absorb suf h = absorb (drop (4 * n) suf) h' ∧ (word32 h → word32 h').
Proof.
  revert pre suf h. induction n as [|n IH]; intros pre suf h Hb Hl.
  { exists h. done. }
  destruct suf as [|b0 [|b1 [|b2 [|b3 suf]]]]; simpl in Hl; try lia.
  cbn [body].
  replace (zlen pre + 4 * Z.of_nat (S n) + - Z.of_nat (S n) * 4) with (zlen pre) by lia.
  rewrite getblock32_app by (by apply (Forall_take _ 4) in Hb).
  destruct (IH (pre ++ [b0; b1; b2; b3]) suf (mix_h h (mix_k (le32 [b0; b1; b2; b3]))))
    as (h' & Hr & Ha & Hw); [by apply (Forall_drop _ 4) in Hb|lia|].
  exists h'. cbn [mbind option_bind]. rewrite <-app_assoc in Hr. simpl app in Hr.
  rewrite <-Hr. split; [f_equal; rewrite length_app; simpl; lia|].
  replace (4 * S n)%nat with (4 + 4 * n)%nat by lia. rewrite <-drop_drop.
  split; [apply Ha|]. intros _. apply Hw, word32_mix_h.
Qed.

Lemma lxor_shiftl_add a b k : 0 ≤ k → 0 ≤ b < 2 ^ k → Z.lxor (Z.shiftl a k) b = a * 2 ^ k + b.
Proof.
  intros Hk Hb. rewrite <-Z.add_nocarry_lxor; [by rewrite Z.shiftl_mul_pow2|].
  apply Z.bits_inj'. intros i Hi. rewrite Z.land_spec, Z.bits_0, Z.shiftl_spec by done.
  destruct (decide (i < k)); [by rewrite Z.testbit_neg_r by lia|].
  rewrite <-(Z.mod_small b (2 ^ k)) by done.
  by rewrite Z.mod_pow2_bits_high, andb_false_r by lia.
Qed.

Lemma tail_k_spec pre suf :
  Forall byte suf → (length suf < 4)%nat → zlen pre mod 4 = 0 →
  tail_k (pre ++ suf) (zlen pre) (zlen (pre ++ suf)) =
    Some (match suf with [] => None | _ => Some (le32 suf) end).
Proof.
  intros Hb Hl Hm. unfold tail_k.
  assert (Z.land (zlen (pre ++ suf)) 3 = zlen suf) as ->.
  { change 3 with (2 ^ 2 - 1). rewrite land_mask by lia. rewrite length_app.
    rewrite Nat2Z.inj_add, Z.add_mod by lia. change (2 ^ 2) with 4. rewrite Hm.
    rewrite Z.add_0_l, Z.mod_mod by lia. apply Z.mod_small. lia. }
  rewrite !lookupz_app_r by lia.
  assert ((pre ++ suf) !z zlen pre = suf !z 0) as ->
    by (rewrite <-(Z.add_0_r (zlen pre)) at 1; by apply lookupz_app_r).
  destruct suf as [|z [|z0 [|z1 [|]]]]; simpl in Hl; try lia;
    repeat (apply Forall_cons in Hb as [? Hb]); unfold byte in *.
  - done.
  - change (Some (Some (Z.lxor 0 z)) = Some (Some (z + 2 ^ 8 * 0))). rewrite Z.lxor_0_l. do 2 f_equal. lia.
  - change (Some (Some (Z.lxor (Z.lxor 0 (Z.shiftl z0 8)) z)) = Some (Some (le32 [z; z0]))).
    rewrite Z.lxor_0_l, lxor_shiftl_add by lia. do 2 f_equal. simpl. lia.
  - change (Some (Some (Z.lxor (Z.lxor (Z.lxor 0 (Z.shiftl z1 16)) (Z.shiftl z0 8)) z))
      = Some (Some (le32 [z; z0; z1]))).
    rewrite Z.lxor_0_l, (lxor_shiftl_add z1) by (rewrite ?Z.shiftl_mul_pow2; lia).
    replace (z1 * 2 ^ 16 + Z.shiftl z0 8) with (Z.shiftl (z1 * 2 ^ 8 + z0) 8)
      by (rewrite !Z.shiftl_mul_pow2; lia).
    rewrite lxor_shiftl_add by lia. do 2 f_equal. simpl. lia.
Qed.

Lemma absorb_short suf h :
  (length suf < 4)%nat →
  absorb suf h = match suf with [] => h | _ => Z.lxor h (mix_k (le32 suf)) end.
Proof. by destruct suf as [|b0 [|b1 [|b2 [|b3 suf]]]]; simpl; try lia. Qed.

Lemma murmur3_correct key seed :
  Forall byte key → MurmurHash3_x86_32 key (zlen key) seed = Some (murmur3 key seed).
Proof.
  intros Hb. unfold MurmurHash3_x86_32. set (n := Z.to_nat (zlen key / 4)).
  pose proof (Z.div_mod (zlen key) 4). pose proof (Z.mod_pos_bound (zlen key) 4).
  assert (zlen key / 4 * 4 = zlen (@nil Z) + 4 * Z.of_nat n) as -> by (simpl; lia).
  destruct (body_absorb n [] key seed) as (h' & Hr & Ha & _); [done|lia|].
  simpl app in Hr. rewrite Hr. cbn [mbind option_bind].
  assert (Hp : zlen (take (4 * n) key) = 4 * Z.of_nat n) by (rewrite length_take; lia).
  replace (zlen (@nil Z) + 4 * Z.of_nat n) with (zlen (take (4 * n) key)) by (rewrite Hp; simpl; lia).
  rewrite <-(take_drop (4 * n) key) at 1 3.
  rewrite tail_k_spec; [|by apply Forall_drop|rewrite length_drop; lia
    |rewrite Hp, Z.mul_comm; apply Z.mod_mul; lia].
  cbn [mbind option_bind]. unfold murmur3. rewrite Ha, absorb_short by (rewrite length_drop; lia).
  by destruct (drop (4 * n) key).
Qed.

(** The hash computed by index arithmetic over the key's blocks and by a
    switch that falls through is the reference definition by recursion on the
    bytes; in particular no byte outside of the key is read. *)
Theorem murmur_equivalent key seed :
  Forall byte key → MurmurHash3_x86_32 key (zlen key) seed = Some (murmur3 key seed).
Proof. apply murmur3_correct. Qed.

Lemma murmur_equivalent_witness :
  MurmurHash3_x86_32 [104; 117; 114; 100; 33; 255] 6 7 = Some (murmur3 [104; 117; 114; 100; 33; 255] 7).
Proof.
  apply (murmur_equivalent [104; 117; 114; 100; 33; 255] 7).
  by apply (bool_decide_eq_true_1 _).
Defined.

Lemma word32_absorb key h : word32 h → word32 (absorb key h).
Proof.
  revert h. induction key as [key IH] using (induction_ltof1 _ (@length Z)). unfold ltof in IH.
  intros h Hh. destruct key as [|b0 [|b1 [|b2 [|b3 key]]]]; simpl; try done;
    try (apply word32_lxor; [done|apply word32_mix_k]).
  apply IH; [simpl; lia|apply word32_mix_h].
Qed.

(** The running hash after a key determines the one before it. *)
Lemma absorb_inj_h key h h' :
  word32 h → word32 h' → absorb key h = absorb key h' → h = h'.
Proof.
  revert h h'. induction key as [key IH] using (induction_ltof1 _ (@length Z)). unfold ltof in IH.
  intros h h' Hh Hh' Heq.
  destruct key as [|b0 [|b1 [|b2 [|b3 key]]]]; simpl in Heq; try done;
    try (by apply lxor_inj_l in Heq).
  apply IH in Heq; [|simpl; lia|apply word32_mix_h..].
  apply mix_h_lxor in Heq; try done; try apply word32_mix_k. by apply lxor_inj_l in Heq.
Qed.

Lemma absorb_app pre suf h :
  zlen pre mod 4 = 0 → absorb (pre ++ suf) h = absorb suf (absorb pre h).
Proof.
  revert h. induction pre as [pre IH] using (induction_ltof1 _ (@length Z)). unfold ltof in IH.
  intros h Hm. destruct pre as [|b0 [|b1 [|b2 [|b3 pre]]]]; try done.
  simpl. apply IH; [simpl; lia|].
  replace (zlen (b0 :: b1 :: b2 :: b3 :: pre)) with (zlen pre + 1 * 4) in Hm by (simpl; lia).
  by rewrite Z.mod_add in Hm by lia.
Qed.

(** A changed block changes the running hash. *)
Lemma absorb_inj_block b b' post h :
  Forall byte b → Forall byte b' → length b = length b' →
  length b = 4%nat ∨ (length b < 4)%nat ∧ post = [] → word32 h →
  absorb (b ++ post) h = absorb (b' ++ post) h → b = b'.
Proof.
  intros Hb Hb' Hl Hcase Hh Heq. apply le32_inj; [done..|].
  assert (Hw : ∀ bs, Forall byte bs → (length bs ≤ 4)%nat → word32 (le32 bs)) by apply le32_word.
  apply mix_k_inj; [apply Hw; [done|destruct Hcase; lia]..|].
  destruct Hcase as [H4|[Hs ->]].
  - destruct b as [|b0 [|b1 [|b2 [|b3 [|]]]]]; try done.
    destruct b' as [|b0' [|b1' [|b2' [|b3' [|]]]]]; try done.
    cbn [app absorb] in Heq. apply absorb_inj_h in Heq; [|apply word32_mix_h..].
    apply mix_h_lxor in Heq; try done; try apply word32_mix_k. by apply lxor_inj_r in Heq.
  - rewrite !app_nil_r, !absorb_short in Heq by lia.
    destruct b, b'; try done. by apply lxor_inj_r in Heq.
Qed.

(** C30. Two keys of one length that differ in one aligned block of four bytes,
    or only in the up to three bytes after the last whole block, have
    different 32-bit hashes, whatever the seed. *)
Theorem murmur_no_collision pre b b' post seed :
  Forall byte (pre ++ b ++ post) → Forall byte b' → length b = length b' →
  zlen pre mod 4 = 0 → length b = 4%nat ∨ (length b < 4)%nat ∧ post = [] → word32 seed →
  ∃ h h', MurmurHash3_x86_32 (pre ++ b ++ post) (zlen (pre ++ b ++ post)) seed = Some h
    ∧ MurmurHash3_x86_32 (pre ++ b' ++ post) (zlen (pre ++ b' ++ post)) seed = Some h'
    ∧ word32 h ∧ word32 h' ∧ (h = h' → b = b').
Proof.
  intros Hk Hb' Hl Hm Hcase Hs.
  pose proof Hk as (Hpre & Hb & Hpost)%Forall_app%(λ H, conj (proj1 H) (proj1 (Forall_app _ _ _) (proj2 H))).
  assert (Hk' : Forall byte (pre ++ b' ++ post)) by (by rewrite !Forall_app).
  eexists _, _. split; [by apply murmur3_correct|]. split; [by apply murmur3_correct|].
  assert (Hlen : zlen (pre ++ b' ++ post) = zlen (pre ++ b ++ post)) by (rewrite !length_app; lia).
  unfold murmur3. rewrite Hlen.
  split; [apply word32_fmix32, word32_lxor; [by apply word32_absorb|apply word32_u32]|].
  split; [apply word32_fmix32, word32_lxor; [by apply word32_absorb|apply word32_u32]|].
  intros Heq. apply (f_equal fmix32_inv) in Heq.
  rewrite !fmix32_inv_l in Heq by (apply word32_lxor; [by apply word32_absorb|apply word32_u32]).
  apply lxor_inj_l in Heq. rewrite (absorb_app pre (b ++ post)), (absorb_app pre (b' ++ post)) in Heq by done.
  eapply absorb_inj_block; [..|apply Heq]; try done. by apply word32_absorb.
Qed.

Lemma murmur_no_collision_witness :
  ∃ h h', MurmurHash3_x86_32 [1; 2; 3; 4; 5; 6; 7; 8; 9] 9 0 = Some h
    ∧ MurmurHash3_x86_32 [1; 2; 3; 4; 5; 6; 7; 7; 9] 9 0 = Some h'
    ∧ word32 h ∧ word32 h' ∧ (h = h' → [5; 6; 7; 8] = [5; 6; 7; 7]).
Proof.
  apply (murmur_no_collision [1; 2; 3; 4] [5; 6; 7; 8] [5; 6; 7; 7] [9] 0);
    [by apply (bool_decide_eq_true_1 _)..|done|done|by left|done].
Defined.

(** The finalisation is a bijection of the 32-bit words: the explicit
    inverse undoes it on both sides, so no two running hashes are merged. *)
Theorem fmix32_roundtrip h :
  word32 h → fmix32_inv (fmix32 h) = h ∧ fmix32 (fmix32_inv h) = h ∧ word32 (fmix32 h).
Proof.
  intros Hh. split; [by apply fmix32_inv_l|]. split; [by apply fmix32_inv_r|by apply word32_fmix32].
Qed.

Lemma fmix32_roundtrip_witness :
  fmix32_inv (fmix32 0xdeadbeef) = 0xdeadbeef ∧ fmix32 (fmix32_inv 0xdeadbeef) = 0xdeadbeef
    ∧ word32 (fmix32 0xdeadbeef).
Proof. apply (fmix32_roundtrip 0xdeadbeef). unfold word32. lia. Defined.

