(* ===== verification/Rlock.v ===== *)
(** * Record locks (src/libfshelp/rlock.h, rlock-tweak.c, rlock-status.c,
      rlock-drop-peropen.c)

    The locks of a file are heap objects that are linked into two lists, the
    list of the open file they belong to and the list of the node; a state
    keeps the objects by location and both lists.  A peropen is identified by
    the address of its list head, as in the code.  [None] results stand for
    failed assertions and for dereferencing a freed lock. *)

From S2P Require Import Prelude.
From Stdlib Require Import ZifyBool.

(** ** Data *)

Inductive lock_type := F_RDLCK | F_WRLCK | F_UNLCK | F_BADTYPE.
Inductive lock_cmd := F_GETLK64 | F_SETLK64 | F_SETLKW64 | F_BADCMD.
Inductive lock_whence := SEEK_SET | SEEK_CUR | SEEK_END | SEEK_BAD.
Inductive lock_status := LOCK_UN | LOCK_SH | LOCK_EX.

#[export] Instance lock_type_eq_dec : EqDecision lock_type.
Proof. solve_decision. Defined.
#[export] Instance lock_cmd_eq_dec : EqDecision lock_cmd.
Proof. solve_decision. Defined.
#[export] Instance lock_whence_eq_dec : EqDecision lock_whence.
Proof. solve_decision. Defined.

(** [struct rlock_list], less its links; [len] 0 is the open end. *)
Record rlock_list := mk_rlock {
  start : Z;
  len : Z;
  type : lock_type;
  waiting : bool;
  po_id : nat
}.

(** [struct flock64] *)
Record flock64 := mk_flock {
  l_type : lock_type;
  l_whence : lock_whence;
  l_start : Z;
  l_len : Z;
  l_pid : Z
}.

(** The locks of one file: the objects, the node's list, the list of each
    peropen, the next unused location, and the locks whose condition was
    broadcast. *)
Record rlock_box := mk_box {
  cells : gmap nat rlock_list;
  node_locks : list nat;
  po_locks : gmap nat (list nat);
  next_loc : nat;
  woken : list nat
}.

Definition fshelp_rlock_init : rlock_box := mk_box ∅ [] ∅ 0 [].

(** [po->locks] becomes the fresh address [p], or the call fails. *)
Definition fshelp_rlock_po_init (p : nat) (b : rlock_box) (o : allocs)
    : error_t * rlock_box * allocs :=
  let '(ok, o') := alloc o in
  if ok then
    (E0, mk_box (cells b) (node_locks b) (<[p := []]> (po_locks b)) (next_loc b) (woken b), o')
  else (ENOMEM, b, o').

Definition fshelp_rlock_po_fini (p : nat) (b : rlock_box) : rlock_box :=
  mk_box (cells b) (node_locks b) (delete p (po_locks b)) (next_loc b) (woken b).

Definition po_list (b : rlock_box) (p : nat) : list nat := default [] (po_locks b !! p).

Definition set_cell (i : nat) (c : rlock_list) (b : rlock_box) : rlock_box :=
  mk_box (<[i := c]> (cells b)) (node_locks b) (po_locks b) (next_loc b) (woken b).

Definition broadcast (i : nat) (b : rlock_box) : rlock_box :=
  mk_box (cells b) (node_locks b) (po_locks b) (next_loc b) (woken b ++ [i]).

Definition set_range (s n : Z) (c : rlock_list) : rlock_list :=
  mk_rlock s n (type c) (waiting c) (po_id c).
Definition set_type (t : lock_type) (c : rlock_list) : rlock_list :=
  mk_rlock (start c) (len c) t (waiting c) (po_id c).
Definition set_waiting (w : bool) (c : rlock_list) : rlock_list :=
  mk_rlock (start c) (len c) (type c) w (po_id c).

(** The macros [list_link] and [list_unlink] on one of the two lists. *)
Fixpoint list_link (m : gmap nat rlock_list) (i : nat) (s : Z) (l : list nat) : list nat :=
  match l with
  | [] => [i]
  | e :: l' =>
      if bool_decide (from_option start 0 (m !! e) < s) then e :: list_link m i s l'
      else i :: l
  end.

Definition list_unlink (i : nat) (l : list nat) : list nat := filter (λ j, j ≠ i) l.

(** [l->po.next] *)
Fixpoint next_in (l : list nat) (i : nat) : option nat :=
  match l with
  | [] => None
  | e :: l' => if bool_decide (e = i) then head l' else next_in l' i
  end.

(** ** The helpers nested in [fshelp_rlock_tweak] *)

(** Sums and differences of [loff_t]: 64 bits, signed. *)
Local Notation "x ⊕ y" := (s64 (x + y)) (at level 50, left associativity).
Local Notation "x ⊖ y" := (s64 (x - y)) (at level 50, left associativity).

Definition overlap (s n : Z) (l : rlock_list) : bool :=
  (bool_decide (n = 0) && bool_decide (len l = 0))
  || (bool_decide (n = 0) && bool_decide (s < start l ⊕ len l))
  || (bool_decide (len l = 0) && bool_decide (start l < s ⊕ n))
  || (bool_decide (s < start l ⊕ len l) && bool_decide (start l < s ⊕ n)).

Definition gen_lock (p : nat) (s n : Z) (t : lock_type) (b : rlock_box) (o : allocs)
    : option nat * rlock_box * allocs :=
  let '(ok, o') := alloc o in
  if ok then
    let i := next_loc b in
    let m := <[i := mk_rlock s n t false p]> (cells b) in
    (Some i,
     mk_box m (list_link m i s (node_locks b))
       (<[p := list_link m i s (po_list b p)]> (po_locks b)) (S i) (woken b),
     o')
  else (None, b, o').

(** Unlinks and frees lock [i]; the result is its successor. *)
Definition rele_lock (p i : nat) (wake_waiters : bool) (b : rlock_box) : option nat * rlock_box :=
  let next := next_in (po_list b p) i in
  let waits := from_option waiting false (cells b !! i) in
  (next,
   mk_box (delete i (cells b)) (list_unlink i (node_locks b))
     (<[p := list_unlink i (po_list b p)]> (po_locks b)) (next_loc b)
     (if wake_waiters && waits then woken b ++ [i] else woken b)).

(** [if (l->waiting) { l->waiting = 0; broadcast }] after [c] is stored. *)
Definition wake_lock (i : nat) (c : rlock_list) (b : rlock_box) : rlock_box :=
  if waiting c then broadcast i (set_cell i (set_waiting false c) b) else set_cell i c b.

Definition tweak_result : Type := option (error_t * rlock_box * allocs).

Definition nonzero (n : Z) : bool := bool_decide (n ≠ 0).
Definition assert (b : bool) : option unit := if b then Some () else None.

(** The loop of [unlock_region]; [l] is the loop pointer. *)
Fixpoint unlock_loop (fuel : nat) (p : nat) (s n : Z) (l : option nat) (b : rlock_box)
    (o : allocs) : tweak_result :=
  match l, fuel with
  | None, _ => Some (E0, b, o)
  | Some _, O => None
  | Some i, S fuel' =>
      c ← cells b !! i;
      let next := next_in (po_list b p) i in
      if nonzero (len c) && bool_decide (start c ⊕ len c ≤ s) then
        unlock_loop fuel' p s n next b o
      else if nonzero n && bool_decide (s ⊕ n ≤ start c) then Some (E0, b, o)
      else if bool_decide (s ≤ start c)
              && (bool_decide (n = 0)
                  || nonzero (len c) && bool_decide (start c ⊕ len c ≤ s ⊕ n)) then
        let '(next', b') := rele_lock p i true b in
        unlock_loop fuel' p s n next' b' o
      else if bool_decide (s ≤ start c)
              && (bool_decide (len c = 0) || bool_decide (start c < s ⊕ n)) then
        _ ← assert (nonzero n);
        _ ← assert (bool_decide (len c = 0) || bool_decide (s ⊕ n < start c ⊕ len c));
        let len' := if nonzero (len c) then len c ⊖ (s ⊕ n ⊖ start c) else len c in
        unlock_loop fuel' p s n next (wake_lock i (set_range (s ⊕ n) len' c) b) o
      else if bool_decide (start c < s)
              && (bool_decide (s < start c ⊕ len c)
                    && (bool_decide (n = 0) || bool_decide (start c ⊕ len c ≤ s ⊕ n))
                  || bool_decide (n = 0) && bool_decide (len c = 0)) then
        _ ← assert (bool_decide (n = 0)
                    || nonzero (len c) && bool_decide (start c ⊕ len c ≤ s ⊕ n));
        unlock_loop fuel' p s n next (wake_lock i (set_range (start c) (s ⊖ start c) c) b) o
      else if bool_decide (start c < s)
              && (bool_decide (len c = 0)
                  || nonzero n && bool_decide (s ⊕ n < start c ⊕ len c)) then
        _ ← assert (nonzero n);
        match gen_lock p (s ⊕ n) (if nonzero (len c) then start c ⊕ len c ⊖ (s ⊕ n) else 0)
                (type c) b o with
        | (None, b', o') => Some (ENOMEM, b', o')
        | (Some _, b', o') =>
            Some (E0, set_cell i (set_range (start c) (s ⊖ start c) c) b', o')
        end
      else if bool_decide (s < start c) && nonzero n && bool_decide (s ⊕ n ≤ start c) then
        Some (E0, b, o)
      else None
  end.

(** Each round frees or passes one lock, so the length of the list is fuel
    enough. *)
Definition unlock_region (p : nat) (s n : Z) (b : rlock_box) (o : allocs) : tweak_result :=
  unlock_loop (length (po_list b p)) p s n (head (po_list b p)) b o.

(** The first lock of another peropen that conflicts. *)
Fixpoint find_conflict_in (p : nat) (s n : Z) (t : lock_type) (m : gmap nat rlock_list)
    (l : list nat) : option (option (nat * rlock_list)) :=
  match l with
  | [] => Some None
  | i :: l' =>
      c ← m !! i;
      if bool_decide (po_id c = p) then find_conflict_in p s n t m l'
      else if (bool_decide (type c = F_WRLCK) || bool_decide (t = F_WRLCK)) && overlap s n c
      then Some (Some (i, c))
      else find_conflict_in p s n t m l'
  end.

Definition find_conflict (p : nat) (s n : Z) (t : lock_type) (b : rlock_box)
    : option (option (nat * rlock_list)) :=
  find_conflict_in p s n t (cells b) (node_locks b).

(** The case of [merge_in] where the request lies within lock [i]; the
    continuation gets the new request. *)
Definition merge_within (p : nat) (s n : Z) (t : lock_type) (i : nat) (c : rlock_list)
    (b : rlock_box) (o : allocs)
    (continue : Z → Z → option nat → rlock_box → allocs → tweak_result) : tweak_result :=
  if bool_decide (t = type c) || bool_decide (t = F_RDLCK) then Some (E0, b, o)
  else
    _ ← assert (bool_decide (t = F_WRLCK) && bool_decide (type c = F_RDLCK));
    let '(head_ok, hd, b1, o1) :=
      if bool_decide (start c < s) then
        let '(h, b1, o1) := gen_lock p (start c) (s ⊖ start c) F_RDLCK b o in
        (bool_decide (h ≠ None), h, b1, o1)
      else (true, None, b, o) in
    if negb head_ok then Some (ENOMEM, b1, o1)
    else
      let need_tail := (bool_decide (len c = 0) && nonzero n)
                       || bool_decide (s ⊕ n < start c ⊕ len c) in
      let '(tl, b2, o2) :=
        if need_tail then
          gen_lock p (s ⊕ n) (if nonzero (len c) then start c ⊕ len c ⊖ (s ⊕ n) else 0)
            F_RDLCK b1 o1
        else (None, b1, o1) in
      if need_tail && bool_decide (tl = None) then
        Some (ENOMEM, match hd with Some h => (rele_lock p h false b2).2 | None => b2 end, o2)
      else
        let c1 := match hd with
                  | Some _ => set_range s (if nonzero (len c) then len c ⊖ (s ⊖ start c) else len c) c
                  | None => c
                  end in
        if need_tail then
          let c2 := set_range (start c1) (s ⊕ n ⊖ start c1) c1 in
          Some (E0, set_cell i (set_type F_WRLCK c2) b2, o2)
        else
          let b3 := set_cell i c1 b2 in
          let '(next, b4) := rele_lock p i true b3 in
          continue (start c1) (len c1) next b4 o2.

(** The case where the request wraps lock [i]. *)
Definition merge_around (p : nat) (s n : Z) (t : lock_type) (i : nat) (c : rlock_list)
    (b : rlock_box) (o : allocs)
    (continue : Z → Z → option nat → rlock_box → allocs → tweak_result) : tweak_result :=
  if bool_decide (t = type c) || bool_decide (t = F_WRLCK) then
    let '(next, b') := rele_lock p i true b in continue s n next b' o
  else
    _ ← assert (bool_decide (t = F_RDLCK) && bool_decide (type c = F_WRLCK));
    let '(head_ok, has_head, b1, o1) :=
      if bool_decide (s < start c) then
        let '(h, b1, o1) := gen_lock p s (start c ⊖ s) F_RDLCK b o in
        (bool_decide (h ≠ None), true, b1, o1)
      else (true, false, b, o) in
    if negb head_ok then Some (ENOMEM, b1, o1)
    else if nonzero (len c) && (bool_decide (n = 0) || bool_decide (start c ⊕ len c < s ⊕ n)) then
      let n' := if nonzero n then s ⊕ n ⊖ (start c ⊕ len c) else n in
      continue (start c ⊕ len c) n' (next_in (po_list b1 p) i) b1 o1
    else _ ← assert has_head; Some (E0, b1, o1).

(** The case where the request starts in or just after lock [i] and ends
    beyond it. *)
Definition merge_from_inside (p : nat) (s n : Z) (t : lock_type) (i : nat) (c : rlock_list)
    (b : rlock_box) (o : allocs)
    (continue : Z → Z → option nat → rlock_box → allocs → tweak_result) : tweak_result :=
  let next := next_in (po_list b p) i in
  _ ← assert (nonzero (len c));
  if bool_decide (t = type c) then
    let n' := if nonzero n then n ⊕ (s ⊖ start c) else n in
    let '(next', b') := rele_lock p i true b in
    continue (start c) n' next' b' o
  else if bool_decide (s = start c ⊕ len c) then continue s n next b o
  else if bool_decide (t = F_WRLCK) then
    _ ← assert (bool_decide (type c = F_RDLCK));
    continue s n next
      (set_cell i (set_range (start c) (len c ⊖ (start c ⊕ len c ⊖ s)) c) b) o
  else
    let common := start c ⊕ len c ⊖ s in
    _ ← assert (bool_decide (t = F_RDLCK) && bool_decide (type c = F_WRLCK));
    continue (s ⊕ common) (if nonzero n then n ⊖ common else n) next b o.

(** The case where the request starts before lock [i] and ends in it or
    just before it. *)
Definition merge_into_head (p : nat) (s n : Z) (t : lock_type) (i : nat) (c : rlock_list)
    (b : rlock_box) (o : allocs)
    (continue : Z → Z → option nat → rlock_box → allocs → tweak_result) : tweak_result :=
  _ ← assert (nonzero n);
  _ ← assert (bool_decide (len c = 0) || bool_decide (s ⊕ n < start c ⊕ len c));
  if bool_decide (t = type c) then
    let n' := if nonzero (len c) then len c ⊕ (start c ⊖ s) else len c in
    Some (E0, set_cell i (set_range s n' c) b, o)
  else if bool_decide (start c = s ⊕ n) then continue s n (next_in (po_list b p) i) b o
  else if bool_decide (t = F_WRLCK) then
    let common := s ⊕ n ⊖ start c in
    _ ← assert (bool_decide (type c = F_RDLCK));
    match gen_lock p s n F_WRLCK b o with
    | (None, b', o') => Some (ENOMEM, b', o')
    | (Some _, b', o') =>
        let n' := if nonzero (len c) then len c ⊖ common else len c in
        Some (E0, set_cell i (set_range (start c ⊕ common) n' c) b', o')
    end
  else
    _ ← assert (bool_decide (type c = F_WRLCK) && bool_decide (t = F_RDLCK));
    match gen_lock p s (start c ⊖ s) F_RDLCK b o with
    | (None, b', o') => Some (ENOMEM, b', o')
    | (Some _, b', o') => Some (E0, b', o')
    end.

(** [return (gen_lock (start, len, type) ? 0 : ENOMEM)] *)
Definition merge_end (p : nat) (s n : Z) (t : lock_type) (b : rlock_box) (o : allocs)
    : tweak_result :=
  match gen_lock p s n t b o with
  | (None, b', o') => Some (ENOMEM, b', o')
  | (Some _, b', o') => Some (E0, b', o')
  end.

(** The loop of [merge_in]. *)
Fixpoint merge_loop (fuel : nat) (p : nat) (s n : Z) (t : lock_type) (l : option nat)
    (b : rlock_box) (o : allocs) : tweak_result :=
  match l, fuel with
  | None, _ => merge_end p s n t b o
  | Some _, O => None
  | Some i, S fuel' =>
      c ← cells b !! i;
      let continue s n next b o := merge_loop fuel' p s n t next b o in
      if bool_decide (start c ≤ s)
         && (bool_decide (len c = 0)
             || nonzero n && bool_decide (s ⊕ n ≤ start c ⊕ len c)) then
        merge_within p s n t i c b o continue
      else if bool_decide (s ≤ start c)
              && (bool_decide (n = 0)
                  || nonzero (len c) && bool_decide (start c ⊕ len c ≤ s ⊕ n)) then
        merge_around p s n t i c b o continue
      else if bool_decide (start c < s) && bool_decide (s ≤ start c ⊕ len c)
              && (bool_decide (n = 0) || bool_decide (start c ⊕ len c < s ⊕ n)) then
        merge_from_inside p s n t i c b o continue
      else if bool_decide (s < start c)
              && (bool_decide (len c = 0) || bool_decide (start c ≤ s ⊕ n)) then
        merge_into_head p s n t i c b o continue
      else if bool_decide (s < start c) && nonzero n && bool_decide (s ⊕ n ≤ start c) then
        merge_end p s n t b o
      else
        _ ← assert (bool_decide (start c ⊕ len c ≤ s));
        _ ← assert (nonzero (len c));
        continue s n (next_in (po_list b p) i) b o
  end.

Definition merge_in (p : nat) (s n : Z) (t : lock_type) (b : rlock_box) (o : allocs)
    : tweak_result :=
  merge_loop (length (po_list b p)) p s n t (head (po_list b p)) b o.

(** ** [fshelp_rlock_tweak] *)

(** The call returns an error code and the (possibly modified) lock
    description, or it waits for the condition of a conflicting lock. *)
Inductive tweak_outcome :=
| Returned (err : error_t) (lock : flock64)
| Waiting (on : nat).

(** From the label [retry] on. *)
Definition tweak_retry (p : nat) (cmd : lock_cmd) (lock : flock64) (s n : Z)
    (b : rlock_box) (o : allocs) : option (tweak_outcome * rlock_box * allocs) :=
  e ← find_conflict p s n (l_type lock) b;
  if bool_decide (cmd = F_GETLK64) then
    match e with
    | Some (_, c) => Some (Returned E0 (mk_flock (type c) SEEK_SET (start c) (len c) (-1)), b, o)
    | None =>
        Some (Returned E0 (mk_flock F_UNLCK (l_whence lock) (l_start lock) (l_len lock) (l_pid lock)),
              b, o)
    end
  else
    match e with
    | None =>
        '(err, b', o') ← merge_in p s n (l_type lock) b o; Some (Returned err lock, b', o')
    | Some (i, c) =>
        if bool_decide (cmd = F_SETLKW64)
        then Some (Waiting i, set_cell i (set_waiting true c) b, o)
        else Some (Returned EAGAIN lock, b, o)
    end.

(** What follows the wait: [EINTR] when it was interrupted, another round
    otherwise. *)
Definition tweak_after_wait (interrupted : bool) (p : nat) (cmd : lock_cmd) (lock : flock64)
    (s n : Z) (b : rlock_box) (o : allocs) : option (tweak_outcome * rlock_box * allocs) :=
  if interrupted then Some (Returned EINTR lock, b, o) else tweak_retry p cmd lock s n b o.

(** The start of the region, from [l_whence]. *)
Definition region_start (obj_size cur_pointer : Z) (lock : flock64) : option Z :=
  match l_whence lock with
  | SEEK_SET => Some (l_start lock)
  | SEEK_CUR => Some (cur_pointer ⊕ l_start lock)
  | SEEK_END => Some (obj_size ⊕ l_start lock)
  | SEEK_BAD => None
  end.

Definition fshelp_rlock_tweak (p : nat) (open_write : bool) (obj_size cur_pointer : Z)
    (cmd : lock_cmd) (lock : flock64) (rendezvous_null : bool) (b : rlock_box) (o : allocs)
    : option (tweak_outcome * rlock_box * allocs) :=
  let error e := Some (Returned e lock, b, o) in
  if negb rendezvous_null then error EOPNOTSUPP
  else if bool_decide (cmd = F_BADCMD) then error EOPNOTSUPP
  else if bool_decide (l_type lock = F_BADTYPE) then error EINVAL
  else if bool_decide (l_type lock = F_UNLCK) && bool_decide (cmd = F_GETLK64) then error EINVAL
  else
    let cmd := if bool_decide (l_type lock = F_UNLCK) && bool_decide (cmd = F_SETLKW64)
               then F_SETLK64 else cmd in
    if (bool_decide (cmd = F_SETLK64) || bool_decide (cmd = F_SETLKW64))
       && bool_decide (l_type lock = F_WRLCK) && negb open_write
    then error EBADF
    else
      match region_start obj_size cur_pointer lock with
      | None => error EINVAL
      | Some s =>
          if bool_decide (s < 0) then error EINVAL
          else if bool_decide (l_len lock < 0) then error EINVAL
          else if bool_decide (cmd = F_SETLK64) && bool_decide (l_type lock = F_UNLCK) then
            '(err, b', o') ← unlock_region p s (l_len lock) b o;
            Some (Returned err lock, b', o')
          else tweak_retry p cmd lock s (l_len lock) b o
      end.

(** ** Status and release (rlock-status.c, rlock-drop-peropen.c) *)

Fixpoint status_of (m : gmap nat rlock_list) (l : list nat) : option lock_status :=
  match l with
  | [] => Some LOCK_SH
  | i :: l' =>
      c ← m !! i;
      if bool_decide (type c = F_WRLCK) then Some LOCK_EX else status_of m l'
  end.

Definition fshelp_rlock_peropen_status (p : nat) (b : rlock_box) : option lock_status :=
  match po_list b p with [] => Some LOCK_UN | l => status_of (cells b) l end.

Definition fshelp_rlock_node_status (b : rlock_box) : option lock_status :=
  match node_locks b with [] => Some LOCK_UN | l => status_of (cells b) l end.

(** Every lock of the peropen is unlinked from the node and freed; the
    peropen's own list is left as it is (the peropen goes away). *)
Fixpoint drop_locks (l : list nat) (b : rlock_box) : option rlock_box :=
  match l with
  | [] => Some b
  | i :: l' =>
      c ← cells b !! i;
      drop_locks l'
        (mk_box (delete i (cells b)) (list_unlink i (node_locks b)) (po_locks b) (next_loc b)
           (if waiting c then woken b ++ [i] else woken b))
  end.

Definition fshelp_rlock_drop_peropen (p : nat) (b : rlock_box) : option rlock_box :=
  drop_locks (po_list b p) b.

(** ** Regions *)

Definition in_region (s n β : Z) : Prop := s ≤ β ∧ (n = 0 ∨ β < s + n).
Definition covers (c : rlock_list) (β : Z) : Prop := in_region (start c) (len c) β.

(** Some lock of a type in [f] covers byte [β]. *)
Definition held (f : lock_type → bool) (cs : list rlock_list) (β : Z) : Prop :=
  ∃ c, c ∈ cs ∧ f (type c) = true ∧ covers c β.

(** Every lock or only write locks. *)
Definition any_lock (t : lock_type) : bool := true.
Definition write_lock (t : lock_type) : bool := bool_decide (t = F_WRLCK).

Record lock_ok (c : rlock_list) : Prop := {
  ok_start : 0 ≤ start c;
  ok_len : 0 ≤ len c;
  ok_end : start c + len c < 2 ^ 63;
  ok_type : type c = F_RDLCK ∨ type c = F_WRLCK
}.

Definition before (c d : rlock_list) : Prop := len c ≠ 0 ∧ start c + len c ≤ start d.

(** The locks of a peropen are well-formed, disjoint and ascending. *)
Definition ordered (cs : list rlock_list) : Prop := StronglySorted before cs ∧ Forall lock_ok cs.

(** Sums and differences that do not overflow. *)
Ltac loff :=
  repeat match goal with
  | |- context [s64 (?a + ?b)] => rewrite (s64_id (a + b)) by lia
  | |- context [s64 (?a - ?b)] => rewrite (s64_id (a - b)) by lia
  end.

Lemma overlap_spec s n c :
  0 ≤ s → 0 ≤ n → s + n < 2 ^ 63 → lock_ok c → overlap s n c = true ↔ ∃ β, in_region s n β ∧ covers c β.
Proof.
  intros Hs Hn Hsn [? Hl ? _]. unfold overlap, covers, in_region. loff.
  rewrite !orb_true_iff, !andb_true_iff, !bool_decide_eq_true. split.
  - intros H. exists (Z.max s (start c)). lia.
  - intros (β & H). lia.
Qed.

Lemma held_nil f β : held f [] β ↔ False.
Proof. unfold held. split; [|done]. by intros (c & ?%elem_of_nil & _). Qed.

Lemma held_cons f c cs β : held f (c :: cs) β ↔ (f (type c) = true ∧ covers c β) ∨ held f cs β.
Proof.
  unfold held. split.
  - intros (d & [->|Hd]%elem_of_cons & ?); [by left|right; by exists d].
  - intros [?|(d & ? & ?)]; [exists c | exists d]; by rewrite elem_of_cons; auto.
Qed.

Lemma held_app f cs ds β : held f (cs ++ ds) β ↔ held f cs β ∨ held f ds β.
Proof.
  induction cs as [|c cs IH]; simpl; rewrite ?held_nil, ?held_cons, ?IH; tauto.
Qed.

(** ** The lists of a box *)

(** [L] is the list of peropen [p], each lock with its contents. *)
Record owns (p : nat) (L : list (nat * rlock_list)) (b : rlock_box) : Prop := {
  own_ids : po_list b p = L.*1;
  own_cells : ∀ i c, (i, c) ∈ L ↔ cells b !! i = Some c ∧ po_id c = p;
  own_nodup : NoDup L.*1
}.

Record node_wf (b : rlock_box) : Prop := {
  node_nodup : NoDup (node_locks b);
  node_elem : ∀ i, i ∈ node_locks b ↔ is_Some (cells b !! i);
  node_fresh : ∀ i, is_Some (cells b !! i) → (i < next_loc b)%nat
}.

Definition po_state (p : nat) (L : list (nat * rlock_list)) (b : rlock_box) : Prop :=
  owns p L b ∧ node_wf b.

(** The step from [b] to [b'] leaves the other peropens alone. *)
Definition frame (p : nat) (b b' : rlock_box) : Prop :=
  (∀ q, q ≠ p → po_list b' q = po_list b q)
  ∧ ∀ i c, po_id c ≠ p → cells b' !! i = Some c ↔ cells b !! i = Some c.

Lemma frame_refl p b : frame p b b.
Proof. done. Qed.

Lemma frame_trans p b1 b2 b3 : frame p b1 b2 → frame p b2 b3 → frame p b1 b3.
Proof.
  intros [H1 H2] [H3 H4]. split.
  - intros q Hq. by rewrite H3, H1.
  - intros i c Hc. by rewrite H4, H2.
Qed.

Lemma frame_owns p q L b b' : q ≠ p → frame p b b' → owns q L b → owns q L b'.
Proof.
  intros Hq [H1 H2] [H3 H4 H5]. split; [by rewrite H1| |done].
  intros i c. rewrite H4. split; intros [Hi Hc]; (split; [apply H2; congruence|done]).
Qed.

Lemma owns_lookup p pre i c suf b :
  owns p (pre ++ (i, c) :: suf) b → cells b !! i = Some c ∧ po_id c = p.
Proof. intros H. apply (own_cells _ _ _ H). set_solver. Qed.

Lemma owns_unique p L i c d b : owns p L b → (i, c) ∈ L → (i, d) ∈ L → c = d.
Proof.
  intros H [H1 _]%(own_cells _ _ _ H) [H2 _]%(own_cells _ _ _ H). congruence.
Qed.

Lemma next_in_split (pre : list nat) (i : nat) (suf : list nat) :
  i ∉ pre → next_in (pre ++ i :: suf) i = head suf.
Proof.
  induction pre as [|j pre IH]; simpl; intros Hi.
  - by rewrite bool_decide_true.
  - rewrite bool_decide_false by set_solver. apply IH. set_solver.
Qed.

Lemma fmap_split_notin (pre suf : list (nat * rlock_list)) i c :
  NoDup (pre ++ (i, c) :: suf).*1 → (i ∉ pre.*1) ∧ (i ∉ suf.*1).
Proof.
  rewrite fmap_app, fmap_cons, NoDup_app, NoDup_cons. simpl.
  intros (_ & Hd & Hi & _). split; [|done]. intros Hp. apply (Hd i Hp), elem_of_cons. by left.
Qed.

Lemma owns_next p pre i c suf b :
  owns p (pre ++ (i, c) :: suf) b → next_in (po_list b p) i = fst <$> head suf.
Proof.
  intros H. pose proof (fmap_split_notin _ _ _ _ (own_nodup _ _ _ H)) as [Hi _].
  rewrite (own_ids _ _ _ H), fmap_app, fmap_cons. simpl.
  rewrite next_in_split by done. by destruct suf.
Qed.

Lemma po_state_next p pre i c suf b :
  po_state p (pre ++ (i, c) :: suf) b → next_in (po_list b p) i = fst <$> head suf.
Proof. intros [H _]. by apply owns_next in H. Qed.

Lemma po_state_lookup p pre i c suf b :
  po_state p (pre ++ (i, c) :: suf) b → cells b !! i = Some c ∧ po_id c = p.
Proof. intros [H _]. by apply owns_lookup in H. Qed.

Lemma set_cell_state p pre i c c' suf b :
  po_state p (pre ++ (i, c) :: suf) b → po_id c' = p →
  po_state p (pre ++ (i, c') :: suf) (set_cell i c' b) ∧ frame p b (set_cell i c' b).
Proof.
  intros [H [N1 N2 N3]] Hp. pose proof (owns_lookup _ _ _ _ _ _ H) as [Hi Hpo].
  pose proof (fmap_split_notin _ _ _ _ (own_nodup _ _ _ H)) as [Hpre Hsuf].
  destruct H as [H1 H2 H3]. split; [split; split|split]; simpl.
  - change (po_list b p = (pre ++ (i, c') :: suf).*1). rewrite H1, !fmap_app. done.
  - intros j d. rewrite lookup_insert_Some.
    specialize (H2 j d). rewrite elem_of_app, elem_of_cons in *.
    assert ((i, d) ∉ pre) by (intros X; apply Hpre, list_elem_of_fmap; by exists (i, d)).
    assert ((i, d) ∉ suf) by (intros X; apply Hsuf, list_elem_of_fmap; by exists (i, d)).
    split.
    + intros [?|[[= -> ->]|?]]; [|by auto|];
        (destruct (decide (i = j)) as [->|]; [done|]); split; try tauto;
        right; (split; [done|]); apply H2; auto.
    + intros [[[<- <-]|[? Hd]] Hj]; [auto|]. destruct H2 as [_ H2].
      destruct (H2 (conj Hd Hj)) as [?|[?|?]]; auto. congruence.
  - by rewrite fmap_app, fmap_cons in *.
  - done.
  - intros j. rewrite N2, lookup_insert_is_Some. split; [|intros [->|[_ ?]]; eauto].
    destruct (decide (i = j)); auto.
  - intros j [->|[_ ?]]%lookup_insert_is_Some; apply N3; eauto.
  - done.
  - intros j d Hd. rewrite lookup_insert_Some. split.
    + intros [[<- <-]|[? ?]]; [done|done].
    + intros Hj. right. split; [|done]. intros <-. congruence.
Qed.

Lemma broadcast_state p L i b : po_state p L b → po_state p L (broadcast i b).
Proof. intros [[] []]. by split. Qed.

Lemma wake_lock_state p pre i c c' suf b :
  po_state p (pre ++ (i, c) :: suf) b → po_id c' = p →
  ∃ w, po_state p (pre ++ (i, set_waiting w c') :: suf) (wake_lock i c' b)
       ∧ frame p b (wake_lock i c' b).
Proof.
  intros H Hp. unfold wake_lock. destruct (waiting c') eqn:Hw.
  - destruct (set_cell_state p pre i c (set_waiting false c') suf b) as [H1 H2]; [done..|].
    exists false. split; [by apply broadcast_state|done].
  - exists (waiting c'). destruct c'; simpl in *. by apply (set_cell_state p pre i c).
Qed.

Lemma list_unlink_notin i (l : list nat) : i ∉ l → list_unlink i l = l.
Proof.
  unfold list_unlink. induction l as [|j l IH]; [done|]. intros Hi. rewrite filter_cons.
  rewrite decide_True by set_solver. f_equal. apply IH. set_solver.
Qed.

Lemma list_unlink_all (P : nat → Prop) `{!∀ i, Decision (P i)} (l : list nat) :
  (∀ i, i ∈ l → P i) → filter P l = l.
Proof.
  induction l as [|j l IH]; [done|]. intros Hl. rewrite filter_cons_True by set_solver.
  f_equal. apply IH. set_solver.
Qed.

Lemma list_unlink_split i (pre suf : list (nat * rlock_list)) c :
  NoDup (pre ++ (i, c) :: suf).*1 →
  list_unlink i (pre ++ (i, c) :: suf).*1 = (pre ++ suf).*1.
Proof.
  intros [Hpre Hsuf]%fmap_split_notin. rewrite !fmap_app, fmap_cons. simpl.
  unfold list_unlink. rewrite filter_app, filter_cons, decide_False by tauto.
  f_equal; by apply list_unlink_notin.
Qed.

Lemma po_list_insert b p q l m nl nx w :
  po_list (mk_box m nl (<[p := l]> (po_locks b)) nx w) q
  = if decide (q = p) then l else po_list b q.
Proof.
  unfold po_list. simpl. case_decide as H.
  - subst. by rewrite lookup_insert_eq.
  - by rewrite lookup_insert_ne.
Qed.

Lemma rele_lock_state p pre i c suf w b :
  po_state p (pre ++ (i, c) :: suf) b →
  ∃ b', rele_lock p i w b = (fst <$> head suf, b')
        ∧ po_state p (pre ++ suf) b' ∧ frame p b b'.
Proof.
  intros H. pose proof (po_state_next _ _ _ _ _ _ H) as Hnext.
  pose proof (po_state_lookup _ _ _ _ _ _ H) as [Hi Hpo].
  destruct H as [H [N1 N2 N3]]. pose proof (own_nodup _ _ _ H) as Hnd.
  pose proof (fmap_split_notin _ _ _ _ Hnd) as [Hpre Hsuf].
  unfold rele_lock. rewrite Hnext. eexists. split; [done|].
  split; [split; split|split]; simpl.
  - rewrite po_list_insert, decide_True by done.
    rewrite (own_ids _ _ _ H). by apply (list_unlink_split i pre suf c).
  - intros j d. rewrite lookup_delete_Some. pose proof (own_cells _ _ _ H j d) as Hj.
    rewrite elem_of_app, elem_of_cons in *. split.
    + intros X. assert (i ≠ j).
      { intros <-. destruct X as [X|X]; [apply Hpre | apply Hsuf];
          apply list_elem_of_fmap; by exists (i, d). }
      tauto.
    + intros [[? ?] ?]. destruct Hj as [_ Hj]. destruct Hj as [?|[?|?]]; auto. congruence.
  - rewrite fmap_app, fmap_cons, NoDup_app, NoDup_cons in Hnd. rewrite fmap_app, NoDup_app.
    destruct Hnd as (? & Hd & ? & ?). split; [done|]. split; [|done].
    intros j Hj Hs. apply (Hd j Hj), elem_of_cons. by right.
  - by apply NoDup_filter.
  - intros j. unfold list_unlink. rewrite list_elem_of_filter, lookup_delete_is_Some, N2. naive_solver.
  - intros j [_ ?]%lookup_delete_is_Some. by apply N3.
  - intros q Hq. by rewrite po_list_insert, decide_False.
  - intros j d Hd. rewrite lookup_delete_Some. split; [tauto|].
    intros Hj. split; [|done]. intros <-. congruence.
Qed.

Lemma list_link_split m i s (pre suf : list (nat * rlock_list)) c :
  (∀ j d, (j, d) ∈ pre → m !! j = Some d ∧ start d < s) →
  (∀ j d, head suf = Some (j, d) → m !! j = Some d ∧ s ≤ start d) →
  list_link m i s (pre ++ suf).*1 = (pre ++ (i, c) :: suf).*1.
Proof.
  intros Hpre Hsuf. rewrite !fmap_app, fmap_cons. simpl.
  induction pre as [|[j d] pre IH]; simpl.
  - destruct suf as [|[j d] suf]; [done|]. simpl.
    destruct (Hsuf j d) as [-> ?]; [done|]. simpl. by rewrite bool_decide_false by lia.
  - destruct (Hpre j d) as [-> ?]; [set_solver|]. simpl.
    rewrite bool_decide_true by done. f_equal. apply IH. set_solver.
Qed.

Lemma list_link_perm m i s l : list_link m i s l ≡ₚ i :: l.
Proof.
  induction l as [|j l IH]; simpl; [done|]. case_bool_decide; [|done].
  rewrite IH. apply Permutation_swap.
Qed.

(** A new lock goes between the locks that start before it and the others;
    without memory nothing changes. *)
Lemma gen_lock_state p pre suf s n t b o :
  po_state p (pre ++ suf) b →
  Forall (λ x, start x.2 < s) pre → (∀ x, head suf = Some x → s ≤ start x.2) →
  (∃ o', gen_lock p s n t b o = (None, b, o') ∧ o ≠ [])
  ∨ ∃ i b' o', gen_lock p s n t b o = (Some i, b', o') ∧ (o = [] → o' = [])
      ∧ po_state p (pre ++ (i, mk_rlock s n t false p) :: suf) b' ∧ frame p b b'.
Proof.
  intros [H [N1 N2 N3]] Hpre Hsuf. unfold gen_lock.
  destruct (alloc o) as [[] o'] eqn:Ho; [right|left].
  2: { exists o'. split; [done|]. intros ->. by injection Ho. }
  assert (Hnew : cells b !! next_loc b = None).
  { apply eq_None_not_Some. intros X%N3. lia. }
  set (m := <[_ := _]> (cells b)).
  assert (Hin : ∀ j d, (j, d) ∈ pre ++ suf → m !! j = Some d ∧ j ≠ next_loc b).
  { intros j d [Hj _]%(own_cells _ _ _ H). assert (j ≠ next_loc b) by congruence.
    split; [|done]. unfold m. by rewrite lookup_insert_ne. }
  eexists _, _, o'. split; [done|]. split; [intros ->; by injection Ho|].
  split; [split; split|split]; simpl.
  - rewrite po_list_insert, decide_True, (own_ids _ _ _ H) by done.
    apply list_link_split.
    + intros j d Hj. split; [apply Hin; set_solver|].
      by apply (proj1 (Forall_forall _ _) Hpre (j, d)).
    + intros j d Hj. split; [|by apply (Hsuf (j, d))].
      apply Hin, elem_of_app. right. destruct suf; [done|]. simpl in Hj. injection Hj as ->. set_solver.
  - intros j d. pose proof (own_cells _ _ _ H j d) as Hj. unfold m.
    rewrite lookup_insert_Some, elem_of_app, elem_of_cons. rewrite elem_of_app in Hj.
    specialize (Hin j d). rewrite elem_of_app in Hin. split.
    + intros [?|[[= -> ->]|?]]; [|by auto|]; (split; [|tauto]); right; (split; [|tauto]);
        intros <-; apply Hin; auto.
    + intros [[[<- <-]|?] ?]; tauto.
  - rewrite fmap_app, fmap_cons. simpl. rewrite <- Permutation_middle. apply NoDup_cons.
    rewrite <- fmap_app. split; [|apply (own_nodup _ _ _ H)].
    intros ([j d] & Hjd & Hj)%list_elem_of_fmap. by apply Hin in Hj as [_ ?].
  - rewrite list_link_perm. apply NoDup_cons. split; [|done]. rewrite N2, Hnew. by intros [? ?].
  - intros j. rewrite list_link_perm, elem_of_cons, N2. unfold m.
    rewrite lookup_insert_is_Some. destruct (decide (next_loc b = j)); naive_solver.
  - intros j. unfold m. intros [<-|[_ Hj]]%lookup_insert_is_Some; [lia|]. apply N3 in Hj. lia.
  - intros q Hq. by rewrite po_list_insert, decide_False.
  - intros j d Hd. unfold m. rewrite lookup_insert_Some. split.
    + intros [[<- <-]|[? ?]]; done.
    + intros Hj. right. split; [|done]. intros <-. congruence.
Qed.

#[local] Opaque rele_lock gen_lock wake_lock set_cell.

(** ** Ordered lists of locks *)

Definition ends_by (e : Z) (cs : list rlock_list) : Prop :=
  Forall (λ d, len d ≠ 0 ∧ start d + len d ≤ e) cs.
Definition starts_from (e : Z) (cs : list rlock_list) : Prop := Forall (λ d, e ≤ start d) cs.

(** Nothing follows [c], or what follows starts after its end. *)
Definition followed_by (c : rlock_list) (cs : list rlock_list) : Prop :=
  cs = [] ∨ (len c ≠ 0 ∧ starts_from (start c + len c) cs).

Lemma ends_by_mono e e' cs : e ≤ e' → ends_by e cs → ends_by e' cs.
Proof. intros ? H. eapply Forall_impl; [done|]. simpl. lia. Qed.

Lemma starts_from_mono e e' cs : e' ≤ e → starts_from e cs → starts_from e' cs.
Proof. intros ? H. eapply Forall_impl; [done|]. simpl. lia. Qed.

Lemma held_ends_by f e cs β : ends_by e cs → held f cs β → β < e.
Proof.
  intros H (c & Hc & _ & Hβ). eapply Forall_forall in H; [|done].
  unfold covers, in_region in Hβ. lia.
Qed.

Lemma held_starts_from f e cs β : starts_from e cs → held f cs β → e ≤ β.
Proof.
  intros H (c & Hc & _ & Hβ). eapply Forall_forall in H; [|done].
  unfold covers, in_region in Hβ. lia.
Qed.

Lemma held_followed f c cs β :
  followed_by c cs → held f cs β → len c ≠ 0 ∧ start c + len c ≤ β.
Proof.
  intros [->|[? H]]; [by rewrite held_nil|]. intros Hh. split; [done|].
  by eapply held_starts_from.
Qed.

Lemma ordered_nil : ordered [].
Proof. split; constructor. Qed.

Lemma ordered_cons c cs :
  ordered (c :: cs) ↔ lock_ok c ∧ followed_by c cs ∧ ordered cs.
Proof.
  unfold ordered, followed_by, starts_from. split.
  - intros [[Hs Hc]%StronglySorted_inv [Hk Hks]%Forall_cons]. split; [done|]. split; [|done].
    destruct cs as [|d cs]; [by left|]. right.
    split; [by apply Forall_cons in Hc as [[? ?] _]|]. eapply Forall_impl; [exact Hc|].
    intros ? [? ?]. simpl. lia.
  - intros (? & Hf & ? & ?). split; [|by constructor]. constructor; [done|].
    destruct Hf as [->|[? Hf]]; [constructor|]. eapply Forall_impl; [exact Hf|]. by split.
Qed.

Lemma ordered_app cs ds e :
  ordered cs → ordered ds → ends_by e cs → starts_from e ds → ordered (cs ++ ds).
Proof.
  intros H Hd He Hs. induction cs as [|c cs IH]; [done|]. simpl.
  apply ordered_cons in H as (Hk & Hf & Hc). apply Forall_cons in He as [[Hn Hce] He].
  apply ordered_cons. split; [done|]. split; [|by apply IH].
  right. split; [done|]. apply Forall_app. split.
  - destruct Hf as [->|[_ ?]]; [by constructor|done].
  - by eapply starts_from_mono.
Qed.

Lemma ordered_mid_inv cs c ds :
  ordered (cs ++ c :: ds) →
  ordered cs ∧ ends_by (start c) cs ∧ lock_ok c ∧ followed_by c ds ∧ ordered ds.
Proof.
  induction cs as [|a cs IH]; simpl.
  - intros (? & ? & ?)%ordered_cons. split; [apply ordered_nil|]. by split; [constructor|].
  - intros (Hk & [Hf|[Hn Hf]] & Ho)%ordered_cons; [by destruct cs|].
    apply IH in Ho as (H1 & H2 & H3 & H4 & H5).
    apply Forall_app in Hf as [Hf [Hac _]%Forall_cons]. split; [|split; [|done]].
    + apply ordered_cons. split; [done|]. split; [|done]. by right.
    + by constructor.
Qed.

Lemma followed_starts c ds : followed_by c ds → 0 ≤ len c → starts_from (start c) ds.
Proof.
  intros [->|[? Hf]] ?; [constructor|]. eapply starts_from_mono; [|done]. lia.
Qed.

Lemma ordered_mid cs c ds :
  ordered cs → ends_by (start c) cs → lock_ok c → followed_by c ds → ordered ds →
  ordered (cs ++ c :: ds).
Proof.
  intros H1 H2 H3 H4 H5. apply (ordered_app _ _ (start c)); [done| |done|].
  - by apply ordered_cons.
  - constructor; [lia|]. apply followed_starts; [done|apply H3].
Qed.

Lemma followed_by_sub c c' cs :
  followed_by c cs → (len c ≠ 0 → len c' ≠ 0 ∧ start c' + len c' ≤ start c + len c) →
  followed_by c' cs.
Proof.
  intros [->|[Hn Hf]] H; [by left|right]. split; [by apply H|].
  eapply starts_from_mono; [|done]. by apply H.
Qed.

(** A lock may shrink in place. *)
Lemma ordered_replace cs c c' ds :
  ordered (cs ++ c :: ds) → lock_ok c' → start c ≤ start c' →
  (len c ≠ 0 → len c' ≠ 0 ∧ start c' + len c' ≤ start c + len c) →
  ordered (cs ++ c' :: ds).
Proof.
  intros (H1 & H2 & H3 & H4 & H5)%ordered_mid_inv Hk Hs He.
  apply ordered_mid; [done| |done| |done].
  - by eapply ends_by_mono.
  - by eapply followed_by_sub.
Qed.

Lemma ordered_delete cs c ds : ordered (cs ++ c :: ds) → ordered (cs ++ ds).
Proof.
  intros (H1 & H2 & H3 & H4 & H5)%ordered_mid_inv. eapply ordered_app; [done..|].
  apply followed_starts; [done|apply H3].
Qed.

Lemma covers_set_waiting w c β : covers (set_waiting w c) β ↔ covers c β.
Proof. done. Qed.

Lemma lock_ok_range s n c : lock_ok c → 0 ≤ s → 0 ≤ n → s + n < 2 ^ 63 → lock_ok (set_range s n c).
Proof. intros [_ _ _ ?] ???. by split. Qed.

Lemma lock_ok_waiting w c : lock_ok c → lock_ok (set_waiting w c).
Proof. by intros [??]. Qed.

(** ** Automation for the case analyses of the two loops *)

Definition heldb (f : lock_type → bool) (cs : list rlock_list) (β : Z) : bool :=
  bool_decide (Exists (λ c, f (type c) = true ∧ start c ≤ β ∧ (len c = 0 ∨ β < start c + len c)) cs).

Lemma held_heldb f cs β : held f cs β ↔ heldb f cs β = true.
Proof.
  unfold held, heldb. rewrite bool_decide_eq_true, Exists_exists. done.
Qed.

(** Turns the boolean conditions of the code into propositions. *)
Ltac bool_prop H :=
  unfold nonzero in H;
  repeat first
    [ rewrite andb_true_iff in H | rewrite andb_false_iff in H | rewrite orb_true_iff in H
    | rewrite orb_false_iff in H | rewrite negb_true_iff in H | rewrite negb_false_iff in H ];
  rewrite ?bool_decide_eq_true, ?bool_decide_eq_false in H.

Ltac bool_goal :=
  unfold nonzero;
  repeat first
    [ rewrite andb_true_iff | rewrite orb_true_iff | rewrite negb_true_iff ];
  rewrite ?bool_decide_eq_true, ?bool_decide_eq_false.

(** An assertion that holds. *)
Ltac pass_assert :=
  match goal with
  | |- context [assert ?b] =>
      replace b with true by (symmetry; bool_goal; first [lia | tauto]); simpl
  end.

(** Decides a goal on the bytes that are held. *)
Ltac solve_held :=
  rewrite ?fmap_app, ?fmap_cons, ?held_app, ?held_cons, ?held_nil; simpl;
  unfold covers, in_region in *; simpl in *;
  repeat match goal with H : type ?c = _ |- context [type ?c] => rewrite H end;
  rewrite ?held_heldb in *; lia.

Definition clear_of (s n : Z) (d : rlock_list) : Prop :=
  (len d ≠ 0 ∧ start d + len d ≤ s) ∨ (n ≠ 0 ∧ s + n ≤ start d).

Lemma held_clear f s n cs β : Forall (clear_of s n) cs → held f cs β → ¬ in_region s n β.
Proof.
  intros H (c & Hc & _ & Hβ). eapply Forall_forall in H; [|done].
  unfold covers, in_region, clear_of in *. lia.
Qed.

(** What the loop of [unlock_region] promises from lock list [L] on, with
    [suf] still to visit: exactly the bytes of the region are released, or
    nothing changes for want of memory. *)
Definition unlock_post (p : nat) (s n : Z) (L suf : list (nat * rlock_list)) (b : rlock_box)
    (o : allocs) (r : tweak_result) : Prop :=
  ∃ err L' b' o', r = Some (err, b', o') ∧ po_state p L' b' ∧ frame p b b' ∧ ordered L'.*2 ∧
    ((err = E0 ∧ ∀ f β, held f L'.*2 β ↔ held f L.*2 β ∧ ¬ in_region s n β)
     ∨ (err = ENOMEM ∧ b' = b ∧ o ≠ [] ∧ ∃ x, x ∈ suf ∧ start x.2 < s)).

Lemma unlock_post_step p s n L L1 x suf b b1 o r :
  unlock_post p s n L1 suf b1 o r → frame p b b1 →
  (∀ f β, ¬ in_region s n β → held f L1.*2 β ↔ held f L.*2 β) →
  b1 = b ∨ starts_from s suf.*2 →
  unlock_post p s n L (x :: suf) b o r.
Proof.
  intros (err & L' & b' & o' & Hr & Hst & Hf & Hord & Hp) Hfr Hh Hb.
  exists err, L', b', o'. split; [done|]. split; [done|].
  split; [by eapply frame_trans|]. split; [done|].
  destruct Hp as [[-> Hp]|(-> & -> & Ho & y & Hy & Hs)]; [left|right]; (split; [done|]).
  - intros f β. rewrite Hp. specialize (Hh f β). tauto.
  - destruct Hb as [->|Hb].
    + split; [done|]. split; [done|]. exists y. split; [by apply elem_of_cons; right|done].
    + assert (s ≤ start y.2); [|lia]. apply (proj1 (Forall_forall _ _) Hb).
      apply list_elem_of_fmap. by exists y.
Qed.

Lemma unlock_post_done p s n L suf b o :
  po_state p L b → ordered L.*2 → Forall (clear_of s n) L.*2 →
  unlock_post p s n L suf b o (Some (E0, b, o)).
Proof.
  intros Hst Ho Hc. exists E0, L, b, o. split; [done|]. split; [done|].
  split; [apply frame_refl|]. split; [done|]. left. split; [done|].
  intros f β. split; [|tauto]. intros Hh. split; [done|]. by eapply held_clear.
Qed.

Lemma followed_clear s n c cs :
  n ≠ 0 → s + n ≤ start c → 0 ≤ len c → followed_by c cs → Forall (clear_of s n) (c :: cs).
Proof.
  intros Hn Hs Hl Hf. constructor; [by right|].
  eapply Forall_impl; [by eapply followed_starts|]. intros d Hd. right. simpl in Hd. lia.
Qed.

Lemma followed_cons c d ds :
  len c ≠ 0 → start c + len c ≤ start d → 0 ≤ len d → followed_by d ds → followed_by c (d :: ds).
Proof.
  intros Hn Hs Hl Hf. right. split; [done|]. constructor; [done|].
  eapply starts_from_mono; [|by eapply followed_starts]. done.
Qed.

Lemma ordered_pairs_inv (pre : list (nat * rlock_list)) i c suf :
  ordered (pre ++ (i, c) :: suf).*2 →
  ordered pre.*2 ∧ ends_by (start c) pre.*2 ∧ lock_ok c ∧ followed_by c suf.*2 ∧ ordered suf.*2.
Proof. rewrite fmap_app, fmap_cons. apply ordered_mid_inv. Qed.

Lemma ordered_pairs (pre : list (nat * rlock_list)) i c suf :
  ordered pre.*2 → ends_by (start c) pre.*2 → lock_ok c → followed_by c suf.*2 →
  ordered suf.*2 → ordered (pre ++ (i, c) :: suf).*2.
Proof. rewrite fmap_app, fmap_cons. apply ordered_mid. Qed.

Lemma ends_by_lt (pre : list (nat * rlock_list)) e :
  ordered pre.*2 → ends_by e pre.*2 → Forall (λ x, start x.2 < e) pre.
Proof.
  intros [_ Ho] He. apply Forall_forall. intros [i c] Hx.
  assert (Hc : c ∈ pre.*2) by (apply list_elem_of_fmap; by exists (i, c)).
  eapply Forall_forall in Ho; [|done]. eapply Forall_forall in He; [|done].
  destruct Ho. simpl in *. lia.
Qed.

Lemma followed_head c (suf : list (nat * rlock_list)) x :
  followed_by c suf.*2 → head suf = Some x → len c ≠ 0 ∧ start c + len c ≤ start x.2.
Proof.
  destruct suf as [|y suf]; [done|]. intros [?|[? Hf]] [= ->]; [done|].
  split; [done|]. by apply Forall_cons in Hf as [? _].
Qed.

Lemma ends_by_snoc e (pre : list (nat * rlock_list)) i c :
  ends_by e (pre ++ [(i, c)]).*2 ↔ ends_by e pre.*2 ∧ len c ≠ 0 ∧ start c + len c ≤ e.
Proof.
  unfold ends_by. rewrite fmap_app, Forall_app. simpl. rewrite Forall_singleton. done.
Qed.

Lemma ordered_snoc (pre : list (nat * rlock_list)) i c :
  ordered pre.*2 → ends_by (start c) pre.*2 → lock_ok c → ordered (pre ++ [(i, c)]).*2.
Proof. intros. apply ordered_pairs; [done..| |apply ordered_nil]. by left. Qed.

Lemma app_snoc {A} (pre : list A) x suf : pre ++ x :: suf = (pre ++ [x]) ++ suf.
Proof. by rewrite <- app_assoc. Qed.

(** Carving the region out of the middle of one lock. *)
Lemma unlock_carve p s n pre i c suf b o :
  0 ≤ s → 0 < n → s + n < 2 ^ 63 → po_state p (pre ++ (i, c) :: suf) b → ordered (pre ++ (i, c) :: suf).*2 →
  start c < s → len c = 0 ∨ s + n < start c + len c →
  unlock_post p s n (pre ++ (i, c) :: suf) ((i, c) :: suf) b o
    match gen_lock p (s + n) (if nonzero (len c) then start c + len c - (s + n) else 0)
            (type c) b o with
    | (None, b', o') => Some (ENOMEM, b', o')
    | (Some _, b', o') => Some (E0, set_cell i (set_range (start c) (s - start c) c) b', o')
    end.
Proof.
  intros Hs Hn Hsn Hst Hord Hcs Hce.
  pose proof Hord as (H1 & H2 & Hk & Hf & H5)%ordered_pairs_inv.
  pose proof Hst as [_ Hpo]%po_state_lookup.
  set (n' := if nonzero (len c) then _ else 0).
  assert (Hn' : (len c = 0 → n' = 0) ∧ (len c ≠ 0 → n' = start c + len c - (s + n))).
  { unfold n', nonzero. case_bool_decide; lia. }
  pose proof Hst as Hst0. rewrite app_snoc in Hst.
  destruct (gen_lock_state p (pre ++ [(i, c)]) suf (s + n) n' (type c) b o Hst)
    as [(o' & -> & Ho)|(j & b' & o' & -> & _ & Hst' & Hfr)].
  - apply Forall_app. split; [|constructor; [simpl; lia|done]].
    apply ends_by_lt; [done|]. eapply ends_by_mono; [|done]. lia.
  - intros x Hx. destruct (followed_head _ _ _ Hf Hx). lia.
  - exists ENOMEM, (pre ++ (i, c) :: suf), b, o'. do 4 (split; [done|]). right.
    do 3 (split; [done|]). exists (i, c). split; [by apply elem_of_cons; left|done].
  - rewrite <- app_snoc in Hst'. destruct Hk as [Hk1 Hk2 Hke Hk3].
    destruct (set_cell_state _ _ _ _ (set_range (start c) (s - start c) c) _ _ Hst' Hpo)
      as [Hst2 Hfr2].
    eexists E0, _, _, o'. split; [done|]. split; [exact Hst2|].
    split; [by eapply frame_trans|]. split.
    + assert (Hfj : followed_by (mk_rlock (s + n) n' (type c) false p) suf.*2).
      { eapply followed_by_sub; [done|]. simpl. lia. }
      apply ordered_pairs; [done|done|split; simpl; [lia..|done]| |].
      * apply followed_cons; [simpl; lia..|done].
      * simpl. apply ordered_cons. split; [split; simpl; [lia..|done]|done].
    + left. split; [done|]. intros f β.
      pose proof (λ Hh, held_ends_by f _ _ β H2 Hh) as Hb1.
      pose proof (λ Hh, held_followed f _ _ β Hf Hh) as Hb2.
      solve_held.
Qed.

Lemma ordered_pairs_delete (pre : list (nat * rlock_list)) i c suf :
  ordered (pre ++ (i, c) :: suf).*2 → ordered (pre ++ suf).*2.
Proof. rewrite !fmap_app, fmap_cons. apply ordered_delete. Qed.

(** The loop goes on after the lock at hand was shrunk. *)
Lemma unlock_shrink p s n fuel pre i c s' n' suf b o :
  (∀ pre suf b, po_state p (pre ++ suf) b → ordered (pre ++ suf).*2 →
     Forall (clear_of s n) pre.*2 → (length suf ≤ fuel)%nat →
     unlock_post p s n (pre ++ suf) suf b o (unlock_loop fuel p s n (fst <$> head suf) b o)) →
  po_state p (pre ++ (i, c) :: suf) b → ordered (pre ++ (i, c) :: suf).*2 →
  Forall (clear_of s n) pre.*2 → (length suf ≤ fuel)%nat →
  0 ≤ s' → 0 ≤ n' → s' + n' < 2 ^ 63 → start c ≤ s' → (len c ≠ 0 → n' ≠ 0 ∧ s' + n' ≤ start c + len c) →
  clear_of s n (set_range s' n' c) → len c = 0 ∨ s ≤ start c + len c →
  (∀ β, ¬ in_region s n β → in_region s' n' β ↔ covers c β) →
  unlock_post p s n (pre ++ (i, c) :: suf) ((i, c) :: suf) b o
    (unlock_loop fuel p s n (fst <$> head suf) (wake_lock i (set_range s' n' c) b) o).
Proof.
  intros IH Hst Hord Hpre Hfuel Hs' Hn' Hsn' Hcs Hcn Hclear Hend Hcov.
  pose proof Hord as (H1 & H2 & Hk & Hf & H5)%ordered_pairs_inv.
  pose proof Hst as [_ Hpo]%po_state_lookup.
  destruct (wake_lock_state p pre i c (set_range s' n' c) suf b Hst Hpo) as (w & Hst' & Hfr).
  rewrite app_snoc in Hst'. eapply unlock_post_step; [apply IH|exact Hfr| |].
  - exact Hst'.
  - rewrite <- app_snoc, fmap_app, fmap_cons. rewrite fmap_app, fmap_cons in Hord.
    eapply ordered_replace; [exact Hord|by apply lock_ok_waiting, lock_ok_range|done|done].
  - rewrite fmap_app. apply Forall_app. split; [done|]. by constructor.
  - done.
  - intros f β Hβ. rewrite <- app_snoc, !fmap_app, !fmap_cons, !held_app, !held_cons. simpl.
    specialize (Hcov β Hβ). unfold covers in *. simpl. tauto.
  - destruct Hf as [->|[Hl Hf]]; right; [constructor|]. eapply starts_from_mono; [|done]. lia.
Qed.

(** The next conditional of [unlock_loop]. *)
Ltac unlock_case C :=
  match goal with
  | |- unlock_post _ _ _ _ _ _ _ (if ?b then _ else _) => destruct b eqn:C; bool_prop C
  end.

Lemma unlock_loop_spec p s n o : 0 ≤ s → 0 ≤ n → s + n < 2 ^ 63 → ∀ fuel pre suf b,
  po_state p (pre ++ suf) b → ordered (pre ++ suf).*2 → Forall (clear_of s n) pre.*2 →
  (length suf ≤ fuel)%nat →
  unlock_post p s n (pre ++ suf) suf b o (unlock_loop fuel p s n (fst <$> head suf) b o).
Proof.
  intros Hs Hn Hsn. induction fuel as [|fuel IH]; intros pre [|[i c] suf] b Hst Hord Hpre Hfuel;
    simpl in Hfuel; try lia; simpl.
  { rewrite app_nil_r in *. by apply unlock_post_done. }
  { rewrite app_nil_r in *. by apply unlock_post_done. }
  pose proof Hord as (H1 & H2 & Hk & Hf & H5)%ordered_pairs_inv.
  pose proof Hst as [Hi Hpo]%po_state_lookup. rewrite Hi. simpl.
  rewrite (po_state_next _ _ _ _ _ _ Hst). destruct Hk as [Hk1 Hk2 Hke Hk3]. loff.
  unlock_case C1.
  { rewrite app_snoc in *. eapply unlock_post_step; [apply IH| | |]; try done; [| lia |by left].
    rewrite fmap_app. apply Forall_app. split; [done|]. constructor; [|done]. left. simpl. lia. }
  unlock_case C2.
  { apply unlock_post_done; [done..|]. rewrite fmap_app. apply Forall_app. split; [done|].
    apply (followed_clear s n c); [lia..|done]. }
  unlock_case C3.
  { destruct (rele_lock_state p pre i c suf true b Hst) as (b' & -> & Hst' & Hfr).
    eapply unlock_post_step; [apply IH; [done|by eapply ordered_pairs_delete|done|lia]|done| |].
    - intros f β Hβ. solve_held.
    - right. eapply starts_from_mono; [|by apply followed_starts]. lia. }
  unlock_case C4.
  { do 2 pass_assert. loff. set (len' := if nonzero (len c) then _ else _).
    assert (Hl : (len c = 0 → len' = 0) ∧ (len c ≠ 0 → len' = len c - (s + n - start c))).
    { unfold len', nonzero. case_bool_decide; lia. }
    apply (unlock_shrink p s n fuel pre i c); try done; unfold clear_of; simpl; [lia..|].
    intros β. unfold covers, in_region. lia. }
  unlock_case C5.
  { pass_assert. loff. apply (unlock_shrink p s n fuel pre i c); try done; unfold clear_of; simpl; [lia..|].
    intros β. unfold covers, in_region. lia. }
  unlock_case C6.
  { pass_assert. loff. apply unlock_carve; [lia|lia|lia|done|done|lia|lia]. }
  exfalso. lia.
Qed.

(** ** Merging a request into the locks of a peropen *)

(** The classes of locks of interest: with the read locks come the write
    locks. *)
Definition upward (f : lock_type → bool) : Prop := f F_RDLCK = true → f F_WRLCK = true.

(** No open-ended lock starts beyond the end of the request. *)
Definition near_open (s n : Z) (cs : list rlock_list) : Prop :=
  n = 0 ∨ Forall (λ c, len c = 0 → start c ≤ s + n) cs.

(** What [merge_in] promises from lock list [L] on: the bytes held are those
    of [L] and of the request; when memory is short they are some of them. *)
Definition merge_post (p : nat) (s n : Z) (t : lock_type) (L : list (nat * rlock_list))
    (b : rlock_box) (o : allocs) (r : tweak_result) : Prop :=
  ∃ err L' b' o', r = Some (err, b', o') ∧ po_state p L' b' ∧ frame p b b' ∧ ordered L'.*2 ∧
    ((err = E0 ∧ ∀ f β, upward f →
        held f L'.*2 β ↔ held f L.*2 β ∨ (f t = true ∧ in_region s n β))
     ∨ (err = ENOMEM ∧ o ≠ [] ∧ ∀ f β, upward f →
          held f L'.*2 β → held f L.*2 β ∨ (f t = true ∧ in_region s n β))).

Lemma merge_post_step p s n s1 n1 t L L1 b b1 o o1 r :
  merge_post p s1 n1 t L1 b1 o1 r → frame p b b1 → (o = [] → o1 = []) →
  (∀ f β, upward f →
     held f L1.*2 β ∨ (f t = true ∧ in_region s1 n1 β)
     ↔ held f L.*2 β ∨ (f t = true ∧ in_region s n β)) →
  merge_post p s n t L b o r.
Proof.
  intros (err & L' & b' & o' & Hr & Hst & Hf & Hord & Hp) Hfr Ho Hh.
  exists err, L', b', o'. split; [done|]. split; [done|].
  split; [by eapply frame_trans|]. split; [done|].
  destruct Hp as [[-> Hp]|(-> & Ho1 & Hp)]; [left|right]; (split; [done|]).
  - intros f β Hu. rewrite Hp by done. by apply Hh.
  - split; [tauto|]. intros f β Hu Hb. apply Hh; [done|]. by apply Hp.
Qed.

(** The state at hand is the result. *)
Lemma merge_post_done p s n t L L1 b b1 o o1 :
  po_state p L1 b1 → frame p b b1 → ordered L1.*2 →
  (∀ f β, upward f → held f L1.*2 β ↔ held f L.*2 β ∨ (f t = true ∧ in_region s n β)) →
  merge_post p s n t L b o (Some (E0, b1, o1)).
Proof. intros. exists E0, L1, b1, o1. do 4 (split; [done|]). by left. Qed.

(** No memory, and some of the bytes at most were given up. *)
Lemma merge_post_fail p s n t L L1 b b1 o o1 :
  po_state p L1 b1 → frame p b b1 → ordered L1.*2 → o ≠ [] →
  (∀ f β, upward f → held f L1.*2 β → held f L.*2 β ∨ (f t = true ∧ in_region s n β)) →
  merge_post p s n t L b o (Some (ENOMEM, b1, o1)).
Proof. intros. exists ENOMEM, L1, b1, o1. do 4 (split; [done|]). by right. Qed.

(** The rest of the loop, once the locks up to [suf] are dealt with. *)
Definition continues (p : nat) (t : lock_type) (suf : list (nat * rlock_list))
    (k : Z → Z → option nat → rlock_box → allocs → tweak_result) : Prop :=
  ∀ s n pre b o, 0 ≤ s → 0 ≤ n → s + n < 2 ^ 63 → po_state p (pre ++ suf) b → ordered (pre ++ suf).*2 →
    ends_by s pre.*2 → near_open s n suf.*2 →
    merge_post p s n t (pre ++ suf) b o (k s n (fst <$> head suf) b o).

(** Facts on the bytes held before and after the lock at hand. *)
Ltac held_bounds H2 Hf :=
  let f := fresh "f" in let β := fresh "β" in let Hu := fresh "Hu" in
  intros f β Hu;
  pose proof (λ Hh, held_ends_by f _ _ β H2 Hh);
  pose proof (λ Hh, held_followed f _ _ β Hf Hh);
  unfold upward in Hu.

(** The next conditional of [merge_loop]. *)
Ltac merge_case C :=
  match goal with
  | |- merge_post _ _ _ _ _ _ _ (if ?b then _ else _) => destruct b eqn:C; bool_prop C
  | |- (if ?b then _ else _) = _ => destruct b eqn:C; bool_prop C
  end.

Section Merge.
Context (p : nat) (t : lock_type) (Ht : t = F_RDLCK ∨ t = F_WRLCK).

Lemma new_lock_ok s n t' : 0 ≤ s → 0 ≤ n → s + n < 2 ^ 63 → t' = F_RDLCK ∨ t' = F_WRLCK →
  lock_ok (mk_rlock s n t' false p).
Proof. by split. Qed.

(** A new lock in a gap. *)
Lemma gen_between pre suf s n t' b o :
  po_state p (pre ++ suf) b → ordered pre.*2 → ordered suf.*2 → ends_by s pre.*2 →
  0 ≤ s → 0 ≤ n → s + n < 2 ^ 63 → t' = F_RDLCK ∨ t' = F_WRLCK →
  followed_by (mk_rlock s n t' false p) suf.*2 →
  (∃ o', gen_lock p s n t' b o = (None, b, o') ∧ o ≠ [])
  ∨ ∃ i b' o', gen_lock p s n t' b o = (Some i, b', o') ∧ (o = [] → o' = [])
      ∧ po_state p (pre ++ (i, mk_rlock s n t' false p) :: suf) b' ∧ frame p b b'
      ∧ ordered (pre ++ (i, mk_rlock s n t' false p) :: suf).*2.
Proof.
  intros Hst Hpre Hsuf He Hs Hn Hsn Ht' Hf.
  destruct (gen_lock_state p pre suf s n t' b o Hst) as [?|(i & b' & o' & ? & ? & ? & ?)].
  - by apply ends_by_lt.
  - intros x Hx. destruct (followed_head _ _ _ Hf Hx) as [_ H]. simpl in H. lia.
  - by left.
  - right. exists i, b', o'. do 4 (split; [done|]).
    apply ordered_pairs; [done..|by apply new_lock_ok|done|done].
Qed.

Lemma merge_end_post pre suf s n b o :
  0 ≤ s → 0 ≤ n → s + n < 2 ^ 63 → po_state p (pre ++ suf) b → ordered (pre ++ suf).*2 →
  ordered pre.*2 → ordered suf.*2 → ends_by s pre.*2 →
  followed_by (mk_rlock s n t false p) suf.*2 →
  merge_post p s n t (pre ++ suf) b o (merge_end p s n t b o).
Proof.
  intros Hs Hn Hsn Hst Hord Hpre Hsuf He Hf. unfold merge_end.
  destruct (gen_between pre suf s n t b o) as [(o' & -> & Ho)|(i & b' & o' & -> & Ho & Hst' & Hfr & Hord')];
    [done..| |].
  - apply (merge_post_fail _ _ _ _ _ (pre ++ suf)); try done. tauto.
  - eapply merge_post_done; [done..|]. held_bounds He Hf. solve_held.
Qed.

(** Splitting the head off lock [c] at [s], when there is one. *)
Definition head_locks (c : rlock_list) (s : Z) (hd : option nat) : list (nat * rlock_list) :=
  match hd with
  | Some h => [(h, mk_rlock (start c) (s - start c) F_RDLCK false p)]
  | None => []
  end.

Lemma within_head pre i c suf s b o :
  po_state p (pre ++ (i, c) :: suf) b → ordered (pre ++ (i, c) :: suf).*2 → start c ≤ s →
  let r :=
    if bool_decide (start c < s) then
      let '(h, b1, o1) := gen_lock p (start c) (s - start c) F_RDLCK b o in
      (bool_decide (h ≠ None), h, b1, o1)
    else (true, None, b, o) in
  (∃ o', r = (false, None, b, o') ∧ o ≠ [])
  ∨ ∃ hd b1 o1, r = (true, hd, b1, o1) ∧ (o = [] → o1 = []) ∧ frame p b b1
      ∧ po_state p ((pre ++ head_locks c s hd) ++ (i, c) :: suf) b1
      ∧ (hd = None ∧ start c = s ∨ is_Some hd ∧ start c < s).
Proof.
  intros Hst (H1 & H2 & Hk & Hf & H5)%ordered_pairs_inv Hs. simpl. case_bool_decide as Hc.
  - destruct (gen_lock_state p pre ((i, c) :: suf) (start c) (s - start c) F_RDLCK b o Hst)
      as [(o' & -> & ?)|(h & b' & o' & -> & Ho & Hst' & Hfr)].
    + by apply ends_by_lt.
    + intros x [= <-]. done.
    + left. exists o'. by rewrite bool_decide_false by (intros []; done).
    + right. exists (Some h), b', o'. rewrite bool_decide_true by done.
      do 3 (split; [done|]). split; [by rewrite <- app_assoc|]. right. by split; [eexists|].
  - right. exists None, b, o. do 2 (split; [done|]). split; [apply frame_refl|].
    simpl. rewrite app_nil_r. split; [done|]. left. split; [done|lia].
Qed.

Lemma head_locks_ordered pre c s hd :
  ordered pre.*2 → ends_by (start c) pre.*2 → lock_ok c → s < 2 ^ 63 →
  hd = None ∧ start c = s ∨ is_Some hd ∧ start c < s →
  ordered (pre ++ head_locks c s hd).*2 ∧ ends_by s (pre ++ head_locks c s hd).*2.
Proof.
  intros Hpre He [??] Hs63 [[-> <-]|[[h ->] Hs]]; simpl; [by rewrite app_nil_r|].
  rewrite ends_by_snoc. simpl. split.
  - apply ordered_snoc; [done..|]. split; simpl; [lia..|by left].
  - split; [|lia]. eapply ends_by_mono; [|done]. lia.
Qed.

Lemma head_locks_held f c s hd β :
  hd = None ∧ start c = s ∨ is_Some hd ∧ start c < s →
  held f (head_locks c s hd).*2 β ↔ f F_RDLCK = true ∧ start c ≤ β < s.
Proof.
  intros [[-> <-]|[[h ->] Hs]]; simpl.
  - rewrite held_nil. lia.
  - rewrite held_cons, held_nil. unfold covers, in_region. simpl. lia.
Qed.

(** The lock at hand after its head was split off. *)
Lemma within_rest c s n (hd : option nat) :
  lock_ok c → start c ≤ s → len c = 0 ∨ n ≠ 0 ∧ s + n ≤ start c + len c → 0 ≤ n → s + n < 2 ^ 63 →
  hd = None ∧ start c = s ∨ is_Some hd ∧ start c < s →
  let c1 := match hd with
            | Some _ => set_range s (if nonzero (len c) then len c - (s - start c) else len c) c
            | None => c
            end in
  start c1 = s ∧ (len c = 0 → len c1 = 0) ∧ (len c ≠ 0 → len c1 ≠ 0 ∧ s + len c1 = start c + len c)
  ∧ 0 ≤ len c1 ∧ type c1 = type c ∧ po_id c1 = po_id c.
Proof.
  intros [??] Hs He Hn Hsn [[-> <-]|[[h ->] Hs']]; simpl.
  - do 4 (split; [lia|]). done.
  - unfold nonzero. case_bool_decide; do 4 (split; [lia|]); done.
Qed.

Lemma merge_within_tail pre i c c1 suf s n hd b b1 o o1 :
  po_state p (pre ++ (i, c) :: suf) b → ordered (pre ++ (i, c) :: suf).*2 →
  0 < n → s + n < 2 ^ 63 → start c ≤ s → len c = 0 ∨ s + n < start c + len c →
  start c1 = s → po_id c1 = po_id c →
  t = F_WRLCK → type c = F_RDLCK →
  hd = None ∧ start c = s ∨ is_Some hd ∧ start c < s →
  po_state p ((pre ++ head_locks c s hd) ++ (i, c) :: suf) b1 → frame p b b1 →
  (o = [] → o1 = []) →
  merge_post p s n t (pre ++ (i, c) :: suf) b o
    (let '(tl, b2, o2) :=
       gen_lock p (s + n) (if nonzero (len c) then start c + len c - (s + n) else 0) F_RDLCK b1 o1 in
     if bool_decide (tl = None) then
       Some (ENOMEM, match hd with Some h => (rele_lock p h false b2).2 | None => b2 end, o2)
     else
       Some (E0, set_cell i (set_type F_WRLCK (set_range (start c1) (s + n - start c1) c1)) b2, o2)).
Proof.
  intros Hst Hord Hn Hsn Hcs Hce Hs1 Hp1 -> Htc Hhd Hst1 Hfr1 Ho.
  pose proof Hord as (H1 & H2 & Hk & Hf & H5)%ordered_pairs_inv.
  pose proof Hst as [_ Hpo]%po_state_lookup.
  destruct (head_locks_ordered pre c s hd H1 H2 Hk ltac:(lia) Hhd) as [HP1 HP2].
  set (n' := if nonzero (len c) then _ else 0).
  assert (Hn' : (len c = 0 → n' = 0) ∧ (len c ≠ 0 → n' = start c + len c - (s + n))).
  { unfold n', nonzero. case_bool_decide; lia. }
  rewrite app_snoc in Hst1. destruct Hk as [Hk1 Hk2 Hke Hk3].
  destruct (gen_lock_state p _ suf (s + n) n' F_RDLCK b1 o1 Hst1)
    as [(o' & -> & ?)|(j & b' & o' & -> & Ho' & Hst' & Hfr')].
  - apply Forall_app. split; [|constructor; [simpl; lia|done]].
    apply ends_by_lt; [done|]. eapply ends_by_mono; [|done]. lia.
  - intros x Hx. destruct (followed_head _ _ _ Hf Hx). lia.
  - rewrite bool_decide_true by done.
    assert (∃ b2, match hd with Some h => (rele_lock p h false b1).2 | None => b1 end = b2
                  ∧ po_state p (pre ++ (i, c) :: suf) b2 ∧ frame p b b2) as (b2 & -> & ? & ?).
    { destruct hd as [h|]; simpl in Hst1; [|rewrite app_nil_r, <- app_snoc in Hst1; by eexists].
      rewrite <- app_snoc, <- app_assoc in Hst1. simpl in Hst1.
      destruct (rele_lock_state _ _ _ _ _ false _ Hst1) as (b2 & -> & ? & ?).
      eexists. split; [done|]. split; [done|]. by eapply frame_trans. }
    eapply merge_post_fail; [done..|tauto|]. tauto.
  - rewrite bool_decide_false by done. rewrite <- app_snoc in Hst'.
    destruct (set_cell_state _ _ _ _ (set_type F_WRLCK (set_range (start c1) (s + n - start c1) c1))
                _ _ Hst') as [Hst2 Hfr2]; [simpl; congruence|].
    eapply merge_post_done; [exact Hst2|by do 2 (eapply frame_trans; [done|])| |].
    + assert (Hfj : followed_by (mk_rlock (s + n) n' F_RDLCK false p) suf.*2).
      { eapply followed_by_sub; [done|]. simpl. lia. }
      apply ordered_pairs; [done|simpl; by rewrite Hs1|split; simpl; [lia..|by right]| |].
      * apply followed_cons; [simpl; lia..|done].
      * simpl. apply ordered_cons. split; [split; simpl; [lia..|by left]|done].
    + held_bounds H2 Hf. rewrite !fmap_app, !fmap_cons, !held_app, head_locks_held by done.
      solve_held.
Qed.

Lemma near_open_cons s n c cs :
  near_open s n (c :: cs) → near_open s n cs ∧ (n ≠ 0 → len c = 0 → start c ≤ s + n).
Proof.
  intros [->|[Hc Hcs]%Forall_cons]; [split; [by left|lia]|]. split; [by right|]. auto.
Qed.

Lemma near_open_eq s n s' n' cs :
  (n = 0 → n' = 0) → (n ≠ 0 → s' + n' = s + n) → near_open s n cs → near_open s' n' cs.
Proof.
  intros H1 H2 [->|H]; [left; auto|]. destruct (decide (n = 0)); [left; auto|].
  right. eapply Forall_impl; [exact H|]. intros c Hc Hl. rewrite H2 by done. auto.
Qed.

(** The request lies within the lock at hand. *)
Lemma merge_within_post pre i c suf s n b o k :
  0 ≤ s → 0 ≤ n → s + n < 2 ^ 63 → po_state p (pre ++ (i, c) :: suf) b → ordered (pre ++ (i, c) :: suf).*2 →
  near_open s n suf.*2 → continues p t suf k →
  start c ≤ s → len c = 0 ∨ n ≠ 0 ∧ s + n ≤ start c + len c →
  merge_post p s n t (pre ++ (i, c) :: suf) b o (merge_within p s n t i c b o k).
Proof.
  intros Hs Hn Hsn Hst Hord Hnear Hk Hcs Hce.
  pose proof Hord as (H1 & H2 & Hok & Hf & H5)%ordered_pairs_inv.
  pose proof Hst as [_ Hpo]%po_state_lookup.
  assert (Htc : type c = F_RDLCK ∨ type c = F_WRLCK) by apply Hok.
  pose proof Hok as [Hok1 Hok2 Hok3 Hok4]. unfold merge_within. loff. destruct (bool_decide (t = type c) || _) eqn:C1; bool_prop C1.
  { apply (merge_post_done _ _ _ _ _ (pre ++ (i, c) :: suf)); try done. held_bounds H2 Hf.
    destruct C1 as [->| ->], Htc as [Htc|Htc]; solve_held. }
  assert (t = F_WRLCK ∧ type c = F_RDLCK) as [Htw Htr] by intuition congruence.
  pass_assert.
  destruct (within_head pre i c suf s b o Hst Hord Hcs)
    as [(o' & -> & ?)|(hd & b1 & o1 & -> & Ho & Hfr & Hst1 & Hhd)]; simpl.
  { apply (merge_post_fail _ _ _ _ _ (pre ++ (i, c) :: suf)); try done. tauto. }
  destruct (within_rest c s n hd Hok Hcs Hce Hn Hsn Hhd) as (R1 & R2 & R3 & R4 & R5 & R6).
  set (c1 := match hd with Some _ => _ | None => c end) in *. loff.
  destruct (_ || bool_decide (s + n < _)) eqn:C2; bool_prop C2; simpl.
  { eapply merge_within_tail; try done; lia. }
  destruct (set_cell_state _ _ _ _ c1 _ _ Hst1) as [Hst2 Hfr2]; [congruence|].
  destruct (rele_lock_state _ _ _ _ _ true _ Hst2) as (b4 & -> & Hst4 & Hfr4).
  destruct (head_locks_ordered pre c s hd H1 H2 Hok ltac:(lia) Hhd) as [HP1 HP2].
  rewrite R1. eapply merge_post_step; [apply Hk|by do 2 (eapply frame_trans; [done|])|done|]; try done; try lia.
  - rewrite fmap_app. apply (ordered_app _ _ s); [done..|].
    destruct Hf as [->|[? Hf]]; [constructor|]. eapply starts_from_mono; [|done]. lia.
  - eapply near_open_eq; [| |done]; lia.
  - destruct Hok as [??]. held_bounds H2 Hf.
    rewrite !fmap_app, !fmap_cons, !held_app, head_locks_held by done. rewrite Htw. solve_held.
Qed.

(** Locking the gap between [s] and the lock at hand, when there is one. *)
Definition gap_locks (c : rlock_list) (s : Z) (hd : option nat) : list (nat * rlock_list) :=
  match hd with
  | Some h => [(h, mk_rlock s (start c - s) F_RDLCK false p)]
  | None => []
  end.

Lemma around_head pre i c suf s b o :
  0 ≤ s → po_state p (pre ++ (i, c) :: suf) b → ordered (pre ++ (i, c) :: suf).*2 →
  ends_by s pre.*2 → s ≤ start c →
  let r :=
    if bool_decide (s < start c) then
      let '(h, b1, o1) := gen_lock p s (start c - s) F_RDLCK b o in
      (bool_decide (h ≠ None), true, b1, o1)
    else (true, false, b, o) in
  (∃ o', r = (false, true, b, o') ∧ o ≠ [])
  ∨ ∃ hd b1 o1, r = (true, bool_decide (s < start c), b1, o1) ∧ (o = [] → o1 = []) ∧ frame p b b1
      ∧ po_state p ((pre ++ gap_locks c s hd) ++ (i, c) :: suf) b1
      ∧ ordered (pre ++ gap_locks c s hd).*2 ∧ ends_by (start c) (pre ++ gap_locks c s hd).*2
      ∧ (hd = None ∧ start c = s ∨ is_Some hd ∧ s < start c).
Proof.
  intros Hs Hst Hord He Hc. pose proof Hord as (H1 & H2 & Hk & Hf & H5)%ordered_pairs_inv.
  pose proof Hk as [Hk1 Hk2 Hk3 _]. simpl. case_bool_decide as Hsc.
  - destruct (gen_between pre ((i, c) :: suf) s (start c - s) F_RDLCK b o)
      as [(o' & -> & ?)|(h & b' & o' & -> & Ho & Hst' & Hfr & Hord')]; try done; [|lia|lia|by left| | |].
    + simpl. by apply ordered_cons.
    + apply followed_cons; [simpl; lia..|apply Hk|done].
    + left. exists o'. by rewrite bool_decide_false by (intros []; done).
    + right. exists (Some h), b', o'. rewrite bool_decide_true by done.
      do 3 (split; [done|]). split; [by rewrite <- app_assoc|]. simpl. rewrite ends_by_snoc.
      split; [|split; [simpl; split; [done|lia]|right; by split; [eexists|]]].
      apply ordered_snoc; [done..|]. split; simpl; [lia..|by left].
  - right. exists None, b, o. do 2 (split; [done|]). split; [apply frame_refl|].
    simpl. rewrite app_nil_r. do 3 (split; [done|]). left. split; [done|lia].
Qed.

Lemma gap_locks_held f c s hd β :
  hd = None ∧ start c = s ∨ is_Some hd ∧ s < start c →
  held f (gap_locks c s hd).*2 β ↔ f F_RDLCK = true ∧ s ≤ β < start c.
Proof.
  intros [[-> <-]|[[h ->] Hs]]; simpl.
  - rewrite held_nil. lia.
  - rewrite held_cons, held_nil. unfold covers, in_region. simpl. lia.
Qed.

(** The request wraps the lock at hand. *)
Lemma merge_around_post pre i c suf s n b o k :
  0 ≤ s → 0 ≤ n → s + n < 2 ^ 63 → po_state p (pre ++ (i, c) :: suf) b → ordered (pre ++ (i, c) :: suf).*2 →
  ends_by s pre.*2 → near_open s n suf.*2 → continues p t suf k →
  s ≤ start c → n = 0 ∨ len c ≠ 0 ∧ start c + len c ≤ s + n →
  ¬ (start c ≤ s ∧ (len c = 0 ∨ n ≠ 0 ∧ s + n ≤ start c + len c)) →
  merge_post p s n t (pre ++ (i, c) :: suf) b o (merge_around p s n t i c b o k).
Proof.
  intros Hs Hn Hsn Hst Hord He Hnear Hk Hcs Hce Hnot.
  pose proof Hord as (H1 & H2 & [K1 K2 KE Htc] & Hf & H5)%ordered_pairs_inv.
  unfold merge_around. loff. destruct (bool_decide (t = type c) || _) eqn:C1; bool_prop C1.
  { destruct (rele_lock_state _ _ _ _ _ true _ Hst) as (b' & -> & Hst' & Hfr).
    eapply merge_post_step; [apply Hk|done|done|]; try done; [by eapply ordered_pairs_delete|].
    held_bounds H2 Hf. destruct C1 as [->| ->], Htc as [Htc|Htc]; solve_held. }
  assert (t = F_RDLCK ∧ type c = F_WRLCK) as [Htr Htw] by intuition congruence.
  pass_assert.
  destruct (around_head pre i c suf s b o)
    as [(o' & -> & ?)|(hd & b1 & o1 & -> & Ho & Hfr & Hst1 & HP1 & HP2 & Hhd)]; try done; simpl.
  { apply (merge_post_fail _ _ _ _ _ (pre ++ (i, c) :: suf)); try done. tauto. }
  assert (Hord1 : ordered ((pre ++ gap_locks c s hd) ++ (i, c) :: suf).*2)
    by by apply ordered_pairs.
  destruct (nonzero (len c) && _) eqn:C2; bool_prop C2.
  - rewrite (po_state_next _ _ _ _ _ _ Hst1). rewrite app_snoc in Hst1, Hord1.
    set (n' := if nonzero n then _ else n).
    assert (Hn' : (n = 0 → n' = 0) ∧ (n ≠ 0 → n' = s + n - (start c + len c))).
    { unfold n', nonzero. case_bool_decide; lia. }
    eapply merge_post_step; [apply Hk|done|done|]; try done; try lia.
    + rewrite ends_by_snoc. split; [|lia]. eapply ends_by_mono; [|done]. lia.
    + eapply near_open_eq; [| |done]; lia.
    + held_bounds H2 Hf. rewrite !fmap_app, !fmap_cons, !held_app, gap_locks_held by done.
      rewrite Htr. solve_held.
  - rewrite bool_decide_true by lia. simpl. eapply merge_post_done; [done..|].
    held_bounds H2 Hf. rewrite !fmap_app, !fmap_cons, !held_app, gap_locks_held by done.
    rewrite Htr. solve_held.
Qed.

(** The request starts in or just after the lock at hand and ends beyond
    it. *)
Lemma merge_from_inside_post pre i c suf s n b o k :
  0 ≤ s → 0 ≤ n → s + n < 2 ^ 63 → po_state p (pre ++ (i, c) :: suf) b → ordered (pre ++ (i, c) :: suf).*2 →
  near_open s n suf.*2 → continues p t suf k →
  start c < s → s ≤ start c + len c → n = 0 ∨ start c + len c < s + n →
  merge_post p s n t (pre ++ (i, c) :: suf) b o (merge_from_inside p s n t i c b o k).
Proof.
  intros Hs Hn Hsn Hst Hord Hnear Hk Hcs Hce Hcn.
  pose proof Hord as (H1 & H2 & [K1 K2 KE Htc] & Hf & H5)%ordered_pairs_inv.
  pose proof Hst as [_ Hpo]%po_state_lookup.
  unfold merge_from_inside. loff. rewrite (po_state_next _ _ _ _ _ _ Hst). pass_assert.
  destruct (bool_decide (t = type c)) eqn:C1; bool_prop C1.
  { destruct (rele_lock_state _ _ _ _ _ true _ Hst) as (b' & -> & Hst' & Hfr).
    set (n' := if nonzero n then _ else n).
    assert (Hn' : (n = 0 → n' = 0) ∧ (n ≠ 0 → n' = n + (s - start c))).
    { unfold n', nonzero. case_bool_decide; lia. }
    eapply merge_post_step; [apply Hk|done|done|]; try done; [lia|lia|by eapply ordered_pairs_delete| |].
    - eapply near_open_eq; [| |done]; lia.
    - held_bounds H2 Hf. rewrite C1. solve_held. }
  destruct (bool_decide (s = _)) eqn:C2; bool_prop C2.
  { rewrite app_snoc in *. apply Hk; try done. rewrite ends_by_snoc. split; [|lia].
    eapply ends_by_mono; [|done]. lia. }
  destruct (bool_decide (t = F_WRLCK)) eqn:C3; bool_prop C3.
  - assert (Htr : type c = F_RDLCK) by intuition congruence. pass_assert.
    destruct (set_cell_state p pre i c
      (set_range (start c) (len c - (start c + len c - s)) c) suf b Hst Hpo) as [Hst1 Hfr].
    rewrite app_snoc in Hst1. eapply merge_post_step; [apply Hk|done|done|]; try done.
    + rewrite <- app_snoc, fmap_app, fmap_cons. rewrite fmap_app, fmap_cons in Hord.
      eapply ordered_replace; [done|split; simpl; [lia..|done]|simpl; lia|simpl; lia].
    + rewrite ends_by_snoc. simpl. split; [|lia]. eapply ends_by_mono; [|done]. lia.
    + held_bounds H2 Hf. rewrite C3. solve_held.
  - assert (t = F_RDLCK ∧ type c = F_WRLCK) as [Htr Htw] by intuition congruence. pass_assert.
    set (n' := if nonzero n then _ else n).
    assert (Hn' : (n = 0 → n' = 0) ∧ (n ≠ 0 → n' = n - (start c + len c - s))).
    { unfold n', nonzero. case_bool_decide; lia. }
    rewrite app_snoc in Hst, Hord.
    eapply merge_post_step; [apply Hk|apply frame_refl|done|]; try done; try lia.
    + rewrite ends_by_snoc. split; [|lia]. eapply ends_by_mono; [|done]. lia.
    + eapply near_open_eq; [| |done]; lia.
    + held_bounds H2 Hf. rewrite Htr. solve_held.
Qed.

(** The request ends before the locks left start, so the loop ends. *)
Definition stops (suf : list (nat * rlock_list))
    (k : Z → Z → option nat → rlock_box → allocs → tweak_result) : Prop :=
  ∀ s n pre b o, 0 ≤ s → 0 < n → s + n < 2 ^ 63 → po_state p (pre ++ suf) b →
    Forall (λ d, 0 < len d ∧ start d + len d < 2 ^ 63 ∧ s < start d ∧ s + n < start d) suf.*2 →
    k s n (fst <$> head suf) b o = merge_end p s n t b o.

Lemma far_closed s n e cs :
  n ≠ 0 → 0 ≤ n → near_open s n cs → s + n < e → starts_from e cs → ordered cs →
  Forall (λ d, 0 < len d ∧ start d + len d < 2 ^ 63 ∧ s < start d ∧ s + n < start d) cs.
Proof.
  intros Hn Hn' [?|Hnear] He Hs [_ Ho]; [done|]. apply Forall_forall. intros d Hd.
  eapply Forall_forall in Hnear; [|done]. eapply Forall_forall in Hs; [|done].
  eapply Forall_forall in Ho as [??]; [|done]. simpl in *. lia.
Qed.

(** A write request takes over the head of a read lock. *)
Lemma merge_into_head_write pre i c suf s n b o :
  0 ≤ s → 0 < n → s + n < 2 ^ 63 → po_state p (pre ++ (i, c) :: suf) b → ordered (pre ++ (i, c) :: suf).*2 →
  ends_by s pre.*2 → t = F_WRLCK → type c = F_RDLCK →
  s < start c → start c < s + n → len c = 0 ∨ s + n < start c + len c →
  merge_post p s n t (pre ++ (i, c) :: suf) b o
    match gen_lock p s n F_WRLCK b o with
    | (None, b', o') => Some (ENOMEM, b', o')
    | (Some _, b', o') =>
        let common := s + n - start c in
        Some (E0, set_cell i (set_range (start c + common)
                                (if nonzero (len c) then len c - common else len c) c) b', o')
    end.
Proof.
  intros Hs Hn Hsn Hst Hord He -> Htr Hcs Hce Hcn.
  pose proof Hord as (H1 & H2 & [K1 K2 KE Htc] & Hf & H5)%ordered_pairs_inv.
  pose proof Hst as [_ Hpo]%po_state_lookup. simpl.
  destruct (gen_lock_state p pre ((i, c) :: suf) s n F_WRLCK b o Hst)
    as [(o' & -> & ?)|(j & b' & o' & -> & Ho' & Hst' & Hfr')].
  - by apply ends_by_lt.
  - intros x [= <-]. simpl. lia.
  - apply (merge_post_fail _ _ _ _ _ (pre ++ (i, c) :: suf)); try done. tauto.
  - set (n' := if nonzero (len c) then _ else _).
    assert (Hn' : (len c = 0 → n' = 0) ∧ (len c ≠ 0 → n' = len c - (s + n - start c))).
    { unfold n', nonzero. case_bool_decide; lia. }
    rewrite app_snoc in Hst'.
    destruct (set_cell_state _ _ _ _ (set_range (start c + (s + n - start c)) n' c) _ _ Hst' Hpo)
      as [Hst2 Hfr2].
    eapply merge_post_done; [exact Hst2|by eapply frame_trans| |].
    + assert (Hfc : followed_by (set_range (start c + (s + n - start c)) n' c) suf.*2).
      { eapply followed_by_sub; [done|]. simpl. lia. }
      rewrite <- app_snoc. apply ordered_pairs; [done|done|split; simpl; [lia..|by right]| |].
      * apply followed_cons; [simpl; lia..|done].
      * simpl. apply ordered_cons. split; [split; simpl; [lia..|done]|done].
    + held_bounds H2 Hf. solve_held.
Qed.

(** The request starts before the lock at hand and ends in it or just before
    it. *)
Lemma merge_into_head_post pre i c suf s n b o k :
  0 ≤ s → 0 ≤ n → s + n < 2 ^ 63 → po_state p (pre ++ (i, c) :: suf) b → ordered (pre ++ (i, c) :: suf).*2 →
  ends_by s pre.*2 → near_open s n ((i, c) :: suf).*2 → stops suf k →
  s < start c → len c = 0 ∨ start c ≤ s + n → n ≠ 0 → len c = 0 ∨ s + n < start c + len c →
  merge_post p s n t (pre ++ (i, c) :: suf) b o (merge_into_head p s n t i c b o k).
Proof.
  intros Hs Hn Hsn Hst Hord He Hnear Hk Hcs Hce Hn0 Hcn.
  pose proof Hord as (H1 & H2 & [K1 K2 KE Htc] & Hf & H5)%ordered_pairs_inv.
  pose proof Hst as [_ Hpo]%po_state_lookup. apply near_open_cons in Hnear as [Hnear Hnc].
  simpl in Hnc. unfold merge_into_head. loff. do 2 pass_assert.
  destruct (bool_decide (t = type c)) eqn:C1; bool_prop C1.
  { set (n' := if nonzero (len c) then _ else len c).
    assert (Hn' : (len c = 0 → n' = 0) ∧ (len c ≠ 0 → n' = len c + (start c - s))).
    { unfold n', nonzero. case_bool_decide; lia. }
    destruct (set_cell_state p pre i c (set_range s n' c) suf b Hst Hpo) as [Hst1 Hfr].
    eapply merge_post_done; [done..| |].
    - apply ordered_pairs; [done|done|split; simpl; [lia..|done]| |done].
      eapply followed_by_sub; [done|]. simpl. lia.
    - held_bounds H2 Hf. rewrite C1. solve_held. }
  destruct (bool_decide (start c = _)) eqn:C2; bool_prop C2.
  { rewrite (po_state_next _ _ _ _ _ _ Hst). rewrite app_snoc in Hst.
    rewrite (Hk s n (pre ++ [(i, c)]) b o); [|done|lia|done|done|].
    - rewrite <- app_snoc in Hst. apply merge_end_post; try done.
      + simpl. by apply ordered_cons.
      + apply followed_cons; [simpl; lia..|done].
    - destruct Hf as [Hsuf|[Hl Hf]]; [rewrite Hsuf; constructor|].
      by apply (far_closed s n (start c + len c)); try lia. }
  destruct (bool_decide (t = F_WRLCK)) eqn:C3; bool_prop C3.
  - assert (Htr : type c = F_RDLCK) by intuition congruence. pass_assert.
    by apply merge_into_head_write; try done; lia.
  - assert (t = F_RDLCK ∧ type c = F_WRLCK) as [Htr Htw] by intuition congruence. pass_assert.
    destruct (gen_between pre ((i, c) :: suf) s (start c - s) F_RDLCK b o)
      as [(o' & -> & ?)|(h & b' & o' & -> & Ho & Hst' & Hfr & Hord')]; try done; [|lia|lia|by left| | |].
    + simpl. by apply ordered_cons.
    + apply followed_cons; [simpl; lia..|done].
    + apply (merge_post_fail _ _ _ _ _ (pre ++ (i, c) :: suf)); try done. tauto.
    + eapply merge_post_done; [done..|]. held_bounds H2 Hf. rewrite Htr. solve_held.
Qed.

(** The loop merges the request into the locks from [suf] on. *)
Lemma merge_loop_stops fuel suf : (length suf ≤ fuel)%nat →
  stops suf (λ s n next b o, merge_loop fuel p s n t next b o).
Proof.
  intros Hfuel s n pre b o Hs Hn Hsn Hst Hall. destruct suf as [|[i c] suf]; [by destruct fuel|].
  destruct fuel as [|fuel]; simpl in *; [lia|]. apply Forall_cons in Hall as [Hc _].
  pose proof Hst as [Hi _]%po_state_lookup. rewrite Hi. simpl in *. unfold nonzero. loff.
  merge_case C1; [lia|]. merge_case C2; [lia|]. merge_case C3; [lia|]. merge_case C4; [lia|].
  merge_case C5; [done|lia].
Qed.

Lemma merge_loop_spec fuel : ∀ suf, (length suf ≤ fuel)%nat →
  continues p t suf (λ s n next b o, merge_loop fuel p s n t next b o).
Proof.
  induction fuel as [|fuel IH]; intros [|[i c] suf] Hfuel s n pre b o Hs Hn Hsn Hst Hord He Hnear;
    simpl in Hfuel; try lia; simpl.
  1,2: apply merge_end_post; try done; [by rewrite app_nil_r in Hord|apply ordered_nil|by left].
  pose proof Hord as (H1 & H2 & Hok & Hf & H5)%ordered_pairs_inv.
  pose proof Hok as [K1 K2 KE _].
  pose proof Hst as [Hi Hpo]%po_state_lookup. rewrite Hi. simpl. loff.
  assert (Hk : continues p t suf (λ s n next b o, merge_loop fuel p s n t next b o))
    by (apply IH; lia).
  pose proof (near_open_cons _ _ _ _ Hnear) as [Hnear' Hnc].
  merge_case C1; [apply merge_within_post; try done; lia|].
  merge_case C2; [apply merge_around_post; try done; lia|].
  merge_case C3; [apply merge_from_inside_post; try done; lia|].
  merge_case C4.
  { apply merge_into_head_post; try done; try lia. apply merge_loop_stops. lia. }
  merge_case C5.
  { apply merge_end_post; try done; simpl; [by apply ordered_cons|].
    apply followed_cons; [simpl; lia..|done]. }
  do 2 pass_assert. rewrite (po_state_next _ _ _ _ _ _ Hst). rewrite app_snoc in *.
  apply Hk; try done. rewrite ends_by_snoc. split; [done|lia].
Qed.

Lemma merge_in_spec L s n b o :
  0 ≤ s → 0 ≤ n → s + n < 2 ^ 63 → po_state p L b → ordered L.*2 → near_open s n L.*2 →
  merge_post p s n t L b o (merge_in p s n t b o).
Proof.
  intros Hs Hn Hsn Hst Hord Hnear. unfold merge_in. pose proof (own_ids _ _ _ (proj1 Hst)) as ->.
  rewrite length_fmap. replace (head L.*1) with (fst <$> head L) by by destruct L.
  apply (merge_loop_spec _ L (le_n _) s n []); try done. constructor.
Qed.
End Merge.

(** ** The box as a whole *)

Definition box_wf (b : rlock_box) : Prop :=
  node_wf b ∧ ∀ p, ∃ L, owns p L b ∧ ordered L.*2.

(** Peropen [p] holds a lock of class [f] on byte [β]. *)
Definition holds (b : rlock_box) (p : nat) (f : lock_type → bool) (β : Z) : Prop :=
  ∃ i c, cells b !! i = Some c ∧ po_id c = p ∧ f (type c) = true ∧ covers c β.

(** Nobody holds a byte that somebody else has locked for writing. *)
Definition exclusive (b : rlock_box) : Prop :=
  ∀ p q β, p ≠ q → holds b p write_lock β → ¬ holds b q any_lock β.

(** Another peropen's lock stands in the way of the request. *)
Definition conflict (b : rlock_box) (p : nat) (s n : Z) (t : lock_type) : Prop :=
  ∃ q β, q ≠ p ∧ in_region s n β
         ∧ (holds b q write_lock β ∨ t = F_WRLCK ∧ holds b q any_lock β).

(** No open-ended lock of [p] starts beyond the end of the request. *)
Definition near_open_box (b : rlock_box) (p : nat) (s n : Z) : Prop :=
  ∀ i c, cells b !! i = Some c → po_id c = p → n ≠ 0 → len c = 0 → start c ≤ s + n.

Lemma owns_holds p L b f β : owns p L b → holds b p f β ↔ held f L.*2 β.
Proof.
  intros H. unfold holds, held. split.
  - intros (i & c & Hi & Hp & Hf). exists c. split; [|done].
    apply list_elem_of_fmap. exists (i, c). split; [done|]. by apply (own_cells _ _ _ H).
  - intros (c & ([i d] & -> & Hd)%list_elem_of_fmap & Hf). simpl in *.
    apply (own_cells _ _ _ H) in Hd as [??]. by exists i, d.
Qed.

Lemma owns_elem p L b i c : owns p L b → cells b !! i = Some c → i ∈ L.*1 ↔ po_id c = p.
Proof.
  intros HL Hi. rewrite list_elem_of_fmap. split.
  - intros ([j d] & -> & Hj). apply (own_cells _ _ _ HL) in Hj as [??]. simpl in *. congruence.
  - intros Hp. exists (i, c). split; [done|]. by apply (own_cells _ _ _ HL).
Qed.

Lemma frame_holds p q b b' f β : q ≠ p → frame p b b' → holds b' q f β ↔ holds b q f β.
Proof.
  intros Hq [_ Hf]. unfold holds.
  split; intros (i & c & Hi & Hp & H); exists i, c; (split; [|done]); apply Hf; congruence.
Qed.

Lemma near_open_owns p L b s n :
  owns p L b → near_open_box b p s n → near_open s n L.*2.
Proof.
  intros H Hn. destruct (decide (n = 0)) as [->|Hn0]; [by left|]. right.
  apply Forall_forall. intros c ([i d] & -> & Hd)%list_elem_of_fmap Hl.
  apply (own_cells _ _ _ H) in Hd as [??]. by eapply Hn.
Qed.

(** A step on [p]'s locks restores the invariant of the box. *)
Lemma po_state_box_wf p L b b' :
  box_wf b → po_state p L b' → frame p b b' → ordered L.*2 → box_wf b'.
Proof.
  intros [_ Hb] [Ho Hn] Hf Hord. split; [done|]. intros q.
  destruct (decide (q = p)) as [->|Hq]; [by exists L|].
  destruct (Hb q) as (M & HM & ?). exists M. split; [|done]. by eapply frame_owns.
Qed.

Lemma box_wf_lock_ok b i c : box_wf b → cells b !! i = Some c → lock_ok c.
Proof.
  intros [_ Hb] Hi. destruct (Hb (po_id c)) as (L & HL & [_ Hok]).
  eapply Forall_forall; [exact Hok|]. apply list_elem_of_fmap. exists (i, c).
  split; [done|]. by apply (own_cells _ _ _ HL).
Qed.

Lemma init_box_wf : box_wf fshelp_rlock_init.
Proof.
  split.
  - split; simpl; [constructor|..]; intros i; rewrite ?lookup_empty, ?is_Some_alt.
    + split; [by intros []%elem_of_nil|done].
    + by intros [].
  - intros p. exists []. split; [|apply ordered_nil]. split; [done| |constructor].
    intros i c. simpl. rewrite lookup_empty. split; [by intros []%elem_of_nil|by intros []].
Qed.

Lemma find_conflict_in_spec p s n t m l :
  0 ≤ s → 0 ≤ n → s + n < 2 ^ 63 → (∀ i, i ∈ l → ∃ c, m !! i = Some c ∧ lock_ok c) →
  ∃ r, find_conflict_in p s n t m l = Some r ∧
    match r with
    | None => ∀ i c β, i ∈ l → m !! i = Some c → po_id c ≠ p → in_region s n β → covers c β →
                type c ≠ F_WRLCK ∧ t ≠ F_WRLCK
    | Some (i, c) => i ∈ l ∧ m !! i = Some c ∧ po_id c ≠ p ∧ overlap s n c = true
                     ∧ (type c = F_WRLCK ∨ t = F_WRLCK)
    end.
Proof.
  intros Hs Hn Hsn. induction l as [|i l IH]; intros Hl; simpl.
  { exists None. split; [done|]. by intros ??? ?%elem_of_nil. }
  destruct (Hl i) as (c & Hc & Hok); [set_solver|]. rewrite Hc. simpl.
  destruct IH as (r & Hr & IH); [set_solver|].
  assert (Hskip : (∀ β, po_id c ≠ p → in_region s n β → covers c β →
                     type c ≠ F_WRLCK ∧ t ≠ F_WRLCK) →
    match r with
    | None => ∀ j d β, j ∈ i :: l → m !! j = Some d → po_id d ≠ p → in_region s n β →
                covers d β → type d ≠ F_WRLCK ∧ t ≠ F_WRLCK
    | Some (j, d) => j ∈ i :: l ∧ m !! j = Some d ∧ po_id d ≠ p ∧ overlap s n d = true
                     ∧ (type d = F_WRLCK ∨ t = F_WRLCK)
    end).
  { intros Hi. destruct r as [[j d]|]; [by rewrite elem_of_cons; tauto|].
    intros j d β [->|Hj]%elem_of_cons Hd; [|by eapply IH].
    assert (d = c) as -> by congruence. by apply Hi. }
  case_bool_decide; [exists r; split; [done|apply Hskip; done]|].
  destruct (_ && overlap s n c) eqn:C.
  - apply andb_true_iff in C as [C1 C2]. bool_prop C1. exists (Some (i, c)).
    rewrite elem_of_cons. auto 6.
  - exists r. split; [done|]. apply Hskip. intros β _ Hβ Hcβ.
    assert (Ho : overlap s n c = true) by (apply overlap_spec; [done..|by exists β]).
    rewrite Ho, andb_true_r in C. by bool_prop C.
Qed.

Lemma find_conflict_spec p s n t b :
  box_wf b → 0 ≤ s → 0 ≤ n → s + n < 2 ^ 63 →
  ∃ r, find_conflict p s n t b = Some r ∧
    match r with
    | None => ¬ conflict b p s n t
    | Some (i, c) =>
        cells b !! i = Some c ∧ po_id c ≠ p ∧ (type c = F_WRLCK ∨ t = F_WRLCK)
        ∧ ∃ β, in_region s n β ∧ covers c β
    end.
Proof.
  intros Hwf Hs Hn Hsn.
  destruct (find_conflict_in_spec p s n t (cells b) (node_locks b)) as (r & Hr & H); [done..| |].
  { intros i [c Hc]%(node_elem _ (proj1 Hwf)). exists c. split; [done|]. by eapply box_wf_lock_ok. }
  exists r. split; [done|]. destruct r as [[i c]|].
  - destruct H as (_ & Hi & Hp & Ho & Ht). do 3 (split; [done|]).
    apply overlap_spec in Ho; [done..|]. by eapply box_wf_lock_ok.
  - intros (q & β & Hq & Hβ & Hc).
    assert (∃ i c, cells b !! i = Some c ∧ po_id c = q ∧ covers c β ∧ (type c = F_WRLCK ∨ t = F_WRLCK))
      as (i & c & Hi & Hp & Hcov & Ht).
    { destruct Hc as [(i & c & ? & ? & Hw & ?)|[-> (i & c & ? & ? & _ & ?)]]; exists i, c; [|auto].
      apply bool_decide_eq_true in Hw. auto. }
    destruct (H i c β) as [??]; try done; [|congruence|tauto].
    apply (node_elem _ (proj1 Hwf)). eauto.
Qed.

Lemma conflict_found p s n t b i c β :
  cells b !! i = Some c → po_id c ≠ p → type c = F_WRLCK ∨ t = F_WRLCK →
  in_region s n β → covers c β → conflict b p s n t.
Proof.
  intros Hi Hp Ht Hβ Hc. exists (po_id c), β. do 2 (split; [done|]).
  destruct Ht as [Ht|Ht]; [left|right; split; [done|]]; exists i, c; do 2 (split; [done|]).
  - unfold write_lock. by rewrite bool_decide_true.
  - done.
Qed.

(** [unlock_region] and [merge_in] on a well-formed box. *)
Lemma unlock_region_spec p s n b o :
  box_wf b → 0 ≤ s → 0 ≤ n → s + n < 2 ^ 63 →
  ∃ err b' o', unlock_region p s n b o = Some (err, b', o') ∧ box_wf b' ∧ frame p b b' ∧
    ((err = E0 ∧ ∀ f β, holds b' p f β ↔ holds b p f β ∧ ¬ in_region s n β)
     ∨ (err = ENOMEM ∧ b' = b ∧ o ≠ [])).
Proof.
  intros Hwf Hs Hn Hsn. pose proof Hwf as [Hnode Hpo]. destruct (Hpo p) as (L & HL & Hord).
  pose proof (unlock_loop_spec p s n o Hs Hn Hsn (length L) [] L b (conj HL Hnode) Hord
                (Forall_nil_2 _) (le_n _)) as (err & L' & b' & o' & Hr & Hst & Hf & Hord' & Hp).
  exists err, b', o'. split.
  { rewrite <- Hr. unfold unlock_region. rewrite (own_ids _ _ _ HL), length_fmap.
    by destruct L. }
  split; [by eapply po_state_box_wf|]. split; [done|].
  destruct Hp as [[-> Hp]|(-> & -> & Ho & _)]; [left|by right]. split; [done|].
  intros f β. rewrite (owns_holds p L' b'), (owns_holds p L b); [done..|]. apply Hst.
Qed.

Lemma merge_in_box p s n t b o :
  box_wf b → 0 ≤ s → 0 ≤ n → s + n < 2 ^ 63 → t = F_RDLCK ∨ t = F_WRLCK → near_open_box b p s n →
  ∃ err b' o', merge_in p s n t b o = Some (err, b', o') ∧ box_wf b' ∧ frame p b b' ∧
    ((err = E0 ∧ ∀ f β, upward f →
        holds b' p f β ↔ holds b p f β ∨ (f t = true ∧ in_region s n β))
     ∨ (err = ENOMEM ∧ o ≠ [] ∧ ∀ f β, upward f →
          holds b' p f β → holds b p f β ∨ (f t = true ∧ in_region s n β))).
Proof.
  intros Hwf Hs Hn Hsn Ht Hnear. pose proof Hwf as [Hnode Hpo]. destruct (Hpo p) as (L & HL & Hord).
  destruct (merge_in_spec p t Ht L s n b o) as (err & L' & b' & o' & Hr & Hst & Hf & Hord' & Hp);
    [done..|by eapply near_open_owns|].
  exists err, b', o'. split; [done|]. split; [by eapply po_state_box_wf|]. split; [done|].
  destruct Hp as [[-> Hp]|(-> & Ho & Hp)]; [left|right]; (split; [done|]); [|split; [done|]];
    intros f β Hu; rewrite (owns_holds p L' b'), (owns_holds p L b); try done; try apply Hst;
    by apply Hp.
Qed.

Lemma upward_any : upward any_lock.
Proof. done. Qed.
Lemma upward_write : upward write_lock.
Proof. done. Qed.

(** Without a conflict, taking the bytes of the request keeps the locks
    exclusive. *)
Lemma exclusive_merge p s n t b b' :
  exclusive b → frame p b b' → ¬ conflict b p s n t →
  (∀ f β, upward f → holds b' p f β → holds b p f β ∨ (f t = true ∧ in_region s n β)) →
  exclusive b'.
Proof.
  intros Hex Hf Hc Hh q r β Hqr Hq Hr.
  destruct (decide (q = p)) as [->|Hqp].
  - rewrite (frame_holds p r) in Hr by done.
    destruct (Hh _ _ upward_write Hq) as [?|[Ht Hβ]]; [by apply (Hex p r β)|].
    apply Hc. exists r, β. do 2 (split; [done|]). right. split; [|done].
    by apply bool_decide_eq_true in Ht.
  - rewrite (frame_holds p q) in Hq by done. destruct (decide (r = p)) as [->|Hrp].
    + destruct (Hh _ _ upward_any Hr) as [?|[_ Hβ]]; [by apply (Hex q p β)|].
      apply Hc. exists q, β. auto.
    + rewrite (frame_holds p r) in Hr by done. by apply (Hex q r β).
Qed.

Lemma exclusive_unlock p b b' :
  exclusive b → frame p b b' → (∀ f β, holds b' p f β → holds b p f β) → exclusive b'.
Proof.
  intros Hex Hf Hh.
  assert (Hall : ∀ q f β, holds b' q f β → holds b q f β).
  { intros q f β. destruct (decide (q = p)) as [->|]; [apply Hh|]. by rewrite (frame_holds p). }
  intros q r β Hqr Hq%Hall Hr%Hall. by apply (Hex q r β).
Qed.

(** Noting a waiter on a lock changes no region. *)
Lemma set_waiting_spec w b i c :
  box_wf b → cells b !! i = Some c →
  let b' := set_cell i (set_waiting w c) b in
  box_wf b' ∧ ∀ q f β, holds b' q f β ↔ holds b q f β.
Proof.
  intros Hwf Hi b'. destruct (proj2 Hwf (po_id c)) as (L & HL & Hord).
  assert (Hin : (i, c) ∈ L) by by apply (own_cells _ _ _ HL).
  apply list_elem_of_split in Hin as (pre & suf & ->).
  destruct (set_cell_state (po_id c) pre i c (set_waiting w c) suf b) as [Hst Hfr];
    [split; [done|apply Hwf]|done|]. fold b' in Hst, Hfr.
  assert (Hord' : ordered (pre ++ (i, set_waiting w c) :: suf).*2).
  { rewrite fmap_app, fmap_cons in *. eapply ordered_replace; [exact Hord| |done|done].
    apply lock_ok_waiting. by eapply box_wf_lock_ok. }
  split; [by eapply po_state_box_wf|]. intros q f β.
  destruct (decide (q = po_id c)) as [->|Hq]; [|by apply (frame_holds (po_id c))].
  rewrite (owns_holds _ _ b' _ _ (proj1 Hst)), (owns_holds _ _ b _ _ HL).
  rewrite !fmap_app, !fmap_cons, !held_app, !held_cons. done.
Qed.

Lemma exclusive_same b b' :
  (∀ q f β, holds b' q f β ↔ holds b q f β) → exclusive b → exclusive b'.
Proof. intros H Hex p q β Hpq. rewrite !H. by apply Hex. Qed.

(** Dropping the locks of a peropen. *)
Lemma drop_locks_spec l b :
  NoDup l → (∀ i, i ∈ l → is_Some (cells b !! i)) →
  ∃ b', drop_locks l b = Some b' ∧ po_locks b' = po_locks b ∧ next_loc b' = next_loc b
    ∧ (∀ i c, cells b' !! i = Some c ↔ cells b !! i = Some c ∧ i ∉ l)
    ∧ node_locks b' = filter (λ i, i ∉ l) (node_locks b).
Proof.
  revert b. induction l as [|i l IH]; intros b Hnd Hl; simpl.
  { exists b. do 3 (split; [done|]). split.
    - intros i c. split; [|tauto]. intros Hi. split; [done|]. by intros ?%elem_of_nil.
    - symmetry. apply list_unlink_all. intros i _. by intros ?%elem_of_nil. }
  apply NoDup_cons in Hnd as [Hi Hnd]. destruct (Hl i) as [c Hc]; [set_solver|].
  rewrite Hc. simpl. set (b1 := mk_box _ _ _ _ _).
  destruct (IH b1 Hnd) as (b' & Hb' & Hpo & Hnx & Hcells & Hnode).
  { intros j Hj. simpl. rewrite lookup_delete_ne by set_solver. apply Hl. set_solver. }
  exists b'. split; [exact Hb'|]. do 2 (split; [done|]). split.
  - intros j d. rewrite Hcells. simpl. rewrite lookup_delete_Some, not_elem_of_cons. intuition congruence.
  - rewrite Hnode. simpl. unfold list_unlink. rewrite list_filter_filter. apply list_filter_iff.
    intros j. rewrite not_elem_of_cons. tauto.
Qed.

Lemma drop_peropen_spec p b :
  box_wf b →
  ∃ b', fshelp_rlock_drop_peropen p b = Some b' ∧ box_wf (fshelp_rlock_po_fini p b')
    ∧ ∀ q f β, holds (fshelp_rlock_po_fini p b') q f β ↔ q ≠ p ∧ holds b q f β.
Proof.
  intros [[N1 N2 N3] Hpo]. destruct (Hpo p) as (L & HL & Hord).
  pose proof (own_ids _ _ _ HL) as Hids. pose proof (own_nodup _ _ _ HL) as Hnd.
  destruct (drop_locks_spec L.*1 b) as (b' & Hb' & Hpos & Hnx & Hcells & Hnode); [done| |].
  { intros i ([j c] & -> & Hj)%list_elem_of_fmap. apply (own_cells _ _ _ HL) in Hj as [??].
    by eexists. }
  assert (Hc : ∀ i c, cells b' !! i = Some c ↔ cells b !! i = Some c ∧ po_id c ≠ p).
  { intros i c. rewrite Hcells. split; intros [Hi H]; (split; [done|]);
      by rewrite (owns_elem p L b i c HL Hi) in *. }
  exists b'. split; [unfold fshelp_rlock_drop_peropen; by rewrite Hids|].
  split; [split; [split|]|]; simpl.
  - rewrite Hnode. by apply NoDup_filter.
  - intros i. rewrite Hnode, list_elem_of_filter, N2. split.
    + intros [Hi [c Hi']]. exists c. by apply Hcells.
    + intros [c [Hi Hn]%Hcells]. split; [done|]. by eexists.
  - intros i [c [Hi _]%Hc]. rewrite Hnx. apply N3. by eexists.
  - intros q. destruct (decide (q = p)) as [->|Hq].
    + exists []. split; [|apply ordered_nil]. split; [|..|constructor].
      * unfold po_list. simpl. by rewrite lookup_delete_eq.
      * intros i c. simpl. rewrite Hc. split; [by intros ?%elem_of_nil|tauto].
    + destruct (Hpo q) as (M & [M1 M2 M3] & HM). exists M. split; [|done]. split; [|..|done].
      * unfold po_list in *. simpl. by rewrite lookup_delete_ne, Hpos by done.
      * intros i c. simpl. rewrite Hc, M2. intuition congruence.
  - intros q f β. unfold holds. simpl. setoid_rewrite Hc. split.
    + intros (i & c & [? ?] & <- & ?). split; [done|]. by exists i, c.
    + intros (? & i & c & ? & <- & ?). by exists i, c.
Qed.

(** The offset that [l_start] counts from, and that the region of a request does not
    reach beyond what [loff_t] can hold. *)
Definition base (obj_size cur_pointer : Z) (lock : flock64) : Z :=
  match l_whence lock with SEEK_CUR => cur_pointer | SEEK_END => obj_size | _ => 0 end.

Definition in_range (obj_size cur_pointer : Z) (lock : flock64) : Prop :=
  - 2 ^ 63 ≤ base obj_size cur_pointer lock + l_start lock
  ∧ base obj_size cur_pointer lock + l_start lock + Z.max 0 (l_len lock) < 2 ^ 63.

Lemma region_start_ok size cur lock :
  in_range size cur lock →
  region_start size cur lock
  = if decide (l_whence lock = SEEK_BAD) then None else Some (base size cur lock + l_start lock).
Proof.
  intros [H1 H2]. unfold region_start, base in *.
  destruct (l_whence lock); simpl in *; rewrite ?s64_id by lia; done.
Qed.

(** A request that passes the checks of [fshelp_rlock_tweak], for the region from byte
    [s] on. *)
Record valid_request (open_write : bool) (obj_size cur_pointer : Z) (cmd : lock_cmd)
    (lock : flock64) (s : Z) : Prop := {
  vr_cmd : cmd ≠ F_BADCMD;
  vr_type : l_type lock = F_RDLCK ∨ l_type lock = F_WRLCK;
  vr_mode : l_type lock = F_WRLCK → cmd = F_GETLK64 ∨ open_write = true;
  vr_whence : l_whence lock ≠ SEEK_BAD;
  vr_start : s = base obj_size cur_pointer lock + l_start lock;
  vr_range : in_range obj_size cur_pointer lock;
  vr_start_nonneg : 0 ≤ s;
  vr_len_nonneg : 0 ≤ l_len lock
}.

Lemma valid_end w size cur cmd lock s : valid_request w size cur cmd lock s → s + l_len lock < 2 ^ 63.
Proof. intros [_ _ _ _ -> [_ H] _ Hl]. lia. Qed.

Lemma tweak_valid p w size cur cmd lock s b o :
  valid_request w size cur cmd lock s →
  fshelp_rlock_tweak p w size cur cmd lock true b o
  = tweak_retry p cmd lock s (l_len lock) b o.
Proof.
  intros [Hcmd Ht Hm Hw Hs Hr Hs0 Hl]. unfold fshelp_rlock_tweak. simpl.
  rewrite (bool_decide_false (cmd = _)) by done.
  rewrite (bool_decide_false (l_type lock = F_BADTYPE)) by (destruct Ht; congruence).
  rewrite !(bool_decide_false (l_type lock = F_UNLCK)) by (destruct Ht; congruence). simpl.
  rewrite region_start_ok, decide_False, <- Hs by done. rewrite !andb_false_r, (bool_decide_false (s < 0)), (bool_decide_false (l_len lock < 0)) by lia.
  destruct (_ && negb w) eqn:C; [|done].
  apply andb_true_iff in C as [C Cw]. apply negb_true_iff in Cw. bool_prop C.
  exfalso. destruct C as [C Cwr]. destruct (Hm Cwr) as [->|?]; [|congruence].
  by destruct C.
Qed.

Lemma tweak_unlock p w size cur cmd lock s b o :
  cmd = F_SETLK64 ∨ cmd = F_SETLKW64 → l_type lock = F_UNLCK → l_whence lock ≠ SEEK_BAD →
  s = base size cur lock + l_start lock → in_range size cur lock → 0 ≤ s → 0 ≤ l_len lock →
  fshelp_rlock_tweak p w size cur cmd lock true b o
  = '(err, b', o') ← unlock_region p s (l_len lock) b o; Some (Returned err lock, b', o').
Proof.
  intros Hcmd Ht Hw Hs Hr Hs0 Hl. unfold fshelp_rlock_tweak.
  rewrite Ht, region_start_ok, decide_False, <- Hs by done. simpl.
  rewrite (bool_decide_false (s < 0)), (bool_decide_false (l_len lock < 0)) by lia.
  by destruct Hcmd as [->| ->].
Qed.

Lemma near_open_closed b p s n :
  (∀ i c, cells b !! i = Some c → len c ≠ 0) → near_open_box b p s n.
Proof. intros H i c Hi _ _ Hl. by apply H in Hi. Qed.

(** ** Properties *)

(** C9. F_SETLK for a read or write lock on a well-formed box returns: EAGAIN
    with nothing changed exactly when a lock of another open file conflicts;
    otherwise success, and the caller holds what it held and the bytes of the
    request (for reading, or for reading and writing), or ENOMEM, and it holds
    nothing beyond that.  Other open files keep exactly their locks and the
    lists stay sorted and disjoint.  The start and the end of the region fit in
    [loff_t], and no open-ended lock of the caller starts beyond the end of the
    request. *)
Theorem rlock_setlk_correct p w size cur lock s b o :
  box_wf b → valid_request w size cur F_SETLK64 lock s → near_open_box b p s (l_len lock) →
  ∃ err b' o',
    fshelp_rlock_tweak p w size cur F_SETLK64 lock true b o = Some (Returned err lock, b', o')
    ∧ box_wf b' ∧ (∀ q f β, q ≠ p → holds b' q f β ↔ holds b q f β)
    ∧ ((err = EAGAIN ∧ conflict b p s (l_len lock) (l_type lock) ∧ b' = b)
       ∨ (err = E0 ∧ ¬ conflict b p s (l_len lock) (l_type lock) ∧ ∀ f β, upward f →
            holds b' p f β
            ↔ holds b p f β ∨ (f (l_type lock) = true ∧ in_region s (l_len lock) β))
       ∨ (err = ENOMEM ∧ ¬ conflict b p s (l_len lock) (l_type lock) ∧ o ≠ [] ∧
            ∀ f β, upward f → holds b' p f β →
              holds b p f β ∨ (f (l_type lock) = true ∧ in_region s (l_len lock) β))).
Proof.
  intros Hwf Hv Hnear. rewrite (tweak_valid p w size cur F_SETLK64 lock s) by done.
  pose proof (valid_end _ _ _ _ _ _ Hv) as Hsn.
  destruct Hv as [_ Ht _ _ _ _ Hs Hl]. unfold tweak_retry.
  destruct (find_conflict_spec p s (l_len lock) (l_type lock) b) as (r & -> & Hr); [done..|].
  simpl. destruct r as [[i c]|].
  - exists EAGAIN, b, o. do 3 (split; [done|]). left. split; [done|]. split; [|done].
    destruct Hr as (Hi & Hp & Htt & β & Hβ & Hc). by eapply conflict_found.
  - destruct (merge_in_box p s (l_len lock) (l_type lock) b o)
      as (err & b' & o' & -> & Hwf' & Hf & Hp); [done..|].
    exists err, b', o'. split; [done|]. split; [done|].
    split; [intros q f β Hq; by apply (frame_holds p)|]. right.
    destruct Hp as [[-> Hp]|(-> & Ho & Hp)]; [left|right]; auto.
Qed.

(** One read lock of peropen 0 on the bytes 0 to 9. *)
Definition read_box : rlock_box :=
  mk_box {[ 0%nat := mk_rlock 0 10 F_RDLCK false 0%nat ]} [0%nat] {[ 0%nat := [0%nat] ]} 1 [].

Lemma read_box_wf : box_wf read_box.
Proof.
  destruct (merge_in_box 0 0 10 F_RDLCK fshelp_rlock_init []) as (err & b & o & H & Hwf & _);
    [apply init_box_wf|lia|lia|lia|by left|by intros i c|].
  vm_compute in H. injection H as <- <- <-. exact Hwf.
Qed.

Lemma read_box_closed : ∀ i c, cells read_box !! i = Some c → len c ≠ 0.
Proof. unfold read_box. simpl. intros i c [<- <-]%lookup_singleton_Some. done. Qed.

Lemma rlock_setlk_correct_witness :
  ∃ err b' o',
    fshelp_rlock_tweak 1 true 0 0 F_SETLK64 (mk_flock F_WRLCK SEEK_SET 20 10 0) true read_box []
    = Some (Returned err (mk_flock F_WRLCK SEEK_SET 20 10 0), b', o') ∧ box_wf b'.
Proof.
  destruct (rlock_setlk_correct 1 true 0 0 (mk_flock F_WRLCK SEEK_SET 20 10 0) 20 read_box [])
    as (err & b' & o' & H & Hwf & _).
  - exact read_box_wf.
  - split; simpl; try lia; auto. by split.
  - apply near_open_closed, read_box_closed.
  - exists err, b', o'. split; [exact H|exact Hwf].
Defined.

(** C11. Unlocking a region on a well-formed box returns, and the caller then
    holds exactly what it held outside the region; when a lock must be split
    and memory is short it returns ENOMEM and nothing changes.  Other open
    files keep exactly their locks.  The start and the end of the region fit in
    [loff_t]. *)
Theorem rlock_unlock_correct p w size cur cmd lock s b o :
  box_wf b → cmd = F_SETLK64 ∨ cmd = F_SETLKW64 → l_type lock = F_UNLCK → l_whence lock ≠ SEEK_BAD →
  s = base size cur lock + l_start lock → in_range size cur lock → 0 ≤ s → 0 ≤ l_len lock →
  ∃ err b' o',
    fshelp_rlock_tweak p w size cur cmd lock true b o = Some (Returned err lock, b', o')
    ∧ box_wf b' ∧ (∀ q f β, q ≠ p → holds b' q f β ↔ holds b q f β)
    ∧ ((err = E0 ∧ ∀ f β, holds b' p f β ↔ holds b p f β ∧ ¬ in_region s (l_len lock) β)
       ∨ (err = ENOMEM ∧ b' = b ∧ o ≠ [])).
Proof.
  intros Hwf Hcmd Ht Hw Hs Hr Hs0 Hl. rewrite (tweak_unlock p w size cur cmd lock s) by done.
  destruct (unlock_region_spec p s (l_len lock) b o) as (err & b' & o' & -> & Hwf' & Hf & Hp);
    [done..|destruct Hr; lia|].
  exists err, b', o'. do 2 (split; [done|]). split; [|done].
  intros q f β Hq. by apply (frame_holds p).
Qed.

Lemma rlock_unlock_correct_witness :
  ∃ err b' o',
    fshelp_rlock_tweak 0 false 0 3 F_SETLK64 (mk_flock F_UNLCK SEEK_CUR 0 2 0) true read_box []
    = Some (Returned err (mk_flock F_UNLCK SEEK_CUR 0 2 0), b', o') ∧ box_wf b'.
Proof.
  destruct (rlock_unlock_correct 0 false 0 3 F_SETLK64 (mk_flock F_UNLCK SEEK_CUR 0 2 0) 3 read_box [])
    as (err & b' & o' & H & Hwf & _).
  - exact read_box_wf.
  - by left.
  - reflexivity.
  - done.
  - reflexivity.
  - by split.
  - lia.
  - simpl. lia.
  - exists err, b', o'. split; [exact H|exact Hwf].
Defined.

(** F_GETLK changes nothing and tells the truth: it answers F_UNLCK
    exactly when no lock of another open file conflicts, and otherwise
    describes a held lock of another open file that overlaps the request. *)
Theorem rlock_getlk_correct p w size cur lock s b o :
  box_wf b → valid_request w size cur F_GETLK64 lock s →
  ∃ lock',
    fshelp_rlock_tweak p w size cur F_GETLK64 lock true b o = Some (Returned E0 lock', b, o)
    ∧ (l_type lock' = F_UNLCK ↔ ¬ conflict b p s (l_len lock) (l_type lock))
    ∧ (l_type lock' ≠ F_UNLCK → l_whence lock' = SEEK_SET ∧
        ∃ i c β, cells b !! i = Some c ∧ po_id c ≠ p ∧ type c = l_type lock'
                 ∧ start c = l_start lock' ∧ len c = l_len lock'
                 ∧ in_region s (l_len lock) β ∧ covers c β).
Proof.
  intros Hwf Hv. rewrite (tweak_valid p w size cur F_GETLK64 lock s) by done.
  pose proof (valid_end _ _ _ _ _ _ Hv) as Hsn.
  destruct Hv as [_ Ht _ _ _ _ Hs Hl]. unfold tweak_retry.
  destruct (find_conflict_spec p s (l_len lock) (l_type lock) b) as (r & -> & Hr); [done..|].
  simpl. destruct r as [[i c]|]; eexists; (split; [done|]); simpl.
  - destruct Hr as (Hi & Hp & Htt & β & Hβ & Hc). pose proof (box_wf_lock_ok _ _ _ Hwf Hi) as [_ _ _ Hct].
    split; [|intros _; split; [done|]; by exists i, c, β].
    split; [destruct Hct; congruence|]. intros Hn. exfalso. apply Hn. by eapply conflict_found.
  - split; [tauto|]. done.
Qed.

Lemma rlock_getlk_correct_witness :
  ∃ lock',
    fshelp_rlock_tweak 1 false 0 0 F_GETLK64 (mk_flock F_WRLCK SEEK_SET 5 0 0) true read_box []
    = Some (Returned E0 lock', read_box, []) ∧ l_type lock' = F_RDLCK.
Proof.
  destruct (rlock_getlk_correct 1 false 0 0 (mk_flock F_WRLCK SEEK_SET 5 0 0) 5 read_box [])
    as (lock' & H & _).
  - exact read_box_wf.
  - split; simpl; try lia; auto. by split.
  - exists lock'. split; [exact H|]. vm_compute in H. by injection H as <-.
Defined.

(** What a call and the wake-up of a waiting call do to the box. *)
Lemma tweak_retry_inv p cmd lock s b o :
  box_wf b → exclusive b → cmd ≠ F_BADCMD → l_type lock = F_RDLCK ∨ l_type lock = F_WRLCK →
  0 ≤ s → 0 ≤ l_len lock → s + l_len lock < 2 ^ 63 → near_open_box b p s (l_len lock) →
  ∃ out b' o', tweak_retry p cmd lock s (l_len lock) b o = Some (out, b', o')
               ∧ box_wf b' ∧ exclusive b'.
Proof.
  intros Hwf Hex Hcmd Ht Hs Hl Hsn Hnear. unfold tweak_retry.
  destruct (find_conflict_spec p s (l_len lock) (l_type lock) b) as (r & -> & Hr); [done..|].
  simpl. case_bool_decide.
  { destruct r as [[i c]|]; by eexists _, b, o. }
  destruct r as [[i c]|].
  - case_bool_decide; [|by eexists _, b, o].
    destruct (set_waiting_spec true b i c Hwf) as [Hwf' Hh]; [apply Hr|].
    eexists _, _, o. split; [done|]. split; [done|]. by eapply exclusive_same.
  - destruct (merge_in_box p s (l_len lock) (l_type lock) b o)
      as (err & b' & o' & -> & Hwf' & Hf & Hp); [done..|].
    eexists _, b', o'. split; [done|]. split; [done|].
    eapply exclusive_merge; [done..|]. intros f β Hu Hh.
    destruct Hp as [[_ Hp]|(_ & _ & Hp)]; by apply Hp.
Qed.

Lemma tweak_inv p w size cur cmd lock r b o :
  box_wf b → exclusive b → in_range size cur lock →
  near_open_box b p (base size cur lock + l_start lock) (l_len lock) →
  ∃ out b' o', fshelp_rlock_tweak p w size cur cmd lock r b o = Some (out, b', o')
               ∧ box_wf b' ∧ exclusive b'.
Proof.
  intros Hwf Hex Hr Hnear. unfold fshelp_rlock_tweak. rewrite region_start_ok by done.
  destruct r; [|by eexists _, b, o]. simpl.
  case_bool_decide as C1; [by eexists _, b, o|]. case_bool_decide as C2; [by eexists _, b, o|].
  destruct (_ && bool_decide (cmd = F_GETLK64)) eqn:C3; [by eexists _, b, o|].
  set (cmd' := if _ && _ then F_SETLK64 else cmd).
  assert (Hcmd' : cmd' ≠ F_BADCMD) by (unfold cmd'; by destruct (_ && bool_decide (cmd = F_SETLKW64))).
  assert (Hget : l_type lock = F_UNLCK → cmd' = F_SETLK64).
  { intros Hu. unfold cmd'. rewrite bool_decide_true in * by done. by destruct cmd. }
  destruct (_ && negb w) eqn:C4; [by eexists _, b, o|].
  destruct (decide (l_whence lock = SEEK_BAD)) as [Cw|Cw]; [by eexists _, b, o|].
  set (s := base size cur lock + l_start lock) in *.
  destruct Hr as [_ Hr]. fold s in Hr.
  destruct (bool_decide (s < 0)) eqn:C5; bool_prop C5; [by eexists _, b, o|].
  destruct (bool_decide (l_len lock < 0)) eqn:C6; bool_prop C6; [by eexists _, b, o|].
  destruct (bool_decide (cmd' = _) && _) eqn:C7; bool_prop C7.
  - destruct (unlock_region_spec p s (l_len lock) b o) as (err & b' & o' & -> & Hwf' & Hf & Hp);
      [done|lia|lia|lia|].
    eexists _, b', o'. split; [done|]. split; [done|].
    destruct Hp as [[_ Hp]|(_ & -> & _)]; [|done].
    eapply exclusive_unlock; [done..|]. intros f β. rewrite Hp. tauto.
  - apply tweak_retry_inv; auto with lia.
    destruct (l_type lock) eqn:Hlt; auto; [|done]. destruct C7; [|done]. by rewrite Hget in *.
Qed.

(** The calls on a box: requests and their wake-ups, and the closing of a
    peropen.  The offsets of the request do not overflow, and the caller's
    open-ended locks do not start beyond its end. *)
Inductive rlock_step (b : rlock_box) : rlock_box → Prop :=
| step_tweak p w size cur cmd lock r o out b' o' :
    in_range size cur lock → near_open_box b p (base size cur lock + l_start lock) (l_len lock) →
    fshelp_rlock_tweak p w size cur cmd lock r b o = Some (out, b', o') → rlock_step b b'
| step_wake interrupted p w size cur lock s o out b' o' :
    valid_request w size cur F_SETLKW64 lock s → near_open_box b p s (l_len lock) →
    tweak_after_wait interrupted p F_SETLKW64 lock s (l_len lock) b o = Some (out, b', o') →
    rlock_step b b'
| step_close p b' :
    fshelp_rlock_drop_peropen p b = Some b' → rlock_step b (fshelp_rlock_po_fini p b').

Lemma rlock_step_inv b b' :
  rlock_step b b' → box_wf b → exclusive b → box_wf b' ∧ exclusive b'.
Proof.
  intros [p w size cur cmd lock r o out b1 o1 Hr Hnear H|i p w size cur lock s o out b1 o1 Hv Hnear H|p b1 H]
    Hwf Hex.
  - destruct (tweak_inv p w size cur cmd lock r b o) as (? & ? & ? & H' & ?); [done..|].
    rewrite H' in H. by injection H as <- <- <-.
  - unfold tweak_after_wait in H. destruct i; [by injection H as <- <- <-|].
    destruct (tweak_retry_inv p F_SETLKW64 lock s b o) as (? & ? & ? & H' & ?); try done; try apply Hv;
      [by eapply valid_end|].
    rewrite H' in H. by injection H as <- <- <-.
  - destruct (drop_peropen_spec p b Hwf) as (b2 & H' & Hwf' & Hh).
    rewrite H' in H. injection H as <-. split; [done|].
    intros q r β Hqr. rewrite !Hh. intros [_ Hq] [_ Hr]. by apply (Hex q r β).
Qed.

(** C2. Mutual exclusion: from an initialised box on, whatever requests,
    waits, interruptions and closes happen, the box is well-formed and no open
    file holds a lock on a byte that another one has locked for writing, as
    long as the start and the end of every requested region fit in [loff_t] and
    no open file asks for a region that ends before an open-ended lock of its own
    starts.  Beyond these two limits the code goes wrong
    ([rlock_overflow_breaks_exclusion], [rlock_gap_merge_breaks_exclusion]). *)
Theorem rlock_reachable_exclusive b :
  rtc rlock_step fshelp_rlock_init b → box_wf b ∧ exclusive b.
Proof.
  intros H.
  assert (Hinv : box_wf fshelp_rlock_init ∧ exclusive fshelp_rlock_init).
  { split; [apply init_box_wf|]. intros p q β _ (i & c & Hi & _). simpl in Hi.
    by rewrite lookup_empty in Hi. }
  revert Hinv. induction H as [b|b1 b2 b3 Hstep _ IH]; [done|].
  intros [Hwf Hex]. apply IH. by eapply rlock_step_inv.
Qed.

Lemma rlock_reachable_exclusive_witness : box_wf read_box ∧ exclusive read_box.
Proof.
  apply rlock_reachable_exclusive. eapply rtc_once, (step_tweak _ 0 false 0 0 F_SETLK64
    (mk_flock F_RDLCK SEEK_SET 0 10 0) true []); [by split|by intros i c|reflexivity].
Defined.

(** Closing an open file ([fshelp_rlock_drop_peropen] and then
    [fshelp_rlock_po_fini]) frees all of its locks and none of the others, and
    leaves a well-formed box. *)
Theorem rlock_close_correct p b :
  box_wf b →
  ∃ b', fshelp_rlock_drop_peropen p b = Some b' ∧ box_wf (fshelp_rlock_po_fini p b')
    ∧ ∀ q f β, holds (fshelp_rlock_po_fini p b') q f β ↔ q ≠ p ∧ holds b q f β.
Proof. apply drop_peropen_spec. Qed.

Lemma rlock_close_correct_witness :
  ∃ b', fshelp_rlock_drop_peropen 0 read_box = Some b' ∧ cells b' = ∅.
Proof.
  destruct (rlock_close_correct 0 read_box read_box_wf) as (b' & H & _).
  exists b'. split; [exact H|]. vm_compute in H. injection H as <-. reflexivity.
Defined.

(** F_SETLKW on a conflict waits on a lock that conflicts, with
    that lock's waiters noted, and takes nothing; without a conflict it does
    what F_SETLK does. *)
Theorem rlock_setlkw_correct p w size cur lock s b o :
  box_wf b → valid_request w size cur F_SETLKW64 lock s →
  (¬ conflict b p s (l_len lock) (l_type lock) →
     fshelp_rlock_tweak p w size cur F_SETLKW64 lock true b o
     = fshelp_rlock_tweak p w size cur F_SETLK64 lock true b o)
  ∧ (conflict b p s (l_len lock) (l_type lock) →
     ∃ i c b', fshelp_rlock_tweak p w size cur F_SETLKW64 lock true b o = Some (Waiting i, b', o)
       ∧ cells b' !! i = Some (set_waiting true c) ∧ po_id c ≠ p ∧ box_wf b'
       ∧ (∃ β, in_region s (l_len lock) β ∧ covers c β)
       ∧ (∀ q f β, holds b' q f β ↔ holds b q f β)).
Proof.
  intros Hwf Hv.
  assert (Hv' : valid_request w size cur F_SETLK64 lock s).
  { destruct Hv as [H1 H2 H3 H4 H5 H6 H7 H8]. split; try done. intros H. destruct (H3 H); [done|by right]. }
  rewrite (tweak_valid p w size cur F_SETLKW64 lock s), (tweak_valid p w size cur F_SETLK64 lock s)
    by done.
  pose proof (valid_end _ _ _ _ _ _ Hv) as Hsn.
  destruct Hv as [_ Ht _ _ _ _ Hs Hl]. unfold tweak_retry.
  destruct (find_conflict_spec p s (l_len lock) (l_type lock) b) as (r & -> & Hr); [done..|].
  simpl. destruct r as [[i c]|]; [|by split].
  destruct Hr as (Hi & Hp & Htt & β & Hβ & Hc). split.
  { intros Hn. exfalso. apply Hn. by eapply conflict_found. }
  intros _. destruct (set_waiting_spec true b i c Hwf Hi) as [Hwf' Hh].
  eexists i, c, _. split; [done|]. split; [apply lookup_insert_eq|]. do 2 (split; [done|]).
  split; [by exists β|done].
Qed.

Lemma rlock_setlkw_correct_witness :
  ∃ b', fshelp_rlock_tweak 1 true 0 0 F_SETLKW64 (mk_flock F_WRLCK SEEK_SET 5 0 0) true read_box []
        = Some (Waiting 0, b', []).
Proof.
  destruct (rlock_setlkw_correct 1 true 0 0 (mk_flock F_WRLCK SEEK_SET 5 0 0) 5 read_box [])
    as [_ H].
  - exact read_box_wf.
  - split; simpl; try lia; auto. by split.
  - destruct H as (i & c & b' & H & _).
    + exists 0%nat, 5. split; [done|]. split; [unfold in_region; simpl; lia|]. right.
      split; [done|]. exists 0%nat, (mk_rlock 0 10 F_RDLCK false 0).
      split; [reflexivity|]. split; [done|]. split; [done|]. unfold covers, in_region. simpl. lia.
    + exists b'. rewrite H. vm_compute in H. by injection H as <- _.
Defined.

Lemma status_of_spec m l :
  (∀ i, i ∈ l → is_Some (m !! i)) →
  ∃ st, match l with [] => Some LOCK_UN | j :: l' => status_of m (j :: l') end = Some st
    ∧ (st = LOCK_EX ↔ ∃ i c, i ∈ l ∧ m !! i = Some c ∧ type c = F_WRLCK)
    ∧ (st = LOCK_UN ↔ l = []).
Proof.
  intros Hl.
  assert (∃ st, status_of m l = Some st ∧ st ≠ LOCK_UN
            ∧ (st = LOCK_EX ↔ ∃ i c, i ∈ l ∧ m !! i = Some c ∧ type c = F_WRLCK))
    as (st & Hst & Hun & Hex).
  { induction l as [|i l IH]; simpl.
    - exists LOCK_SH. do 2 (split; [done|]). split; [done|]. by intros (? & ? & ?%elem_of_nil & _).
    - destruct (Hl i) as [c Hc]; [set_solver|]. rewrite Hc. simpl. case_bool_decide as Ht.
      + exists LOCK_EX. do 2 (split; [done|]). split; [|done]. intros _. exists i, c. set_solver.
      + destruct IH as (st & -> & ? & Hst); [set_solver|]. exists st. do 2 (split; [done|]).
        rewrite Hst. split; intros (j & d & Hj & Hd & Htd); exists j, d; [set_solver|].
        apply elem_of_cons in Hj as [->|?]; [congruence|done]. }
  destruct l as [|i l].
  - exists LOCK_UN. split; [done|]. split; [|done]. split; [done|].
    by intros (? & ? & ?%elem_of_nil & _).
  - exists st. split; [done|]. split; [done|]. by split.
Qed.

Lemma covers_start c : lock_ok c → covers c (start c).
Proof. intros [??]. unfold covers, in_region. lia. Qed.

Lemma write_lock_true t : write_lock t = true ↔ t = F_WRLCK.
Proof. apply bool_decide_eq_true. Qed.

Lemma peropen_status_spec p b :
  box_wf b →
  ∃ st, fshelp_rlock_peropen_status p b = Some st
    ∧ (st = LOCK_EX ↔ ∃ β, holds b p write_lock β)
    ∧ (st = LOCK_UN ↔ ∀ β, ¬ holds b p any_lock β).
Proof.
  intros Hwf. pose proof Hwf as [Hnode Hpo].
  destruct (Hpo p) as (L & HL & Hord). unfold fshelp_rlock_peropen_status.
  rewrite (own_ids _ _ _ HL).
  destruct (status_of_spec (cells b) L.*1) as (st & Hst & Hex & Hun).
  { intros i ([j c] & -> & Hj)%list_elem_of_fmap. apply (own_cells _ _ _ HL) in Hj as [??].
    by eexists. }
  exists st. split; [done|]. split.
  + rewrite Hex. split.
    * intros (i & c & Hi & Hc & Ht). exists (start c), i, c. rewrite write_lock_true.
      split; [done|]. split; [by apply (owns_elem p L b i c)|]. split; [done|].
      by eapply covers_start, box_wf_lock_ok.
    * intros (β & i & c & Hi & Hp & Ht%write_lock_true & _). exists i, c.
      split; [by apply (owns_elem p L b i c)|done].
  + rewrite Hun. split.
    * intros HL0 β (i & c & Hi & Hp & _). apply (owns_elem p L b i c HL Hi) in Hp.
      rewrite HL0 in Hp. by apply elem_of_nil in Hp.
    * intros Hn. destruct L as [|[i c] L]; [done|]. exfalso.
      destruct (owns_lookup p [] i c L b HL) as [Hi Hp]. apply (Hn (start c)).
      exists i, c. do 3 (split; [done|]). by eapply covers_start, box_wf_lock_ok.
Qed.

Lemma node_status_spec b :
  box_wf b →
  ∃ st, fshelp_rlock_node_status b = Some st
    ∧ (st = LOCK_EX ↔ ∃ q β, holds b q write_lock β)
    ∧ (st = LOCK_UN ↔ ∀ q β, ¬ holds b q any_lock β).
Proof.
  intros Hwf. pose proof Hwf as [Hnode Hpo].
  unfold fshelp_rlock_node_status.
  destruct (status_of_spec (cells b) (node_locks b)) as (st & Hst & Hex & Hun).
  { intros i Hi. by apply (node_elem _ Hnode). }
  exists st. split; [done|]. split.
  + rewrite Hex. split.
    * intros (i & c & Hi & Hc & Ht). exists (po_id c), (start c), i, c. rewrite write_lock_true.
      do 3 (split; [done|]). by eapply covers_start, box_wf_lock_ok.
    * intros (q & β & i & c & Hi & Hp & Ht%write_lock_true & _). exists i, c.
      split; [|done]. apply (node_elem _ Hnode). by eexists.
  + rewrite Hun. split.
    * intros HL0 q β (i & c & Hi & Hp & _).
      assert (Hn : i ∈ node_locks b) by (apply (node_elem _ Hnode); by eexists).
      rewrite HL0 in Hn. by apply elem_of_nil in Hn.
    * intros Hn. destruct (node_locks b) as [|i l] eqn:Hl; [done|]. exfalso.
      assert (is_Some (cells b !! i)) as [c Hi] by (apply (node_elem _ Hnode); rewrite Hl; set_solver).
      apply (Hn (po_id c) (start c)). exists i, c. do 3 (split; [done|]).
      by eapply covers_start, box_wf_lock_ok.
Qed.

(** The status calls tell the strongest lock: of a peropen LOCK_EX when
    it has some byte locked for writing, LOCK_SH when it only has bytes locked
    for reading, LOCK_UN when it has none; and of the node likewise over all
    peropens. *)
Theorem rlock_status_correct p b :
  box_wf b →
  (∃ st, fshelp_rlock_peropen_status p b = Some st
     ∧ (st = LOCK_EX ↔ ∃ β, holds b p write_lock β)
     ∧ (st = LOCK_UN ↔ ∀ β, ¬ holds b p any_lock β))
  ∧ (∃ st, fshelp_rlock_node_status b = Some st
     ∧ (st = LOCK_EX ↔ ∃ q β, holds b q write_lock β)
     ∧ (st = LOCK_UN ↔ ∀ q β, ¬ holds b q any_lock β)).
Proof. intros Hwf. split; [by apply peropen_status_spec|by apply node_status_spec]. Qed.

Lemma rlock_status_correct_witness :
  fshelp_rlock_peropen_status 0 read_box = Some LOCK_SH
  ∧ ∃ st, fshelp_rlock_node_status read_box = Some st ∧ st ≠ LOCK_EX.
Proof.
  destruct (rlock_status_correct 0 read_box read_box_wf) as [(st & H & _) (st' & H' & _)].
  split; [rewrite H; vm_compute in H; by injection H as <-|].
  exists st'. split; [exact H'|]. vm_compute in H'. by injection H' as <-.
Defined.

(** ** Behaviours outside the contract *)

Definition request (p : nat) (t : lock_type) (s n : Z) (b : rlock_box) (o : allocs)
    : option (tweak_outcome * rlock_box * allocs) :=
  fshelp_rlock_tweak p true 0 0 F_SETLK64 (mk_flock t SEEK_SET s n 0) true b o.

(** The restriction on open-ended locks matters: open file 0 read-locks everything
    from byte 100 on, open file 1 write-locks the bytes 20 to 29, and the
    request of 0 for a read lock on the bytes 0 to 9 succeeds and extends its
    lock over the whole file, byte 25 included. *)
Theorem rlock_gap_merge_breaks_exclusion :
  ∃ b1 b2 b3 r1 r2 r3,
    request 0 F_RDLCK 100 0 fshelp_rlock_init [] = Some (Returned E0 r1, b1, [])
    ∧ request 1 F_WRLCK 20 10 b1 [] = Some (Returned E0 r2, b2, [])
    ∧ request 0 F_RDLCK 0 10 b2 [] = Some (Returned E0 r3, b3, [])
    ∧ holds b3 1 write_lock 25 ∧ holds b3 0 any_lock 25 ∧ ¬ exclusive b3.
Proof.
  do 6 eexists. split; [vm_compute; reflexivity|]. split; [vm_compute; reflexivity|].
  split; [vm_compute; reflexivity|].
  match goal with |- ?W ∧ ?R ∧ _ => assert W as HW; [|assert R as HR] end.
  - exists 1%nat, (mk_rlock 20 10 F_WRLCK false 1). split; [reflexivity|]. do 2 (split; [done|]).
    unfold covers, in_region. simpl. lia.
  - exists 0%nat, (mk_rlock 0 0 F_RDLCK false 0). split; [reflexivity|]. do 2 (split; [done|]).
    unfold covers, in_region. simpl. lia.
  - split; [exact HW|]. split; [exact HR|]. intros Hex. by apply (Hex 1%nat 0%nat 25).
Qed.

(** So does the restriction on offsets: with the bytes from 2^62 on write-locked by open
    file 0, for 2^62 bytes, the end of the region wraps around, and open file 1
    gets a write lock on the same bytes. *)
Theorem rlock_overflow_breaks_exclusion :
  ∃ b1 b2 r1 r2,
    request 0 F_WRLCK (2 ^ 62) (2 ^ 62) fshelp_rlock_init [] = Some (Returned E0 r1, b1, [])
    ∧ request 1 F_WRLCK (2 ^ 62) (2 ^ 62) b1 [] = Some (Returned E0 r2, b2, [])
    ∧ ¬ exclusive b2.
Proof.
  do 4 eexists. split; [vm_compute; reflexivity|]. split; [vm_compute; reflexivity|].
  intros Hex. apply (Hex 0%nat 1%nat (2 ^ 62)); [done|exists 0%nat|exists 1%nat];
    eexists; (split; [reflexivity|]); do 2 (split; [done|]); unfold covers, in_region; simpl; lia.
Qed.

(** Without memory a request can lose locks the caller held before:
    with a read lock on the bytes 0 to 9, a read request for the bytes 5 to 19
    fails with ENOMEM and no lock is left. *)
Theorem rlock_enomem_loses_lock :
  ∃ b r, request 0 F_RDLCK 5 15 read_box [false] = Some (Returned ENOMEM r, b, [])
    ∧ holds read_box 0 any_lock 3 ∧ cells b = ∅.
Proof.
  do 2 eexists. split; [vm_compute; reflexivity|]. split; [|reflexivity].
  exists 0%nat, (mk_rlock 0 10 F_RDLCK false 0). split; [reflexivity|]. do 2 (split; [done|]).
  unfold covers, in_region. simpl. lia.
Qed.

(** Unlocking the middle of a lock wakes nobody: open file 1 waits
    for the bytes 4 and 5 of the read lock of 0, which 0 then unlocks; nothing
    conflicts any more, and the waiter is still not woken. *)
Theorem rlock_carve_loses_wakeup :
  ∃ b1 b2 r,
    fshelp_rlock_tweak 1 true 0 0 F_SETLKW64 (mk_flock F_WRLCK SEEK_SET 4 2 0) true read_box []
    = Some (Waiting 0, b1, [])
    ∧ request 0 F_UNLCK 4 2 b1 [] = Some (Returned E0 r, b2, [])
    ∧ find_conflict 1 4 2 F_WRLCK b2 = Some None ∧ woken b2 = [].
Proof.
  do 3 eexists. split; [vm_compute; reflexivity|]. split; [vm_compute; reflexivity|].
  split; vm_compute; reflexivity.
Qed.
