(* ===== verification/Idvec.v ===== *)
(** * Vectors of ids (src/libshouldbeinlibc/idvec.c, idvec.h)

    An id vector is an array with [alloced] cells of which the first [num]
    hold ids.  The other cells are uninitialised: reading one, like reading
    outside the array, is [None]. *)

From S2P Require Import Prelude.

(** ** Data *)

(** [struct idvec]: [ids] are the cells of the array. *)
Record idvec := mk_idvec {
  ids : list (option Z);
  num : Z;
  alloced : Z
}.

Definition IDVEC_INIT : idvec := mk_idvec [] 0 0.

(** An array of the caller as a constant vector: [{ ids, num }]. *)
Definition const_idvec (l : list Z) : idvec := mk_idvec (Some <$> l) (zlen l) 0.

(** [idvec->ids[i]] and a store to it. *)
Definition get_id (v : idvec) (i : Z) : option Z := x ← ids v !z i; x.
Definition set_id (i : Z) (x : Z) (v : idvec) : option idvec :=
  a ← storez i (Some x) (ids v); Some (mk_idvec a (num v) (alloced v)).

(** ** Operations *)

Definition make_idvec (o : allocs) : option idvec * allocs :=
  let '(ok, o') := alloc o in (if ok then Some IDVEC_INIT else None, o').

Definition idvec_clear (v : idvec) : idvec := mk_idvec (ids v) 0 (alloced v).

Definition idvec_is_empty (v : idvec) : bool := bool_decide (num v = 0).

(** The cells [memcmp] reads. *)
Definition read_ids (n : Z) (v : idvec) : option (list Z) :=
  if decide (n ≤ zlen (ids v)) then mapM id (take (Z.to_nat n) (ids v)) else None.

Definition idvec_equal (v w : idvec) : option bool :=
  if decide (num w = num v) then
    if decide (num v = 0) then Some true
    else l ← read_ids (num v) v; k ← read_ids (num v) w; Some (bool_decide (l = k))
  else Some false.

(** [realloc] keeps the cells and adds uninitialised ones; it needs an array
    of the heap. *)
Definition idvec_ensure (n : Z) : op idvec := λ v o,
  if decide (alloced v < n) then
    if decide (zlen (ids v) = alloced v) then
      let '(ok, o') := alloc o in
      if ok then
        Some (E0, mk_idvec (ids v ++ replicate (Z.to_nat (n - alloced v)) None) (num v) n, o')
      else Some (ENOMEM, v, o')
    else None
  else Some (E0, v, o).

Definition idvec_grow (inc : Z) : op idvec := λ v, idvec_ensure (u32 (num v + inc)) v.

Fixpoint contains_loop (fuel : nat) (v : idvec) (p id : Z) : option bool :=
  match fuel with
  | O => Some false
  | S fuel' =>
      x ← get_id v p; if decide (x = id) then Some true else contains_loop fuel' v (p + 1) id
  end.

Definition idvec_tail_contains (v : idvec) (pos id : Z) : option bool :=
  contains_loop (Z.to_nat (num v - pos)) v pos id.

Definition idvec_contains (v : idvec) (id : Z) : option bool := idvec_tail_contains v 0 id.

(** [memset (ids + i, 0, n)] *)
Fixpoint zero_cells (n : nat) (i : Z) (a : list (option Z)) : option (list (option Z)) :=
  match n with
  | O => Some a
  | S n' => a' ← storez i (Some 0) a; zero_cells n' (i + 1) a'
  end.

(** The stores of [idvec_insert], once there is room. *)
Definition insert_cells (pos id : Z) (v : idvec) : option idvec :=
  let n := num v in
  let new_num := u32 (if decide (pos < n) then n + 1 else pos + 1) in
  a ← (if decide (pos < n) then memmove (pos + 1) pos (n - pos) (ids v)
       else if decide (n < pos) then zero_cells (Z.to_nat (pos - n)) n (ids v)
       else Some (ids v));
  a' ← storez pos (Some id) a;
  Some (mk_idvec a' new_num (alloced v)).

Definition idvec_insert (pos id : Z) : op idvec := λ v,
  let n := num v in
  let new_num := u32 (if decide (pos < n) then n + 1 else pos + 1) in
  (idvec_ensure (if decide (alloced v = n) then u32 (new_num + n) else new_num)
   ;;? op_lift (insert_cells pos id)) v.

Definition idvec_add (id : Z) : op idvec := λ v, idvec_insert (num v) id v.

Definition idvec_add_new (id : Z) : op idvec := λ v o,
  c ← idvec_contains v id; if c : bool then Some (E0, v, o) else idvec_add id v o.

Definition idvec_insert_new (pos id : Z) : op idvec := λ v o,
  c ← idvec_tail_contains v pos id;
  if c : bool then Some (E0, v, o) else idvec_insert pos id v o.

(** [memcpy] of the ids [l] to the front of the array. *)
Definition copy_ids (l : list Z) (v : idvec) : option idvec :=
  if decide (zlen l ≤ zlen (ids v)) then
    Some (mk_idvec ((Some <$> l) ++ drop (length l) (ids v)) (zlen l) (alloced v))
  else None.

Definition idvec_set_ids (l : list Z) : op idvec :=
  idvec_ensure (zlen l) ;;? op_lift (copy_ids l).

Definition idvec_set (new : idvec) : op idvec := λ v o,
  l ← read_ids (num new) new; idvec_set_ids l v o.

(** The inner loop of [idvec_merge_ids] over the old ids: is [id] there? *)
Fixpoint old_contains (fuel : nat) (v : idvec) (i id : Z) : option bool :=
  match fuel with
  | O => Some false
  | S fuel' =>
      x ← get_id v i; if decide (x = id) then Some true else old_contains fuel' v (i + 1) id
  end.

Fixpoint merge_loop (num_old : Z) (l : list Z) : op idvec := λ v o,
  match l with
  | [] => Some (E0, v, o)
  | id :: l' =>
      c ← old_contains (Z.to_nat num_old) v 0 id;
      if c : bool then merge_loop num_old l' v o
      else (idvec_add id ;;? merge_loop num_old l') v o
  end.

Definition idvec_merge_ids (l : list Z) : op idvec := λ v, merge_loop (num v) l v.

Definition idvec_merge (new : idvec) : op idvec := λ v o,
  l ← read_ids (num new) new; idvec_merge_ids l v o.

(** The compaction loop of [idvec_remove]: [i] is [ids], [t] is [targ]. *)
Fixpoint remove_loop (left : nat) (a : list (option Z)) (i t id : Z)
    : option (list (option Z) * Z) :=
  match left with
  | O => Some (a, t)
  | S left' =>
      c ← a !z i; x ← c;
      if decide (x = id) then remove_loop left' a (i + 1) t id
      else
        a' ← (if decide (i = t) then Some a else storez t (Some x) a);
        remove_loop left' a' (i + 1) (t + 1) id
  end.

Definition idvec_remove (pos id : Z) (v : idvec) : option (idvec * bool) :=
  if decide (pos < num v) then
    '(a, t) ← remove_loop (Z.to_nat (num v - pos)) (ids v) pos pos id;
    if decide (num v = t) then Some (mk_idvec a (num v) (alloced v), false)
    else Some (mk_idvec a t (alloced v), true)
  else Some (v, false).

Fixpoint subtract_loop (l : list Z) (v : idvec) (done : bool) : option (idvec * bool) :=
  match l with
  | [] => Some (v, done)
  | id :: l' => '(v', d) ← idvec_remove 0 id v; subtract_loop l' v' (done || d)
  end.

Definition idvec_subtract (sub : idvec) (v : idvec) : option (idvec * bool) :=
  l ← read_ids (num sub) sub; subtract_loop l v false.

(** The compaction loop of [idvec_keep]: [old] and [new] are indices.  The
    test [old != new] comes after [old] was incremented, so it always holds. *)
Fixpoint keep_loop (left : nat) (a : list (option Z)) (old new : Z) (keep : idvec)
    : option (list (option Z) * Z) :=
  match left with
  | O => Some (a, new)
  | S left' =>
      c ← a !z old; x ← c;
      k ← idvec_contains keep x;
      if k : bool then
        a' ← storez new (Some x) a; keep_loop left' a' (old + 1) (new + 1) keep
      else keep_loop left' a (old + 1) new keep
  end.

Definition idvec_keep (keep : idvec) (v : idvec) : option (idvec * bool) :=
  '(a, new) ← keep_loop (Z.to_nat (num v)) (ids v) 0 0 keep;
  if decide (num v = new) then Some (mk_idvec a (num v) (alloced v), false)
  else Some (mk_idvec a new (alloced v), true).

Definition idvec_delete (pos : Z) (v : idvec) : option idvec :=
  if decide (pos < num v) then
    let n := num v - 1 in
    a ← (if decide (pos < n) then memmove pos (pos + 1) (n - pos) (ids v) else Some (ids v));
    Some (mk_idvec a n (alloced v))
  else Some v.

Definition idvec_insert_only (pos id : Z) : op idvec := λ v o,
  same ← (if decide (pos < num v) then x ← get_id v pos; Some (bool_decide (x = id))
          else Some false);
  if same : bool then Some (E0, v, o)
  else '(v', _) ← idvec_remove pos id v; idvec_insert pos id v' o.

(** The state is the pair of [eff] and [avail]; the result tells whether
    [*secure] is to be set. *)
Definition idvec_setid (id : Z) (eff avail : idvec) (o : allocs)
    : option (error_t * idvec * idvec * bool * allocs) :=
  ce ← idvec_contains eff id;
  ca ← (if ce : bool then Some true else idvec_contains avail id);
  let secure := negb ca in
  '(err, eff1, avail1, o1) ←
    (if decide (0 < num eff) then
       e0 ← get_id eff 0;
       '(err, avail1, o1) ← idvec_add_new e0 avail o;
       if decide (err = E0) then eff1 ← set_id 0 id eff; Some (E0, eff1, avail1, o1)
       else Some (err, eff, avail1, o1)
     else '(err, eff1, o1) ← idvec_add id eff o; Some (err, eff1, avail, o1));
  if decide (0 < num avail1 ∧ err = E0) then
    '(err2, avail2, o2) ← idvec_insert_only 1 id avail1 o1;
    Some (err2, eff1, avail2, secure && bool_decide (err2 = E0), o2)
  else Some (err, eff1, avail1, secure && bool_decide (err = E0), o1).

(** ** Contents *)

(** The vector reads as the list [l]. *)
Definition reads (v : idvec) (l : list Z) : Prop :=
  num v = zlen l ∧ ∃ junk, ids v = (Some <$> l) ++ junk.

(** The same for a vector whose array is on the heap. *)
Definition repr (v : idvec) (l : list Z) : Prop :=
  alloced v = zlen (ids v) ∧ reads v l.

(** What [idvec_insert] makes of a list. *)
Definition insert_at (pos id : Z) (l : list Z) : list Z :=
  let n := Z.to_nat pos in take n l ++ replicate (n - length l) 0 ++ id :: drop n l.

Lemma repr_reads v l : repr v l → reads v l.
Proof. by intros [_ ?]. Qed.

Lemma repr_init : repr IDVEC_INIT [].
Proof. split; [done|]. split; [done|]. by exists []. Qed.

Lemma reads_const l : reads (const_idvec l) l.
Proof. split; [done|]. exists []. by rewrite app_nil_r. Qed.

Lemma repr_clear v l : repr v l → repr (idvec_clear v) [].
Proof. intros [? _]. split; [done|]. split; [done|]. by exists (ids v). Qed.

Lemma get_id_reads v l i x : reads v l → l !z i = Some x → get_id v i = Some x.
Proof.
  intros [_ [junk Hv]] Hl. unfold get_id. rewrite Hv. pose proof (lookupz_lt _ _ _ Hl).
  unfold lookupz in *. rewrite decide_True in Hl by lia. rewrite decide_True by lia.
  rewrite lookup_app_l by (rewrite length_fmap; lia). rewrite list_lookup_fmap, Hl. done.
Qed.

Lemma read_ids_reads v l : reads v l → read_ids (num v) v = Some l.
Proof.
  intros [Hn [junk Hv]]. unfold read_ids. rewrite Hn, Hv, length_app, length_fmap.
  rewrite decide_True by lia. rewrite Nat2Z.id, take_app_length' by by rewrite length_fmap.
  apply mapM_id_Some.
Qed.

Lemma idvec_equal_spec v w l k :
  reads v l → reads w k → idvec_equal v w = Some (bool_decide (l = k)).
Proof.
  intros Hv Hw. unfold idvec_equal. pose proof (proj1 Hv) as Hnv. pose proof (proj1 Hw) as Hnw.
  case_decide as Hn.
  - pose proof (read_ids_reads v l Hv) as ->. pose proof (read_ids_reads w k Hw) as Hk.
    rewrite Hn in Hk. rewrite Hk. simpl. case_decide as H0; [|done]. destruct l, k; simpl in *; (done || lia).
  - rewrite bool_decide_false; [done|]. intros ->. lia.
Qed.

(** The two search loops are the same function of the cells. *)
Lemma contains_loop_spec v l p id fuel :
  reads v l → 0 ≤ p → (fuel + Z.to_nat p ≤ length l)%nat →
  contains_loop fuel v p id = Some (bool_decide (id ∈ take fuel (drop (Z.to_nat p) l))).
Proof.
  intros Hv. revert p. induction fuel as [|fuel IH]; intros p Hp Hf; simpl.
  - done.
  - destruct (lookupz_is_Some l p) as [x Hx]; [lia|].
    rewrite (get_id_reads v l p x) by done. simpl.
    assert (Hd : drop (Z.to_nat p) l = x :: drop (Z.to_nat (p + 1)) l).
    { replace (Z.to_nat (p + 1)) with (S (Z.to_nat p)) by lia. apply drop_S.
      unfold lookupz in Hx. by rewrite decide_True in Hx by lia. }
    rewrite Hd. simpl. case_decide as E.
    + rewrite bool_decide_true; [done|]. subst. by left.
    + rewrite IH by lia. f_equal. apply bool_decide_ext. rewrite elem_of_cons. naive_solver.
Qed.

Lemma old_contains_eq fuel v i id : old_contains fuel v i id = contains_loop fuel v i id.
Proof.
  revert i. induction fuel as [|fuel IH]; intros i; simpl; [done|].
  destruct (get_id v i); simpl; [|done]. by rewrite IH.
Qed.

Lemma idvec_tail_contains_spec v l pos id :
  reads v l → 0 ≤ pos →
  idvec_tail_contains v pos id = Some (bool_decide (id ∈ drop (Z.to_nat pos) l)).
Proof.
  intros Hv Hp. unfold idvec_tail_contains. rewrite (proj1 Hv).
  destruct (decide (pos ≤ zlen l)).
  - rewrite (contains_loop_spec v l) by (done || lia).
    by rewrite take_ge by (rewrite length_drop; lia).
  - replace (Z.to_nat (zlen l - pos)) with 0%nat by lia. by rewrite drop_ge by lia.
Qed.

Lemma idvec_contains_spec v l id :
  reads v l → idvec_contains v id = Some (bool_decide (id ∈ l)).
Proof. intros Hv. by apply (idvec_tail_contains_spec v l 0). Qed.

(** ** Growth and insertion *)

Lemma idvec_ensure_spec v l n :
  repr v l → op_spec (idvec_ensure n) v (λ v', repr v' l ∧ n ≤ alloced v') (λ e v', e = ENOMEM ∧ v' = v).
Proof.
  intros [Ha [Hn [junk Hv]]] o. unfold idvec_ensure. case_decide as Hlt.
  - rewrite decide_True by done. destruct (alloc o) as [[] o'] eqn:Ho.
    + eexists E0, _, o'. split; [done|]. split; [intros ->; by injection Ho as <-|]. left.
      split; [done|]. split; [|simpl; lia]. split; simpl.
      * rewrite length_app, length_replicate. lia.
      * split; [done|]. eexists. simpl. by rewrite Hv, <- app_assoc.
    + exists ENOMEM, v, o'. split; [done|]. split; [intros ->; by injection Ho|]. by right.
  - exists E0, v, o. split; [done|]. split; [done|]. left. split; [done|]. split; [|lia].
    split; [done|]. split; [done|]. by exists junk.
Qed.

Lemma zero_cells_spec n l junk i :
  i = zlen l → (n ≤ length junk)%nat →
  zero_cells n i ((Some <$> l) ++ junk) = Some ((Some <$> (l ++ replicate n 0)) ++ drop n junk).
Proof.
  revert l junk i. induction n as [|n IH]; intros l junk i Hi Hn; simpl.
  - by rewrite app_nil_r.
  - destruct junk as [|x junk]; simpl in Hn; [lia|].
    rewrite (storez_mid (Some <$> l)) by (by rewrite length_fmap). simpl.
    specialize (IH (l ++ [0]) junk (i + 1)).
    rewrite fmap_app, <- app_assoc in IH. simpl in IH. rewrite IH by (rewrite ?length_app; simpl; lia).
    by rewrite <- app_assoc.
Qed.

Lemma insert_at_lt pos id l :
  0 ≤ pos ≤ zlen l → insert_at pos id l = take (Z.to_nat pos) l ++ id :: drop (Z.to_nat pos) l.
Proof. intros ?. unfold insert_at. by replace (_ - _)%nat with 0%nat by lia. Qed.

Lemma insert_at_ge pos id l :
  zlen l ≤ pos →
  insert_at pos id l = l ++ replicate (Z.to_nat pos - length l) 0 ++ [id].
Proof. intros ?. unfold insert_at. by rewrite take_ge, drop_ge by lia. Qed.

Lemma repr_intro a n c l junk :
  a = (Some <$> l) ++ junk → n = zlen l → c = zlen a → repr (mk_idvec a n c) l.
Proof. intros. split; [done|]. split; [done|]. by exists junk. Qed.

Lemma insert_cells_spec v l pos id :
  repr v l → 0 ≤ pos → zlen l + 1 ≤ alloced v → pos + 1 ≤ alloced v →
  zlen l + 1 < 2 ^ 32 → pos + 1 < 2 ^ 32 →
  ∃ v', insert_cells pos id v = Some v' ∧ repr v' (insert_at pos id l).
Proof.
  intros [Ha [Hn [junk Hv]]] Hp Hl1 Hp1 Hm1 Hm2. rewrite Hv, length_app, length_fmap in Ha.
  unfold insert_cells. rewrite Hn, Hv. destruct (decide (pos < zlen l)) as [Hlt|Hge].
  - destruct junk as [|x junk]; [simpl in Ha; lia|]. rewrite insert_at_lt by lia.
    assert (El : Some <$> l = (Some <$> take (Z.to_nat pos) l) ++ (Some <$> drop (Z.to_nat pos) l))
      by by rewrite <- fmap_app, take_drop.
    rewrite El.
    set (l1 := take (Z.to_nat pos) l) in *. set (l2 := drop (Z.to_nat pos) l) in *.
    assert (length l1 = Z.to_nat pos) by (unfold l1; rewrite length_take; lia).
    assert (length l2 = (length l - Z.to_nat pos)%nat) by (unfold l2; by rewrite length_drop).
    rewrite <- app_assoc.
    destruct (memmove_up (Some <$> l1) (Some <$> l2) junk x (pos + 1) pos (zlen l - pos))
      as [z ->]; [rewrite ?length_fmap; lia..|]. simpl.
    rewrite storez_mid by (rewrite length_fmap; lia). simpl. eexists. split; [done|].
    apply (repr_intro _ _ _ _ junk).
    + by rewrite fmap_app, fmap_cons, <- app_assoc.
    + rewrite u32_id, length_app by lia. simpl. lia.
    + rewrite length_app. simpl. rewrite length_app, !length_fmap. simpl in Ha. lia.
  - rewrite insert_at_ge by lia. set (k := (Z.to_nat pos - length l)%nat).
    assert (Hz : (if decide (zlen l < pos)
                  then zero_cells (Z.to_nat (pos - zlen l)) (zlen l) ((Some <$> l) ++ junk)
                  else Some ((Some <$> l) ++ junk))
                 = Some ((Some <$> (l ++ replicate k 0)) ++ drop k junk)).
    { case_decide.
      - replace (Z.to_nat (pos - zlen l)) with k by lia. apply zero_cells_spec; [done|lia].
      - replace k with 0%nat by lia. by rewrite app_nil_r. }
    rewrite Hz. simpl. destruct (drop k junk) as [|x junk'] eqn:Hd.
    { apply (f_equal length) in Hd. rewrite length_drop in Hd. simpl in Hd. lia. }
    assert (length junk = k + S (length junk'))%nat.
    { apply (f_equal length) in Hd. rewrite length_drop in Hd. simpl in Hd. lia. }
    rewrite storez_mid by (rewrite length_fmap, length_app, length_replicate; lia). simpl.
    eexists. split; [done|]. apply (repr_intro _ _ _ _ junk').
    + by rewrite !fmap_app, <- !app_assoc.
    + rewrite u32_id, !length_app, length_replicate by lia. simpl. lia.
    + rewrite length_app, length_fmap, length_app, length_replicate. simpl. lia.
Qed.

(** Enough room below the width of [unsigned]. *)
Definition small (n : Z) : Prop := 2 * n + 2 < 2 ^ 32.

Lemma idvec_insert_spec v l pos id :
  repr v l → 0 ≤ pos → small (Z.max pos (zlen l)) →
  op_spec (idvec_insert pos id) v (λ v', repr v' (insert_at pos id l)) (λ e v', e = ENOMEM ∧ v' = v).
Proof.
  intros Hv Hp Hs. unfold small in Hs. pose proof Hv as [_ [Hn _]]. unfold idvec_insert, op_spec.
  set (new_num := u32 (if decide (pos < num v) then _ else _)).
  assert (Hnew : zlen l + 1 ≤ new_num ∧ pos + 1 ≤ new_num ∧ new_num ≤ Z.max pos (zlen l) + 1).
  { unfold new_num. rewrite Hn. case_decide; rewrite u32_id; lia. }
  apply (op_spec_seq _ _ _ (λ v', repr v' l ∧ new_num ≤ alloced v')).
  - eapply op_spec_weaken; [by apply idvec_ensure_spec| |done]. simpl.
    intros v' [? Ha]. split; [done|]. revert Ha. case_decide; [rewrite u32_id|]; lia.
  - intros v' [Hv' Ha]. apply op_spec_lift. apply insert_cells_spec; [done|done|lia..].
Qed.

Lemma idvec_add_spec v l id :
  repr v l → small (zlen l) →
  op_spec (idvec_add id) v (λ v', repr v' (l ++ [id])) (λ e v', e = ENOMEM ∧ v' = v).
Proof.
  intros Hv Hs. unfold idvec_add, op_spec. pose proof Hv as [_ [-> _]].
  eapply op_spec_weaken; [apply (idvec_insert_spec v l); [done|lia|]| |done].
  - unfold small in *. lia.
  - intros v'. rewrite insert_at_ge by lia. by replace (_ - _)%nat with 0%nat by lia.
Qed.

Definition add_new (l : list Z) (id : Z) : list Z := if decide (id ∈ l) then l else l ++ [id].

Lemma idvec_add_new_spec v l id :
  repr v l → small (zlen l) →
  op_spec (idvec_add_new id) v (λ v', repr v' (add_new l id)) (λ e v', e = ENOMEM ∧ v' = v).
Proof.
  intros Hv Hs o. unfold idvec_add_new, add_new.
  rewrite (idvec_contains_spec v l) by by apply repr_reads. simpl. case_decide as Hin.
  - rewrite bool_decide_true by done. exists E0, v, o. auto.
  - rewrite bool_decide_false by done. by apply idvec_add_spec.
Qed.

Lemma idvec_set_ids_spec v l k :
  repr v l → op_spec (idvec_set_ids k) v (λ v', repr v' k) (λ e v', e = ENOMEM ∧ v' = v).
Proof.
  intros Hv. eapply op_spec_seq; [by apply idvec_ensure_spec|].
  intros v' [[Ha [_ [junk Hv']]] Hk]. apply op_spec_lift. unfold copy_ids.
  rewrite decide_True by lia. eexists. split; [done|].
  apply (repr_intro _ _ _ _ (drop (length k) (ids v'))); [done|done|].
  rewrite length_app, length_fmap, length_drop. lia.
Qed.

Lemma idvec_set_spec v l new k :
  repr v l → reads new k → op_spec (idvec_set new) v (λ v', repr v' k) (λ e v', e = ENOMEM ∧ v' = v).
Proof.
  intros Hv Hk o. unfold idvec_set. rewrite (read_ids_reads new k Hk). simpl.
  by apply (idvec_set_ids_spec v l).
Qed.

(** Merging appends the ids that were not in the vector before. *)
Lemma merge_ids_loop_spec v l0 l k :
  repr v (l0 ++ l) → small (zlen l0 + zlen l + zlen k) →
  op_spec (merge_loop (zlen l0) k) v (λ v', repr v' (l0 ++ l ++ filter (λ x, x ∉ l0) k))
    (λ e v', e = ENOMEM ∧ ∃ l', repr v' (l0 ++ l ++ l') ∧ l' `prefix_of` filter (λ x, x ∉ l0) k).
Proof.
  revert v l. induction k as [|id k IH]; intros v l Hv Hs o; simpl.
  { exists E0, v, o. rewrite app_nil_r. auto. }
  rewrite old_contains_eq, Nat2Z.id, (contains_loop_spec v (l0 ++ l))
    by (try apply Hv; rewrite ?length_app; lia).
  change (Z.to_nat 0) with 0%nat. rewrite drop_0, take_app_length. simpl.
  destruct (decide (id ∈ l0)) as [Hin|Hin].
  - rewrite bool_decide_true by done. rewrite filter_cons_False by tauto.
    apply IH; [done|]. unfold small in *. simpl in *. lia.
  - rewrite bool_decide_false by done. rewrite filter_cons_True by done. revert o.
    change (op_spec (idvec_add id ;;? merge_loop (zlen l0) k) v
      (λ v', repr v' (l0 ++ l ++ id :: filter (λ x, x ∉ l0) k))
      (λ e v', e = ENOMEM ∧ ∃ l', repr v' (l0 ++ l ++ l') ∧ l' `prefix_of` id :: filter (λ x, x ∉ l0) k)).
    eapply op_spec_seq.
    + eapply op_spec_weaken; [apply idvec_add_spec; [done|]|intros v1 H1; exact H1|].
      * unfold small in *. rewrite length_app. simpl in *. lia.
      * simpl. intros e v' [-> ->]. split; [done|]. exists []. rewrite app_nil_r. split; [done|]. apply prefix_nil.
    + intros v1 Hv1. rewrite <- app_assoc in Hv1.
      eapply op_spec_weaken; [apply (IH v1 (l ++ [id])); [done|]| |].
      * unfold small in *. rewrite length_app. simpl in *. lia.
      * simpl. intros v2. by rewrite <- app_assoc.
      * simpl. intros e v2 [-> (l' & H2 & Hpre)]. split; [done|]. exists (id :: l').
        split; [by rewrite <- app_assoc in H2|]. by apply prefix_cons.
Qed.

Lemma idvec_merge_ids_spec v l k :
  repr v l → small (zlen l + zlen k) →
  op_spec (idvec_merge_ids k) v (λ v', repr v' (l ++ filter (λ x, x ∉ l) k))
    (λ e v', e = ENOMEM ∧ ∃ l', repr v' (l ++ l') ∧ l' `prefix_of` filter (λ x, x ∉ l) k).
Proof.
  intros Hv Hs. unfold idvec_merge_ids, op_spec. rewrite (proj1 (repr_reads v l Hv)).
  apply (merge_ids_loop_spec v l [] k).
  - by rewrite app_nil_r.
  - unfold small in *. simpl. lia.
Qed.

Lemma idvec_merge_spec v l new k :
  repr v l → reads new k → small (zlen l + zlen k) →
  op_spec (idvec_merge new) v (λ v', repr v' (l ++ filter (λ x, x ∉ l) k))
    (λ e v', e = ENOMEM ∧ ∃ l', repr v' (l ++ l') ∧ l' `prefix_of` filter (λ x, x ∉ l) k).
Proof.
  intros Hv Hk Hs o. unfold idvec_merge. rewrite (read_ids_reads new k Hk). simpl.
  by apply idvec_merge_ids_spec.
Qed.

(** ** Removal *)

Lemma remove_loop_spec left l1 mid l2 junk i t id :
  t = zlen l1 → i = zlen l1 + zlen mid → left = length l2 →
  ∃ mid', remove_loop left ((Some <$> l1) ++ mid ++ (Some <$> l2) ++ junk) i t id
  = Some ((Some <$> (l1 ++ filter (λ x, x ≠ id) l2)) ++ mid' ++ junk,
          zlen (l1 ++ filter (λ x, x ≠ id) l2))
  ∧ (length mid' + length (filter (λ x, x ≠ id) l2) = length mid + length l2)%nat.
Proof.
  revert l1 mid i t left. induction l2 as [|x l2 IH]; intros l1 mid i t left Ht Hi Hl; subst left; simpl.
  { exists mid. rewrite !app_nil_r, Ht. done. }
  rewrite app_assoc, (lookupz_mid ((Some <$> l1) ++ mid))
    by (rewrite length_app, length_fmap; lia). simpl.
  case_decide as E.
  - subst x. rewrite filter_cons_False by tauto.
    destruct (IH l1 (mid ++ [Some id]) (i + 1) t (length l2)) as (mid' & H & Hm);
      [done|rewrite length_app; simpl; lia|done|].
    exists mid'. rewrite <- !app_assoc in *. simpl in *. split; [done|].
    rewrite length_app in Hm. simpl in Hm. lia.
  - rewrite filter_cons_True by done. destruct mid as [|y mid].
    + rewrite decide_True by (simpl in Hi; lia). simpl. rewrite app_nil_r.
      destruct (IH (l1 ++ [x]) [] (i + 1) (t + 1) (length l2)) as (mid' & H & Hm);
        [rewrite length_app; simpl in *; lia..|done|].
      exists mid'. rewrite (fmap_app Some l1 [x]), <- !app_assoc in H. simpl in H.
      split; [exact H|simpl in Hm |- *; lia].
    + rewrite decide_False by (simpl in Hi; lia). rewrite <- app_assoc. simpl.
      rewrite storez_mid by (by rewrite length_fmap). simpl.
      destruct (IH (l1 ++ [x]) (mid ++ [Some x]) (i + 1) (t + 1) (length l2)) as (mid' & H & Hm);
        [rewrite !length_app; simpl in *; lia..|done|].
      exists mid'. rewrite (fmap_app Some l1 [x]), <- !app_assoc in H. simpl in H.
      split; [exact H|]. rewrite length_app in Hm. simpl in Hm |- *. lia.
Qed.

Lemma filter_ne_length id (l : list Z) :
  length (filter (λ x, x ≠ id) l) = length l ↔ id ∉ l.
Proof.
  induction l as [|x l IH]; simpl.
  - split; [by intros _ ?%elem_of_nil|done].
  - pose proof (length_filter (λ x, x ≠ id) l). rewrite filter_cons. case_decide as E; simpl.
    + rewrite not_elem_of_cons. split; [intros ?; split; [congruence|apply IH; lia]|].
      intros [_ ?%IH]. lia.
    + split; [lia|]. intros []. apply elem_of_cons. left. by destruct (decide (x = id)).
Qed.

Lemma idvec_remove_spec v l pos id :
  repr v l → 0 ≤ pos →
  ∃ v', idvec_remove pos id v = Some (v', bool_decide (id ∈ drop (Z.to_nat pos) l))
    ∧ repr v' (take (Z.to_nat pos) l ++ filter (λ x, x ≠ id) (drop (Z.to_nat pos) l)).
Proof.
  intros [Ha [Hn [junk Hv]]] Hp. unfold idvec_remove. rewrite Hn. case_decide as Hlt.
  - set (l1 := take (Z.to_nat pos) l). set (l2 := drop (Z.to_nat pos) l).
    assert (Hl : l = l1 ++ l2) by (symmetry; apply take_drop).
    assert (H1 : length l1 = Z.to_nat pos) by (unfold l1; rewrite length_take; lia).
    assert (H2 : length l = (length l1 + length l2)%nat) by by rewrite Hl, length_app.
    destruct (remove_loop_spec (Z.to_nat (zlen l - pos)) l1 [] l2 junk pos pos id)
      as (mid & Hr & Hm); [simpl; lia..|].
    assert (Hids : ids v = (Some <$> l1) ++ [] ++ (Some <$> l2) ++ junk).
    { rewrite Hv. simpl. rewrite app_assoc, <- fmap_app. by rewrite <- Hl. }
    rewrite Hids, Hr. simpl. rewrite Hids, !length_app, !length_fmap in Ha. simpl in Ha, Hm.
    rewrite length_app. pose proof (filter_ne_length id l2) as Hf.
    assert (Hr' : ∀ n, n = zlen (l1 ++ filter (λ x, x ≠ id) l2) →
      repr (mk_idvec ((Some <$> l1 ++ filter (λ x, x ≠ id) l2) ++ mid ++ junk) n (alloced v))
        (l1 ++ filter (λ x, x ≠ id) l2)).
    { intros n ->. apply (repr_intro _ _ _ _ (mid ++ junk)); [done|done|].
      rewrite !length_app, length_fmap, length_app. lia. }
    rewrite length_app in Hr'. case_decide as Heq; eexists.
    + rewrite bool_decide_false by (apply Hf; lia). split; [done|]. apply Hr'. lia.
    + rewrite bool_decide_true; [split; [done|]; by apply Hr'|].
      destruct (decide (id ∈ l2)); [done|]. assert (length (filter (λ x, x ≠ id) l2) = length l2)
        by by apply Hf. lia.
  - exists v. rewrite drop_ge, take_ge by lia. rewrite app_nil_r. split; [done|].
    split; [done|]. split; [done|]. by exists junk.
Qed.

Lemma idvec_remove0_spec v l id :
  repr v l →
  ∃ v', idvec_remove 0 id v = Some (v', bool_decide (id ∈ l)) ∧ repr v' (filter (λ x, x ≠ id) l).
Proof. intros Hv. by apply (idvec_remove_spec v l 0 id). Qed.

Lemma subtract_loop_spec v l k d :
  repr v l →
  ∃ v' d', subtract_loop k v d = Some (v', d') ∧ repr v' (filter (λ x, x ∉ k) l)
    ∧ (d' = true ↔ d = true ∨ ∃ x, x ∈ k ∧ x ∈ l).
Proof.
  revert v l d. induction k as [|id k IH]; intros v l d Hv; simpl.
  - exists v, d. split; [done|]. split.
    + rewrite (list_filter_iff _ (λ _, True)); [|intros x; by rewrite elem_of_nil; naive_solver].
      assert (filter (λ _ : Z, True) l = l) as ->; [|done].
      clear. induction l as [|x l IH]; [done|]. rewrite filter_cons_True by done. by rewrite IH.
    + split; [auto|]. intros [?|(x & ?%elem_of_nil & _)]; done.
  - destruct (idvec_remove0_spec v l id Hv) as (v1 & -> & H1). simpl.
    destruct (IH v1 _ (d || bool_decide (id ∈ l)) H1) as (v' & d' & -> & H' & Hd).
    exists v', d'. split; [done|]. split.
    + rewrite list_filter_filter in H'. erewrite list_filter_iff; [exact H'|].
      intros x. rewrite not_elem_of_cons. naive_solver.
    + rewrite Hd, orb_true_iff, bool_decide_eq_true. setoid_rewrite list_elem_of_filter.
      setoid_rewrite elem_of_cons. split.
      * intros [[?|?]|(x & ? & _ & ?)]; [by left|right; exists id; auto|right; exists x; auto].
      * intros [?|(x & [->|?] & ?)]; [by left; left|by left; right|].
        destruct (decide (x = id)) as [->|]; [by left; right|]. right. by exists x.
Qed.

Lemma idvec_subtract_spec v l sub k :
  repr v l → reads sub k →
  ∃ v' d, idvec_subtract sub v = Some (v', d) ∧ repr v' (filter (λ x, x ∉ k) l)
    ∧ (d = true ↔ ∃ x, x ∈ k ∧ x ∈ l).
Proof.
  intros Hv Hk. unfold idvec_subtract. rewrite (read_ids_reads sub k Hk). simpl.
  destruct (subtract_loop_spec v l k false Hv) as (v' & d & -> & H & Hd).
  exists v', d. split; [done|]. split; [done|]. rewrite Hd. naive_solver.
Qed.

Lemma keep_loop_spec keep k left l1 mid l2 junk old new :
  reads keep k → new = zlen l1 → old = zlen l1 + zlen mid → left = length l2 →
  ∃ mid', keep_loop left ((Some <$> l1) ++ mid ++ (Some <$> l2) ++ junk) old new keep
  = Some ((Some <$> (l1 ++ filter (λ x, x ∈ k) l2)) ++ mid' ++ junk,
          zlen (l1 ++ filter (λ x, x ∈ k) l2))
  ∧ (length mid' + length (filter (λ x, x ∈ k) l2) = length mid + length l2)%nat.
Proof.
  intros Hk. revert l1 mid old new left.
  induction l2 as [|x l2 IH]; intros l1 mid old new left Hnew Hold Hl; subst left; simpl.
  { exists mid. rewrite !app_nil_r, Hnew. done. }
  change (list_fmap Z (option Z) Some l2) with (Some <$> l2).
  rewrite app_assoc, (lookupz_mid ((Some <$> l1) ++ mid))
    by (rewrite length_app, length_fmap; lia). simpl.
  rewrite (idvec_contains_spec keep k) by done. simpl. destruct (decide (x ∈ k)) as [Hx|Hx].
  - rewrite bool_decide_true, filter_cons_True by done.
    assert (∃ mid1, length mid1 = length mid ∧
      storez new (Some x) (((Some <$> l1) ++ mid) ++ Some x :: (Some <$> l2) ++ junk)
      = Some ((Some <$> (l1 ++ [x])) ++ mid1 ++ (Some <$> l2) ++ junk)) as (mid1 & Hm1 & Hst).
    { rewrite <- app_assoc. destruct mid as [|y mid]; simpl.
      - exists []. split; [done|]. rewrite storez_mid by by rewrite length_fmap.
        by rewrite fmap_app, <- app_assoc.
      - exists (mid ++ [Some x]). split; [rewrite length_app; simpl; lia|].
        rewrite storez_mid by by rewrite length_fmap. by rewrite fmap_app, <- !app_assoc. }
    rewrite Hst. simpl.
    destruct (IH (l1 ++ [x]) mid1 (old + 1) (new + 1) (length l2)) as (mid' & H & Hm);
      [rewrite ?length_app; simpl in *; lia..|done|].
    exists mid'. rewrite <- (app_assoc l1) in H. simpl in H. split; [exact H|simpl; lia].
  - rewrite bool_decide_false, filter_cons_False by done.
    destruct (IH l1 (mid ++ [Some x]) (old + 1) new (length l2)) as (mid' & H & Hm);
      [done|rewrite length_app; simpl; lia|done|].
    exists mid'. rewrite <- !app_assoc in *. simpl in *. split; [done|].
    rewrite length_app in Hm. simpl in Hm. lia.
Qed.

Lemma filter_in_length (k l : list Z) :
  length (filter (λ x, x ∈ k) l) = length l ↔ ∀ x, x ∈ l → x ∈ k.
Proof.
  induction l as [|x l IH]; simpl.
  - split; [by intros _ x ?%elem_of_nil|done].
  - pose proof (length_filter (λ x, x ∈ k) l). rewrite filter_cons. case_decide as E; simpl.
    + split.
      * intros Hl y [->|?]%elem_of_cons; [done|]. apply IH; [lia|done].
      * intros Hy. f_equal. apply IH. intros y ?. apply Hy. by right.
    + split; [lia|]. intros Hy. destruct E. apply Hy. by left.
Qed.

Lemma idvec_keep_spec v l keep k :
  repr v l → reads keep k →
  ∃ v' d, idvec_keep keep v = Some (v', d) ∧ repr v' (filter (λ x, x ∈ k) l)
    ∧ (d = false ↔ ∀ x, x ∈ l → x ∈ k).
Proof.
  intros [Ha [Hn [junk Hv]]] Hk. unfold idvec_keep. rewrite Hn, Hv, Nat2Z.id.
  destruct (keep_loop_spec keep k (length l) [] [] l junk 0 0) as (mid & Hr & Hm);
    [done|done|done|done|].
  simpl in Hr, Hm. rewrite Hr. simpl.
  rewrite Hv, length_app, length_fmap in Ha.
  case_decide; eexists _, _; (split; [done|]); rewrite <- filter_in_length.
  - split; [|split; [lia|done]]. apply (repr_intro _ _ _ _ (mid ++ junk)); [done|done|].
    rewrite !length_app, length_fmap. lia.
  - split; [|split; [done|lia]]. apply (repr_intro _ _ _ _ (mid ++ junk)); [done|done|].
    rewrite !length_app, length_fmap. lia.
Qed.

Lemma idvec_delete_spec v l pos :
  repr v l → 0 ≤ pos →
  ∃ v', idvec_delete pos v = Some v' ∧ repr v' (delete (Z.to_nat pos) l).
Proof.
  intros [Ha [Hn [junk Hv]]] Hp. unfold idvec_delete. rewrite Hn, Hv. case_decide as Hlt.
  - destruct (lookupz_is_Some l pos) as [x Hx]; [lia|]. unfold lookupz in Hx.
    rewrite decide_True in Hx by lia. pose proof (take_drop_middle l _ x Hx) as Hl.
    set (l1 := take (Z.to_nat pos) l) in *. set (l2 := drop (S (Z.to_nat pos)) l) in *.
    assert (H1 : length l1 = Z.to_nat pos) by (unfold l1; rewrite length_take; lia).
    assert (H2 : length l = (length l1 + S (length l2))%nat) by by rewrite <- Hl, length_app.
    assert (Hdel : delete (Z.to_nat pos) l = l1 ++ l2) by apply delete_take_drop.
    assert (∃ z, (if decide (pos < zlen l - 1)
                  then memmove pos (pos + 1) (zlen l - 1 - pos) ((Some <$> l) ++ junk)
                  else Some ((Some <$> l) ++ junk)) = Some ((Some <$> (l1 ++ l2)) ++ z :: junk))
      as [z Hz].
    { rewrite <- Hl, !fmap_app, fmap_cons, <- app_assoc. simpl. case_decide as Hm.
      - destruct (memmove_down (Some <$> l1) (Some <$> l2) junk (Some x) pos (pos + 1)
          (zlen (l1 ++ x :: l2) - 1 - pos)) as [z Hz]; [rewrite ?length_fmap, ?length_app; simpl; lia..|].
        exists z. rewrite Hz. by rewrite <- app_assoc.
      - exists (Some x). rewrite length_app in Hm. simpl in Hm.
        destruct l2; [simpl; by rewrite app_nil_r|simpl in Hm; lia]. }
    rewrite Hz. simpl. eexists. split; [done|]. rewrite Hdel.
    apply (repr_intro _ _ _ _ (z :: junk)); [done|rewrite length_app; lia|].
    rewrite Hv, length_app, length_fmap in Ha. rewrite length_app, length_fmap, length_app. simpl. lia.
  - exists v. split; [done|]. rewrite delete_take_drop, take_ge, drop_ge, app_nil_r by lia.
    split; [done|]. split; [done|]. by exists junk.
Qed.

(** ** Placing an id *)

(** What [idvec_insert_only] makes of a list. *)
Definition removed (pos id : Z) (l : list Z) : list Z :=
  take (Z.to_nat pos) l ++ filter (λ x, x ≠ id) (drop (Z.to_nat pos) l).
Definition insert_only (pos id : Z) (l : list Z) : list Z :=
  if decide (l !z pos = Some id) then l else insert_at pos id (removed pos id l).

Lemma removed_length pos id l : zlen (removed pos id l) ≤ zlen l.
Proof.
  unfold removed. rewrite length_app, length_take.
  pose proof (length_filter (λ x, x ≠ id) (drop (Z.to_nat pos) l)) as H.
  rewrite length_drop in H. lia.
Qed.

Lemma idvec_insert_only_spec v l pos id :
  repr v l → 0 ≤ pos → small (Z.max pos (zlen l)) →
  op_spec (idvec_insert_only pos id) v (λ v', repr v' (insert_only pos id l))
    (λ e v', e = ENOMEM ∧ repr v' (removed pos id l)).
Proof.
  intros Hv Hp Hs o. unfold idvec_insert_only, insert_only.
  assert ((if decide (pos < num v) then x ← get_id v pos; Some (bool_decide (x = id)) else Some false)
          = Some (bool_decide (l !z pos = Some id))) as ->.
  { rewrite (proj1 (repr_reads v l Hv)). case_decide as Hlt.
    - destruct (lookupz_is_Some l pos) as [x Hx]; [lia|].
      rewrite (get_id_reads v l pos x), Hx by (done || by apply repr_reads). simpl.
      f_equal. apply bool_decide_ext. split; congruence.
    - rewrite bool_decide_false; [done|]. intros ?%lookupz_lt. lia. }
  simpl. case_decide as Hsame.
  - rewrite bool_decide_true by done. exists E0, v, o. auto.
  - rewrite bool_decide_false by done.
    destruct (idvec_remove_spec v l pos id Hv Hp) as (v1 & -> & Hv1). simpl.
    fold (removed pos id l) in Hv1. revert o. eapply op_spec_weaken.
    + apply (idvec_insert_spec v1); [done..|]. pose proof (removed_length pos id l).
      unfold small in *. lia.
    + done.
    + by intros e v' [-> ->].
Qed.

Lemma elem_of_removed pos id l x : 0 ≤ pos → x ∈ removed pos id l → x ∈ l.
Proof.
  intros Hp. unfold removed. rewrite elem_of_app, list_elem_of_filter.
  rewrite <- (take_drop (Z.to_nat pos) l) at 3. rewrite elem_of_app. tauto.
Qed.

Lemma elem_of_removed_ne pos id l x : x ∈ l → x ≠ id → x ∈ removed pos id l.
Proof.
  intros Hx Hne. unfold removed. rewrite elem_of_app, list_elem_of_filter.
  rewrite <- (take_drop (Z.to_nat pos) l), elem_of_app in Hx. tauto.
Qed.

Lemma elem_of_insert_at pos id l x :
  0 ≤ pos ≤ zlen l → x ∈ insert_at pos id l ↔ x = id ∨ x ∈ l.
Proof.
  intros Hp. rewrite insert_at_lt by lia. rewrite elem_of_app, elem_of_cons.
  rewrite <- (take_drop (Z.to_nat pos) l) at 3. rewrite elem_of_app. tauto.
Qed.

Lemma insert_only_1 id l x : l ≠ [] → x ∈ insert_only 1 id l ↔ x = id ∨ x ∈ l.
Proof.
  intros Hl. unfold insert_only. case_decide as Hs.
  - apply lookupz_elem_of in Hs. naive_solver.
  - rewrite elem_of_insert_at.
    + split; [intros [?|?%elem_of_removed]; auto; lia|].
      intros [?|?]; [by left|]. destruct (decide (x = id)); [by left|right].
      by apply elem_of_removed_ne.
    + destruct l as [|y l]; [done|]. unfold removed. simpl. lia.
Qed.

Lemma add_new_elem l id x : x ∈ add_new l id ↔ x = id ∨ x ∈ l.
Proof.
  unfold add_new. case_decide; [naive_solver|]. rewrite elem_of_app, list_elem_of_singleton. tauto.
Qed.

Lemma add_new_length l id : zlen l ≤ zlen (add_new l id) ≤ zlen l + 1.
Proof. unfold add_new. case_decide; [lia|]. rewrite length_app. simpl. lia. Qed.

Lemma add_new_nonempty l id : add_new l id ≠ [].
Proof. unfold add_new. case_decide as H; [by intros ->; apply elem_of_nil in H|]. by destruct l. Qed.

Lemma set_id0_spec v x l id :
  repr v (x :: l) → ∃ v', set_id 0 id v = Some v' ∧ repr v' (id :: l).
Proof.
  intros [Ha [Hn [junk Hv]]]. unfold set_id. rewrite Hv, fmap_cons.
  change ((Some x :: (Some <$> l)) ++ junk) with (Some x :: (Some <$> l) ++ junk).
  change (Some x :: (Some <$> l) ++ junk) with ([] ++ Some x :: (Some <$> l) ++ junk).
  rewrite storez_mid by done. simpl. eexists. split; [done|].
  apply (repr_intro _ _ _ _ junk); [done|done|]. by rewrite Ha, Hv.
Qed.

(** The first half of [idvec_setid]: [id] becomes the first effective id. *)
Lemma setid_eff_spec id eff avail le la o :
  repr eff le → repr avail la → small (zlen la + 1) → small (zlen le) →
  ∃ err eff1 avail1 o1,
    (if decide (0 < num eff) then
       e0 ← get_id eff 0;
       '(err, avail1, o1) ← idvec_add_new e0 avail o;
       if decide (err = E0) then eff1 ← set_id 0 id eff; Some (E0, eff1, avail1, o1)
       else Some (err, eff, avail1, o1)
     else '(err, eff1, o1) ← idvec_add id eff o; Some (err, eff1, avail, o1))
    = Some (err, eff1, avail1, o1) ∧ (o = [] → o1 = [] ∧ err ≠ ENOMEM)
    ∧ ((err = E0 ∧ repr eff1 (id :: tail le)
        ∧ repr avail1 (match le with [] => la | e0 :: _ => add_new la e0 end))
       ∨ (err = ENOMEM ∧ eff1 = eff ∧ avail1 = avail)).
Proof.
  intros He Ha Hs1 Hs2. pose proof (proj1 (repr_reads _ _ He)) as Hn. rewrite Hn.
  destruct le as [|e0 le]; simpl.
  - destruct (idvec_add_spec eff [] id He Hs2 o) as (err & eff1 & o1 & -> & Ho & Hp). simpl.
    exists err, eff1, avail, o1. split; [done|]. split; [done|].
    destruct Hp as [[-> ?]|[? [-> ->]]]; [left|right]; auto.
  - rewrite (get_id_reads eff (e0 :: le) 0 e0) by (done || by apply repr_reads).
    simpl. destruct (idvec_add_new_spec avail la e0 Ha) with (o := o)
      as (err & avail1 & o1 & -> & Ho & Hp); [unfold small in *; lia|]. simpl.
    destruct Hp as [[-> Hav]|[Hne [-> ->]]].
    + destruct (set_id0_spec eff e0 le id He) as (eff1 & -> & He1).
      exists E0, eff1, avail1, o1. do 2 (split; [done|]). by left.
    + exists ENOMEM, eff, avail, o1. do 2 (split; [done|]). by right.
Qed.

(** ** Properties *)

(** Merging a vector into another one keeps the ids of the target and
    appends, in order, those of the source that were not among them; it reads
    no uninitialised cell and stores nothing outside the array.  When memory
    runs out only a prefix of the new ids was appended. *)
Theorem idvec_merge_correct v l new k :
  repr v l → reads new k → small (zlen l + zlen k) →
  op_spec (idvec_merge new) v (λ v', repr v' (l ++ filter (λ x, x ∉ l) k))
    (λ e v', e = ENOMEM ∧ ∃ l', repr v' (l ++ l') ∧ l' `prefix_of` filter (λ x, x ∉ l) k).
Proof. apply idvec_merge_spec. Qed.

Lemma idvec_merge_correct_witness :
  op_spec (idvec_merge (const_idvec [1; 2])) IDVEC_INIT (λ v', repr v' [1; 2]) (λ _ _, True).
Proof.
  eapply op_spec_weaken.
  - apply (idvec_merge_correct IDVEC_INIT [] (const_idvec [1; 2]) [1; 2]).
    + exact repr_init.
    + apply reads_const.
    + unfold small. simpl. lia.
  - intros v'. simpl. auto.
  - done.
Defined.

(** [idvec_subtract] and [idvec_keep] are set difference and
    intersection on vectors, keep the order, and their results tell whether
    anything was removed. *)
Theorem idvec_subtract_keep_correct v l other k :
  repr v l → reads other k →
  (∃ v' d, idvec_subtract other v = Some (v', d) ∧ repr v' (filter (λ x, x ∉ k) l)
     ∧ (d = true ↔ ∃ x, x ∈ k ∧ x ∈ l))
  ∧ (∃ v' d, idvec_keep other v = Some (v', d) ∧ repr v' (filter (λ x, x ∈ k) l)
     ∧ (d = false ↔ ∀ x, x ∈ l → x ∈ k)).
Proof. intros Hv Hk. split; [by apply idvec_subtract_spec|by apply idvec_keep_spec]. Qed.

Lemma repr_three : repr (mk_idvec [Some 1; Some 2; Some 1; None] 3 4) [1; 2; 1].
Proof. by apply (repr_intro _ _ _ _ [None]). Qed.

Lemma idvec_subtract_keep_correct_witness :
  ∃ v' d, idvec_subtract (const_idvec [1]) (mk_idvec [Some 1; Some 2; Some 1; None] 3 4)
          = Some (v', d) ∧ repr v' [2].
Proof.
  destruct (idvec_subtract_keep_correct _ [1; 2; 1] (const_idvec [1]) [1] repr_three (reads_const [1]))
    as [(v' & d & H & Hr & _) _].
  exists v', d. split; [exact H|exact Hr].
Defined.

(** [idvec_setid] on success makes [id] the first effective id and loses
    no id: the ids in the two vectors are the old ones and [id].  It reports a
    security change exactly when [id] was in neither vector. *)
Theorem idvec_setid_correct id eff avail le la :
  repr eff le → repr avail la → small (zlen la + 1) → small (zlen le) →
  ∃ eff' avail' secure le' la',
    idvec_setid id eff avail [] = Some (E0, eff', avail', secure, [])
    ∧ repr eff' le' ∧ repr avail' la' ∧ head le' = Some id
    ∧ (∀ x, x ∈ le' ∨ x ∈ la' ↔ x = id ∨ x ∈ le ∨ x ∈ la)
    ∧ (secure = true ↔ (id ∉ le) ∧ (id ∉ la)).
Proof.
  intros He Ha Hs1 Hs2. unfold idvec_setid.
  rewrite (idvec_contains_spec eff le) by by apply repr_reads. simpl.
  assert ((if bool_decide (id ∈ le) then Some true else idvec_contains avail id)
          = Some (bool_decide (id ∈ le ∨ id ∈ la))) as ->.
  { case_bool_decide; [by rewrite bool_decide_true by auto|].
    rewrite (idvec_contains_spec avail la) by by apply repr_reads. f_equal.
    apply bool_decide_ext. tauto. }
  simpl. destruct (setid_eff_spec id eff avail le la [] He Ha Hs1 Hs2)
    as (err & eff1 & avail1 & o1 & -> & Ho & Hp).
  destruct Ho as [-> Hne]; [done|]. destruct Hp as [(-> & He1 & Ha1)|(? & _)]; [|done].
  set (la1 := match le with [] => la | e0 :: _ => add_new la e0 end) in *.
  assert (Hla1 : zlen la1 ≤ zlen la + 1).
  { unfold la1. destruct le as [|e0 le]; [lia|]. pose proof (add_new_length la e0). lia. }
  assert (Hin1 : ∀ x, x ∈ id :: tail le ∨ x ∈ la1 ↔ x = id ∨ x ∈ le ∨ x ∈ la).
  { intros x. unfold la1. rewrite elem_of_cons. destruct le as [|e0 le]; simpl.
    - rewrite elem_of_nil. tauto.
    - rewrite add_new_elem, elem_of_cons. tauto. }
  assert (Hsec : ∀ b, b = true → negb (bool_decide (id ∈ le ∨ id ∈ la)) && b = true
                        ↔ (id ∉ le) ∧ (id ∉ la)).
  { intros b ->. rewrite andb_true_r, negb_true_iff, bool_decide_eq_false. tauto. }
  simpl. rewrite (proj1 (repr_reads _ _ Ha1)).
  destruct (decide (0 < zlen la1 ∧ E0 = E0)) as [Hc|Hc].
  - destruct (idvec_insert_only_spec avail1 la1 1 id Ha1) with (o := @nil bool)
      as (err2 & avail2 & o2 & -> & Ho2 & Hp2); [lia|unfold small in *; lia|]. simpl.
    destruct Ho2 as [-> Hne2]; [done|]. destruct Hp2 as [[-> Ha2]|[_ [? _]]]; [|done].
    eexists eff1, avail2, _, (id :: tail le), (insert_only 1 id la1).
    split; [done|]. do 2 (split; [done|]). split; [done|]. split; [|by apply Hsec].
    intros x. rewrite insert_only_1 by by intros Hn; rewrite Hn in Hc; simpl in Hc; lia.
    rewrite <- Hin1, elem_of_cons. tauto.
  - eexists eff1, avail1, _, (id :: tail le), la1.
    split; [done|]. do 2 (split; [done|]). split; [done|]. split; [done|by apply Hsec].
Qed.

Lemma repr_one : repr (mk_idvec [Some 7] 1 1) [7].
Proof. by apply (repr_intro _ _ _ _ []). Qed.

Lemma idvec_setid_correct_witness :
  ∃ eff' avail' secure,
    idvec_setid 0 (mk_idvec [Some 7] 1 1) (mk_idvec [Some 7] 1 1) []
    = Some (E0, eff', avail', secure, []) ∧ secure = true.
Proof.
  destruct (idvec_setid_correct 0 (mk_idvec [Some 7] 1 1) (mk_idvec [Some 7] 1 1) [7] [7])
    as (eff' & avail' & secure & le' & la' & H & _ & _ & _ & _ & Hs).
  - exact repr_one.
  - exact repr_one.
  - unfold small. simpl. lia.
  - unfold small. simpl. lia.
  - exists eff', avail', secure. split; [exact H|]. apply Hs. set_solver.
Defined.

(** A merge compares new ids with the old ones only: merging the ids 5
    and 5 into an empty vector stores both, while adding them one after the
    other with [idvec_add_new] stores one. *)
Theorem idvec_merge_keeps_duplicates :
  (∃ v, idvec_merge_ids [5; 5] IDVEC_INIT [] = Some (E0, v, []) ∧ repr v [5; 5])
  ∧ ∃ v, (idvec_add_new 5 ;;? idvec_add_new 5) IDVEC_INIT [] = Some (E0, v, []) ∧ repr v [5].
Proof.
  split; (eexists; split; [vm_compute; reflexivity|]).
  - by apply (repr_intro _ _ _ _ [None]).
  - by apply (repr_intro _ _ _ _ []).
Qed.

(** A failing [idvec_setid] may have changed the vectors: with the
    effective ids 7 and the available ids 7, setting id 0 without memory for
    the available ids returns ENOMEM and leaves 0 as the effective id. *)
Theorem idvec_setid_error_changes_eff :
  ∃ avail secure,
    idvec_setid 0 (mk_idvec [Some 7] 1 1) (mk_idvec [Some 7] 1 1) [false]
    = Some (ENOMEM, mk_idvec [Some 0] 1 1, avail, secure, []).
Proof. do 2 eexists. vm_compute. reflexivity. Qed.
