(* ===== verification/Ugids.v ===== *)
(** * Sets of user and group ids (src/libshouldbeinlibc/ugids.c, ugids-merge.c,
      ugids-imply.c, ugids-posix.c, ugids-subtract.c, idvec-impgids.c)

    The password and group databases are parameters: [user_groups uid] is
    what [getpwuid] and [getgrouplist] say of a user, [None] for an unknown
    one.  The cache of implied groups is part of the state of the calls that
    use it. *)

From S2P Require Import Prelude Idvec.

(** ** Data *)

(** [struct ugids] *)
Record ugids := mk_ugids {
  eff_uids : idvec;
  eff_gids : idvec;
  avail_uids : idvec;
  avail_gids : idvec;
  imp_eff_gids : idvec;
  imp_avail_gids : idvec
}.

Definition UGIDS_INIT : ugids :=
  mk_ugids IDVEC_INIT IDVEC_INIT IDVEC_INIT IDVEC_INIT IDVEC_INIT IDVEC_INIT.

Definition set_eff_uids (v : idvec) (u : ugids) : ugids :=
  mk_ugids v (eff_gids u) (avail_uids u) (avail_gids u) (imp_eff_gids u) (imp_avail_gids u).
Definition set_avail_uids (v : idvec) (u : ugids) : ugids :=
  mk_ugids (eff_uids u) (eff_gids u) v (avail_gids u) (imp_eff_gids u) (imp_avail_gids u).

(** A pair of a group vector and the vector of its implied groups. *)
Definition eff_groups (u : ugids) : idvec * idvec := (eff_gids u, imp_eff_gids u).
Definition set_eff_groups (g : idvec * idvec) (u : ugids) : ugids :=
  mk_ugids (eff_uids u) g.1 (avail_uids u) (avail_gids u) g.2 (imp_avail_gids u).
Definition avail_groups (u : ugids) : idvec * idvec := (avail_gids u, imp_avail_gids u).
Definition set_avail_groups (g : idvec * idvec) (u : ugids) : ugids :=
  mk_ugids (eff_uids u) (eff_gids u) (avail_uids u) g.1 (imp_eff_gids u) g.2.

(** [if (err) return err;] after a call. *)
Definition try {S T} (r : option (error_t * S * allocs))
    (failed : error_t → allocs → option (error_t * T * allocs))
    (k : S → allocs → option (error_t * T * allocs)) : option (error_t * T * allocs) :=
  '(err, s, o) ← r; if decide (err = E0) then k s o else failed err o.

(** ** Implied groups (idvec-impgids.c) *)

Abbreviation NUM_STATIC_GIDS := 100 (only parsing).

(** [struct uid_implies]: a user and the groups it implies. *)
Abbreviation uid_implies_cache := (list (Z * idvec)) (only parsing).

Fixpoint cache_find (uid : Z) (cache : uid_implies_cache) : option idvec :=
  match cache with
  | [] => None
  | (u, implies) :: cache' => if decide (u = uid) then Some implies else cache_find uid cache'
  end.

Section databases.
Context (user_groups : Z → option (list Z)).

(** [_merge_implied_gids]: the error of the second merge is ignored, as in
    the code. *)
Definition merge_implied_gids_of (uid : Z) : op (idvec * uid_implies_cache) :=
  λ '(implied, cache) o,
  match cache_find uid cache with
  | Some implies =>
      '(err, implied', o') ← idvec_merge implies implied o; Some (err, (implied', cache), o')
  | None =>
      match user_groups uid with
      | None => Some (EINVAL, (implied, cache), o)
      | Some gids =>
          let '(new, o1) := make_idvec o in
          let '(room, o2) := if decide (NUM_STATIC_GIDS < zlen gids) then alloc o1 else (true, o1) in
          match new with
          | Some new =>
              if room : bool then
                try (idvec_merge_ids gids new o2) (λ err o3, Some (err, (implied, cache), o3)) (λ new o3,
                '(_, implied', o4) ← idvec_merge new implied o3;
                let '(ok, o5) := alloc o4 in
                Some (E0, (implied', if ok then (uid, new) :: cache else cache), o5))
              else Some (ENOMEM, (implied, cache), o2)
          | None => Some (ENOMEM, (implied, cache), o2)
          end
      end
  end.

(** The loop of [idvec_merge_implied_gids] goes on after an error and returns
    the first one. *)
Fixpoint merge_implied_loop (uids : list Z) (err : error_t) : op (idvec * uid_implies_cache) :=
  λ s o,
  match uids with
  | [] => Some (err, s, o)
  | uid :: uids' =>
      '(this_err, s', o') ← merge_implied_gids_of uid s o;
      merge_implied_loop uids'
        (if decide (this_err ≠ E0 ∧ err = E0) then this_err else err) s' o'
  end.

Definition idvec_merge_implied_gids (uids : idvec) : op (idvec * uid_implies_cache) := λ s o,
  l ← read_ids (num uids) uids; merge_implied_loop l E0 s o.

(** ** Single ids (ugids.c) *)

Definition make_ugids (o : allocs) : option ugids * allocs :=
  let '(ok, o') := alloc o in (if ok then Some UGIDS_INIT else None, o').

Definition ugids_is_empty (u : ugids) : bool :=
  idvec_is_empty (eff_uids u) && idvec_is_empty (eff_gids u)
  && idvec_is_empty (avail_uids u) && idvec_is_empty (avail_gids u).

Definition andb_opt (a b : option bool) : option bool := x ← a; if x : bool then b else Some false.

Definition ugids_equal (u w : ugids) : option bool :=
  andb_opt (idvec_equal (eff_uids u) (eff_uids w))
    (andb_opt (idvec_equal (eff_gids u) (eff_gids w))
      (andb_opt (idvec_equal (avail_uids u) (avail_uids w))
        (andb_opt (idvec_equal (avail_gids u) (avail_gids w))
          (andb_opt (idvec_equal (imp_eff_gids u) (imp_eff_gids w))
            (idvec_equal (imp_avail_gids u) (imp_avail_gids w)))))).

Definition on_uids (avail : bool) : op idvec → op ugids :=
  if avail then op_on avail_uids set_avail_uids else op_on eff_uids set_eff_uids.
Definition on_groups (avail : bool) : op (idvec * idvec) → op ugids :=
  if avail then op_on avail_groups set_avail_groups else op_on eff_groups set_eff_groups.

Definition ugids_add_uid (uid : Z) (avail : bool) : op ugids := on_uids avail (idvec_add_new uid).

Definition add_gid (gid : Z) : op (idvec * idvec) := λ '(gids, imp) o,
  try (idvec_add_new gid gids o) (λ err o', Some (err, (gids, imp), o')) (λ gids' o',
  '(imp', _) ← idvec_remove 0 gid imp; Some (E0, (gids', imp'), o')).

Definition ugids_add_gid (gid : Z) (avail : bool) : op ugids := on_groups avail (add_gid gid).

(** The merges of [ugids_add_user] into the groups and the implied groups. *)
Definition add_implied (imp_gids : idvec) : op (idvec * idvec) := λ '(gids, imp) o,
  '(err, gids', o1) ← idvec_merge imp_gids gids o;
  if decide (err = E0) then
    '(err2, imp', o2) ← idvec_merge imp_gids imp o1; Some (err2, (gids', imp'), o2)
  else Some (err, (gids', imp), o1).

(** The error of [idvec_merge_implied_gids] is ignored, as in the code. *)
Definition ugids_add_user (uid : Z) (avail : bool) : op (ugids * uid_implies_cache) :=
  λ '(u, cache) o,
  '(_, (imp_gids, cache'), o1) ← idvec_merge_implied_gids (const_idvec [uid]) (IDVEC_INIT, cache) o;
  '(imp_gids', _) ← idvec_subtract (if avail then avail_gids u else eff_gids u) imp_gids;
  '(err, u', o2) ← (on_uids avail (idvec_add_new uid) ;;? on_groups avail (add_implied imp_gids')) u o1;
  Some (err, (u', cache'), o2).

(** ** Merging (ugids-merge.c) *)

Definition merge_gids (new new_imp : idvec) : op (idvec * idvec) := λ '(gids, imp) o,
  let failed err o := Some (err, (gids, imp), o) in
  try (idvec_set gids IDVEC_INIT o) failed (λ gids_strong o1,
  try (idvec_set new IDVEC_INIT o1) failed (λ new_strong o2,
  '(gids_strong', _) ← idvec_subtract imp gids_strong;
  '(new_strong', _) ← idvec_subtract new_imp new_strong;
  '(err, gids', o3) ← idvec_merge new gids o2;
  if decide (err = E0) then
    '(err2, imp', o4) ← idvec_merge new_imp imp o3;
    if decide (err2 = E0) then
      '(imp1, _) ← idvec_subtract gids_strong' imp';
      '(imp2, _) ← idvec_subtract new_strong' imp1;
      Some (E0, (gids', imp2), o4)
    else Some (err2, (gids', imp'), o4)
  else Some (err, (gids', imp), o3))).

Definition ugids_merge (new : ugids) : op ugids :=
  op_on eff_uids set_eff_uids (idvec_merge (eff_uids new))
  ;;? op_on avail_uids set_avail_uids (idvec_merge (avail_uids new))
  ;;? op_on eff_groups set_eff_groups (merge_gids (eff_gids new) (imp_eff_gids new))
  ;;? op_on avail_groups set_avail_groups (merge_gids (avail_gids new) (imp_avail_gids new)).

Definition ugids_clear (u : ugids) : ugids :=
  mk_ugids (idvec_clear (eff_uids u)) (idvec_clear (eff_gids u)) (idvec_clear (avail_uids u))
    (idvec_clear (avail_gids u)) (idvec_clear (imp_eff_gids u)) (idvec_clear (imp_avail_gids u)).

Definition ugids_set (new : ugids) : op ugids := λ u, ugids_merge new (ugids_clear u).

Definition clear_eff (u : ugids) : ugids :=
  mk_ugids (idvec_clear (eff_uids u)) (idvec_clear (eff_gids u)) (avail_uids u)
    (avail_gids u) (idvec_clear (imp_eff_gids u)) (imp_avail_gids u).

Definition ugids_save : op ugids := λ u,
  (op_on avail_uids set_avail_uids (idvec_merge (eff_uids u))
   ;;? op_on avail_groups set_avail_groups (merge_gids (eff_gids u) (imp_eff_gids u))
   ;;? op_lift (λ u', Some (clear_eff u'))) u.

(** ** Implying (ugids-imply.c) *)

Definition ugids_imply_all : op (ugids * uid_implies_cache) := λ '(u, cache) o,
  '(err, (imp, cache1), o1) ← idvec_merge_implied_gids (eff_uids u) (imp_eff_gids u, cache) o;
  let u1 := set_eff_groups (eff_gids u, imp) u in
  if decide (err = E0) then
    '(err2, (imp2, cache2), o2) ←
      idvec_merge_implied_gids (avail_uids u) (imp_avail_gids u, cache1) o1;
    Some (err2, (set_avail_groups (avail_gids u, imp2) u1, cache2), o2)
  else Some (err, (u1, cache1), o1).

(** ** Subtracting (ugids-subtract.c) *)

Definition sub_gids (sub sub_imp gids_imp : idvec) : op idvec := λ gids o,
  let failed err o := Some (err, gids, o) in
  try (idvec_set sub IDVEC_INIT o) failed (λ delta o1,
  try (idvec_set sub_imp IDVEC_INIT o1) failed (λ delta_suppress o2,
  '(delta_suppress', _) ← idvec_subtract gids_imp delta_suppress;
  '(delta', _) ← idvec_subtract delta_suppress' delta;
  '(gids', _) ← idvec_subtract delta' gids;
  Some (E0, gids', o2))).

(** [_sub]; the vector of implied groups is only read. *)
Definition sub_ids (sub_uids sub_gids_ sub_gids_imp gids_imp : idvec)
    : op (idvec * idvec * uid_implies_cache) := λ '(uids, gids, cache) o,
  let failed err o := Some (err, (uids, gids, cache), o) in
  try (idvec_set uids IDVEC_INIT o) failed (λ new_uids o1,
  try (idvec_set sub_gids_ IDVEC_INIT o1) failed (λ new_sub_gids o2,
  try (idvec_set sub_gids_imp IDVEC_INIT o2) failed (λ new_sub_gids_imp o3,
  '(new_uids', _) ← idvec_subtract sub_uids new_uids;
  '(err, (no_sub, cache'), o4) ← idvec_merge_implied_gids new_uids' (IDVEC_INIT, cache) o3;
  if decide (err = E0) then
    '(no_sub1, _) ← idvec_keep gids_imp no_sub;
    '(no_sub2, _) ← idvec_keep sub_gids_imp no_sub1;
    '(new_sub_gids', _) ← idvec_subtract no_sub2 new_sub_gids;
    '(new_sub_gids_imp', _) ← idvec_subtract no_sub2 new_sub_gids_imp;
    '(err2, gids', o5) ← sub_gids new_sub_gids' new_sub_gids_imp' gids_imp gids o4;
    if decide (err2 = E0) then
      '(err3, uids', o6) ← idvec_set new_uids' uids o5; Some (err3, (uids', gids', cache'), o6)
    else Some (err2, (uids, gids', cache'), o5)
  else Some (err, (uids, gids, cache'), o4)))).

Definition ugids_subtract (sub : ugids) : op (ugids * uid_implies_cache) := λ '(u, cache) o,
  '(err, (uids, gids, cache1), o1) ←
    sub_ids (eff_uids sub) (eff_gids sub) (imp_eff_gids sub) (imp_eff_gids u)
      (eff_uids u, eff_gids u, cache) o;
  let u1 := set_eff_uids uids (set_eff_groups (gids, imp_eff_gids u) u) in
  if decide (err = E0) then
    '(err2, (uids2, gids2, cache2), o2) ←
      sub_ids (avail_uids sub) (avail_gids sub) (imp_avail_gids sub) (imp_avail_gids u)
        (avail_uids u, avail_gids u, cache1) o1;
    Some (err2, (set_avail_uids uids2 (set_avail_groups (gids2, imp_avail_gids u) u1), cache2), o2)
  else Some (err, (u1, cache1), o1).

(** ** The POSIX user (ugids-posix.c) *)

Definition update_real (id : Z) : op idvec := λ v o,
  if decide (num v = 0) then idvec_insert 0 id v o
  else
    r ← get_id v 0;
    c ← idvec_tail_contains v 1 r;
    if c : bool then v' ← set_id 0 id v; Some (E0, v', o) else idvec_insert 0 id v o.

Definition on_gids (avail : bool) (m : op idvec) : op ugids :=
  on_groups avail (op_on fst (λ v g, (v, g.2)) m).
Definition on_imp (avail : bool) (m : op idvec) : op ugids :=
  on_groups avail (op_on snd (λ v g, (g.1, v)) m).

(** The part for the groups, with the implied groups of the user. *)
Definition set_posix_groups (imp_gids : idvec) : op ugids := λ u o,
  gid ← get_id imp_gids 0;
  gid_was_avail ← idvec_contains (avail_gids u) gid;
  '(imp_gids', _) ← idvec_subtract (eff_gids u) imp_gids;
  (on_gids false (idvec_insert_only 0 gid)
   ;;? on_gids true (update_real gid)
   ;;? on_gids true (idvec_insert_only 1 gid)
   ;;? (if gid_was_avail : bool then op_ret E0 else on_imp true (idvec_add gid))
   ;;? on_gids false (idvec_merge imp_gids')
   ;;? on_imp false (idvec_merge imp_gids')) u o.

Definition ugids_set_posix_user (uid : Z) : op (ugids * uid_implies_cache) := λ '(u, cache) o,
  '(_, (imp_gids, cache'), o1) ← idvec_merge_implied_gids (const_idvec [uid]) (IDVEC_INIT, cache) o;
  '(err, u', o2) ←
    (on_uids false (idvec_insert_only 0 uid)
     ;;? on_uids true (update_real uid)
     ;;? on_uids true (idvec_insert_only 1 uid)
     ;;? (if decide (0 < num imp_gids) then set_posix_groups imp_gids else op_ret E0)) u o1;
  Some (err, (u', cache'), o2).
End databases.

(** ** Contents *)

(** The groups [g] read as [lg] and their implied part as [li], a subset. *)
Definition groups_repr (g : idvec * idvec) (lg li : list Z) : Prop :=
  repr g.1 lg ∧ repr g.2 li ∧ ∀ x, x ∈ li → x ∈ lg.

Definition groups_wf (g : idvec * idvec) : Prop := ∃ lg li, groups_repr g lg li.

Lemma returns_try {S T} o (r : option (error_t * S * allocs)) Q E failed k (Q' : T → Prop) E' :
  returns o r Q E →
  (∀ s o1, Q s → (o = [] → o1 = []) → returns o1 (k s o1) Q' E') →
  (∀ e s o1, E e s → e ≠ E0 → (o = [] → o1 = [] ∧ e ≠ ENOMEM) → returns o (failed e o1) Q' E') →
  returns o (try r failed k) Q' E'.
Proof.
  intros Hr Hok Herr. eapply returns_bind; [done|..].
  - intros s o1 HQ Ho. rewrite decide_True by done. by apply Hok.
  - intros e s o1 HE Hne Ho. rewrite decide_False by done. by eapply Herr.
Qed.

(** The groups that stay implied by a merge. *)
Definition merged_imp (lg li ln lm : list Z) : list Z :=
  filter (λ x, x ∉ filter (λ x, x ∉ lm) ln)
    (filter (λ x, x ∉ filter (λ x, x ∉ li) lg) (li ++ filter (λ x, x ∉ li) lm)).

Lemma elem_of_merge (l k : list Z) x : x ∈ l ++ filter (λ x, x ∉ l) k ↔ x ∈ l ∨ x ∈ k.
Proof.
  rewrite elem_of_app, list_elem_of_filter. destruct (decide (x ∈ l)); tauto.
Qed.

Lemma elem_of_merge_prefix (l k l' : list Z) x :
  l' `prefix_of` filter (λ x, x ∉ l) k → x ∈ l' → x ∈ k.
Proof.
  intros [r Hr] Hx. assert (Hin : x ∈ filter (λ x, x ∉ l) k) by (rewrite Hr; set_solver).
  by apply list_elem_of_filter in Hin as [_ ?].
Qed.

Lemma elem_of_merged_imp lg li ln lm x :
  x ∈ merged_imp lg li ln lm ↔
  (x ∈ li ∨ x ∈ lm) ∧ (x ∈ lg → x ∈ li) ∧ (x ∈ ln → x ∈ lm).
Proof.
  unfold merged_imp. rewrite !list_elem_of_filter, elem_of_merge.
  destruct (decide (x ∈ li)), (decide (x ∈ lm)); tauto.
Qed.

Lemma merge_gids_spec gids imp new new_imp lg li ln lm :
  groups_repr (gids, imp) lg li → reads new ln → reads new_imp lm → (∀ x, x ∈ lm → x ∈ ln) →
  small (zlen lg + zlen ln) → small (zlen li + zlen lm) →
  op_spec (merge_gids new new_imp) (gids, imp)
    (λ g, groups_repr g (lg ++ filter (λ x, x ∉ lg) ln) (merged_imp lg li ln lm))
    (λ e g, e = ENOMEM ∧ groups_wf g).
Proof.
  intros (Hg & Hi & Hsub) Hn Hm Hsubn Hs1 Hs2 o. simpl in Hg, Hi. unfold merge_gids.
  assert (Hkeep : groups_wf (gids, imp)) by by exists lg, li.
  eapply returns_try; [by eapply idvec_set_spec; [apply repr_init|apply repr_reads]| |].
  2: { intros e s' o' [-> _] _ Ho. by apply returns_error. }
  intros gs o1 Hgs _.
  eapply returns_try; [by eapply idvec_set_spec; [apply repr_init|exact Hn]| |].
  2: { intros e s' o' [-> _] _ Ho. by apply returns_error. }
  intros ns o2 Hns _.
  destruct (idvec_subtract_spec gs lg imp li Hgs (repr_reads _ _ Hi)) as (gs' & d1 & -> & Hgs' & _).
  destruct (idvec_subtract_spec ns ln new_imp lm Hns Hm) as (ns' & d2 & -> & Hns' & _). simpl.
  eapply returns_bind; [by apply idvec_merge_spec| |].
  - intros gids' o3 Hg' _. rewrite decide_True by done.
    eapply returns_bind; [by apply idvec_merge_spec| |].
    + intros imp' o4 Hi' _. rewrite decide_True by done.
      destruct (idvec_subtract_spec imp' _ gs' _ Hi' (repr_reads _ _ Hgs')) as (imp1 & d3 & -> & Hi1 & _).
      simpl.
      destruct (idvec_subtract_spec imp1 _ ns' _ Hi1 (repr_reads _ _ Hns')) as (imp2 & d4 & -> & Hi2 & _).
      apply returns_ok; [|done]. split; [done|]. split; [done|].
      intros x. rewrite elem_of_merged_imp, elem_of_merge. naive_solver.
    + intros e imp' o4 [-> (l' & Hi' & Hpre)] _ Ho. rewrite decide_False by done.
      apply returns_error; [done| |done]. split; [done|].
      exists (lg ++ filter (λ x, x ∉ lg) ln), (li ++ l'). split; [done|]. split; [done|].
      intros x. rewrite elem_of_merge, elem_of_app. intros [?|Hx]; [auto|].
      right. apply Hsubn. by eapply elem_of_merge_prefix.
  - intros e gids' o3 [-> (l' & Hg' & Hpre)] _ Ho. rewrite decide_False by done.
    apply returns_error; [done| |done]. split; [done|]. exists (lg ++ l'), li.
    split; [done|]. split; [done|]. intros x ?. apply elem_of_app. auto.
Qed.

(** The six lists of a [struct ugids]. *)
Record id_sets := mk_sets {
  s_eu : list Z; s_eg : list Z; s_au : list Z; s_ag : list Z; s_ie : list Z; s_ia : list Z
}.

(** [u] reads as [s], and the implied groups are subsets of the groups. *)
Definition urepr (u : ugids) (s : id_sets) : Prop :=
  repr (eff_uids u) (s_eu s) ∧ repr (avail_uids u) (s_au s)
  ∧ groups_repr (eff_groups u) (s_eg s) (s_ie s) ∧ groups_repr (avail_groups u) (s_ag s) (s_ia s).

Definition ugids_wf (u : ugids) : Prop := ∃ s, urepr u s.

Definition union_of (l k : list Z) : list Z := l ++ filter (λ x, x ∉ l) k.

Definition merged (s t : id_sets) : id_sets :=
  mk_sets (union_of (s_eu s) (s_eu t)) (union_of (s_eg s) (s_eg t))
    (union_of (s_au s) (s_au t)) (union_of (s_ag s) (s_ag t))
    (merged_imp (s_eg s) (s_ie s) (s_eg t) (s_ie t))
    (merged_imp (s_ag s) (s_ia s) (s_ag t) (s_ia t)).

(** The merge of [t] into [s] stays below the width of [unsigned]. *)
Definition fits (s t : id_sets) : Prop :=
  small (zlen (s_eu s) + zlen (s_eu t)) ∧ small (zlen (s_au s) + zlen (s_au t))
  ∧ small (zlen (s_eg s) + zlen (s_eg t)) ∧ small (zlen (s_ag s) + zlen (s_ag t))
  ∧ small (zlen (s_ie s) + zlen (s_ie t)) ∧ small (zlen (s_ia s) + zlen (s_ia t)).

Lemma urepr_intro u eu eg au ag ie ia :
  repr (eff_uids u) eu → repr (avail_uids u) au → groups_repr (eff_groups u) eg ie →
  groups_repr (avail_groups u) ag ia → urepr u (mk_sets eu eg au ag ie ia).
Proof. done. Qed.

Lemma ugids_wf_intro u eu au :
  repr (eff_uids u) eu → repr (avail_uids u) au → groups_wf (eff_groups u) →
  groups_wf (avail_groups u) → ugids_wf u.
Proof.
  intros ?? (eg & ie & ?) (ag & ia & ?). eexists. by apply (urepr_intro u eu eg au ag ie ia).
Qed.

Lemma groups_repr_wf g lg li : groups_repr g lg li → groups_wf g.
Proof. intros. by exists lg, li. Qed.

Lemma ugids_merge_spec u s new t :
  urepr u s → urepr new t → fits s t →
  op_spec (ugids_merge new) u (λ u', urepr u' (merged s t)) (λ e u', e = ENOMEM ∧ ugids_wf u').
Proof.
  intros (Heu & Hau & Heg & Hag) (Teu & Tau & Teg & Tag) (F1 & F2 & F3 & F4 & F5 & F6).
  unfold ugids_merge. eapply op_spec_seq.
  { eapply op_spec_weaken; [eapply op_spec_on, idvec_merge_spec; [done|by apply repr_reads|done]| |].
    - intros u1 H1. exact H1.
    - simpl. intros e u1 (v & -> & -> & l' & Hv & _). split; [done|].
      by eapply ugids_wf_intro; [..|eapply groups_repr_wf|eapply groups_repr_wf]. }
  intros u1 (v1 & -> & Hv1). eapply op_spec_seq.
  { eapply op_spec_weaken; [eapply op_spec_on, idvec_merge_spec; [done|by apply repr_reads|done]| |].
    - intros u2 H2. exact H2.
    - simpl. intros e u2 (v & -> & -> & l' & Hv & _). split; [done|].
      by eapply ugids_wf_intro; [..|eapply groups_repr_wf|eapply groups_repr_wf]. }
  intros u2 (v2 & -> & Hv2). eapply op_spec_seq.
  { eapply op_spec_weaken;
      [eapply op_spec_on, (merge_gids_spec _ _ _ _ (s_eg s) (s_ie s) (s_eg t) (s_ie t))| |]; try done.
    - apply repr_reads, Teg.
    - apply repr_reads, Teg.
    - apply Teg.
    - simpl. intros e u3 ([g1 g2] & -> & -> & Hg). split; [done|].
      by eapply ugids_wf_intro; [..|eapply groups_repr_wf]. }
  intros u3 ([g1 g2] & -> & Hg). 
  eapply op_spec_weaken;
    [eapply op_spec_on, (merge_gids_spec _ _ _ _ (s_ag s) (s_ia s) (s_ag t) (s_ia t))| |]; try done.
  - apply repr_reads, Tag.
  - apply repr_reads, Tag.
  - apply Tag.
  - simpl. intros u4 ([a1 a2] & -> & Ha). by apply urepr_intro.
  - simpl. intros e u4 ([a1 a2] & -> & -> & Ha). split; [done|].
    by eapply ugids_wf_intro; [..|eapply groups_repr_wf|].
Qed.

Lemma filter_not_nil (l : list Z) : filter (λ x, x ∉ []) l = l.
Proof.
  induction l as [|x l IH]; [done|]. rewrite filter_cons_True by by intros ?%elem_of_nil.
  by rewrite IH.
Qed.

Lemma filter_all (P : Z → Prop) `{!∀ x, Decision (P x)} (l : list Z) :
  (∀ x, x ∈ l → P x) → filter P l = l.
Proof.
  induction l as [|x l IH]; [done|]. intros HP. rewrite filter_cons_True by (apply HP; set_solver).
  f_equal. apply IH. set_solver.
Qed.

Lemma union_of_nil l : union_of [] l = l.
Proof. apply filter_not_nil. Qed.

Lemma merged_imp_nil ln lm : (∀ x, x ∈ lm → x ∈ ln) → merged_imp [] [] ln lm = lm.
Proof.
  intros Hsub. unfold merged_imp. rewrite app_nil_l, filter_not_nil. rewrite (filter_all _ lm).
  - apply filter_all. intros x Hx. rewrite list_elem_of_filter. tauto.
  - intros x _. by intros ?%elem_of_nil.
Qed.

Definition no_ids : id_sets := mk_sets [] [] [] [] [] [].

Lemma ugids_clear_repr u s : urepr u s → urepr (ugids_clear u) no_ids.
Proof.
  intros (H1 & H2 & (H3 & H4 & _) & (H5 & H6 & _)).
  split; [by eapply repr_clear|]. split; [by eapply repr_clear|].
  split; (split; [by eapply repr_clear|]); (split; [by eapply repr_clear|]); by intros x ?%elem_of_nil.
Qed.

Lemma merged_no_ids u t : urepr u t → merged no_ids t = t.
Proof.
  intros (_ & _ & (_ & _ & H1) & (_ & _ & H2)). unfold merged. simpl.
  rewrite !union_of_nil, !merged_imp_nil by done. by destruct t.
Qed.

Lemma ugids_set_spec u s new t :
  urepr u s → urepr new t → fits no_ids t →
  op_spec (ugids_set new) u (λ u', urepr u' t) (λ e u', e = ENOMEM ∧ ugids_wf u').
Proof.
  intros Hu Ht Hf o. pose proof (merged_no_ids new t Ht) as Hm.
  eapply returns_weaken.
  - apply (ugids_merge_spec (ugids_clear u) no_ids new t); [by eapply ugids_clear_repr|done..].
  - intros u' Hu'. by rewrite <- Hm.
  - done.
Qed.

(** The effective ids become available ones. *)
Definition saved (s : id_sets) : id_sets :=
  mk_sets [] [] (union_of (s_au s) (s_eu s)) (union_of (s_ag s) (s_eg s)) []
    (merged_imp (s_ag s) (s_ia s) (s_eg s) (s_ie s)).

Lemma ugids_save_spec u s :
  urepr u s →
  small (zlen (s_au s) + zlen (s_eu s)) → small (zlen (s_ag s) + zlen (s_eg s)) →
  small (zlen (s_ia s) + zlen (s_ie s)) →
  op_spec ugids_save u (λ u', urepr u' (saved s)) (λ e u', e = ENOMEM ∧ ugids_wf u').
Proof.
  intros (Heu & Hau & Heg & Hag) F1 F2 F3. unfold ugids_save, op_spec. eapply op_spec_seq.
  { eapply op_spec_weaken; [eapply op_spec_on, idvec_merge_spec; [done|by apply repr_reads|done]| |].
    - intros u1 H1. exact H1.
    - simpl. intros e u1 (v & -> & -> & l' & Hv & _). split; [done|].
      by eapply ugids_wf_intro; [..|eapply groups_repr_wf|eapply groups_repr_wf]. }
  intros u1 (v1 & -> & Hv1). eapply op_spec_seq.
  { eapply op_spec_weaken;
      [eapply op_spec_on, (merge_gids_spec _ _ _ _ (s_ag s) (s_ia s) (s_eg s) (s_ie s))| |]; try done.
    - apply repr_reads, Heg.
    - apply repr_reads, Heg.
    - apply Heg.
    - simpl. intros e u3 ([g1 g2] & -> & -> & Hg). split; [done|].
      by eapply ugids_wf_intro; [..|eapply groups_repr_wf|]. }
  intros u2 ([g1 g2] & -> & Hg). apply op_spec_lift. eexists. split; [done|].
  destruct Heg as (He1 & He2 & _). apply urepr_intro; simpl.
  - by eapply repr_clear.
  - done.
  - split; [by eapply repr_clear|]. split; [by eapply repr_clear|]. by intros x ?%elem_of_nil.
  - done.
Qed.

Lemma add_gid_spec gids imp lg li gid :
  groups_repr (gids, imp) lg li → small (zlen lg) →
  op_spec (add_gid gid) (gids, imp)
    (λ g, groups_repr g (add_new lg gid) (filter (λ x, x ≠ gid) li))
    (λ e g, e = ENOMEM ∧ g = (gids, imp)).
Proof.
  intros (Hg & Hi & Hsub) Hs o. simpl in Hg, Hi. unfold add_gid.
  eapply returns_try; [by apply idvec_add_new_spec| |].
  - intros gids' o1 Hg' _. destruct (idvec_remove0_spec imp li gid Hi) as (imp' & -> & Hi').
    apply returns_ok; [|done]. split; [done|]. split; [done|].
    intros x [_ ?]%list_elem_of_filter. apply add_new_elem. auto.
  - intros e s' o1 [-> _] _ Ho. by apply returns_error.
Qed.

(** ** Implied groups *)

Section implied.
Context (user_groups : Z → option (list Z)).

Definition groups_of (uid : Z) : list Z := default [] (user_groups uid).

(** Every cached vector holds the groups of its user. *)
Definition cache_ok (cache : list (Z * idvec)) : Prop :=
  ∀ uid w, cache_find uid cache = Some w → ∃ gs, user_groups uid = Some gs ∧ reads w gs.

Lemma cache_ok_cons uid w gs cache :
  cache_ok cache → user_groups uid = Some gs → reads w gs → cache_ok ((uid, w) :: cache).
Proof.
  intros Hc Hu Hw u v. simpl. case_decide; [|apply Hc]. subst. intros [= <-]. eauto.
Qed.

(** What a merge of implied groups does: it adds some of [gs] to [l], all of
    them when memory does not run out, and keeps the cache right. *)
Definition implies_more (l gs : list Z) (known : bool) (o : allocs)
    (r : option (error_t * (idvec * list (Z * idvec)) * allocs)) : Prop :=
  ∃ err implied' cache' o' l',
    r = Some (err, (implied', cache'), o') ∧ repr implied' (l ++ l') ∧ cache_ok cache'
    ∧ l' `prefix_of` filter (λ x, x ∉ l) gs
    ∧ (o = [] → o' = [] ∧ l' = filter (λ x, x ∉ l) gs ∧ err = if known then E0 else EINVAL).

Lemma implies_more_fail l gs known o o' err implied cache :
  repr implied l → cache_ok cache → o ≠ [] → implies_more l gs known o (Some (err, (implied, cache), o')).
Proof.
  intros Hi Hc Ho. exists err, implied, cache, o', []. rewrite app_nil_r.
  split; [done|]. split; [done|]. split; [done|]. split; [apply prefix_nil|done].
Qed.

Lemma merge_into_implied l gs implied w o (cache : list (Z * idvec)) :
  repr implied l → reads w gs → small (zlen l + zlen gs) →
  ∃ err implied' o' l', idvec_merge w implied o = Some (err, implied', o')
    ∧ repr implied' (l ++ l') ∧ l' `prefix_of` filter (λ x, x ∉ l) gs
    ∧ (o = [] → o' = [] ∧ l' = filter (λ x, x ∉ l) gs ∧ err = E0).
Proof.
  intros Hi Hw Hs. destruct (idvec_merge_spec implied l w gs Hi Hw Hs o)
    as (err & implied' & o' & -> & Ho & Hp).
  destruct Hp as [[-> Hr]|[Hne [-> (l' & Hr & Hpre)]]].
  - eexists E0, implied', o', _. split; [done|]. split; [done|]. split; [done|].
    intros Hn. by destruct (Ho Hn).
  - exists ENOMEM, implied', o', l'. do 3 (split; [done|]). intros Hn. by destruct (Ho Hn).
Qed.

Lemma merge_implied_gids_of_spec uid implied l cache o :
  repr implied l → cache_ok cache → small (zlen l + zlen (groups_of uid)) →
  implies_more l (groups_of uid) (bool_decide (is_Some (user_groups uid))) o
    (merge_implied_gids_of user_groups uid (implied, cache) o).
Proof.
  intros Hi Hc Hs. unfold merge_implied_gids_of, groups_of in *.
  destruct (cache_find uid cache) as [w|] eqn:Hf.
  { destruct (Hc _ _ Hf) as (gs & Hu & Hw). rewrite Hu in *. simpl in *.
    destruct (merge_into_implied l gs implied w o cache Hi Hw Hs)
      as (err & implied' & o' & l' & -> & Hr & Hpre & Ho).
    by exists err, implied', cache, o', l'. }
  destruct (user_groups uid) as [gs|] eqn:Hu; simpl in *.
  2: { exists EINVAL, implied, cache, o, []. rewrite app_nil_r.
       split; [done|]. split; [done|]. split; [done|]. split; [apply prefix_nil|done]. }
  unfold make_idvec. destruct (alloc o) as [ok o1] eqn:Ho1.
  destruct (if decide (NUM_STATIC_GIDS < zlen gs) then alloc o1 else (true, o1)) as [room o2] eqn:Ho2.
  assert (Hn : o = [] → ok = true ∧ room = true ∧ o2 = []).
  { intros ->. injection Ho1 as <- <-. case_decide; by injection Ho2 as <- <-. }
  destruct ok; [|apply implies_more_fail; [done..|]; intros ?; by destruct Hn].
  destruct room; [|apply implies_more_fail; [done..|]; intros ?; destruct Hn as (_ & ? & _); done].
  unfold try. destruct (idvec_merge_ids_spec IDVEC_INIT [] gs repr_init) with (o := o2)
    as (err & new & o3 & -> & Ho3 & Hp3); [unfold small in *; simpl in *; lia|]. simpl.
  destruct Hp3 as [[-> Hnew]|[Hne [-> _]]].
  2: { rewrite decide_False by done. apply implies_more_fail; [done..|].
       intros Hno. destruct (Hn Hno) as (_ & _ & ->). by destruct Ho3. }
  rewrite decide_True by done. simpl in Hnew. rewrite filter_not_nil in Hnew.
  destruct (merge_into_implied l gs implied new o3 cache Hi (repr_reads _ _ Hnew) Hs)
    as (err & implied' & o4 & l' & -> & Hr & Hpre & Ho4). simpl.
  destruct (alloc o4) as [ok o5] eqn:Ho5. eexists E0, implied', _, o5, l'. split; [done|].
  split; [done|]. split; [destruct ok; [|done]; eapply cache_ok_cons; [done..|by apply repr_reads]|].
  split; [done|]. intros Hno. destruct (Hn Hno) as (_ & _ & ->). destruct Ho3 as [-> _]; [done|].
  destruct Ho4 as (-> & -> & _); [done|]. by injection Ho5 as <- <-.
Qed.

#[local] Opaque merge_implied_gids_of.

Lemma idvec_merge_implied_one uid cache o :
  cache_ok cache → small (zlen (groups_of uid)) →
  implies_more [] (groups_of uid) (bool_decide (is_Some (user_groups uid))) o
    (idvec_merge_implied_gids user_groups (const_idvec [uid]) (IDVEC_INIT, cache) o).
Proof.
  intros Hc Hs. unfold idvec_merge_implied_gids.
  rewrite (read_ids_reads (const_idvec [uid]) [uid] (reads_const _)). simpl.
  destruct (merge_implied_gids_of_spec uid IDVEC_INIT [] cache o repr_init Hc)
    as (err & implied' & cache' & o' & l' & -> & Hr & Hc' & Hpre & Ho); [done|]. simpl.
  eexists _, implied', cache', o', l'. split; [done|]. do 3 (split; [done|]). intros Hn.
  destruct (Ho Hn) as (-> & -> & ->). split; [done|]. split; [done|]. by case_bool_decide.
Qed.
End implied.

#[local] Transparent merge_implied_gids_of.
#[local] Opaque idvec_merge_implied_gids.

(** ** Adding a user *)

Section users.
Context (user_groups : Z → option (list Z)).
Abbreviation groups := (groups_of user_groups) (only parsing).

Lemma add_implied_spec gids imp lg li new ln :
  groups_repr (gids, imp) lg li → reads new ln →
  small (zlen lg + zlen ln) → small (zlen li + zlen ln) →
  op_spec (add_implied new) (gids, imp)
    (λ g, groups_repr g (union_of lg ln) (union_of li ln)) (λ e g, e = ENOMEM ∧ groups_wf g).
Proof.
  intros (Hg & Hi & Hsub) Hn Hs1 Hs2 o. simpl in Hg, Hi. unfold add_implied.
  eapply returns_bind; [by apply idvec_merge_spec| |].
  - intros gids' o1 Hg' _. rewrite decide_True by done.
    eapply returns_bind; [by apply idvec_merge_spec| |].
    + intros imp' o2 Hi' _. apply returns_ok; [|done]. split; [done|]. split; [done|].
      intros x. unfold union_of. rewrite !elem_of_merge. naive_solver.
    + intros e imp' o2 [-> (l' & Hi' & Hpre)] _ Ho. apply returns_error; [done| |done].
      split; [done|]. exists (union_of lg ln), (li ++ l'). split; [done|]. split; [done|].
      intros x. unfold union_of. rewrite elem_of_merge, elem_of_app.
      intros [?|?]; [auto|right]. by eapply elem_of_merge_prefix.
  - intros e gids' o1 [-> (l' & Hg' & _)] _ Ho. rewrite decide_False by done.
    apply returns_error; [done| |done]. split; [done|]. exists (lg ++ l'), li.
    split; [done|]. split; [done|]. intros x ?. apply elem_of_app. auto.
Qed.

(** The effective or the available part of the lists. *)
Definition uids_of (avail : bool) (s : id_sets) : list Z := if avail then s_au s else s_eu s.
Definition gids_of (avail : bool) (s : id_sets) : list Z := if avail then s_ag s else s_eg s.
Definition imps_of (avail : bool) (s : id_sets) : list Z := if avail then s_ia s else s_ie s.

Definition with_user (avail : bool) (uids gids imps : list Z) (s : id_sets) : id_sets :=
  if avail then mk_sets (s_eu s) (s_eg s) uids gids (s_ie s) imps
  else mk_sets uids gids (s_au s) (s_ag s) imps (s_ia s).

(** The steps of [ugids_add_user] once the implied groups are known. *)
Lemma add_user_steps u s imp ln uid avail :
  urepr u s → reads imp ln → small (zlen (uids_of avail s)) →
  small (zlen (gids_of avail s) + zlen ln) → small (zlen (imps_of avail s) + zlen ln) →
  op_spec (on_uids avail (idvec_add_new uid) ;;? on_groups avail (add_implied imp)) u
    (λ u', urepr u' (with_user avail (add_new (uids_of avail s) uid)
                       (union_of (gids_of avail s) ln) (union_of (imps_of avail s) ln) s))
    (λ e u', e = ENOMEM ∧ ugids_wf u').
Proof.
  intros (Heu & Hau & Heg & Hag) Hn Hs1 Hs2 Hs3. destruct avail; simpl in *.
  - eapply op_spec_seq.
    { eapply op_spec_weaken; [by eapply op_spec_on, idvec_add_new_spec|intros u1 H1; exact H1|].
      simpl. intros e u1 (v & -> & -> & ->). split; [done|]. by exists s. }
    intros u1 (v & -> & Hv).
    eapply op_spec_weaken; [eapply op_spec_on, add_implied_spec; done| |]; simpl.
    + intros u2 ([g1 g2] & -> & Hg). by apply urepr_intro.
    + intros e u2 ([g1 g2] & -> & -> & Hg). split; [done|].
      by eapply ugids_wf_intro; [..|eapply groups_repr_wf|].
  - eapply op_spec_seq.
    { eapply op_spec_weaken; [by eapply op_spec_on, idvec_add_new_spec|intros u1 H1; exact H1|].
      simpl. intros e u1 (v & -> & -> & ->). split; [done|]. by exists s. }
    intros u1 (v & -> & Hv).
    eapply op_spec_weaken; [eapply op_spec_on, add_implied_spec; done| |]; simpl.
    + intros u2 ([g1 g2] & -> & Hg). by apply urepr_intro.
    + intros e u2 ([g1 g2] & -> & -> & Hg). split; [done|].
      by eapply ugids_wf_intro; [..|eapply groups_repr_wf].
Qed.

Lemma prefix_filter_length (P : Z → Prop) `{!∀ x, Decision (P x)} (l k : list Z) :
  l `prefix_of` filter P k → zlen l ≤ zlen k.
Proof.
  intros Hl%prefix_length. pose proof (length_filter P k). lia.
Qed.

Lemma ugids_add_user_spec u s cache uid avail o :
  urepr u s → cache_ok user_groups cache → small (zlen (groups uid)) →
  small (zlen (uids_of avail s)) → small (zlen (gids_of avail s) + zlen (groups uid)) →
  small (zlen (imps_of avail s) + zlen (groups uid)) →
  ∃ err u' cache' o',
    ugids_add_user user_groups uid avail (u, cache) o = Some (err, (u', cache'), o')
    ∧ ugids_wf u' ∧ cache_ok user_groups cache'
    ∧ (o = [] → err = E0 ∧
        let new := filter (λ x, x ∉ gids_of avail s) (groups uid) in
        urepr u' (with_user avail (add_new (uids_of avail s) uid)
                    (union_of (gids_of avail s) new) (union_of (imps_of avail s) new) s)).
Proof.
  intros Hu Hc Hs0 Hs1 Hs2 Hs3. unfold ugids_add_user.
  destruct (idvec_merge_implied_one user_groups uid cache o Hc Hs0)
    as (err & imp & cache' & o1 & l' & -> & Hr & Hc' & Hpre & Ho). simpl in Hr |- *.
  assert (Hgids : reads (if avail then avail_gids u else eff_gids u) (gids_of avail s)).
  { destruct Hu as (_ & _ & Heg & Hag). destruct avail; apply repr_reads; [apply Hag|apply Heg]. }
  destruct (idvec_subtract_spec imp l' _ _ Hr Hgids) as (imp' & d & -> & Hr' & _). simpl.
  pose proof (prefix_filter_length _ _ _ Hpre) as Hl.
  pose proof (length_filter (λ x, x ∉ gids_of avail s) l') as Hl'.
  destruct (add_user_steps u s imp' _ uid avail Hu (repr_reads _ _ Hr') Hs1) with (o := o1)
    as (err2 & u' & o2 & -> & Ho2 & Hp); [unfold small in *; lia..|].
  exists err2, u', cache', o2. split; [done|]. split; [|split; [done|]].
  { destruct Hp as [[_ ?]|[_ [_ ?]]]; [by eexists|done]. }
  intros Hn. destruct (Ho Hn) as (-> & -> & _). destruct Ho2 as [_ Hne]; [done|].
  destruct Hp as [[-> Hu']|[_ [-> _]]]; [|done]. split; [done|]. simpl in Hu'.
  by rewrite filter_not_nil in Hu'.
Qed.
End users.

(** ** The POSIX user *)

(** What [update_real] makes of a list. *)
Definition real (id : Z) (l : list Z) : list Z :=
  match l with
  | [] => [id]
  | r :: l' => if decide (r ∈ l') then id :: l' else id :: r :: l'
  end.

Definition only_enomem {S} (e : error_t) (s : S) : Prop := e = ENOMEM.

Lemma update_real_spec v l id :
  repr v l → small (zlen l) → op_spec (update_real id) v (λ v', repr v' (real id l)) only_enomem.
Proof.
  intros Hv Hs o. unfold update_real. rewrite (proj1 (repr_reads _ _ Hv)).
  assert (Hins : ∀ k, repr v k → small (zlen k) →
    returns o (idvec_insert 0 id v o) (λ v', repr v' (id :: k)) only_enomem).
  { intros k Hk Hsk. eapply returns_weaken; [apply (idvec_insert_spec v k 0 id)| |].
    - done.
    - lia.
    - unfold small in *. lia.
    - intros v'. by rewrite insert_at_lt by lia.
    - by intros e v' [-> _]. }
  destruct l as [|r l]; simpl; [by apply Hins|].
  rewrite (get_id_reads v (r :: l) 0 r) by (done || by apply repr_reads). simpl.
  rewrite (idvec_tail_contains_spec v (r :: l) 1) by (lia || by apply repr_reads). simpl.
  case_decide as Hr.
  - rewrite bool_decide_true by done. destruct (set_id0_spec v r l id Hv) as (v' & -> & Hv').
    by apply returns_ok.
  - rewrite bool_decide_false by done. by apply Hins.
Qed.

Lemma elem_of_real id l x : x ∈ real id l ↔ x = id ∨ x ∈ l.
Proof.
  destruct l as [|r l]; simpl; [by rewrite list_elem_of_singleton, elem_of_nil; tauto|].
  case_decide; rewrite !elem_of_cons; naive_solver.
Qed.

Lemma real_length id l : zlen (real id l) ≤ zlen l + 1.
Proof. destruct l as [|r l]; simpl; [lia|]. case_decide; simpl; lia. Qed.

Lemma real_head id l : real id l !z 0 = Some id.
Proof. destruct l as [|r l]; simpl; [done|]. by case_decide. Qed.

Lemma insert_only_0 id l : insert_only 0 id l !z 0 = Some id.
Proof. unfold insert_only. case_decide; [done|]. by rewrite insert_at_lt by lia. Qed.

Lemma insert_only_0_elem id l x : x ∈ insert_only 0 id l ↔ x = id ∨ x ∈ l.
Proof.
  unfold insert_only. case_decide as Hs; [apply lookupz_elem_of in Hs; naive_solver|].
  rewrite elem_of_insert_at by lia. unfold removed. simpl. rewrite list_elem_of_filter.
  destruct (decide (x = id)); tauto.
Qed.

(** The first two ids after [update_real] and [idvec_insert_only]. *)
Lemma posix_slots id l :
  insert_only 1 id (real id l) !z 0 = Some id ∧ insert_only 1 id (real id l) !z 1 = Some id.
Proof.
  pose proof (real_head id l) as Hh. destruct (real id l) as [|x k]; [done|].
  injection Hh as ->. unfold insert_only. case_decide as Hs; [done|].
  unfold removed. change (Z.to_nat 1) with 1%nat. cbn [take drop app].
  rewrite take_0. rewrite insert_at_lt by (simpl; lia). done.
Qed.

Lemma insert_only_length pos id l :
  0 ≤ pos → zlen (insert_only pos id l) ≤ Z.max pos (zlen l) + 1.
Proof.
  intros Hp. unfold insert_only. case_decide; [lia|]. pose proof (removed_length pos id l).
  unfold insert_at. rewrite !length_app, length_take, length_replicate. simpl. rewrite length_drop. lia.
Qed.

(** Field updates on the lists, and the calls on one field. *)
Definition set_uids (avail : bool) (l : list Z) (s : id_sets) : id_sets :=
  if avail then mk_sets (s_eu s) (s_eg s) l (s_ag s) (s_ie s) (s_ia s)
  else mk_sets l (s_eg s) (s_au s) (s_ag s) (s_ie s) (s_ia s).
Definition set_gids (avail : bool) (l : list Z) (s : id_sets) : id_sets :=
  if avail then mk_sets (s_eu s) (s_eg s) (s_au s) l (s_ie s) (s_ia s)
  else mk_sets (s_eu s) l (s_au s) (s_ag s) (s_ie s) (s_ia s).
Definition set_imps (avail : bool) (l : list Z) (s : id_sets) : id_sets :=
  if avail then mk_sets (s_eu s) (s_eg s) (s_au s) (s_ag s) (s_ie s) l
  else mk_sets (s_eu s) (s_eg s) (s_au s) (s_ag s) l (s_ia s).

Lemma on_uids_repr avail m u s l :
  urepr u s →
  (∀ v, repr v (uids_of avail s) → op_spec m v (λ v', repr v' l) only_enomem) →
  op_spec (on_uids avail m) u (λ u', urepr u' (set_uids avail l s)) only_enomem.
Proof.
  intros (Heu & Hau & Heg & Hag) Hm. destruct avail; simpl in *.
  - eapply op_spec_weaken; [by apply op_spec_on, Hm| |by intros e u' (v & _ & ?)].
    intros u' (v & -> & Hv). by apply urepr_intro.
  - eapply op_spec_weaken; [by apply op_spec_on, Hm| |by intros e u' (v & _ & ?)].
    intros u' (v & -> & Hv). by apply urepr_intro.
Qed.

Lemma on_gids_repr avail m u s l :
  urepr u s → (∀ x, x ∈ imps_of avail s → x ∈ l) →
  (∀ v, repr v (gids_of avail s) → op_spec m v (λ v', repr v' l) only_enomem) →
  op_spec (on_gids avail m) u (λ u', urepr u' (set_gids avail l s)) only_enomem.
Proof.
  intros (Heu & Hau & Heg & Hag) Hsub Hm. unfold on_gids. destruct avail; simpl in *.
  - eapply op_spec_weaken; [eapply op_spec_on, op_spec_on, Hm, Hag| |].
    + simpl. intros u' (g & -> & v & -> & Hv). apply urepr_intro; try done. split; [done|]. by split; [apply Hag|].
    + by intros e u' (g & _ & v & _ & ?).
  - eapply op_spec_weaken; [eapply op_spec_on, op_spec_on, Hm, Heg| |].
    + simpl. intros u' (g & -> & v & -> & Hv). apply urepr_intro; try done. split; [done|]. by split; [apply Heg|].
    + by intros e u' (g & _ & v & _ & ?).
Qed.

Lemma on_imp_repr avail m u s l :
  urepr u s → (∀ x, x ∈ l → x ∈ gids_of avail s) →
  (∀ v, repr v (imps_of avail s) → op_spec m v (λ v', repr v' l) only_enomem) →
  op_spec (on_imp avail m) u (λ u', urepr u' (set_imps avail l s)) only_enomem.
Proof.
  intros (Heu & Hau & Heg & Hag) Hsub Hm. unfold on_imp. destruct avail; simpl in *.
  - eapply op_spec_weaken; [eapply op_spec_on, op_spec_on, Hm, Hag| |].
    + simpl. intros u' (g & -> & v & -> & Hv). apply urepr_intro; try done. split; [apply Hag|]. by split.
    + by intros e u' (g & _ & v & _ & ?).
  - eapply op_spec_weaken; [eapply op_spec_on, op_spec_on, Hm, Heg| |].
    + simpl. intros u' (g & -> & v & -> & Hv). apply urepr_intro; try done. split; [apply Heg|]. by split.
    + by intros e u' (g & _ & v & _ & ?).
Qed.

Lemma op_spec_enomem {S} (m : op S) s (Q : S → Prop) (E : error_t → S → Prop) :
  op_spec m s Q E → (∀ e s', E e s' → e = ENOMEM) → op_spec m s Q only_enomem.
Proof. intros Hm HE. by eapply op_spec_weaken. Qed.

(** The lists after the group part of [ugids_set_posix_user]. *)
Definition posix_gids (gid : Z) (gs : list Z) (s : id_sets) : id_sets :=
  let new := filter (λ x, x ∉ s_eg s) gs in
  mk_sets (s_eu s) (union_of (insert_only 0 gid (s_eg s)) new) (s_au s)
    (insert_only 1 gid (real gid (s_ag s))) (union_of (s_ie s) new)
    (if decide (gid ∈ s_ag s) then s_ia s else s_ia s ++ [gid]).

Lemma insert_only_1_real id l x : x ∈ insert_only 1 id (real id l) ↔ x = id ∨ x ∈ l.
Proof.
  rewrite insert_only_1, elem_of_real; [tauto|].
  intros Hn. pose proof (real_head id l) as Hh. by rewrite Hn in Hh.
Qed.

Lemma insert_only_enomem v l pos id :
  repr v l → 0 ≤ pos → small (Z.max pos (zlen l)) →
  op_spec (idvec_insert_only pos id) v (λ v', repr v' (insert_only pos id l)) only_enomem.
Proof.
  intros. eapply op_spec_enomem; [by apply idvec_insert_only_spec|by intros ?? [-> _]].
Qed.

Lemma merge_enomem v l new k :
  repr v l → reads new k → small (zlen l + zlen k) →
  op_spec (idvec_merge new) v (λ v', repr v' (union_of l k)) only_enomem.
Proof.
  intros. eapply op_spec_enomem; [by apply idvec_merge_spec|by intros ?? [-> _]].
Qed.

(** The three slots of a group id. *)
Lemma posix_gid_slots u s gid k (Q : ugids → Prop) :
  urepr u s → small (zlen (s_eg s)) → small (zlen (s_ag s) + 2) →
  (∀ u', urepr u' (set_gids true (insert_only 1 gid (real gid (s_ag s)))
                     (set_gids false (insert_only 0 gid (s_eg s)) s)) →
     op_spec k u' Q only_enomem) →
  op_spec (on_gids false (idvec_insert_only 0 gid)
           ;;? on_gids true (update_real gid) ;;? on_gids true (idvec_insert_only 1 gid) ;;? k)
    u Q only_enomem.
Proof.
  intros Hu F1 F2 Hk. pose proof Hu as (_ & _ & (_ & _ & He) & (_ & _ & Ha)). simpl in He, Ha.
  pose proof (real_length gid (s_ag s)). eapply op_spec_seq.
  { apply (on_gids_repr false _ u s (insert_only 0 gid (s_eg s)) Hu).
    - intros x Hx. apply insert_only_0_elem. auto.
    - intros v Hv. apply insert_only_enomem; [done|lia|]. unfold small in *. simpl. lia. }
  intros u1 Hu1. eapply op_spec_seq.
  { apply (on_gids_repr true _ u1 _ (real gid (s_ag s)) Hu1).
    - intros x Hx. apply elem_of_real. auto.
    - intros v Hv. apply update_real_spec; [done|]. unfold small in *. simpl. lia. }
  intros u2 Hu2. eapply op_spec_seq; [|exact Hk].
  apply (on_gids_repr true _ u2 _ (insert_only 1 gid (real gid (s_ag s))) Hu2).
  - intros x Hx. apply insert_only_1_real. auto.
  - intros v Hv. apply insert_only_enomem; [done|lia|]. unfold small in *. simpl. lia.
Qed.

Lemma set_posix_groups_spec u s imp gid gs :
  urepr u s → repr imp (gid :: gs) →
  small (zlen (s_eg s) + zlen gs + 2) → small (zlen (s_ie s) + zlen gs + 1) →
  small (zlen (s_ag s) + 2) → small (zlen (s_ia s)) →
  op_spec (set_posix_groups imp) u (λ u', urepr u' (posix_gids gid (gid :: gs) s)) only_enomem.
Proof.
  intros Hu Himp F1 F2 F3 F4 o. unfold set_posix_groups. pose proof Hu as (_ & _ & Heg & Hag).
  pose proof (proj2 (proj2 Heg)) as He. pose proof (proj2 (proj2 Hag)) as Ha.
  rewrite (get_id_reads imp (gid :: gs) 0 gid) by (done || by apply repr_reads). simpl.
  rewrite (idvec_contains_spec _ (s_ag s)) by apply repr_reads, Hag. simpl.
  destruct (idvec_subtract_spec imp _ (eff_gids u) (s_eg s) Himp (repr_reads _ _ (proj1 Heg)))
    as (imp' & d & -> & Himp' & _). simpl.
  set (new := filter (λ x, x ∉ s_eg s) (gid :: gs)) in *.
  assert (Hnew : zlen new ≤ zlen gs + 1).
  { pose proof (length_filter (λ x, x ∉ s_eg s) (gid :: gs)) as Hl. simpl in Hl. fold new in Hl. lia. }
  pose proof (insert_only_length 0 gid (s_eg s)).
  set (ia' := if decide (gid ∈ s_ag s) then s_ia s else s_ia s ++ [gid]).
  revert o. apply (posix_gid_slots u s gid); [done|unfold small in *; lia|done|].
  intros u3 Hu3. apply (op_spec_seq _ _ _ (λ u', urepr u' (set_imps true ia'
      (set_gids true (insert_only 1 gid (real gid (s_ag s)))
         (set_gids false (insert_only 0 gid (s_eg s)) s))))).
  { unfold ia'. destruct (decide (gid ∈ s_ag s)) as [Hin|Hin].
    - rewrite bool_decide_true by done. by apply op_spec_ret.
    - rewrite bool_decide_false by done. apply (on_imp_repr true _ u3 _ _ Hu3).
      + simpl. intros x. rewrite elem_of_app, list_elem_of_singleton, insert_only_1_real.
        intros [?|?]; auto.
      + intros v Hv. eapply op_spec_enomem; [by apply idvec_add_spec|by intros ?? [-> _]]. }
  intros u4 Hu4. eapply op_spec_seq.
  { apply (on_gids_repr false _ u4 _ (union_of (insert_only 0 gid (s_eg s)) new) Hu4).
    - simpl. intros x Hx. apply elem_of_merge. left. apply insert_only_0_elem. auto.
    - intros v Hv. apply merge_enomem; [done|by apply repr_reads|]. unfold small in *. simpl in *. lia. }
  intros u5 Hu5. apply (on_imp_repr false _ u5 _ (union_of (s_ie s) new) Hu5).
  - simpl. intros x. unfold union_of. rewrite !elem_of_merge, insert_only_0_elem.
    intros [?|?]; auto.
  - intros v Hv. apply merge_enomem; [done|by apply repr_reads|]. unfold small in *. simpl in *. lia.
Qed.

(** The lists after [ugids_set_posix_user]. *)
Definition posix_uids (uid : Z) (s : id_sets) : id_sets :=
  set_uids true (insert_only 1 uid (real uid (s_au s)))
    (set_uids false (insert_only 0 uid (s_eu s)) s).
Definition posix_sets (uid : Z) (gs : list Z) (s : id_sets) : id_sets :=
  match gs with [] => posix_uids uid s | gid :: _ => posix_gids gid gs (posix_uids uid s) end.

Section posix.
Context (user_groups : Z → option (list Z)).

Lemma ugids_set_posix_user_spec u s cache uid :
  urepr u s → cache_ok user_groups cache →
  small (zlen (s_eu s)) → small (zlen (s_au s) + 2) →
  small (zlen (s_eg s) + zlen (groups_of user_groups uid) + 1) →
  small (zlen (s_ie s) + zlen (groups_of user_groups uid)) →
  small (zlen (s_ag s) + 2) → small (zlen (s_ia s)) →
  ∃ u' cache', ugids_set_posix_user user_groups uid (u, cache) [] = Some (E0, (u', cache'), [])
    ∧ urepr u' (posix_sets uid (groups_of user_groups uid) s) ∧ cache_ok user_groups cache'.
Proof.
  intros Hu Hc F1 F2 F3 F4 F5 F6. unfold ugids_set_posix_user.
  destruct (idvec_merge_implied_one user_groups uid cache [] Hc)
    as (err & imp & cache' & o1 & l' & -> & Hr & Hc' & Hpre & Ho); [unfold small in *; lia|].
  destruct Ho as (-> & -> & _); [done|]. rewrite filter_not_nil in Hr. simpl in Hr.
  cbn [mbind option_bind]. pose proof (real_length uid (s_au s)).
  assert (Hm : op_spec (on_uids false (idvec_insert_only 0 uid)
     ;;? on_uids true (update_real uid)
     ;;? on_uids true (idvec_insert_only 1 uid)
     ;;? (if decide (0 < num imp) then set_posix_groups imp else op_ret E0)) u
     (λ u', urepr u' (posix_sets uid (groups_of user_groups uid) s)) only_enomem).
  { eapply op_spec_seq.
    { apply (on_uids_repr false _ u s (insert_only 0 uid (s_eu s)) Hu). intros v Hv.
      apply insert_only_enomem; [done|lia|]. unfold small in *. simpl. lia. }
    intros u1 Hu1. eapply op_spec_seq.
    { apply (on_uids_repr true _ u1 _ (real uid (s_au s)) Hu1). intros v Hv.
      apply update_real_spec; [done|]. unfold small in *. simpl. lia. }
    intros u2 Hu2. eapply op_spec_seq.
    { apply (on_uids_repr true _ u2 _ (insert_only 1 uid (real uid (s_au s))) Hu2). intros v Hv.
      apply insert_only_enomem; [done|lia|]. unfold small in *. simpl. lia. }
    intros u3 Hu3. rewrite (proj1 (repr_reads _ _ Hr)).
    destruct (groups_of user_groups uid) as [|gid gs]; simpl.
    - by apply op_spec_ret.
    - apply (set_posix_groups_spec u3 (posix_uids uid s)); try done; unfold small in *; simpl in *; lia. }
  destruct (Hm []) as (err2 & u' & o2 & -> & Ho2 & Hp). destruct Ho2 as [-> Hne]; [done|].
  destruct Hp as [[-> Hu']|[_ ?]]; [|done]. by exists u', cache'.
Qed.
End posix.

(** ** Properties *)

(** [ugids_merge] unites the ids of each kind; a group is implied in the
    result when it is implied in one of the sources and explicit in neither.
    The implied groups stay a subset of the groups, also when memory runs
    out. *)
Theorem ugids_merge_correct u s new t :
  urepr u s → urepr new t → fits s t →
  op_spec (ugids_merge new) u
    (λ u', ∃ r, urepr u' r
       ∧ (∀ x, x ∈ s_eu r ↔ x ∈ s_eu s ∨ x ∈ s_eu t)
       ∧ (∀ x, x ∈ s_au r ↔ x ∈ s_au s ∨ x ∈ s_au t)
       ∧ (∀ x, x ∈ s_eg r ↔ x ∈ s_eg s ∨ x ∈ s_eg t)
       ∧ (∀ x, x ∈ s_ag r ↔ x ∈ s_ag s ∨ x ∈ s_ag t)
       ∧ (∀ x, x ∈ s_ie r ↔ (x ∈ s_ie s ∨ x ∈ s_ie t)
                            ∧ (x ∈ s_eg s → x ∈ s_ie s) ∧ (x ∈ s_eg t → x ∈ s_ie t))
       ∧ (∀ x, x ∈ s_ia r ↔ (x ∈ s_ia s ∨ x ∈ s_ia t)
                            ∧ (x ∈ s_ag s → x ∈ s_ia s) ∧ (x ∈ s_ag t → x ∈ s_ia t)))
    (λ e u', e = ENOMEM ∧ ugids_wf u').
Proof.
  intros Hu Ht Hf. eapply op_spec_weaken; [by apply (ugids_merge_spec u s new t)| |done].
  intros u' Hu'. exists (merged s t). split; [done|]. unfold union_of, merged. simpl.
  do 4 (split; [intros x; apply elem_of_merge|]).
  split; intros x; apply elem_of_merged_imp.
Qed.

Lemma urepr_init : urepr UGIDS_INIT no_ids.
Proof.
  apply urepr_intro; try exact repr_init; (split; [exact repr_init|]);
    (split; [exact repr_init|]); by intros x ?%elem_of_nil.
Qed.

Lemma ugids_merge_correct_witness :
  op_spec (ugids_merge UGIDS_INIT) UGIDS_INIT (λ u', ugids_wf u') (λ _ u', ugids_wf u').
Proof.
  eapply op_spec_weaken.
  - apply (ugids_merge_correct UGIDS_INIT no_ids UGIDS_INIT no_ids urepr_init urepr_init).
    repeat split; simpl; lia.
  - intros u' (r & Hr & _). by exists r.
  - by intros e u' [_ ?].
Defined.

(** [ugids_add_user] with memory available adds the user, and its groups
    as implied ones unless they were there already: explicit groups stay
    explicit.  An unknown user is added without groups and without an error. *)
Theorem ugids_add_user_correct user_groups u s cache uid avail :
  urepr u s → cache_ok user_groups cache → small (zlen (groups_of user_groups uid)) →
  small (zlen (uids_of avail s)) →
  small (zlen (gids_of avail s) + zlen (groups_of user_groups uid)) →
  small (zlen (imps_of avail s) + zlen (groups_of user_groups uid)) →
  ∃ u' cache' o' r,
    ugids_add_user user_groups uid avail (u, cache) [] = Some (E0, (u', cache'), o')
    ∧ urepr u' r ∧ cache_ok user_groups cache'
    ∧ (∀ x, x ∈ uids_of avail r ↔ x = uid ∨ x ∈ uids_of avail s)
    ∧ (∀ x, x ∈ gids_of avail r ↔ x ∈ gids_of avail s ∨ x ∈ groups_of user_groups uid)
    ∧ (∀ x, x ∈ imps_of avail r ↔
         x ∈ imps_of avail s ∨ x ∈ groups_of user_groups uid ∧ (x ∉ gids_of avail s)).
Proof.
  intros Hu Hc F0 F1 F2 F3.
  destruct (ugids_add_user_spec user_groups u s cache uid avail [] Hu Hc F0 F1 F2 F3)
    as (err & u' & cache' & o' & H & _ & Hc' & Ho). destruct Ho as [-> Hu']; [done|].
  eexists u', cache', o', _. split; [done|]. split; [exact Hu'|]. split; [done|].
  destruct avail; simpl; unfold union_of.
  - split; [intros x; apply add_new_elem|].
    split; intros x; rewrite elem_of_merge, list_elem_of_filter; [|tauto].
    destruct (decide (x ∈ s_ag s)); tauto.
  - split; [intros x; apply add_new_elem|].
    split; intros x; rewrite elem_of_merge, list_elem_of_filter; [|tauto].
    destruct (decide (x ∈ s_eg s)); tauto.
Qed.

Definition some_groups (uid : Z) : option (list Z) := if decide (uid = 1) then Some [10; 20] else None.

Lemma cache_ok_nil user_groups : cache_ok user_groups [].
Proof. by intros uid w. Qed.

Lemma ugids_add_user_correct_witness :
  ∃ u' cache' o' r, ugids_add_user some_groups 1 false (UGIDS_INIT, []) [] = Some (E0, (u', cache'), o')
    ∧ urepr u' r ∧ 20 ∈ imps_of false r.
Proof.
  destruct (ugids_add_user_correct some_groups UGIDS_INIT no_ids [] 1 false)
    as (u' & cache' & o' & r & H & Hr & _ & _ & _ & Hi).
  - exact urepr_init.
  - apply cache_ok_nil.
  - vm_compute. reflexivity.
  - vm_compute. reflexivity.
  - vm_compute. reflexivity.
  - vm_compute. reflexivity.
  - exists u', cache', o', r. split; [exact H|]. split; [exact Hr|]. apply Hi. right.
    split; [|by intros ?%elem_of_nil]. apply (bool_decide_unpack _). vm_compute. exact I.
Defined.

(** [ugids_set_posix_user] with memory available fills the POSIX slots:
    the user is the first effective and the first two available uids (real and
    saved), its first group likewise among the groups, and no id is lost. *)
Theorem ugids_set_posix_user_correct user_groups u s cache uid :
  urepr u s → cache_ok user_groups cache →
  small (zlen (s_eu s)) → small (zlen (s_au s) + 2) →
  small (zlen (s_eg s) + zlen (groups_of user_groups uid) + 1) →
  small (zlen (s_ie s) + zlen (groups_of user_groups uid)) →
  small (zlen (s_ag s) + 2) → small (zlen (s_ia s)) →
  ∃ u' cache' r,
    ugids_set_posix_user user_groups uid (u, cache) [] = Some (E0, (u', cache'), [])
    ∧ urepr u' r ∧ cache_ok user_groups cache'
    ∧ s_eu r !z 0 = Some uid ∧ s_au r !z 0 = Some uid ∧ s_au r !z 1 = Some uid
    ∧ (∀ x, x ∈ s_eu r ↔ x = uid ∨ x ∈ s_eu s) ∧ (∀ x, x ∈ s_au r ↔ x = uid ∨ x ∈ s_au s)
    ∧ (∀ gid, head (groups_of user_groups uid) = Some gid →
         s_eg r !z 0 = Some gid ∧ s_ag r !z 0 = Some gid ∧ s_ag r !z 1 = Some gid
         ∧ (∀ x, x ∈ s_eg r ↔ x ∈ s_eg s ∨ x ∈ groups_of user_groups uid)
         ∧ (∀ x, x ∈ s_ag r ↔ x = gid ∨ x ∈ s_ag s)).
Proof.
  intros Hu Hc F1 F2 F3 F4 F5 F6.
  destruct (ugids_set_posix_user_spec user_groups u s cache uid Hu Hc F1 F2 F3 F4 F5 F6)
    as (u' & cache' & H & Hu' & Hc').
  set (gs := groups_of user_groups uid) in *. eexists u', cache', _. split; [done|].
  split; [exact Hu'|]. split; [done|].
  assert (Huids : s_eu (posix_sets uid gs s) = insert_only 0 uid (s_eu s)
                  ∧ s_au (posix_sets uid gs s) = insert_only 1 uid (real uid (s_au s)))
    by by destruct gs.
  destruct Huids as [-> ->]. split; [apply insert_only_0|].
  destruct (posix_slots uid (s_au s)) as [? ?]. do 2 (split; [done|]).
  split; [intros x; apply insert_only_0_elem|]. split; [intros x; apply insert_only_1_real|].
  intros gid Hgid. destruct gs as [|g gs]; [done|]. injection Hgid as ->. simpl.
  destruct (posix_slots gid (s_ag s)) as [? ?].
  split; [|do 2 (split; [done|]); split; [|intros x; apply insert_only_1_real]].
  - pose proof (insert_only_0 gid (s_eg s)) as Hh. unfold union_of.
    by destruct (insert_only 0 gid (s_eg s)).
  - intros x. unfold union_of. rewrite elem_of_merge, insert_only_0_elem.
    rewrite list_elem_of_filter, elem_of_cons. destruct (decide (x ∈ s_eg s)); tauto.
Qed.

Lemma ugids_set_posix_user_correct_witness :
  ∃ u' cache' r,
    ugids_set_posix_user some_groups 1 (UGIDS_INIT, []) [] = Some (E0, (u', cache'), [])
    ∧ urepr u' r ∧ s_au r !z 1 = Some 1.
Proof.
  destruct (ugids_set_posix_user_correct some_groups UGIDS_INIT no_ids [] 1)
    as (u' & cache' & r & H & Hr & _ & _ & _ & Hs & _).
  - exact urepr_init.
  - apply cache_ok_nil.
  - vm_compute. reflexivity.
  - vm_compute. reflexivity.
  - vm_compute. reflexivity.
  - vm_compute. reflexivity.
  - vm_compute. reflexivity.
  - vm_compute. reflexivity.
  - exists u', cache', r. split; [exact H|]. split; [exact Hr|exact Hs].
Defined.

(** Two calls break the rule that implied groups are groups: subtracting
    a user removes its groups and leaves them implied, and [ugids_imply_all]
    marks groups as implied that are not in the set. *)
Theorem ugids_implied_not_subset :
  (∃ u u' cache cache', ugids_add_user some_groups 1 false (UGIDS_INIT, []) [] = Some (E0, (u, cache), [])
     ∧ ugids_subtract some_groups u (u, cache) [] = Some (E0, (u', cache'), [])
     ∧ num (eff_gids u') = 0 ∧ num (imp_eff_gids u') = 2)
  ∧ (∃ u u' cache, ugids_add_uid 1 false UGIDS_INIT [] = Some (E0, u, [])
     ∧ ugids_imply_all some_groups (u, []) [] = Some (E0, (u', cache), [])
     ∧ num (eff_gids u') = 0 ∧ num (imp_eff_gids u') = 2).
Proof.
  split.
  - do 4 eexists. split; [vm_compute; reflexivity|]. split; [vm_compute; reflexivity|]. done.
  - do 3 eexists. split; [vm_compute; reflexivity|]. split; [vm_compute; reflexivity|]. done.
Qed.
