(* ===== verification/Iouser.v ===== *)
(** * Users of I/O servers and file permissions (src/libiohelp/iouser-*.c,
      src/libfshelp/perms-*.c)

    An I/O user is a pair of id vectors.  The calls that make one return an
    error code and the new user, [None] for the null pointer; those that check
    permissions return an error code. *)

From S2P Require Import Prelude Idvec.

(** ** Data *)

(** [struct iouser] *)
Record iouser := mk_iouser { uids : idvec; gids : idvec }.

(** What the pointer to the new user holds when a call returns: what it held
    before, null, a new user, or the address of freed memory. *)
Inductive user_ptr := Unset | Null | New (user : iouser) | Freed.

(** The result of a call that creates a user. *)
Abbreviation created := (option (error_t * user_ptr * allocs)) (only parsing).

(** ** Creation (iouser-create.c) *)

Definition iohelp_create_iouser (u g : idvec) (o : allocs) : created :=
  let '(ok, o') := alloc o in
  if ok then Some (E0, New (mk_iouser u g), o') else Some (ENOMEM, Null, o').

(** The two vectors of a new user; [p] is what the caller gets on failure. *)
Definition with_idvecs (p : user_ptr) (k : idvec → idvec → allocs → created) (o : allocs) : created :=
  let '(u, o1) := make_idvec o in
  match u with
  | None => Some (ENOMEM, p, o1)
  | Some u =>
      let '(g, o2) := make_idvec o1 in
      match g with
      | None => Some (ENOMEM, p, o2)
      | Some g => k u g o2
      end
  end.

(** A call whose error ends the creation, with [p] for the caller. *)
Definition check_call (p : user_ptr) (r : option (error_t * idvec * allocs))
    (k : idvec → allocs → created) : created :=
  '(err, v, o) ← r; if decide (err = E0) then k v o else Some (err, p, o).

Definition iohelp_create_empty_iouser : allocs → created := with_idvecs Null iohelp_create_iouser.

Definition iohelp_create_simple_iouser (uid gid : Z) : allocs → created :=
  with_idvecs Null (λ u g o,
    check_call Null (idvec_add uid u o) (λ u o,
    check_call Null (idvec_add gid g o) (λ g o,
    iohelp_create_iouser u g o))).

Definition iohelp_create_complex_iouser (uvec gvec : list Z) : allocs → created :=
  with_idvecs Null (λ u g o,
    check_call Null (idvec_set_ids uvec u o) (λ u o,
    check_call Null (idvec_set_ids gvec g o) (λ g o,
    iohelp_create_iouser u g o))).

(** The structure and its two vectors, allocated before any of the vectors is
    checked; [p] is what the caller gets when a vector is missing. *)
Definition with_iouser (p : user_ptr) (k : idvec → idvec → allocs → created) (o : allocs) : created :=
  let '(ok, o0) := alloc o in
  if ok then
    let '(u, o1) := make_idvec o0 in
    let '(g, o2) := make_idvec o1 in
    match u, g with
    | Some u, Some g => k u g o2
    | _, _ => Some (ENOMEM, p, o2)
    end
  else Some (ENOMEM, Null, o0).

(** ** Copies (iouser-dup.c) *)

Definition iohelp_dup_iouser (old : iouser) : allocs → created :=
  with_iouser Null (λ u g o,
    check_call Null (idvec_set (uids old) u o) (λ u o,
    check_call Null (idvec_set (gids old) g o) (λ g o,
    Some (E0, New (mk_iouser u g), o)))).

(** ** Restriction (iouser-restrict.c) *)

Fixpoint listmember (l : list Z) (query : Z) : bool :=
  match l with
  | [] => false
  | x :: l' => if decide (x = query) then true else listmember l' query
  end.

(** Adds the [n] ids of [old] from the [i]th on that are in [l]. *)
Fixpoint add_members (n : nat) (l : list Z) (old : idvec) (i : Z) : op idvec := λ v o,
  match n with
  | O => Some (E0, v, o)
  | S n' =>
      id ← get_id old i;
      if listmember l id then (idvec_add id ;;? add_members n' l old (i + 1)) v o
      else add_members n' l old (i + 1) v o
  end.

Definition iohelp_restrict_iouser (old : iouser) (uvec gvec : list Z) (o : allocs) : created :=
  root ← idvec_contains (uids old) 0;
  if root : bool then iohelp_create_complex_iouser uvec gvec o
  else
    with_idvecs Unset (λ u g o,
      check_call Unset (add_members (Z.to_nat (num (uids old))) uvec (uids old) 0 u o) (λ u o,
      check_call Unset (add_members (Z.to_nat (num (gids old))) gvec (gids old) 0 g o) (λ g o,
      iohelp_create_iouser u g o))) o.

(** ** Reauthentication (iouser-reauth.c)

    [replies] are the results of the successive [auth_server_authenticate]
    calls, an error or the effective uids and gids; without a reply the call
    has not returned. *)
Abbreviation auth_reply := (error_t + list Z * list Z)%type (only parsing).

Fixpoint auth_reply_of (replies : list auth_reply) : option auth_reply :=
  match replies with
  | [] => None
  | inl EINTR :: replies' => auth_reply_of replies'
  | r :: _ => Some r
  end.

Definition iohelp_reauth (replies : list auth_reply) (permit_failure : bool) : allocs → created :=
  with_iouser Freed (λ u g o,
    r ← auth_reply_of replies;
    match r, permit_failure with
    | inl err, false => Some (err, Null, o)
    | _, _ =>
        let '(gen_uids, gen_gids) := match r with inr ids => ids | inl _ => ([], []) end in
        check_call Null (idvec_set_ids gen_uids u o) (λ u o,
        check_call Null (idvec_set_ids gen_gids g o) (λ g o,
        Some (E0, New (mk_iouser u g), o)))
    end).

(** ** Permissions (perms-isowner.c, perms-access.c, perms-checkdirmod.c,
       perms-iscontroller.c) *)

(** The fields of [struct stat] that matter. *)
Record stat := mk_stat { st_mode : Z; st_uid : Z; st_gid : Z }.

(** [a || b] and [a && b] on calls. *)
Definition or_call (a b : option bool) : option bool := x ← a; if x : bool then Some true else b.
Definition and_call (a b : option bool) : option bool := x ← a; if x : bool then b else Some false.

Definition fshelp_isowner (st : stat) (user : iouser) : option error_t :=
  c ← or_call (idvec_contains (uids user) (st_uid st))
        (or_call (idvec_contains (uids user) 0)
           (and_call (idvec_contains (gids user) (st_gid st))
                     (idvec_contains (uids user) (st_gid st))));
  Some (if c : bool then E0 else EPERM).

Definition S_IREAD : Z := 0x100.
Definition S_IWRITE : Z := 0x80.
Definition S_IEXEC : Z := 0x40.
Definition S_IXALL : Z := 0x49.
Definition S_IFMT : Z := 0xf000.
Definition S_IFREG : Z := 0x8000.
Definition S_ISVTX : Z := 0x200.

Section permissions.
(** The mode bits for users without ids are particular to the system. *)
Context (S_IUSEUNK S_IUNKSHIFT : Z).
Context (geteuid : Z).

Definition fshelp_access (st : stat) (op : Z) (user : iouser) : option error_t :=
  root ← idvec_contains (uids user) 0;
  gotit ←
    (if root : bool then
       Some (bool_decide (op ≠ S_IEXEC) || bool_decide (Z.land (st_mode st) S_IFMT ≠ S_IFREG)
             || bool_decide (Z.land (st_mode st) S_IXALL ≠ 0))
     else if decide (num (uids user) = 0 ∧ Z.land (st_mode st) S_IUSEUNK ≠ 0) then
       Some (bool_decide (Z.land (st_mode st) (Z.shiftl op S_IUNKSHIFT) ≠ 0))
     else
       owner ← fshelp_isowner st user;
       if decide (owner = E0) then Some (bool_decide (Z.land (st_mode st) op ≠ 0))
       else
         group ← idvec_contains (gids user) (st_gid st);
         if group : bool then Some (bool_decide (Z.land (st_mode st) (Z.shiftr op 3) ≠ 0))
         else Some (bool_decide (Z.land (st_mode st) (Z.shiftr op 6) ≠ 0)));
  Some (if gotit : bool then E0 else EACCES).

Definition fshelp_checkdirmod (dir : stat) (st : option stat) (user : iouser) : option error_t :=
  err ← fshelp_access dir S_IWRITE user;
  if decide (err = E0) then
    match st with
    | Some st =>
        if decide (Z.land (st_mode dir) S_ISVTX ≠ 0) then
          d ← fshelp_isowner dir user;
          if decide (d = E0) then Some E0
          else f ← fshelp_isowner st user; Some (if decide (f = E0) then E0 else EACCES)
        else Some E0
    | None => Some E0
    end
  else Some err.

Definition fshelp_iscontroller (st : stat) (user : iouser) : option error_t :=
  c ← or_call (idvec_contains (uids user) 0)
        (or_call (idvec_contains (uids user) (st_uid st)) (idvec_contains (uids user) geteuid));
  Some (if c : bool then E0 else EPERM).
End permissions.

(** ** Creation *)

Lemma returns_alloc {S} o (k1 k2 : allocs → option (error_t * S * allocs)) Q E :
  (∀ o', (o = [] → o' = []) → returns o' (k1 o') Q E) →
  (∀ o', o ≠ [] → returns o (k2 o') Q E) →
  returns o (let '(ok, o') := alloc o in if ok then k1 o' else k2 o') Q E.
Proof.
  intros H1 H2. destruct o as [|[] o'] eqn:Eo; simpl.
  - by apply H1.
  - eapply returns_mono; [|by apply H1]. done.
  - by apply H2.
Qed.

(** A call that fails returns [ENOMEM] and leaves no user behind. *)
Definition no_user (e : error_t) (p : user_ptr) : Prop := e = ENOMEM ∧ (p = Null ∨ p = Unset).

(** The new user has the ids [lu] and [lg]. *)
Definition new_user (lu lg : list Z) (p : user_ptr) : Prop :=
  ∃ u, p = New u ∧ repr (uids u) lu ∧ repr (gids u) lg.

Lemma returns_enomem {S} o o' (p : S) Q (E : error_t → S → Prop) :
  E ENOMEM p → o ≠ [] → returns o (Some (ENOMEM, p, o')) Q E.
Proof. intros. by apply returns_error. Qed.

Lemma create_iouser_spec u g lu lg o :
  repr u lu → repr g lg → returns o (iohelp_create_iouser u g o) (new_user lu lg) no_user.
Proof.
  intros. unfold iohelp_create_iouser. apply returns_alloc.
  - intros o' _. apply returns_ok; [|done]. by eexists.
  - intros o' ?. apply returns_enomem; [|done]. unfold no_user. auto.
Qed.

Lemma with_idvecs_spec p k o Q (E : error_t → user_ptr → Prop) :
  E ENOMEM p →
  (∀ o', returns o' (k IDVEC_INIT IDVEC_INIT o') Q E) →
  returns o (with_idvecs p k o) Q E.
Proof.
  intros Hp Hk. unfold with_idvecs, make_idvec.
  destruct o as [|[] [|[] o]]; simpl; try apply returns_enomem; try done.
  all: eapply returns_mono; [|apply Hk]; done.
Qed.

Lemma with_iouser_spec p k o Q (E : error_t → user_ptr → Prop) :
  E ENOMEM p → E ENOMEM Null →
  (∀ o', returns o' (k IDVEC_INIT IDVEC_INIT o') Q E) →
  returns o (with_iouser p k o) Q E.
Proof.
  intros Hp Hn Hk. unfold with_iouser, make_idvec. apply returns_alloc.
  - intros o' _. destruct o' as [|[] [|[] o']]; simpl; try apply returns_enomem; try done.
    all: eapply returns_mono; [|apply Hk]; done.
  - intros o' ?. by apply returns_enomem.
Qed.

Lemma check_call_spec p (m : op idvec) v k o Qv Q (E : error_t → user_ptr → Prop) :
  op_spec m v Qv (λ e v', e = ENOMEM ∧ v' = v) → E ENOMEM p →
  (∀ v' o', Qv v' → returns o' (k v' o') Q E) →
  returns o (check_call p (m v o) k) Q E.
Proof.
  intros Hm Hp Hk. unfold check_call. eapply returns_bind; [apply Hm|..]; simpl.
  - intros v' o1 HQ _. by apply Hk.
  - intros e v' o1 [-> _] _ Ho. apply returns_error; [done|done|auto].
Qed.

Lemma create_complex_spec uvec gvec o :
  returns o (iohelp_create_complex_iouser uvec gvec o) (new_user uvec gvec) no_user.
Proof.
  apply with_idvecs_spec; [by split; auto|]. intros o1.
  eapply check_call_spec; [by apply (idvec_set_ids_spec _ []), repr_init|by split; auto|].
  intros u o2 Hu. simpl.
  eapply check_call_spec; [by apply (idvec_set_ids_spec _ []), repr_init|by split; auto|].
  intros g o3 Hg. by apply create_iouser_spec.
Qed.

(** ** Restriction *)

Lemma listmember_spec l x : listmember l x = bool_decide (x ∈ l).
Proof.
  induction l as [|y l IH]; simpl; [done|]. destruct (decide (y = x)) as [Hy|Hy].
  - subst. by rewrite bool_decide_true by set_solver.
  - rewrite IH. apply bool_decide_ext. set_solver.
Qed.

Lemma add_members_spec l old lo n pre post v acc :
  reads old lo → lo = pre ++ post → n = length post →
  repr v acc → small (zlen acc + zlen post) →
  ∀ o, returns o (add_members n l old (zlen pre) v o)
    (λ v', repr v' (acc ++ filter (λ x, x ∈ l) post)) (λ e _, e = ENOMEM).
Proof.
  intros Hold -> ->. revert pre v acc Hold.
  induction post as [|x post IH]; intros pre v acc Hold Hv Hs o; simpl.
  - apply returns_ok; [|done]. by rewrite app_nil_r.
  - rewrite (get_id_reads old _ (zlen pre) x Hold) by by apply lookupz_mid. simpl.
    replace (zlen pre + 1) with (zlen (pre ++ [x])) by (rewrite length_app; simpl; lia).
    assert (reads old ((pre ++ [x]) ++ post)) by by rewrite <- app_assoc.
    rewrite listmember_spec, filter_cons. case_bool_decide as Hx.
    + rewrite decide_True by done. eapply returns_bind; [apply (idvec_add_spec v acc); [done|]|..].
      * unfold small in *. simpl in *. lia.
      * intros v' o1 Hv' _. simpl. eapply returns_weaken;
          [apply (IH _ v' (acc ++ [x])); [done|done|]| |done].
        -- unfold small in *. rewrite length_app. simpl in *. lia.
        -- intros v''. by rewrite <- app_assoc.
      * intros e v' o1 [-> _] _ Ho. simpl. by apply returns_error.
    + rewrite decide_False by done. apply IH; [done|done|]. unfold small in *. simpl in *. lia.
Qed.

Lemma check_members_spec p l old lo k o Q (E : error_t → user_ptr → Prop) :
  reads old lo → small (zlen lo) → E ENOMEM p →
  (∀ v' o', repr v' (filter (λ x, x ∈ l) lo) → returns o' (k v' o') Q E) →
  returns o (check_call p (add_members (Z.to_nat (num old)) l old 0 IDVEC_INIT o) k) Q E.
Proof.
  intros Hold Hs Hp Hk. unfold check_call. eapply returns_bind.
  - apply (add_members_spec l old lo _ [] lo _ []); try done; [|apply repr_init].
    rewrite (proj1 Hold). lia.
  - intros v' o1 HQ _. by apply Hk.
  - intros e v' o1 -> _ Ho. simpl. by apply returns_error.
Qed.

(** C34. A user is restricted to the requested ids it has: the new user's ids
    are the old user's, in the same order, that are among the requested ones,
    and exactly the requested ones for a user with uid 0.  The call fails only
    for want of memory, and then leaves no user behind. *)
Theorem iouser_restrict_correct old lu lg uvec gvec o :
  reads (uids old) lu → reads (gids old) lg → small (zlen lu) → small (zlen lg) →
  returns o (iohelp_restrict_iouser old uvec gvec o)
    (λ p, if decide (0 ∈ lu) then new_user uvec gvec p
          else new_user (filter (λ x, x ∈ uvec) lu) (filter (λ x, x ∈ gvec) lg) p)
    no_user.
Proof.
  intros Hu Hg Hsu Hsg. unfold iohelp_restrict_iouser.
  rewrite (idvec_contains_spec _ lu) by done. simpl. case_decide as H0.
  - rewrite bool_decide_true by done. apply create_complex_spec.
  - rewrite bool_decide_false by done. apply with_idvecs_spec; [by split; auto|]. intros o1.
    eapply check_members_spec; [done|done|by split; auto|]. intros u o2 Hu'.
    eapply check_members_spec; [done|done|by split; auto|]. intros g o3 Hg'.
    by apply create_iouser_spec.
Qed.

Lemma iouser_restrict_correct_witness :
  returns [true; true; true; false]
    (iohelp_restrict_iouser (mk_iouser (const_idvec [7; 8]) (const_idvec [5])) [8; 0] [5] [true; true; true; false])
    (new_user [8] [5]) no_user.
Proof.
  exact (iouser_restrict_correct (mk_iouser (const_idvec [7; 8]) (const_idvec [5])) [7; 8] [5] [8; 0] [5]
    [true; true; true; false] (reads_const _) (reads_const _) eq_refl eq_refl).
Defined.

(** ** Reauthentication and copies *)

(** Interrupted calls are repeated. *)
Lemma auth_reply_of_spec n (r : error_t + list Z * list Z) replies :
  r ≠ inl EINTR → auth_reply_of (replicate n (inl EINTR) ++ r :: replies) = Some r.
Proof. intros Hr. induction n as [|n IH]; [|done]. by destruct r as [[]|?]. Qed.

Lemma set_both_spec lu lg o E :
  E ENOMEM Null →
  returns o (check_call Null (idvec_set_ids lu IDVEC_INIT o) (λ u o,
    check_call Null (idvec_set_ids lg IDVEC_INIT o) (λ g o, Some (E0, New (mk_iouser u g), o))))
    (new_user lu lg) E.
Proof.
  intros HE.
  eapply check_call_spec; [by apply (idvec_set_ids_spec _ []), repr_init|done|].
  intros u o1 Hu. simpl.
  eapply check_call_spec; [by apply (idvec_set_ids_spec _ []), repr_init|done|].
  intros g o2 Hg. apply returns_ok; [|done]. by eexists.
Qed.

(** Reauthentication, however often it is interrupted, gives the user the
    ids the auth server vouches for; a failed transaction gives its error, or a
    user without ids where failure is permitted.  The other error is the want
    of memory, after which the caller's pointer may be to freed memory: it is
    when only a vector cannot be allocated. *)
Theorem iouser_reauth_correct n r replies permit_failure o :
  r ≠ inl EINTR → r ≠ inl E0 → r ≠ inl ENOMEM →
  returns o (iohelp_reauth (replicate n (inl EINTR) ++ r :: replies) permit_failure o)
    (λ p, match r with
          | inr (lu, lg) => new_user lu lg p
          | inl _ => permit_failure = true ∧ new_user [] [] p
          end)
    (λ e p, e = ENOMEM ∧ (p = Null ∨ p = Freed)
            ∨ r = inl e ∧ permit_failure = false ∧ p = Null)
  ∧ iohelp_reauth (replicate n (inl EINTR) ++ r :: replies) permit_failure [true; false]
    = Some (ENOMEM, Freed, []).
Proof.
  intros Hr Hr0 Hrm. split; [|done]. unfold iohelp_reauth.
  apply with_iouser_spec; [by auto|by auto|]. intros o1. rewrite auth_reply_of_spec by done. simpl.
  destruct r as [e|[lu lg]]; [destruct permit_failure|].
  - eapply returns_weaken; [apply (set_both_spec [] [] _ (λ e p, e = ENOMEM ∧ p = Null)); done| |]; simpl.
    + auto.
    + intros ?? [-> ->]. auto.
  - apply returns_error; [congruence|by right|]. intros ->. split; [done|congruence].
  - eapply returns_weaken; [apply (set_both_spec lu lg _ (λ e p, e = ENOMEM ∧ p = Null)); done| |]; simpl.
    + auto.
    + intros ?? [-> ->]. auto.
Qed.

Lemma iouser_reauth_correct_witness :
  returns [] (iohelp_reauth [inl EINTR; inl EINTR; inr ([7], [5; 6])] false [])
    (new_user [7] [5; 6])
    (λ e p, e = ENOMEM ∧ (p = Null ∨ p = Freed) ∨ inr ([7], [5; 6]) = inl e ∧ false = false ∧ p = Null)
  ∧ iohelp_reauth [inl EINTR; inl EINTR; inr ([7], [5; 6])] false [true; false] = Some (ENOMEM, Freed, []).
Proof. apply (iouser_reauth_correct 2 (inr ([7], [5; 6])) [] false []); discriminate. Defined.

(** A copy has the ids of the original. *)
Lemma dup_iouser_spec old lu lg o :
  reads (uids old) lu → reads (gids old) lg →
  returns o (iohelp_dup_iouser old o) (new_user lu lg) no_user.
Proof.
  intros Hu Hg. apply with_iouser_spec; [by split; auto..|]. intros o1.
  eapply check_call_spec; [eapply (idvec_set_spec _ []); [apply repr_init|done]|by split; auto|].
  intros u o2 Hu'. simpl.
  eapply check_call_spec; [eapply (idvec_set_spec _ []); [apply repr_init|done]|by split; auto|].
  intros g o3 Hg'. apply returns_ok; [|done]. by eexists.
Qed.

Lemma create_simple_spec uid gid o :
  returns o (iohelp_create_simple_iouser uid gid o) (new_user [uid] [gid]) no_user.
Proof.
  apply with_idvecs_spec; [by split; auto|]. intros o1.
  eapply check_call_spec; [by apply (idvec_add_spec _ []); [apply repr_init|]|by split; auto|].
  intros u o2 Hu. simpl.
  eapply check_call_spec; [by apply (idvec_add_spec _ []); [apply repr_init|]|by split; auto|].
  intros g o3 Hg. by apply create_iouser_spec.
Qed.

(** ** Permissions *)

Definition owns (lu lg : list Z) (st : stat) : Prop :=
  st_uid st ∈ lu ∨ 0 ∈ lu ∨ (st_gid st ∈ lg ∧ st_gid st ∈ lu).

#[export] Instance owns_dec lu lg st : Decision (owns lu lg st).
Proof. apply _. Defined.

(** The access mode bit [b] (8 for reading, 7 for writing, 6 for executing) is
    granted by [st] to a user with ids [lu] and [lg]. *)
Definition granted (S_IUSEUNK S_IUNKSHIFT : Z) (lu lg : list Z) (st : stat) (b : Z) : bool :=
  if decide (0 ∈ lu) then
    bool_decide (b ≠ 6) || bool_decide (Z.land (st_mode st) S_IFMT ≠ S_IFREG)
    || Z.testbit (st_mode st) 6 || Z.testbit (st_mode st) 3 || Z.testbit (st_mode st) 0
  else if decide (lu = [] ∧ Z.land (st_mode st) S_IUSEUNK ≠ 0) then
    Z.testbit (st_mode st) (b + S_IUNKSHIFT)
  else if decide (owns lu lg st) then Z.testbit (st_mode st) b
  else if decide (st_gid st ∈ lg) then Z.testbit (st_mode st) (b - 3)
  else Z.testbit (st_mode st) (b - 6).

Lemma land_xall m :
  bool_decide (Z.land m S_IXALL ≠ 0) = Z.testbit m 6 || Z.testbit m 3 || Z.testbit m 0.
Proof.
  assert (E : Z.land m S_IXALL = Z.lor (Z.lor (Z.land m (2 ^ 6)) (Z.land m (2 ^ 3))) (Z.land m (2 ^ 0))).
  { rewrite <- !Z.land_lor_distr_r. done. }
  rewrite E, <- !land_bit by lia.
  generalize (Z.land m (2 ^ 6)), (Z.land m (2 ^ 3)), (Z.land m (2 ^ 0)). intros x y z.
  pose proof (Z.lor_eq_0_iff (Z.lor x y) z). pose proof (Z.lor_eq_0_iff x y).
  repeat case_bool_decide; simpl; try done; exfalso; lia.
Qed.

Section permission_lemmas.
Context (S_IUSEUNK S_IUNKSHIFT : Z) (user : iouser) (lu lg : list Z).
Hypothesis (unkshift_nonneg : 0 ≤ S_IUNKSHIFT).
Hypothesis (reads_uids : reads (uids user) lu) (reads_gids : reads (gids user) lg).

Lemma isowner_spec st :
  fshelp_isowner st user = Some (if decide (owns lu lg st) then E0 else EPERM).
Proof.
  unfold fshelp_isowner, or_call, and_call, owns.
  repeat (rewrite (idvec_contains_spec (uids user) lu) by done).
  repeat (rewrite (idvec_contains_spec (gids user) lg) by done). simpl.
  repeat (case_bool_decide; simpl); case_decide; try done; exfalso; tauto.
Qed.

Lemma access_spec st b :
  6 ≤ b ≤ 8 →
  fshelp_access S_IUSEUNK S_IUNKSHIFT st (2 ^ b) user
  = Some (if granted S_IUSEUNK S_IUNKSHIFT lu lg st b then E0 else EACCES).
Proof.
  intros Hb. unfold fshelp_access, granted.
  rewrite isowner_spec, (idvec_contains_spec (uids user) lu), (idvec_contains_spec (gids user) lg) by done. simpl.
  rewrite Z.shiftl_mul_pow2, !Z.shiftr_div_pow2, <- Z.pow_add_r by lia.
  rewrite <- !Z.pow_sub_r, !land_bit by lia.
  destruct (decide (0 ∈ lu)); [rewrite bool_decide_true by done|rewrite bool_decide_false by done].
  - rewrite land_xall, !orb_assoc.
    assert (bool_decide (2 ^ b ≠ S_IEXEC) = bool_decide (b ≠ 6)) as ->; [|done].
    apply bool_decide_ext. assert (b = 6 ∨ b = 7 ∨ b = 8) as [->|[->| ->]] by lia; done.
  - assert (num (uids user) = 0 ↔ lu = []) as Hn.
    { rewrite (proj1 reads_uids). destruct lu; simpl; [done|]. split; [lia|done]. }
    destruct (decide (num (uids user) = 0 ∧ _)), (decide (lu = [] ∧ _)); try (exfalso; tauto); [done|].
    simpl. destruct (decide (owns lu lg st)); simpl; [done|].
    destruct (decide (st_gid st ∈ lg)); [by rewrite bool_decide_true|by rewrite bool_decide_false].
Qed.
End permission_lemmas.

(** C33. A user with uid 0 may read and write every file whatever its mode bits
    are, and is refused only to execute a regular file that nobody may execute.
    For every other user access is decided by one mode bit: by the bit of the owner
    for the owner, of the group for its members, of the others otherwise, by the
    special bits for a user without ids where the file has them.  A directory may
    be changed by a user who may write it and, if it is sticky and the file
    exists, owns the directory or the file. *)
Theorem perms_correct S_IUSEUNK S_IUNKSHIFT user lu lg :
  0 ≤ S_IUNKSHIFT → reads (uids user) lu → reads (gids user) lg →
  (∀ st b, 6 ≤ b ≤ 8 →
    fshelp_access S_IUSEUNK S_IUNKSHIFT st (2 ^ b) user
    = Some (if granted S_IUSEUNK S_IUNKSHIFT lu lg st b then E0 else EACCES))
  ∧ (∀ dir file,
      fshelp_checkdirmod S_IUSEUNK S_IUNKSHIFT dir file user
      = Some (if granted S_IUSEUNK S_IUNKSHIFT lu lg dir 7
                 && (negb (Z.testbit (st_mode dir) 9)
                     || match file with
                        | Some st => bool_decide (owns lu lg dir ∨ owns lu lg st)
                        | None => true
                        end)
              then E0 else EACCES)).
Proof.
  intros Hsh Hu Hg. split; [intros st b; by apply access_spec|]. intros dir file.
  unfold fshelp_checkdirmod. change S_IWRITE with (2 ^ 7). change S_ISVTX with (2 ^ 9).
  rewrite (access_spec _ _ user lu lg) by (done || lia). cbn [mbind option_bind].
  pose proof (land_bit (st_mode dir) 9 ltac:(lia)) as H9.
  destruct (granted _ _ _ _ _ _); [|done]. cbn [andb decide].
  rewrite decide_True by done. destruct file as [st|]; [|by rewrite orb_true_r].
  rewrite <- H9. destruct (decide (Z.land (st_mode dir) (2 ^ 9) ≠ 0)) as [Hs|Hs].
  - rewrite (bool_decide_true (_ ≠ 0)) by done. repeat (rewrite (isowner_spec user lu lg) by done; simpl).
    clear H9. destruct (decide (owns lu lg dir)), (decide (owns lu lg st)); simpl; case_bool_decide; try done; exfalso; tauto.
  - by rewrite (bool_decide_false (_ ≠ 0)) by done.
Qed.

Lemma perms_correct_witness :
  fshelp_checkdirmod 0 0 (mk_stat 0x3ff 0 0) (Some (mk_stat 0x1a4 7 5)) (mk_iouser (const_idvec [7]) (const_idvec [5]))
  = Some E0.
Proof.
  exact (proj2 (perms_correct 0 0 (mk_iouser (const_idvec [7]) (const_idvec [5])) [7] [5]
    ltac:(lia) (reads_const _) (reads_const _)) (mk_stat 0x3ff 0 0) (Some (mk_stat 0x1a4 7 5))).
Defined.
