(* ===== verification/Flock.v ===== *)
(** * Whole-file locks (src/libfshelp/lock-acquire.c, lock-init.c)

    A file has one lock box, each of its opens one lock word.  A request runs
    under the mutex of the file until it returns or sleeps on the box; a sleeping
    request is run on when it is signalled, spuriously or not, or interrupted.
    The section on the system puts the requests of all opens of a file
    together, with any interleaving of their runs. *)

From S2P Require Import Prelude.

(** ** Data *)

(** [struct lock_box]; the sleepers of the condition are with the system. *)
Record lock_box := mk_box { type : Z; waiting : bool; shcount : Z }.

Definition LOCK_SH : Z := 1.
Definition LOCK_EX : Z := 2.
Definition LOCK_NB : Z := 4.
Definition LOCK_UN : Z := 8.
Definition LOCK_ATOMIC : Z := 16.

(** The pending upgrade of a shared lock. *)
Abbreviation LOCK_UP := (Z.lor LOCK_SH LOCK_EX).

Definition fshelp_lock_init : lock_box := mk_box LOCK_UN false 0.

(** [flags & mask] as a condition *)
Definition has (flags mask : Z) : bool := bool_decide (Z.land flags mask ≠ 0).

(** What a request works on: the box, the word of its open, and whether it has
    broadcast the condition. *)
Record view := mk_view { box : lock_box; user : Z; signalled : bool }.

Definition set_type (t : Z) (v : view) : view :=
  mk_view (mk_box t (waiting (box v)) (shcount (box v))) (user v) (signalled v).
Definition set_waiting (w : bool) (v : view) : view :=
  mk_view (mk_box (type (box v)) w (shcount (box v))) (user v) (signalled v).
Definition set_shcount (n : Z) (v : view) : view :=
  mk_view (mk_box (type (box v)) (waiting (box v)) n) (user v) (signalled v).
Definition set_user (u : Z) (v : view) : view := mk_view (box v) u (signalled v).

(** A request returns or sleeps in one of its two loops. *)
Inductive loop := ex_loop | sh_loop.
Inductive outcome := Ret (err : error_t) | Sleep (l : loop).

(** ** Operations *)

(** [if (box->waiting) { box->waiting = 0; pthread_cond_broadcast (&box->wait); }] *)
Definition wake (v : view) : view :=
  if waiting (box v) then
    let v := set_waiting false v in mk_view (box v) (user v) true
  else v.

(** The sleepers that a free box or the last lock beside an upgrade lets go on. *)
Definition wake_free (v : view) : view := if decide (type (box v) = LOCK_UN) then wake v else v.
Definition wake_upgrade (v : view) : view :=
  if decide (type (box v) = LOCK_UP ∧ shcount (box v) = 1) then wake v else v.

(** The box without the lock of this open. *)
Definition drop_shared (v : view) : view :=
  if decide (shcount (box v) - 1 = 0) then set_type LOCK_UN (set_shcount (shcount (box v) - 1) v)
  else set_shcount (shcount (box v) - 1) v.

Definition drop_lock (v : view) : view :=
  if decide (user v = LOCK_SH) then drop_shared v
  else if decide (user v = LOCK_EX) then set_type LOCK_UN v
  else v.

(** [LOCK_UN] *)
Definition release (v : view) : option (outcome * view) :=
  if has (user v) LOCK_UN then Some (Ret E0, v)
  else if decide ((user v = type (box v) ∨ user v = LOCK_SH ∧ type (box v) = LOCK_UP)
                  ∧ (user v = LOCK_SH ∨ user v = LOCK_EX ∨ user v = LOCK_UP)) then
    Some (Ret E0, set_user LOCK_UN (wake_upgrade (wake_free (drop_lock v))))
  else None.

(** The loop that waits for the shared locks, and the exclusive lock after it. *)
Definition mark_upgrade (atomic : bool) (v : view) : view :=
  if decide (user v = LOCK_SH ∧ atomic = true) then set_type LOCK_UP v else v.

Definition take_ex (v : view) : option (outcome * view) :=
  if decide (user v = LOCK_SH) then
    if decide (shcount (box v) = 1) then
      Some (Ret E0, set_user LOCK_EX (set_type LOCK_EX (set_shcount 0 v)))
    else None
  else Some (Ret E0, set_user LOCK_EX (set_type LOCK_EX v)).

Definition wait_sh (flags : Z) (atomic : bool) (v : view) : option (outcome * view) :=
  if decide (user v = LOCK_SH ∧ shcount (box v) > 1 ∨ user v = LOCK_UN ∧ type (box v) ≠ LOCK_UN) then
    if has flags LOCK_NB then Some (Ret EWOULDBLOCK, v)
    else Some (Sleep sh_loop, set_waiting true (mark_upgrade atomic v))
  else take_ex v.

(** The loop that waits for an exclusive lock or an upgrade, and what follows. *)
Definition wait_ex (flags : Z) (atomic : bool) (v : view) : option (outcome * view) :=
  if has (type (box v)) LOCK_EX then
    if has flags LOCK_NB then Some (Ret EWOULDBLOCK, v)
    else Some (Sleep ex_loop, set_waiting true v)
  else if has flags LOCK_SH then
    Some (Ret E0, set_shcount (shcount (box v) + 1) (set_type LOCK_SH (set_user LOCK_SH v)))
  else if has flags LOCK_EX then wait_sh flags atomic v
  else None.

(** The locks of the open are given up unless the change is to be atomic. *)
Definition drop_ex (v : view) : view :=
  if decide (user v = LOCK_EX) then wake (set_type LOCK_UN (set_user LOCK_UN v)) else v.

Definition drop_sh (v : view) : view :=
  if decide (user v = LOCK_SH) then
    wake_upgrade (if decide (shcount (box v) - 1 = 0) then wake (drop_shared (set_user LOCK_UN v))
                  else drop_shared (set_user LOCK_UN v))
  else v.

(** [LOCK_SH] or [LOCK_EX] *)
Definition acquire (flags : Z) (atomic : bool) (v : view) : option (outcome * view) :=
  if atomic && bool_decide (user v = Z.land flags LOCK_UP) then Some (Ret E0, v)
  else if atomic && bool_decide (user v = LOCK_EX) && has flags LOCK_SH then
    Some (Ret E0, wake (set_shcount 1 (set_type LOCK_SH (set_user LOCK_SH v))))
  else if atomic && bool_decide (user v = LOCK_SH) && bool_decide (type (box v) = LOCK_UP) then
    Some (Ret EDEADLK, v)
  else
    wait_ex flags atomic (if atomic then v else drop_sh (drop_ex v)).

(** The flags without [LOCK_ATOMIC], and without [LOCK_SH] next to [LOCK_EX]. *)
Definition norm_flags (flags : Z) : Z :=
  let flags := if has flags LOCK_ATOMIC then Z.ldiff flags LOCK_ATOMIC else flags in
  if has flags LOCK_EX then Z.ldiff flags LOCK_SH else flags.

Definition fshelp_acquire_lock (flags : Z) (v : view) : option (outcome * view) :=
  if negb (has flags (Z.lor LOCK_UN (Z.lor LOCK_EX LOCK_SH))) then Some (Ret E0, v)
  else if has flags LOCK_UN && has flags LOCK_UP then Some (Ret EINVAL, v)
  else
    let atomic := has flags LOCK_ATOMIC in
    let flags := norm_flags flags in
    if has flags LOCK_UN then release v else acquire flags atomic v.

(** A sleeping request runs on. *)
Definition resume (l : loop) (flags : Z) (atomic interrupted : bool) (v : view) : option (outcome * view) :=
  if interrupted then Some (Ret EINTR, v)
  else match l with
       | ex_loop => wait_ex flags atomic v
       | sh_loop => wait_sh flags atomic v
       end.

(** ** All the opens of a file *)

Record sleeper := mk_sleeper { s_loop : loop; s_flags : Z; s_atomic : bool; s_signalled : bool }.
Record open_file := mk_open { word : Z; sleeping : option sleeper }.
Record file := mk_file { f_box : lock_box; opens : list open_file }.

Definition new_file : file := mk_file fshelp_lock_init [].

Definition signal (o : open_file) : open_file :=
  mk_open (word o) ((λ s, mk_sleeper (s_loop s) (s_flags s) (s_atomic s) true) <$> sleeping o).

(** The file after a request of open [i] ran until it returned or slept. *)
Definition settle (i : nat) (flags : Z) (atomic : bool) (f : file) (r : outcome * view) : file :=
  let '(out, v) := r in
  let others := if signalled v then signal <$> opens f else opens f in
  let sl := match out with Ret _ => None | Sleep l => Some (mk_sleeper l flags atomic false) end in
  mk_file (box v) (<[i := mk_open (user v) sl]> others).

Definition view_of (f : file) (o : open_file) : view := mk_view (f_box f) (word o) false.

Inductive step (f : file) : file → Prop :=
| step_open : step f (mk_file (f_box f) (opens f ++ [mk_open LOCK_UN None]))
| step_request i o flags r :
    opens f !! i = Some o → sleeping o = None →
    fshelp_acquire_lock flags (view_of f o) = Some r →
    step f (settle i (norm_flags flags) (has flags LOCK_ATOMIC) f r)
| step_resume i o s interrupted r :
    opens f !! i = Some o → sleeping o = Some s →
    resume (s_loop s) (s_flags s) (s_atomic s) interrupted (view_of f o) = Some r →
    step f (settle i (s_flags s) (s_atomic s) f r).

(** ** One request

    The box in the eyes of one open: [osh] other opens have a shared lock and
    [oex] an exclusive one. *)
Definition b2z (P : Prop) `{Decision P} : Z := if decide P then 1 else 0.

Definition view_ok (osh oex : Z) (v : view) : Prop :=
  0 ≤ osh ∧ 0 ≤ oex
  ∧ (user v = LOCK_UN ∨ user v = LOCK_SH ∨ user v = LOCK_EX)
  ∧ shcount (box v) = osh + b2z (user v = LOCK_SH)
  ∧ (type (box v) = LOCK_UN ∧ shcount (box v) = 0 ∧ oex + b2z (user v = LOCK_EX) = 0
     ∨ (type (box v) = LOCK_SH ∨ type (box v) = LOCK_UP) ∧ 0 < shcount (box v) ∧ oex + b2z (user v = LOCK_EX) = 0
     ∨ type (box v) = LOCK_EX ∧ shcount (box v) = 0 ∧ oex + b2z (user v = LOCK_EX) = 1).

(** The sleepers that a run leaves unsignalled still have to wait, and other
    opens' upgrades stay pending. *)
Definition keeps_sleepers (osh : Z) (v v' : view) : Prop :=
  (type (box v) = LOCK_UP → 0 < osh → type (box v') = LOCK_UP)
  ∧ (signalled v = true → signalled v' = true)
  ∧ (waiting (box v) = true →
     signalled v' = true
     ∨ waiting (box v') = true
       ∧ (has (type (box v)) LOCK_EX = true → has (type (box v')) LOCK_EX = true)
       ∧ (type (box v) ≠ LOCK_UN → type (box v') ≠ LOCK_UN)
       ∧ (type (box v) = LOCK_UP → 1 < shcount (box v) → 0 < osh → 1 < shcount (box v'))).

(** The flags of a request for a lock. *)
Definition wants (flags : Z) (t : Z) : Prop :=
  t = LOCK_SH ∧ has flags LOCK_SH = true ∧ has flags LOCK_EX = false
  ∨ t = LOCK_EX ∧ has flags LOCK_SH = false ∧ has flags LOCK_EX = true.

(** Where a request may sleep, and until when. *)
Definition sleep_ok (l : loop) (flags : Z) (atomic : bool) (v : view) : Prop :=
  has flags LOCK_NB = false
  ∧ match l with
    | ex_loop => user v = LOCK_UN
    | sh_loop => wants flags LOCK_EX ∧ (user v = LOCK_UN ∨ user v = LOCK_SH ∧ atomic = true ∧ type (box v) = LOCK_UP)
    end.

Definition must_wait (l : loop) (v : view) : Prop :=
  match l with
  | ex_loop => has (type (box v)) LOCK_EX = true
  | sh_loop => user v = LOCK_SH ∧ 1 < shcount (box v) ∨ user v = LOCK_UN ∧ type (box v) ≠ LOCK_UN
  end.

(** Another open stands in the way of a lock of type [t]. *)
Definition conflict (osh oex t : Z) (v : view) : Prop :=
  if decide (t = LOCK_EX) then 0 < osh ∨ 0 < oex
  else 0 < oex ∨ 0 < osh ∧ type (box v) = LOCK_UP.

Definition kept (atomic : bool) (v : view) : Z := if atomic then user v else LOCK_UN.

(** What the run of a request for [t] may come to. *)
Definition lock_result (osh oex t flags : Z) (atomic : bool) (v : view) (r : outcome * view) : Prop :=
  match r with
  | (Ret E0, v') => user v' = t
  | (Ret EDEADLK, v') => v' = v ∧ user v = LOCK_SH ∧ t = LOCK_EX ∧ atomic = true ∧ type (box v) = LOCK_UP
  | (Ret EAGAIN, v') => user v' = kept atomic v ∧ has flags LOCK_NB = true ∧ conflict osh oex t v
  | (Sleep l, v') => user v' = kept atomic v ∧ conflict osh oex t v
                     ∧ sleep_ok l flags atomic v' ∧ must_wait l v' ∧ waiting (box v') = true
  | _ => False
  end.

(** Call-by-value evaluation of the operations on a view whose words are known,
    with case analysis on the counters. *)
Ltac lock_test :=
  match goal with
  | |- context [has ?a ?b] =>
      let r := eval vm_compute in (has a b) in
      match r with
      | true => change (has a b) with true
      | false => change (has a b) with false
      end
  | |- context [@decide (?a = ?b) _] =>
      first [ rewrite (decide_False (P := a = b)) by discriminate
            | rewrite (decide_True (P := a = b)) by reflexivity ]
  | |- context [@decide ?P _] =>
      first [ rewrite (decide_False (P := P)) by lia
            | rewrite (decide_True (P := P)) by lia
            | destruct (@decide P _) ]
  | |- context [@bool_decide ?P _] =>
      first [ rewrite (bool_decide_true P) by lia
            | rewrite (bool_decide_false P) by lia ]
  end.

Ltac lock_unfold_call f c :=
  let t := eval cbv beta iota zeta delta [f box user signalled type waiting shcount set_type set_waiting
    set_shcount set_user LOCK_UN LOCK_SH LOCK_EX LOCK_NB] in c in
  change c with t; change (Z.lor 1 2) with 3.

Ltac lock_eval f :=
  match goal with
  | |- context [f (mk_view ?b ?u ?s)] => lock_unfold_call f (f (mk_view b u s))
  | |- context [f ?x (mk_view ?b ?u ?s)] => lock_unfold_call f (f x (mk_view b u s))
  | |- context [f ?x ?y (mk_view ?b ?u ?s)] => lock_unfold_call f (f x y (mk_view b u s))
  end.

Ltac lock_call :=
  first [ lock_eval wake | lock_eval wake_free | lock_eval wake_upgrade | lock_eval drop_shared
        | lock_eval drop_lock | lock_eval drop_ex | lock_eval drop_sh | lock_eval mark_upgrade
        | lock_eval take_ex | lock_eval set_waiting | lock_eval set_user | lock_eval set_type | lock_eval set_shcount
        | lock_eval release | lock_eval wait_sh ].

Ltac lock_run := repeat (cbn [andb negb]; first [lock_test | lock_call]).

(** The run of a request does not fail and ends with [P]. *)
Definition runs (r : option (outcome * view)) (P : outcome → view → Prop) : Prop :=
  ∃ out v', r = Some (out, v') ∧ P out v'.

Lemma runs_intro out v' (P : outcome → view → Prop) : P out v' → runs (Some (out, v')) P.
Proof. intros. by exists out, v'. Qed.

Lemma runs_weaken r (P Q : outcome → view → Prop) :
  runs r P → (∀ out v', P out v' → Q out v') → runs r Q.
Proof. intros (out & v' & -> & HP) HPQ. apply runs_intro. auto. Qed.

Ltac lock_unfold :=
  unfold view_ok, keeps_sleepers, lock_result, sleep_ok, must_wait, conflict, kept, wants, b2z in *;
  cbn [box user signalled type waiting shcount fst snd] in *;
  change (Z.lor LOCK_SH LOCK_EX) with 3 in *;
  change LOCK_UN with 8 in *; change LOCK_SH with 1 in *; change LOCK_EX with 2 in *;
  change LOCK_NB with 4 in *.

(** The states a view can be in. *)
Ltac lock_states v :=
  let ty := fresh "ty" in let w := fresh "w" in let n := fresh "n" in
  let u := fresh "u" in let sg := fresh "sg" in
  destruct v as [[ty w n] u sg]; lock_unfold;
  match goal with
  | H : 0 ≤ _ ∧ _ |- _ =>
      let Hu := fresh "Hu" in let Hn := fresh "Hn" in let Ht := fresh "Ht" in
      destruct H as (? & ? & Hu & Hn & Ht);
      destruct Hu as [->|[->| ->]], Ht as [[-> Ht]|[[[->| ->] Ht]|[-> Ht]]];
      repeat match goal with H : context [@decide (?a = ?b) _] |- _ =>
        first [ rewrite (decide_False (P := a = b)) in H by discriminate
              | rewrite (decide_True (P := a = b)) in H by reflexivity ] end;
      try (exfalso; lia); destruct w
  end.

(** The result of an evaluated run. *)
Ltac lock_done HP :=
  lock_run; apply runs_intro; rewrite HP; clear HP; lock_unfold; lock_run; split_and!; try first [assumption | reflexivity | lia | tauto].

Lemma release_ok osh oex v :
  view_ok osh oex v →
  runs (release v) (λ out v',
    out = Ret E0 ∧ view_ok osh oex v' ∧ keeps_sleepers osh v v' ∧ user v' = LOCK_UN).
Proof.
  intros Hv. remember (λ _ _, _) as P eqn:HP.
  lock_states v; lock_done HP.
Qed.

Lemma keeps_refl osh v : keeps_sleepers osh v v.
Proof. unfold keeps_sleepers. tauto. Qed.

Lemma keeps_trans osh v1 v2 v3 :
  keeps_sleepers osh v1 v2 → keeps_sleepers osh v2 v3 → keeps_sleepers osh v1 v3.
Proof. unfold keeps_sleepers. intuition auto. Qed.

(** The end of a run of one of the two loops. *)
Definition loop_result (osh oex t flags : Z) (atomic : bool) (v : view) (out : outcome) (v' : view) : Prop :=
  view_ok osh oex v' ∧ keeps_sleepers osh v v'
  ∧ match out with
    | Ret E0 => user v' = t
    | Ret EAGAIN => v' = v ∧ has flags LOCK_NB = true ∧ conflict osh oex t v
    | Sleep l => user v' = user v ∧ conflict osh oex t v
                 ∧ sleep_ok l flags atomic v' ∧ must_wait l v' ∧ waiting (box v') = true
    | _ => False
    end.

Lemma wait_sh_ok osh oex flags atomic v :
  view_ok osh oex v → wants flags LOCK_EX → user v = LOCK_UN ∨ user v = LOCK_SH ∧ atomic = true →
  runs (wait_sh flags atomic v) (loop_result osh oex LOCK_EX flags atomic v).
Proof.
  intros Hv Hf Hu. remember (loop_result _ _ _ _ _ _) as P eqn:HP. unfold loop_result in HP.
  destruct (has flags LOCK_NB) eqn:Hnb, atomic; lock_states v; try (exfalso; lia);
  lock_run; rewrite ?Hnb; lock_done HP.
Qed.

Lemma wait_ex_ok osh oex t flags atomic v :
  view_ok osh oex v → wants flags t →
  user v = LOCK_UN ∨ user v = LOCK_SH ∧ atomic = true ∧ type (box v) = LOCK_SH ∧ t = LOCK_EX →
  runs (wait_ex flags atomic v) (loop_result osh oex t flags atomic v).
Proof.
  intros Hv Ht Hu. destruct (has (type (box v)) LOCK_EX) eqn:Hex.
  - assert (user v = LOCK_UN) as Hun.
    { destruct Hu as [?|(? & ? & Hsh & ?)]; [done|]. by rewrite Hsh in Hex. }
    assert (conflict osh oex t v) as Hc.
    { clear Ht Hu. revert Hun Hex. lock_states v; lock_run; intros; lia. }
    unfold wait_ex. rewrite Hex. destruct (has flags LOCK_NB) eqn:Hnb; apply runs_intro.
    + split; [done|]. split; [apply keeps_refl|done].
    + split; [done|]. split; [split_and!; simpl; tauto|]. simpl. unfold sleep_ok. auto.
  - unfold wait_ex. rewrite Hex. destruct Ht as [(-> & -> & Hf)|(-> & Hs & Hf)].
    + remember (loop_result _ _ _ _ _ _) as P eqn:HP. unfold loop_result in HP. clear Hf.
      revert Hex. lock_states v; lock_run; intros Hex; try (exfalso; lia); lock_done HP.
    + rewrite Hs, Hf. apply wait_sh_ok; [done|right; done|]. destruct Hu as [?|(? & ? & _)]; auto.
Qed.

Lemma drop_ok osh oex v :
  view_ok osh oex v →
  view_ok osh oex (drop_sh (drop_ex v)) ∧ keeps_sleepers osh v (drop_sh (drop_ex v))
  ∧ user (drop_sh (drop_ex v)) = LOCK_UN
  ∧ (type (box (drop_sh (drop_ex v))) = LOCK_UP → type (box v) = LOCK_UP).
Proof.
  intros Hv. remember (drop_sh (drop_ex v)) as v' eqn:Ev. revert Ev.
  lock_states v; lock_run; intros ->; lock_unfold; lock_run; split_and!; first [lia|tauto].
Qed.

(** A request for a lock of type [t]. *)
Lemma acquire_ok osh oex t flags atomic v :
  view_ok osh oex v → wants flags t → Z.land flags LOCK_UP = t →
  runs (acquire flags atomic v) (λ out v',
    view_ok osh oex v' ∧ keeps_sleepers osh v v' ∧ lock_result osh oex t flags atomic v (out, v')).
Proof.
  intros Hv Ht Hl. unfold acquire. rewrite Hl. destruct atomic; cbn [andb].
  - case_bool_decide as Hut; [apply runs_intro; split_and!; [done|apply keeps_refl|done]|].
    destruct (bool_decide (user v = LOCK_EX) && has flags LOCK_SH) eqn:Hd.
    { apply andb_true_iff in Hd as [Hux%bool_decide_eq_true Hs].
      assert (t = LOCK_SH) as -> by (destruct Ht as [[? _]|(? & ? & ?)]; congruence).
      remember (λ _ _, _) as P eqn:HP. clear Ht Hl Hut.
      lock_states v; try (exfalso; lia); lock_done HP. }
    destruct (bool_decide (user v = LOCK_SH) && bool_decide (type (box v) = LOCK_UP)) eqn:Hup.
    { apply andb_true_iff in Hup as [Hus%bool_decide_eq_true Hty%bool_decide_eq_true].
      apply runs_intro. split_and!; [done|apply keeps_refl|].
      destruct Ht as [[-> _]|[-> _]]; [by destruct Hut|done]. }
    eapply runs_weaken; [apply (wait_ex_ok osh oex t); [done|done|]|].
    + clear Hl. destruct Ht as [(-> & Hs & _)|(-> & Hs & _)]; rewrite Hs in Hd;
        revert Hut Hd Hup; lock_states v; lock_run; cbn; intros; first [lia|tauto].
    + intros out v' (Hv' & Hk & Hr). split_and!; [done|done|].
      unfold lock_result, kept. destruct out as [[]|l]; try done. by destruct Hr as (-> & ?).
  - destruct (drop_ok osh oex v Hv) as (Hv1 & Hk1 & Hu1 & Hty1).
    eapply runs_weaken; [apply (wait_ex_ok osh oex t); [done|done|by left]|].
    intros out v' (Hv' & Hk & Hr). split_and!; [done|by eapply keeps_trans|].
    assert (conflict osh oex t (drop_sh (drop_ex v)) → conflict osh oex t v) as Hc.
    { unfold conflict. case_decide; tauto. }
    unfold lock_result, kept. destruct out as [[]|l]; try done.
    + destruct Hr as (-> & ? & ?). auto.
    + destruct Hr as (-> & ?). tauto.
Qed.

(** ** Flags *)

Lemma has_lor f a b : has f (Z.lor a b) = has f a || has f b.
Proof.
  unfold has. rewrite Z.land_lor_distr_r. pose proof (Z.lor_eq_0_iff (Z.land f a) (Z.land f b)).
  generalize dependent (Z.lor (Z.land f a) (Z.land f b)). intros x Hx.
  repeat case_bool_decide; simpl; try done; exfalso; lia.
Qed.

Lemma has_bit f b : 0 ≤ b → has f (2 ^ b) = Z.testbit f b.
Proof. apply land_bit. Qed.

Lemma norm_flags_bit f b :
  0 ≤ b → b ≠ 4 → Z.testbit (norm_flags f) b = Z.testbit f b && negb (bool_decide (b = 0) && Z.testbit f 1).
Proof.
  intros Hb H4. unfold norm_flags.
  assert (∀ x, Z.testbit (if has x LOCK_ATOMIC then Z.ldiff x LOCK_ATOMIC else x) b = Z.testbit x b) as H16.
  { intros x. destruct (has x LOCK_ATOMIC); [|done]. rewrite Z.ldiff_spec.
    change LOCK_ATOMIC with (2 ^ 4). rewrite Z.pow2_bits_false by lia. by rewrite andb_true_r. }
  set (g := if has f LOCK_ATOMIC then _ else _).
  assert (has g LOCK_EX = Z.testbit f 1) as ->.
  { change LOCK_EX with (2 ^ 1). rewrite has_bit by lia. subst g. destruct (has f LOCK_ATOMIC); [|done].
    rewrite Z.ldiff_spec. by rewrite andb_true_r. }
  rewrite <- (H16 f). fold g. destruct (Z.testbit f 1); [|by rewrite andb_false_r, andb_true_r].
  rewrite Z.ldiff_spec, andb_true_r. f_equal. f_equal. change LOCK_SH with (2 ^ 0).
  rewrite Z.pow2_bits_eqb by lia. case_bool_decide; lia.
Qed.

Lemma norm_flags_has f :
  has (norm_flags f) LOCK_UN = has f LOCK_UN ∧ has (norm_flags f) LOCK_NB = has f LOCK_NB
  ∧ has (norm_flags f) LOCK_EX = has f LOCK_EX
  ∧ has (norm_flags f) LOCK_SH = has f LOCK_SH && negb (has f LOCK_EX).
Proof.
  change LOCK_UN with (2 ^ 3). change LOCK_NB with (2 ^ 2). change LOCK_EX with (2 ^ 1).
  change LOCK_SH with (2 ^ 0). repeat (rewrite has_bit by lia). repeat (rewrite norm_flags_bit by lia).
  rewrite !bool_decide_false by lia. rewrite bool_decide_true by done. by rewrite !andb_true_r.
Qed.

(** The lock a request is for. *)
Definition wanted (f : Z) : Z := if has f LOCK_EX then LOCK_EX else LOCK_SH.

Lemma norm_flags_wants f :
  has f LOCK_UP = true → wants (norm_flags f) (wanted f) ∧ Z.land (norm_flags f) LOCK_UP = wanted f.
Proof.
  rewrite has_lor. intros Hf. pose proof (norm_flags_has f) as (_ & _ & Hx & Hs).
  assert (wants (norm_flags f) (wanted f)) as Hw.
  { unfold wants, wanted. rewrite Hx, Hs. destruct (has f LOCK_EX), (has f LOCK_SH); simpl in *; auto; done. }
  split; [done|]. rewrite Z.land_lor_distr_r. unfold wants in Hw. revert Hw.
  change LOCK_EX with (2 ^ 1). change LOCK_SH with (2 ^ 0). repeat (rewrite has_bit by lia).
  rewrite !land_pow2 by lia. intros [(-> & -> & ->)|(-> & -> & ->)]; done.
Qed.

(** ** A request as a whole *)

Definition request_result (osh oex flags : Z) (v : view) (out : outcome) (v' : view) : Prop :=
  if negb (has flags LOCK_UN || has flags LOCK_UP) then out = Ret E0 ∧ v' = v
  else if has flags LOCK_UN && has flags LOCK_UP then out = Ret EINVAL ∧ v' = v
  else if has flags LOCK_UN then out = Ret E0 ∧ user v' = LOCK_UN
  else lock_result osh oex (wanted flags) (norm_flags flags) (has flags LOCK_ATOMIC) v (out, v').

Lemma request_ok osh oex flags v :
  view_ok osh oex v →
  runs (fshelp_acquire_lock flags v) (λ out v',
    view_ok osh oex v' ∧ keeps_sleepers osh v v' ∧ request_result osh oex flags v out v').
Proof.
  intros Hv. unfold fshelp_acquire_lock, request_result.
  rewrite (Z.lor_comm LOCK_EX LOCK_SH), (has_lor _ LOCK_UN).
  destruct (has flags LOCK_UN) eqn:Hun, (has flags LOCK_UP) eqn:Hup; cbn [orb andb negb].
  - apply runs_intro. split_and!; [done|apply keeps_refl|done..].
  - rewrite (proj1 (norm_flags_has flags)), Hun.
    eapply runs_weaken; [by apply release_ok|]. simpl. tauto.
  - rewrite (proj1 (norm_flags_has flags)), Hun.
    destruct (norm_flags_wants flags Hup). by apply acquire_ok.
  - apply runs_intro. split_and!; [done|apply keeps_refl|done..].
Qed.

Lemma resume_ok osh oex l flags atomic interrupted v :
  view_ok osh oex v → sleep_ok l flags atomic v → (∃ t, wants flags t) →
  runs (resume l flags atomic interrupted v) (λ out v',
    view_ok osh oex v' ∧ keeps_sleepers osh v v'
    ∧ match out with
      | Ret _ => True
      | Sleep l' => sleep_ok l' flags atomic v' ∧ must_wait l' v' ∧ waiting (box v') = true
      end).
Proof.
  intros Hv [Hnb Hs] [t Ht]. unfold resume. destruct interrupted.
  { apply runs_intro. split_and!; [done|apply keeps_refl|done..]. }
  destruct l; (eapply runs_weaken;
    [first [apply (wait_ex_ok osh oex t) | apply (wait_sh_ok osh oex)]; try done; tauto|]);
    intros [e|l] v' (? & ? & Hr); split_and!; try done; tauto.
Qed.

(** ** The opens of a file together *)

Definition count (w : Z) (l : list Z) : Z := zlen (filter (λ x, x = w) l).

Lemma count_cons w x l : count w (x :: l) = b2z (x = w) + count w l.
Proof. unfold count, b2z. rewrite filter_cons. case_decide; simpl; lia. Qed.

Lemma count_insert w l i x y :
  l !! i = Some x → count w (<[i := y]> l) = count w l - b2z (x = w) + b2z (y = w).
Proof.
  revert i. induction l as [|z l IH]; intros [|i] Hi; try done.
  - injection Hi as ->. simpl. rewrite !count_cons. lia.
  - simpl. rewrite !count_cons, (IH i) by done. lia.
Qed.

Lemma count_app w l k : count w (l ++ k) = count w l + count w k.
Proof. unfold count. rewrite filter_app, length_app. lia. Qed.

Lemma count_lookup w l i x : l !! i = Some x → b2z (x = w) ≤ count w l.
Proof.
  intros Hi. rewrite <- (take_drop_middle l i x Hi), count_app, count_cons. unfold count. lia.
Qed.

(** Other opens with the same lock. *)
Lemma count_others w l i j x y :
  l !! i = Some x → l !! j = Some y → i ≠ j → b2z (y = w) ≤ count w l - b2z (x = w).
Proof.
  intros Hi Hj Hij. pose proof (count_insert w l i x (w + 1) Hi) as Hc.
  assert (<[i := w + 1]> l !! j = Some y) as Hj' by by rewrite list_lookup_insert_ne.
  apply (count_lookup w) in Hj'. unfold b2z in Hc at 2. rewrite decide_False in Hc by lia. lia.
Qed.

Lemma count_other w l i x :
  l !! i = Some x → 0 < count w l - b2z (x = w) → ∃ j, l !! j = Some w ∧ i ≠ j.
Proof.
  intros Hi Hc. pose proof (count_insert w l i x (w + 1) Hi) as Hins. unfold b2z in Hins at 2.
  rewrite decide_False in Hins by lia. unfold count in Hins.
  destruct (filter (λ y, y = w) (<[i := w + 1]> l)) as [|y k] eqn:Ef; [simpl in Hins; unfold count in Hc; lia|].
  assert (y ∈ filter (λ y, y = w) (<[i := w + 1]> l)) as Hy by (rewrite Ef; set_solver).
  apply list_elem_of_filter in Hy as [-> [j Hj]%list_elem_of_lookup].
  destruct (decide (i = j)) as [<-|Hij].
  - rewrite list_lookup_insert_eq in Hj by by eapply lookup_lt_Some. injection Hj. lia.
  - exists j. by rewrite list_lookup_insert_ne in Hj.
Qed.

Definition words (f : file) : list Z := word <$> opens f.

Definition other (w : Z) (f : file) (o : open_file) : Z := count w (words f) - b2z (word o = w).

(** The box counts the locks of the opens. *)
Definition box_ok (b : lock_box) (ws : list Z) : Prop :=
  Forall (λ w, w = LOCK_UN ∨ w = LOCK_SH ∨ w = LOCK_EX) ws
  ∧ shcount b = count LOCK_SH ws
  ∧ (type b = LOCK_UN ∧ shcount b = 0 ∧ count LOCK_EX ws = 0
     ∨ (type b = LOCK_SH ∨ type b = LOCK_UP) ∧ 0 < shcount b ∧ count LOCK_EX ws = 0
     ∨ type b = LOCK_EX ∧ shcount b = 0 ∧ count LOCK_EX ws = 1).

(** A sleeper that has not been signalled has to wait. *)
Definition sleeper_ok (f : file) (o : open_file) : Prop :=
  match sleeping o with
  | None => True
  | Some s =>
      sleep_ok (s_loop s) (s_flags s) (s_atomic s) (view_of f o) ∧ (∃ t, wants (s_flags s) t)
      ∧ (s_signalled s = false → must_wait (s_loop s) (view_of f o) ∧ waiting (f_box f) = true)
  end.

Definition file_ok (f : file) : Prop :=
  box_ok (f_box f) (words f) ∧ ∀ i o, opens f !! i = Some o → sleeper_ok f o.

Lemma words_lookup f i o : opens f !! i = Some o → words f !! i = Some (word o).
Proof. intros Ho. unfold words. by rewrite list_lookup_fmap, Ho. Qed.

Lemma view_ok_of f i o :
  box_ok (f_box f) (words f) → opens f !! i = Some o →
  view_ok (other LOCK_SH f o) (other LOCK_EX f o) (view_of f o).
Proof.
  intros (Hw & Hn & Ht) Ho%words_lookup. unfold view_ok, other, view_of. simpl.
  pose proof (count_lookup LOCK_SH _ _ _ Ho). pose proof (count_lookup LOCK_EX _ _ _ Ho).
  pose proof (Forall_lookup_1 _ _ _ _ Hw Ho). split_and!; [lia..|tauto|lia|].
  replace (count LOCK_EX (words f) - _ + _) with (count LOCK_EX (words f)) by lia. done.
Qed.

Lemma words_settle i flags atomic f out v :
  words (settle i flags atomic f (out, v)) = <[i := user v]> (words f).
Proof.
  unfold words, settle. simpl. rewrite list_fmap_insert. simpl. f_equal.
  destruct (signalled v); [|done]. rewrite <- list_fmap_compose. done.
Qed.

Lemma box_ok_settle i flags atomic f o out v :
  opens f !! i = Some o → box_ok (f_box f) (words f) →
  view_ok (other LOCK_SH f o) (other LOCK_EX f o) v →
  box_ok (box v) (words (settle i flags atomic f (out, v))).
Proof.
  intros Ho%words_lookup (Hw & _ & _) (_ & _ & Hu & Hn & Ht). unfold box_ok. rewrite words_settle.
  rewrite !(count_insert _ _ _ _ _ Ho). unfold other in *. split_and!; [by apply Forall_insert|lia|lia].
Qed.

(** The other sleepers after a run. *)
Lemma sleeper_kept i j flags atomic f o oj out v :
  opens f !! i = Some o → opens f !! j = Some oj → i ≠ j →
  keeps_sleepers (other LOCK_SH f o) (view_of f o) v → sleeper_ok f oj →
  sleeper_ok (settle i flags atomic f (out, v)) (if signalled v then signal oj else oj).
Proof.
  intros Ho Hj Hij (Hup & _ & Hk) Hs. unfold sleeper_ok in *.
  destruct oj as [wj [s|]]; [|by destruct (signalled v)].
  pose proof (count_others LOCK_SH _ _ _ _ _ (words_lookup _ _ _ Ho) (words_lookup _ _ _ Hj) Hij) as Hoth.
  fold (other LOCK_SH f o) in Hoth. simpl in *. destruct Hs as ([Hnb Hl] & Ht & Hw).
  assert (wj = LOCK_SH → 0 < other LOCK_SH f o) as Hpos.
  { intros ->. unfold b2z in Hoth. rewrite decide_True in Hoth by done. lia. }
  assert (sleep_ok (s_loop s) (s_flags s) (s_atomic s) (mk_view (box v) wj false)) as Hso.
  { split; [done|]. destruct (s_loop s); simpl in *; [done|]. intuition auto. }
  destruct (signalled v) eqn:Hsig; [done|]. split_and!; [done|done|]. intros Hns.
  destruct (Hw Hns) as [Hm Hwt]. destruct (Hk Hwt) as [?|(Hwt' & Hx & Hu & Hn)]; [done|].
  split; [|done]. destruct (s_loop s); simpl in *; [auto|].
  destruct Hm as [[-> Hm]|[-> Hm]]; [left|right; auto]. split; [done|]. apply Hn; [|done|auto].
  destruct Hl as [_ [?|(_ & _ & ?)]]; done.
Qed.

Lemma settle_ok i flags atomic f o out v :
  file_ok f → opens f !! i = Some o →
  view_ok (other LOCK_SH f o) (other LOCK_EX f o) v →
  keeps_sleepers (other LOCK_SH f o) (view_of f o) v →
  match out with
  | Ret _ => True
  | Sleep l => (∃ t, wants flags t) ∧ sleep_ok l flags atomic v ∧ must_wait l v ∧ waiting (box v) = true
  end →
  file_ok (settle i flags atomic f (out, v)).
Proof.
  intros [Hb Hs] Ho Hv Hk Hout. split; [by eapply box_ok_settle|]. intros j oj Hj.
  pose proof Hj as Hj'. unfold settle in Hj'. simpl in Hj'.
  destruct (decide (i = j)) as [<-|Hij].
  - rewrite list_lookup_insert_eq in Hj'.
    2: { destruct (signalled v); rewrite ?length_fmap; by eapply lookup_lt_Some. }
    injection Hj' as <-. unfold sleeper_ok. destruct out as [e|l]; simpl; [done|].
    destruct Hout as (Ht & Hso & Hm & Hw). destruct Hso as [? Hso].
    split_and!; [by split; [|destruct l]|done|]. intros _. by split; [destruct l|].
  - rewrite list_lookup_insert_ne in Hj' by done.
    assert (∃ oj', opens f !! j = Some oj' ∧ oj = if signalled v then signal oj' else oj') as (oj' & Hj1 & ->).
    { destruct (signalled v); [|by eauto]. rewrite list_lookup_fmap in Hj'.
      destruct (opens f !! j); [|done]. injection Hj' as <-. eauto. }
    by apply (sleeper_kept _ j _ _ _ o); [..|apply (Hs j)].
Qed.

Lemma request_sleeps osh oex flags v l v' :
  request_result osh oex flags v (Sleep l) v' →
  (∃ t, wants (norm_flags flags) t) ∧ sleep_ok l (norm_flags flags) (has flags LOCK_ATOMIC) v'
  ∧ must_wait l v' ∧ waiting (box v') = true.
Proof.
  unfold request_result. intros Hr. destruct (has flags LOCK_UN), (has flags LOCK_UP) eqn:Hup;
    cbn [orb andb negb] in Hr; try by destruct Hr.
  destruct Hr as (_ & _ & ?). split; [|done]. eexists. by apply norm_flags_wants.
Qed.

Lemma step_ok f f' : file_ok f → step f f' → file_ok f'.
Proof.
  intros Hf Hst. destruct Hst as [|i o flags [out v] Ho Hs Hr|i o s interrupted [out v] Ho Hs Hr].
  - destruct Hf as [(Hw & Hn & Ht) Hsl].
    assert (∀ w, w ≠ LOCK_UN → count w (word <$> opens f ++ [mk_open LOCK_UN None]) = count w (words f)) as Hc.
    { intros w Hne. rewrite fmap_app, count_app. unfold count at 2. simpl.
      rewrite filter_cons, decide_False by congruence. simpl. unfold words. lia. }
    split; [unfold box_ok, words in *; simpl; rewrite !Hc by done; split_and!; [|done|done]|].
    + rewrite fmap_app. apply Forall_app. split; [done|]. repeat constructor.
    + intros i o Ho. simpl in Ho. apply lookup_app_Some in Ho as [Ho|[_ Ho]]; [by apply (Hsl i)|].
      apply list_lookup_singleton_Some in Ho as [_ <-]. done.
  - pose proof (view_ok_of f i o (proj1 Hf) Ho) as Hv.
    destruct (request_ok _ _ flags _ Hv) as (out' & v' & Hr' & Hv' & Hk & Hres).
    rewrite Hr in Hr'. injection Hr' as <- <-. eapply settle_ok; [done..|].
    destruct out; [done|]. by eapply request_sleeps.
  - pose proof (view_ok_of f i o (proj1 Hf) Ho) as Hv. pose proof (proj2 Hf i o Ho) as Hso.
    unfold sleeper_ok in Hso. rewrite Hs in Hso. destruct Hso as (Hso & Ht & _).
    destruct (resume_ok _ _ _ _ _ interrupted _ Hv Hso Ht) as (out' & v' & Hr' & Hv' & Hk & Hres).
    rewrite Hr in Hr'. injection Hr' as <- <-. eapply settle_ok; [done..|]. by destruct out.
Qed.

Lemma reachable_ok f : rtc step new_file f → file_ok f.
Proof.
  intros Hr. assert (file_ok new_file) as H0.
  { split; [|by intros i o ?]. split_and!; [constructor|done|]. left. done. }
  induction Hr as [|f f' f'' Hst _ IH]; [done|]. apply IH. by eapply step_ok.
Qed.

(** A request that has to wait waits for a lock of another open. *)
Lemma other_holds f i o :
  box_ok (f_box f) (words f) → opens f !! i = Some o →
  ∀ l, word o ≠ LOCK_EX → (l = ex_loop → word o = LOCK_UN) → must_wait l (view_of f o) →
  ∃ j oj, opens f !! j = Some oj ∧ i ≠ j ∧ word oj ≠ LOCK_UN.
Proof.
  intros (_ & Hn & Ht) Ho l Hex Hun Hm. apply words_lookup in Ho as Hwi.
  assert (0 < count LOCK_SH (words f) - b2z (word o = LOCK_SH)
          ∨ 0 < count LOCK_EX (words f) - b2z (word o = LOCK_EX)) as Hc.
  { unfold b2z. rewrite (decide_False (P := word o = LOCK_EX)) by done. simpl in *. destruct l; simpl in *.
    - rewrite Hun by done. rewrite decide_False by done.
      destruct Ht as [[Ht ?]|[[_ ?]|[_ ?]]]; [by rewrite Ht in Hm|lia..].
    - destruct Hm as [[-> Hm]|[-> Hm]]; [rewrite decide_True by done; lia|].
      rewrite decide_False by done. destruct Ht as [[Ht ?]|[[_ ?]|[_ ?]]]; [done|lia..]. }
  destruct Hc as [Hc|Hc]; apply (count_other _ _ i) in Hc as (j & Hj & Hij); try done;
    apply list_lookup_fmap_Some in Hj as (oj & Hj & Hoj); exists j, oj;
    split_and!; try done; unfold LOCK_SH, LOCK_EX, LOCK_UN in *; lia.
Qed.

(** ** Properties *)

(** C12. However the requests of the opens of a file interleave, sleep, are
    woken or interrupted, no assertion of a request fails, and while an open has
    the exclusive lock no other open has any lock. *)
Theorem flock_reachable_exclusive f i o :
  rtc step new_file f → opens f !! i = Some o →
  (∀ j oj, opens f !! j = Some oj → i ≠ j → word o = LOCK_EX → word oj = LOCK_UN)
  ∧ (sleeping o = None → ∀ flags, is_Some (fshelp_acquire_lock flags (view_of f o)))
  ∧ (∀ s, sleeping o = Some s → ∀ interrupted,
       is_Some (resume (s_loop s) (s_flags s) (s_atomic s) interrupted (view_of f o))).
Proof.
  intros [Hb Hs]%reachable_ok Ho. pose proof (view_ok_of f i o Hb Ho) as Hv. split_and!.
  - intros j oj Hj Hij Hex. apply words_lookup in Hj as Hwj. apply words_lookup in Ho as Hwi.
    pose proof (count_others LOCK_EX _ _ _ _ _ Hwi Hwj Hij) as Hx.
    pose proof (count_others LOCK_SH _ _ _ _ _ Hwi Hwj Hij) as Hsh.
    destruct Hb as (Hw & Hn & Ht). pose proof (Forall_lookup_1 _ _ _ _ Hw Hwj) as [?|[Hwj'|Hwj']]; [done|..];
      exfalso; rewrite Hex, Hwj' in *; unfold b2z in *; simpl in *; lia.
  - intros _ flags. destruct (request_ok _ _ flags _ Hv) as (out & v' & -> & _). done.
  - intros s Hsl interrupted. pose proof (Hs i o Ho) as Hso. unfold sleeper_ok in Hso.
    rewrite Hsl in Hso. destruct Hso as (Hso & Ht & _).
    destruct (resume_ok _ _ _ _ _ interrupted _ Hv Hso Ht) as (out & v' & -> & _). done.
Qed.

(** C21. No wake-up is lost: a request that sleeps and has not been signalled
    could not go on, because another open still has a lock it waits for; run on
    in this state it would sleep again. *)
Theorem flock_no_lost_wakeup f i o s :
  rtc step new_file f → opens f !! i = Some o → sleeping o = Some s → s_signalled s = false →
  (∃ j oj, opens f !! j = Some oj ∧ i ≠ j ∧ word oj ≠ LOCK_UN)
  ∧ ∃ l v, resume (s_loop s) (s_flags s) (s_atomic s) false (view_of f o) = Some (Sleep l, v).
Proof.
  intros [Hb Hs]%reachable_ok Ho Hsl Hns. pose proof (view_ok_of f i o Hb Ho) as Hv.
  pose proof (Hs i o Ho) as Hso. unfold sleeper_ok in Hso. rewrite Hsl in Hso.
  destruct Hso as ([Hnb Hso] & _ & Hw). destruct (Hw Hns) as [Hm _]. split.
  - apply (other_holds f i o Hb Ho (s_loop s)); [| |done]; destruct (s_loop s); simpl in Hso; try done.
    + by rewrite Hso.
    + destruct Hso as [_ [->|[-> _]]]; done.
  - destruct (s_loop s); unfold resume, wait_ex, wait_sh; simpl in *; rewrite Hnb.
    + rewrite Hm. eauto.
    + rewrite decide_True by (simpl; lia). eauto.
Qed.

(** ** Pending upgrades

    Steps in which no upgrade is interrupted in its sleep. *)
Inductive calm_step (f : file) : file → Prop :=
| calm_open : calm_step f (mk_file (f_box f) (opens f ++ [mk_open LOCK_UN None]))
| calm_request i o flags r :
    opens f !! i = Some o → sleeping o = None →
    fshelp_acquire_lock flags (view_of f o) = Some r →
    calm_step f (settle i (norm_flags flags) (has flags LOCK_ATOMIC) f r)
| calm_resume i o s interrupted r :
    opens f !! i = Some o → sleeping o = Some s → (interrupted = true → word o = LOCK_UN) →
    resume (s_loop s) (s_flags s) (s_atomic s) interrupted (view_of f o) = Some r →
    calm_step f (settle i (s_flags s) (s_atomic s) f r).

Lemma calm_step_step f f' : calm_step f f' → step f f'.
Proof. intros []; [constructor|by eapply step_request|by eapply step_resume]. Qed.

Lemma calm_steps_steps f f' : rtc calm_step f f' → rtc step f f'.
Proof. induction 1; [done|]. eapply rtc_l; [by apply calm_step_step|done]. Qed.

(** An upgrade that is marked in the box is that of an open that sleeps. *)
Definition upgrader (o : open_file) : Prop := word o = LOCK_SH ∧ is_Some (sleeping o).

Definition marked_by_sleeper (f : file) : Prop :=
  type (f_box f) = LOCK_UP → ∃ j oj, opens f !! j = Some oj ∧ upgrader oj.

(** A run marks an upgrade only if it then sleeps in it. *)
Definition marks (v : view) (out : outcome) (v' : view) : Prop :=
  type (box v') = LOCK_UP → type (box v) = LOCK_UP ∨ (∃ l, out = Sleep l) ∧ user v' = LOCK_SH.

Lemma take_ex_type v out v' : take_ex v = Some (out, v') → type (box v') = LOCK_EX.
Proof. unfold take_ex. intros H. repeat case_decide; by simplify_eq/=. Qed.

Lemma wait_sh_marks flags atomic v out v' : wait_sh flags atomic v = Some (out, v') → marks v out v'.
Proof.
  unfold wait_sh, marks. case_decide; [|by intros ->%take_ex_type].
  destruct (has flags LOCK_NB); intros [= <- <-]; [by left|]. unfold mark_upgrade.
  case_decide as Hu; simpl; [|by left]. right. split; [by eexists|apply Hu].
Qed.

Lemma wait_ex_marks flags atomic v out v' : wait_ex flags atomic v = Some (out, v') → marks v out v'.
Proof.
  unfold wait_ex. destruct (has (type (box v)) LOCK_EX).
  { destruct (has flags LOCK_NB); intros [= <- <-] ?; by left. }
  destruct (has flags LOCK_SH); [by intros [= <- <-]|].
  destruct (has flags LOCK_EX); [|done]. apply wait_sh_marks.
Qed.

Lemma type_wake v : type (box (wake v)) = type (box v).
Proof. unfold wake. by case_match. Qed.

Lemma type_wake_free v : type (box (wake_free v)) = type (box v).
Proof. unfold wake_free. case_decide; [apply type_wake|done]. Qed.

Lemma type_wake_upgrade v : type (box (wake_upgrade v)) = type (box v).
Proof. unfold wake_upgrade. case_decide; [apply type_wake|done]. Qed.

Lemma drop_shared_type v : type (box (drop_shared v)) = LOCK_UP → type (box v) = LOCK_UP.
Proof. unfold drop_shared. by case_decide. Qed.

Lemma drops_type v : type (box (drop_sh (drop_ex v))) = LOCK_UP → type (box v) = LOCK_UP.
Proof.
  unfold drop_sh. case_decide as Hu.
  - rewrite type_wake_upgrade. case_decide; rewrite ?type_wake; intros Hd%drop_shared_type;
      revert Hd; unfold drop_ex; simpl; case_decide; simpl; rewrite ?type_wake; done.
  - unfold drop_ex. case_decide; rewrite ?type_wake; done.
Qed.

Lemma request_marks flags v out v' : fshelp_acquire_lock flags v = Some (out, v') → marks v out v'.
Proof.
  unfold fshelp_acquire_lock. destruct (negb _); [intros [= <- <-] ?; by left|].
  destruct (_ && _); [intros [= <- <-] ?; by left|]. cbv zeta.
  destruct (has (norm_flags flags) LOCK_UN).
  - unfold release. destruct (has (user v) LOCK_UN); [intros [= <- <-] ?; by left|].
    case_decide; [|done]. intros [= <- <-] Ht. left. revert Ht. simpl.
    rewrite type_wake_upgrade, type_wake_free. unfold drop_lock. repeat case_decide; [apply drop_shared_type|done..].
  - unfold acquire. destruct (_ && bool_decide (user v = _)); [intros [= <- <-] ?; by left|].
    destruct (_ && has _ LOCK_SH); [intros [= <- <-]; unfold marks; by rewrite type_wake|].
    destruct (_ && _); [intros [= <- <-] ?; by left|].
    intros Hw%wait_ex_marks Ht. destruct (Hw Ht) as [Hd|?]; [|by right].
    left. destruct (has flags LOCK_ATOMIC); [done|by apply drops_type].
Qed.

(** A marked upgrade that goes on without the lock sleeps again. *)
Lemma resume_marks l flags atomic v out v' :
  sleep_ok l flags atomic v → user v = LOCK_SH → resume l flags atomic false v = Some (out, v') →
  type (box v') = LOCK_UP → (∃ l', out = Sleep l') ∧ user v' = LOCK_SH.
Proof.
  intros [Hnb Hs] Hu. unfold resume. destruct l; [by rewrite Hs in Hu|]. unfold wait_sh.
  case_decide; [|by intros ->%take_ex_type]. rewrite Hnb. intros [= <- <-] _.
  split; [by eexists|]. unfold mark_upgrade. by case_decide.
Qed.

Lemma upgrader_kept i j flags atomic f oj r :
  opens f !! j = Some oj → upgrader oj → i ≠ j →
  ∃ oj', opens (settle i flags atomic f r) !! j = Some oj' ∧ upgrader oj'.
Proof.
  intros Hj [Hw [s Hs]] Hij. destruct r as [out v]. unfold settle. simpl. rewrite list_lookup_insert_ne by done.
  destruct (signalled v); [|by exists oj; split; [|split; [|eexists]]].
  exists (signal oj). rewrite list_lookup_fmap, Hj. split; [done|]. split; [done|]. simpl. rewrite Hs. by eexists.
Qed.

Lemma settle_sleeps i flags atomic f o l v :
  opens f !! i = Some o → user v = LOCK_SH →
  ∃ j oj, opens (settle i flags atomic f (Sleep l, v)) !! j = Some oj
    ∧ upgrader oj.
Proof.
  intros Ho Hu. exists i, (mk_open (user v) (Some (mk_sleeper l flags atomic false))).
  split; [|by split; [|eexists]]. unfold settle. simpl. apply list_lookup_insert_eq.
  destruct (signalled v); rewrite ?length_fmap; by eapply lookup_lt_Some.
Qed.

Lemma calm_step_marked f f' : file_ok f → marked_by_sleeper f → calm_step f f' → marked_by_sleeper f'.
Proof.
  intros Hf Hm Hst. destruct Hst as [|i o flags [out v] Ho Hs Hr|i o s interrupted [out v] Ho Hs Hint Hr]; intros Hup.
  - destruct (Hm Hup) as (j & oj & Hj & Hu). exists j, oj. split; [|done]. by apply lookup_app_l_Some.
  - destruct (request_marks _ _ _ _ Hr Hup) as [Hup0|[[l ->] Hu]]; [|by eapply settle_sleeps].
    destruct (Hm Hup0) as (j & oj & Hj & Hu). exists j. eapply upgrader_kept; [done..|].
    intros ->. rewrite Ho in Hj. injection Hj as ->. destruct Hu as [_ [? ?]]. congruence.
  - pose proof (proj2 Hf i o Ho) as Hso. unfold sleeper_ok in Hso. rewrite Hs in Hso. destruct Hso as [Hso _].
    destruct (decide (word o = LOCK_SH)) as [Hw|Hw].
    { destruct interrupted; [by rewrite Hint in Hw|].
      destruct (resume_marks _ _ _ _ _ _ Hso Hw Hr Hup) as [[l ->] Hu]. by eapply settle_sleeps. }
    assert (marks (view_of f o) out v) as Hmk.
    { unfold resume in Hr. destruct interrupted; [injection Hr as <- <-; intros ?; by left|].
      destruct (s_loop s); [by eapply wait_ex_marks|by eapply wait_sh_marks]. }
    destruct (Hmk Hup) as [Hup0|[[l ->] Hu]]; [|by eapply settle_sleeps].
    destruct (Hm Hup0) as (j & oj & Hj & Hu). exists j. eapply upgrader_kept; [done..|].
    intros ->. rewrite Ho in Hj. injection Hj as ->. by destruct Hu.
Qed.

Lemma calm_marked f : rtc calm_step new_file f → marked_by_sleeper f.
Proof.
  intros Hr. assert (file_ok new_file) as H0 by by apply reachable_ok.
  assert (marked_by_sleeper new_file) as H1 by done.
  induction Hr as [|f f' f'' Hst _ IH]; [done|].
  apply IH; [by eapply step_ok; [|apply calm_step_step]|by eapply calm_step_marked].
Qed.

(** C31. A request gets the lock, and then only that one, unless another open
    stands in its way: has a lock that excludes it, or sleeps in the upgrade of its
    shared lock.  Then the request returns [EWOULDBLOCK] or sleeps, as it asked to,
    and has kept its old lock if the change was to be atomic; an atomic upgrade is
    refused with [EDEADLK] while another open sleeps in one.  This holds as long as
    no upgrade is interrupted in its sleep: after that the mark of the upgrade is left in the
    box ([flock_interrupted_upgrade]). *)
Theorem flock_request_correct f i o flags :
  rtc calm_step new_file f → opens f !! i = Some o → sleeping o = None →
  ∃ out v, fshelp_acquire_lock flags (view_of f o) = Some (out, v)
    ∧ request_result (other LOCK_SH f o) (other LOCK_EX f o) flags (view_of f o) out v
    ∧ (type (f_box f) = LOCK_UP → ∃ j oj, i ≠ j ∧ opens f !! j = Some oj ∧ upgrader oj).
Proof.
  intros Hr Ho Hs. pose proof (calm_marked f Hr) as Hm. apply calm_steps_steps, reachable_ok in Hr as [Hb _].
  destruct (request_ok _ _ flags _ (view_ok_of f i o Hb Ho)) as (out & v & ? & _ & _ & ?).
  exists out, v. split_and!; [done..|]. intros Hup. destruct (Hm Hup) as (j & oj & Hj & Hu). exists j, oj.
  split_and!; [|done..]. intros ->. rewrite Ho in Hj. injection Hj as ->. destruct Hu as [_ [? Hu]]. congruence.
Qed.

(** ** Runs of the system as a function, for examples *)

Inductive event := Open | Request (i : nat) (flags : Z) | Resume (i : nat) (interrupted : bool).

Definition run_event (f : file) (e : event) : option file :=
  match e with
  | Open => Some (mk_file (f_box f) (opens f ++ [mk_open LOCK_UN None]))
  | Request i flags =>
      o ← opens f !! i;
      match sleeping o with
      | None => settle i (norm_flags flags) (has flags LOCK_ATOMIC) f <$> fshelp_acquire_lock flags (view_of f o)
      | Some _ => None
      end
  | Resume i interrupted =>
      o ← opens f !! i;
      s ← sleeping o;
      settle i (s_flags s) (s_atomic s) f <$> resume (s_loop s) (s_flags s) (s_atomic s) interrupted (view_of f o)
  end.

Fixpoint run_events (f : file) (es : list event) : option file :=
  match es with
  | [] => Some f
  | e :: es' => f' ← run_event f e; run_events f' es'
  end.

Lemma run_event_step f e f' : run_event f e = Some f' → step f f'.
Proof.
  destruct e as [|i flags|i interrupted]; simpl.
  - intros [= <-]. constructor.
  - intros ([w [s|]] & Ho & Hr)%bind_Some; [done|]. apply fmap_Some in Hr as (r & Hr & ->).
    by eapply step_request.
  - intros (o & Ho & (s & Hs & Hr)%bind_Some)%bind_Some. apply fmap_Some in Hr as (r & Hr & ->).
    by eapply step_resume.
Qed.

Lemma run_events_steps f es f' : run_events f es = Some f' → rtc step f f'.
Proof.
  revert f. induction es as [|e es IH]; intros f; simpl; [by intros [= <-]|].
  intros (f1 & He & Hr)%bind_Some. eapply rtc_l; [by eapply run_event_step|auto].
Qed.

Definition no_interrupt (e : event) : bool := match e with Resume _ interrupted => negb interrupted | _ => true end.

Lemma run_events_calm f es f' : forallb no_interrupt es = true → run_events f es = Some f' → rtc calm_step f f'.
Proof.
  revert f. induction es as [|e es IH]; intros f; simpl; [by intros _ [= <-]|].
  intros [He Hes]%andb_prop (f1 & Hr & Hrs)%bind_Some. eapply rtc_l; [|by apply IH]. clear Hrs IH Hes.
  destruct e as [|i flags|i interrupted]; simpl in *.
  - injection Hr as <-. constructor.
  - apply bind_Some in Hr as ([w [s|]] & Ho & Hr); [done|]. apply fmap_Some in Hr as (r & Hr & ->).
    by eapply calm_request.
  - apply bind_Some in Hr as (o & Ho & (s & Hs & Hr)%bind_Some). apply fmap_Some in Hr as (r & Hr & ->).
    destruct interrupted; [done|]. by apply (calm_resume f i o s false).
Qed.

(** Two readers; the first upgrades and sleeps. *)
Definition upgrading : list event :=
  [Open; Open; Request 0 LOCK_SH; Request 1 LOCK_SH; Request 0 (Z.lor LOCK_EX LOCK_ATOMIC)].

Definition sleeping_upgrade : file :=
  mk_file (mk_box LOCK_UP true 2)
    [mk_open LOCK_SH (Some (mk_sleeper sh_loop LOCK_EX true false)); mk_open LOCK_SH None].

Lemma reach_upgrade : rtc step new_file sleeping_upgrade.
Proof. apply (run_events_steps _ upgrading). vm_compute. reflexivity. Qed.

Lemma calm_upgrade : rtc calm_step new_file sleeping_upgrade.
Proof. apply (run_events_calm _ upgrading); vm_compute; reflexivity. Qed.

(** The second reader unlocks and the first goes on. *)
Definition upgraded : file := mk_file (mk_box LOCK_EX false 0) [mk_open LOCK_EX None; mk_open LOCK_UN None].

Lemma reach_upgraded : rtc step new_file upgraded.
Proof. apply (run_events_steps _ (upgrading ++ [Request 1 LOCK_UN; Resume 0 false])). vm_compute. reflexivity. Qed.

Lemma flock_reachable_exclusive_witness :
  word (mk_open LOCK_UN None) = LOCK_UN
  ∧ is_Some (fshelp_acquire_lock (Z.lor LOCK_SH LOCK_ATOMIC) (view_of upgraded (mk_open LOCK_EX None))).
Proof.
  destruct (flock_reachable_exclusive upgraded 0 (mk_open LOCK_EX None) reach_upgraded eq_refl) as (Hex & Hreq & _).
  split; [exact (Hex 1%nat (mk_open LOCK_UN None) eq_refl ltac:(discriminate) eq_refl)|exact (Hreq eq_refl _)].
Defined.

Lemma flock_no_lost_wakeup_witness :
  ∃ l v, resume sh_loop LOCK_EX true false (view_of sleeping_upgrade
    (mk_open LOCK_SH (Some (mk_sleeper sh_loop LOCK_EX true false)))) = Some (Sleep l, v).
Proof.
  exact (proj2 (flock_no_lost_wakeup sleeping_upgrade 0 _ _ reach_upgrade eq_refl eq_refl eq_refl)).
Defined.

Lemma flock_request_correct_witness :
  ∃ out v, fshelp_acquire_lock (Z.lor LOCK_EX LOCK_ATOMIC) (view_of sleeping_upgrade (mk_open LOCK_SH None)) = Some (out, v)
    ∧ request_result 1 0 (Z.lor LOCK_EX LOCK_ATOMIC) (view_of sleeping_upgrade (mk_open LOCK_SH None)) out v
    ∧ (type (f_box sleeping_upgrade) = LOCK_UP →
       ∃ j oj, 1%nat ≠ j ∧ opens sleeping_upgrade !! j = Some oj ∧ upgrader oj).
Proof.
  exact (flock_request_correct sleeping_upgrade 1 (mk_open LOCK_SH None) (Z.lor LOCK_EX LOCK_ATOMIC)
    calm_upgrade eq_refl eq_refl).
Defined.

(** An interrupted upgrade stays pending: after the sleeping upgrade of the
    first reader is interrupted and the second reader has unlocked, the first
    reader is the only one with a lock, but its next atomic upgrade is refused as
    a deadlock and a third open cannot share the lock. *)
Theorem flock_interrupted_upgrade :
  ∃ f, run_events new_file (upgrading ++ [Resume 0 true; Request 1 LOCK_UN; Open]) = Some f
    ∧ words f = [LOCK_SH; LOCK_UN; LOCK_UN]
    ∧ fst <$> fshelp_acquire_lock (Z.lor LOCK_EX LOCK_ATOMIC) (view_of f (mk_open LOCK_SH None))
      = Some (Ret EDEADLK)
    ∧ fst <$> fshelp_acquire_lock (Z.lor LOCK_SH LOCK_NB) (view_of f (mk_open LOCK_UN None))
      = Some (Ret EWOULDBLOCK).
Proof. eexists. split; [vm_compute; reflexivity|]. vm_compute. auto. Qed.
