(* ===== verification/Pq.v ===== *)
(** * Packet queues (src/libpipe/pq.c, pq.h)

    A packet's buffer is the list of its cells, [None] for a cell that was never
    written; the data lie between two offsets into it.  A buffer that was
    allocated by pages starts on a page boundary, so page arithmetic on addresses
    in it is page arithmetic on offsets.  The queue and the list of free packets
    are lists of packets.  The released port rights and sources are logged. *)

From S2P Require Import Prelude.

(** ** Data *)

(** [struct packet]; the port array has [ports_alloced] cells. *)
Record packet := mk_packet {
  type : Z;
  source : Z;
  buf : list (option Z);
  buf_start : Z;
  buf_end : Z;
  buf_vm_alloced : bool;
  ports : list (option Z);
  num_ports : Z
}.

Abbreviation PACKET_TYPE_ANY := 0 (only parsing).
Abbreviation PACKET_TYPE_DATA := 1 (only parsing).
Abbreviation PACKET_TYPE_CONTROL := 2 (only parsing).
Abbreviation PACKET_SIZE_LARGE := 8192 (only parsing).

Abbreviation MACH_PORT_NULL := 0 (only parsing).

Abbreviation buf_len p := (zlen (buf p)).
Abbreviation ports_alloced p := (zlen (ports p)).

(** Assignments to the buffer, the source and the ports of a packet. *)
Definition set_buf (b : list (option Z)) (s e : Z) (vm : bool) (p : packet) : packet :=
  mk_packet (type p) (source p) b s e vm (ports p) (num_ports p).
Definition set_source (s : Z) (p : packet) : packet :=
  mk_packet (type p) s (buf p) (buf_start p) (buf_end p) (buf_vm_alloced p) (ports p) (num_ports p).
Definition set_ports (l : list (option Z)) (n : Z) (p : packet) : packet :=
  mk_packet (type p) (source p) (buf p) (buf_start p) (buf_end p) (buf_vm_alloced p) l n.

(** [struct pq], with the rights and sources that were released. *)
Record pq := mk_pq {
  queue : list packet;
  free : list packet;
  dead_ports : list Z;
  dead_sources : list Z
}.

(** The [n] cells from [s] on, all of which must be initialised. *)
Definition read_cells {A} (s n : Z) (l : list (option A)) : option (list A) :=
  if decide (0 ≤ s ∧ 0 ≤ n ∧ s + n ≤ zlen l) then mapM id (take (Z.to_nat n) (drop (Z.to_nat s) l)) else None.

(** [memcpy] of [d] to the cells from [s] on. *)
Definition write_cells {A} (s : Z) (d : list A) (l : list (option A)) : option (list (option A)) :=
  if decide (0 ≤ s ∧ s + zlen d ≤ zlen l) then
    Some (take (Z.to_nat s) l ++ (Some <$> d) ++ drop (Z.to_nat (s + zlen d)) l)
  else None.

(** New memory of [n] bytes: [mmap] and [vm_allocate] clear it. *)
Definition fresh_cells (vm : bool) (n : Z) : list (option Z) :=
  replicate (Z.to_nat n) (if vm then Some 0 else None).

Definition packet_readable (p : packet) : Z := buf_end p - buf_start p.

Section pages.
Context (vm_page_size : Z).

Definition trunc_page (x : Z) : Z := x / vm_page_size * vm_page_size.
Definition round_page (x : Z) : Z := trunc_page (x + vm_page_size - 1).

(** ** Buffer space *)

Definition packet_fit (amount : Z) (p : packet) : option (bool * packet) :=
  let left := buf_len p - buf_end p in
  if decide (amount > left) then
    let cur_len := buf_end p - buf_start p in
    if decide (amount ≤ buf_len p - cur_len ∧ cur_len < PACKET_SIZE_LARGE ∧ cur_len < Z.shiftr (buf_len p) 2) then
      b ← memmove 0 (buf_start p) cur_len (buf p);
      Some (true, set_buf b 0 cur_len (buf_vm_alloced p) p)
    else Some (false, p)
  else Some (true, p).

Definition packet_new_size (extra : Z) (p : packet) : Z :=
  let new_len := u64 (buf_end p + extra) in
  if buf_vm_alloced p || bool_decide (PACKET_SIZE_LARGE ≤ new_len) then round_page new_len
  else Z.land (u64 (new_len + 511)) (Z.lnot 511).

Definition packet_extend (new_len : Z) (p : packet) (o : allocs) : bool * packet * allocs :=
  let old_len := buf_len p in
  if decide (old_len = 0) then (false, p, o)
  else if buf_vm_alloced p then
    let '(ok, o') := alloc o in
    if ok then
      (true, set_buf (buf p ++ fresh_cells true (new_len - old_len)) (buf_start p) (buf_end p) true p, o')
    else (false, p, o')
  else if decide (PACKET_SIZE_LARGE ≤ new_len) then (false, p, o)
  else
    let '(ok, o') := alloc o in
    if ok then
      (true, set_buf (take (Z.to_nat new_len) (buf p) ++ fresh_cells false (new_len - old_len))
               (buf_start p) (buf_end p) false p, o')
    else (false, p, o').

Definition packet_realloc (new_len : Z) : op packet := λ p o,
  let vm_alloc := bool_decide (PACKET_SIZE_LARGE ≤ new_len) in
  let '(ok, o') := alloc o in
  if ok then
    let len := buf_end p - buf_start p in
    if decide (0 ≤ buf_start p ∧ 0 ≤ len ∧ buf_end p ≤ buf_len p ∧ len ≤ new_len) then
      Some (E0, set_buf (take (Z.to_nat len) (drop (Z.to_nat (buf_start p)) (buf p))
                         ++ fresh_cells vm_alloc (new_len - len)) 0 len vm_alloc p, o')
    else None
  else Some (ENOMEM, p, o').

Definition packet_ensure (amount : Z) : op packet := λ p o,
  '(fits, p) ← packet_fit amount p;
  if fits : bool then Some (E0, p, o)
  else
    let new_len := packet_new_size amount p in
    let '(ext, p', o') := packet_extend new_len p o in
    if ext then Some (E0, p', o') else packet_realloc new_len p' o'.

Definition packet_ensure_efficiently (amount : Z) (p : packet) (o : allocs) : option (bool * packet * allocs) :=
  '(fits, p) ← packet_fit amount p;
  if fits : bool then Some (false, p, o)
  else
    let new_len := packet_new_size amount p in
    let '(ext, p', o') := packet_extend new_len p o in
    if ext then Some (true, p', o')
    else if decide (buf_end p' - buf_start p' < PACKET_SIZE_LARGE) then
      '(err, p'', o'') ← packet_realloc new_len p' o';
      Some (bool_decide (err = E0), p'', o'')
    else Some (false, p', o').

(** ** Contents *)

Definition packet_write (data : list Z) : op packet := λ p o,
  '(err, p, o) ← packet_ensure (zlen data) p o;
  if decide (err = E0) then
    b ← write_cells (buf_end p) data (buf p);
    Some (E0, set_buf b (buf_start p) (buf_end p + zlen data) (buf_vm_alloced p) p, o)
  else Some (err, p, o).

(** The pages of a buffer are handed to the reader; what remains starts at a
    page boundary. *)
Definition fetch_pages (amount : Z) (p : packet) : option (list Z * packet) :=
  let start := buf_start p + amount in
  let '(new_start, new_end) :=
    if decide (start < buf_end p) then (trunc_page start, buf_end p)
    else (round_page start, round_page start) in
  let amount :=
    if decide (start < buf_end p) then amount - (start - new_start) else amount in
  data ← read_cells (buf_start p) amount (buf p);
  if decide (0 ≤ new_start ≤ buf_len p) then
    Some (data, set_buf (drop (Z.to_nat new_start) (buf p)) 0 (new_end - new_start) (buf_vm_alloced p) p)
  else None.

(** The data are copied; [data_len] is the size of the reader's buffer, instead
    of which memory is allocated if it is too small. *)
Definition fetch_copy (data_len amount : Z) (remove : bool) (p : packet) (o : allocs)
  : option (list Z * packet * allocs) :=
  let '(ok, o') := if decide (data_len < amount) then alloc o else (true, o) in
  if ok : bool then
    data ← read_cells (buf_start p) amount (buf p);
    let start := buf_start p + amount in
    if remove then
      let dealloc := if decide (start > 2 * PACKET_SIZE_LARGE) then trunc_page start else 0 in
      Some (data, set_buf (drop (Z.to_nat dealloc) (buf p)) (start - dealloc) (buf_end p - dealloc)
                    (buf_vm_alloced p) p, o')
    else Some (data, p, o')
  else None.

Definition packet_fetch (data_len amount : Z) (remove : bool) (p : packet) (o : allocs)
  : option (list Z * packet * allocs) :=
  let amount := if decide (amount > buf_end p - buf_start p) then buf_end p - buf_start p else amount in
  if decide (amount > 0) then
    if remove && buf_vm_alloced p && bool_decide (vm_page_size ≤ amount) then
      '(data, p') ← fetch_pages amount p; Some (data, p', o)
    else fetch_copy data_len amount remove p o
  else Some ([], p, o).

Definition packet_read (data_len amount : Z) := packet_fetch data_len amount true.
Definition packet_peek (data_len amount : Z) := packet_fetch data_len amount false.
End pages.

(** ** Ports and sources *)

Definition packet_dealloc_ports (p : packet) : option (list Z) :=
  l ← read_cells 0 (num_ports p) (ports p); Some (filter (λ x, x ≠ MACH_PORT_NULL) l).

(** The result lists the rights that were released. *)
Definition packet_set_ports (l : list Z) (p : packet) (o : allocs)
  : option (error_t * packet * list Z * allocs) :=
  dead ← (if decide (num_ports p > 0) then packet_dealloc_ports p else Some []);
  let '(ok, o') := if decide (zlen l > ports_alloced p) then alloc o else (true, o) in
  if ok : bool then
    let a := if decide (zlen l > ports_alloced p) then replicate (length l) None else ports p in
    a' ← write_cells 0 l a;
    Some (E0, set_ports a' (zlen l) p, dead, o')
  else Some (ENOMEM, p, dead, o').

(** [n] is the size of the reader's array. *)
Definition packet_read_ports (n : Z) (p : packet) (o : allocs)
  : option (error_t * list Z * packet * allocs) :=
  let '(ok, o') := if decide (n < num_ports p) then alloc o else (true, o) in
  if ok : bool then
    l ← read_cells 0 (num_ports p) (ports p);
    Some (E0, l, set_ports (ports p) 0 p, o')
  else Some (ENOMEM, [], p, o').

Definition packet_read_source (p : packet) : Z * packet := (source p, set_source 0 p).

(** ** Queues *)

Definition pq_create (o : allocs) : option pq * allocs :=
  let '(ok, o') := alloc o in (if ok then Some (mk_pq [] [] [] []) else None, o').

Definition pq_dequeue (q : pq) : option (bool * pq) :=
  match queue q with
  | [] => Some (false, q)
  | p :: rest =>
      dead ← (if decide (num_ports p ≠ 0) then packet_dealloc_ports p else Some []);
      let sources := if decide (source p ≠ 0) then [source p] else [] in
      Some (true, mk_pq rest (p :: free q) (dead_ports q ++ dead) (dead_sources q ++ sources))
  end.

Fixpoint drain_loop (n : nat) (q : pq) : option pq :=
  '(more, q) ← pq_dequeue q;
  if more : bool then match n with O => None | S n' => drain_loop n' q end else Some q.

(** Each turn removes a packet. *)
Definition pq_drain (q : pq) : option pq := drain_loop (length (queue q)) q.

(** The new packet is the last one of the queue; the result tells whether there
    is one. *)
Definition pq_queue (t s : Z) (q : pq) (o : allocs) : bool * pq * allocs :=
  match free q with
  | [] =>
      let '(ok, o') := alloc o in
      if ok then
        (true, mk_pq (queue q ++ [mk_packet t s [] 0 0 false [] 0]) [] (dead_ports q) (dead_sources q), o')
      else (false, q, o')
  | p :: rest =>
      (true, mk_pq (queue q ++ [mk_packet t s (buf p) 0 0 (buf_vm_alloced p) (ports p) 0]) rest
               (dead_ports q) (dead_sources q), o)
  end.

(** A packet is of type [t] and source [s], where these are given. *)
Definition matches (t s : Z) (p : packet) : bool :=
  negb (bool_decide (t ≠ 0) && bool_decide (type p ≠ t))
  && negb (bool_decide (s ≠ 0) && bool_decide (source p ≠ s)).

Definition pq_tail (t s : Z) (q : pq) (o : allocs) : bool * pq * allocs :=
  match last (queue q) with
  | Some p => if matches t s p then (true, q, o) else pq_queue t s q o
  | None => pq_queue t s q o
  end.

Definition pq_head (t s : Z) (q : pq) : option packet :=
  match queue q with
  | [] => None
  | p :: _ => if matches t s p then Some p else None
  end.

Definition pq_next (t s : Z) (q : pq) : option (option packet * pq) :=
  match queue q with
  | [] => Some (None, q)
  | _ :: _ => '(_, q') ← pq_dequeue q; Some (pq_head t s q', q')
  end.

(** ** Cells *)

Lemma read_cells_mid {A} (pre post : list (option A)) (l : list A) s n :
  s = zlen pre → 0 ≤ n ≤ zlen l →
  read_cells s n (pre ++ (Some <$> l) ++ post) = Some (take (Z.to_nat n) l).
Proof.
  intros -> Hn. unfold read_cells. rewrite decide_True by (rewrite !length_app, length_fmap; lia).
  rewrite Nat2Z.id, drop_app_length, take_app_le, <- fmap_take by (rewrite length_fmap; lia).
  apply mapM_id_Some.
Qed.

Lemma write_cells_mid {A} (pre post : list (option A)) (d : list A) s :
  s = zlen pre → zlen d ≤ zlen post →
  write_cells s d (pre ++ post) = Some (pre ++ (Some <$> d) ++ drop (length d) post).
Proof.
  intros -> Hd. unfold write_cells. rewrite decide_True by (rewrite length_app; lia).
  rewrite Nat2Z.id, take_app_length. replace (Z.to_nat (zlen pre + zlen d)) with (length pre + length d)%nat by lia.
  by rewrite drop_app_add.
Qed.

Lemma read_ports_spec (a : list (option Z)) (l : list Z) :
  (∃ junk, a = (Some <$> l) ++ junk) → read_cells 0 (zlen l) a = Some l.
Proof. intros [junk ->]. rewrite (read_cells_mid [] junk l) by (simpl; lia). by rewrite take_ge by lia. Qed.

Section packets.
Context (vm_page_size : Z).
Hypothesis page_pos : 0 < vm_page_size.
Hypothesis page_large : (vm_page_size | PACKET_SIZE_LARGE).

#[local] Abbreviation trunc := (trunc_page vm_page_size).
#[local] Abbreviation round := (round_page vm_page_size).

(** ** Pages *)

Lemma trunc_page_bounds x : trunc x ≤ x < trunc x + vm_page_size.
Proof. unfold trunc_page. pose proof (Z.mod_pos_bound x vm_page_size). pose proof (Z.div_mod x vm_page_size). lia. Qed.

Lemma trunc_page_div x : (vm_page_size | trunc x).
Proof. apply Z.divide_factor_r. Qed.

Lemma round_page_bounds x : x ≤ round x < x + vm_page_size.
Proof. unfold round_page. pose proof (trunc_page_bounds (x + vm_page_size - 1)). lia. Qed.

Lemma round_page_div x : (vm_page_size | round x).
Proof. apply trunc_page_div. Qed.

(** Nothing is lost by rounding up within a multiple of the page size. *)
Lemma round_page_le x n : (vm_page_size | n) → x ≤ n → round x ≤ n.
Proof.
  intros [k ->] Hx. destruct (round_page_div x) as [j Hj]. pose proof (round_page_bounds x).
  rewrite Hj in *. apply Z.mul_le_mono_nonneg_r; [lia|]. nia.
Qed.

(** ** Packets

    [pk_ok p l]: the packet holds the bytes [l], with little space before them; a
    buffer allocated by pages is a whole number of them, another one is small. *)
Definition buf_ok (b : list (option Z)) (vm : bool) : Prop :=
  if vm then (vm_page_size | zlen b) else zlen b < PACKET_SIZE_LARGE.

Definition pk_ok (p : packet) (l : list Z) : Prop :=
  ∃ pre post, buf p = pre ++ (Some <$> l) ++ post ∧ buf_start p = zlen pre ∧ buf_end p = zlen pre + zlen l
    ∧ buf_start p ≤ 2 * PACKET_SIZE_LARGE ∧ buf_ok (buf p) (buf_vm_alloced p).

(** Everything but the buffer. *)
Definition same_head (p p' : packet) : Prop :=
  type p' = type p ∧ source p' = source p ∧ ports p' = ports p ∧ num_ports p' = num_ports p.

Lemma same_head_refl p : same_head p p.
Proof. done. Qed.

Lemma same_head_trans p1 p2 p3 : same_head p1 p2 → same_head p2 p3 → same_head p1 p3.
Proof. unfold same_head. intuition congruence. Qed.

Lemma pk_ok_set b s e vm p l pre post :
  b = pre ++ (Some <$> l) ++ post → s = zlen pre → e = zlen pre + zlen l →
  s ≤ 2 * PACKET_SIZE_LARGE → buf_ok b vm → pk_ok (set_buf b s e vm p) l.
Proof. intros. exists pre, post. done. Qed.

Lemma pk_ok_bounds p l :
  pk_ok p l → 0 ≤ buf_start p ≤ buf_end p ∧ buf_end p ≤ buf_len p ∧ buf_end p - buf_start p = zlen l.
Proof. intros (pre & post & Hb & -> & -> & _ & _). rewrite Hb, !length_app, length_fmap. lia. Qed.

Lemma pk_ok_read p l n :
  pk_ok p l → 0 ≤ n ≤ zlen l → read_cells (buf_start p) n (buf p) = Some (take (Z.to_nat n) l).
Proof. intros (pre & post & -> & -> & _) Hn. by apply read_cells_mid. Qed.

Lemma packet_fit_spec p l amount :
  pk_ok p l → 0 ≤ amount →
  ∃ fits p', packet_fit amount p = Some (fits, p') ∧ pk_ok p' l ∧ same_head p p'
    ∧ (fits = true → buf_end p' + amount ≤ buf_len p')
    ∧ (fits = false → p' = p ∧ buf_len p < buf_end p + amount).
Proof.
  intros Hp Ha. pose proof (pk_ok_bounds p l Hp) as (? & ? & Hl). unfold packet_fit.
  destruct (decide (amount > buf_len p - buf_end p)) as [Hgt|Hle]; [|exists true, p; split_and!; try done; intros; lia].
  destruct (decide (_ ∧ _)) as [(Hfit & _ & _)|_].
  2: { exists false, p. split_and!; try done. intros _. split; [done|lia]. }
  destruct Hp as (pre & post & Hb & Hs & He & Hst2 & Hok).
  assert (memmove 0 (buf_start p) (buf_end p - buf_start p) (buf p)
          = Some ((Some <$> l) ++ drop (length l) (buf p))) as ->.
  { unfold memmove. rewrite decide_True by lia. rewrite Hl, Hs. simpl. do 2 f_equal.
    - rewrite Hb, !Nat2Z.id, drop_app_length. rewrite take_app_le by by rewrite length_fmap.
      by rewrite take_ge by by rewrite length_fmap.
    - f_equal. lia. }
  simpl. eexists true, _. split; [done|]. rewrite Hl. split_and!; try done.
  - apply (pk_ok_set _ _ _ _ _ _ [] (drop (length l) (buf p))); try done.
    unfold buf_ok in *. rewrite length_app, length_fmap, length_drop.
    replace (length l + (length (buf p) - length l))%nat with (length (buf p)) by lia. done.
  - intros _. simpl. rewrite length_app, length_fmap, length_drop. lia.
Qed.

(** A length that will not wrap around. *)
Definition fits_size (n : Z) : Prop := n + vm_page_size + PACKET_SIZE_LARGE < 2 ^ 64.

Lemma round_512 x : 0 ≤ x → fits_size x →
  Z.land (u64 (x + 511)) (Z.lnot 511) = (x + 511) / 512 * 512.
Proof.
  intros Hx Hs. unfold fits_size in Hs. rewrite u64_id by lia.
  change 511 with (Z.ones 9) at 2. rewrite <- Z.ldiff_land, Z.ldiff_ones_r by lia.
  rewrite Z.shiftl_mul_pow2, Z.shiftr_div_pow2 by lia. done.
Qed.

Lemma packet_new_size_spec p l extra :
  pk_ok p l → 0 ≤ extra → fits_size (buf_end p + extra) →
  buf_end p + extra ≤ packet_new_size vm_page_size extra p
  ∧ (buf_vm_alloced p = true ∨ PACKET_SIZE_LARGE ≤ packet_new_size vm_page_size extra p →
     (vm_page_size | packet_new_size vm_page_size extra p)).
Proof.
  intros Hp He Hs. pose proof (pk_ok_bounds p l Hp) as (? & ? & _).
  unfold packet_new_size. pose proof Hs as Hs'. unfold fits_size in Hs'.
  rewrite (u64_id (_ + extra)) by lia. pose proof (round_page_bounds (buf_end p + extra)).
  destruct (buf_vm_alloced p); simpl; [split; [lia|intros _; apply round_page_div]|].
  case_bool_decide; [split; [lia|intros _; apply round_page_div]|].
  rewrite round_512 by (done || lia). pose proof (Z.div_mod (buf_end p + extra + 511) 512).
  pose proof (Z.mod_pos_bound (buf_end p + extra + 511) 512). split; [lia|]. intros [?|Hlg]; [done|].
  replace (_ / 512 * 512) with 8192 by lia. done.
Qed.

Lemma fresh_cells_length vm n : 0 ≤ n → zlen (fresh_cells vm n) = n.
Proof. intros. unfold fresh_cells. rewrite length_replicate. lia. Qed.

(** The data stay in place when a buffer grows. *)
Lemma pk_ok_grow p l more vm :
  pk_ok p l → buf_ok (buf p ++ more) vm →
  pk_ok (set_buf (buf p ++ more) (buf_start p) (buf_end p) vm p) l.
Proof.
  intros (pre & post & Hb & Hs & He & Hst2 & _) Hok. apply (pk_ok_set _ _ _ _ _ _ pre (post ++ more)); try done.
  rewrite Hb. by rewrite <- !app_assoc.
Qed.

Lemma packet_extend_spec p l new_len o :
  pk_ok p l → buf_len p ≤ new_len →
  (buf_vm_alloced p = true → (vm_page_size | new_len)) →
  ∃ ext p' o', packet_extend new_len p o = (ext, p', o') ∧ pk_ok p' l ∧ same_head p p'
    ∧ (o = [] → o' = []) ∧ buf_end p' = buf_end p
    ∧ (ext = true → buf_len p' = new_len) ∧ (ext = false → p' = p).
Proof.
  intros Hp Hn Hdiv. unfold packet_extend.
  destruct (decide (buf_len p = 0)); [by exists false, p, o|].
  destruct (buf_vm_alloced p) eqn:Hvm; [|destruct (decide (_ ≤ new_len)); [by exists false, p, o|]].
  - destruct (alloc o) as [[] o'] eqn:Ho.
    2: { exists false, p, o'. split_and!; try done. by eapply alloc_nil. }
    eexists true, _, o'. split; [done|]. split_and!; try done; [|by eapply alloc_nil|].
    + apply pk_ok_grow; [done|]. unfold buf_ok. rewrite length_app, Nat2Z.inj_add, fresh_cells_length by lia.
      replace (_ + _) with new_len by lia. auto.
    + intros _. simpl. rewrite length_app, Nat2Z.inj_add, fresh_cells_length by lia. lia.
  - destruct (alloc o) as [[] o'] eqn:Ho.
    2: { exists false, p, o'. split_and!; try done. by eapply alloc_nil. }
    rewrite take_ge by lia.
    eexists true, _, o'. split; [done|]. split_and!; try done; [|by eapply alloc_nil|].
    + apply pk_ok_grow; [done|]. unfold buf_ok. rewrite length_app, Nat2Z.inj_add, fresh_cells_length by lia. lia.
    + intros _. simpl. rewrite length_app, Nat2Z.inj_add, fresh_cells_length by lia. lia.
Qed.

Lemma packet_realloc_spec p l new_len o :
  pk_ok p l → buf_end p ≤ new_len →
  (PACKET_SIZE_LARGE ≤ new_len → (vm_page_size | new_len)) →
  returns o (packet_realloc new_len p o)
    (λ p', pk_ok p' l ∧ same_head p p' ∧ buf_len p' = new_len ∧ buf_end p' ≤ buf_end p)
    (λ e p', e = ENOMEM ∧ p' = p).
Proof.
  intros Hp Hn Hdiv. pose proof (pk_ok_bounds p l Hp) as (? & ? & Hl). unfold packet_realloc.
  destruct (alloc o) as [[] o'] eqn:Ho; cycle 1.
  { apply returns_error; [done|done|]. intros ?. by destruct (alloc_fail _ _ Ho). }
  rewrite decide_True by lia. apply returns_ok; [|by eapply alloc_nil].
  destruct Hp as (pre & post & Hb & Hs & He & Hst2 & _). rewrite Hl, Hs. rewrite Hb at 1 3.
  rewrite !Nat2Z.id, drop_app_length.
  rewrite take_app_le by by rewrite length_fmap. rewrite take_ge by by rewrite length_fmap.
  assert (zlen ((Some <$> l) ++ fresh_cells (bool_decide (PACKET_SIZE_LARGE ≤ new_len)) (new_len - zlen l)) = new_len)
    as Hlen by (rewrite length_app, Nat2Z.inj_add, fresh_cells_length, length_fmap by lia; lia).
  split_and!; [|done|done|simpl; lia]. eapply (pk_ok_set _ _ _ _ _ _ []); [done..|].
  unfold buf_ok. rewrite Hlen. case_bool_decide; [auto|lia].
Qed.

Lemma packet_ensure_spec p l amount o :
  pk_ok p l → 0 ≤ amount → fits_size (buf_end p + amount) →
  returns o (packet_ensure vm_page_size amount p o)
    (λ p', pk_ok p' l ∧ same_head p p' ∧ buf_end p' + amount ≤ buf_len p')
    (λ e p', e = ENOMEM ∧ pk_ok p' l ∧ same_head p p').
Proof.
  intros Hp Ha Hs. unfold packet_ensure.
  destruct (packet_fit_spec p l amount Hp Ha) as (fits & p1 & -> & Hp1 & Hh & Hfit & Hnofit). simpl.
  destruct fits; [by apply returns_ok; [auto|]|]. destruct (Hnofit eq_refl) as [-> Hlen]. clear Hfit Hnofit.
  destruct (packet_new_size_spec p l amount Hp Ha Hs) as [Hnew Hdiv].
  destruct (packet_extend_spec p l (packet_new_size vm_page_size amount p) o Hp) as
    (ext & p2 & o2 & -> & Hp2 & Hh2 & Ho2 & He2 & Ht & Hf); [lia|auto|]. destruct ext.
  - apply returns_ok; [|done]. split_and!; [done|done|]. rewrite Ht by done. lia.
  - rewrite Hf by done. eapply returns_mono; [exact Ho2|].
    eapply returns_weaken; [apply (packet_realloc_spec p l); [done|lia|auto]|..].
    + intros p3 (? & ? & -> & ?). split_and!; [done|done|lia].
    + intros e p3 [-> ->]. done.
Qed.

Lemma packet_write_spec p l data o :
  pk_ok p l → fits_size (buf_end p + zlen data) →
  returns o (packet_write vm_page_size data p o)
    (λ p', pk_ok p' (l ++ data) ∧ same_head p p') (λ e p', e = ENOMEM ∧ pk_ok p' l ∧ same_head p p').
Proof.
  intros Hp Hs. unfold packet_write. eapply returns_bind; [apply (packet_ensure_spec p l); [done|lia|done]|..].
  - intros p1 o1 (Hp1 & Hh & Hroom) _. rewrite decide_True by done.
    destruct Hp1 as (pre & post & Hb & Hst & He & Hst2 & Hok).
    rewrite Hb, length_app, length_app, length_fmap in Hroom.
    rewrite Hb, app_assoc, (write_cells_mid _ post) by (rewrite ?length_app, ?length_fmap; lia).
    simpl. apply returns_ok; [|done]. split; [|done].
    apply (pk_ok_set _ _ _ _ _ _ pre (drop (length data) post)); [|done|..].
    + rewrite fmap_app. by rewrite <- !app_assoc.
    + rewrite length_app. lia.
    + done.
    + unfold buf_ok in *. rewrite Hb in Hok. revert Hok. rewrite !length_app, length_fmap, length_drop, length_fmap.
      by replace (length pre + length l + (length data + (length post - length data)))%nat
        with (length pre + (length l + length post))%nat by lia.
  - intros e p1 o1 (-> & ? & ?) _ Ho. rewrite decide_False by done. by apply returns_error.
Qed.

(** Cutting [k] cells off the front of a buffer, at most up to the data. *)
Lemma pk_ok_cut p l n k s e :
  pk_ok p l → (n ≤ length l)%nat → 0 ≤ k → k ≤ buf_start p + Z.of_nat n →
  s = buf_start p + Z.of_nat n - k → e = buf_end p - k → s ≤ 2 * PACKET_SIZE_LARGE →
  (k = 0 ∨ buf_vm_alloced p = true ∧ (vm_page_size | k)) →
  pk_ok (set_buf (drop (Z.to_nat k) (buf p)) s e (buf_vm_alloced p) p) (drop n l).
Proof.
  intros (pre & post & Hb & Hs & He & Hst2 & Hok) Hn Hk Hks -> -> Hs2 Hdiv.
  apply (pk_ok_set _ _ _ _ _ _ (drop (Z.to_nat k) (pre ++ (Some <$> take n l))) post).
  - rewrite <- (take_drop n l) in Hb at 1. rewrite Hb, fmap_app, <- app_assoc.
    rewrite (app_assoc pre), drop_app_le; [done|]. rewrite length_app, length_fmap, length_take. lia.
  - rewrite length_drop, length_app, length_fmap, length_take. lia.
  - rewrite !length_drop, length_app, length_fmap, length_take. lia.
  - done.
  - unfold buf_ok in *. rewrite length_drop. destruct Hdiv as [->|[Hvm Hdiv]].
    + by rewrite Nat.sub_0_r.
    + rewrite Hvm in *. rewrite Hb in *. rewrite !length_app, length_fmap in *.
      replace (Z.of_nat (_ - _)) with (Z.of_nat (length pre + (length l + length post)) - k) by lia.
      by apply Z.divide_sub_r.
Qed.

Lemma fetch_pages_spec p l amount :
  pk_ok p l → vm_page_size ≤ amount ≤ zlen l → buf_vm_alloced p = true →
  ∃ n p', fetch_pages vm_page_size amount p = Some (take n l, p') ∧ pk_ok p' (drop n l) ∧ same_head p p'
    ∧ 0 < Z.of_nat n ≤ amount.
Proof.
  intros Hp Ha Hvm. pose proof (pk_ok_bounds p l Hp) as (? & ? & Hl). unfold fetch_pages.
  pose proof Hp as (pre & post & Hb & Hs & He & Hst2 & Hok). unfold buf_ok in Hok. rewrite Hvm in Hok.
  destruct (decide (buf_start p + amount < buf_end p)) as [Hlt|Hge].
  - pose proof (trunc_page_bounds (buf_start p + amount)) as Ht.
    set (k := trunc (buf_start p + amount)) in *.
    rewrite (pk_ok_read p l) by (done || lia). cbn [mbind option_bind]. rewrite decide_True by lia.
    eexists (Z.to_nat (amount - (buf_start p + amount - k))), _. split; [done|]. split_and!; [|done|lia..].
    apply pk_ok_cut; try done; try lia. right. split; [done|apply trunc_page_div].
  - pose proof (round_page_bounds (buf_start p + amount)) as Hr.
    pose proof (round_page_le (buf_start p + amount) _ Hok) as Hle.
    set (k := round (buf_start p + amount)) in *.
    rewrite (pk_ok_read p l) by (done || lia). cbn [mbind option_bind]. rewrite decide_True by lia.
    eexists (Z.to_nat amount), _. split; [done|]. split_and!; [|done|lia..].
    rewrite (drop_ge l) by lia. eapply (pk_ok_set _ _ _ _ _ _ [] (drop (Z.to_nat k) (buf p))); [done|done|simpl; lia|done|].
    + unfold buf_ok. rewrite Hvm, length_drop.
      replace (Z.of_nat (_ - _)) with (zlen (buf p) - k) by lia. apply Z.divide_sub_r; [done|apply round_page_div].
Qed.

Lemma fetch_copy_spec p l data_len amount remove o :
  pk_ok p l → 0 < amount ≤ zlen l → amount ≤ data_len ∨ o = [] →
  ∃ p' o', fetch_copy vm_page_size data_len amount remove p o = Some (take (Z.to_nat amount) l, p', o')
    ∧ pk_ok p' (if remove then drop (Z.to_nat amount) l else l) ∧ same_head p p' ∧ (o = [] → o' = []).
Proof.
  intros Hp Ha Hlen. pose proof (pk_ok_bounds p l Hp) as (? & ? & Hl).
  unfold fetch_copy. pose proof Hp as (pre & post & Hb & Hs & He & Hst2 & Hok).
  destruct (if decide (data_len < amount) then alloc o else (true, o)) as [ok o'] eqn:Ho.
  assert (ok = true ∧ (o = [] → o' = [])) as [-> Ho'].
  { revert Ho. destruct (decide (data_len < amount)); [|by intros [= <- <-]].
    destruct Hlen as [?| ->]; [lia|]. by intros [= <- <-]. }
  rewrite (pk_ok_read p l) by (done || lia). cbn [mbind option_bind].
  destruct remove; eexists _, o'; (split; [done|]); split_and!; try done.
  apply pk_ok_cut; try done; try lia.
  - destruct (decide (buf_start p + amount > _)); [|lia].
    unfold trunc_page. apply Z.mul_nonneg_nonneg; [|lia]. apply Z.div_pos; lia.
  - destruct (decide (buf_start p + amount > _)); [|lia]. pose proof (trunc_page_bounds (buf_start p + amount)). lia.
  - apply Z.divide_pos_le in page_large; [|done]. pose proof (trunc_page_bounds (buf_start p + amount)).
    destruct (decide (buf_start p + amount > _)); lia.
  - destruct (decide (buf_start p + amount > _)) as [Hbig|]; [right|by left]. split; [|apply trunc_page_div].
    unfold buf_ok in *. destruct (buf_vm_alloced p); [done|lia].
Qed.

(** A read takes some of the first bytes, at least one if it can. *)
Lemma packet_fetch_spec p l data_len amount remove o :
  pk_ok p l → 0 ≤ amount → amount ≤ data_len ∨ o = [] →
  ∃ n p' o', packet_fetch vm_page_size data_len amount remove p o = Some (take n l, p', o')
    ∧ pk_ok p' (if remove then drop n l else l) ∧ same_head p p' ∧ (o = [] → o' = [])
    ∧ Z.of_nat n ≤ amount ∧ (n ≤ length l)%nat ∧ (0 < amount → l ≠ [] → (0 < n)%nat)
    ∧ (remove = false ∨ buf_vm_alloced p = false ∨ amount < vm_page_size → Z.of_nat n = Z.min amount (zlen l)).
Proof.
  intros Hp Ha Hlen. pose proof (pk_ok_bounds p l Hp) as (? & ? & Hl). unfold packet_fetch. rewrite Hl.
  assert ((if decide (amount > zlen l) then zlen l else amount) = Z.min amount (zlen l)) as ->.
  { destruct (decide (amount > zlen l)); lia. }
  destruct (decide (Z.min amount (zlen l) > 0)) as [Hpos|Hz].
  2: { exists 0%nat, p, o. split; [by rewrite take_0|]. rewrite drop_0. destruct remove; split_and!; try done; try lia;
       intros; destruct l; simpl in *; try done; lia. }
  assert (∀ n : nat, (0 < n)%nat → n ≠ 0%nat) by lia.
  destruct (remove && buf_vm_alloced p && bool_decide (vm_page_size ≤ Z.min amount (zlen l))) eqn:Hc.
  - apply andb_true_iff in Hc as [[Hrm Hvm]%andb_true_iff Hpg%bool_decide_eq_true]. subst remove.
    destruct (fetch_pages_spec p l (Z.min amount (zlen l)) Hp) as (n & p' & -> & Hp' & Hh & Hn); [lia|done|].
    exists n, p', o. split; [done|]. split_and!; try done; try lia.
    intros [?|[?|?]]; [done|congruence|lia].
  - destruct (fetch_copy_spec p l data_len (Z.min amount (zlen l)) remove o Hp) as (p' & o' & -> & Hp' & Hh & Ho);
      [lia|destruct Hlen; [left; lia|by right]|].
    eexists _, p', o'. split; [done|]. split_and!; try done; lia.
Qed.
Lemma packet_ensure_efficiently_spec p l amount :
  pk_ok p l → 0 ≤ amount → fits_size (buf_end p + amount) →
  ∃ b p', packet_ensure_efficiently vm_page_size amount p [] = Some (b, p', []) ∧ pk_ok p' l ∧ same_head p p'.
Proof.
  intros Hp Ha Hs. unfold packet_ensure_efficiently.
  destruct (packet_fit_spec p l amount Hp Ha) as (fits & p1 & -> & Hp1 & Hh & Hfit & Hnofit). simpl.
  destruct fits; [by eauto|]. destruct (Hnofit eq_refl) as [-> Hlen]. clear Hfit Hnofit.
  destruct (packet_new_size_spec p l amount Hp Ha Hs) as [Hnew Hdiv].
  destruct (packet_extend_spec p l (packet_new_size vm_page_size amount p) [] Hp) as
    (ext & p2 & o2 & -> & Hp2 & Hh2 & Ho2 & He2 & Ht & Hf); [lia|auto|]. rewrite Ho2 by done.
  destruct ext; [by eauto|]. rewrite Hf by done. destruct (decide _); [|by eauto].
  destruct (packet_realloc_spec p l (packet_new_size vm_page_size amount p) []) as
    (err & p3 & o3 & -> & Ho3 & Hr); [done|lia|auto|]. simpl. destruct (Ho3 eq_refl) as [-> _].
  destruct Hr as [(-> & ? & ? & _)|(_ & -> & ->)]; eauto.
Qed.

(** ** Queues

    The abstract packets of a queue. *)
Record apacket := mk_apacket { a_type : Z; a_source : Z; a_data : list Z; a_ports : list Z }.

Definition ports_ok (p : packet) (l : list Z) : Prop :=
  (∃ junk, ports p = (Some <$> l) ++ junk) ∧ num_ports p = zlen l.

Definition pkt_repr (p : packet) (a : apacket) : Prop :=
  type p = a_type a ∧ source p = a_source a ∧ pk_ok p (a_data a) ∧ ports_ok p (a_ports a).

Definition q_ok (q : pq) (k : list apacket) : Prop :=
  Forall2 pkt_repr (queue q) k ∧ Forall (λ p, buf_ok (buf p) (buf_vm_alloced p)) (free q).

Definition live_ports (a : apacket) : list Z := filter (λ x, x ≠ MACH_PORT_NULL) (a_ports a).
Definition live_sources (a : apacket) : list Z := filter (λ x, x ≠ 0) [a_source a].

Lemma dealloc_ports_spec p l :
  ports_ok p l → packet_dealloc_ports p = Some (filter (λ x, x ≠ MACH_PORT_NULL) l).
Proof.
  intros [Hp Hn]. unfold packet_dealloc_ports. rewrite Hn.
  by rewrite (read_ports_spec _ l Hp).
Qed.

Lemma pq_dequeue_spec q a k :
  q_ok q (a :: k) →
  ∃ q', pq_dequeue q = Some (true, q') ∧ q_ok q' k ∧ queue q' = tail (queue q)
    ∧ dead_ports q' = dead_ports q ++ live_ports a ∧ dead_sources q' = dead_sources q ++ live_sources a.
Proof.
  intros [Hq Hf]. apply Forall2_cons_inv_r in Hq as (p & rest & Hp & Hrest & Eq).
  unfold pq_dequeue. rewrite Eq. destruct Hp as (Ht & Hs & Hpk & Hpo).
  assert ((if decide (num_ports p ≠ 0) then packet_dealloc_ports p else Some []) = Some (live_ports a)) as ->.
  { destruct (decide _) as [|Hn]; [by apply dealloc_ports_spec|]. unfold live_ports.
    destruct (a_ports a); [done|]. destruct Hpo as [_ Hn']. simpl in Hn'. lia. }
  eexists. split; [done|]. simpl. split_and!; [|done|done|].
  - split; [done|]. constructor; [|done]. by destruct Hpk as (? & ? & _ & _ & _ & _ & ?).
  - unfold live_sources. rewrite filter_cons, Hs. by destruct (decide _).
Qed.

Lemma pq_queue_spec q k t s o :
  q_ok q k →
  ∃ ok q' o', pq_queue t s q o = (ok, q', o')
    ∧ (o = [] → ok = true ∧ o' = [])
    ∧ (ok = true → q_ok q' (k ++ [mk_apacket t s [] []]) ∧ dead_ports q' = dead_ports q ∧ dead_sources q' = dead_sources q)
    ∧ (ok = false → q' = q).
Proof.
  intros [Hq Hf]. unfold pq_queue. destruct (free q) as [|p rest] eqn:Ef.
  - destruct (alloc o) as [[] o'] eqn:Ho.
    + eexists true, _, o'. split; [done|]. split_and!; [|intros _|done].
      * intros Hn. split; [done|]. by eapply alloc_nil.
      * split_and!; [|done|done]. split; [|done]. apply Forall2_app; [done|]. constructor; [|done].
        split_and!; [done|done| |by split; [exists []|]].
        exists [], []. by split_and!.
    + exists false, q, o'. split_and!; try done. intros Hn. by destruct (alloc_fail _ _ Ho).
  - eexists true, _, o. split; [done|]. apply Forall_cons in Hf as [Hp Hf]. split_and!; [done|intros _|done].
    split_and!; [|done|done]. split; [|done]. apply Forall2_app; [done|]. constructor; [|done].
    split_and!; [done|done| |by split; [eexists|]].
    exists [], (buf p). by split_and!.
Qed.

(** The packets that matter to readers. *)
Lemma pq_drain_spec q k :
  q_ok q k →
  ∃ q', pq_drain q = Some q' ∧ q_ok q' []
    ∧ dead_ports q' = dead_ports q ++ (k ≫= live_ports) ∧ dead_sources q' = dead_sources q ++ (k ≫= live_sources).
Proof.
  intros Hq. unfold pq_drain. rewrite (Forall2_length _ _ _ (proj1 Hq)).
  revert q Hq. induction k as [|a k IH]; intros q Hq.
  - destruct Hq as [Hq Hf]. apply Forall2_nil_inv_r in Hq as Hnil. simpl. unfold pq_dequeue. rewrite Hnil.
    exists q. split; [done|]. rewrite !app_nil_r. split_and!; [|done|done]. split; [by rewrite Hnil|done].
  - destruct (pq_dequeue_spec q a k Hq) as (q1 & Hd & Hq1 & _ & Hdp & Hds). simpl. rewrite Hd. simpl.
    destruct (IH q1 Hq1) as (q2 & -> & ? & Hdp2 & Hds2). exists q2. split; [done|].
    rewrite Hdp2, Hds2, Hdp, Hds, <- !app_assoc. done.
Qed.
End packets.

(** ** Properties *)

(** C24. Writing appends to the bytes of a packet, growing, moving or copying its
    buffer as needed, and a failed write leaves them as they were.  Reading takes
    a nonempty prefix of at most the requested length off the bytes (all of it,
    except that a read of whole pages may stop at a page boundary), also where
    the pages of the buffer are handed over instead of copied; peeking leaves
    the packet as it was. *)
Theorem packet_write_read_correct vm_page_size p l :
  0 < vm_page_size → (vm_page_size | PACKET_SIZE_LARGE) → pk_ok vm_page_size p l →
  (∀ data o, fits_size vm_page_size (buf_end p + zlen data) →
     returns o (packet_write vm_page_size data p o)
       (λ p', pk_ok vm_page_size p' (l ++ data) ∧ same_head p p')
       (λ e p', e = ENOMEM ∧ pk_ok vm_page_size p' l ∧ same_head p p'))
  ∧ (∀ data_len amount remove o, 0 ≤ amount → amount ≤ data_len ∨ o = [] →
     ∃ n p' o', packet_fetch vm_page_size data_len amount remove p o = Some (take n l, p', o')
       ∧ pk_ok vm_page_size p' (if remove then drop n l else l) ∧ same_head p p'
       ∧ Z.of_nat n ≤ amount ∧ (0 < amount → l ≠ [] → (0 < n)%nat)
       ∧ (remove = false ∨ buf_vm_alloced p = false ∨ amount < vm_page_size → Z.of_nat n = Z.min amount (zlen l))).
Proof.
  intros Hpos Hdiv Hp. split.
  - intros data o Hs. by apply packet_write_spec.
  - intros data_len amount remove o Ha Hl.
    destruct (packet_fetch_spec vm_page_size Hpos Hdiv p l data_len amount remove o Hp Ha Hl)
      as (n & p' & o' & Hf & Hp' & Hh & _ & Hn & _ & Hpo & Hex).
    exists n, p', o'. done.
Qed.

(** A buffer of four pages with the data in the last three. *)
Definition paged_packet : packet :=
  mk_packet PACKET_TYPE_DATA 0 (replicate 64 (Some 7)) 20 60 true [] 0.

Lemma paged_packet_ok : pk_ok 16 paged_packet (replicate 40 7).
Proof.
  exists (replicate 20 (Some 7)), (replicate 4 (Some 7)). split_and!; try done. by exists 4.
Qed.

(** 30 bytes are asked for: the read stops at offset 48, after 28 of them. *)
Lemma packet_write_read_correct_witness :
  ∃ n p' o', packet_fetch 16 0 30 true paged_packet [] = Some (take n (replicate 40 7), p', o')
    ∧ pk_ok 16 p' (drop n (replicate 40 7)).
Proof.
  destruct (proj2 (packet_write_read_correct 16 paged_packet (replicate 40 7) ltac:(lia)
    ltac:(by exists 512) paged_packet_ok) 0 30 true []) as (n & p' & o' & Hf & Hp & _); [lia|by right|].
  exists n, p', o'. split; [exact Hf|exact Hp].
Defined.

(** Draining a queue empties it, releases every port right and every source
    its packets still hold, each as often as it is held, and terminates. *)
Theorem pq_drain_correct vm_page_size q k :
  q_ok vm_page_size q k →
  ∃ q', pq_drain q = Some q' ∧ q_ok vm_page_size q' []
    ∧ dead_ports q' = dead_ports q ++ (k ≫= live_ports) ∧ dead_sources q' = dead_sources q ++ (k ≫= live_sources).
Proof. apply pq_drain_spec. Qed.

Lemma pq_drain_correct_witness :
  ∃ q', pq_drain (mk_pq [mk_packet PACKET_TYPE_CONTROL 3 [] 0 0 false [Some 5; Some 0; Some 6; None] 3; paged_packet] [] [] [])
        = Some q' ∧ dead_ports q' = [5; 6] ∧ dead_sources q' = [3].
Proof.
  destruct (pq_drain_correct 16
    (mk_pq [mk_packet PACKET_TYPE_CONTROL 3 [] 0 0 false [Some 5; Some 0; Some 6; None] 3; paged_packet] [] [] [])
    [mk_apacket PACKET_TYPE_CONTROL 3 [] [5; 0; 6]; mk_apacket PACKET_TYPE_DATA 0 (replicate 40 7) []])
    as (q' & Hd & _ & Hp & Hs).
  - split; [|constructor]. constructor; [|constructor; [|constructor]].
    + split_and!; [reflexivity|reflexivity| |split; [exists [None]|]; reflexivity].
      exists [], []. split_and!; done.
    + split_and!; [reflexivity|reflexivity|exact paged_packet_ok|split; [exists []|]; reflexivity].
  - exists q'. split; [exact Hd|]. rewrite Hp, Hs. vm_compute. auto.
Defined.
