(* ===== verification/Pipe.v ===== *)
(** * Pipes (src/libpipe/pipe.c, pipe.h, stream.c, dgram.c, seqpack.c)

    A call runs on the pipe with its lock held.  Where it gives the lock up,
    other threads act on the pipe: their actions are a list of interferences,
    one of which is taken at each wait and each release of the lock.  A call
    returns, blocks for ever because nothing wakes it, runs on without end (it
    uses up the fuel), or faults: a failed assertion, an access to freed or
    unallocated memory. *)

From S2P Require Import Prelude Pq.

(** ** Data *)

(** The three pipe classes; the record of functions is the functions on them. *)
Inductive pipe_class := stream_pipe_class | dgram_pipe_class | seqpack_pipe_class.

#[export] Instance pipe_class_eq_dec : EqDecision pipe_class.
Proof. solve_decision. Defined.

Definition is_stream (c : pipe_class) : bool := bool_decide (c = stream_pipe_class).
Definition pipe_is_connless (c : pipe_class) : bool := bool_decide (c = dgram_pipe_class).

(** The broadcasts of a pipe's conditions, logged in the pipe. *)
Inductive wake := reads | read_selects | writes | write_selects | select_cond (c : Z).

(** [struct pipe]; a condition of a select call is known by its address. *)
Record pipe := mk_pipe {
  class : pipe_class;
  readers : Z;
  writers : Z;
  broken : bool;
  read_time : Z;
  write_time : Z;
  pending_selects : option Z;
  write_limit : Z;
  write_atomic : Z;
  pqueue : pq;
  woken : list wake
}.

Definition set_readers (n : Z) (p : pipe) : pipe :=
  mk_pipe (class p) n (writers p) (broken p) (read_time p) (write_time p) (pending_selects p)
    (write_limit p) (write_atomic p) (pqueue p) (woken p).
Definition set_writers (n : Z) (p : pipe) : pipe :=
  mk_pipe (class p) (readers p) n (broken p) (read_time p) (write_time p) (pending_selects p)
    (write_limit p) (write_atomic p) (pqueue p) (woken p).
Definition set_broken (b : bool) (p : pipe) : pipe :=
  mk_pipe (class p) (readers p) (writers p) b (read_time p) (write_time p) (pending_selects p)
    (write_limit p) (write_atomic p) (pqueue p) (woken p).
Definition set_times (r w : Z) (p : pipe) : pipe :=
  mk_pipe (class p) (readers p) (writers p) (broken p) r w (pending_selects p)
    (write_limit p) (write_atomic p) (pqueue p) (woken p).
Definition set_selects (c : option Z) (p : pipe) : pipe :=
  mk_pipe (class p) (readers p) (writers p) (broken p) (read_time p) (write_time p) c
    (write_limit p) (write_atomic p) (pqueue p) (woken p).
Definition set_pqueue (q : pq) (p : pipe) : pipe :=
  mk_pipe (class p) (readers p) (writers p) (broken p) (read_time p) (write_time p) (pending_selects p)
    (write_limit p) (write_atomic p) q (woken p).
Definition add_woken (l : list wake) (p : pipe) : pipe :=
  mk_pipe (class p) (readers p) (writers p) (broken p) (read_time p) (write_time p) (pending_selects p)
    (write_limit p) (write_atomic p) (pqueue p) (woken p ++ l).

(** ** Rings of select conditions *)

(** [struct pipe_select_cond] and the memory that holds them. *)
Record pipe_select_cond := mk_cond { next : Z; prev : Z }.
Abbreviation conds := (gmap Z pipe_select_cond).

Definition set_next (c n : Z) (h : conds) : option conds :=
  x ← h !! c; Some (<[c := mk_cond n (prev x)]> h).
Definition set_prev (c n : Z) (h : conds) : option conds :=
  x ← h !! c; Some (<[c := mk_cond (next x) n]> h).

(** The ring is given by its first condition; the result is the new one. *)
Definition pipe_add_select_cond (first : option Z) (c : Z) (h : conds) : option (option Z * conds) :=
  match first with
  | None =>
      h ← set_next c c h; h ← set_prev c c h; Some (Some c, h)
  | Some f =>
      l ← prev <$> h !! f;
      h ← set_next c f h; h ← set_prev c l h; h ← set_prev f c h; h ← set_next l c h; Some (Some f, h)
  end.

Definition pipe_remove_select_cond (first : option Z) (c : Z) (h : conds) : option (option Z * conds) :=
  x ← h !! c;
  h ← set_next (prev x) (next x) h;
  x ← h !! c;
  h ← set_prev (next x) (prev x) h;
  x ← h !! c;
  if decide (first = Some c) then
    if decide (next x = c) then Some (None, h) else Some (Some (next x), h)
  else Some (first, h).

(** The conditions the loop broadcasts; a ring is no longer than the memory. *)
Fixpoint broadcast_loop (fuel : nat) (h : conds) (c l : Z) : option (list Z) :=
  match fuel with
  | O => None
  | S fuel' =>
      x ← h !! c;
      if decide (next x = l) then Some [c] else (c ::.) <$> broadcast_loop fuel' h (next x) l
  end.

Definition pipe_select_cond_broadcast (h : conds) (first : option Z) : option (list Z) :=
  match first with
  | None => Some []
  | Some c => x ← h !! c; broadcast_loop (size h) h c (prev x)
  end.

(** ** Calls *)

(** What other threads do while the lock is given up: they change the pipe, and
    wake this thread; or its wait fails. *)
Inductive interference := Woken (others : pipe → pipe) | Failed (err : error_t).

Inductive run (A : Type) := Ret (a : A) | Blocks | Spins | Faults.
Arguments Ret {_}.
Arguments Blocks {_}.
Arguments Spins {_}.
Arguments Faults {_}.

(** The pipe, until it is freed, the interferences to come and the allocations. *)
Record sys := mk_sys { s_pipe : option pipe; s_env : list interference; s_allocs : allocs }.

Definition call (A : Type) : Type := sys → run (A * sys).

Definition ret {A} (a : A) : call A := λ s, Ret (a, s).
Definition bind {A B} (m : call A) (f : A → call B) : call B := λ s,
  match m s with
  | Ret (a, s') => f a s'
  | Blocks => Blocks
  | Spins => Spins
  | Faults => Faults
  end.

Declare Scope call_scope.
Notation "x <~ m ; k" := (bind m (λ x, k))
  (at level 20, m at level 100, k at level 200, right associativity) : call_scope.
Notation "' p <~ m ; k" := (bind m (λ x, match x with p => k end))
  (at level 20, p pattern, m at level 100, k at level 200, right associativity) : call_scope.
Notation "m ;~ k" := (bind m (λ _, k)) (at level 100, k at level 200, right associativity) : call_scope.
#[local] Open Scope call_scope.

Definition fault {A} : call A := λ _, Faults.
Definition assert (b : bool) : call unit := if b then ret tt else fault.

Definition get : call pipe := λ s,
  match s_pipe s with Some p => Ret (p, s) | None => Faults end.

Definition modify (f : pipe → pipe) : call unit := λ s,
  match s_pipe s with
  | Some p => Ret (tt, mk_sys (Some (f p)) (s_env s) (s_allocs s))
  | None => Faults
  end.

Definition lift {A} (x : option A) : call A := match x with Some a => ret a | None => fault end.

(** An operation that may allocate. *)
Definition allocating {A} (f : allocs → option (A * allocs)) : call A := λ s,
  match f (s_allocs s) with
  | Some (a, o) => Ret (a, mk_sys (s_pipe s) (s_env s) o)
  | None => Faults
  end.

(** [pthread_hurd_cond_wait_np]: the error, if any. *)
Definition cond_wait : call error_t := λ s,
  match s_env s with
  | [] => Blocks
  | Woken f :: env => Ret (E0, mk_sys (f <$> s_pipe s) env (s_allocs s))
  | Failed e :: env => Ret (e, mk_sys (s_pipe s) env (s_allocs s))
  end.

(** The lock is released and taken again. *)
Definition yield : call unit := λ s,
  match s_env s with
  | Woken f :: env => Ret (tt, mk_sys (f <$> s_pipe s) env (s_allocs s))
  | Failed _ :: env => Ret (tt, mk_sys (s_pipe s) env (s_allocs s))
  | [] => Ret (tt, s)
  end.

(** ** Reading and writing space (pipe.h) *)

Definition pipe_readable (p : pipe) : Z :=
  foldr (λ x n, if decide (type x = PACKET_TYPE_DATA) then u64 (packet_readable x + n) else n) 0 (queue (pqueue p)).

Definition pipe_is_readable (p : pipe) (data_only : bool) : bool :=
  if data_only then existsb (λ x, negb (bool_decide (type x = PACKET_TYPE_CONTROL))) (queue (pqueue p))
  else match queue (pqueue p) with [] => false | _ => true end.

(** The waits, for [n] wake-ups at most. *)
Fixpoint wait_readable_loop (n : nat) (noblock data_only : bool) : call error_t :=
  p <~ get;
  if pipe_is_readable p data_only || broken p then ret E0
  else if noblock then ret EWOULDBLOCK
  else
    err <~ cond_wait;
    if decide (err ≠ E0) then ret EINTR
    else match n with O => λ _, Spins | S n' => wait_readable_loop n' noblock data_only end.

(** Each turn takes an interference. *)
Definition pipe_wait_readable (noblock data_only : bool) : call error_t := λ s,
  wait_readable_loop (length (s_env s)) noblock data_only s.

Fixpoint wait_writable_loop (n : nat) (noblock : bool) (amount : Z) : call error_t :=
  p <~ get;
  if decide (u64 (pipe_readable p + amount) < write_limit p) then ret E0
  else if noblock then ret EWOULDBLOCK
  else
    err <~ cond_wait;
    if decide (err ≠ E0) then ret EINTR
    else
      p <~ get;
      if broken p then ret EPIPE
      else match n with O => λ _, Spins | S n' => wait_writable_loop n' noblock amount end.

Definition pipe_wait_writable_amount (noblock : bool) (amount : Z) : call error_t :=
  p <~ get;
  if broken p then ret EPIPE
  else λ s, wait_writable_loop (length (s_env s)) noblock amount s.

Definition pipe_wait_writable (noblock : bool) : call error_t := pipe_wait_writable_amount noblock 1.

(** Waiting of select calls: the error of the wait, or 0. *)
Fixpoint select_loop (n : nat) (blocked : pipe → bool) : call error_t :=
  p <~ get;
  if blocked p then
    err <~ cond_wait;
    if decide (err ≠ E0) then ret err
    else match n with O => λ _, Spins | S n' => select_loop n' blocked end
  else ret E0.

Definition pipe_select_readable (data_only : bool) : call error_t := λ s,
  select_loop (length (s_env s)) (λ p, negb (pipe_is_readable p data_only) && negb (broken p)) s.

Definition pipe_select_writable : call error_t := λ s,
  select_loop (length (s_env s)) (λ p, negb (broken p) && bool_decide (write_limit p ≤ pipe_readable p)) s.

(** ** The life of a pipe (pipe.c)

    [h] holds the conditions of the select calls, [host_time] is what the host
    clock gives. *)

(** The pointer to the new pipe: the error of the allocation of its queue is not
    looked at, which leaves a pipe whose queue is a null pointer. *)
Inductive new_pipe := NullPipe | NewPipe (p : pipe) | PipeWithoutQueue.

Definition pipe_create (c : pipe_class) (o : allocs) : error_t * new_pipe * allocs :=
  let '(ok, o1) := alloc o in
  if ok then
    let '(q, o2) := pq_create o1 in
    match q with
    | Some q =>
        let new := mk_pipe c 0 0 false 0 0 None (16 * 1024) (16 * 1024) q [] in
        (E0, NewPipe (if pipe_is_connless c then new else set_broken true new), o2)
    | None => (E0, PipeWithoutQueue, o2)
    end
  else (ENOMEM, NullPipe, o1).

Definition pipe_free : call unit := λ s,
  match s_pipe s with
  | Some p =>
      match pq_drain (pqueue p) with
      | Some _ => Ret (tt, mk_sys None (s_env s) (s_allocs s))
      | None => Faults
      end
  | None => Faults
  end.

Definition pipe_drain : call unit :=
  p <~ get; q <~ lift (pq_drain (pqueue p)); modify (set_pqueue q).

Section calls.
Context (h : conds) (host_time : Z).

Definition broadcast (l : list wake) : call unit := modify (add_woken l).

Definition broadcast_selects : call unit :=
  p <~ get; l <~ lift (pipe_select_cond_broadcast h (pending_selects p)); broadcast (select_cond <$> l).

Definition pipe_first_writer : call unit := modify (λ p, if decide (readers p > 0) then set_broken false p else p).
Definition pipe_first_reader : call unit := modify (λ p, if decide (writers p > 0) then set_broken false p else p).

Definition pipe_no_readers : call unit :=
  p <~ get;
  if decide (writers p = 0) then pipe_free
  else
    modify (set_broken true) ;~
    (if decide (writers p ≠ 0) then broadcast [writes; write_selects] ;~ broadcast_selects else ret tt).

Definition pipe_no_writers : call unit :=
  p <~ get;
  if decide (readers p = 0) then pipe_free
  else if pipe_is_connless (class p) then ret tt
  else
    modify (set_broken true) ;~
    (if decide (readers p ≠ 0) then broadcast [reads; read_selects] ;~ broadcast_selects else ret tt).

Definition pipe_acquire_reader : call unit :=
  p <~ get;
  modify (set_readers (u32 (readers p + 1))) ;~ (if decide (readers p = 0) then pipe_first_reader else ret tt).
Definition pipe_acquire_writer : call unit :=
  p <~ get;
  modify (set_writers (u32 (writers p + 1))) ;~ (if decide (writers p = 0) then pipe_first_writer else ret tt).

Definition pipe_release_reader : call unit :=
  p <~ get;
  modify (set_readers (u32 (readers p - 1))) ;~
  (if decide (u32 (readers p - 1) = 0) then pipe_no_readers else ret tt).
Definition pipe_release_writer : call unit :=
  p <~ get;
  modify (set_writers (u32 (writers p - 1))) ;~
  (if decide (u32 (writers p - 1) = 0) then pipe_no_writers else ret tt).

(** The calls on an unlocked pipe lock and unlock it around these. *)
Definition pipe_add_reader : call unit := pipe_acquire_reader.
Definition pipe_add_writer : call unit := pipe_acquire_writer.
Definition pipe_remove_reader : call unit := pipe_release_reader.
Definition pipe_remove_writer : call unit := pipe_release_writer.

Definition pipe_wake_writers : call unit :=
  broadcast [writes] ;~ yield ;~
  p <~ get;
  if decide (pipe_readable p < write_limit p) then broadcast [write_selects] ;~ broadcast_selects
  else ret tt.

(** ** The pipe classes (stream.c, dgram.c, seqpack.c)

    [page_aligned x] tells whether the data of the writer are as far into a page
    as the end of the data of the packet [x] is. *)
Context (vm_page_size : Z) (page_aligned : packet → bool).

Definition with_last (x : packet) (q : pq) : pq :=
  mk_pq (removelast (queue q) ++ [x]) (free q) (dead_ports q) (dead_sources q).

(** [packet_write] to the last packet *)
Definition write_last (data : list Z) (q : pq) (o : allocs) : option (error_t * pq * allocs) :=
  x ← last (queue q);
  '(err, x', o') ← packet_write vm_page_size data x o;
  Some (err, with_last x' q, o').

(** A packet of its own for the data, [false] if the last one is to be used. *)
Definition own_packet (data_len : Z) (x : packet) (q : pq) (o : allocs) : option (bool * pq * allocs) :=
  if decide (packet_readable x > 0 ∧ data_len > PACKET_SIZE_LARGE) then
    if page_aligned x then
      '(ok, x', o') ← packet_ensure_efficiently vm_page_size data_len x o;
      Some (negb ok, with_last x' q, o')
    else Some (true, q, o)
  else Some (false, q, o).

Definition stream_write (source : Z) (data : list Z) (q : pq) (o : allocs) : option (error_t * pq * allocs) :=
  let '(ok, q, o) := pq_tail PACKET_TYPE_DATA source q o in
  x ← (if ok then last (queue q) else None);
  '(own, q, o) ← own_packet (zlen data) x q o;
  let '(ok, q, o) := if own : bool then pq_queue PACKET_TYPE_DATA source q o else (true, q, o) in
  if ok then write_last data q o else Some (ENOBUFS, q, o).

Definition dgram_write (source : Z) (data : list Z) (q : pq) (o : allocs) : option (error_t * pq * allocs) :=
  let '(ok, q, o) := pq_queue PACKET_TYPE_DATA source q o in
  if ok then write_last data q o else Some (ENOBUFS, q, o).

Definition seqpack_write (source : Z) (data : list Z) (q : pq) (o : allocs) : option (error_t * pq * allocs) :=
  let '(ok, q, o) := pq_queue PACKET_TYPE_DATA source q o in
  if ok then write_last data q o else Some (ENOBUFS, q, o).

Definition class_write (c : pipe_class) : Z → list Z → pq → allocs → option (error_t * pq * allocs) :=
  match c with
  | stream_pipe_class => stream_write
  | dgram_pipe_class => dgram_write
  | seqpack_pipe_class => seqpack_write
  end.

(** The data read, the packet after it, and whether to dequeue it. *)
Definition stream_read (peek : bool) (data_len amount : Z) (x : packet) (o : allocs)
  : option (list Z * packet * bool * allocs) :=
  if peek then
    '(data, x', o') ← packet_peek vm_page_size data_len amount x o; Some (data, x', false, o')
  else
    '(data, x', o') ← packet_read vm_page_size data_len amount x o;
    Some (data, x', bool_decide (packet_readable x' = 0), o').

Definition dgram_read (peek : bool) (data_len amount : Z) (x : packet) (o : allocs)
  : option (list Z * packet * bool * allocs) :=
  if peek then
    '(data, x', o') ← packet_peek vm_page_size data_len amount x o; Some (data, x', false, o')
  else
    '(data, x', o') ← packet_read vm_page_size data_len amount x o; Some (data, x', true, o').

Definition seqpack_read (peek : bool) (data_len amount : Z) (x : packet) (o : allocs)
  : option (list Z * packet * bool * allocs) :=
  if peek then
    '(data, x', o') ← packet_peek vm_page_size data_len amount x o; Some (data, x', false, o')
  else
    '(data, x', o') ← packet_read vm_page_size data_len amount x o;
    Some (data, x', bool_decide (packet_readable x' = 0), o').

Definition class_read (c : pipe_class) :=
  match c with
  | stream_pipe_class => stream_read
  | dgram_pipe_class => dgram_read
  | seqpack_pipe_class => seqpack_read
  end.

(** ** Sending *)

(** An operation on the queue of the pipe. *)
Definition on_queue {A} (f : pq → allocs → option (A * pq * allocs)) : call A :=
  p <~ get;
  '(a, q) <~ allocating (λ o, '(a, q, o') ← f (pqueue p) o; Some ((a, q), o'));
  modify (set_pqueue q) ;~ ret a.

(** The control packet: the rights of a packet that could not be filled stay
    with the caller. *)
Definition send_control (control ports : list Z) (q : pq) (o : allocs) : option (error_t * pq * allocs) :=
  let '(ok, q, o) := pq_queue PACKET_TYPE_CONTROL 0 q o in
  if ok then
    '(err, q, o) ← write_last control q o;
    if decide (err = E0) then
      x ← last (queue q);
      '(err, x', dead, o) ← packet_set_ports ports x o;
      Some (err, mk_pq (removelast (queue q) ++ [x']) (free q) (dead_ports q ++ dead) (dead_sources q), o)
    else Some (err, q, o)
  else Some (ENOBUFS, q, o).

(** The next piece to write, after waiting for room; the error of the wait. *)
Fixpoint next_piece (fuel : nat) (noblock : bool) (todo : Z) : call (error_t * Z) :=
  p <~ get;
  let left := u64 (write_limit p - pipe_readable p) in
  let piece := if decide (todo > left) then (if is_stream (class p) then left else 0) else todo in
  if decide (piece ≠ 0) then ret (E0, piece)
  else
    err <~ (if noblock then ret E0
            else pipe_wait_writable_amount false (if is_stream (class p) then 1 else todo));
    if decide (err ≠ E0) then ret (err, 0)
    else match fuel with O => λ _, Spins | S fuel' => next_piece fuel' noblock todo end.

(** One turn of the loop that writes the pieces: the error and the amount done. *)
Definition send_piece (fuel : nat) (noblock : bool) (source : Z) (data : list Z) (done : Z) : call (error_t * Z) :=
  '(err, piece) <~ next_piece fuel noblock (zlen data - done);
  if decide (err ≠ E0) then ret (err, done)
  else
    p <~ get;
    err <~ on_queue (class_write (class p) source (take (Z.to_nat piece) (drop (Z.to_nat done) data)));
    if decide (err = E0) then
      let done := done + piece in
      assert (bool_decide (zlen data ≤ done) || bool_decide (source = 0)) ;~
      modify (λ p, set_times (read_time p) host_time p) ;~
      broadcast [reads] ;~ yield ;~
      p <~ get;
      (if pipe_is_readable p false then broadcast [read_selects] ;~ broadcast_selects else ret tt) ;~
      ret (E0, done)
    else ret (err, done).

Fixpoint send_loop (fuel : nat) (noblock : bool) (source : Z) (data : list Z) (done : Z) : call (error_t * Z) :=
  '(err, done) <~ send_piece fuel noblock source data done;
  if negb noblock && bool_decide (err = E0) && bool_decide (done < zlen data) then
    match fuel with O => λ _, Spins | S fuel' => send_loop fuel' noblock source data done end
  else ret (err, done).

(** What a call that does not block writes, [None] if it may not split it. *)
Definition limit_data (p : pipe) (data : list Z) : option (list Z) :=
  let left := u64 (write_limit p - pipe_readable p) in
  if decide (left < zlen data) then
    if negb (is_stream (class p)) || bool_decide (zlen data ≤ write_atomic p) then None
    else Some (take (Z.to_nat left) data)
  else Some data.

(** The error and the amount written. *)
Definition pipe_send (fuel : nat) (noblock : bool) (source : Z) (data control ports : list Z) : call (error_t * Z) :=
  if decide (data = [] ∧ control = [] ∧ ports = []) then ret (E0, 0)
  else
    err <~ pipe_wait_writable noblock;
    if decide (err ≠ E0) then ret (err, 0)
    else
      p <~ get;
      match (if noblock then limit_data p data else Some data) with
      | None => ret (EWOULDBLOCK, 0)
      | Some data =>
          err <~ (if decide (control ≠ [] ∨ ports ≠ []) then on_queue (send_control control ports) else ret E0);
          if decide (err ≠ E0) then ret (err, 0)
          else
            '(err, done) <~ send_loop fuel noblock source data 0;
            ret (if decide (done ≠ 0) then (E0, done) else (err, 0))
      end.

(** ** Receiving *)

(** What a call received. *)
Record received := mk_received {
  r_data : list Z; r_source : Z; r_control : list Z; r_ports : list Z
}.

Definition with_head (x : packet) (q : pq) : pq :=
  mk_pq (x :: tail (queue q)) (free q) (dead_ports q) (dead_sources q).

(** The control packets before the first data packet are dequeued. *)
Fixpoint skip_control (n : nat) (q : pq) : option pq :=
  match pq_head PACKET_TYPE_ANY 0 q with
  | Some x =>
      if decide (type x = PACKET_TYPE_CONTROL) then
        '(_, q') ← pq_next PACKET_TYPE_ANY 0 q;
        match n with O => None | S n' => skip_control n' q' end
      else Some q
  | None => Some q
  end.

(** The contents of a control packet at the head are read, as far as they are
    asked for, and it is dequeued; a data packet must follow. *)
Definition read_control (control_len num_ports : option Z) (x : packet) (q : pq) (o : allocs)
  : option (list Z * list Z * pq * allocs) :=
  '(c, x, o) ← match control_len with
               | Some n => packet_read vm_page_size n (packet_readable x) x o
               | None => Some ([], x, o)
               end;
  '(_, l, x, o) ← match num_ports with
                  | Some n => packet_read_ports n x o
                  | None => Some (E0, [], x, o)
                  end;
  '(y, q) ← pq_next PACKET_TYPE_DATA 0 (with_head x q);
  match y with Some _ => Some (c, l, q, o) | None => None end.

(** The control data, and the queue with the packet to read at its head. *)
Definition recv_control (control_len num_ports : option Z) (q : pq) (o : allocs)
  : option (list Z * list Z * pq * allocs) :=
  match control_len, num_ports with
  | None, None => q' ← skip_control (length (queue q)) q; Some ([], [], q', o)
  | _, _ =>
      match pq_head PACKET_TYPE_ANY 0 q with
      | Some x => if decide (type x = PACKET_TYPE_CONTROL) then read_control control_len num_ports x q o
                  else Some ([], [], q, o)
      | None => Some ([], [], q, o)
      end
  end.

(** The data of the packet at the head. *)
Definition recv_data (c : pipe_class) (peek want_source : bool) (data_len amount : Z) (q : pq) (o : allocs)
  : option (option (list Z * Z) * pq * allocs) :=
  match pq_head PACKET_TYPE_ANY 0 q with
  | Some x =>
      let '(src, x) := if want_source then packet_read_source x else (0, x) in
      '(data, x', dq, o) ← class_read c peek data_len amount x o;
      if dq : bool then '(_, q') ← pq_dequeue (with_head x' q); Some (Some (data, src), q', o)
      else Some (Some (data, src), with_head x' q, o)
  | None => Some (None, q, o)
  end.

(** [control_len] and [num_ports] are the sizes of the reader's arrays, [None]
    where it has none. *)
Definition pipe_recv (noblock peek want_source : bool) (data_len amount : Z) (control_len num_ports : option Z)
  : call (error_t * received) :=
  let data_only := match control_len, num_ports with None, None => true | _, _ => false end in
  err <~ pipe_wait_readable noblock data_only;
  if decide (err ≠ E0) then ret (err, mk_received [] 0 [] [])
  else
    p <~ get;
    '(c, l) <~ on_queue (λ q o, '(c, l, q, o) ← recv_control control_len num_ports q o; Some ((c, l), q, o));
    r <~ on_queue (recv_data (class p) peek want_source data_len amount);
    match r with
    | Some (data, src) =>
        modify (λ p, set_times host_time (write_time p) p) ;~ pipe_wake_writers ;~
        ret (E0, mk_received data src c l)
    | None => ret (E0, mk_received [] 0 c l)
    end.
End calls.

(** ** Selecting on two pipes *)

Abbreviation SELECT_READ := 1 (only parsing).
Abbreviation SELECT_WRITE := 2 (only parsing).

(** The two pipes, which may be the same one, and the conditions in memory. *)
Record pair := mk_pair { rpipe : pipe; wpipe : pipe; mem : conds }.

Inductive interference2 := Woken2 (others : pair → pair) | Failed2 (err : error_t).

Definition rpipe_blocked (data_only : bool) (s : pair) : bool :=
  negb (broken (rpipe s) || pipe_is_readable (rpipe s) data_only).
Definition wpipe_blocked (wlimit : Z) (s : pair) : bool :=
  negb (broken (wpipe s) || bool_decide (pipe_readable (wpipe s) < wlimit)).

(** Waits while [blocked]; each turn takes an interference. *)
Fixpoint pair_loop (blocked : pair → bool) (s : pair) (env : list interference2) : run (error_t * pair) :=
  if blocked s then
    match env with
    | [] => Blocks
    | Woken2 f :: env' => pair_loop blocked (f s) env'
    | Failed2 e :: _ => Ret (e, s)
    end
  else Ret (E0, s).

(** The condition [c], on the stack of the call, goes into the ring of each pipe. *)
Definition pair_enter (same : bool) (c : Z) (s : pair) : option pair :=
  let m := <[c := mk_cond 0 0]> (mem s) in
  '(r, m) ← pipe_add_select_cond (pending_selects (rpipe s)) c m;
  if same then Some (mk_pair (set_selects r (rpipe s)) (set_selects r (wpipe s)) m)
  else
    '(w, m) ← pipe_add_select_cond (pending_selects (wpipe s)) c m;
    Some (mk_pair (set_selects r (rpipe s)) (set_selects w (wpipe s)) m).

Definition pair_leave (same : bool) (c : Z) (s : pair) : option pair :=
  '(r, m) ← pipe_remove_select_cond (pending_selects (rpipe s)) c (mem s);
  if same then Some (mk_pair (set_selects r (rpipe s)) (set_selects r (wpipe s)) (delete c m))
  else
    '(w, m) ← pipe_remove_select_cond (pending_selects (wpipe s)) c m;
    Some (mk_pair (set_selects r (rpipe s)) (set_selects w (wpipe s)) (delete c m)).

(** Waiting for either pipe. *)
Definition pair_either (same : bool) (t : Z) (data_only : bool) (c : Z) (s : pair) (env : list interference2)
  : run (error_t * Z * pair) :=
  let wlimit := write_limit (wpipe s) in
  match pair_enter same c s with
  | None => Faults
  | Some s =>
      match pair_loop (λ s, rpipe_blocked data_only s && wpipe_blocked wlimit s) s env with
      | Ret (err, s) =>
          let t :=
            if decide (err = E0) then
              let t := if rpipe_blocked data_only s then Z.ldiff t SELECT_READ else t in
              if wpipe_blocked wlimit s then Z.ldiff t SELECT_WRITE else t
            else t in
          match pair_leave same c s with
          | Some s => Ret (err, t, s)
          | None => Faults
          end
      | Blocks => Blocks
      | Spins => Spins
      | Faults => Faults
      end
  end.

(** The error, the select type and the pipes; the condition is forgotten. *)
Definition pipe_pair_select (same : bool) (select_type : Z) (data_only : bool) (c : Z) (s : pair)
    (env : list interference2) : run (error_t * Z * pair) :=
  let t := Z.land select_type (Z.lor SELECT_READ SELECT_WRITE) in
  let r :=
    if decide (t = SELECT_READ) then
      match pair_loop (λ s, negb (pipe_is_readable (rpipe s) data_only) && negb (broken (rpipe s))) s env with
      | Ret (err, s) => Ret (err, t, s)
      | Blocks => Blocks
      | Spins => Spins
      | Faults => Faults
      end
    else if decide (t = SELECT_WRITE) then
      match pair_loop (λ s, negb (broken (wpipe s)) && bool_decide (write_limit (wpipe s) ≤ pipe_readable (wpipe s)))
              s env with
      | Ret (err, s) => Ret (err, t, s)
      | Blocks => Blocks
      | Spins => Spins
      | Faults => Faults
      end
    else pair_either same t data_only c s env in
  match r with
  | Ret (err, t, s) => if decide (err = ETIMEDOUT) then Ret (E0, 0, s) else Ret (err, t, s)
  | r => r
  end.

(** ** The contents of a pipe *)

(** The bytes of the data packets. *)
Definition bytes (k : list apacket) : list Z :=
  k ≫= λ a, if decide (a_type a = PACKET_TYPE_DATA) then a_data a else [].

Lemma bytes_app k k' : bytes (k ++ k') = bytes k ++ bytes k'.
Proof. apply bind_app. Qed.

Lemma bytes_cons a k : bytes (a :: k) = (if decide (a_type a = PACKET_TYPE_DATA) then a_data a else []) ++ bytes k.
Proof. done. Qed.

Lemma bytes_one t s d l : bytes [mk_apacket t s d l] = if decide (t = PACKET_TYPE_DATA) then d else [].
Proof. unfold bytes. simpl. by rewrite app_nil_r. Qed.

(** Sizes that machine words can hold with room to spare. *)
Definition small_size (n : Z) : Prop := n < 2 ^ 62.

Lemma bind_ret {A B} (m : call A) (f : A → call B) s a s' : m s = Ret (a, s') → bind m f s = f a s'.
Proof. intros Hm. unfold bind. by rewrite Hm. Qed.

Section contents.
Context (vm_page_size : Z).
Hypothesis page_pos : 0 < vm_page_size.
Hypothesis page_large : (vm_page_size | PACKET_SIZE_LARGE).

Lemma pipe_readable_spec p k :
  q_ok vm_page_size (pqueue p) k → small_size (zlen (bytes k)) → pipe_readable p = zlen (bytes k).
Proof.
  intros [Hq _] Hs. unfold pipe_readable. revert Hs.
  induction Hq as [|x a xs k (Ht & _ & Hp & _) _ IH]; intros Hs; [done|]. simpl.
  rewrite bytes_cons, length_app in *. rewrite Ht. unfold small_size in *.
  destruct (decide (a_type a = PACKET_TYPE_DATA)) as [Hd|Hd]; simpl in *.
  - rewrite IH by lia. unfold packet_readable.
    pose proof (pk_ok_bounds _ _ _ Hp) as (_ & _ & ->). rewrite u64_id by lia. lia.
  - by apply IH.
Qed.

(** ** Writing *)

Lemma q_ok_snoc q k a :
  q_ok vm_page_size q (k ++ [a]) →
  ∃ xs x, queue q = xs ++ [x] ∧ Forall2 (pkt_repr vm_page_size) xs k ∧ pkt_repr vm_page_size x a.
Proof.
  intros [Hq _]. apply Forall2_app_inv_r in Hq as (xs & ys & Hxs & Hys & ->).
  apply Forall2_cons_inv_r in Hys as (x & rest & Hx & Hn & ->). apply Forall2_nil_inv_r in Hn as ->. eauto.
Qed.

Lemma with_last_ok q k a xs x x' a' :
  q_ok vm_page_size q (k ++ [a]) → queue q = xs ++ [x] → Forall2 (pkt_repr vm_page_size) xs k →
  pkt_repr vm_page_size x' a' → q_ok vm_page_size (with_last x' q) (k ++ [a']).
Proof.
  intros [_ Hf] Hq Hxs Hx'. split; [|done]. simpl. rewrite Hq, removelast_last.
  apply Forall2_app; [done|]. by constructor.
Qed.

(** The end of the data of a packet is not far into its buffer. *)
Lemma fits_small x l n :
  pk_ok vm_page_size x l → small_size (zlen l + n) → 0 ≤ n → fits_size vm_page_size (buf_end x + n).
Proof.
  intros Hp Hs Hn. pose proof (pk_ok_bounds _ _ _ Hp) as (? & ? & Hl).
  destruct Hp as (_ & _ & _ & _ & _ & Hst & _). apply Z.divide_pos_le in page_large as Hle; [|done].
  unfold fits_size, small_size in *. lia.
Qed.

Definition append (d : list Z) (a : apacket) : apacket :=
  mk_apacket (a_type a) (a_source a) (a_data a ++ d) (a_ports a).

Lemma pkt_repr_data x x' a d :
  pkt_repr vm_page_size x a → same_head x x' → pk_ok vm_page_size x' d →
  pkt_repr vm_page_size x' (mk_apacket (a_type a) (a_source a) d (a_ports a)).
Proof.
  intros (? & ? & _ & Hpo) (Ht & Hs & Hp & Hn) Hd. split_and!; simpl; [congruence|congruence|done|].
  unfold ports_ok in *. by rewrite Hp, Hn.
Qed.

Lemma write_last_spec q k a data :
  q_ok vm_page_size q (k ++ [a]) → small_size (zlen (a_data a) + zlen data) →
  ∃ q', write_last vm_page_size data q [] = Some (E0, q', []) ∧ q_ok vm_page_size q' (k ++ [append data a]).
Proof.
  intros Hq Hs. destruct (q_ok_snoc q k a Hq) as (xs & x & Eq & Hxs & Hx).
  unfold write_last. rewrite Eq, last_snoc. simpl. pose proof Hx as (_ & _ & Hp & _).
  destruct (packet_write_spec vm_page_size page_pos page_large x (a_data a) data [] Hp) as
    (err & x' & o' & -> & Ho & Hr); [by eapply fits_small; [|done|lia]|].
  destruct (Ho eq_refl) as [-> Hne]. destruct Hr as [(-> & Hp' & Hh)|(_ & -> & _)]; [|done].
  simpl. eexists. split; [done|]. eapply with_last_ok; [done..|]. by eapply pkt_repr_data.
Qed.
Context (page_aligned : packet → bool).

(** The data go to a packet of their own, or to the last one if it is of the
    same kind and source and the class allows it. *)
Definition written (c : pipe_class) (source : Z) (data : list Z) (k k' : list apacket) : Prop :=
  k' = k ++ [mk_apacket PACKET_TYPE_DATA source data []]
  ∨ c = stream_pipe_class ∧
    ∃ k0 a, k = k0 ++ [a] ∧ k' = k0 ++ [append data a] ∧ a_type a = PACKET_TYPE_DATA
      ∧ (source = 0 ∨ a_source a = source).

Lemma written_bytes c source data k k' : written c source data k k' → bytes k' = bytes k ++ data.
Proof.
  intros [->|(_ & k0 & a & -> & -> & Ht & _)].
  - by rewrite bytes_app, bytes_one, decide_True by done.
  - rewrite !bytes_app. destruct a as [t s d l]. unfold append. cbn [a_type a_source a_data a_ports] in *.
    subst t. rewrite !bytes_one, !decide_True by done. by rewrite app_assoc.
Qed.

Lemma queue_write_spec source data q k :
  q_ok vm_page_size q k → small_size (zlen data) →
  ∃ q' q'', pq_queue PACKET_TYPE_DATA source q [] = (true, q', [])
    ∧ write_last vm_page_size data q' [] = Some (E0, q'', [])
    ∧ q_ok vm_page_size q'' (k ++ [mk_apacket PACKET_TYPE_DATA source data []]).
Proof.
  intros Hq Hs. destruct (pq_queue_spec vm_page_size q k PACKET_TYPE_DATA source [] Hq) as
    (ok & q1 & o1 & Hqu & Ho & Hok & _). destruct (Ho eq_refl) as [-> ->]. destruct (Hok eq_refl) as (Hq1 & _).
  destruct (write_last_spec q1 k _ data Hq1) as (q2 & Hw & Hq2); [done|]. eauto.
Qed.

(** The last packet, when it can take the data. *)
Lemma matches_last source q k x :
  q_ok vm_page_size q k → last (queue q) = Some x → matches PACKET_TYPE_DATA source x = true →
  ∃ k0 a, k = k0 ++ [a] ∧ pkt_repr vm_page_size x a ∧ a_type a = PACKET_TYPE_DATA
    ∧ (source = 0 ∨ a_source a = source).
Proof.
  intros [Hq _] Hl Hm. apply last_Some in Hl as (xs & Eq). rewrite Eq in Hq.
  apply Forall2_app_inv_l in Hq as (k0 & k1 & _ & Hk1 & ->).
  apply Forall2_cons_inv_l in Hk1 as (a & k2 & Ha & Hn & ->). apply Forall2_nil_inv_l in Hn as ->.
  exists k0, a. split_and!; [done|done|..].
  - destruct Ha as (<- & _). unfold matches in Hm. revert Hm. repeat case_bool_decide; simpl; try done.
    all: destruct (decide (type x = PACKET_TYPE_DATA)); [done|]; exfalso; naive_solver.
  - destruct Ha as (_ & <- & _). unfold matches in Hm. destruct (decide (source = 0)); [by left|right].
    revert Hm. repeat case_bool_decide; simpl; try done; naive_solver.
Qed.

Lemma own_packet_spec q k a x n :
  q_ok vm_page_size q (k ++ [a]) → last (queue q) = Some x → small_size (zlen (a_data a) + n) → 0 ≤ n →
  ∃ own q', own_packet vm_page_size page_aligned n x q [] = Some (own, q', [])
    ∧ q_ok vm_page_size q' (k ++ [a]) ∧ (own = true → a_data a ≠ []).
Proof.
  intros Hq Hl Hs Hn. destruct (q_ok_snoc q k a Hq) as (xs & x' & Eq & Hxs & Hx).
  rewrite Eq, last_snoc in Hl. injection Hl as ->. unfold own_packet. pose proof Hx as (_ & _ & Hp & _).
  pose proof (pk_ok_bounds _ _ _ Hp) as (_ & _ & Hr).
  destruct (decide _) as [[Hpos _]|]; [|by eauto].
  assert (a_data a ≠ []) by (intros Hd; unfold packet_readable in Hpos; rewrite Hr, Hd in Hpos; done).
  destruct (page_aligned x); [|by eauto 6].
  destruct (packet_ensure_efficiently_spec vm_page_size page_pos page_large x (a_data a) n Hp) as
    (b & x1 & -> & Hp1 & Hh); [done|by eapply fits_small|]. simpl.
  eexists _, _. split; [done|]. split; [|done]. eapply with_last_ok; [done..|].
  pose proof (pkt_repr_data x x1 a (a_data a) Hx Hh Hp1). by destruct a.
Qed.

(** The packet at the tail of the queue, which may be new. *)
Lemma pq_tail_spec source q k n :
  q_ok vm_page_size q k → small_size (zlen (bytes k) + n) →
  ∃ q1 k1 a, pq_tail PACKET_TYPE_DATA source q [] = (true, q1, [])
    ∧ q_ok vm_page_size q1 (k1 ++ [a]) ∧ a_type a = PACKET_TYPE_DATA ∧ (source = 0 ∨ a_source a = source)
    ∧ (k = k1 ++ [a] ∨ k = k1 ∧ a = mk_apacket PACKET_TYPE_DATA source [] [])
    ∧ small_size (zlen (a_data a) + n).
Proof.
  intros Hq Hs.
  assert (∃ q1 k1 a, pq_queue PACKET_TYPE_DATA source q [] = (true, q1, [])
    ∧ q_ok vm_page_size q1 (k1 ++ [a]) ∧ a_type a = PACKET_TYPE_DATA ∧ (source = 0 ∨ a_source a = source)
    ∧ (k = k1 ++ [a] ∨ k = k1 ∧ a = mk_apacket PACKET_TYPE_DATA source [] [])
    ∧ small_size (zlen (a_data a) + n)) as Hnew.
  { destruct (pq_queue_spec vm_page_size q k PACKET_TYPE_DATA source [] Hq) as (ok & q1 & o1 & -> & Ho & Hok & _).
    destruct (Ho eq_refl) as [-> ->]. destruct (Hok eq_refl) as (Hq1 & _).
    eexists q1, k, _. split; [done|]. split; [done|]. split_and!; try done; [by right|by right|].
    unfold small_size in *. simpl. lia. }
  unfold pq_tail. destruct (last (queue q)) as [x|] eqn:El; [|done].
  destruct (matches _ _ x) eqn:Em; [|done].
  destruct (matches_last source q k x Hq El Em) as (k0 & a & -> & Hx & Ht & Hsrc).
  exists q, k0, a. split_and!; try done; [by left|]. rewrite bytes_app in Hs. destruct a as [t s d l].
  cbn [a_type a_data] in *. subst t. rewrite bytes_one, decide_True, length_app in Hs by done.
  unfold small_size in *. lia.
Qed.

Lemma stream_write_spec source data q k :
  q_ok vm_page_size q k → small_size (zlen (bytes k) + zlen data) →
  ∃ q' k', stream_write vm_page_size page_aligned source data q [] = Some (E0, q', [])
    ∧ q_ok vm_page_size q' k' ∧ written stream_pipe_class source data k k'.
Proof.
  intros Hq Hs. unfold stream_write.
  destruct (pq_tail_spec source q k (zlen data) Hq Hs) as (q1 & k1 & a & -> & Hq1 & Ht & Hsrc & Hk & Hsz).
  destruct (q_ok_snoc q1 k1 a Hq1) as (xs & x & Eq & _ & _).
  assert (last (queue q1) = Some x) as El by by rewrite Eq, last_snoc.
  rewrite El. cbn [mbind option_bind].
  destruct (own_packet_spec q1 k1 a x (zlen data) Hq1 El Hsz) as (own & q2 & -> & Hq2 & Hown); [lia|].
  cbn [mbind option_bind]. destruct own.
  - assert (k = k1 ++ [a]) as -> by (destruct Hk as [?|[_ ->]]; [done|by destruct (Hown eq_refl)]).
    destruct (queue_write_spec source data q2 _ Hq2) as (q3 & q4 & -> & Hw & Hq4); [unfold small_size in *; lia|].
    exists q4, ((k1 ++ [a]) ++ [mk_apacket PACKET_TYPE_DATA source data []]). split_and!; [done|done|by left].
  - destruct (write_last_spec q2 k1 a data Hq2 Hsz) as (q3 & Hw & Hq3).
    exists q3, (k1 ++ [append data a]). split_and!; [done|done|].
    destruct Hk as [->|[-> ->]]; [right|left; done]. split; [done|]. by exists k1, a.
Qed.

Lemma class_write_spec c source data q k :
  q_ok vm_page_size q k → small_size (zlen (bytes k) + zlen data) →
  ∃ q' k', class_write vm_page_size page_aligned c source data q [] = Some (E0, q', [])
    ∧ q_ok vm_page_size q' k' ∧ written c source data k k'.
Proof.
  intros Hq Hs. destruct c; [by apply stream_write_spec|..];
    (destruct (queue_write_spec source data q k Hq) as (q1 & q2 & Hqu & Hw & Hq2);
     [unfold small_size in *; lia|]; simpl; unfold dgram_write, seqpack_write; rewrite Hqu;
     eexists _, _; split; [done|]; split; [done|by left]).
Qed.
(** ** Calls without interference *)

Context (h : conds) (host_time : Z).

(** The pipe holds the packets [k] and its ring of select calls is intact. *)
Definition pipe_ok (p : pipe) (k : list apacket) : Prop :=
  q_ok vm_page_size (pqueue p) k ∧ zlen (bytes k) ≤ write_limit p ∧ small_size (write_limit p)
  ∧ is_Some (pipe_select_cond_broadcast h (pending_selects p)).

Definition same_pipe (p p' : pipe) : Prop :=
  class p' = class p ∧ readers p' = readers p ∧ writers p' = writers p ∧ broken p' = broken p
  ∧ pending_selects p' = pending_selects p ∧ write_limit p' = write_limit p ∧ write_atomic p' = write_atomic p.

Abbreviation quiet p := (mk_sys (Some p) [] []).

Lemma pipe_ok_readable p k : pipe_ok p k → pipe_readable p = zlen (bytes k).
Proof. intros (Hq & Hb & Hs & _). apply pipe_readable_spec; [done|]. unfold small_size in *. lia. Qed.

Lemma pipe_ok_left p k :
  pipe_ok p k → u64 (write_limit p - pipe_readable p) = write_limit p - zlen (bytes k).
Proof.
  intros Hp. rewrite (pipe_ok_readable p k Hp). destruct Hp as (_ & Hb & Hs & _).
  unfold small_size in Hs. apply u64_id. lia.
Qed.

Lemma wait_writable_ok noblock amount p k :
  pipe_ok p k → broken p = false → 0 ≤ amount → zlen (bytes k) + amount < write_limit p →
  pipe_wait_writable_amount noblock amount (quiet p) = Ret (E0, quiet p).
Proof.
  intros Hp Hb Ha Hr. unfold pipe_wait_writable_amount. erewrite bind_ret by done. rewrite Hb. simpl.
  erewrite bind_ret by done. pose proof (pipe_ok_readable p k Hp) as ->. destruct Hp as (_ & _ & Hs & _).
  unfold small_size in Hs. rewrite decide_True; [done|]. rewrite u64_id; lia.
Qed.

Lemma broadcast_selects_ok p k :
  pipe_ok p k → ∃ l, broadcast_selects h (quiet p) = Ret (tt, quiet (add_woken l p)).
Proof.
  intros (_ & _ & _ & [l Hl]). unfold broadcast_selects. erewrite bind_ret by done.
  rewrite Hl. eexists. done.
Qed.

Lemma pipe_ok_woken p k l : pipe_ok p k → pipe_ok (add_woken l p) k.
Proof. done. Qed.

(** The end of a call that broadcast: only the log of the pipe has changed. *)
Lemma wake_selects_ok (b : bool) (w : wake) p k :
  pipe_ok p k →
  ∃ l, (if b then broadcast [w] ;~ broadcast_selects h else ret tt) (quiet p) = Ret (tt, quiet (add_woken l p)).
Proof.
  intros Hp. destruct b; [|by exists []; destruct p; unfold ret, add_woken; simpl; rewrite app_nil_r].
  rewrite (bind_ret _ _ _ tt (quiet (add_woken [w] p))) by done.
  destruct (broadcast_selects_ok (add_woken [w] p) k) as (l & ->); [done|].
  exists ([w] ++ l). unfold add_woken. simpl. by rewrite <- app_assoc.
Qed.

Lemma on_queue_ok {A} (f : pq → allocs → option (A * pq * allocs)) p a q :
  f (pqueue p) [] = Some (a, q, []) → on_queue f (quiet p) = Ret (a, quiet (set_pqueue q p)).
Proof.
  intros Hf. unfold on_queue. erewrite bind_ret by done.
  rewrite (bind_ret _ _ _ (a, q) (quiet p)); [done|]. unfold allocating. simpl. by rewrite Hf.
Qed.

(** A piece that can be written at once. *)
Definition piece_of (p : pipe) (k : list apacket) (n : Z) : Z :=
  if decide (n > write_limit p - zlen (bytes k)) then
    (if is_stream (class p) then write_limit p - zlen (bytes k) else 0)
  else n.

Lemma next_piece_ok fuel noblock n p k :
  pipe_ok p k → piece_of p k n ≠ 0 → next_piece fuel noblock n (quiet p) = Ret ((E0, piece_of p k n), quiet p).
Proof.
  intros Hp Hne. destruct fuel; simpl; (erewrite bind_ret by done); rewrite (pipe_ok_left p k Hp);
    fold (piece_of p k n); by rewrite decide_True.
Qed.

Lemma send_piece_ok fuel noblock source data p k :
  pipe_ok p k → data ≠ [] → piece_of p k (zlen data) ≠ 0 →
  zlen data ≤ write_limit p - zlen (bytes k) ∨ source = 0 →
  ∃ p' k', send_piece h host_time vm_page_size page_aligned fuel noblock source data 0 (quiet p)
             = Ret ((E0, piece_of p k (zlen data)), quiet p')
    ∧ pipe_ok p' k' ∧ same_pipe p p'
    ∧ written (class p) source (take (Z.to_nat (piece_of p k (zlen data))) data) k k'.
Proof.
  intros Hp Hd Hne Hsrc. set (piece := piece_of p k (zlen data)) in *.
  assert (0 < zlen data) by (destruct data; simpl; [done|lia]).
  assert (0 < piece ≤ zlen data ∧ piece ≤ write_limit p - zlen (bytes k)) as [Hpc Hroom].
  { pose proof Hp as (_ & Hb & _). unfold piece, piece_of in *. destruct (decide _); [|lia].
    destruct (is_stream _); lia. }
  unfold send_piece. rewrite Z.sub_0_r.
  rewrite (bind_ret _ _ _ _ _ (next_piece_ok fuel noblock (zlen data) p k Hp Hne)). fold piece.
  cbn beta iota. rewrite decide_False by auto. erewrite bind_ret by done.
  destruct Hp as (Hq & Hb & Hs & Hsel).
  destruct (class_write_spec (class p) source (take (Z.to_nat piece) data) (pqueue p) k Hq) as (q' & k' & Hw & Hq' & Hwr).
  { rewrite length_take. unfold small_size in *. lia. }
  rewrite (bind_ret _ _ _ _ _ (on_queue_ok _ p _ _ Hw)). rewrite decide_True by done.
  rewrite (bind_ret _ _ _ tt (quiet (set_pqueue q' p))).
  2: { unfold assert. destruct Hsrc as [Hle| ->].
       - rewrite bool_decide_true; [done|]. unfold piece, piece_of. rewrite decide_False by lia. lia.
       - by rewrite orb_true_r. }
  do 3 (erewrite bind_ret by done). erewrite bind_ret by done. cbn beta.
  set (p1 := add_woken [reads] _).
  assert (pipe_ok p1 k') as Hp1.
  { split_and!; try done. simpl. rewrite (written_bytes _ _ _ _ _ Hwr), length_app, length_take. lia. }
  destruct (wake_selects_ok (pipe_is_readable p1 false) read_selects p1 k' Hp1) as (l & Hwk).
  rewrite (bind_ret _ _ _ _ _ Hwk). exists (add_woken l p1), k'. split_and!; try done.
Qed.
Lemma send_loop_ok fuel noblock source data p k :
  pipe_ok p k → data ≠ [] → zlen data ≤ write_limit p - zlen (bytes k) →
  ∃ p' k', send_loop h host_time vm_page_size page_aligned fuel noblock source data 0 (quiet p)
             = Ret ((E0, zlen data), quiet p')
    ∧ pipe_ok p' k' ∧ same_pipe p p' ∧ written (class p) source data k k'.
Proof.
  intros Hp Hd Hle. assert (0 < zlen data) by (destruct data; simpl; [done|lia]).
  assert (piece_of p k (zlen data) = zlen data) as Hpc by (unfold piece_of; rewrite decide_False by lia; done).
  destruct (send_piece_ok fuel noblock source data p k Hp Hd) as (p' & k' & Hs & Hp' & Hsame & Hw); [lia|by left|].
  rewrite Hpc, take_ge in Hw by lia. rewrite Hpc in Hs. exists p', k'. split_and!; try done.
  destruct fuel; simpl; rewrite (bind_ret _ _ _ _ _ Hs); cbn beta iota;
    by rewrite (bool_decide_false (_ < _)), andb_false_r by lia.
Qed.

Lemma pipe_send_ok fuel noblock source data p k :
  pipe_ok p k → broken p = false → data ≠ [] → zlen (bytes k) + 1 < write_limit p →
  let left := write_limit p - zlen (bytes k) in
  if noblock && bool_decide (left < zlen data) && (negb (is_stream (class p)) || bool_decide (zlen data ≤ write_atomic p))
  then pipe_send h host_time vm_page_size page_aligned fuel noblock source data [] [] (quiet p)
       = Ret ((EWOULDBLOCK, 0), quiet p)
  else noblock = true ∨ zlen data ≤ left →
    let sent := if decide (left < zlen data) then take (Z.to_nat left) data else data in
    ∃ p' k', pipe_send h host_time vm_page_size page_aligned fuel noblock source data [] [] (quiet p)
               = Ret ((E0, zlen sent), quiet p')
      ∧ pipe_ok p' k' ∧ same_pipe p p' ∧ written (class p) source sent k k'.
Proof.
  intros Hp Hb Hd Hroom left. unfold pipe_send. rewrite decide_False by naive_solver.
  pose proof (wait_writable_ok noblock 1 p k Hp Hb ltac:(lia) ltac:(lia)) as Hwait.
  unfold pipe_wait_writable. rewrite (bind_ret _ _ _ _ _ Hwait). rewrite decide_False by auto.
  erewrite bind_ret by done. unfold limit_data. rewrite (pipe_ok_left p k Hp). fold left.
  destruct (noblock && bool_decide (left < zlen data) && _) eqn:Hc.
  - apply andb_true_iff in Hc as [[-> Hl%bool_decide_eq_true]%andb_true_iff Hno].
    rewrite decide_True by done. by rewrite Hno.
  - intros Hcase. set (sent := if decide (left < zlen data) then take (Z.to_nat left) data else data).
    assert ((if noblock then
               if decide (left < zlen data) then
                 if negb (is_stream (class p)) || bool_decide (zlen data ≤ write_atomic p) then None
                 else Some (take (Z.to_nat left) data)
               else Some data
             else Some data) = Some sent) as ->.
    { unfold sent. destruct noblock; destruct (decide (left < zlen data)) as [Hl|]; try done.
      - rewrite bool_decide_true in Hc by done. simpl in Hc. by rewrite Hc.
      - destruct Hcase; [done|lia]. }
    assert (sent ≠ [] ∧ zlen sent ≤ left) as [Hs0 Hsl].
    { unfold sent. destruct (decide (left < zlen data)); [|split; [done|lia]]. split; [|rewrite length_take; lia].
      intros H0. apply (f_equal length) in H0. rewrite length_take in H0. simpl in H0. lia. }
    rewrite (decide_False (P := [] ≠ [] ∨ [] ≠ [])) by naive_solver. erewrite bind_ret by done.
    rewrite decide_False by auto.
    destruct (send_loop_ok fuel noblock source sent p k Hp Hs0 Hsl) as (p' & k' & Hl & Hr).
    rewrite (bind_ret _ _ _ _ _ Hl). exists p', k'. split; [|done]. unfold ret. cbn beta iota.
    by rewrite decide_True by (destruct sent; [done|simpl; lia]).
Qed.

(** ** Receiving *)

Fixpoint after_control (k : list apacket) : list apacket :=
  match k with
  | [] => []
  | a :: k' => if decide (a_type a = PACKET_TYPE_CONTROL) then after_control k' else k
  end.

Lemma after_control_bytes k : bytes (after_control k) = bytes k.
Proof.
  induction k as [|a k IH]; [done|]. cbn [after_control]. destruct (decide _) as [Hc|]; [|done].
  rewrite IH, bytes_cons, decide_False by (rewrite Hc; done). done.
Qed.

Lemma pq_head_any q : pq_head PACKET_TYPE_ANY 0 q = head (queue q).
Proof. unfold pq_head. by destruct (queue q). Qed.

Lemma skip_control_spec q k n :
  q_ok vm_page_size q k → (length k ≤ n)%nat →
  ∃ q', skip_control n q = Some q' ∧ q_ok vm_page_size q' (after_control k).
Proof.
  revert q n. induction k as [|a k IH]; intros q n Hq Hn.
  - pose proof Hq as [Hnil%Forall2_nil_inv_r _]. exists q. split; [|done].
    destruct n; simpl; rewrite pq_head_any, Hnil; done.
  - destruct n as [|n]; [simpl in Hn; lia|]. pose proof Hq as [Hf _].
    apply Forall2_cons_inv_r in Hf as (x & xs & Hx & _ & Eq).
    cbn [skip_control after_control]. rewrite pq_head_any, Eq. cbn [head].
    pose proof Hx as (-> & _). destruct (decide _); [|by eauto].
    destruct (pq_dequeue_spec vm_page_size q a k Hq) as (q1 & Hd & Hq1 & _).
    unfold pq_next. rewrite Eq, Hd. cbn [mbind option_bind]. apply IH; [done|]. simpl in Hn. lia.
Qed.
(** The packets of a pipe: control packets and nonempty data packets. *)
Definition packets_ok (k : list apacket) : Prop :=
  Forall (λ a, a_type a = PACKET_TYPE_CONTROL ∨ a_type a = PACKET_TYPE_DATA ∧ a_data a ≠ []) k.

Lemma after_control_ok k :
  packets_ok k →
  after_control k = [] ∧ bytes k = []
  ∨ ∃ a k', after_control k = a :: k' ∧ a_type a = PACKET_TYPE_DATA ∧ a_data a ≠ [] ∧ packets_ok k'.
Proof.
  induction k as [|a k IH]; intros Hk; [by left|]. apply Forall_cons in Hk as [Ha Hk].
  rewrite <- after_control_bytes. cbn [after_control]. destruct (decide _) as [|Hc].
  - rewrite after_control_bytes. by apply IH.
  - right. exists a, k. destruct Ha as [?|[? ?]]; done.
Qed.

Lemma is_readable_spec p k :
  pipe_ok p k → packets_ok k → pipe_is_readable p true = bool_decide (bytes k ≠ []).
Proof.
  intros ([Hq _] & _) Hk. unfold pipe_is_readable. revert Hk.
  induction Hq as [|x a xs k (Ht & _) _ IH]; intros Hk; [done|]. apply Forall_cons in Hk as [Ha Hk].
  cbn [existsb]. rewrite Ht, bytes_cons. destruct Ha as [Hc|[Hd Hne]].
  - rewrite (bool_decide_true (_ = _)), decide_False by (done || rewrite Hc; done). by apply IH.
  - rewrite (bool_decide_false (_ = _)), decide_True by (done || rewrite Hd; done). simpl.
    symmetry. apply bool_decide_true. by destruct (a_data a).
Qed.

(** A read from a data packet of a stream. *)
Lemma class_read_spec c data_len amount x l :
  c ≠ dgram_pipe_class → pk_ok vm_page_size x l → 0 < amount → l ≠ [] →
  ∃ n x', class_read vm_page_size c false data_len amount x []
          = Some (take n l, x', bool_decide (drop n l = []), [])
    ∧ pk_ok vm_page_size x' (drop n l) ∧ same_head x x' ∧ (0 < n ≤ length l)%nat ∧ Z.of_nat n ≤ amount.
Proof.
  intros Hc Hx Ha Hl.
  destruct (packet_fetch_spec vm_page_size page_pos page_large x l data_len amount true [] Hx) as
    (n & x' & o' & Hf & Hx' & Hh & Ho & Hn & Hlen & Hpos & _); [lia|by right|]. rewrite Ho in Hf by done.
  exists n, x'. split; [|split_and!; auto; lia].
  assert (bool_decide (packet_readable x' = 0) = bool_decide (drop n l = [])) as Hd.
  { apply bool_decide_ext. unfold packet_readable. pose proof (pk_ok_bounds _ _ _ Hx') as (_ & _ & ->).
    by destruct (drop n l). }
  destruct c; [|done|]; simpl; unfold stream_read, seqpack_read, packet_read; rewrite Hf; simpl; by rewrite Hd.
Qed.

Lemma recv_data_spec c want_source data_len amount q a k :
  c ≠ dgram_pipe_class → q_ok vm_page_size q (a :: k) → packets_ok k → a_type a = PACKET_TYPE_DATA →
  a_data a ≠ [] → 0 < amount →
  ∃ n q' k', recv_data vm_page_size c false want_source data_len amount q []
             = Some (Some (take n (a_data a), if want_source then a_source a else 0), q', [])
    ∧ q_ok vm_page_size q' k' ∧ packets_ok k' ∧ bytes k' = drop n (a_data a) ++ bytes k
    ∧ (0 < n ≤ length (a_data a))%nat ∧ Z.of_nat n ≤ amount.
Proof.
  intros Hc Hq Hk Ht Hne Ha. pose proof Hq as [Hf Hfree].
  apply Forall2_cons_inv_r in Hf as (x & xs & Hx & Hxs & Eq). unfold recv_data. rewrite pq_head_any, Eq. cbn [head].
  set (y := if want_source then set_source 0 x else x). set (s := if want_source then 0 else a_source a).
  assert ((if want_source then packet_read_source x else (0, x)) = (if want_source then a_source a else 0, y)) as ->.
  { unfold y, packet_read_source. destruct Hx as (_ & <- & _). by destruct want_source. }
  assert (pkt_repr vm_page_size y (mk_apacket (a_type a) s (a_data a) (a_ports a))) as Hy.
  { unfold y, s. destruct Hx as (? & ? & ? & ?). destruct want_source; by split_and!. }
  pose proof Hy as (_ & _ & Hpk & _). simpl in Hpk.
  destruct (class_read_spec c data_len amount y (a_data a) Hc Hpk Ha Hne) as (n & y' & -> & Hy' & Hh & Hn & Hna).
  cbn [mbind option_bind].
  assert (q_ok vm_page_size (with_head y' q) (mk_apacket (a_type a) s (drop n (a_data a)) (a_ports a) :: k)) as Hq1.
  { split; [|done]. simpl. rewrite Eq. constructor; [|done]. by apply (pkt_repr_data y y' _ _ Hy). }
  case_bool_decide as Hd.
  - destruct (pq_dequeue_spec vm_page_size _ _ _ Hq1) as (q' & -> & Hq' & _). cbn [mbind option_bind].
    exists n, q', k. rewrite Hd. split_and!; try done; lia.
  - eexists n, _, _. split; [done|]. split; [done|]. rewrite bytes_cons. cbn [a_type a_data].
    rewrite decide_True by done. split_and!; try done; try lia. constructor; [by right|done].
Qed.

Lemma pipe_wake_writers_ok p k :
  pipe_ok p k → ∃ l, pipe_wake_writers h (quiet p) = Ret (tt, quiet (add_woken l p)).
Proof.
  intros Hp. unfold pipe_wake_writers. rewrite (bind_ret _ _ _ tt (quiet (add_woken [writes] p))) by done.
  rewrite (bind_ret _ _ _ tt (quiet (add_woken [writes] p))) by done.
  erewrite bind_ret by done.
  assert (∀ l, add_woken l (add_woken [writes] p) = add_woken ([writes] ++ l) p) as Hl.
  { intros l. unfold add_woken. simpl. by rewrite <- app_assoc. }
  destruct (decide _) as [Hlt|Hlt].
  - destruct (wake_selects_ok true write_selects (add_woken [writes] p) k) as (l & ->); [done|]. rewrite Hl. eauto.
  - destruct (wake_selects_ok false write_selects (add_woken [writes] p) k) as (l & ->); [done|]. rewrite Hl. eauto.
Qed.

Lemma pipe_recv_ok noblock want_source data_len amount p k :
  pipe_ok p k → packets_ok k → class p ≠ dgram_pipe_class → 0 < amount → bytes k ≠ [] →
  ∃ n src p' k', pipe_recv h host_time vm_page_size noblock false want_source data_len amount None None (quiet p)
                 = Ret ((E0, mk_received (take n (bytes k)) src [] []), quiet p')
    ∧ pipe_ok p' k' ∧ packets_ok k' ∧ same_pipe p p' ∧ bytes k' = drop n (bytes k)
    ∧ (0 < n)%nat ∧ Z.of_nat n ≤ amount.
Proof.
  intros Hp Hk Hc Ha Hne. unfold pipe_recv.
  rewrite (bind_ret _ _ _ E0 (quiet p)).
  2: { unfold pipe_wait_readable. cbn [s_env length wait_readable_loop]. erewrite bind_ret by done.
       by rewrite (is_readable_spec p k Hp Hk), bool_decide_true. }
  rewrite decide_False by auto. erewrite bind_ret by done.
  destruct Hp as (Hq & Hb & Hs & Hsel).
  destruct (skip_control_spec (pqueue p) k (length (queue (pqueue p))) Hq) as (q1 & Hsk & Hq1).
  { by rewrite (Forall2_length _ _ _ (proj1 Hq)). }
  rewrite (bind_ret _ _ _ ([], []) (quiet (set_pqueue q1 p))).
  2: { apply on_queue_ok. unfold recv_control. by rewrite Hsk. }
  destruct (after_control_ok k Hk) as [[_ ?]|(a & k1 & Ek & Ht & Hd & Hk1)]; [done|].
  rewrite Ek in Hq1. cbn beta iota.
  destruct (recv_data_spec (class p) want_source data_len amount q1 a k1 Hc Hq1 Hk1 Ht Hd Ha)
    as (n & q2 & k2 & Hr & Hq2 & Hk2 & Hb2 & Hn & Hna).
  rewrite (bind_ret _ _ _ _ _ (on_queue_ok _ (set_pqueue q1 p) _ _ Hr)). cbn beta iota.
  set (p2 := set_times host_time (write_time (set_pqueue q2 (set_pqueue q1 p))) (set_pqueue q2 (set_pqueue q1 p))).
  rewrite (bind_ret _ _ _ tt (quiet p2)) by done.
  assert (bytes k = a_data a ++ bytes k1) as Hbk.
  { rewrite <- after_control_bytes, Ek, bytes_cons. by rewrite decide_True. }
  assert (pipe_ok p2 k2) as Hp2.
  { split_and!; try done. simpl. rewrite Hb2, length_app, length_drop. rewrite Hbk, length_app in Hb. lia. }
  destruct (pipe_wake_writers_ok p2 k2 Hp2) as (l & Hw). rewrite (bind_ret _ _ _ _ _ Hw).
  exists n, (if want_source then a_source a else 0), (add_woken l p2), k2. rewrite Hbk, take_app_le, drop_app_le by lia.
  split_and!; try done; lia.
Qed.
(** ** Control packets *)

Lemma packet_set_ports_spec x l :
  num_ports x = 0 →
  ∃ x', packet_set_ports l x [] = Some (E0, x', [], []) ∧ ports_ok x' l
    ∧ type x' = type x ∧ source x' = source x ∧ (∀ d, pk_ok vm_page_size x d → pk_ok vm_page_size x' d).
Proof.
  intros Hn. unfold packet_set_ports. rewrite (decide_False (P := num_ports x > 0)) by lia. cbn [mbind option_bind].
  assert (∃ a, (if decide (zlen l > ports_alloced x) then replicate (length l) None else ports x) = a
          ∧ zlen l ≤ zlen a) as (a & -> & Ha).
  { destruct (decide _); eexists; (split; [done|]); rewrite ?length_replicate; lia. }
  assert ((if decide (zlen l > ports_alloced x) then alloc [] else (true, [])) = (true, [])) as ->.
  { by destruct (decide _). }
  rewrite (write_cells_mid [] a l) by done. cbn [mbind option_bind].
  eexists. split; [done|]. split_and!; try done. split; [|done]. by eexists.
Qed.

Lemma send_control_spec control ports q k :
  q_ok vm_page_size q k → small_size (zlen control) →
  ∃ q', send_control vm_page_size control ports q [] = Some (E0, q', [])
    ∧ q_ok vm_page_size q' (k ++ [mk_apacket PACKET_TYPE_CONTROL 0 control ports]).
Proof.
  intros Hq Hs. unfold send_control.
  destruct (pq_queue_spec vm_page_size q k PACKET_TYPE_CONTROL 0 [] Hq) as (ok & q1 & o1 & -> & Ho & Hok & _).
  destruct (Ho eq_refl) as [-> ->]. destruct (Hok eq_refl) as (Hq1 & _).
  destruct (write_last_spec q1 k _ control Hq1) as (q2 & -> & Hq2); [done|]. cbn [mbind option_bind].
  rewrite decide_True by done. destruct (q_ok_snoc q2 k _ Hq2) as (xs & x & Eq & Hxs & Ht & Hso & Hp & _ & Hn).
  rewrite Eq, last_snoc. cbn [mbind option_bind].
  destruct (packet_set_ports_spec x ports Hn) as (x' & -> & Hpo & Ht' & Hso' & Hp'). cbn [mbind option_bind].
  eexists. split; [done|]. split; [|by destruct Hq2]. simpl. rewrite removelast_last.
  apply Forall2_app; [done|]. constructor; [|done]. cbn in Ht, Hso, Hp; split_and!; [by rewrite Ht'|by rewrite Hso'|by apply Hp'|done].
Qed.

Lemma next_piece_spins fuel noblock p k :
  pipe_ok p k → broken p = false → zlen (bytes k) + 1 < write_limit p →
  next_piece fuel noblock 0 (quiet p) = Spins.
Proof.
  intros Hp Hb Hr. pose proof (pipe_ok_left p k Hp) as Hl.
  assert (∀ b : bool, pipe_wait_writable_amount false (if b then 1 else 0) (quiet p) = Ret (E0, quiet p)) as Hw.
  { intros b. apply (wait_writable_ok false _ p k Hp Hb); destruct b; lia. }
  induction fuel as [|fuel IH]; cbn [next_piece]; (erewrite bind_ret by done); rewrite Hl;
    rewrite (decide_False (P := 0 > _)) by lia; rewrite decide_False by auto;
    (rewrite (bind_ret _ _ _ E0 (quiet p)) by (destruct noblock; [done|by rewrite Hw])); done.
Qed.

Lemma pipe_send_spins fuel noblock source control ports p k :
  pipe_ok p k → broken p = false → zlen (bytes k) + 1 < write_limit p → small_size (zlen control) →
  control ≠ [] ∨ ports ≠ [] →
  pipe_send h host_time vm_page_size page_aligned fuel noblock source [] control ports (quiet p) = Spins.
Proof.
  intros Hp Hb Hr Hc Hcp. unfold pipe_send. rewrite decide_False by naive_solver.
  pose proof (wait_writable_ok noblock 1 p k Hp Hb ltac:(lia) ltac:(lia)) as Hwait.
  unfold pipe_wait_writable. rewrite (bind_ret _ _ _ _ _ Hwait). rewrite decide_False by auto.
  erewrite bind_ret by done. unfold limit_data. rewrite (pipe_ok_left p k Hp).
  rewrite (decide_False (P := _ < zlen [])) by (simpl; lia).
  replace (if noblock then Some [] else Some []) with (Some (@nil Z)) by by destruct noblock.
  rewrite (decide_True (P := control ≠ [] ∨ ports ≠ [])) by done.
  destruct Hp as (Hq & Hbd & Hs & Hsel).
  destruct (send_control_spec control ports (pqueue p) k Hq Hc) as (q' & Hsc & Hq').
  rewrite (bind_ret _ _ _ _ _ (on_queue_ok _ p _ _ Hsc)). rewrite decide_False by auto.
  assert (pipe_ok (set_pqueue q' p) (k ++ [mk_apacket PACKET_TYPE_CONTROL 0 control ports])
    ∧ bytes (k ++ [mk_apacket PACKET_TYPE_CONTROL 0 control ports]) = bytes k) as [Hp' Hbk].
  { rewrite bytes_app, bytes_one, decide_False, app_nil_r by done. split; [|done]. split_and!; try done.
    simpl. by rewrite bytes_app, bytes_one, decide_False, app_nil_r by done. }
  assert (next_piece fuel noblock 0 (quiet (set_pqueue q' p)) = Spins) as Hspin.
  { eapply next_piece_spins; [done|done|]. by rewrite Hbk. }
  assert (send_loop h host_time vm_page_size page_aligned fuel noblock source [] 0 (quiet (set_pqueue q' p)) = Spins) as Hl.
  { destruct fuel; cbn [send_loop]; unfold send_piece; change (zlen (@nil Z) - 0) with 0; unfold bind; by rewrite Hspin. }
  unfold bind. by rewrite Hl.
Qed.
End contents.

(** ** Rings *)

(** Each condition leads to the one after it, the last one to [e]. *)
Fixpoint path (m : conds) (l : list Z) (e : Z) : Prop :=
  match l with
  | [] => True
  | c :: l' => (∃ b, m !! c = Some (mk_cond (hd e l') b)) ∧ path m l' e
  end.

(** The ring of the select calls [c :: l] of a pipe. *)
Definition ring (m : conds) (c : Z) (l : list Z) : Prop :=
  NoDup (c :: l) ∧ path m (c :: l) c ∧ prev <$> m !! c = last (c :: l).

Lemma path_dom m l e : path m l e → ∀ c, c ∈ l → is_Some (m !! c).
Proof.
  induction l as [|d l IH]; intros Hp c; [by intros ?%elem_of_nil|]. destruct Hp as [[b Hd] Hp].
  intros [->|Hc]%elem_of_cons; [by rewrite Hd|]. by apply IH.
Qed.

Lemma path_size m l e : NoDup l → path m l e → (length l ≤ size m)%nat.
Proof.
  intros Hnd Hp. rewrite <- size_dom, <- (size_list_to_set (C := gset Z) l) by done.
  apply subseteq_size. intros c Hc%elem_of_list_to_set. apply elem_of_dom. by eapply path_dom.
Qed.

Lemma broadcast_loop_spec fuel m c l e z :
  path m (c :: l ++ [z]) e → z ∉ l → (length l < fuel)%nat → broadcast_loop fuel m c z = Some (c :: l).
Proof.
  revert c fuel. induction l as [|d l IH]; intros c [|fuel] [[b Hc] Hp] Hz Hf; try (simpl in *; lia); simpl.
  - rewrite Hc. simpl. by rewrite decide_True.
  - rewrite Hc. simpl. rewrite decide_False by set_solver. rewrite IH; [done|done|set_solver|simpl in Hf; lia].
Qed.

(** A ring [c; d; ...; z] goes without its last condition, unless it has only
    one. *)
Lemma select_broadcast_spec m c l :
  ring m c l →
  pipe_select_cond_broadcast m (Some c) = Some (match l with [] => [c] | _ => c :: removelast l end).
Proof.
  intros (Hnd & Hp & Hl). unfold pipe_select_cond_broadcast. pose proof (path_size m _ c Hnd Hp) as Hsz.
  destruct (m !! c) as [x|] eqn:Hx; [|by destruct Hp as [[b Hb] _]; congruence]. cbn [mbind option_bind].
  destruct l as [|d l].
  - destruct Hp as [[b Hb] _]. destruct (size m) as [|n]; [simpl in Hsz; lia|]. simpl in *.
    injection Hl as Hl. rewrite Hx in Hb. injection Hb as ->. simpl in *. subst b. rewrite Hx. simpl. by rewrite decide_True.
  - destruct (exists_last (l := d :: l)) as (l' & z & El); [done|]. rewrite El in *. rewrite removelast_last.
    rewrite app_comm_cons, last_snoc in Hl. injection Hl as Hl. rewrite Hl. apply (broadcast_loop_spec _ _ _ _ c).
    + done.
    + apply NoDup_cons in Hnd as [_ Hnd]. apply NoDup_app in Hnd as (_ & Hnd & _). set_solver.
    + simpl in Hsz. rewrite length_app in Hsz. simpl in Hsz. destruct l'; simpl in *; lia.
Qed.

(** ** Properties *)

(** C17. A send of data, without control data or ports, that need not wait, on a pipe
    that is not broken and has room for at least two more bytes, when every
    allocation succeeds and no other thread interferes, appends to the bytes of
    the pipe what it reports as written: all of the data if they fit; what fits of
    them if the pipe is a stream, the call must not block and the data are too
    long to be written atomically.  Otherwise, on such a pipe, a call that must not block
    returns [EWOULDBLOCK] and leaves the pipe as it was.  A datagram or record stays
    in one packet. *)
Theorem pipe_send_correct vm_page_size page_aligned h host_time fuel noblock source data p k :
  0 < vm_page_size → (vm_page_size | PACKET_SIZE_LARGE) →
  pipe_ok vm_page_size h p k → broken p = false → data ≠ [] → zlen (bytes k) + 1 < write_limit p →
  let left := write_limit p - zlen (bytes k) in
  let send := pipe_send h host_time vm_page_size page_aligned fuel noblock source data [] [] (mk_sys (Some p) [] []) in
  if noblock && bool_decide (left < zlen data) && (negb (is_stream (class p)) || bool_decide (zlen data ≤ write_atomic p))
  then send = Ret ((EWOULDBLOCK, 0), mk_sys (Some p) [] [])
  else noblock = true ∨ zlen data ≤ left →
    let sent := if decide (left < zlen data) then take (Z.to_nat left) data else data in
    ∃ p' k', send = Ret ((E0, zlen sent), mk_sys (Some p') [] [])
      ∧ pipe_ok vm_page_size h p' k' ∧ same_pipe p p' ∧ bytes k' = bytes k ++ sent
      ∧ (class p ≠ stream_pipe_class → k' = k ++ [mk_apacket PACKET_TYPE_DATA source data []]).
Proof.
  intros Hpos Hdiv Hp Hb Hd Hroom left send.
  pose proof (pipe_send_ok vm_page_size Hpos Hdiv page_aligned h host_time fuel noblock source data p k Hp Hb Hd Hroom) as Hs.
  cbv zeta in Hs. fold left in Hs. fold send in Hs. destruct (noblock && _ && _) eqn:Hc; [done|]. intros Hcase sent.
  destruct (Hs Hcase) as (p' & k' & Hr & Hp' & Hsame & Hw). exists p', k'.
  split_and!; try done; [by eapply written_bytes|]. intros Hcl. destruct Hw as [->|[? _]]; [|done].
  unfold sent. destruct (decide _) as [Hlt|]; [|done]. exfalso.
  destruct Hcase as [->|?]; [|lia]. rewrite bool_decide_true in Hc by done.
  unfold is_stream in Hc. rewrite bool_decide_false in Hc by done. done.
Qed.

(** A connected pipe of class [c] with the bytes 1 and 2. *)
Definition some_pipe (c : pipe_class) : pipe :=
  mk_pipe c 1 1 false 0 0 None 16 8
    (mk_pq [mk_packet PACKET_TYPE_DATA 0 [Some 1; Some 2] 0 2 false [] 0] [] [] []) [].

Lemma some_pipe_ok c : pipe_ok 16 ∅ (some_pipe c) [mk_apacket PACKET_TYPE_DATA 0 [1; 2] []].
Proof.
  split; [|split_and!; try done; by eexists]. split; [|done]. constructor; [|done].
  split; [done|]. split; [done|]. split; [|by split; [exists []|]]. exists [], []. by split_and!.
Qed.

Lemma pipe_send_correct_witness :
  ∃ p' k', pipe_send ∅ 0 16 (λ _, false) 0 true 0 (replicate 20 9) [] [] (mk_sys (Some (some_pipe stream_pipe_class)) [] [])
           = Ret ((E0, 14), mk_sys (Some p') [] [])
    ∧ pipe_ok 16 ∅ p' k' ∧ bytes k' = [1; 2] ++ replicate 14 9.
Proof.
  destruct (pipe_send_correct 16 (λ _, false) ∅ 0 0 true 0 (replicate 20 9) (some_pipe stream_pipe_class)
    [mk_apacket PACKET_TYPE_DATA 0 [1; 2] []] ltac:(lia) ltac:(by exists 512) (some_pipe_ok _) eq_refl
    ltac:(discriminate) ltac:(vm_compute; reflexivity) ltac:(by left)) as (p' & k' & H1 & H2 & _ & H3 & _).
  exists p', k'. split; [exact H1|]. split; [exact H2|exact H3].
Defined.

(** C27. A read from a stream or a sequenced-packet pipe with data, without
    interference, returns a nonempty prefix of the bytes of the pipe and removes
    it, skipping control packets, and does not wait, when every allocation
    succeeds. *)
Theorem pipe_recv_correct vm_page_size h host_time noblock want_source data_len amount p k :
  0 < vm_page_size → (vm_page_size | PACKET_SIZE_LARGE) →
  pipe_ok vm_page_size h p k → packets_ok k → class p ≠ dgram_pipe_class → 0 < amount → bytes k ≠ [] →
  ∃ n src p' k',
    pipe_recv h host_time vm_page_size noblock false want_source data_len amount None None (mk_sys (Some p) [] [])
    = Ret ((E0, mk_received (take n (bytes k)) src [] []), mk_sys (Some p') [] [])
    ∧ pipe_ok vm_page_size h p' k' ∧ packets_ok k' ∧ same_pipe p p' ∧ bytes k' = drop n (bytes k)
    ∧ (0 < n)%nat ∧ Z.of_nat n ≤ amount.
Proof. intros. by apply pipe_recv_ok. Qed.

Lemma pipe_recv_correct_witness :
  ∃ n src p' k',
    pipe_recv ∅ 0 16 true false false 0 1 None None (mk_sys (Some (some_pipe stream_pipe_class)) [] [])
    = Ret ((E0, mk_received (take n [1; 2]) src [] []), mk_sys (Some p') [] []) ∧ bytes k' = drop n [1; 2].
Proof.
  destruct (pipe_recv_correct 16 ∅ 0 true false 0 1 (some_pipe stream_pipe_class)
    [mk_apacket PACKET_TYPE_DATA 0 [1; 2] []] ltac:(lia) ltac:(by exists 512) (some_pipe_ok _))
    as (n & src & p' & k' & H1 & _ & _ & _ & H2 & _); [|discriminate|lia|discriminate|].
  - constructor; [right; split; [reflexivity|discriminate]|constructor].
  - exists n, src, p', k'. split; [exact H1|exact H2].
Defined.

(** A send of control data or port rights without data never returns: on a
    connected pipe with room it loops, whatever the fuel and whether it may block
    or not, with the lock of the pipe held. *)
Theorem pipe_send_control_spins vm_page_size page_aligned h host_time fuel noblock source control ports p k :
  0 < vm_page_size → (vm_page_size | PACKET_SIZE_LARGE) →
  pipe_ok vm_page_size h p k → broken p = false → zlen (bytes k) + 1 < write_limit p → small_size (zlen control) →
  control ≠ [] ∨ ports ≠ [] →
  pipe_send h host_time vm_page_size page_aligned fuel noblock source [] control ports (mk_sys (Some p) [] []) = Spins.
Proof. intros. by eapply pipe_send_spins. Qed.

Lemma pipe_send_control_spins_witness :
  pipe_send ∅ 0 16 (λ _, false) 1000 true 0 [] [4] [5] (mk_sys (Some (some_pipe stream_pipe_class)) [] []) = Spins.
Proof.
  apply (pipe_send_control_spins 16 (λ _, false) ∅ 0 1000 true 0 [4] [5] (some_pipe stream_pipe_class)
    [mk_apacket PACKET_TYPE_DATA 0 [1; 2] []] ltac:(lia) ltac:(by exists 512) (some_pipe_ok _) eq_refl
    ltac:(vm_compute; reflexivity) ltac:(vm_compute; reflexivity)).
  left. discriminate.
Defined.

(** The broadcast to the select calls on a pipe terminates, and wakes all of
    them but the last one to come, which it wakes only if there is no other. *)
Theorem pipe_select_broadcast_misses_last m c l :
  ring m c l →
  pipe_select_cond_broadcast m (Some c) = Some (match l with [] => [c] | _ => c :: removelast l end).
Proof. apply select_broadcast_spec. Qed.

(** Two select calls, with conditions at 1 and 2. *)
Definition two_selects : conds := {[ 1 := mk_cond 2 2; 2 := mk_cond 1 1 ]}.

Lemma pipe_select_broadcast_misses_last_witness : pipe_select_cond_broadcast two_selects (Some 1) = Some [1].
Proof.
  apply (pipe_select_broadcast_misses_last two_selects 1 [2]).
  split; [|split; [|reflexivity]].
  - apply (bool_decide_unpack _). vm_compute. exact I.
  - split; [exists 2; reflexivity|]. split; [exists 1; reflexivity|exact I].
Defined.

(** A select call on two pipes puts its one condition into both rings: after
    the call has returned, the call that waits on the first pipe touches the
    memory of the finished one when it leaves its ring, and, with the roles of
    the pipes exchanged, the first pipe is left with a condition of the other
    one. *)
Theorem pipe_pair_select_corrupts_rings :
  (∃ s, pipe_pair_select false 3 false 2
          (mk_pair (set_selects (Some 1) (some_pipe stream_pipe_class)) (some_pipe stream_pipe_class) {[ 1 := mk_cond 1 1 ]}) []
        = Ret (E0, 3, s)
     ∧ pending_selects (rpipe s) = Some 1 ∧ pipe_remove_select_cond (pending_selects (rpipe s)) 1 (mem s) = None)
  ∧ ∃ s, pipe_pair_select false 3 false 2
          (mk_pair (some_pipe stream_pipe_class) (set_selects (Some 1) (some_pipe stream_pipe_class)) {[ 1 := mk_cond 1 1 ]}) []
        = Ret (E0, 3, s)
     ∧ pending_selects (rpipe s) = Some 1.
Proof.
  split; eexists; (split; [vm_compute; reflexivity|]); vm_compute; auto.
Qed.
