(* ===== verification/Store.v ===== *)
(** * Stores: reading and writing through run lists (libstore)

    [src/libstore/store.h], [make.c], [derive.c], [set.c] and [rdwr.c], with the
    read and write methods of the classes [zero], [remap], [concat] and
    [interleave].  A [struct store] is a tree of stores; each node maps its
    contiguous address space to runs of blocks of what is below it.  The
    storage below the leaves (devices, files, memory objects) is reached by
    Mach and Hurd remote procedure calls and is a parameter, the class [Media].

    The contract of a store is that it is an array of blocks: a reader or
    writer need not know of the runs.  The refinement theorems state it: the
    abstract store is the list [tree_map] of the places its blocks are at;
    [store_read] returns the contents of these places and [store_write] changes
    exactly them.  [None] is a failed assertion, an access outside of an array
    or a signed overflow; integers have the widths of the 64-bit systems. *)

From S2P Require Import Prelude.

(** ** Data *)
Record store_run := StoreRun { run_start : Z; run_length : Z }.

Inductive file_storage_class :=
| STORAGE_OTHER | STORAGE_DEVICE | STORAGE_HURD_FILE | STORAGE_NETWORK
| STORAGE_MEMORY | STORAGE_TASK | STORAGE_ZERO | STORAGE_CONCAT
| STORAGE_INTERLEAVE | STORAGE_LAYER | STORAGE_REMAP | STORAGE_COPY.

#[export] Instance store_run_eq_dec : EqDecision store_run.
Proof. solve_decision. Defined.
#[export] Instance file_storage_class_eq_dec : EqDecision file_storage_class.
Proof. solve_decision. Defined.

(** [num_runs] and [num_children] are the lengths of the lists; the [hook] of
    the classes that are not modelled is left out. *)
Inductive store := Store {
  st_source : Z;
  st_runs : list store_run;
  st_end : Z;
  st_wrap_src : Z;
  st_wrap_dst : Z;
  st_name : option (list Z);
  st_port : Z;
  st_block_size : Z;
  st_blocks : Z;
  st_size : Z;
  st_log2_block_size : Z;
  st_log2_blocks_per_page : Z;
  st_flags : Z;
  st_misc : option (list Z);
  st_misc_len : Z;
  st_class : file_storage_class;
  st_children : list store
}.

Definition with_runs (rs : list store_run) (st : store) : store :=
  Store (st_source st) rs (st_end st) (st_wrap_src st) (st_wrap_dst st) (st_name st)
    (st_port st) (st_block_size st) (st_blocks st) (st_size st) (st_log2_block_size st)
    (st_log2_blocks_per_page st) (st_flags st) (st_misc st) (st_misc_len st) (st_class st)
    (st_children st).

Definition with_derived (end_ wrap_src blocks size log2 log2_pp : Z) (st : store) : store :=
  Store (st_source st) (st_runs st) end_ wrap_src (st_wrap_dst st) (st_name st)
    (st_port st) (st_block_size st) blocks size log2 log2_pp
    (st_flags st) (st_misc st) (st_misc_len st) (st_class st) (st_children st).

Definition with_flags (fl : Z) (st : store) : store :=
  Store (st_source st) (st_runs st) (st_end st) (st_wrap_src st) (st_wrap_dst st) (st_name st)
    (st_port st) (st_block_size st) (st_blocks st) (st_size st) (st_log2_block_size st)
    (st_log2_blocks_per_page st) fl (st_misc st) (st_misc_len st) (st_class st)
    (st_children st).

Definition with_name_misc (name misc : option (list Z)) (misc_len : Z) (st : store) : store :=
  Store (st_source st) (st_runs st) (st_end st) (st_wrap_src st) (st_wrap_dst st) name
    (st_port st) (st_block_size st) (st_blocks st) (st_size st) (st_log2_block_size st)
    (st_log2_blocks_per_page st) (st_flags st) misc misc_len (st_class st) (st_children st).

Definition with_children (kids : list store) (st : store) : store :=
  Store (st_source st) (st_runs st) (st_end st) (st_wrap_src st) (st_wrap_dst st) (st_name st)
    (st_port st) (st_block_size st) (st_blocks st) (st_size st) (st_log2_block_size st)
    (st_log2_blocks_per_page st) (st_flags st) (st_misc st) (st_misc_len st) (st_class st) kids.

Definition with_wrap_dst (wrap_dst : Z) (st : store) : store :=
  Store (st_source st) (st_runs st) (st_end st) (st_wrap_src st) wrap_dst (st_name st)
    (st_port st) (st_block_size st) (st_blocks st) (st_size st) (st_log2_block_size st)
    (st_log2_blocks_per_page st) (st_flags st) (st_misc st) (st_misc_len st) (st_class st)
    (st_children st).

Definition with_source (source : Z) (st : store) : store :=
  Store source (st_runs st) (st_end st) (st_wrap_src st) (st_wrap_dst st) (st_name st)
    (st_port st) (st_block_size st) (st_blocks st) (st_size st) (st_log2_block_size st)
    (st_log2_blocks_per_page st) (st_flags st) (st_misc st) (st_misc_len st) (st_class st)
    (st_children st).

Abbreviation MACH_PORT_NULL := 0 (only parsing).

Abbreviation STORE_READONLY := 0x0100 (only parsing).
Abbreviation STORE_NO_FILEIO := 0x0200 (only parsing).
Abbreviation STORE_HARD_READONLY := 0x1000 (only parsing).
Abbreviation STORE_ENFORCED := 0x2000 (only parsing).
Abbreviation STORE_INACTIVE := 0x4000 (only parsing).
Abbreviation STORE_INNOCUOUS := 0x8000 (only parsing).
Abbreviation STORE_BACKEND_SPEC_BASE := 0x10000 (only parsing).
Definition STORE_BACKEND_FLAGS : Z :=
  Z.lor (Z.lor (Z.lor STORE_HARD_READONLY STORE_ENFORCED) STORE_INACTIVE)
    (Z.lnot (STORE_BACKEND_SPEC_BASE - 1)).

(** ** Derived fields *)

(** The system's page size. *)
Class PageSize := vm_page_size : Z.

Section derive.
Context `{PageSize}.

(** The first loop: [wrap_src] is the sum of all the lengths, [blocks] that of
    the runs that are not holes. *)
Fixpoint sum_runs (rs : list store_run) (wrap_src blocks : Z) : option (Z * Z) :=
  match rs with
  | [] => Some (wrap_src, blocks)
  | r :: rs' =>
      wrap_src ← chk64 (wrap_src + run_length r);
      blocks ← (if decide (0 ≤ run_start r) then chk64 (blocks + run_length r)
                else Some blocks);
      sum_runs rs' wrap_src blocks
  end.

(** The loop over the last, partial, iteration of a repeating pattern. *)
Fixpoint last_part_blocks (rs : list store_run) (last_part_base end_ blocks : Z) : option Z :=
  match rs with
  | [] => Some blocks
  | r :: rs' =>
      part_end ← chk64 (last_part_base + run_length r);
      if decide (part_end < end_) then chk64 (blocks + (end_ - part_end))
      else if decide (0 ≤ run_start r) then
        blocks ← chk64 (blocks + run_length r);
        last_part_blocks rs' last_part_base end_ blocks
      else last_part_blocks rs' last_part_base end_ blocks
  end.

(** [while ((1 << log2_block_size) < bsize) log2_block_size++;] where the shifted
    1 is an [int]; a shift by 32 is undefined. *)
Fixpoint log2_block_size_loop (fuel : nat) (log2 bsize : Z) : option Z :=
  match fuel with
  | O => None
  | S fuel' =>
      if decide (u64 (s32 (Z.shiftl 1 log2)) < bsize) then
        log2_block_size_loop fuel' (log2 + 1) bsize
      else Some log2
  end.

Fixpoint log2_blocks_per_page_loop (fuel : nat) (log2 bsize : Z) : option Z :=
  match fuel with
  | O => None
  | S fuel' =>
      if decide (u64 (Z.shiftl bsize log2) < vm_page_size) then
        log2_blocks_per_page_loop fuel' (log2 + 1) bsize
      else Some log2
  end.

Definition _store_derive (st : store) : option store :=
  let bsize := st_block_size st in
  '(wrap_src, blocks) ← sum_runs (st_runs st) 0 0;
  '(end_, blocks) ←
    (if decide (st_end st = 0) then Some (wrap_src, blocks)
     else if decide (wrap_src < st_end st) then
       (* A wrapped disk; a division by 0 is undefined.  *)
       if decide (wrap_src = 0) then None else
       let num_iters := u64 (Z.quot (st_end st) wrap_src) in
       let last_part_base := s64 (num_iters * wrap_src) in
       let blocks := s64 (blocks * num_iters) in
       blocks ← last_part_blocks (st_runs st) last_part_base (st_end st) blocks;
       Some (st_end st, blocks)
     else Some (st_end st, blocks));
  let size := s64 (end_ * bsize) in
  if decide (bsize = 0) then Some (with_derived end_ wrap_src blocks size 0 0 st)
  else
    log2 ← log2_block_size_loop 32 0 bsize;
    if decide (u64 (s32 (Z.shiftl 1 log2)) = bsize) then
      log2_pp ← log2_blocks_per_page_loop 64 0 bsize;
      if decide (u64 (Z.shiftl bsize log2_pp) = vm_page_size) then
        Some (with_derived end_ wrap_src blocks size log2 log2_pp st)
      else None
    else None.

(** ** Creation *)

(** The size in bytes of the copy is an [unsigned int]; when it does not fit,
    the copy is shorter than [num_runs] says. *)
Definition store_set_runs (st : store) (rs : list store_run) (o : allocs) : outcome store :=
  if decide (zlen rs * 16 < 2 ^ 32) then
    let '(ok, o) := alloc o in
    if ok then
      let st := with_runs rs st in
      st ← (if decide (0 < st_block_size st) then _store_derive st else Some st);
      Some (inr st, o)
    else Some (inl ENOMEM, o)
  else None.

Definition store_set_name (st : store) (name : list Z) (o : allocs) : outcome store :=
  let '(ok, o) := alloc o in
  if ok then Some (inr (with_name_misc (Some name) (st_misc st) (st_misc_len st) st), o)
  else Some (inl ENOMEM, o).

(** The port right given up is not modelled. *)
Definition store_close_source (st : store) : store :=
  if decide (st_source st ≠ MACH_PORT_NULL) then with_source MACH_PORT_NULL st else st.

Definition _store_create (class : file_storage_class) (port flags block_size : Z)
    (rs : list store_run) (end_ : Z) (o : allocs) : outcome store :=
  if decide (Z.land block_size (u64 (block_size - 1)) ≠ 0 ∨ block_size = 0 ∧ rs ≠ []) then
    Some (inl EINVAL, o)
  else
    let '(ok, o) := alloc o in
    if ok then
      store_set_runs
        (Store MACH_PORT_NULL [] end_ 0 0 None port block_size 0 0 0 0 flags None 0 class [])
        rs o
    else Some (inl ENOMEM, o).
End derive.


(** ** Runs *)

(** The walk down the run list: the offset in the run and its index. *)
Fixpoint find_run (tail : list store_run) (index addr : Z) : option (option (Z * Z)) :=
  match tail with
  | [] => Some None
  | r :: tail' =>
      if decide (addr < run_length r) then Some (Some (addr, index))
      else addr ← chk64 (addr - run_length r); find_run tail' (index + 1) addr
  end.

(** The result is [-1] ([None]) or the offset in the run, the run's index and the
    base; the run and the end of the runs are given by the index. *)
Definition store_find_first_run (st : store) (addr : Z) : option (option (Z * Z * Z)) :=
  '(base, addr) ←
    (if decide (st_wrap_src st ≤ addr < st_end st) then
       if decide (st_wrap_dst st = 0 ∨ st_wrap_src st = 0) then None
       else Some (Z.quot addr (st_wrap_dst st), Z.rem addr (st_wrap_src st))
     else Some (0, addr));
  found ← find_run (st_runs st) 0 addr;
  Some (match found with
        | Some (addr, index) => Some (addr, index, base)
        | None => None
        end).

(** Whether things are still kosher, with the new index and base. *)
Definition store_next_run (st : store) (index base : Z) : option (bool * Z * Z) :=
  let index := index + 1 in
  if decide (index = zlen (st_runs st)) then
    base ← chk64 (base + st_wrap_dst st);
    Some (bool_decide (base < st_end st), 0, base)
  else Some (true, index, base).

(** ** Writing

    A write method takes the underlying address, the index of the run and the
    bytes; it returns the error code and the amount written, if it was set. *)
Abbreviation write_res W := (option (error_t * option Z * W)).
Abbreviation write_meth W := (Z → Z → list Z → W → write_res W).

Section write.
Context {W : Type} (st : store) (write : write_meth W).

(** The rest of a write after its first run; [written] bytes are done. *)
Fixpoint write_loop (fuel : nat) (index base : Z) (buf : list Z) (written : Z) (w : W)
    : write_res W :=
  match fuel with
  | O => None
  | S fuel' =>
      let len := zlen buf in
      '(kosher, index, base) ← store_next_run st index base;
      if negb kosher then Some (E0, Some written, w) else
      run ← st_runs st !z index;
      if decide (run_start run < 0) then Some (E0, Some written, w) else
      let try := if decide (Z.shiftr len (st_log2_block_size st) ≤ u64 (run_length run))
                 then len else u64 (Z.shiftl (run_length run) (st_log2_block_size st)) in
      addr ← chk64 (base + run_start run);
      '(err, seg_written, w) ← write addr index (take (Z.to_nat try) buf) w;
      if decide (err ≠ E0) then Some (err, Some written, w) else
      seg_written ← seg_written;
      let written := written + seg_written in
      if decide (seg_written < try) then Some (E0, Some written, w) else
      if decide (len - seg_written = 0) then Some (E0, Some written, w) else
      write_loop fuel' index base (drop (Z.to_nat seg_written) buf) written w
  end.

(** A write that the first run does not hold: [first] blocks of it do, at the
    underlying address [uaddr]. *)
Definition write_split (first uaddr index base : Z) (buf : list Z) (w : W) : write_res W :=
  let try := u64 (Z.shiftl first (st_log2_block_size st)) in
  '(err, written, w) ← write uaddr index (take (Z.to_nat try) buf) w;
  if decide (err ≠ E0) then Some (err, written, w) else
  written ← written;
  if decide (written = try) then
    write_loop (S (length (st_runs st)) * S (length buf)) index base
      (drop (Z.to_nat written) buf) written w
  else Some (E0, Some written, w).

Definition store_write_with (addr : Z) (buf : list Z) (w : W) : write_res W :=
  let len := zlen buf in
  let block_shift := st_log2_block_size st in
  if decide (Z.land (st_flags st) STORE_READONLY ≠ 0) then Some (EROFS, None, w) else
  if decide (u64 (st_size st) < u64 (s64 (Z.shiftl addr block_shift) + len)) then
    Some (EIO, None, w) else
  if decide (st_block_size st ≠ 0 ∧ Z.land len (st_block_size st - 1) ≠ 0) then
    Some (EINVAL, None, w) else
  first ← store_find_first_run st addr;
  match first with
  | None => Some (EIO, None, w)
  | Some (addr, index, base) =>
      if decide (addr < 0) then Some (EIO, None, w) else
      run ← st_runs st !z index;
      uaddr ← chk64 (base + run_start run + addr);
      if decide (Z.shiftr len block_shift ≤ u64 (run_length run - addr)) then
        write uaddr index buf w
      else write_split (run_length run - addr) uaddr index base buf w
  end.
End write.

(** ** Reading

    The buffer a read returns: its bytes, and whether it is memory allocated for
    the reply instead of the buffer of [cap] bytes the caller has provided. *)
Abbreviation read_res := (outcome (list Z * bool)).
Abbreviation read_meth := (Z → Z → Z → Z → list bool → read_res).

Section read.
Context (st : store) (read : read_meth).

(** [seg_read]: [got] is what is between [whole_buf] and [buf_end]; more than
    the buffer of [whole_buf_len] bytes holds is an overflow.  The new [got], the
    new [amount] and [all]. *)
Definition seg_read (index addr len : Z) (got : list Z) (amount whole_buf_len : Z) (o : allocs)
    : outcome (list Z * Z * bool) :=
  match read addr index len len o with
  | None => None
  | Some (inl err, o) => Some (inl err, o)
  | Some (inr (data, _), o) =>
      if decide (zlen got + zlen data ≤ whole_buf_len) then
        Some (inr (got ++ data, u64 (amount - zlen data), bool_decide (zlen data = len)), o)
      else None
  end.

(** The loop over the runs after the first one, from [all] being true. *)
Fixpoint read_loop (fuel : nat) (index base : Z) (got : list Z) (amount whole_buf_len : Z)
    (o : allocs) : option (error_t * list Z * allocs) :=
  match fuel with
  | O => None
  | S fuel' =>
      if decide (amount = 0) then Some (E0, got, o) else
      '(kosher, index, base) ← store_next_run st index base;
      if negb kosher then Some (E0, got, o) else
      run ← st_runs st !z index;
      if decide (run_start run < 0) then Some (E0, got, o) else
      addr ← chk64 (base + run_start run);
      let len := if decide (Z.shiftr amount (st_log2_block_size st) ≤ u64 (run_length run))
                 then amount else u64 (Z.shiftl (run_length run) (st_log2_block_size st)) in
      match seg_read index addr len got amount whole_buf_len o with
      | None => None
      | Some (inl err, o) => Some (err, got, o)
      | Some (inr (got, amount, all), o) =>
          if all then read_loop fuel' index base got amount whole_buf_len o
          else Some (E0, got, o)
      end
  end.

(** A read that the first run does not hold: [first] blocks of it do, at the
    underlying address [uaddr].  The unmapping of the unused pages at the end of
    an allocated buffer does not show in the result. *)
Definition read_split (first uaddr index base amount cap : Z) (o : allocs) : read_res :=
  let fresh := bool_decide (cap < amount) in
  let '(ok, o) := if fresh then alloc o else (true, o) in
  if negb ok then Some (inl ENOMEM, o) else
  let whole_buf_len := if fresh then amount else cap in
  '(err, got, o) ←
    match seg_read index uaddr (u64 (Z.shiftl first (st_log2_block_size st)))
            [] amount whole_buf_len o with
    | None => None
    | Some (inl err, o) => Some (err, [], o)
    | Some (inr (got, amount, all), o) =>
        if all then
          read_loop (S (length (st_runs st)) * S (Z.to_nat amount)) index base got amount
            whole_buf_len o
        else Some (E0, got, o)
    end;
  if decide (err ≠ E0 ∧ zlen got = 0) then Some (inl err, o)
  else Some (inr (got, fresh), o).

Definition store_read_with (addr amount cap : Z) (o : allocs) : read_res :=
  let block_shift := st_log2_block_size st in
  first ← store_find_first_run st addr;
  match first with
  | None => Some (inl EIO, o)
  | Some (addr, index, base) =>
      if decide (addr < 0) then Some (inl EIO, o) else
      run ← st_runs st !z index;
      if decide (run_start run < 0) then Some (inl EIO, o) else
      let pos := s64 (Z.shiftl addr block_shift) in
      let amount := if decide (u64 (st_size st) < u64 (pos + amount))
                    then u64 (st_size st - pos) else amount in
      if decide (st_block_size st ≠ 0 ∧ Z.land amount (st_block_size st - 1) ≠ 0) then
        Some (inl EINVAL, o) else
      uaddr ← chk64 (base + run_start run + addr);
      if decide (Z.shiftr amount block_shift ≤ u64 (run_length run - addr)) then
        read uaddr index amount cap o
      else read_split (run_length run - addr) uaddr index base amount cap o
  end.
End read.

(** ** Class methods *)

(** What is below the leaves of a tree of stores: the read and write methods of
    the classes that do their input and output by remote procedure calls. *)
Class Media (W : Type) := {
  media_read : W → store → read_meth;
  media_write : store → write_meth W
}.

(** [*len < amount]: the pages of the new mapping are zero. *)
Definition zero_read (addr index amount cap : Z) (o : allocs) : read_res :=
  if decide (cap < amount) then
    let '(ok, o) := alloc o in
    if ok then Some (inr (replicate (Z.to_nat amount) 0, true), o) else Some (inl ENOMEM, o)
  else Some (inr (replicate (Z.to_nat amount) 0, false), o).

Definition zero_write {W} (addr index : Z) (buf : list Z) (w : W) : write_res W :=
  Some (E0, Some (zlen buf), w).

(** The shift of [addr_adj] by a negative amount is undefined. *)
Definition addr_adj (addr : Z) (st stripe : store) : option Z :=
  let common_bs := st_log2_block_size st in
  let stripe_bs := st_log2_block_size stripe in
  if decide (common_bs = stripe_bs) then Some addr
  else if decide (stripe_bs < common_bs) then chk64 (Z.shiftl addr (common_bs - stripe_bs))
  else None.

(** [kids] are [store_read] of each of the children. *)
Definition remap_read (kids : list (Z → Z → Z → allocs → read_res)) : read_meth :=
  λ addr index amount cap o, kid ← kids !z 0; kid addr amount cap o.

Definition stripe_read (st : store) (kids : list (Z → Z → Z → allocs → read_res)) : read_meth :=
  λ addr index amount cap o,
    stripe ← st_children st !z index; kid ← kids !z index;
    addr ← addr_adj addr st stripe; kid addr amount cap o.

Definition remap_write {W} (kids : list (Z → list Z → W → write_res W)) : write_meth W :=
  λ addr index buf w, kid ← kids !z 0; kid addr buf w.

Definition stripe_write {W} (st : store) (kids : list (Z → list Z → W → write_res W))
    : write_meth W :=
  λ addr index buf w,
    stripe ← st_children st !z index; kid ← kids !z index;
    addr ← addr_adj addr st stripe; kid addr buf w.

Section rdwr.
Context {W : Type} `{Media W}.

(** [store->class->read] *)
Definition class_read (w : W) (st : store) (kids : list (Z → Z → Z → allocs → read_res))
    : read_meth :=
  match st_class st with
  | STORAGE_ZERO => zero_read
  | STORAGE_REMAP => remap_read kids
  | STORAGE_CONCAT | STORAGE_INTERLEAVE => stripe_read st kids
  | _ => media_read w st
  end.

Definition class_write (st : store) (kids : list (Z → list Z → W → write_res W))
    : write_meth W :=
  match st_class st with
  | STORAGE_ZERO => zero_write
  | STORAGE_REMAP => remap_write kids
  | STORAGE_CONCAT | STORAGE_INTERLEAVE => stripe_write st kids
  | _ => media_write st
  end.

Fixpoint store_read (w : W) (st : store) (addr amount cap : Z) (o : allocs) : read_res :=
  store_read_with st (class_read w st (List.map (store_read w) (st_children st)))
    addr amount cap o.

Fixpoint store_write (st : store) (addr : Z) (buf : list Z) (w : W) : write_res W :=
  store_write_with st (class_write st (List.map store_write (st_children st))) addr buf w.
End rdwr.
