(* ===== verification/StoreRefine.v ===== *)
(** * Stores: a store is an array of blocks

    The abstract view of the stores of [Store.v] and the proofs that
    [store_read] and [store_write] implement it.  [runs_map] is one node's
    translation of its addresses; [tree_map] the composition of the nodes on
    the way down to the leaves.  [level_ok] is the invariant that creation
    establishes for a store whose runs do not repeat. *)

From S2P Require Import Prelude Store.

(** ** The address map of one node *)

(** The place of a block: the index of its run and the underlying address. *)
Abbreviation place := (Z * Z)%type.

Definition run_map (i : Z) (r : store_run) : list (option place) :=
  if decide (run_start r < 0) then replicate (Z.to_nat (run_length r)) None
  else (λ a, Some (i, a)) <$> seqZ (run_start r) (run_length r).

Fixpoint runs_map (i : Z) (rs : list store_run) : list (option place) :=
  match rs with
  | [] => []
  | r :: rs' => run_map i r ++ runs_map (i + 1) rs'
  end.

Fixpoint total_length (rs : list store_run) : Z :=
  match rs with
  | [] => 0
  | r :: rs' => run_length r + total_length rs'
  end.

(** Blocks of storage, holes not counted. *)
Fixpoint stored_length (rs : list store_run) : Z :=
  match rs with
  | [] => 0
  | r :: rs' => (if decide (0 ≤ run_start r) then run_length r else 0) + stored_length rs'
  end.

Definition run_ok (r : store_run) : Prop :=
  0 < run_length r ∧ -1 ≤ run_start r ∧ run_start r + run_length r < 2 ^ 63.

#[export] Instance run_ok_dec r : Decision (run_ok r).
Proof. unfold run_ok. apply _. Defined.

(** A read that returns the [n] bytes [data]; memory is allocated for them unless
    the caller's buffer of [cap] bytes holds them. *)
Definition delivers (cap n : Z) (data : list Z) (r : read_res) : Prop :=
  ∃ fresh, r = Some (inr (data, fresh), []) ∧ (fresh = false → n ≤ cap).

(** A store with a power of two as block size whose runs do not repeat. *)
Record level_ok (bs : Z) (st : store) : Prop := {
  lo_block_size : st_block_size st = bs;
  lo_log2 : 0 ≤ st_log2_block_size st;
  lo_pow : bs = 2 ^ st_log2_block_size st;
  lo_runs : Forall run_ok (st_runs st);
  lo_wrap : st_wrap_src st = total_length (st_runs st);
  lo_end : st_end st = st_wrap_src st;
  lo_size : st_size st = st_end st * bs;
  lo_bound : st_size st < 2 ^ 63;
}.

Lemma length_run_map i r : run_ok r → zlen (run_map i r) = run_length r.
Proof.
  intros [? _]. unfold run_map. case_decide.
  - rewrite length_replicate. lia.
  - rewrite length_fmap, length_seqZ. lia.
Qed.

Lemma runs_map_app i rs rs' :
  runs_map i (rs ++ rs') = runs_map i rs ++ runs_map (i + zlen rs) rs'.
Proof.
  revert i. induction rs as [|r rs IH]; intros i; simpl.
  - f_equal. lia.
  - rewrite IH, app_assoc. do 2 f_equal. lia.
Qed.

Lemma length_runs_map i rs : Forall run_ok rs → zlen (runs_map i rs) = total_length rs.
Proof.
  intros H. revert i. induction H as [|r rs Hr _ IH]; intros i; [done|].
  simpl. rewrite length_app, Nat2Z.inj_add, length_run_map, IH by done. done.
Qed.

Lemma total_length_app rs rs' : total_length (rs ++ rs') = total_length rs + total_length rs'.
Proof. induction rs as [|r rs IH]; simpl; lia. Qed.

Lemma total_length_nonneg rs : Forall run_ok rs → 0 ≤ total_length rs.
Proof. intros H. rewrite <-(length_runs_map 0) by done. lia. Qed.

(** The run an address is in. *)
Lemma run_split rs a :
  Forall run_ok rs → 0 ≤ a < total_length rs →
  ∃ pre r suf off, rs = pre ++ r :: suf ∧ a = total_length pre + off ∧ 0 ≤ off < run_length r.
Proof.
  intros H. revert a. induction H as [|r rs Hr Hrs IH]; intros a Ha; [simpl in Ha; lia|].
  destruct (decide (a < run_length r)) as [|Hge].
  - exists [], r, rs, a. split_and!; simpl; try done; lia.
  - destruct (IH (a - run_length r)) as (pre & r' & suf & off & -> & Heq & Hoff).
    { simpl in Ha. lia. }
    exists (r :: pre), r', suf, off. split_and!; simpl; try done; lia.
Qed.

Lemma find_run_split pre r suf i off :
  Forall run_ok pre → 0 ≤ off < run_length r → total_length pre + off < 2 ^ 63 →
  find_run (pre ++ r :: suf) i (total_length pre + off) = Some (Some (off, i + zlen pre)).
Proof.
  intros H Hoff. revert i. induction H as [|r' pre Hr' Hpre IH]; intros i Hb; simpl.
  - rewrite decide_True by lia. do 3 f_equal. lia.
  - pose proof (total_length_nonneg pre Hpre) as Hnn. simpl in Hb. pose proof (proj1 Hr') as Hpos.
    rewrite decide_False by lia. rewrite chk64_Some by lia. cbn [mbind option_bind].
    replace (run_length r' + _ + off - run_length r')
      with (total_length pre + off) by lia.
    rewrite IH by lia. do 3 f_equal. lia.
Qed.

Lemma find_run_none rs i a :
  Forall run_ok rs → total_length rs ≤ a < 2 ^ 63 → find_run rs i a = Some None.
Proof.
  intros H. revert i a. induction H as [|r rs [Hr _] Hrs IH]; intros i a Ha; [done|].
  pose proof (total_length_nonneg rs Hrs). simpl in *.
  rewrite decide_False by lia. rewrite chk64_Some by lia. cbn [mbind option_bind].
  apply IH. lia.
Qed.

(** ** Prefixes of an address map *)
Lemma prefix_seg i s l rest (ts : list place) :
  0 ≤ l → Some <$> ts `prefix_of` ((λ a, Some (i, a)) <$> seqZ s l) ++ rest →
  ∃ ts', ts = (pair i <$> seqZ s (Z.min (zlen ts) l)) ++ ts' ∧ Some <$> ts' `prefix_of` rest.
Proof.
  intros Hl. revert s ts. induction (Z.to_nat l) as [|n IH] eqn:Hn in l, Hl |- *; intros s ts Hp.
  - assert (l = 0) as -> by lia. exists ts. split; [|done].
    by rewrite Z.min_r by lia.
  - destruct ts as [|t ts]; [exists []; split; [|apply prefix_nil]|].
    { by rewrite Z.min_l by (simpl; lia). }
    rewrite seqZ_cons in Hp by lia. simpl in Hp.
    apply prefix_cons_inv_1 in Hp as Ht. apply prefix_cons_inv_2 in Hp.
    injection Ht as ->. destruct (IH (Z.pred l)) with (s := Z.succ s) (ts := ts)
      as (ts' & Heq & Hpre); [lia|lia|done|].
    exists ts'. split; [|done]. rewrite seqZ_cons by (simpl; lia). simpl. f_equal.
    rewrite Heq at 1. do 3 f_equal. simpl. lia.
Qed.

Lemma prefix_hole i r rest (ts : list place) :
  run_ok r → run_start r < 0 → Some <$> ts `prefix_of` run_map i r ++ rest → ts = [].
Proof.
  intros [Hr _] Hs Hp. unfold run_map in Hp. rewrite decide_True in Hp by done.
  destruct ts as [|t ts]; [done|]. destruct (Z.to_nat (run_length r)) eqn:E; [lia|].
  simpl in Hp. by apply prefix_cons_inv_1 in Hp.
Qed.

Lemma drop_seqZ s l n : 0 ≤ n ≤ l → drop (Z.to_nat n) (seqZ s l) = seqZ (s + n) (l - n).
Proof.
  intros Hn. rewrite <-(Zplus_minus n l) at 1. rewrite seqZ_app by lia.
  rewrite drop_app_length'; [done|rewrite length_seqZ; lia].
Qed.

(** ** Blocks of a buffer *)
Fixpoint chunks (bs n : nat) (buf : list Z) : list (list Z) :=
  match n with
  | O => []
  | S n' => take bs buf :: chunks bs n' (drop bs buf)
  end.

Lemma chunks_add bs n m buf :
  chunks bs (n + m) buf = chunks bs n (take (n * bs) buf) ++ chunks bs m (drop (n * bs) buf).
Proof.
  revert buf. induction n as [|n IH]; intros buf; simpl; [done|].
  rewrite IH, take_drop_commute, drop_drop, take_take.
  by replace (bs `min` (bs + n * bs))%nat with bs by lia.
Qed.

Lemma length_chunks bs n buf : length (chunks bs n buf) = n.
Proof. revert buf. induction n; simpl; auto. Qed.

Lemma concat_chunks bs n buf : length buf = (n * bs)%nat → mjoin (chunks bs n buf) = buf.
Proof.
  revert buf. induction n as [|n IH]; intros buf Hl; simpl.
  - destruct buf; [done|simpl in Hl; lia].
  - rewrite IH by (rewrite length_drop; lia). apply take_drop.
Qed.

(** ** One node *)
Section level.
Context (bs : Z) (st : store) (Hst : level_ok bs st).

Lemma bs_pos : 0 < bs.
Proof. rewrite (lo_pow _ _ Hst). apply Z.pow_pos_nonneg; [lia|apply (lo_log2 _ _ Hst)]. Qed.

Lemma shiftr_blocks n : Z.shiftr (n * bs) (st_log2_block_size st) = n.
Proof.
  pose proof bs_pos. pose proof (lo_log2 _ _ Hst).
  rewrite Z.shiftr_div_pow2, <-(lo_pow _ _ Hst) by done. apply Z.div_mul. lia.
Qed.

Lemma shiftl_blocks n : Z.shiftl n (st_log2_block_size st) = n * bs.
Proof. rewrite Z.shiftl_mul_pow2, <-(lo_pow _ _ Hst); [done|apply (lo_log2 _ _ Hst)]. Qed.

Lemma land_blocks n : Z.land (n * bs) (st_block_size st - 1) = 0.
Proof.
  pose proof bs_pos. rewrite (lo_block_size _ _ Hst).
  assert (bs - 1 = 2 ^ st_log2_block_size st - 1) as -> by (by rewrite <-(lo_pow _ _ Hst)).
  rewrite land_mask, <-(lo_pow _ _ Hst) by apply (lo_log2 _ _ Hst). apply Z.mod_mul. lia.
Qed.

(** Amounts of blocks inside the store fit in all of the code's integers. *)
Lemma blocks_fit n : 0 ≤ n ≤ total_length (st_runs st) → 0 ≤ n * bs < 2 ^ 63.
Proof.
  intros Hn. pose proof bs_pos. pose proof (lo_bound _ _ Hst) as Hb.
  rewrite (lo_size _ _ Hst), (lo_end _ _ Hst), (lo_wrap _ _ Hst) in Hb. nia.
Qed.

Lemma run_length_fit r : r ∈ st_runs st → run_length r ≤ total_length (st_runs st).
Proof.
  intros (pre & suf & Heq)%list_elem_of_split. pose proof (lo_runs _ _ Hst) as Hr.
  rewrite Heq in *. apply Forall_app in Hr as [Hpre Hr].
  apply Forall_cons in Hr as [_ Hsuf]. rewrite total_length_app. simpl.
  pose proof (total_length_nonneg pre Hpre). pose proof (total_length_nonneg suf Hsuf). lia.
Qed.

(** The runs are entered at the place [runs_map] gives; [ts] are the places of
    the blocks from there on. *)
Lemma first_run_spec a (ts : list place) :
  0 ≤ a → ts ≠ [] → Some <$> ts `prefix_of` drop (Z.to_nat a) (runs_map 0 (st_runs st)) →
  ∃ pre r suf off ts',
    st_runs st = pre ++ r :: suf ∧ store_find_first_run st a = Some (Some (off, zlen pre, 0))
    ∧ st_runs st !z zlen pre = Some r ∧ 0 ≤ off < run_length r ∧ 0 ≤ run_start r
    ∧ run_start r + run_length r < 2 ^ 63 ∧ run_length r ≤ total_length (st_runs st) ∧ off ≤ a
    ∧ ts = (pair (zlen pre) <$> seqZ (run_start r + off) (Z.min (zlen ts) (run_length r - off))) ++ ts'
    ∧ Some <$> ts' `prefix_of` runs_map (zlen (pre ++ [r])) suf
    ∧ a + zlen ts ≤ total_length (st_runs st).
Proof.
  intros Ha Hne Hp. pose proof (lo_runs _ _ Hst) as Hruns.
  assert (Hlt : a + zlen ts ≤ total_length (st_runs st) ∧ 0 < zlen ts).
  { apply prefix_length in Hp. rewrite length_fmap, length_drop in Hp.
    destruct ts; [done|]. simpl in *. rewrite <-(length_runs_map 0) by done. lia. }
  destruct (run_split (st_runs st) a Hruns) as (pre & r & suf & off & Heq & -> & Hoff); [lia|].
  rewrite Heq in Hruns. apply Forall_app in Hruns as [Hpre Hruns].
  apply Forall_cons in Hruns as [Hr Hsuf].
  pose proof (total_length_nonneg pre Hpre) as Hnn.
  rewrite Heq, runs_map_app, drop_app_ge in Hp by (rewrite <-(length_runs_map 0 pre) by done; lia).
  replace (Z.to_nat _ - length _)%nat with (Z.to_nat off) in Hp
    by (pose proof (length_runs_map 0 pre Hpre); lia).
  simpl runs_map in Hp. rewrite drop_app_le in Hp by (pose proof (length_run_map (0 + zlen pre) r Hr); lia).
  assert (Hs : 0 ≤ run_start r).
  { destruct (decide (run_start r < 0)) as [Hh|]; [|lia]. exfalso. unfold run_map in Hp.
    rewrite decide_True in Hp by done. rewrite drop_replicate in Hp. destruct ts as [|t ts]; [done|].
    destruct (Z.to_nat (run_length r) - Z.to_nat off)%nat eqn:E; [lia|].
    simpl in Hp. by apply prefix_cons_inv_1 in Hp. }
  unfold run_map in Hp. rewrite decide_False in Hp by lia.
  rewrite <-fmap_drop, drop_seqZ, Z.add_0_l in Hp by lia.
  apply prefix_seg in Hp as (ts' & Hts & Hp); [|lia].
  exists pre, r, suf, off, ts'. split_and!; try done; try lia; try apply Hr.
  2:{ rewrite Heq. by apply lookupz_mid. }
  2:{ apply run_length_fit. rewrite Heq. set_solver. }
  2:{ by rewrite length_app, Nat2Z.inj_add. }
  unfold store_find_first_run. rewrite decide_False.
  - cbn [mbind option_bind]. pose proof (blocks_fit (total_length pre + off)) as Hf.
    pose proof bs_pos. rewrite Heq, find_run_split; [done|done|done|].
    assert (total_length pre + off < total_length (st_runs st)) by lia.
    destruct Hf as [_ Hf]; [lia|nia].
  - rewrite (lo_end _ _ Hst). lia.
Qed.

(** A later run is entered at its start. *)
Lemma later_run_spec pre r suf (ts : list place) :
  st_runs st = pre ++ r :: suf → pre ≠ [] → ts ≠ [] →
  Some <$> ts `prefix_of` runs_map (zlen pre) (r :: suf) →
  ∃ m ts', store_next_run st (zlen pre - 1) 0 = Some (true, zlen pre, 0)
    ∧ st_runs st !z zlen pre = Some r ∧ 0 ≤ run_start r
    ∧ run_start r + run_length r < 2 ^ 63 ∧ run_length r ≤ total_length (st_runs st)
    ∧ zlen ts ≤ total_length (st_runs st) ∧ m = Z.min (zlen ts) (run_length r) ∧ 0 < m
    ∧ ts = (pair (zlen pre) <$> seqZ (run_start r) m) ++ ts' ∧ zlen ts = m + zlen ts'
    ∧ Some <$> ts' `prefix_of` runs_map (zlen (pre ++ [r])) suf.
Proof.
  intros Heq Hne Hts Hp. assert (0 < zlen ts) by (destruct ts; [done|simpl; lia]).
  assert (Hrr : r ∈ st_runs st) by (rewrite Heq; set_solver).
  pose proof (proj1 (Forall_forall _ _) (lo_runs _ _ Hst) r Hrr) as Hr.
  pose proof (run_length_fit r Hrr) as Hfit.
  assert (Hs : 0 ≤ run_start r).
  { destruct (decide (run_start r < 0)); [|lia]. by apply prefix_hole in Hp. }
  assert (Htot : zlen ts ≤ total_length (st_runs st)).
  { apply prefix_length in Hp. rewrite length_fmap in Hp.
    pose proof (lo_runs _ _ Hst) as Hall. rewrite Heq, Forall_app in Hall. destruct Hall as [H1 H2].
    rewrite Heq, total_length_app, <-(length_runs_map (zlen pre) _ H2).
    pose proof (total_length_nonneg pre H1). lia. }
  cbn [runs_map] in Hp. unfold run_map in Hp. rewrite decide_False in Hp by lia.
  destruct Hr as (Hlen & _ & Hbnd). apply prefix_seg in Hp as (ts' & Hsplit & Hp); [|lia].
  exists (Z.min (zlen ts) (run_length r)), ts'. unfold store_next_run.
  replace (zlen pre - 1 + 1) with (zlen pre) by lia.
  rewrite decide_False by (rewrite Heq, length_app; simpl; lia).
  split_and!; try done; try lia.
  - rewrite Heq. by apply lookupz_mid.
  - apply (f_equal length) in Hsplit. rewrite length_app, length_fmap, length_seqZ in Hsplit. lia.
  - by rewrite length_app, Nat2Z.inj_add.
Qed.

(** The byte position of a transfer, and its end, do not overflow or pass the end. *)
Lemma transfer_fits off n :
  0 ≤ off → 0 ≤ n → off + n ≤ total_length (st_runs st) →
  s64 (off * bs) = off * bs ∧ u64 (off * bs + n * bs) ≤ u64 (st_size st).
Proof.
  intros Ho Hn Hle. pose proof bs_pos. pose proof (blocks_fit off). pose proof (blocks_fit (off + n)).
  pose proof (blocks_fit (total_length (st_runs st))).
  rewrite (lo_size _ _ Hst), (lo_end _ _ Hst), (lo_wrap _ _ Hst), <-Z.mul_add_distr_r.
  split; [apply s64_id; lia|]. rewrite !u64_id by lia. apply Z.mul_le_mono_nonneg_r; lia.
Qed.

(** The bytes of the next transfer: at most what is left and what the run has. *)
Lemma transfer_length n r :
  r ∈ st_runs st → 0 ≤ n ≤ total_length (st_runs st) →
  (if decide (Z.shiftr (n * bs) (st_log2_block_size st) ≤ u64 (run_length r)) then n * bs
   else u64 (Z.shiftl (run_length r) (st_log2_block_size st))) = Z.min n (run_length r) * bs.
Proof.
  intros Hr Hn. pose proof bs_pos. pose proof (run_length_fit r Hr).
  pose proof (proj1 (Forall_forall _ _) (lo_runs _ _ Hst) r Hr) as (Hlen & _ & Hb).
  pose proof (blocks_fit (run_length r)). rewrite shiftr_blocks, shiftl_blocks, !u64_id by nia.
  case_decide; f_equal; lia.
Qed.

(** *** Reading *)
Context (ok : place → Prop) (blk : place → list Z).
Hypothesis blk_length : ∀ t, ok t → zlen (blk t) = bs.

(** The read method of the node returns what is at consecutive places of a run. *)
Definition reads (read : read_meth) : Prop :=
  ∀ i a m cap, 0 < m → 0 ≤ a → a + m < 2 ^ 63 → Forall ok (pair i <$> seqZ a m) →
    delivers cap (m * bs) (mjoin (blk <$> (pair i <$> seqZ a m))) (read a i (m * bs) cap []).

Lemma length_blocks ts : Forall ok ts → zlen (mjoin (blk <$> ts)) = zlen ts * bs.
Proof.
  induction 1 as [|t ts Ht _ IH]; [done|].
  change (mjoin (blk <$> t :: ts)) with (blk t ++ mjoin (blk <$> ts)). rewrite length_app, Nat2Z.inj_add, IH.
  rewrite blk_length by done. simpl. lia.
Qed.

Lemma seg_read_spec read i a m got n whole :
  reads read → 0 < m ≤ n → 0 ≤ a → a + m < 2 ^ 63 → n ≤ total_length (st_runs st) →
  Forall ok (pair i <$> seqZ a m) → zlen got + m * bs ≤ whole →
  seg_read read i a (m * bs) got (n * bs) whole [] =
    Some (inr (got ++ mjoin (blk <$> (pair i <$> seqZ a m)), (n - m) * bs, true), []).
Proof.
  intros Hread Hm Ha Hb Hn Hok Hw. unfold seg_read.
  destruct (Hread i a m (m * bs)) as (fresh & -> & _); [lia..|done|].
  assert (Hl : zlen (mjoin (blk <$> (pair i <$> seqZ a m))) = m * bs).
  { rewrite length_blocks by done. rewrite length_fmap, length_seqZ. f_equal. lia. }
  rewrite Hl, decide_True by lia. do 4 f_equal; [|by apply bool_decide_true].
  f_equal. pose proof (blocks_fit (n - m)). rewrite u64_id; lia.
Qed.

Lemma read_loop_spec read suf pre fuel ts got whole :
  reads read → st_runs st = pre ++ suf → pre ≠ [] →
  Some <$> ts `prefix_of` runs_map (zlen pre) suf → Forall ok ts → (length suf < fuel)%nat →
  zlen got + zlen ts * bs ≤ whole →
  read_loop st read fuel (zlen pre - 1) 0 got (zlen ts * bs) whole [] =
    Some (E0, got ++ mjoin (blk <$> ts), []).
Proof.
  intros Hread. revert pre fuel ts got.
  induction suf as [|r suf IH]; intros pre [|fuel] ts got Heq Hne Hp Hok Hf Hw; try (simpl in Hf; lia).
  { apply prefix_nil_inv, fmap_nil_inv in Hp as ->. simpl. by rewrite app_nil_r. }
  destruct (decide (ts = [])) as [->|Hts0]; [simpl; by rewrite app_nil_r|].
  assert (Hts : 0 < zlen ts) by (destruct ts; [done|simpl; lia]). pose proof bs_pos.
  destruct (later_run_spec pre r suf ts Heq Hne Hts0 Hp)
    as (m & ts1 & Hnext & Hrun & Hs & Hbnd & Hfit & Htot & Hm & Hmpos & Hsplit & Hl1 & Hp1).
  cbn [read_loop]. rewrite decide_False by nia. rewrite Hnext. cbn [mbind option_bind negb].
  rewrite Hrun. cbn [mbind option_bind]. rewrite decide_False by lia.
  rewrite chk64_Some by lia. cbn [mbind option_bind].
  rewrite transfer_length, <-Hm by (by eapply lookupz_elem_of || lia).
  rewrite Hsplit in Hok. apply Forall_app in Hok as [Hok Hok1].
  rewrite Z.add_0_l, seg_read_spec by (done || lia || nia).
  replace (zlen ts - m) with (zlen ts1) by lia. subst ts.
  set (seg := pair (zlen pre) <$> seqZ (run_start r) m) in *.
  assert (Hidx : zlen pre = zlen (pre ++ [r]) - 1) by (rewrite length_app; simpl; lia).
  rewrite Hidx, IH; try done.
  - by rewrite fmap_app, join_app, app_assoc.
  - by rewrite Heq, <-app_assoc.
  - by destruct pre.
  - simpl in Hf. lia.
  - rewrite length_app, Nat2Z.inj_add, length_blocks by done.
    rewrite length_app in Hw. lia.
Qed.

Lemma read_split_spec read pre r suf off ts ts1 n cap :
  reads read → st_runs st = pre ++ r :: suf → 0 ≤ off < run_length r → 0 ≤ run_start r →
  run_start r + run_length r < 2 ^ 63 → run_length r - off < n ≤ total_length (st_runs st) →
  n = zlen ts → ts = (pair (zlen pre) <$> seqZ (run_start r + off) (run_length r - off)) ++ ts1 →
  Forall ok ts → Some <$> ts1 `prefix_of` runs_map (zlen (pre ++ [r])) suf →
  delivers cap (n * bs) (mjoin (blk <$> ts))
    (read_split st read (run_length r - off) (run_start r + off) (zlen pre) 0 (n * bs) cap []).
Proof.
  intros Hread Heq Hoff Hs Hbnd Hn Hlen -> Hok Hp1. pose proof bs_pos.
  apply Forall_app in Hok as [Hok Hok1].
  set (seg := pair (zlen pre) <$> seqZ (run_start r + off) (run_length r - off)) in *.
  rewrite length_app, Nat2Z.inj_add in Hlen.
  assert (Hseg : zlen seg = run_length r - off) by (unfold seg; rewrite length_fmap, length_seqZ; lia).
  pose proof (blocks_fit (run_length r - off)) as Hf.
  exists (bool_decide (cap < n * bs)). split; [|rewrite bool_decide_eq_false; lia]. unfold read_split.
  assert ((if bool_decide (cap < n * bs) then alloc [] else (true, [])) = (true, [])) as ->
    by (by case_bool_decide).
  assert (Hw : n * bs ≤ if bool_decide (cap < n * bs) then n * bs else cap) by (case_bool_decide; lia).
  cbn [negb]. rewrite shiftl_blocks, u64_id, seg_read_spec; try done; try lia; [|simpl; nia].
  replace (n - (run_length r - off)) with (zlen ts1) by lia.
  assert (Hidx : zlen pre = zlen (pre ++ [r]) - 1) by (rewrite length_app; simpl; lia).
  rewrite Hidx at 1. rewrite (read_loop_spec read suf (pre ++ [r])); try done.
  - cbn [mbind option_bind]. rewrite decide_False by tauto. by rewrite fmap_app, join_app.
  - by rewrite Heq, <-app_assoc.
  - by destruct pre.
  - rewrite Heq, length_app. simpl. lia.
  - simpl. fold seg. rewrite length_blocks by done. nia.
Qed.

Lemma store_read_with_spec read a ts cap :
  reads read → 0 ≤ a → ts ≠ [] → Forall ok ts →
  Some <$> ts `prefix_of` drop (Z.to_nat a) (runs_map 0 (st_runs st)) →
  delivers cap (zlen ts * bs) (mjoin (blk <$> ts)) (store_read_with st read a (zlen ts * bs) cap []).
Proof.
  intros Hread Ha Hne Hok Hp. pose proof bs_pos.
  destruct (first_run_spec a ts Ha Hne Hp)
    as (pre & r & suf & off & ts1 & Heq & Hfirst & Hrun & Hoff & Hs & Hbnd & Hfit & Hle
        & Hsplit & Hp1 & Htot).
  assert (Hts : 0 < zlen ts) by (destruct ts; [done|simpl; lia]).
  unfold store_read_with. rewrite Hfirst. cbn [mbind option_bind].
  rewrite decide_False by lia. rewrite Hrun. cbn [mbind option_bind].
  rewrite decide_False by lia. rewrite !shiftl_blocks.
  destruct (transfer_fits off (zlen ts)) as [-> Hclamp]; [lia..|].
  rewrite (decide_False (P := u64 _ < u64 _)) by lia.
  rewrite decide_False by (rewrite land_blocks; tauto).
  rewrite Z.add_0_l, chk64_Some by lia. cbn [mbind option_bind].
  rewrite shiftr_blocks, u64_id by lia.
  destruct (decide (zlen ts ≤ run_length r - off)) as [Hall|Hmore].
  - rewrite Z.min_l in Hsplit by lia.
    assert (ts1 = []) as ->.
    { apply (f_equal length) in Hsplit. rewrite length_app, length_fmap, length_seqZ in Hsplit.
      apply nil_length_inv. lia. }
    rewrite app_nil_r in Hsplit.
    assert (Hrd : delivers cap (zlen ts * bs)
      (mjoin (blk <$> (pair (zlen pre) <$> seqZ (run_start r + off) (zlen ts))))
      (read (run_start r + off) (zlen pre) (zlen ts * bs) cap [])).
    { apply Hread; [lia..|by rewrite <-Hsplit]. }
    by rewrite <-Hsplit in Hrd.
  - rewrite Z.min_r in Hsplit by lia. eapply read_split_spec; try done; lia.
Qed.

(** *** Writing *)
Context {W : Type} (wrote : W → list (place * list Z) → W → Prop).
Hypothesis wrote_nil : ∀ w, wrote w [] w.
Hypothesis wrote_app : ∀ w ps w1 qs w2, wrote w ps w1 → wrote w1 qs w2 → wrote w (ps ++ qs) w2.

(** The blocks of [buf] go to the places [ts]. *)
Definition block_writes (ts : list place) (buf : list Z) : list (place * list Z) :=
  zip ts (chunks (Z.to_nat bs) (length ts) buf).

Definition writes (write : write_meth W) : Prop :=
  ∀ i a m buf w, 0 < m → 0 ≤ a → a + m < 2 ^ 63 → Forall ok (pair i <$> seqZ a m) →
    zlen buf = m * bs →
    ∃ w', write a i buf w = Some (E0, Some (zlen buf), w')
      ∧ wrote w (block_writes (pair i <$> seqZ a m) buf) w'.

Lemma block_writes_app ts ts' buf :
  block_writes (ts ++ ts') buf =
    block_writes ts (take (Z.to_nat (zlen ts * bs)) buf)
    ++ block_writes ts' (drop (Z.to_nat (zlen ts * bs)) buf).
Proof.
  pose proof bs_pos. unfold block_writes. rewrite length_app, chunks_add.
  rewrite zip_with_app by (by rewrite length_chunks).
  replace (Z.to_nat (zlen ts * bs)) with (length ts * Z.to_nat bs)%nat by lia. done.
Qed.

(** Writing the first [m] blocks of a buffer for [ts ++ ts1]. *)
Lemma write_seg write i a m ts1 buf w :
  writes write → 0 < m → 0 ≤ a → a + m < 2 ^ 63 → Forall ok (pair i <$> seqZ a m) →
  zlen buf = (m + zlen ts1) * bs →
  ∃ w1, write a i (take (Z.to_nat (m * bs)) buf) w = Some (E0, Some (m * bs), w1)
    ∧ zlen (drop (Z.to_nat (m * bs)) buf) = zlen ts1 * bs
    ∧ ∀ w2, wrote w1 (block_writes ts1 (drop (Z.to_nat (m * bs)) buf)) w2 →
        wrote w (block_writes ((pair i <$> seqZ a m) ++ ts1) buf) w2.
Proof.
  intros Hw Hm Ha Hb Hok Hl. pose proof bs_pos.
  assert (Ht : zlen (take (Z.to_nat (m * bs)) buf) = m * bs) by (rewrite length_take; nia).
  destruct (Hw i a m (take (Z.to_nat (m * bs)) buf) w) as (w1 & Hr & Hwr); [done..|].
  exists w1. rewrite Hr, Ht. split; [done|]. split; [rewrite length_drop; nia|].
  intros w2 H2. rewrite block_writes_app, length_fmap, length_seqZ.
  rewrite Z2Nat.id by lia. by eapply wrote_app.
Qed.

Lemma write_loop_spec write suf pre fuel ts buf written w :
  writes write → st_runs st = pre ++ suf → pre ≠ [] → ts ≠ [] →
  Some <$> ts `prefix_of` runs_map (zlen pre) suf → Forall ok ts → (length suf < fuel)%nat →
  zlen buf = zlen ts * bs →
  ∃ w', write_loop st write fuel (zlen pre - 1) 0 buf written w =
      Some (E0, Some (written + zlen buf), w')
    ∧ wrote w (block_writes ts buf) w'.
Proof.
  intros Hwrite. revert pre fuel ts buf written w.
  induction suf as [|r suf IH]; intros pre [|fuel] ts buf written w Heq Hne Hts Hp Hok Hf Hl;
    try (simpl in Hf; lia).
  { by apply prefix_nil_inv, fmap_nil_inv in Hp. }
  pose proof bs_pos.
  destruct (later_run_spec pre r suf ts Heq Hne Hts Hp)
    as (m & ts1 & Hnext & Hrun & Hs & Hbnd & Hfit & Htot & Hm & Hmpos & Hsplit & Hl1 & Hp1).
  cbn [write_loop]. rewrite Hnext. cbn [mbind option_bind negb].
  rewrite Hrun. cbn [mbind option_bind]. rewrite decide_False by lia.
  rewrite chk64_Some by lia. cbn [mbind option_bind].
  rewrite Hl, transfer_length, <-Hm by (by eapply lookupz_elem_of || lia).
  rewrite Hsplit in Hok. apply Forall_app in Hok as [Hok Hok1].
  destruct (write_seg write (zlen pre) (run_start r) m ts1 buf w) as (w1 & Hw & Hd & Hcomp);
    [done|lia..|done|by rewrite Hl, Hl1|].
  rewrite Z.add_0_l, Hw. cbn [mbind option_bind]. rewrite decide_False by tauto.
  rewrite decide_False by lia.
  destruct (decide (ts1 = [])) as [->|Hts1].
  - rewrite decide_True by (rewrite Hl1; simpl; lia). exists w1.
    split; [by replace (zlen ts) with m by (simpl in Hl1; lia)|].
    rewrite Hsplit. apply Hcomp, wrote_nil.
  - rewrite decide_False by (destruct ts1; [done|simpl in *; nia]).
    assert (Hidx : zlen pre = zlen (pre ++ [r]) - 1) by (rewrite length_app; simpl; lia).
    rewrite Hidx.
    destruct (IH (pre ++ [r]) fuel ts1 (drop (Z.to_nat (m * bs)) buf) (written + m * bs) w1)
      as (w2 & Hr & Hwr); try done; [by rewrite Heq, <-app_assoc|by destruct pre|simpl in Hf; lia|].
    exists w2. rewrite Hr, Hd, Hl1, Z.mul_add_distr_r, Z.add_assoc. split; [done|].
    rewrite Hsplit. by apply Hcomp.
Qed.

Lemma write_split_spec write pre r suf off ts ts1 buf w :
  writes write → st_runs st = pre ++ r :: suf → 0 ≤ off < run_length r → 0 ≤ run_start r →
  run_start r + run_length r < 2 ^ 63 → run_length r - off < zlen ts ≤ total_length (st_runs st) →
  zlen buf = zlen ts * bs →
  ts = (pair (zlen pre) <$> seqZ (run_start r + off) (run_length r - off)) ++ ts1 →
  Forall ok ts → Some <$> ts1 `prefix_of` runs_map (zlen (pre ++ [r])) suf →
  ∃ w', write_split st write (run_length r - off) (run_start r + off) (zlen pre) 0 buf w
      = Some (E0, Some (zlen buf), w')
    ∧ wrote w (block_writes ts buf) w'.
Proof.
  intros Hwrite Heq Hoff Hs Hbnd Hn Hl Hts Hok Hp1. pose proof bs_pos.
  assert (Hlen : zlen ts = run_length r - off + zlen ts1).
  { rewrite Hts at 1. rewrite length_app, length_fmap, length_seqZ. lia. }
  rewrite Hts in Hok. apply Forall_app in Hok as [Hok Hok1].
  pose proof (blocks_fit (run_length r - off)) as Hf.
  unfold write_split. rewrite shiftl_blocks, u64_id by lia.
  destruct (write_seg write (zlen pre) (run_start r + off) (run_length r - off) ts1 buf w)
    as (w1 & Hw & Hd & Hcomp); [done|lia..|done|by rewrite Hl, Hlen|].
  rewrite Hw. cbn [mbind option_bind]. rewrite decide_False by tauto. rewrite decide_True by done.
  assert (Hidx : zlen pre = zlen (pre ++ [r]) - 1) by (rewrite length_app; simpl; lia).
  rewrite Hidx.
  destruct (write_loop_spec write suf (pre ++ [r]) (S (length (st_runs st)) * S (length buf)) ts1
    (drop (Z.to_nat ((run_length r - off) * bs)) buf) ((run_length r - off) * bs) w1)
    as (w2 & Hr & Hwr); try done.
  - by rewrite Heq, <-app_assoc.
  - by destruct pre.
  - intros ->. simpl in Hlen. lia.
  - rewrite Heq, length_app. simpl. lia.
  - exists w2. rewrite Hr, Hd, Hl, Hlen, Z.mul_add_distr_r. split; [done|]. rewrite Hts. by apply Hcomp.
Qed.

Lemma store_write_with_spec write a ts buf w :
  writes write → Z.land (st_flags st) STORE_READONLY = 0 →
  0 ≤ a → ts ≠ [] → Forall ok ts → zlen buf = zlen ts * bs →
  Some <$> ts `prefix_of` drop (Z.to_nat a) (runs_map 0 (st_runs st)) →
  ∃ w', store_write_with st write a buf w = Some (E0, Some (zlen buf), w')
    ∧ wrote w (block_writes ts buf) w'.
Proof.
  intros Hwrite Hro Ha Hne Hok Hl Hp. pose proof bs_pos.
  destruct (first_run_spec a ts Ha Hne Hp)
    as (pre & r & suf & off & ts1 & Heq & Hfirst & Hrun & Hoff & Hs & Hbnd & Hfit & Hle
        & Hsplit & Hp1 & Htot).
  assert (Hts : 0 < zlen ts) by (destruct ts; [done|simpl; lia]).
  unfold store_write_with. rewrite decide_False by (rewrite Hro; tauto).
  rewrite shiftl_blocks, Hl.
  destruct (transfer_fits a (zlen ts)) as [-> Hclamp]; [lia..|].
  rewrite decide_False by lia. rewrite decide_False by (rewrite land_blocks; tauto).
  rewrite Hfirst. cbn [mbind option_bind]. rewrite decide_False by lia.
  rewrite Hrun. cbn [mbind option_bind]. rewrite Z.add_0_l, chk64_Some by lia. cbn [mbind option_bind].
  rewrite shiftr_blocks, u64_id by lia. rewrite <-Hl.
  destruct (decide (zlen ts ≤ run_length r - off)) as [Hall|Hmore].
  - rewrite Z.min_l in Hsplit by lia.
    assert (ts1 = []) as ->.
    { apply (f_equal length) in Hsplit. rewrite length_app, length_fmap, length_seqZ in Hsplit.
      apply nil_length_inv. lia. }
    rewrite app_nil_r in Hsplit.
    destruct (Hwrite (zlen pre) (run_start r + off) (zlen ts) buf w) as (w' & Hwr & Hw);
      [lia..|by rewrite <-Hsplit|done|].
    exists w'. by rewrite <-Hsplit in Hw.
  - rewrite Z.min_r in Hsplit by lia. eapply write_split_spec; try done; lia.
Qed.
End level.
