(* ===== verification/StoreTree.v ===== *)
(** * Stores: the refinement theorems for trees of stores

    [tree_map] composes the address maps of the nodes of a tree of stores down
    to blocks of the media (or to the zeros of a [zero] store).  The interface
    [MediaOk] states what the input and output below the leaves promises;
    against it, [store_read] and [store_write] of every well-formed tree refine
    the abstract array of blocks. *)

From S2P Require Import Prelude Store StoreRefine.

(** A block at the bottom of a tree. *)
Inductive target := TZero | TBlock (port block : Z).

#[export] Instance target_eq_dec : EqDecision target.
Proof. solve_decision. Defined.

Definition is_leaf (c : file_storage_class) : bool :=
  match c with
  | STORAGE_ZERO | STORAGE_REMAP | STORAGE_CONCAT | STORAGE_INTERLEAVE => false
  | _ => true
  end.

(** The contents of the last write to [t]. *)
Fixpoint last_write (ws : list (target * list Z)) (t : target) : option (list Z) :=
  match ws with
  | [] => None
  | (t', d) :: ws' =>
      match last_write ws' t with
      | Some d' => Some d'
      | None => if decide (t' = t) then Some d else None
      end
  end.

(** What the classes at the leaves promise: whole transfers inside the medium,
    and a write changes the blocks it is for and no others. *)
Class MediaOk (bs : Z) (W : Type) `{Media W} := {
  media_block : W → Z → Z → list Z;
  media_blocks : Z → Z;
  media_block_length : ∀ w p b, 0 ≤ b < media_blocks p → zlen (media_block w p b) = bs;
  media_read_ok : ∀ w st i a m cap,
    is_leaf (st_class st) = true → st_block_size st = bs → 0 < m → 0 ≤ a →
    a + m ≤ media_blocks (st_port st) →
    delivers cap (m * bs) (mjoin (media_block w (st_port st) <$> seqZ a m))
      (media_read w st a i (m * bs) cap []);
  media_write_ok : ∀ w st i a m buf,
    is_leaf (st_class st) = true → st_block_size st = bs → 0 < m → 0 ≤ a →
    a + m ≤ media_blocks (st_port st) → zlen buf = m * bs →
    ∃ w', media_write st a i buf w = Some (E0, Some (zlen buf), w')
      ∧ ∀ p b, media_block w' p b =
          if decide (p = st_port st ∧ a ≤ b < a + m)
          then take (Z.to_nat bs) (drop (Z.to_nat ((b - a) * bs)) buf)
          else media_block w p b
}.

(** ** The address map of a tree *)
Definition class_target (st : store) (kids : list (list (option target))) (pl : place)
    : option target :=
  match st_class st with
  | STORAGE_ZERO => Some TZero
  | STORAGE_REMAP => kid ← kids !z 0; mjoin (kid !z pl.2)
  | STORAGE_CONCAT | STORAGE_INTERLEAVE => kid ← kids !z pl.1; mjoin (kid !z pl.2)
  | _ => Some (TBlock (st_port st) pl.2)
  end.

Fixpoint tree_map (st : store) : list (option target) :=
  (λ pl, pl ≫= class_target st (List.map tree_map (st_children st)))
    <$> runs_map 0 (st_runs st).

Lemma tree_map_eq st :
  tree_map st =
    (λ pl, pl ≫= class_target st (List.map tree_map (st_children st))) <$> runs_map 0 (st_runs st).
Proof. by destruct st. Qed.

(** Induction over a tree. *)
Section store_induction.
Context (P : store → Prop).
Hypothesis HP : ∀ st, Forall P (st_children st) → P st.

Fixpoint store_tree_ind (st : store) : P st :=
  match st return P st with
  | Store a b c d e f g h i j k l m n o p kids =>
      HP (Store a b c d e f g h i j k l m n o p kids)
        ((fix all (ks : list store) : Forall P ks :=
           match ks return Forall P ks with
           | [] => Forall_nil_2 _
           | k :: ks' => Forall_cons_2 _ _ _ (store_tree_ind k) (all ks')
           end) kids)
  end.
End store_induction.

Section tree.
Context {W : Type} {HM : Media W} (bs : Z) {HMO : MediaOk bs W}.

Definition leaf_ok (st : store) : Prop :=
  is_leaf (st_class st) = true →
  Forall (λ r, 0 ≤ run_start r → run_start r + run_length r ≤ media_blocks (st_port st)) (st_runs st).

(** Every node is a store whose runs do not repeat, all nodes have one block size
    (so that addresses are not scaled on the way down), and the leaves are inside
    their media. *)
Fixpoint tree_ok (st : store) : Prop :=
  level_ok bs st ∧ leaf_ok st
  ∧ (fix all (ks : list store) : Prop :=
       match ks with
       | [] => True
       | k :: ks' => tree_ok k ∧ all ks'
       end) (st_children st).

Fixpoint tree_writable (st : store) : Prop :=
  Z.land (st_flags st) STORE_READONLY = 0
  ∧ (fix all (ks : list store) : Prop :=
       match ks with
       | [] => True
       | k :: ks' => tree_writable k ∧ all ks'
       end) (st_children st).

Lemma tree_ok_inv st :
  tree_ok st → level_ok bs st ∧ leaf_ok st ∧ Forall tree_ok (st_children st).
Proof.
  intros H. destruct st as [? ? ? ? ? ? ? ? ? ? ? ? ? ? ? ? kids]. destruct H as (Hl & Hf & Hk).
  split; [done|]. split; [done|]. simpl. clear Hl Hf. induction kids as [|k kids IH]; constructor; [apply Hk|apply IH, Hk].
Qed.

Lemma tree_writable_inv st :
  tree_writable st →
  Z.land (st_flags st) STORE_READONLY = 0 ∧ Forall tree_writable (st_children st).
Proof.
  intros H. destruct st as [? ? ? ? ? ? ? ? ? ? ? ? ? ? ? ? kids]. destruct H as (Hl & Hk).
  split; [done|]. simpl. clear Hl. induction kids as [|k kids IH]; constructor; [apply Hk|apply IH, Hk].
Qed.

Definition target_ok (t : target) : Prop :=
  match t with
  | TZero => True
  | TBlock p b => 0 ≤ b < media_blocks p
  end.

Definition target_block (w : W) (t : target) : list Z :=
  match t with
  | TZero => replicate (Z.to_nat bs) 0
  | TBlock p b => media_block w p b
  end.

Lemma runs_map_elem i rs j a :
  Forall run_ok rs → Some (j, a) ∈ runs_map i rs →
  ∃ r, r ∈ rs ∧ 0 ≤ run_start r ≤ a ∧ a < run_start r + run_length r.
Proof.
  intros H. revert i. induction H as [|r rs Hr _ IH]; intros i Hin; simpl in Hin.
  { by apply elem_of_nil in Hin. }
  apply elem_of_app in Hin as [Hin|Hin].
  - unfold run_map in Hin. case_decide.
    + apply elem_of_replicate_inv in Hin. done.
    + apply list_elem_of_fmap in Hin as (x & Heq & Hx). injection Heq as -> ->.
      apply elem_of_seqZ in Hx. exists r. split; [left|lia].
  - destruct (IH _ Hin) as (r' & ? & ?). exists r'. split; [by right|done].
Qed.

Lemma tree_map_ok st t : tree_ok st → Some t ∈ tree_map st → target_ok t.
Proof.
  revert t. induction st as [st IH] using store_tree_ind. intros t Hok Hin.
  apply tree_ok_inv in Hok as (Hl & Hf & Hk). rewrite tree_map_eq in Hin.
  apply list_elem_of_fmap in Hin as ([[i a]|] & Ht & Hin); [|done]. simpl in Ht. symmetry in Ht.
  assert (Hkid : ∀ j, (kid ← List.map tree_map (st_children st) !z j; mjoin (kid !z a)) = Some t → target_ok t).
  { intros j Hj. apply bind_Some in Hj as (kid & Hkid & Hj).
    unfold lookupz in Hkid. case_decide; [|done].
    rewrite list_lookup_fmap in Hkid. apply fmap_Some in Hkid as (k & Hk' & ->).
    apply list_elem_of_lookup_2 in Hk'. rewrite Forall_forall in IH, Hk.
    apply (IH k Hk' t (Hk k Hk')). destruct (tree_map k !z a) as [x|] eqn:E; simpl in Hj; [|done].
    subst x. by eapply lookupz_elem_of. }
  unfold class_target in Ht. unfold leaf_ok in Hf.
  destruct (st_class st); simpl in Ht, Hf; try (by eapply Hkid); try (by injection Ht as <-);
    injection Ht as <-; specialize (Hf eq_refl); rewrite Forall_forall in Hf;
    destruct (runs_map_elem 0 _ i a (lo_runs _ _ Hl) Hin) as (r & Hr & ? & ?);
    specialize (Hf r Hr); simpl; lia.
Qed.

(** ** From places to targets *)
Lemma prefix_targets (f : place → option target) l ts :
  Some <$> ts `prefix_of` (λ pl, pl ≫= f) <$> l →
  ∃ ps, Some <$> ps `prefix_of` l ∧ Forall2 (λ pl t, f pl = Some t) ps ts.
Proof.
  revert l. induction ts as [|t ts IH]; intros l Hp.
  { exists []. split; [apply prefix_nil|constructor]. }
  destruct l as [|pl l]; [by apply prefix_nil_inv in Hp|]. simpl in Hp.
  apply prefix_cons_inv_1 in Hp as Ht. apply prefix_cons_inv_2 in Hp.
  destruct (IH l Hp) as (ps & Hps & Hf). destruct pl as [pl|]; [|done].
  exists (pl :: ps). split; [by apply prefix_cons|]. by constructor.
Qed.

Lemma range_prefix (kmap : list (option target)) a m ts :
  0 ≤ a → Forall2 (λ x t, mjoin (kmap !z x) = Some t) (seqZ a m) ts →
  Some <$> ts `prefix_of` drop (Z.to_nat a) kmap.
Proof.
  revert a m. induction ts as [|t ts IH]; intros a m Ha H; [apply prefix_nil|].
  destruct (decide (0 < m)) as [Hm|Hm].
  - rewrite seqZ_cons in H by lia. apply Forall2_cons in H as [Ht H].
    destruct (kmap !z a) as [x|] eqn:E; simpl in Ht; [subst x|done].
    unfold lookupz in E. rewrite decide_True in E by lia.
    rewrite (drop_S _ _ _ E). simpl. apply prefix_cons.
    replace (S (Z.to_nat a)) with (Z.to_nat (Z.succ a)) by lia. eapply IH; [lia|done].
  - rewrite seqZ_nil in H by lia. by apply Forall2_nil_inv_l in H.
Qed.

Lemma Forall_choose {A B} (R : A → B → Prop) (l : list A) :
  Forall (λ x, ∃ y, R x y) l → ∃ ys, Forall2 R l ys.
Proof.
  induction 1 as [|x l [y Hy] _ [ys IH]]; [exists []; constructor|].
  exists (y :: ys). by constructor.
Qed.

Section node.
Context (st : store).
Let kids := List.map tree_map (st_children st).

(** A place that is inside what is below the node. *)
Definition place_ok (pl : place) : Prop := ∃ t, class_target st kids pl = Some t ∧ target_ok t.
Definition place_target (pl : place) : target := default TZero (class_target st kids pl).

Lemma place_ok_target pl : place_ok pl → class_target st kids pl = Some (place_target pl).
Proof. intros (t & Ht & _). unfold place_target. by rewrite Ht. Qed.

Lemma target_block_length w t : 0 ≤ bs → target_ok t → zlen (target_block w t) = bs.
Proof.
  intros Hbs. destruct t; simpl; [rewrite length_replicate; lia|]. apply media_block_length.
Qed.

Lemma place_block_length w pl : 0 ≤ bs → place_ok pl → zlen (target_block w (place_target pl)) = bs.
Proof.
  intros Hbs (t & Ht & Hok). unfold place_target. rewrite Ht. by apply target_block_length.
Qed.

(** The targets of a range of a child. *)
Lemma kid_range j i a m :
  0 ≤ a → Forall place_ok (pair i <$> seqZ a m) →
  (∀ pl, class_target st kids pl = (kid ← kids !z j pl; mjoin (kid !z pl.2))) →
  (∀ pl, pl.1 = i → j pl = j (i, a)) → 0 < m →
  ∃ k, st_children st !z j (i, a) = Some k
    ∧ Some <$> (place_target <$> (pair i <$> seqZ a m)) `prefix_of` drop (Z.to_nat a) (tree_map k).
Proof.
  intros Ha Hok Hj Hi Hm.
  assert (∃ k, st_children st !z j (i, a) = Some k) as [k Hk].
  { rewrite seqZ_cons in Hok by lia. apply Forall_cons in Hok as [(t & Ht & _) _].
    rewrite Hj in Ht. apply bind_Some in Ht as (kid & Hkid & _). unfold lookupz in *.
    case_decide; [|done]. unfold kids in Hkid. rewrite list_lookup_fmap in Hkid.
    apply fmap_Some in Hkid as (k & Hk & _). by exists k. }
  exists k. split; [done|]. apply (range_prefix _ _ m); [done|].
  rewrite Forall2_fmap_r, Forall2_fmap_r. apply Forall_Forall2_diag.
  rewrite Forall_fmap in Hok. eapply Forall_impl; [exact Hok|]. intros x Hx. simpl in Hx.
  change (mjoin (tree_map k !z x) = Some (place_target (i, x))).
  apply place_ok_target in Hx. rewrite <-Hx, Hj, (Hi (i, x)) by done. simpl.
  assert (kids !z j (i, a) = Some (tree_map k)) as ->; [|done].
  unfold lookupz in *. case_decide; [|done]. unfold kids. by rewrite list_lookup_fmap, Hk.
Qed.
End node.

(** ** Reading *)
Definition reads_tree (w : W) (st : store) : Prop :=
  ∀ a ts cap, 0 ≤ a → ts ≠ [] → Some <$> ts `prefix_of` drop (Z.to_nat a) (tree_map st) →
    delivers cap (zlen ts * bs) (mjoin (target_block w <$> ts))
      (store_read w st a (zlen ts * bs) cap []).

Lemma store_read_eq w st a amount cap o :
  store_read w st a amount cap o =
    store_read_with st (class_read w st (List.map (store_read w) (st_children st))) a amount cap o.
Proof. by destruct st. Qed.

Lemma store_write_eq st a buf w :
  store_write st a buf w =
    store_write_with st (class_write st (List.map store_write (st_children st))) a buf w.
Proof. by destruct st. Qed.

Lemma addr_adj_same a st k : level_ok bs st → level_ok bs k → addr_adj a st k = Some a.
Proof.
  intros H1 H2. unfold addr_adj. rewrite decide_True; [done|].
  apply (Z.pow_inj_r 2); [lia|apply (lo_log2 _ _ H1)|apply (lo_log2 _ _ H2)|].
  by rewrite <-(lo_pow _ _ H1), <-(lo_pow _ _ H2).
Qed.

Lemma lookupz_map {A B} (f : A → B) (l : list A) i x :
  l !z i = Some x → List.map f l !z i = Some (f x).
Proof.
  unfold lookupz. case_decide; [|done]. intros Hx.
  change (List.map f l) with (f <$> l). by rewrite list_lookup_fmap, Hx.
Qed.

Lemma leaf_range st i a m :
  is_leaf (st_class st) = true → 0 < m → Forall (place_ok st) (pair i <$> seqZ a m) →
  a + m ≤ media_blocks (st_port st)
  ∧ place_target st <$> (pair i <$> seqZ a m) = TBlock (st_port st) <$> seqZ a m.
Proof.
  intros Hleaf Hm Hok. rewrite Forall_fmap, Forall_forall in Hok.
  assert (Hct : ∀ x, class_target st (List.map tree_map (st_children st)) (i, x) = Some (TBlock (st_port st) x)).
  { intros x. unfold class_target. by destruct (st_class st). }
  split.
  - destruct (Hok (a + m - 1)) as (t & Ht & Hb); [apply elem_of_seqZ; lia|].
    rewrite Hct in Ht. injection Ht as <-. simpl in Hb. lia.
  - rewrite <-list_fmap_compose. apply list_fmap_ext. intros ? x _. simpl.
    unfold place_target. by rewrite Hct.
Qed.

Lemma length_range {A} (f : place → A) i a m :
  0 < m → zlen (f <$> (pair i <$> seqZ a m)) = m ∧ f <$> (pair i <$> seqZ a m) ≠ [].
Proof.
  intros Hm. rewrite !length_fmap, length_seqZ. split; [lia|]. by rewrite seqZ_cons by lia.
Qed.

Lemma zero_blocks n : 0 ≤ bs → 0 ≤ n →
  mjoin (replicate (Z.to_nat n) (replicate (Z.to_nat bs) 0)) = replicate (Z.to_nat (n * bs)) 0.
Proof.
  intros Hbs Hn. rewrite Z2Nat.inj_mul by lia. induction (Z.to_nat n) as [|k IH]; [done|].
  simpl. by rewrite replicate_add, <-IH.
Qed.

(** The read method of a node whose children refine their maps. *)
Lemma class_read_ok w st :
  level_ok bs st → Forall (level_ok bs) (st_children st) → Forall (reads_tree w) (st_children st) →
  reads bs (place_ok st) (λ pl, target_block w (place_target st pl))
    (class_read w st (List.map (store_read w) (st_children st))).
Proof.
  intros Hst Hlev IH i a m cap Hm Ha Hb Hok. pose proof (bs_pos bs st Hst) as Hbs.
  pose proof (list_fmap_compose (place_target st) (target_block w) (pair i <$> seqZ a m)) as Hfm.
  change (λ pl, target_block w (place_target st pl)) with (target_block w ∘ place_target st).
  rewrite Hfm.
  assert (Hkid : ∀ k, k ∈ st_children st →
    Some <$> (place_target st <$> (pair i <$> seqZ a m)) `prefix_of` drop (Z.to_nat a) (tree_map k) →
    delivers cap (m * bs) (mjoin (target_block w <$> (place_target st <$> (pair i <$> seqZ a m))))
      (store_read w k a (m * bs) cap [])).
  { intros k Hk Hp. destruct (length_range (place_target st) i a m Hm) as [Hl Hne].
    rewrite Forall_forall in IH. pose proof (IH k Hk a _ cap Ha Hne Hp) as Hr. by rewrite Hl in Hr. }
  destruct (is_leaf (st_class st)) eqn:Hleaf.
  { destruct (leaf_range st i a m Hleaf Hm Hok) as [Hmb ->]. rewrite <-list_fmap_compose.
    destruct (media_read_ok w st i a m cap) as (fresh & Hr & Hf); [done|by apply lo_block_size|done..|].
    exists fresh. split; [|done]. etransitivity; [|exact Hr]. unfold class_read. by destruct (st_class st). }
  unfold class_read. destruct (st_class st) eqn:Hc; try done.
  2,3: destruct (kid_range st (λ pl, pl.1) i a m Ha Hok) as (k & Hk & Hp);
      [by unfold class_target; rewrite Hc|done|done|]; simpl in Hk;
    unfold stripe_read; rewrite Hk, (lookupz_map _ _ _ _ Hk); cbn [mbind option_bind];
    rewrite addr_adj_same by (done || by eapply Forall_lookupz);
    apply Hkid; [by eapply lookupz_elem_of|done].
  - assert (target_block w <$> (place_target st <$> (pair i <$> seqZ a m))
      = replicate (Z.to_nat m) (replicate (Z.to_nat bs) 0)) as ->.
    { symmetry. apply replicate_as_elem_of. rewrite !length_fmap, length_seqZ. split; [done|].
      intros y (t & -> & (pl & -> & _)%list_elem_of_fmap)%list_elem_of_fmap.
      unfold place_target, class_target. by rewrite Hc. }
    rewrite zero_blocks by lia. unfold zero_read. case_decide; [by exists true|]. exists false. split; [done|lia].
  - destruct (kid_range st (λ _, 0) i a m Ha Hok) as (k & Hk & Hp);
      [by unfold class_target; rewrite Hc|done|done|].
    unfold remap_read. rewrite (lookupz_map _ _ _ _ Hk). cbn [mbind option_bind].
    apply Hkid; [by eapply lookupz_elem_of|done].
Qed.

(** The places in a node of a range of the tree's map. *)
Lemma tree_places st a ts :
  tree_ok st → ts ≠ [] → Some <$> ts `prefix_of` drop (Z.to_nat a) (tree_map st) →
  ∃ ps, Some <$> ps `prefix_of` drop (Z.to_nat a) (runs_map 0 (st_runs st))
    ∧ Forall (place_ok st) ps ∧ ps ≠ [] ∧ ts = place_target st <$> ps.
Proof.
  intros Hok Hne Hp.
  assert (Htok : Forall target_ok ts).
  { apply Forall_forall. intros t Ht. apply (tree_map_ok st); [done|].
    apply (list_elem_of_fmap_2 Some) in Ht. eapply elem_of_prefix in Hp; [|exact Ht].
    by eapply subseteq_drop. }
  rewrite tree_map_eq, <-fmap_drop in Hp. apply prefix_targets in Hp as (ps & Hps & Hf).
  exists ps. split; [done|]. clear Hps.
  assert (Forall (place_ok st) ps ∧ place_target st <$> ps = ts) as [Hpl <-].
  { clear Hne. induction Hf as [|pl t ps ts Hpt _ IHf]; [done|].
    apply Forall_cons in Htok as [Ht Htok]. destruct (IHf Htok) as [H1 H2]. split.
    - constructor; [by exists t|done].
    - rewrite fmap_cons, H2. unfold place_target. by rewrite Hpt. }
  split_and!; [done| |done]. by intros ->.
Qed.

Lemma tree_kids_level st : tree_ok st → Forall (level_ok bs) (st_children st).
Proof.
  intros (_ & _ & Hk)%tree_ok_inv. eapply Forall_impl; [exact Hk|].
  intros k Hkk. by apply tree_ok_inv in Hkk as (? & _).
Qed.

Lemma tree_read w st : tree_ok st → reads_tree w st.
Proof.
  induction st as [st IH] using store_tree_ind. intros Hok a ts cap Ha Hne Hp.
  pose proof Hok as (Hst & _ & Hk)%tree_ok_inv.
  destruct (tree_places st a ts Hok Hne Hp) as (ps & Hps & Hpl & Hne' & ->).
  rewrite store_read_eq, length_fmap, <-list_fmap_compose.
  eapply (store_read_with_spec bs st Hst (place_ok st)); try done.
  - intros pl Hpl'. apply place_block_length; [pose proof (bs_pos bs st Hst); lia|done].
  - apply class_read_ok; [done|by apply tree_kids_level|].
    rewrite Forall_forall in *. intros k Hin. by apply IH, Hk.
Qed.

(** ** Writing *)
Definition wrote_targets (w : W) (ws : list (target * list Z)) (w' : W) : Prop :=
  ∀ p b, media_block w' p b = default (media_block w p b) (last_write ws (TBlock p b)).

Lemma last_write_app ws ws' t :
  last_write (ws ++ ws') t =
    match last_write ws' t with Some d => Some d | None => last_write ws t end.
Proof.
  induction ws as [|[t' d] ws IH]; simpl; [by destruct (last_write ws' t)|].
  rewrite IH. by destruct (last_write ws' t).
Qed.

Lemma wrote_targets_app w ws w1 ws' w2 :
  wrote_targets w ws w1 → wrote_targets w1 ws' w2 → wrote_targets w (ws ++ ws') w2.
Proof.
  intros H1 H2 p b. rewrite H2, last_write_app.
  destruct (last_write ws' (TBlock p b)); [done|]. simpl. apply H1.
Qed.

(** Writes to consecutive blocks of a medium. *)
Lemma last_write_range p a m buf q b :
  0 ≤ m → 0 < bs →
  last_write (zip (TBlock p <$> seqZ a m) (chunks (Z.to_nat bs) (Z.to_nat m) buf)) (TBlock q b) =
    if decide (q = p ∧ a ≤ b < a + m)
    then Some (take (Z.to_nat bs) (drop (Z.to_nat ((b - a) * bs)) buf)) else None.
Proof.
  intros Hm Hbs. remember (Z.to_nat m) as n eqn:Hn. revert a m buf Hm Hn.
  induction n as [|n IH]; intros a m buf Hm Hn.
  { rewrite seqZ_nil by lia. simpl. rewrite decide_False by lia. done. }
  rewrite seqZ_cons by lia. simpl. rewrite (IH (Z.succ a) (Z.pred m)) by lia.
  destruct (decide (q = p ∧ Z.succ a ≤ b < Z.succ a + Z.pred m)) as [[-> Hb]|Hb].
  - rewrite decide_True by lia. rewrite drop_drop. do 3 f_equal. nia.
  - destruct (decide (TBlock p a = TBlock q b)) as [Heq|Hneq].
    + injection Heq as <- <-. rewrite decide_True by lia. by rewrite Z.sub_diag.
    + rewrite decide_False; [done|]. intros [-> ?]. assert (a ≠ b) by congruence. lia.
Qed.

Lemma last_write_zero n ds q b :
  last_write (zip (replicate n TZero) ds) (TBlock q b) = None.
Proof. revert ds. induction n; intros [|d ds]; simpl; try done. by rewrite IHn. Qed.

Definition writes_tree (st : store) : Prop :=
  ∀ a ts buf w, 0 ≤ a → ts ≠ [] → zlen buf = zlen ts * bs →
    Some <$> ts `prefix_of` drop (Z.to_nat a) (tree_map st) →
    ∃ w', store_write st a buf w = Some (E0, Some (zlen buf), w')
      ∧ wrote_targets w (zip ts (chunks (Z.to_nat bs) (length ts) buf)) w'.

(** Writes to places of a node are writes to what is below them. *)
Definition wrote_places (st : store) (w : W) (ws : list (place * list Z)) (w' : W) : Prop :=
  wrote_targets w (prod_map (place_target st) id <$> ws) w'.

Lemma wrote_places_zip st w ps ds w' :
  wrote_places st w (zip ps ds) w' ↔ wrote_targets w (zip (place_target st <$> ps) ds) w'.
Proof.
  unfold wrote_places. assert (prod_map (place_target st) id <$> zip ps ds
    = zip (place_target st <$> ps) ds) as ->; [|done].
  revert ds. induction ps as [|pl ps IH]; intros [|d ds]; try done. simpl. f_equal. apply IH.
Qed.

Lemma class_write_ok st :
  level_ok bs st → Forall (level_ok bs) (st_children st) → Forall writes_tree (st_children st) →
  writes bs (place_ok st) (wrote_places st)
    (class_write st (List.map store_write (st_children st))).
Proof.
  intros Hst Hlev IH i a m buf w Hm Ha Hb Hok Hl. pose proof (bs_pos bs st Hst) as Hbs.
  unfold block_writes. destruct (length_range (place_target st) i a m Hm) as [Hlt Hne].
  assert (Hlen : length (pair i <$> seqZ a m) = Z.to_nat m) by (by rewrite length_fmap, length_seqZ).
  rewrite Hlen.
  assert (Hkid : ∀ k, k ∈ st_children st →
    Some <$> (place_target st <$> (pair i <$> seqZ a m)) `prefix_of` drop (Z.to_nat a) (tree_map k) →
    ∃ w', store_write k a buf w = Some (E0, Some (zlen buf), w')
      ∧ wrote_places st w (zip (pair i <$> seqZ a m) (chunks (Z.to_nat bs) (Z.to_nat m) buf)) w').
  { intros k Hk Hp. rewrite Forall_forall in IH.
    destruct (IH k Hk a _ buf w Ha Hne) as (w' & Hr & Hw); [by rewrite Hlt|done|].
    exists w'. split; [done|]. apply wrote_places_zip. by rewrite length_fmap, Hlen in Hw. }
  destruct (is_leaf (st_class st)) eqn:Hleaf.
  { destruct (leaf_range st i a m Hleaf Hm Hok) as [Hmb Hpt].
    destruct (media_write_ok w st i a m buf) as (w' & Hr & Hw); [done|by apply lo_block_size|done..|].
    exists w'. split; [rewrite <-Hr; unfold class_write; by destruct (st_class st)|].
    apply wrote_places_zip. rewrite Hpt. intros p b. rewrite last_write_range, Hw by lia.
    by case_decide. }
  unfold class_write. destruct (st_class st) eqn:Hc; try done.
  2,3: destruct (kid_range st (λ pl, pl.1) i a m Ha Hok) as (k & Hk & Hp);
      [by unfold class_target; rewrite Hc|done|done|]; simpl in Hk;
    unfold stripe_write; rewrite Hk, (lookupz_map _ _ _ _ Hk); cbn [mbind option_bind];
    rewrite addr_adj_same by (done || by eapply Forall_lookupz);
    apply Hkid; [by eapply lookupz_elem_of|done].
  - exists w. split; [done|]. apply wrote_places_zip.
    assert (place_target st <$> (pair i <$> seqZ a m) = replicate (Z.to_nat m) TZero) as ->.
    { symmetry. apply replicate_as_elem_of. rewrite !length_fmap, length_seqZ. split; [done|].
      intros y (pl & -> & _)%list_elem_of_fmap. unfold place_target, class_target. by rewrite Hc. }
    intros p b. by rewrite last_write_zero.
  - destruct (kid_range st (λ _, 0) i a m Ha Hok) as (k & Hk & Hp);
      [by unfold class_target; rewrite Hc|done|done|].
    unfold remap_write. rewrite (lookupz_map _ _ _ _ Hk). cbn [mbind option_bind].
    apply Hkid; [by eapply lookupz_elem_of|done].
Qed.

Lemma tree_write st : tree_ok st → tree_writable st → writes_tree st.
Proof.
  induction st as [st IH] using store_tree_ind. intros Hok Hwr a ts buf w Ha Hne Hl Hp.
  pose proof Hok as (Hst & _ & Hk)%tree_ok_inv. apply tree_writable_inv in Hwr as [Hro Hwk].
  destruct (tree_places st a ts Hok Hne Hp) as (ps & Hps & Hpl & Hne' & ->).
  rewrite store_write_eq. rewrite length_fmap in Hl |- *.
  destruct (store_write_with_spec bs st Hst (place_ok st) (wrote_places st))
    with (write := class_write st (List.map store_write (st_children st)))
         (a := a) (ts := ps) (buf := buf) (w := w) as (w' & Hr & Hw); try done.
  - intros w0 ws w1 ws' w2. unfold wrote_places. rewrite fmap_app. apply wrote_targets_app.
  - apply class_write_ok; [done|by apply tree_kids_level|].
    rewrite Forall_forall in *. intros k Hin. by apply IH; auto.
  - exists w'. split; [done|]. by apply wrote_places_zip.
Qed.

(** ** The contract *)

(** C10. Reading refines the abstract array of blocks: on a well-formed tree of
    stores (leaves on any media, zero, remapped, concatenated and striped
    stores), a read of any blocks that are not holes returns exactly the
    contents of the places the tree's address map gives for them, in order,
    however many runs and levels they are spread over, in the caller's buffer
    only if they fit in it.  Every allocation succeeds. *)
Theorem store_read_refines w st a ts cap :
  tree_ok st → 0 ≤ a → ts ≠ [] → Some <$> ts `prefix_of` drop (Z.to_nat a) (tree_map st) →
  delivers cap (zlen ts * bs) (mjoin (target_block w <$> ts)) (store_read w st a (zlen ts * bs) cap []).
Proof. intros Hok. by apply tree_read. Qed.

(** C13. Writing refines the abstract array of blocks: the write is complete,
    the places of the blocks written (the last write counts where runs share a
    place) have the new contents, and every other block of every medium keeps
    its contents. *)
Theorem store_write_refines w st a ts buf :
  tree_ok st → tree_writable st → 0 ≤ a → ts ≠ [] → zlen buf = zlen ts * bs →
  Some <$> ts `prefix_of` drop (Z.to_nat a) (tree_map st) →
  ∃ w', store_write st a buf w = Some (E0, Some (zlen buf), w')
    ∧ ∀ p b, media_block w' p b =
        default (media_block w p b)
          (last_write (zip ts (chunks (Z.to_nat bs) (length ts) buf)) (TBlock p b)).
Proof. intros Hok Hwr. by apply tree_write. Qed.

(** What was written to distinct blocks of media is what is there. *)
Lemma wrote_read ts ds w w' :
  NoDup ts → TZero ∉ ts → length ts = length ds →
  wrote_targets w (zip ts ds) w' → target_block w' <$> ts = ds.
Proof.
  intros Hnd Hz Hl Hw.
  assert (Hlast : ∀ t d, (t, d) ∈ zip ts ds → last_write (zip ts ds) t = Some d).
  { clear Hw Hz. revert ds Hl. induction Hnd as [|t ts Hnin Hnd IH]; intros [|d ds] Hl t' d' Hin;
      simpl in *; try done; [by apply elem_of_nil in Hin|].
    apply elem_of_cons in Hin as [[= -> ->]|Hin]; [|by rewrite (IH ds) with (d := d') by auto].
    assert (last_write (zip ts ds) t = None) as ->; [|by rewrite decide_True].
    clear -Hnin. revert ds. induction ts as [|x ts IH]; intros [|y ds]; simpl; try done.
    rewrite IH by set_solver. rewrite decide_False by set_solver. done. }
  apply list_eq_same_length with (n := length ts); [done|by rewrite length_fmap|].
  intros i x y Hi Hx Hy. rewrite list_lookup_fmap in Hx. apply fmap_Some in Hx as (t & Ht & ->).
  destruct t as [|p b].
  { exfalso. apply Hz. by eapply list_elem_of_lookup_2. }
  simpl. rewrite Hw, (Hlast (TBlock p b) y); [done|].
  apply list_elem_of_lookup_2 with i. by apply lookup_zip_Some.
Qed.

(** C37. What was written is read back, through every tree of stores whose
    blocks written are at distinct places of media, when every allocation
    succeeds. *)
Theorem store_write_read_roundtrip w st a ts buf cap :
  tree_ok st → tree_writable st → 0 ≤ a → ts ≠ [] → zlen buf = zlen ts * bs →
  Some <$> ts `prefix_of` drop (Z.to_nat a) (tree_map st) → NoDup ts → TZero ∉ ts →
  ∃ w' fresh, store_write st a buf w = Some (E0, Some (zlen buf), w')
    ∧ store_read w' st a (zlen buf) cap [] = Some (inr (buf, fresh), []).
Proof.
  intros Hok Hwr Ha Hne Hl Hp Hnd Hz.
  destruct (tree_write st Hok Hwr a ts buf w Ha Hne Hl Hp) as (w' & Hr & Hw).
  destruct (tree_read w' st Hok a ts cap Ha Hne Hp) as (fresh & Hrd & _).
  exists w', fresh. split; [done|]. rewrite Hl, Hrd. do 4 f_equal.
  pose proof Hok as (Hst & _)%tree_ok_inv. pose proof (bs_pos bs st Hst).
  rewrite (wrote_read ts (chunks (Z.to_nat bs) (length ts) buf) w w');
    [|done|done|by rewrite length_chunks|done].
  apply concat_chunks. lia.
Qed.
End tree.

(** ** Disks in memory

    A medium that satisfies the interface: every port is a disk of [disk_blocks]
    blocks of [bs] bytes. *)
Definition disk : Type := Z → Z → list Z.
Definition disk_blocks : Z := 8.

Definition disk_read (bs : Z) (w : disk) (st : store) : read_meth := λ a i amount cap o,
  if decide (0 ≤ a ∧ a + amount / bs ≤ disk_blocks) then
    Some (inr (mjoin ((λ b, take (Z.to_nat bs) (w (st_port st) b ++ replicate (Z.to_nat bs) 0))
                <$> seqZ a (amount / bs)), bool_decide (cap < amount)), o)
  else Some (inl EIO, o).

Definition disk_write (bs : Z) (st : store) : write_meth disk := λ a i buf w,
  if decide (0 ≤ a ∧ a + zlen buf / bs ≤ disk_blocks) then
    Some (E0, Some (zlen buf), λ p b,
      if decide (p = st_port st ∧ a ≤ b < a + zlen buf / bs)
      then take (Z.to_nat bs) (drop (Z.to_nat ((b - a) * bs)) buf) else w p b)
  else Some (EIO, None, w).

#[export] Instance disk_media : Media disk :=
  {| media_read := disk_read 2; media_write := disk_write 2 |}.

#[export, refine] Instance disk_media_ok : MediaOk 2 disk :=
  {| media_block w p b := take 2 (w p b ++ replicate 2 0); media_blocks _ := disk_blocks |}.
Proof.
  - intros w p b _. rewrite length_take, length_app, length_replicate. lia.
  - intros w st i a m cap _ _ Hm Ha Hb. exists (bool_decide (cap < m * 2)).
    split; [|rewrite bool_decide_eq_false; lia]. simpl. unfold disk_read.
    rewrite Z.div_mul by lia. by rewrite decide_True by lia.
  - intros w st i a m buf _ _ Hm Ha Hb Hl. eexists. simpl. unfold disk_write.
    rewrite Hl, Z.div_mul by lia. rewrite decide_True by lia. split; [done|].
    intros p b. cbv beta. destruct (decide (p = st_port st ∧ a ≤ b < a + m)) as [Hd|Hd]; [|done].
    assert (Hl2 : length (take 2 (drop (Z.to_nat ((b - a) * 2)) buf)) = 2%nat).
    { rewrite length_take, length_drop. lia. }
    change (Z.to_nat 2) with 2%nat. rewrite take_app_le by lia. by rewrite take_take.
Defined.
