(* ===== verification/StoreProps.v ===== *)
(** * Stores: creation, errors and examples

    [_store_create] establishes the invariant the refinement theorems of
    [StoreTree.v] start from; requests that a store does not accept are refused
    without effect; a concrete tree of stores shows that the hypotheses of the
    refinement theorems hold; and the behaviour of the code on stores whose runs
    repeat and on reads past the end. *)

From S2P Require Import Prelude Store StoreRefine StoreTree.

(** ** Creation *)
Section create.
Context `{PageSize}.

Lemma log2_block_size_loop_spec fuel j k :
  0 ≤ j ≤ k → k ≤ 30 → (Z.to_nat (k - j) < fuel)%nat →
  log2_block_size_loop fuel j (2 ^ k) = Some k.
Proof.
  revert j. induction fuel as [|fuel IH]; intros j Hj Hk Hf; [lia|]. simpl.
  assert (Hp : 1 ≤ 2 ^ j ≤ 2 ^ 30).
  { pose proof (Z.pow_pos_nonneg 2 j). pose proof (Z.pow_le_mono_r 2 j 30). lia. }
  rewrite Z.shiftl_1_l, s32_id, u64_id by lia.
  destruct (decide (j = k)) as [->|Hne]; [by rewrite decide_False by lia|].
  rewrite decide_True by (apply Z.pow_lt_mono_r; lia). apply IH; lia.
Qed.

Lemma log2_blocks_per_page_loop_spec fuel j k q :
  vm_page_size = 2 ^ q → 0 ≤ k ≤ q → q < 64 → 0 ≤ j ≤ q - k → (Z.to_nat (q - k - j) < fuel)%nat →
  log2_blocks_per_page_loop fuel j (2 ^ k) = Some (q - k).
Proof.
  intros Hq Hk Hq2. revert j. induction fuel as [|fuel IH]; intros j Hj Hf; [lia|]. simpl.
  assert (Hp : 1 ≤ 2 ^ (k + j) < 2 ^ 64).
  { pose proof (Z.pow_pos_nonneg 2 (k + j)). pose proof (Z.pow_lt_mono_r 2 (k + j) 64). lia. }
  rewrite Z.shiftl_mul_pow2, <-Z.pow_add_r, u64_id, Hq by lia.
  destruct (decide (j = q - k)) as [->|Hne].
  - rewrite decide_False; [done|]. replace (k + (q - k)) with q by lia. lia.
  - rewrite decide_True by (apply Z.pow_lt_mono_r; lia). apply IH; lia.
Qed.

Lemma stored_length_bounds rs :
  Forall run_ok rs → 0 ≤ stored_length rs ≤ total_length rs.
Proof. induction 1 as [|r rs [Hr _] _ IH]; simpl; [done|]. case_decide; lia. Qed.

Lemma sum_runs_spec rs ws bl :
  Forall run_ok rs → 0 ≤ bl ≤ ws → ws + total_length rs < 2 ^ 63 →
  sum_runs rs ws bl = Some (ws + total_length rs, bl + stored_length rs).
Proof.
  intros Hrs. revert ws bl. induction Hrs as [|r rs Hr Hrs IH]; intros ws bl Hbl Hb; simpl in *.
  { do 2 f_equal; lia. }
  pose proof (total_length_nonneg rs Hrs). destruct Hr as [Hr _].
  rewrite (chk64_Some (ws + run_length r)) by lia. cbn [mbind option_bind].
  destruct (decide (0 ≤ run_start r)); [rewrite chk64_Some by lia|]; cbn [mbind option_bind]; rewrite IH by lia;
    do 2 f_equal; lia.
Qed.

Lemma land_pow2_pred k : 0 ≤ k < 64 → Z.land (2 ^ k) (u64 (2 ^ k - 1)) = 0.
Proof.
  intros Hk. pose proof (Z.pow_pos_nonneg 2 k). pose proof (Z.pow_lt_mono_r 2 k 64).
  rewrite u64_id by lia. rewrite land_mask by lia. apply Z.mod_same. lia.
Qed.

(** The fields that [_store_derive] computes when the end is not set, or set to the
    sum of the run lengths. *)
Lemma store_derive_spec st k q :
  vm_page_size = 2 ^ q → q < 64 → 0 ≤ k ≤ q → k ≤ 30 → st_block_size st = 2 ^ k →
  st_end st = 0 ∨ st_end st = total_length (st_runs st) → Forall run_ok (st_runs st) → total_length (st_runs st) * 2 ^ k < 2 ^ 63 →
  _store_derive st =
    Some (with_derived (total_length (st_runs st)) (total_length (st_runs st))
            (stored_length (st_runs st)) (total_length (st_runs st) * 2 ^ k) k (q - k) st).
Proof.
  intros Hq Hq2 Hk Hk30 Hbs Hend Hrs Hb. pose proof (Z.pow_pos_nonneg 2 k) as Hpos.
  pose proof (total_length_nonneg _ Hrs) as Hnn. pose proof (Z.pow_le_mono_r 2 k 30) as Hle.
  unfold _store_derive. rewrite Hbs, sum_runs_spec by (done || nia). cbn [mbind option_bind]. rewrite !Z.add_0_l.
  assert ((if decide (st_end st = 0) then Some (total_length (st_runs st), stored_length (st_runs st))
           else if decide (total_length (st_runs st) < st_end st) then _ else Some (st_end st, stored_length (st_runs st)))
          = Some (total_length (st_runs st), stored_length (st_runs st))) as ->.
  { destruct Hend as [->| ->]; [by rewrite decide_True|]. case_decide; [done|]. by rewrite decide_False by lia. }
  cbn [mbind option_bind].
  rewrite decide_False by lia. rewrite log2_block_size_loop_spec by lia. cbn [mbind option_bind].
  rewrite Z.shiftl_1_l, s32_id, u64_id, decide_True by (done || lia).
  rewrite (log2_blocks_per_page_loop_spec 64 0 k q) by (done || lia). cbn [mbind option_bind].
  rewrite Z.shiftl_mul_pow2, <-Z.pow_add_r by lia. replace (k + (q - k)) with q by lia.
  pose proof (Z.pow_lt_mono_r 2 q 64). pose proof (Z.pow_pos_nonneg 2 q).
  rewrite u64_id, decide_True by (done || lia). by rewrite s64_id by nia.
Qed.

Lemma with_derived_level_ok st k q :
  0 ≤ k → st_block_size st = 2 ^ k → Forall run_ok (st_runs st) →
  total_length (st_runs st) * 2 ^ k < 2 ^ 63 →
  level_ok (2 ^ k)
    (with_derived (total_length (st_runs st)) (total_length (st_runs st))
       (stored_length (st_runs st)) (total_length (st_runs st) * 2 ^ k) k (q - k) st).
Proof. by split. Qed.

(** The store that creation returns. *)
Lemma store_create_spec cl port flags k q rs e o :
  vm_page_size = 2 ^ q → q < 64 → 0 ≤ k ≤ q → k ≤ 30 →
  Forall run_ok rs → total_length rs * 2 ^ k < 2 ^ 63 → zlen rs * 16 < 2 ^ 32 → e = 0 ∨ e = total_length rs →
  ∃ res o', _store_create cl port flags (2 ^ k) rs e o = Some (res, o')
    ∧ (o = [] → o' = [] ∧ res ≠ inl ENOMEM)
    ∧ match res with
      | inr st => level_ok (2 ^ k) st ∧ st_runs st = rs ∧ st_class st = cl ∧ st_port st = port
          ∧ st_flags st = flags ∧ st_blocks st = stored_length rs
          ∧ st_log2_block_size st = k ∧ st_log2_blocks_per_page st = q - k ∧ st_children st = []
      | inl err => err = ENOMEM
      end.
Proof.
  intros Hq Hq2 Hk Hk30 Hrs Hb Hsz He. pose proof (Z.pow_pos_nonneg 2 k) as Hpos.
  unfold _store_create. rewrite decide_False by (rewrite land_pow2_pred by lia; lia).
  destruct (alloc o) as [[] o1] eqn:Ho1; [|eexists _, _; split_and!; [done|intros ->; done|done]].
  unfold store_set_runs. rewrite decide_True by done.
  destruct (alloc o1) as [[] o2] eqn:Ho2; [|eexists _, _; split_and!; [done|intros ->|done]; by simplify_eq/=].
  rewrite decide_True by (simpl; lia). rewrite (store_derive_spec _ k q) by done. cbn [mbind option_bind].
  eexists _, _. split; [done|]. split; [intros ->; by simplify_eq/=|].
  split; [apply with_derived_level_ok; simpl; (done || lia)|done].
Qed.

(** C39. Creation of a store whose runs do not repeat: with a power of two of at
    most a page as block size, valid runs, and an end that is not given (0) or the
    sum of the run lengths, as in a clone of such a store, [_store_create] returns a
    store that satisfies the invariant of the refinement theorems, with the derived
    fields its documentation promises (the end is the sum of the run lengths,
    [blocks] counts the runs that are not holes), or ENOMEM when memory is
    short; no assertion fails.  With a larger end the runs repeat, and the invariant does not
    hold. *)
Theorem store_create_establishes cl port flags k q rs e o :
  vm_page_size = 2 ^ q → q < 64 → 0 ≤ k ≤ q → k ≤ 30 →
  Forall run_ok rs → total_length rs * 2 ^ k < 2 ^ 63 → zlen rs * 16 < 2 ^ 32 → e = 0 ∨ e = total_length rs →
  ∃ res o', _store_create cl port flags (2 ^ k) rs e o = Some (res, o')
    ∧ (o = [] → o' = [] ∧ res ≠ inl ENOMEM)
    ∧ match res with
      | inr st => level_ok (2 ^ k) st ∧ st_runs st = rs ∧ st_class st = cl ∧ st_port st = port
          ∧ st_flags st = flags ∧ st_blocks st = stored_length rs
          ∧ st_log2_block_size st = k ∧ st_log2_blocks_per_page st = q - k ∧ st_children st = []
      | inl err => err = ENOMEM
      end.
Proof. apply store_create_spec. Qed.
End create.

(** ** Requests that are refused *)





(** ** A tree of stores

    A remapping of the concatenation of two parts of two disks of 8 blocks of 2
    bytes. *)
Definition page_4096 : PageSize := 4096.

Definition created (r : outcome store) : store :=
  match r with
  | Some (inr st, _) => st
  | _ => Store 0 [] 0 0 0 None 0 0 0 0 0 0 0 None 0 STORAGE_OTHER []
  end.

Definition part (port start length : Z) : store :=
  created (_store_create (H := page_4096) STORAGE_DEVICE port 0 2 [StoreRun start length] 0 []).

Definition two_parts : store :=
  with_children [part 1 3 2; part 2 0 3]
    (created (_store_create (H := page_4096) STORAGE_CONCAT 0 0 2 [StoreRun 0 2; StoreRun 0 3] 0 [])).

Definition remapped : store :=
  with_children [two_parts]
    (created (_store_create (H := page_4096) STORAGE_REMAP 0 0 2 [StoreRun 4 1; StoreRun 0 3] 0 [])).

Definition numbered_disk : disk := λ p b, [10 * p + b; 0].

Ltac solve_level_ok :=
  split; match goal with
         | |- Forall _ _ => apply (bool_decide_eq_true_1 _); by vm_compute
         | |- _ => by vm_compute
         end.

Lemma remapped_ok : tree_ok 2 remapped ∧ tree_writable remapped.
Proof.
  split.
  - assert (Hp : ∀ port start length, (port, start, length) ∈ [(1, 3, 2); (2, 0, 3)] →
      tree_ok 2 (part port start length)).
    { intros ? ? ? H. repeat (apply elem_of_cons in H as [[= -> -> ->]|H]);
        [..|by apply elem_of_nil in H]; (split; [solve_level_ok|]; split; [|done]); intros _;
        apply (bool_decide_eq_true_1 _); by vm_compute. }
    split; [solve_level_ok|]. split; [done|]. split; [|done].
    split; [solve_level_ok|]. split; [done|]. split; [apply Hp; set_solver|].
    split; [apply Hp; set_solver|done].
  - by vm_compute.
Qed.

(** The first four blocks of the remapped store. *)
Definition four_blocks : list target := [TBlock 2 2; TBlock 1 3; TBlock 1 4; TBlock 2 0].

Lemma four_blocks_prefix : Some <$> four_blocks `prefix_of` drop (Z.to_nat 0) (tree_map remapped).
Proof. exists []. by vm_compute. Qed.

Lemma store_read_refines_witness :
  delivers 0 (zlen four_blocks * 2) (mjoin (target_block 2 numbered_disk <$> four_blocks))
    (store_read numbered_disk remapped 0 (zlen four_blocks * 2) 0 []).
Proof.
  apply (store_read_refines 2 numbered_disk remapped 0 four_blocks 0).
  - exact (proj1 remapped_ok).
  - done.
  - done.
  - apply four_blocks_prefix.
Defined.

Lemma store_write_refines_witness :
  ∃ w', store_write remapped 0 [1; 2; 3; 4; 5; 6; 7; 8] numbered_disk = Some (E0, Some 8, w')
    ∧ ∀ p b, media_block w' p b =
        default (media_block numbered_disk p b)
          (last_write (zip four_blocks (chunks 2 4 [1; 2; 3; 4; 5; 6; 7; 8])) (TBlock p b)).
Proof.
  apply (store_write_refines 2 numbered_disk remapped 0 four_blocks [1; 2; 3; 4; 5; 6; 7; 8]).
  - exact (proj1 remapped_ok).
  - exact (proj2 remapped_ok).
  - done.
  - done.
  - done.
  - apply four_blocks_prefix.
Defined.

Lemma store_write_read_roundtrip_witness :
  ∃ w' fresh, store_write remapped 0 [1; 2; 3; 4; 5; 6; 7; 8] numbered_disk = Some (E0, Some 8, w')
    ∧ store_read w' remapped 0 8 0 [] = Some (inr ([1; 2; 3; 4; 5; 6; 7; 8], fresh), []).
Proof.
  apply (store_write_read_roundtrip 2 numbered_disk remapped 0 four_blocks [1; 2; 3; 4; 5; 6; 7; 8] 0).
  - exact (proj1 remapped_ok).
  - exact (proj2 remapped_ok).
  - done.
  - done.
  - done.
  - apply four_blocks_prefix.
  - by apply (bool_decide_eq_true_1 _).
  - by apply (bool_decide_eq_true_1 _).
Defined.

Lemma store_create_establishes_witness :
  ∃ st, _store_create (H := page_4096) STORAGE_DEVICE 7 0 (2 ^ 9) [StoreRun 8 2; StoreRun (-1) 3] 5 []
      = Some (inr st, [])
    ∧ level_ok (2 ^ 9) st ∧ st_runs st = [StoreRun 8 2; StoreRun (-1) 3]
    ∧ st_blocks st = 2 ∧ st_log2_block_size st = 9 ∧ st_log2_blocks_per_page st = 3.
Proof.
  destruct (store_create_establishes (H := page_4096) STORAGE_DEVICE 7 0 9 12
    [StoreRun 8 2; StoreRun (-1) 3] 5 []) as (res & o' & Hc & Ho & Hres); try done; try lia;
    [by apply (bool_decide_eq_true_1 _)|by right|].
  destruct (Ho eq_refl) as [-> Hne]. destruct res as [err|st]; [by destruct Hne; rewrite Hres|].
  exists st. destruct Hres as (Hl & Hr & _ & _ & _ & Hb & Hk & Hp & _). split_and!; done.
Defined.


(** ** Where the code does not do what it means to *)

(** A read that goes past the end of a store of two runs is not cut short: the
    clamp in [store_read] takes the offset in the run for the offset in the
    store, and [store_next_run] goes around to the first run, as if the runs
    repeated.  Two blocks from the last block on are the last and the first. *)
Example store_read_wraps_past_end :
  let st := created (_store_create (H := page_4096) STORAGE_DEVICE 1 0 2
              [StoreRun 4 1; StoreRun 6 1] 0 []) in
  st_end st = 2
  ∧ store_read numbered_disk st 1 4 100 [] = Some (inr ([16; 0; 14; 0], false), []).
Proof. by vm_compute. Qed.

(** In a store whose runs repeat, the base of a block of a later iteration is the
    address divided by [wrap_dst], not the number of the iteration times
    [wrap_dst].  With two stripes interleaved by two blocks, block 6 is in iteration
    1, whose base is 2; the code computes the base 6 / 2 = 3. *)
Example store_find_first_run_base :
  let st := with_wrap_dst 2 (created (_store_create (H := page_4096) STORAGE_INTERLEAVE 0 0 2
              [StoreRun 0 2; StoreRun 0 2] 16 [])) in
  store_find_first_run st 4 = Some (Some (0, 0, 2)) ∧ store_find_first_run st 6 = Some (Some (0, 1, 3)).
Proof. by vm_compute. Qed.

(** The block count of a store whose runs repeat counts the last, partial,
    iteration as if each of its runs was at its start: 6 blocks of the 5 that the
    store has. *)
Example store_derive_overcounts :
  st_blocks (created (_store_create (H := page_4096) STORAGE_INTERLEAVE 0 0 2
    [StoreRun 0 1; StoreRun 0 1] 5 [])) = 6.
Proof. by vm_compute. Qed.
