(* ===== verification/StoreOps.v ===== *)
(** * Stores: remapping, concatenation and interleaving (libstore)

    [src/libstore/remap.c], [stripe.c], [zero.c] and [kids.c], with [lcm] of [src/libshouldbeinlibc/lcm.c]: the operations that
    build stores from stores.  The theorems give the address map of the result:
    a concatenation has the concatenation of its children's maps, a remapped
    store the slices of its source's map that its runs select. *)

From S2P Require Import Prelude Store StoreRefine StoreTree StoreProps.

(** ** Least common multiple *)

(** The recursion takes at most [2 * q + 2] calls for operands that are not
    negative. *)
Fixpoint gcd_calls (fuel : nat) (p q : Z) : option Z :=
  match fuel with
  | O => None
  | S fuel' =>
      if decide (p = 0) then Some q
      else if decide (q = 0) then Some p
      else if decide (p = q) then Some p
      else if decide (p < q) then gcd_calls fuel' q p
      else gcd_calls fuel' q (Z.rem p q)
  end.

Definition gcd (p q : Z) : option Z := gcd_calls (2 * Z.to_nat q + 2) p q.

(** A division by 0 is undefined. *)
Definition lcm (p q : Z) : option Z :=
  g ← gcd p q;
  if decide (g = 0) then None else chk64 (Z.quot p g * q).

(** ** Children *)
Definition store_set_children (st : store) (kids : list store) (o : allocs) : outcome store :=
  if decide (zlen kids * 8 < 2 ^ 32) then
    let '(ok, o) := alloc o in
    if ok then Some (inr (with_children kids st), o) else Some (inl ENOMEM, o)
  else None.

(** [err = ...; if (! err) ...], for calls that return a value. *)
Definition and_then {A B} (m : outcome A) (k : A → list bool → outcome B) : outcome B :=
  match m with
  | None => None
  | Some (inl err, o) => Some (inl err, o)
  | Some (inr x, o) => k x o
  end.

Section create.
Context `{PageSize}.

(** The children are [source] alone; a store that could not get its children is
    freed. *)
Definition store_remap_create (source : store) (rs : list store_run) (flags : Z) (o : allocs)
    : outcome store :=
  and_then
    (_store_create STORAGE_REMAP MACH_PORT_NULL (Z.lor flags (st_flags source))
       (st_block_size source) rs 0 o)
    (λ st o, store_set_children st [source] o).

Definition store_zero_create (size flags : Z) (o : allocs) : outcome store :=
  _store_create STORAGE_ZERO MACH_PORT_NULL (Z.lor flags STORE_INNOCUOUS) 1 [StoreRun 0 size] 0 o.

(** *** Run lists in terms of the source's runs *)

(** [xruns] with the number of runs it has room for. *)
Definition add_run (addr len : Z) (xs : list store_run * Z) (o : allocs)
    : (option (list store_run * Z)) * list bool :=
  let '(xruns, alloced) := xs in
  if decide (zlen xruns = alloced) then
    let '(ok, o) := alloc o in
    (if ok then Some (xruns ++ [StoreRun addr len], alloced * 2) else None, o)
  else (Some (xruns ++ [StoreRun addr len], alloced), o).

(** The loop over the base runs for one run, [left] blocks from [addr] on. *)
Fixpoint remap_run (base_runs : list store_run) (addr left : Z) (xs : list store_run * Z)
    (o : allocs) : outcome (list store_run * Z) :=
  match base_runs with
  | [] => Some (inr xs, o)
  | b :: base_runs' =>
      if decide (0 < left) then
        let baddr := run_start b in
        let blen := run_length b in
        if decide (blen ≤ addr) then remap_run base_runs' (addr - blen) left xs o
        else if decide (baddr < 0) then Some (inl EINVAL, o)
        else
          let len := blen - addr in
          match add_run (baddr + addr) (if decide (left < len) then left else len) xs o with
          | (None, o) => Some (inl ENOMEM, o)
          | (Some xs, o) => remap_run base_runs' 0 (left - len) xs o
          end
      else Some (inr xs, o)
  end.

Fixpoint remap_runs_loop (rs base_runs : list store_run) (xs : list store_run * Z) (o : allocs)
    : outcome (list store_run * Z) :=
  match rs with
  | [] => Some (inr xs, o)
  | r :: rs' =>
      and_then
        (if decide (0 ≤ run_start r) then remap_run base_runs (run_start r) (run_length r) xs o
         else
           match add_run (-1) (run_length r) xs o with
           | (None, o) => Some (inl ENOMEM, o)
           | (Some xs, o) => Some (inr xs, o)
           end)
        (remap_runs_loop rs' base_runs)
  end.

(** The result of the [realloc] that gives back the unused room is not checked;
    its failure leaves a null pointer. *)
Definition store_remap_runs (rs base_runs : list store_run) (o : allocs)
    : outcome (list store_run) :=
  let alloced := zlen rs + zlen base_runs in
  let '(ok, o) := alloc o in
  if ok then
    and_then (remap_runs_loop rs base_runs ([], alloced) o)
      (λ '(xruns, alloced) o,
        if decide (zlen xruns < alloced) then
          let '(ok, o) := alloc o in
          if ok then Some (inr xruns, o) else None
        else Some (inr xruns, o))
  else Some (inl ENOMEM, o).

(** A [zero] store has one run. *)
Fixpoint zero_remap_length (rs : list store_run) (old_length length : Z) : option Z :=
  match rs with
  | [] => Some length
  | r :: rs' =>
      if decide (run_start r < 0 ∨ old_length ≤ run_start r + run_length r) then None
      else zero_remap_length rs' old_length (length + run_length r)
  end.

Definition zero_remap (source : store) (rs : list store_run) (o : allocs) : outcome store :=
  match st_runs source with
  | [] => None
  | r0 :: rest =>
      Some (match zero_remap_length rs (run_length r0) 0 with
            | None => inl EINVAL
            | Some length => inr (with_runs (StoreRun (run_start r0) length :: rest) source)
            end, o)
  end.

(** The source with other runs, before its fields are derived anew: the end is set
    to 0, and the reference to the file it was made from is given up. *)
Definition replace_runs (xruns : list store_run) (source : store) : store :=
  let st := with_runs xruns source in
  let st := with_flags (Z.land (st_flags st) (Z.lnot STORE_ENFORCED)) st in
  let st := with_derived 0 (st_wrap_src st) (st_blocks st) (st_size st)
              (st_log2_block_size st) (st_log2_blocks_per_page st) st in
  store_close_source st.

Definition store_remap (source : store) (rs : list store_run) (o : allocs) : outcome store :=
  match st_class source with
  | STORAGE_ZERO => zero_remap source rs o
  | STORAGE_CONCAT | STORAGE_INTERLEAVE => store_remap_create source rs 0 o
  | _ =>
      and_then (store_remap_runs rs (st_runs source) o)
        (λ xruns o, st ← _store_derive (replace_runs xruns source); Some (inr st, o))
  end.

(** *** Names of concatenated stores *)

(** The name of a store class; the classes that only open other stores have
    identifiers in common with these. *)
Definition class_name (c : file_storage_class) : list Z :=
  match c with
  | STORAGE_DEVICE => [100; 101; 118; 105; 99; 101]
  | STORAGE_HURD_FILE => [102; 105; 108; 101]
  | STORAGE_NETWORK => [110; 98; 100]
  | STORAGE_MEMORY => [109; 101; 109; 111; 98; 106]
  | STORAGE_TASK => [116; 97; 115; 107]
  | STORAGE_ZERO => [122; 101; 114; 111]
  | STORAGE_CONCAT => [99; 111; 110; 99; 97; 116]
  | STORAGE_INTERLEAVE => [105; 110; 116; 101; 114; 108; 101; 97; 118; 101]
  | STORAGE_REMAP => [114; 101; 109; 97; 112]
  | STORAGE_COPY => [99; 111; 112; 121]
  | STORAGE_OTHER | STORAGE_LAYER => [117; 110; 107; 110; 111; 119; 110]
  end.

(** The characters @+=,._%|;^!~'& *)
Definition try_seps : list Z :=
  [64; 43; 61; 44; 46; 95; 37; 124; 59; 94; 33; 126; 39; 38].

(** [for (s = try_seps, fail = 1; *s && fail; s++)]: what is left of [try_seps]
    at the end. *)
Fixpoint sep_loop (s : list Z) (fail : bool) (names : list (list Z)) : list Z :=
  match s with
  | [] => []
  | c :: s' =>
      if fail then sep_loop s' (existsb (λ name, bool_decide (c ∈ name)) names) names else s
  end.

Definition store_children_name (kids : list store) (o : allocs) : outcome (list Z) :=
  if decide (kids = []) then
    let '(ok, o) := alloc o in
    Some (if ok then inr [] else inl ENOMEM, o)
  else
    match mapM st_name kids with
    | None => Some (inl EINVAL, o)
    | Some names =>
        match sep_loop try_seps true names with
        | c :: _ =>
            let '(ok, o) := alloc o in
            Some (if ok then
                    inr (mjoin (zip_with (λ k name, c :: class_name (st_class k) ++ 58 :: name)
                           kids names))
                  else inl ENOMEM, o)
        | [] => Some (inl EGRATUITOUS, o)
        end
    end.

(** *** Concatenation and interleaving *)

(** [for (...) block_size = lcm (block_size, stores[i]->block_size);] *)
Fixpoint common_block_size (stores : list store) (block_size : Z) : option Z :=
  match stores with
  | [] => Some block_size
  | st :: stores' => block_size ← lcm block_size (st_block_size st); common_block_size stores' block_size
  end.

Definition common_flags (stores : list store) : Z :=
  foldl (λ f st, Z.land f (st_flags st)) STORE_BACKEND_FLAGS stores.

Definition store_concat_create (stores : list store) (flags : Z) (o : allocs) : outcome store :=
  block_size ← common_block_size stores 1;
  and_then
    (_store_create STORAGE_CONCAT MACH_PORT_NULL (Z.lor flags (common_flags stores)) block_size
       ((λ st, StoreRun 0 (st_end st)) <$> stores) 0 o)
    (λ st o,
      and_then (store_set_children st stores o)
        (λ st o,
          match store_children_name (st_children st) o with
          | None => None
          | Some (inr name, o) => Some (inr (with_name_misc (Some name) (st_misc st) (st_misc_len st) st), o)
          | Some (inl err, o) =>
              (* Can't find a name; deal.  *)
              if decide (err = EINVAL) then Some (inr st, o) else Some (inl err, o)
          end)).

(** The loop for the end of the shortest stripe, in blocks of [block_size]. *)
Fixpoint ileave_min_end (stripes : list store) (block_size min_end : Z) : option Z :=
  match stripes with
  | [] => Some min_end
  | st :: stripes' =>
      end_ ← (if decide (st_block_size st ≠ block_size) then
                if decide (st_block_size st = 0 ∨ block_size / st_block_size st = 0) then None
                else Some (s64 (u64 (st_end st) / (block_size / st_block_size st)))
              else Some (st_end st));
      ileave_min_end stripes' block_size
        (if decide (min_end < 0) then end_ else if decide (end_ < min_end) then end_ else min_end)
  end.

Definition store_ileave_create (stripes : list store) (interleave flags : Z) (o : allocs)
    : outcome store :=
  block_size ← common_block_size stripes 1;
  if decide (block_size = 0) then None else
  if decide (u64 interleave < block_size ∨ u64 interleave mod block_size ≠ 0) then
    Some (inl EINVAL, o)
  else
    let interleave := s64 (u64 interleave / block_size) in
    min_end ← ileave_min_end stripes block_size 0;
    and_then
      (_store_create STORAGE_INTERLEAVE MACH_PORT_NULL (Z.lor (common_flags stripes) flags)
         block_size ((λ _, StoreRun 0 interleave) <$> stripes) min_end o)
      (λ st o, store_set_children (with_wrap_dst interleave st) stripes o).
End create.

(** ** Least common multiples are computed *)
Lemma gcd_calls_spec fuel p q :
  0 ≤ p → 0 ≤ q → 2 * q + (if decide (p < q) then 1 else 0) < Z.of_nat fuel →
  gcd_calls fuel p q = Some (Z.gcd p q).
Proof.
  revert p q. induction fuel as [|fuel IH]; intros p q Hp Hq Hf; [case_decide; lia|]. simpl.
  destruct (decide (p = 0)) as [->|]; [rewrite Z.gcd_0_l, Z.abs_eq by lia; done|].
  destruct (decide (q = 0)) as [->|]; [rewrite Z.gcd_0_r, Z.abs_eq by lia; done|].
  destruct (decide (p = q)) as [->|]; [rewrite Z.gcd_diag, Z.abs_eq by lia; done|].
  destruct (decide (p < q)) as [Hlt|Hge].
  - rewrite IH, Z.gcd_comm; [done|lia..|]. rewrite decide_False by lia. lia.
  - rewrite Z.rem_mod_nonneg by lia. pose proof (Z.mod_pos_bound p q).
    rewrite IH; [|lia..|rewrite decide_False by lia; lia].
    by rewrite Z.gcd_comm, Z.gcd_mod, Z.gcd_comm by lia.
Qed.

Lemma gcd_spec p q : 0 ≤ p → 0 ≤ q → gcd p q = Some (Z.gcd p q).
Proof. intros Hp Hq. apply gcd_calls_spec; [done..|]. case_decide; lia. Qed.

Lemma lcm_spec p q :
  0 < p → 0 < q → Z.lcm p q < 2 ^ 63 → lcm p q = Some (Z.lcm p q).
Proof.
  intros Hp Hq Hb. unfold lcm. rewrite gcd_spec by lia. cbn [mbind option_bind].
  assert (Hg : 0 < Z.gcd p q).
  { pose proof (Z.gcd_nonneg p q). destruct (decide (Z.gcd p q = 0)) as [H0|]; [|lia].
    apply Z.gcd_eq_0_l in H0. lia. }
  rewrite decide_False by lia.
  assert (Z.quot p (Z.gcd p q) * q = Z.lcm p q) as ->; [|apply chk64_Some; pose proof (Z.lcm_nonneg p q); lia].
  destruct (Z.gcd_divide_l p q) as [a Ha]. destruct (Z.gcd_divide_r p q) as [b Hb'].
  unfold Z.lcm. rewrite Z.quot_div_nonneg by lia.
  set (g := Z.gcd p q) in *. clearbody g.
  assert (p / g = a) as -> by (subst p; apply Z.div_mul; lia).
  assert (q / g = b) as -> by (subst q; apply Z.div_mul; lia).
  rewrite Z.abs_eq by nia. subst p q. lia.
Qed.

(** ** The address map of a concatenation *)
Lemma tree_ok_intro {W} `{HM : Media W} bs {HMO : MediaOk bs W} st :
  level_ok bs st → leaf_ok bs st → Forall (tree_ok bs) (st_children st) → tree_ok bs st.
Proof.
  intros Hl Hf Hk. destruct st as [? ? ? ? ? ? ? ? ? ? ? ? ? ? ? ? kids]. simpl in Hk.
  split; [done|]. split; [done|]. clear Hl Hf. induction Hk; [done|by split].
Qed.

Lemma length_tree_map bs st : level_ok bs st → zlen (tree_map st) = st_end st.
Proof.
  intros Hst. rewrite tree_map_eq, length_fmap, (length_runs_map 0) by apply (lo_runs _ _ Hst).
  by rewrite (lo_end _ _ Hst), (lo_wrap _ _ Hst).
Qed.

(** Looking up all the addresses of a map one by one. *)
Lemma lookup_all {A} (l : list (option A)) :
  (λ a, mjoin (l !z a)) <$> seqZ 0 (zlen l) = l.
Proof.
  apply list_eq. intros i. rewrite list_lookup_fmap. destruct (decide (i < length l)%nat) as [Hi|Hi].
  - rewrite lookup_seqZ_lt by lia. destruct (lookup_lt_is_Some_2 l i Hi) as [x Hx].
    simpl. unfold lookupz. rewrite decide_True by lia.
    replace (Z.to_nat (0 + Z.of_nat i)) with i by lia. by rewrite Hx.
  - rewrite lookup_seqZ_ge by lia. by rewrite lookup_ge_None_2 by lia.
Qed.

Lemma concat_map_spec (f : place → option target) pre kids all bs :
  (∀ pl, f pl = (kid ← List.map tree_map all !z pl.1; mjoin (kid !z pl.2))) → all = pre ++ kids →
  Forall (level_ok bs) kids →
  (λ pl, pl ≫= f) <$> runs_map (zlen pre) ((λ st, StoreRun 0 (st_end st)) <$> kids)
    = mjoin (tree_map <$> kids).
Proof.
  intros Hf Heq Hk. revert pre Heq. induction Hk as [|k kids Hk _ IH]; intros pre Heq; [done|].
  rewrite !fmap_cons. cbn [runs_map mjoin list_join]. rewrite fmap_app.
  assert (Hpre : zlen pre + 1 = zlen (pre ++ [k])) by (rewrite length_app; simpl; lia).
  rewrite Hpre, (IH (pre ++ [k])) by (by rewrite <-app_assoc).
  change (mjoin (tree_map k :: (tree_map <$> kids))) with (tree_map k ++ mjoin (tree_map <$> kids)).
  f_equal. unfold run_map. simpl run_start. simpl run_length.
  rewrite decide_False by lia. rewrite <-(length_tree_map bs k Hk).
  rewrite <-list_fmap_compose. rewrite <-(lookup_all (tree_map k)) at 2.
  apply list_fmap_ext. intros _ a _. simpl. rewrite Hf. simpl.
  rewrite (lookupz_map _ _ _ k); [done|]. subst all. by apply lookupz_mid.
Qed.

Lemma common_block_size_same bs stores :
  0 < bs < 2 ^ 63 → stores ≠ [] → Forall (λ st, st_block_size st = bs) stores →
  common_block_size stores 1 = Some bs.
Proof.
  intros Hbs Hne Hall.
  assert (Hsame : common_block_size stores bs = Some bs).
  { clear Hne. induction Hall as [|st stores Hst _ IH]; [done|]. simpl.
    assert (Hd : Z.lcm bs bs = bs) by (rewrite Z.lcm_diag, Z.abs_eq; lia).
    rewrite Hst, lcm_spec, Hd by (rewrite ?Hd; lia). apply IH. }
  destruct Hall as [|st stores Hst Hall]; [done|]. simpl in *.
  assert (Hd : Z.lcm bs bs = bs) by (rewrite Z.lcm_diag, Z.abs_eq; lia).
  assert (Hd1 : Z.lcm 1 bs = bs) by (rewrite Z.lcm_1_l, Z.abs_eq; lia).
  rewrite Hst, lcm_spec, Hd in Hsame by (rewrite ?Hd; lia).
  rewrite Hst, lcm_spec, Hd1 by (rewrite ?Hd1; lia). apply Hsame.
Qed.

(** ** Run lists *)

(** The underlying addresses of the blocks that runs cover. *)
Definition run_addrs (r : store_run) : list (option Z) :=
  if decide (run_start r < 0) then replicate (Z.to_nat (run_length r)) None
  else Some <$> seqZ (run_start r) (run_length r).

Definition addrs (rs : list store_run) : list (option Z) := mjoin (run_addrs <$> rs).

(** The part of a map that a run selects; a run past the end selects less. *)
Definition selected {A} (m : list (option A)) (r : store_run) : list (option A) :=
  if decide (run_start r < 0) then replicate (Z.to_nat (run_length r)) None
  else take (Z.to_nat (run_length r)) (drop (Z.to_nat (run_start r)) m).

Definition sub_run (base : list store_run) (x : store_run) : Prop :=
  ∃ b, b ∈ base ∧ 0 ≤ run_start b ≤ run_start x
    ∧ run_start x + run_length x ≤ run_start b + run_length b.

Lemma addrs_cons r rs : addrs (r :: rs) = run_addrs r ++ addrs rs.
Proof. done. Qed.

Lemma addrs_app rs rs' : addrs (rs ++ rs') = addrs rs ++ addrs rs'.
Proof. unfold addrs. by rewrite fmap_app, join_app. Qed.

Lemma length_run_addrs r : run_ok r → zlen (run_addrs r) = run_length r.
Proof.
  intros [? _]. unfold run_addrs. case_decide.
  - rewrite length_replicate. lia.
  - rewrite length_fmap, length_seqZ. lia.
Qed.

Lemma length_addrs rs : Forall run_ok rs → zlen (addrs rs) = total_length rs.
Proof.
  induction 1 as [|r rs Hr _ IH]; [done|].
  rewrite addrs_cons, length_app, Nat2Z.inj_add, length_run_addrs, IH by done. done.
Qed.

Lemma runs_map_addrs i rs : (λ pl : option place, snd <$> pl) <$> runs_map i rs = addrs rs.
Proof.
  revert i. induction rs as [|r rs IH]; intros i; [done|].
  cbn [runs_map]. rewrite fmap_app, IH, addrs_cons. f_equal. unfold run_map, run_addrs. case_decide.
  - by rewrite fmap_replicate.
  - by rewrite <-list_fmap_compose.
Qed.

Lemma take_seqZ s l n : 0 ≤ l → take (Z.to_nat n) (seqZ s l) = seqZ s (Z.max 0 (Z.min n l)).
Proof.
  intros Hl. destruct (decide (0 < n)); [|replace (Z.to_nat n) with O by lia; by rewrite (seqZ_nil _ (Z.max _ _)) by lia].
  rewrite <-(Zplus_minus (Z.min n l) l) at 1. rewrite seqZ_app by lia.
  destruct (decide (n ≤ l)).
  - rewrite take_app_length' by (rewrite length_seqZ; lia). f_equal. lia.
  - rewrite take_ge by (rewrite length_app, !length_seqZ; lia).
    rewrite (seqZ_nil _ (l - _)), app_nil_r by lia. f_equal. lia.
Qed.

Lemma add_run_spec addr len xr al :
  ∃ al', add_run addr len (xr, al) [] = (Some (xr ++ [StoreRun addr len], al'), []).
Proof. unfold add_run. case_decide; simpl; by eexists. Qed.

(** What the loop for one run yields, [s] being the addresses the run selects: an
    error if there is a hole among them, or runs for them after [xr]. *)
Definition run_remapped (base : list store_run) (xr : list store_run)
    (r : outcome (list store_run * Z)) (s : list (option Z)) : Prop :=
  (None ∈ s ∧ r = Some (inl EINVAL, []))
  ∨ ((None ∉ s) ∧ ∃ xr1 al, r = Some (inr (xr ++ xr1, al), []) ∧ addrs xr1 = s
       ∧ Forall run_ok xr1 ∧ Forall (sub_run base) xr1).

Lemma run_remapped_nil base xr al : run_remapped base xr (Some (inr (xr, al), [])) [].
Proof.
  right. split; [intros []%elem_of_nil|]. exists [], al. by rewrite app_nil_r.
Qed.

Lemma run_remapped_weaken b base xr r s : run_remapped base xr r s → run_remapped (b :: base) xr r s.
Proof.
  intros [H|(H1 & xr1 & al & H2 & H3 & H4 & H5)]; [by left|right]. split; [done|].
  exists xr1, al. split_and!; try done. eapply Forall_impl; [exact H5|].
  intros x (b' & ? & ?). exists b'. split; [by right|done].
Qed.

(** A run before the rest of the addresses. *)
Lemma run_remapped_cons b base xr x r s :
  run_ok x → 0 ≤ run_start b ≤ run_start x → run_start x + run_length x ≤ run_start b + run_length b →
  run_remapped base (xr ++ [x]) r s →
  run_remapped (b :: base) xr r ((Some <$> seqZ (run_start x) (run_length x)) ++ s).
Proof.
  intros Hx Hb1 Hb2 H. apply (run_remapped_weaken b) in H.
  destruct H as [[Hn Hr]|(Hn & xr1 & al & Hr & Ha & Hok & Hsub)].
  - left. split; [by apply elem_of_app; right|done].
  - right. split.
    { intros [(? & ? & _)%list_elem_of_fmap|]%elem_of_app; done. }
    exists (x :: xr1), al. split; [by rewrite Hr, <-app_assoc|]. split.
    { rewrite addrs_cons, Ha. unfold run_addrs. by rewrite decide_False by lia. }
    split; constructor; try done. exists b. split; [left|lia].
Qed.

Lemma remap_run_spec base addr left xr al :
  Forall run_ok base → 0 ≤ addr →
  run_remapped base xr (remap_run base addr left (xr, al) [])
    (take (Z.to_nat left) (drop (Z.to_nat addr) (addrs base))).
Proof.
  intros Hbase. revert addr left xr al.
  induction Hbase as [|b base Hb Hbase IH]; intros addr left xr al Ha.
  { change (addrs []) with (@nil (option Z)). rewrite drop_nil, take_nil. apply run_remapped_nil. }
  cbn [remap_run]. destruct (decide (0 < left)) as [Hl|Hl].
  2:{ replace (Z.to_nat left) with O by lia. apply run_remapped_nil. }
  pose proof (length_run_addrs b Hb) as Hlen. rewrite addrs_cons.
  destruct (decide (run_length b ≤ addr)) as [Hge|Hlt].
  { rewrite drop_app_ge by lia.
    replace (Z.to_nat addr - length (run_addrs b))%nat with (Z.to_nat (addr - run_length b)) by lia.
    apply run_remapped_weaken, IH. lia. }
  destruct Hb as (Hpos & Hm1 & Hbnd). rewrite drop_app_le by lia. unfold run_addrs.
  destruct (decide (run_start b < 0)) as [Hhole|Hstart].
  { left. split; [|done]. rewrite drop_replicate.
    destruct (Z.to_nat (run_length b) - Z.to_nat addr)%nat eqn:E1; [lia|].
    destruct (Z.to_nat left) eqn:E2; [lia|]. simpl. left. }
  set (len := run_length b - addr).
  destruct (add_run_spec (run_start b + addr) (if decide (left < len) then left else len) xr al)
    as [al1 ->].
  assert ((if decide (left < len) then left else len) = Z.min left len) as -> by (case_decide; lia).
  rewrite <-fmap_drop, drop_seqZ by lia. rewrite take_app, <-fmap_take, take_seqZ by lia.
  rewrite length_fmap, length_seqZ.
  replace (Z.max 0 (Z.min left (run_length b - addr))) with (Z.min left len) by lia.
  replace (Z.to_nat left - Z.to_nat (run_length b - addr))%nat with (Z.to_nat (left - len)) by lia.
  apply (run_remapped_cons b base xr (StoreRun (run_start b + addr) (Z.min left len)));
    [unfold run_ok; simpl; lia|simpl; lia..|].
  rewrite <-(drop_0 (addrs base)). apply (IH 0). lia.
Qed.

(** A run that selects a hole of the source is refused. *)
Definition selects_hole {A} (m : list (option A)) (r : store_run) : Prop :=
  0 ≤ run_start r ∧ None ∈ selected m r.

Lemma remap_runs_loop_spec rs base xr al :
  Forall run_ok base → Forall run_ok rs →
  (Exists (selects_hole (addrs base)) rs
     ∧ remap_runs_loop rs base (xr, al) [] = Some (inl EINVAL, []))
  ∨ ((¬ Exists (selects_hole (addrs base)) rs)
     ∧ ∃ xr1 al', remap_runs_loop rs base (xr, al) [] = Some (inr (xr ++ xr1, al'), [])
       ∧ addrs xr1 = mjoin (selected (addrs base) <$> rs) ∧ Forall run_ok xr1
       ∧ Forall (λ x, run_start x < 0 ∨ sub_run base x) xr1).
Proof.
  intros Hbase Hrs. revert xr al. induction Hrs as [|r rs Hr _ IH]; intros xr al.
  { right. split; [intros H; inversion H|]. exists [], al. by rewrite app_nil_r. }
  cbn [remap_runs_loop].
  assert (Hone : run_remapped base xr
    (if decide (0 ≤ run_start r) then remap_run base (run_start r) (run_length r) (xr, al) []
     else match add_run (-1) (run_length r) (xr, al) [] with
          | (None, o) => Some (inl ENOMEM, o) | (Some xs, o) => Some (inr xs, o) end)
    (selected (addrs base) r) ∨ run_start r < 0).
  { destruct (decide (run_start r < 0)) as [|Hs]; [by right|left].
    rewrite decide_True by lia. unfold selected. rewrite decide_False by done.
    apply remap_run_spec; [done|lia]. }
  destruct (decide (run_start r < 0)) as [Hs|Hs].
  - clear Hone. rewrite decide_False by lia. destruct (add_run_spec (-1) (run_length r) xr al) as [al1 ->].
    cbn [and_then]. destruct (IH (xr ++ [StoreRun (-1) (run_length r)]) al1)
      as [[Hex Hr1]|(Hex & xr1 & al' & Hr1 & Ha & Hok & Hsub)]; [left; split; [by right|done]|right].
    split; [intros [[? _]|H]%Exists_cons; [lia|done]|].
    exists (StoreRun (-1) (run_length r) :: xr1), al'. split; [by rewrite Hr1, <-app_assoc|].
    split; [rewrite addrs_cons, Ha; unfold run_addrs, selected; simpl;
      by rewrite (decide_True (P := run_start r < 0)) by done|].
    split; constructor; try done; [|by left]. destruct Hr as (? & ? & ?). unfold run_ok. simpl. lia.
  - destruct Hone as [Hone|]; [|lia].
    destruct Hone as [[Hn ->]|(Hn & xr1 & al1 & -> & Ha & Hok & Hsub)].
    { left. split; [left; split; [lia|done]|done]. }
    cbn [and_then]. destruct (IH (xr ++ xr1) al1)
      as [[Hex Hr1]|(Hex & xr2 & al' & Hr1 & Ha2 & Hok2 & Hsub2)]; [left; split; [by right|done]|right].
    split; [intros [[_ ?]|H]%Exists_cons; done|].
    exists (xr1 ++ xr2), al'. split; [by rewrite Hr1, <-app_assoc|].
    split; [by rewrite addrs_app, Ha, Ha2|]. rewrite !Forall_app. split; [done|]. split; [|done].
    eapply Forall_impl; [exact Hsub|]. by right.
Qed.

Lemma store_remap_runs_spec rs base :
  Forall run_ok base → Forall run_ok rs →
  (Exists (selects_hole (addrs base)) rs ∧ store_remap_runs rs base [] = Some (inl EINVAL, []))
  ∨ ((¬ Exists (selects_hole (addrs base)) rs)
     ∧ ∃ xr, store_remap_runs rs base [] = Some (inr xr, [])
       ∧ addrs xr = mjoin (selected (addrs base) <$> rs) ∧ Forall run_ok xr
       ∧ Forall (λ x, run_start x < 0 ∨ sub_run base x) xr).
Proof.
  intros Hbase Hrs. unfold store_remap_runs. simpl alloc. cbv iota beta.
  destruct (remap_runs_loop_spec rs base [] (zlen rs + zlen base) Hbase Hrs)
    as [[Hex ->]|(Hex & xr & al & -> & H)]; [by left|right].
  split; [done|]. exists xr. split; [|done]. cbn [and_then app]. by case_decide.
Qed.

Lemma fmap_selected {A B} (g : A → option B) (m : list (option A)) r :
  selected ((λ o, o ≫= g) <$> m) r = (λ o, o ≫= g) <$> selected m r.
Proof.
  unfold selected. case_decide; [by rewrite fmap_replicate|].
  by rewrite fmap_take, fmap_drop.
Qed.

Lemma fmap_mjoin {A B} (f : A → B) (ls : list (list A)) : f <$> mjoin ls = mjoin (fmap f <$> ls).
Proof.
  induction ls as [|l ls IH]; [done|].
  change (mjoin (l :: ls)) with (l ++ mjoin ls). by rewrite fmap_app, IH.
Qed.

(** The map of a node whose places depend on the underlying address alone. *)
Lemma tree_map_addrs st g :
  (∀ pl, class_target st (List.map tree_map (st_children st)) pl = g pl.2) →
  tree_map st = (λ o, o ≫= g) <$> addrs (st_runs st).
Proof.
  intros Hg. rewrite tree_map_eq, <-(runs_map_addrs 0), <-list_fmap_compose.
  apply list_fmap_ext. intros _ [pl|] _; [|done]. simpl. apply Hg.
Qed.

Lemma length_selected {A} (m : list (option A)) r :
  run_ok r → zlen (selected m r) ≤ run_length r.
Proof.
  intros [? _]. unfold selected. case_decide; [rewrite length_replicate; lia|].
  rewrite length_take. lia.
Qed.

Lemma length_selected_all {A} (m : list (option A)) rs :
  Forall run_ok rs → zlen (mjoin (selected m <$> rs)) ≤ total_length rs.
Proof.
  induction 1 as [|r rs Hr _ IH]; [done|].
  change (mjoin (selected m <$> r :: rs)) with (selected m r ++ mjoin (selected m <$> rs)).
  rewrite length_app. simpl. pose proof (length_selected m r Hr). lia.
Qed.

(** ** Building stores *)
Section build.
Context `{PageSize} {W : Type} {HM : Media W} (k q : Z) {HMO : MediaOk (2 ^ k) W}.
Hypothesis page_pow : vm_page_size = 2 ^ q.
Hypothesis page_fits : q < 64.
Hypothesis block_page : 0 ≤ k ≤ q.
Hypothesis block_fits : k ≤ 30.

(** A result that is an error of memory exhaustion or [e], or satisfies [P]; ENOMEM
    is returned only when an allocation fails. *)
Definition builds {A} (r : outcome A) (o : allocs) (e : error_t → Prop) (P : A → Prop) : Prop :=
  ∃ res o', r = Some (res, o') ∧ (o = [] → o' = [] ∧ res ≠ inl ENOMEM)
    ∧ match res with inr x => P x | inl err => err = ENOMEM ∨ e err end.

Lemma builds_and_then {A B} (m : outcome A) f o e (P : A → Prop) (Q : B → Prop) :
  builds m o e P → (∀ x o1, P x → builds (f x o1) o1 e Q) → builds (and_then m f) o e Q.
Proof.
  intros (res & o1 & -> & Ho & Hres) Hf. destruct res as [err|x]; simpl.
  - exists (inl err), o1. split; [done|]. split; [|done]. intros Hn. destruct (Ho Hn) as [-> Hne].
    split; [done|]. intros [= ->]. by apply Hne.
  - destruct (Hf x o1 Hres) as (res & o2 & -> & Ho2 & HQ). exists res, o2.
    split; [done|]. split; [|done]. intros Hn. by apply Ho2, Ho.
Qed.

Lemma builds_weaken {A} (m : outcome A) o e (P Q : A → Prop) :
  builds m o e P → (∀ x, P x → Q x) → builds m o e Q.
Proof.
  intros (res & o' & Hr & Ho & Hres) HPQ. exists res, o'. split; [done|]. split; [done|].
  destruct res; auto.
Qed.

Lemma set_children_builds st kids o e :
  zlen kids * 8 < 2 ^ 32 → builds (store_set_children st kids o) o e (λ st', st' = with_children kids st).
Proof.
  intros Hl. unfold store_set_children. rewrite decide_True by done.
  destruct (alloc o) as [[] o1] eqn:Ho; eexists _, _; (split; [done|]); split; try done; try (by left);
    intros ->; by simplify_eq/=.
Qed.

Lemma create_builds cl port flags rs o e :
  Forall run_ok rs → total_length rs * 2 ^ k < 2 ^ 63 → zlen rs * 16 < 2 ^ 32 →
  builds (_store_create cl port flags (2 ^ k) rs 0 o) o e
    (λ st, level_ok (2 ^ k) st ∧ st_runs st = rs ∧ st_class st = cl ∧ st_port st = port
       ∧ st_flags st = flags ∧ st_children st = []).
Proof.
  intros Hrs Hb Hsz. destruct (store_create_spec cl port flags k q rs 0 o) as (res & o' & Hr & Ho & Hres);
    try done; [by left|].
  exists res, o'. split; [done|]. split; [done|]. destruct res; [by left|]. naive_solver.
Qed.

Lemma children_name_builds kids o :
  builds (store_children_name kids o) o (λ err, err = EINVAL ∨ err = EGRATUITOUS) (λ _, True).
Proof.
  unfold store_children_name.
  assert (Halloc : ∀ name, builds (let '(ok, o) := alloc o in Some (if ok then inr name else inl ENOMEM, o))
    o (λ err, err = EINVAL ∨ err = EGRATUITOUS) (λ _ : list Z, True)).
  { intros name. destruct (alloc o) as [[] o1] eqn:Ho; eexists _, _; (split; [done|]); split; try done;
      try (by left); intros ->; by simplify_eq/=. }
  case_decide; [apply Halloc|]. destruct (mapM st_name kids) as [names|].
  - destruct (sep_loop try_seps true names); [|apply Halloc].
    eexists _, _. split; [done|]. split; [done|]. by right; right.
  - eexists _, _. split; [done|]. split; [done|]. by right; left.
Qed.

Definition total_end (stores : list store) : Z := total_length ((λ st, StoreRun 0 (st_end st)) <$> stores).

Lemma level_block_sizes kids :
  Forall (tree_ok (2 ^ k)) kids → Forall (level_ok (2 ^ k)) kids ∧ Forall (λ st, st_block_size st = 2 ^ k) kids.
Proof.
  intros Hk. split; eapply Forall_impl; try exact Hk; intros st (Hl & _)%tree_ok_inv; [done|].
  by apply lo_block_size.
Qed.

(** Concatenation: the store that [store_concat_create] builds from
    well-formed stores of one block size is well-formed, and its blocks are the
    blocks of the first store followed by those of the second, and so on.  The
    only errors are ENOMEM, and EGRATUITOUS when no separator for the name is
    found. *)
Theorem store_concat_create_correct kids flags o :
  kids ≠ [] → Forall (tree_ok (2 ^ k)) kids → Forall (λ st, 0 < st_end st) kids →
  total_end kids * 2 ^ k < 2 ^ 63 → zlen kids * 16 < 2 ^ 32 →
  builds (store_concat_create kids flags o) o (λ err, err = EGRATUITOUS)
    (λ st, tree_ok (2 ^ k) st ∧ tree_map st = mjoin (tree_map <$> kids)
       ∧ st_flags st = Z.lor flags (common_flags kids)).
Proof.
  intros Hne Hkids Hend Htot Hsz. pose proof (Z.pow_pos_nonneg 2 k) as Hpos.
  pose proof (Z.pow_le_mono_r 2 k 30) as Hle.
  destruct (level_block_sizes kids Hkids) as [Hlev Hbs].
  unfold store_concat_create. rewrite (common_block_size_same (2 ^ k)) by (done || lia).
  cbn [mbind option_bind]. eapply builds_and_then.
  { apply create_builds; [|done|by rewrite length_fmap]. apply Forall_fmap.
    eapply Forall_impl; [apply Forall_and; exact (conj Hend Hlev)|]. intros st [Hs Hl]. unfold run_ok. simpl.
    pose proof (lo_bound _ _ Hl) as Hb. rewrite (lo_size _ _ Hl) in Hb. nia. }
  intros st o1 (Hst & Hr & Hc & _ & Hf & _). eapply builds_and_then.
  { apply set_children_builds. lia. }
  intros ? o2 ->. simpl st_children.
  assert (Hok : ∀ nm m ml, tree_ok (2 ^ k) (with_name_misc nm m ml (with_children kids st))
    ∧ tree_map (with_name_misc nm m ml (with_children kids st)) = mjoin (tree_map <$> kids)
    ∧ st_flags (with_name_misc nm m ml (with_children kids st)) = Z.lor flags (common_flags kids)).
  { intros nm m ml. split; [apply tree_ok_intro; [by destruct Hst|intros Hlf; simpl in Hlf; by rewrite Hc in Hlf|done]|].
    split; [|done]. rewrite tree_map_eq. simpl st_runs. rewrite Hr.
    apply (concat_map_spec _ [] kids kids (2 ^ k)); [|done|done].
    intros pl. unfold class_target. simpl. by rewrite Hc. }
  destruct (children_name_builds kids o2) as (res & o3 & -> & Ho3 & Hres).
  destruct res as [err|nm].
  - case_decide as Herr.
    + eexists _, _. split; [done|]. split; [naive_solver|]. apply (Hok _ _ _).
    + eexists _, _. split; [done|]. split; [|simpl; naive_solver].
      intros Hn. destruct (Ho3 Hn) as [-> Hne3]. split; [done|]. intros [= ->]. by apply Hne3.
  - eexists _, _. split; [done|]. split; [naive_solver|]. apply (Hok _ _ _).
Qed.

(** A class whose runs [store_remap] rewrites in place. *)
Definition rewrites_runs (c : file_storage_class) : bool :=
  match c with
  | STORAGE_ZERO | STORAGE_CONCAT | STORAGE_INTERLEAVE => false
  | _ => true
  end.

Lemma replace_runs_fields xr source :
  let st := replace_runs xr source in
  st_runs st = xr ∧ st_end st = 0 ∧ st_block_size st = st_block_size source
  ∧ st_class st = st_class source ∧ st_port st = st_port source
  ∧ st_children st = st_children source
  ∧ st_flags st = Z.land (st_flags source) (Z.lnot STORE_ENFORCED) ∧ st_source st = MACH_PORT_NULL.
Proof. unfold replace_runs, store_close_source. case_decide; by split_and!. Qed.

(** Remapping: when no run selects a hole of the source, [store_remap] of a
    leaf or of a remapped store returns a well-formed store whose blocks are the
    blocks of the source that the runs select, in their order, and that no longer
    claims to be enforced; when one does, EINVAL is returned. *)
Theorem store_remap_correct source rs :
  tree_ok (2 ^ k) source → rewrites_runs (st_class source) = true →
  Forall run_ok rs → total_length rs * 2 ^ k < 2 ^ 63 →
  (Exists (selects_hole (addrs (st_runs source))) rs
     ∧ store_remap source rs [] = Some (inl EINVAL, []))
  ∨ ((¬ Exists (selects_hole (addrs (st_runs source))) rs)
     ∧ ∃ st, store_remap source rs [] = Some (inr st, [])
       ∧ tree_ok (2 ^ k) st ∧ tree_map st = mjoin (selected (tree_map source) <$> rs)
       ∧ st_flags st = Z.land (st_flags source) (Z.lnot STORE_ENFORCED)
       ∧ st_source st = MACH_PORT_NULL).
Proof.
  intros Hsrc Hc Hrs Htot. pose proof (Z.pow_pos_nonneg 2 k) as Hpos.
  pose proof Hsrc as (Hl & Hlf & Hk)%tree_ok_inv.
  assert (Hsr : store_remap source rs [] =
    and_then (store_remap_runs rs (st_runs source) [])
      (λ xruns o, st ← _store_derive (replace_runs xruns source); Some (inr st, o)))
    by (unfold store_remap; by destruct (st_class source)).
  rewrite Hsr. clear Hsr.
  destruct (store_remap_runs_spec rs (st_runs source) (lo_runs _ _ Hl) Hrs)
    as [[Hex ->]|(Hex & xr & -> & Ha & Hok & Hsub)]; [by left|right]. split; [done|].
  cbn [and_then]. destruct (replace_runs_fields xr source) as (Hr0 & He0 & Hb0 & Hc0 & Hp0 & Hk0 & Hf0 & Hs0).
  rewrite (lo_block_size _ _ Hl) in Hb0.
  set (st0 := replace_runs xr source) in *. clearbody st0.
  assert (Hlen : total_length xr ≤ total_length rs).
  { rewrite <-(length_addrs xr Hok), Ha. by apply length_selected_all. }
  assert (Htot0 : total_length (st_runs st0) * 2 ^ k < 2 ^ 63) by (rewrite Hr0; nia).
  rewrite (store_derive_spec st0 k q) by (done || (by left) || by rewrite Hr0). cbn [mbind option_bind].
  eexists. split; [done|]. split.
  { apply tree_ok_intro; [apply with_derived_level_ok; [lia|done|by rewrite Hr0|done]| |].
    - intros Hleaf. simpl in Hleaf |- *. rewrite Hr0, Hp0. rewrite Hc0 in Hleaf.
      specialize (Hlf Hleaf). rewrite Forall_forall in Hlf, Hsub |- *. intros x Hx Hx0.
      destruct (Hsub x Hx) as [|(b & Hb & ? & ?)]; [lia|]. specialize (Hlf b Hb). lia.
    - simpl. by rewrite Hk0. }
  split; [|done].
  set (g := λ a, class_target source (List.map tree_map (st_children source)) (0, a)).
  rewrite (tree_map_addrs source g), (tree_map_addrs _ g); simpl.
  - rewrite Hr0, Ha, fmap_mjoin, <-list_fmap_compose. f_equal. apply list_fmap_ext.
    intros _ r _. simpl. by rewrite fmap_selected.
  - intros pl. unfold g, class_target. simpl. rewrite Hk0, Hc0, Hp0. by destruct (st_class source).
  - intros pl. unfold g, class_target. by destruct (st_class source).
Qed.

Lemma ileave_min_end_zero stripes bs :
  Forall (λ st, st_block_size st = bs ∧ 0 ≤ st_end st) stripes → ileave_min_end stripes bs 0 = Some 0.
Proof.
  induction 1 as [|st stripes [Hb He] _ IH]; [done|]. cbn [ileave_min_end].
  rewrite decide_False by tauto. cbn [mbind option_bind]. rewrite decide_False by lia.
  rewrite decide_False by lia. done.
Qed.

Lemma total_length_constant (stripes : list store) n :
  total_length ((λ _, StoreRun 0 n) <$> stripes) = zlen stripes * n.
Proof. induction stripes as [|st stripes IH]; [done|]. rewrite fmap_cons. simpl in *. lia. Qed.

(** Interleaving loses the stripes' capacity: the smallest end of the stripes
    is accumulated from 0, never from the first stripe, so it stays 0 and the
    store ends after the first round of the stripes, however long they are. *)
Theorem store_ileave_capacity stripes n flags o :
  stripes ≠ [] → Forall (λ st, st_block_size st = 2 ^ k ∧ 0 ≤ st_end st) stripes →
  0 < n < 2 ^ 32 → zlen stripes * n * 2 ^ k < 2 ^ 63 → zlen stripes * 16 < 2 ^ 32 →
  builds (store_ileave_create stripes (n * 2 ^ k) flags o) o (λ _, False)
    (λ st, st_end st = zlen stripes * n ∧ st_wrap_src st = st_end st ∧ st_wrap_dst st = n
       ∧ st_children st = stripes).
Proof.
  intros Hne Hall Hn Htot Hsz. pose proof (Z.pow_pos_nonneg 2 k) as Hpos.
  pose proof (Z.pow_le_mono_r 2 k 30) as Hle.
  unfold store_ileave_create. rewrite (common_block_size_same (2 ^ k));
    [|lia|done|by eapply Forall_impl; [exact Hall|intros st [? _]]].
  cbn [mbind option_bind]. rewrite decide_False by lia.
  assert (Hfit : 0 ≤ n * 2 ^ k < 2 ^ 63) by nia. rewrite u64_id by lia.
  rewrite decide_False by (rewrite Z.mod_mul by lia; nia).
  rewrite Z.div_mul, s64_id, ileave_min_end_zero by (done || lia). cbn [mbind option_bind].
  eapply builds_and_then.
  { apply create_builds; [|by rewrite total_length_constant|by rewrite length_fmap].
    apply Forall_fmap, Forall_forall. intros st _. unfold run_ok. simpl. lia. }
  intros st o1 (Hst & Hr & _). eapply (builds_weaken _ _ _ _ _).
  - apply set_children_builds. lia.
  - intros ? ->. simpl. pose proof (lo_end _ _ Hst). pose proof (lo_wrap _ _ Hst).
    rewrite Hr, total_length_constant in *. split_and!; congruence.
Qed.
End build.

(** ** Examples *)
Definition example_parts : list store := [part 1 3 2; part 2 0 3].

Lemma part_ok port start length :
  0 ≤ start → 0 < length → start + length ≤ disk_blocks → tree_ok 2 (part port start length).
Proof.
  unfold disk_blocks. intros Hs Hl Hb.
  destruct (store_create_spec (H := page_4096) STORAGE_DEVICE port 0 1 12 [StoreRun start length] 0 [])
    as (res & o' & Hr & Ho & Hres); simpl; try done; try lia.
  { constructor; [|constructor]. unfold run_ok. simpl. lia. }
  change (2 ^ 1) with 2 in *.
  destruct (Ho eq_refl) as [-> Hne]. destruct res as [err|st]; [by subst err|].
  destruct Hres as (Hst & Hruns & Hc & Hp & _ & _ & _ & _ & Hk).
  assert (part port start length = st) as -> by (unfold part; by rewrite Hr).
  apply tree_ok_intro; [done| |rewrite Hk; constructor].
  intros _. rewrite Hruns. constructor; [|constructor]. simpl. unfold disk_blocks. lia.
Qed.

Lemma example_parts_ok : Forall (tree_ok (2 ^ 1)) example_parts.
Proof.
  do 2 (apply Forall_cons; split; [apply part_ok; unfold disk_blocks; lia|]). apply Forall_nil_2.
Qed.

Lemma store_concat_create_correct_witness :
  builds (store_concat_create (H := page_4096) example_parts 0 []) [] (λ err, err = EGRATUITOUS)
    (λ st, tree_ok (HMO := disk_media_ok) (2 ^ 1) st ∧ tree_map st = mjoin (tree_map <$> example_parts)
       ∧ st_flags st = Z.lor 0 (common_flags example_parts)).
Proof.
  apply (store_concat_create_correct (H := page_4096) 1 12 (HMO := disk_media_ok));
    try done; try lia; [apply example_parts_ok|by apply (bool_decide_eq_true_1 _)].
Defined.

Lemma store_remap_correct_witness :
  (Exists (selects_hole (addrs (st_runs (part 1 3 4)))) [StoreRun 2 2; StoreRun 0 1]
     ∧ store_remap (H := page_4096) (part 1 3 4) [StoreRun 2 2; StoreRun 0 1] [] = Some (inl EINVAL, []))
  ∨ ((¬ Exists (selects_hole (addrs (st_runs (part 1 3 4)))) [StoreRun 2 2; StoreRun 0 1])
     ∧ ∃ st, store_remap (H := page_4096) (part 1 3 4) [StoreRun 2 2; StoreRun 0 1] [] = Some (inr st, [])
       ∧ tree_ok (HMO := disk_media_ok) (2 ^ 1) st
       ∧ tree_map st = mjoin (selected (tree_map (part 1 3 4)) <$> [StoreRun 2 2; StoreRun 0 1])
       ∧ st_flags st = Z.land (st_flags (part 1 3 4)) (Z.lnot STORE_ENFORCED)
       ∧ st_source st = MACH_PORT_NULL).
Proof.
  apply (store_remap_correct (H := page_4096) 1 12 (HMO := disk_media_ok));
    try done; try lia; [apply part_ok; unfold disk_blocks; lia|by apply (bool_decide_eq_true_1 _)].
Defined.

Lemma store_ileave_capacity_witness :
  builds (store_ileave_create (H := page_4096) [part 1 0 8; part 2 0 8] (2 * 2 ^ 1) 0 []) [] (λ _, False)
    (λ st, st_end st = 2 * 2 ∧ st_wrap_src st = st_end st ∧ st_wrap_dst st = 2
       ∧ st_children st = [part 1 0 8; part 2 0 8]).
Proof.
  apply (store_ileave_capacity (H := page_4096) 1 12) with (stripes := [part 1 0 8; part 2 0 8]) (n := 2);
    try done; try lia. repeat constructor; by vm_compute.
Defined.

(** ** Where the code does not do what it means to *)

(** A run past the end of the source is cut short without an error: of the ten
    blocks from block 1 on, the three that exist are mapped. *)
Example store_remap_truncates :
  store_remap_runs [StoreRun 1 10] [StoreRun 20 4] [] = Some (inr [StoreRun 21 3], []).
Proof. by vm_compute. Qed.

(** When memory runs out while the unused room is given back, the null pointer is
    taken for the run list. *)
Example store_remap_runs_null :
  store_remap_runs [StoreRun 0 2] [StoreRun 20 4] [true; false] = None.
Proof. by vm_compute. Qed.

(** The separator of the name of a concatenation is the one after the separator
    that was found to be in none of the names: with the names "a" and "b+c", "@"
    is free, but "+" is used, and the name "+zero:a+zero:b+c" has three parts. *)
Example store_children_name_separator :
  let kid name := with_name_misc (Some name) None 0
                    (created (store_zero_create (H := page_4096) 4 0 [])) in
  store_children_name [kid [97]; kid [98; 43; 99]] [] =
    Some (inr (43 :: [122; 101; 114; 111; 58; 97] ++ 43 :: [122; 101; 114; 111; 58; 98; 43; 99]), []).
Proof. by vm_compute. Qed.

(** [zero_remap] changes the run of the store, but not its end and size. *)
Example zero_remap_keeps_size :
  let st := created (store_zero_create (H := page_4096) 100 0 []) in
  let st' := created (store_remap (H := page_4096) st [StoreRun 0 10] []) in
  st_size st = 100 ∧ st_runs st' = [StoreRun 0 10] ∧ st_size st' = 100.
Proof. by vm_compute. Qed.

(** A concatenation of stores of different block sizes takes the lengths of the
    children in their own blocks for lengths in common blocks: 8 blocks of 2 and
    8 blocks of 4 bytes are 48 bytes, but the result claims 64. *)
Example store_concat_block_sizes :
  let a := created (_store_create (H := page_4096) STORAGE_DEVICE 1 0 2 [StoreRun 0 8] 0 []) in
  let b := created (_store_create (H := page_4096) STORAGE_DEVICE 2 0 4 [StoreRun 0 8] 0 []) in
  st_size a + st_size b = 48
  ∧ st_size (created (store_concat_create (H := page_4096) [a; b] 0 [])) = 64.
Proof. by vm_compute. Qed.
