(* ===== verification/StoreEnc.v ===== *)
(** * Stores: encoding and decoding (libstore)

    [src/libstore/enc.c], [encode.c], [decode.c] and the encoding methods of the
    classes in [zero.c], [remap.c], [stripe.c] and [kids.c]: a store is sent to
    another task as four vectors (ports, integers, offsets and bytes) that the
    receiver rebuilds it from.  A vector is its array, the number of elements
    that count and the cursor; [None] is an access outside of the array.  The
    methods of the classes that are not modelled are the parameter [OtherEnc].

    A store that the library's own constructors have built is rebuilt exactly
    from its encoding, and the encoder writes within the vectors it has counted
    the room for. *)

From S2P Require Import Prelude Store StoreRefine StoreTree StoreProps StoreOps.

(** ** Vectors *)
Record vec := Vec { v_arr : list Z; v_num : Z; v_cur : Z }.

Record store_enc := Enc { e_ports : vec; e_ints : vec; e_offsets : vec; e_data : vec }.

(** [enc->ints[enc->cur_int++] = x;] and the like *)
Definition vec_put (x : Z) (v : vec) : option vec :=
  arr ← storez (v_cur v) x (v_arr v); Some (Vec arr (v_num v) (v_cur v + 1)).

Fixpoint vec_puts (xs : list Z) (v : vec) : option vec :=
  match xs with
  | [] => Some v
  | x :: xs' => v ← vec_put x v; vec_puts xs' v
  end.

(** [enc->ints[enc->cur_int++]] *)
Definition vec_get (v : vec) : option (Z * vec) :=
  x ← v_arr v !z v_cur v; Some (x, Vec (v_arr v) (v_num v) (v_cur v + 1)).

Definition count (n : Z) (v : vec) : vec := Vec (v_arr v) (u32 (v_num v + n)) (v_cur v).
Definition rewind (v : vec) : vec := Vec (v_arr v) (v_num v) 0.
Definition skip (n : Z) (v : vec) : vec := Vec (v_arr v) (v_num v) (u64 (v_cur v + n)).

Definition on_ports f (e : store_enc) := Enc (f (e_ports e)) (e_ints e) (e_offsets e) (e_data e).
Definition on_ints f (e : store_enc) := Enc (e_ports e) (f (e_ints e)) (e_offsets e) (e_data e).
Definition on_offsets f (e : store_enc) := Enc (e_ports e) (e_ints e) (f (e_offsets e)) (e_data e).
Definition on_data f (e : store_enc) := Enc (e_ports e) (e_ints e) (e_offsets e) (f (e_data e)).

Definition put_ports xs (e : store_enc) := v ← vec_puts xs (e_ports e); Some (on_ports (λ _, v) e).
Definition put_ints xs (e : store_enc) := v ← vec_puts xs (e_ints e); Some (on_ints (λ _, v) e).
Definition put_offsets xs (e : store_enc) := v ← vec_puts xs (e_offsets e); Some (on_offsets (λ _, v) e).
Definition put_data xs (e : store_enc) := v ← vec_puts xs (e_data e); Some (on_data (λ _, v) e).

Definition get_int (e : store_enc) : option (Z * store_enc) :=
  '(x, v) ← vec_get (e_ints e); Some (x, on_ints (λ _, v) e).

Definition store_enc_init (ports ints offsets data : list Z) : store_enc :=
  Enc (Vec ports (zlen ports) 0) (Vec ints (zlen ints) 0) (Vec offsets (zlen offsets) 0)
    (Vec data (zlen data) 0).

(** What is freed does not show; the structure is cleared. *)
Definition store_enc_dealloc (e : store_enc) : store_enc :=
  Enc (Vec [] 0 0) (Vec [] 0 0) (Vec [] 0 0) (Vec [] 0 0).

(** ** Class identifiers *)
Definition class_id (c : file_storage_class) : Z :=
  match c with
  | STORAGE_OTHER => 0 | STORAGE_DEVICE => 1 | STORAGE_HURD_FILE => 2 | STORAGE_NETWORK => 3
  | STORAGE_MEMORY => 4 | STORAGE_TASK => 5 | STORAGE_ZERO => 6 | STORAGE_CONCAT => 7
  | STORAGE_INTERLEAVE => 8 | STORAGE_LAYER => 9 | STORAGE_REMAP => 10 | STORAGE_COPY => 11
  end.

(** The classes whose encoding is the standard one for leaves. *)
Definition std_leaf (c : file_storage_class) : bool :=
  match c with
  | STORAGE_DEVICE | STORAGE_HURD_FILE | STORAGE_MEMORY | STORAGE_TASK => true
  | _ => false
  end.

(** A decoding: an error, or the store and the vectors with moved cursors. *)
Abbreviation decoding := (option ((error_t + (store * store_enc)) * list bool)).

Class OtherEnc := {
  other_allocate_encoding : store → store_enc → error_t * store_enc;
  other_encode : store → store_enc → option (error_t * store_enc);
  other_decode : store_enc → list bool → decoding
}.

Section enc.
Context `{PageSize} `{OtherEnc}.

(** ** Counting *)
Definition name_length (st : store) : Z :=
  match st_name st with Some name => zlen name + 1 | None => 0 end.

Definition store_std_leaf_allocate_encoding (st : store) (e : store_enc) : error_t * store_enc :=
  let e := on_ports (count 1) e in
  let e := on_ints (count 6) e in
  let e := on_offsets (count (zlen (st_runs st) * 2)) e in
  let e := on_data (count (name_length st)) e in
  (E0, on_data (count (st_misc_len st)) e).

Definition zero_allocate_encoding (e : store_enc) : error_t * store_enc :=
  (E0, on_offsets (count 1) (on_ints (count 2) e)).

(** The result of each child's method is not looked at. *)
Fixpoint allocate_encoding (st : store) (e : store_enc) : error_t * store_enc :=
  let store_allocate_child_encodings e :=
    (E0, (fix loop (ks : list store) (e : store_enc) : store_enc :=
       match ks with
       | [] => e
       | k :: ks' => loop ks' (allocate_encoding k e).2
       end) (st_children st) e) in
  match st_class st with
  | STORAGE_DEVICE | STORAGE_HURD_FILE | STORAGE_MEMORY | STORAGE_TASK =>
      store_std_leaf_allocate_encoding st e
  | STORAGE_ZERO => zero_allocate_encoding e
  | STORAGE_COPY => (EOPNOTSUPP, e)
  | STORAGE_CONCAT => store_allocate_child_encodings (on_ints (count 3) e)
  | STORAGE_INTERLEAVE => store_allocate_child_encodings (on_ints (count 4) e)
  | STORAGE_REMAP =>
      store_allocate_child_encodings
        (on_offsets (count (zlen (st_runs st) * 2)) (on_ints (count 3) e))
  | _ => other_allocate_encoding st e
  end.

(** ** Encoding *)
Definition run_offsets (rs : list store_run) : list Z :=
  mjoin ((λ r, [run_start r; run_length r]) <$> rs).

(** The name is copied with its terminating null character.  The offsets have the
    width of the runs, so that the test for offsets that are too big is left out. *)
Definition store_std_leaf_encode (st : store) (e : store_enc) : option (error_t * store_enc) :=
  e ← put_ports [st_port st] e;
  e ← put_ints [class_id (st_class st); st_flags st; s32 (st_block_size st);
                s32 (zlen (st_runs st)); s32 (name_length st); s32 (st_misc_len st)] e;
  e ← put_offsets (run_offsets (st_runs st)) e;
  e ← match st_name st with Some name => put_data (name ++ [0]) e | None => Some e end;
  e ← (if decide (st_misc_len st = 0) then Some e
       else misc ← st_misc st;
            if decide (st_misc_len st ≤ zlen misc) then
              put_data (take (Z.to_nat (st_misc_len st)) misc) e
            else None);
  Some (E0, e).

Definition zero_encode (st : store) (e : store_enc) : option (error_t * store_enc) :=
  e ← put_ints [class_id (st_class st); st_flags st] e;
  e ← put_offsets [st_size st] e;
  Some (E0, e).

Fixpoint encode (st : store) (e : store_enc) : option (error_t * store_enc) :=
  let store_encode_children e :=
    e ← (fix loop (ks : list store) (e : store_enc) : option store_enc :=
       match ks with
       | [] => Some e
       | k :: ks' => '(_, e) ← encode k e; loop ks' e
       end) (st_children st) e;
    Some (E0, e) in
  match st_class st with
  | STORAGE_DEVICE | STORAGE_HURD_FILE | STORAGE_MEMORY | STORAGE_TASK => store_std_leaf_encode st e
  | STORAGE_ZERO => zero_encode st e
  | STORAGE_COPY => Some (EOPNOTSUPP, e)
  | STORAGE_CONCAT =>
      e ← put_ints [class_id (st_class st); st_flags st; s32 (zlen (st_children st))] e;
      store_encode_children e
  | STORAGE_INTERLEAVE =>
      e ← put_ints [class_id (st_class st); st_flags st; s32 (st_wrap_dst st);
                    s32 (zlen (st_children st))] e;
      store_encode_children e
  | STORAGE_REMAP =>
      e ← put_ints [class_id (st_class st); st_flags st; s32 (zlen (st_runs st))] e;
      e ← put_offsets (run_offsets (st_runs st)) e;
      store_encode_children e
  | _ => other_encode st e
  end.

(** A vector that is too small is replaced by a new one; [errno] stays set after a
    failed [mmap]. *)
Definition grow (init_num : Z) (v : vec) (failed : bool) (o : allocs) : vec * bool * list bool :=
  if negb failed && bool_decide (init_num < v_num v) then
    let '(ok, o) := alloc o in
    if ok then (Vec (replicate (Z.to_nat (v_num v)) 0) (v_num v) (v_cur v), false, o)
    else (v, true, o)
  else (v, failed, o).

Definition uncount (v : vec) : vec := Vec (v_arr v) 0 (v_cur v).

Definition store_encode (st : store) (e : store_enc) (o : allocs)
    : option (error_t * store_enc * list bool) :=
  let '(err, e1) := allocate_encoding st (Enc (uncount (e_ports e)) (uncount (e_ints e))
                                             (uncount (e_offsets e)) (uncount (e_data e))) in
  if decide (err ≠ E0) then Some (err, e1, o) else
  let '(ports, failed, o) := grow (v_num (e_ports e)) (e_ports e1) false o in
  let '(ints, failed, o) := grow (v_num (e_ints e)) (e_ints e1) failed o in
  let '(offsets, failed, o) := grow (v_num (e_offsets e)) (e_offsets e1) failed o in
  let '(data, failed, o) := grow (v_num (e_data e)) (e_data e1) failed o in
  let e1 := Enc ports ints offsets data in
  '(err, e1) ← (if failed then Some (ENOMEM, e1) else encode st e1);
  let e1 := Enc (rewind (e_ports e1)) (rewind (e_ints e1)) (rewind (e_offsets e1))
              (rewind (e_data e1)) in
  Some (err, if decide (err = E0) then e1 else store_enc_dealloc e1, o).

(** ** Decoding *)

(** [num_runs] pairs of offsets from the cursor on. *)
Fixpoint read_runs (n : nat) (v : vec) : option (list store_run * vec) :=
  match n with
  | O => Some ([], v)
  | S n' =>
      '(start, v) ← vec_get v; '(length, v) ← vec_get v;
      '(rs, v) ← read_runs n' v; Some (StoreRun start length :: rs, v)
  end.

Definition MAX_STACK_RUNS : Z := 16 * 1024 / 16.

(** More than [MAX_STACK_RUNS] runs are put in allocated memory. *)
Definition store_with_decoded_runs (e : store_enc) (num_runs : Z)
    (fun_ : list store_run → store_enc → list bool → decoding) (o : allocs) : decoding :=
  let '(ok, o) := if decide (num_runs ≤ MAX_STACK_RUNS) then (true, o) else alloc o in
  if ok then
    '(rs, v) ← read_runs (Z.to_nat num_runs) (e_offsets e);
    fun_ rs (on_offsets (λ _, v) e) o
  else Some (inl ENOMEM, o).

(** The string of bytes that starts at an index, up to its null character. *)
Fixpoint c_string (bytes : list Z) : option (list Z) :=
  match bytes with
  | [] => None
  | c :: bytes' => if decide (c = 0) then Some [] else s ← c_string bytes'; Some (c :: s)
  end.

(** [memcpy] from an index of an array. *)
Definition slice (from len : Z) (l : list Z) : option (list Z) :=
  if decide (0 ≤ from ∧ 0 ≤ len ∧ from + len ≤ zlen l) then
    Some (take (Z.to_nat len) (drop (Z.to_nat from) l))
  else None.

(** [strdup] of the name, if there is one; the cursor is moved past it. *)
Definition decode_name (name_len : Z) (e : store_enc) (o : allocs)
    : option ((error_t + (option (list Z) * store_enc)) * list bool) :=
  if decide (0 < name_len) then
    last ← v_arr (e_data e) !z u64 (v_cur (e_data e) + name_len - 1);
    if decide (last ≠ 0) then Some (inl EINVAL, o) else
    let '(ok, o) := alloc o in
    if ok then
      name ← c_string (drop (Z.to_nat (v_cur (e_data e))) (v_arr (e_data e)));
      Some (inr (Some name, on_data (skip name_len) e), o)
    else Some (inl ENOMEM, o)
  else Some (inr (None, e), o).

(** The bytes are taken from [name_len] after the cursor. *)
Definition decode_misc (name_len misc_len : Z) (e : store_enc) (o : allocs)
    : option ((error_t + (option (list Z) * store_enc)) * list bool) :=
  if decide (0 < misc_len) then
    let '(ok, o) := alloc o in
    if ok then
      misc ← slice (u64 (v_cur (e_data e) + name_len)) misc_len (v_arr (e_data e));
      Some (inr (Some misc, on_data (skip misc_len) e), o)
    else Some (inl ENOMEM, o)
  else Some (inr (None, e), o).

(** What comes after the name and the rest of the data: the port and the runs. *)
Definition leaf_create (c : file_storage_class) (flags block_size num_runs : Z)
    (name misc : option (list Z)) (misc_len : Z) (e : store_enc) (o : allocs) : decoding :=
  '(port, v) ← vec_get (e_ports e);
  store_with_decoded_runs (on_ports (λ _, v) e) num_runs
    (λ rs e o,
      and_then (_store_create c port flags block_size rs 0 o)
        (λ st o, Some (inr (with_flags flags (with_name_misc name misc misc_len st), e), o)))
    o.

Definition store_std_leaf_decode (c : file_storage_class) (e : store_enc) (o : allocs) : decoding :=
  if decide (v_num (e_ints e) < v_cur (e_ints e) + 6 ∨ v_num (e_ports e) < v_cur (e_ports e) + 1) then
    Some (inl EINVAL, o) else
  '(_, e) ← get_int e;
  '(flags, e) ← get_int e;
  '(block_size, e) ← get_int e;
  '(num_runs, e) ← get_int e;
  '(name_len, e) ← get_int e;
  '(misc_len, e) ← get_int e;
  let block_size := u64 block_size in
  let num_runs := u64 num_runs in
  let name_len := u64 name_len in
  let misc_len := u64 misc_len in
  if decide (v_num (e_offsets e) < u64 (v_cur (e_offsets e) + num_runs * 2)
             ∨ v_num (e_data e) < u64 (v_cur (e_data e) + name_len + misc_len)) then
    Some (inl EINVAL, o) else
  and_then (decode_name name_len e o) (λ '(name, e) o,
    and_then (decode_misc name_len misc_len e o) (λ '(misc, e) o,
      leaf_create c flags block_size num_runs name misc misc_len e o)).

Definition zero_decode (e : store_enc) (o : allocs) : decoding :=
  if decide (v_num (e_ints e) < v_cur (e_ints e) + 2
             ∨ v_num (e_offsets e) < v_cur (e_offsets e) + 1) then Some (inl EINVAL, o) else
  '(_, e) ← get_int e;
  '(flags, e) ← get_int e;
  '(size, v) ← vec_get (e_offsets e);
  and_then (store_zero_create size flags o)
    (λ st o, Some (inr (st, on_offsets (λ _, v) e), o)).

(** The children decoded so far are freed after an error. *)
Fixpoint decode_children (decode : store_enc → list bool → decoding) (n : nat) (e : store_enc)
    (o : allocs) : option ((error_t + (list store * store_enc)) * list bool) :=
  match n with
  | O => Some (inr ([], e), o)
  | S n' =>
      and_then (decode e o) (λ '(k, e) o,
        and_then (decode_children decode n' e o) (λ '(ks, e) o, Some (inr (k :: ks, e), o)))
  end.

(** [struct store *kids[nkids];] of a negative number of children is undefined. *)
Definition store_decode_children (decode : store_enc → list bool → decoding) (e : store_enc)
    (nkids : Z) (o : allocs) : option ((error_t + (list store * store_enc)) * list bool) :=
  if decide (nkids < 0) then None else decode_children decode (Z.to_nat nkids) e o.

Definition concat_decode (decode : store_enc → list bool → decoding) (e : store_enc) (o : allocs)
    : decoding :=
  if decide (v_num (e_ints e) < v_cur (e_ints e) + 3) then Some (inl EINVAL, o) else
  '(_, e) ← get_int e;
  '(flags, e) ← get_int e;
  '(nkids, e) ← get_int e;
  and_then (store_decode_children decode e nkids o) (λ '(kids, e) o,
    and_then (store_concat_create kids flags o) (λ st o, Some (inr (st, e), o))).

Definition ileave_decode (decode : store_enc → list bool → decoding) (e : store_enc) (o : allocs)
    : decoding :=
  if decide (v_num (e_ints e) < v_cur (e_ints e) + 4) then Some (inl EINVAL, o) else
  '(_, e) ← get_int e;
  '(flags, e) ← get_int e;
  '(interleave, e) ← get_int e;
  '(nkids, e) ← get_int e;
  and_then (store_decode_children decode e nkids o) (λ '(kids, e) o,
    and_then (store_ileave_create kids interleave flags o) (λ st o, Some (inr (st, e), o))).

(** The number of runs is not compared with the number of offsets. *)
Definition remap_decode (decode : store_enc → list bool → decoding) (e : store_enc) (o : allocs)
    : decoding :=
  if decide (v_num (e_ints e) < v_cur (e_ints e) + 3) then Some (inl EINVAL, o) else
  '(_, e) ← get_int e;
  '(flags, e) ← get_int e;
  '(num_runs, e) ← get_int e;
  store_with_decoded_runs e (u64 num_runs)
    (λ rs e o,
      and_then (store_decode_children decode e 1 o) (λ '(kids, e) o,
        source ← head kids;
        and_then (store_remap_create source rs flags o) (λ st o, Some (inr (st, e), o))))
    o.

(** [store_decode]; each level of a tree takes an integer at least, so that the
    number of integers bounds the depth. *)
Fixpoint store_decode_from (fuel : nat) (e : store_enc) (o : allocs) : decoding :=
  match fuel with
  | O => None
  | S fuel' =>
      if decide (v_num (e_ints e) ≤ v_cur (e_ints e)) then Some (inl EINVAL, o) else
      id ← v_arr (e_ints e) !z v_cur (e_ints e);
      let has c := bool_decide (id = class_id c) in
      if has STORAGE_DEVICE then store_std_leaf_decode STORAGE_DEVICE e o
      else if has STORAGE_HURD_FILE then store_std_leaf_decode STORAGE_HURD_FILE e o
      else if has STORAGE_MEMORY then store_std_leaf_decode STORAGE_MEMORY e o
      else if has STORAGE_ZERO then zero_decode e o
      else if has STORAGE_CONCAT then concat_decode (store_decode_from fuel') e o
      else if has STORAGE_INTERLEAVE then ileave_decode (store_decode_from fuel') e o
      else if has STORAGE_REMAP then remap_decode (store_decode_from fuel') e o
      else if has STORAGE_COPY then Some (inl EOPNOTSUPP, o)
      else other_decode e o
  end.

Definition store_decode (e : store_enc) (o : allocs) : decoding :=
  store_decode_from (S (length (v_arr (e_ints e)))) e o.
End enc.

(** ** The encoding as data *)
Record quad := Quad { q_ports : list Z; q_ints : list Z; q_offsets : list Z; q_data : list Z }.

Definition qapp (p q : quad) : quad :=
  Quad (q_ports p ++ q_ports q) (q_ints p ++ q_ints q) (q_offsets p ++ q_offsets q)
    (q_data p ++ q_data q).
Definition qnil : quad := Quad [] [] [] [].
Infix "+++" := qapp (at level 60, right associativity) : Z_scope.

Fixpoint encoding (st : store) : quad :=
  let kids := foldr qapp qnil (List.map encoding (st_children st)) in
  let head := [class_id (st_class st); st_flags st] in
  match st_class st with
  | STORAGE_DEVICE | STORAGE_HURD_FILE | STORAGE_MEMORY | STORAGE_TASK =>
      Quad [st_port st]
        (head ++ [s32 (st_block_size st); s32 (zlen (st_runs st)); s32 (name_length st);
                  s32 (st_misc_len st)])
        (run_offsets (st_runs st))
        (match st_name st with Some name => name ++ [0] | None => [] end
         ++ default [] (st_misc st))
  | STORAGE_ZERO => Quad [] head [st_size st] []
  | STORAGE_CONCAT => Quad [] (head ++ [s32 (zlen (st_children st))]) [] [] +++ kids
  | STORAGE_INTERLEAVE =>
      Quad [] (head ++ [s32 (st_wrap_dst st); s32 (zlen (st_children st))]) [] [] +++ kids
  | STORAGE_REMAP =>
      Quad [] (head ++ [s32 (zlen (st_runs st))]) (run_offsets (st_runs st)) [] +++ kids
  | _ => qnil
  end.

(** ** Vectors that have been written to, or read from, up to the cursor *)
Definition vrep (w r : list Z) (n : Z) : vec := Vec (w ++ r) n (zlen w).

(** [w] is before the cursors, [r] after them; [n] are the numbers that count. *)
Definition erep (w r : quad) (n : Z * Z * Z * Z) : store_enc :=
  let '(np, ni, no, nd) := n in
  Enc (vrep (q_ports w) (q_ports r) np) (vrep (q_ints w) (q_ints r) ni)
    (vrep (q_offsets w) (q_offsets r) no) (vrep (q_data w) (q_data r) nd).

Definition qdrop (p r : quad) : quad :=
  Quad (drop (length (q_ports p)) (q_ports r)) (drop (length (q_ints p)) (q_ints r))
    (drop (length (q_offsets p)) (q_offsets r)) (drop (length (q_data p)) (q_data r)).

(** There is room for [p] in [r]. *)
Definition fits (p r : quad) : Prop :=
  (length (q_ports p) ≤ length (q_ports r))%nat ∧ (length (q_ints p) ≤ length (q_ints r))%nat
  ∧ (length (q_offsets p) ≤ length (q_offsets r))%nat ∧ (length (q_data p) ≤ length (q_data r))%nat.

Lemma qapp_assoc p q r : p +++ q +++ r = (p +++ q) +++ r.
Proof. unfold qapp. simpl. by rewrite !app_assoc. Qed.

Lemma qapp_nil_r p : p +++ qnil = p.
Proof. destruct p. unfold qapp. simpl. by rewrite !app_nil_r. Qed.

Lemma qdrop_qapp p q r : qdrop (p +++ q) r = qdrop q (qdrop p r).
Proof. unfold qdrop. simpl. by rewrite !drop_drop, !length_app. Qed.

Lemma qdrop_app p r : qdrop p (p +++ r) = r.
Proof. destruct r. unfold qdrop. simpl. by rewrite !drop_app_length. Qed.

Lemma fits_qapp p q r : fits (p +++ q) r → fits p r ∧ fits q (qdrop p r).
Proof.
  unfold fits. simpl. rewrite !length_app, !length_drop. intros (? & ? & ? & ?). split_and!; lia.
Qed.

Lemma vec_put_spec x w y r n : vec_put x (vrep w (y :: r) n) = Some (vrep (w ++ [x]) r n).
Proof.
  unfold vec_put, vrep. simpl. rewrite storez_mid by done. cbn [mbind option_bind].
  by rewrite <-app_assoc, length_app, Nat2Z.inj_add.
Qed.

Lemma vec_puts_spec xs w r n :
  (length xs ≤ length r)%nat → vec_puts xs (vrep w r n) = Some (vrep (w ++ xs) (drop (length xs) r) n).
Proof.
  revert w r. induction xs as [|x xs IH]; intros w r Hl; simpl in *; [by rewrite app_nil_r|].
  destruct r as [|y r]; simpl in Hl; [lia|]. rewrite vec_put_spec. cbn [mbind option_bind].
  rewrite IH by lia. simpl. by rewrite <-app_assoc.
Qed.

Lemma vec_get_spec x w r n : vec_get (vrep w (x :: r) n) = Some (x, vrep (w ++ [x]) r n).
Proof.
  unfold vec_get, vrep. simpl. rewrite lookupz_mid by done. cbn [mbind option_bind].
  by rewrite <-app_assoc, length_app, Nat2Z.inj_add.
Qed.

(** Writing the four parts of a quad one after the other. *)
Lemma put_ports_spec xs w r n :
  (length xs ≤ length (q_ports r))%nat →
  put_ports xs (erep w r n) = Some (erep (w +++ Quad xs [] [] []) (qdrop (Quad xs [] [] []) r) n).
Proof.
  intros Hl. destruct n as [[[np ni] no] nd]. unfold put_ports, erep. cbn [e_ports].
  rewrite vec_puts_spec by done. cbn [mbind option_bind]. unfold on_ports, qapp, qdrop. simpl.
  by rewrite !app_nil_r.
Qed.

Lemma put_ints_spec xs w r n :
  (length xs ≤ length (q_ints r))%nat →
  put_ints xs (erep w r n) = Some (erep (w +++ Quad [] xs [] []) (qdrop (Quad [] xs [] []) r) n).
Proof.
  intros Hl. destruct n as [[[np ni] no] nd]. unfold put_ints, erep. cbn [e_ints].
  rewrite vec_puts_spec by done. cbn [mbind option_bind]. unfold on_ints, qapp, qdrop. simpl.
  by rewrite !app_nil_r.
Qed.

Lemma put_offsets_spec xs w r n :
  (length xs ≤ length (q_offsets r))%nat →
  put_offsets xs (erep w r n) = Some (erep (w +++ Quad [] [] xs []) (qdrop (Quad [] [] xs []) r) n).
Proof.
  intros Hl. destruct n as [[[np ni] no] nd]. unfold put_offsets, erep. cbn [e_offsets].
  rewrite vec_puts_spec by done. cbn [mbind option_bind]. unfold on_offsets, qapp, qdrop. simpl.
  by rewrite !app_nil_r.
Qed.

Lemma put_data_spec xs w r n :
  (length xs ≤ length (q_data r))%nat →
  put_data xs (erep w r n) = Some (erep (w +++ Quad [] [] [] xs) (qdrop (Quad [] [] [] xs) r) n).
Proof.
  intros Hl. destruct n as [[[np ni] no] nd]. unfold put_data, erep. cbn [e_data].
  rewrite vec_puts_spec by done. cbn [mbind option_bind]. unfold on_data, qapp, qdrop. simpl.
  by rewrite !app_nil_r.
Qed.

(** ** Stores that can be encoded *)

(** The values that are sent as integers fit, and the additional data is there. *)
Definition node_encodable (st : store) : Prop :=
  0 ≤ st_block_size st < 2 ^ 31 ∧ zlen (st_runs st) < 2 ^ 31 ∧ name_length st < 2 ^ 31
  ∧ st_misc_len st < 2 ^ 31 ∧ zlen (st_children st) < 2 ^ 31
  ∧ st_misc_len st = zlen (default [] (st_misc st))
  ∧ st_class st ∈ [STORAGE_DEVICE; STORAGE_HURD_FILE; STORAGE_MEMORY; STORAGE_ZERO; STORAGE_CONCAT;
                   STORAGE_REMAP].

Fixpoint encodable (st : store) : Prop :=
  node_encodable st
  ∧ (fix all (ks : list store) : Prop :=
       match ks with
       | [] => True
       | k :: ks' => encodable k ∧ all ks'
       end) (st_children st).

Lemma encodable_inv st : encodable st → node_encodable st ∧ Forall encodable (st_children st).
Proof.
  intros H. destruct st as [? ? ? ? ? ? ? ? ? ? ? ? ? ? ? ? kids]. destruct H as [Hn Hk].
  split; [done|]. simpl. clear Hn. induction kids as [|k kids IH]; constructor; [apply Hk|apply IH, Hk].
Qed.

(** The cases of the membership in a list of classes. *)
Ltac in_classes Hc :=
  repeat (apply elem_of_cons in Hc as [Hc|Hc]; [try congruence|]); by apply elem_of_nil in Hc.

Section roundtrip.
Context `{PageSize} `{OtherEnc}.

(** ** What is written *)
Fixpoint encode_all (ks : list store) (e : store_enc) : option store_enc :=
  match ks with
  | [] => Some e
  | k :: ks' => '(_, e) ← encode k e; encode_all ks' e
  end.

Lemma encode_eq st e :
  encode st e =
  match st_class st with
  | STORAGE_DEVICE | STORAGE_HURD_FILE | STORAGE_MEMORY | STORAGE_TASK => store_std_leaf_encode st e
  | STORAGE_ZERO => zero_encode st e
  | STORAGE_COPY => Some (EOPNOTSUPP, e)
  | STORAGE_CONCAT =>
      e ← put_ints [class_id (st_class st); st_flags st; s32 (zlen (st_children st))] e;
      e ← encode_all (st_children st) e; Some (E0, e)
  | STORAGE_INTERLEAVE =>
      e ← put_ints [class_id (st_class st); st_flags st; s32 (st_wrap_dst st);
                    s32 (zlen (st_children st))] e;
      e ← encode_all (st_children st) e; Some (E0, e)
  | STORAGE_REMAP =>
      e ← put_ints [class_id (st_class st); st_flags st; s32 (zlen (st_runs st))] e;
      e ← put_offsets (run_offsets (st_runs st)) e;
      e ← encode_all (st_children st) e; Some (E0, e)
  | _ => other_encode st e
  end.
Proof. by destruct st. Qed.

Lemma encoding_eq st :
  encoding st =
  let kids := foldr qapp qnil (List.map encoding (st_children st)) in
  let head := [class_id (st_class st); st_flags st] in
  match st_class st with
  | STORAGE_DEVICE | STORAGE_HURD_FILE | STORAGE_MEMORY | STORAGE_TASK =>
      Quad [st_port st]
        (head ++ [s32 (st_block_size st); s32 (zlen (st_runs st)); s32 (name_length st);
                  s32 (st_misc_len st)])
        (run_offsets (st_runs st))
        (match st_name st with Some name => name ++ [0] | None => [] end ++ default [] (st_misc st))
  | STORAGE_ZERO => Quad [] head [st_size st] []
  | STORAGE_CONCAT => Quad [] (head ++ [s32 (zlen (st_children st))]) [] [] +++ kids
  | STORAGE_INTERLEAVE =>
      Quad [] (head ++ [s32 (st_wrap_dst st); s32 (zlen (st_children st))]) [] [] +++ kids
  | STORAGE_REMAP =>
      Quad [] (head ++ [s32 (zlen (st_runs st))]) (run_offsets (st_runs st)) [] +++ kids
  | _ => qnil
  end.
Proof. by destruct st. Qed.

Definition encodes (st : store) : Prop :=
  ∀ w r n, fits (encoding st) r →
    encode st (erep w r n) = Some (E0, erep (w +++ encoding st) (qdrop (encoding st) r) n).

Lemma encode_all_spec ks w r n :
  Forall encodes ks → fits (foldr qapp qnil (List.map encoding ks)) r →
  encode_all ks (erep w r n) =
    Some (erep (w +++ foldr qapp qnil (List.map encoding ks))
            (qdrop (foldr qapp qnil (List.map encoding ks)) r) n).
Proof.
  intros Hks. revert w r. induction Hks as [|k ks Hk _ IH]; intros w r Hf; simpl.
  { rewrite qapp_nil_r. by destruct r. }
  simpl in Hf. apply fits_qapp in Hf as [Hf1 Hf2]. rewrite Hk by done. cbn [mbind option_bind].
  by rewrite IH, qdrop_qapp, qapp_assoc.
Qed.

(** The steps of [store_std_leaf_encode] write the parts of the encoding. *)
Lemma std_leaf_encode_spec st w r n :
  node_encodable st → std_leaf (st_class st) = true → fits (encoding st) r →
  store_std_leaf_encode st (erep w r n) = Some (E0, erep (w +++ encoding st) (qdrop (encoding st) r) n).
Proof.
  intros (_ & _ & _ & _ & _ & Hm & _) Hc Hf.
  assert (Henc : encoding st = Quad [st_port st] [] [] [] +++
    Quad [] [class_id (st_class st); st_flags st; s32 (st_block_size st); s32 (zlen (st_runs st));
             s32 (name_length st); s32 (st_misc_len st)] [] []
    +++ Quad [] [] (run_offsets (st_runs st)) []
    +++ Quad [] [] [] (match st_name st with Some name => name ++ [0] | None => [] end)
    +++ Quad [] [] [] (default [] (st_misc st))).
  { rewrite encoding_eq. destruct (st_class st); try done; unfold qapp; simpl; by rewrite !app_nil_r. }
  rewrite Henc in Hf |- *.
  apply fits_qapp in Hf as [F1 Hf]. apply fits_qapp in Hf as [F2 Hf].
  apply fits_qapp in Hf as [F3 Hf]. apply fits_qapp in Hf as [F4 F5].
  unfold store_std_leaf_encode. rewrite put_ports_spec by apply F1. cbn [mbind option_bind].
  rewrite put_ints_spec by apply F2. cbn [mbind option_bind].
  rewrite put_offsets_spec by apply F3. cbn [mbind option_bind].
  set (w3 := ((w +++ _) +++ _) +++ _). set (r3 := qdrop _ (qdrop _ (qdrop _ r))) in *.
  assert (Hname : (match st_name st with Some name => put_data (name ++ [0]) (erep w3 r3 n) | None => Some (erep w3 r3 n) end)
    = Some (erep (w3 +++ Quad [] [] [] (match st_name st with Some name => name ++ [0] | None => [] end))
         (qdrop (Quad [] [] [] (match st_name st with Some name => name ++ [0] | None => [] end)) r3) n)).
  { destruct (st_name st); [rewrite put_data_spec by apply F4; done|].
    f_equal. change (Quad [] [] [] []) with qnil. rewrite qapp_nil_r. by destruct r3. }
  rewrite Hname. cbn [mbind option_bind]. clear Hname.
  set (w4 := w3 +++ _). set (r4 := qdrop (Quad [] [] [] (match st_name st with _ => _ end)) r3) in *.
  assert (Hmisc : (if decide (st_misc_len st = 0) then Some (erep w4 r4 n)
       else misc ← st_misc st;
            if decide (st_misc_len st ≤ zlen misc) then
              put_data (take (Z.to_nat (st_misc_len st)) misc) (erep w4 r4 n)
            else None)
    = Some (erep (w4 +++ Quad [] [] [] (default [] (st_misc st)))
         (qdrop (Quad [] [] [] (default [] (st_misc st))) r4) n)).
  { destruct (decide (st_misc_len st = 0)) as [Hz|Hz].
    - rewrite Hm in Hz. destruct (default [] (st_misc st)) as [|] eqn:E; [|simpl in Hz; lia].
      change (Quad [] [] [] []) with qnil. rewrite qapp_nil_r. by destruct r4.
    - destruct (st_misc st) as [misc|]; simpl in Hm; [|done]. cbn [mbind option_bind].
      rewrite decide_True by lia. rewrite Hm, Nat2Z.id, take_ge by done. apply put_data_spec, F5. }
  rewrite Hmisc. cbn [mbind option_bind]. subst w4 w3 r4 r3.
  by rewrite <-!qapp_assoc, !qdrop_qapp.
Qed.

Lemma encode_spec st : encodable st → encodes st.
Proof.
  induction st as [st IH] using store_tree_ind. intros [Hn Hk]%encodable_inv w r n Hf.
  assert (Hks : Forall encodes (st_children st)).
  { rewrite Forall_forall in *. auto. }
  rewrite encode_eq. destruct (std_leaf (st_class st)) eqn:Hleaf.
  { rewrite <-std_leaf_encode_spec by done. by destruct (st_class st). }
  destruct Hn as (_ & _ & _ & _ & _ & _ & Hc). rewrite encoding_eq in Hf |- *. cbv zeta in Hf |- *.
  destruct (st_class st) eqn:Ec; try done; try (exfalso; in_classes Hc).
  - unfold zero_encode. rewrite Ec.
    change (Quad [] [class_id STORAGE_ZERO; st_flags st] [st_size st] [])
      with (Quad [] [class_id STORAGE_ZERO; st_flags st] [] [] +++ Quad [] [] [st_size st] []) in *.
    apply fits_qapp in Hf as [F1 F2]. rewrite put_ints_spec by apply F1. cbn [mbind option_bind].
    rewrite put_offsets_spec by apply F2. cbn [mbind option_bind]. by rewrite <-qapp_assoc, qdrop_qapp.
  - apply fits_qapp in Hf as [F1 F2]. rewrite put_ints_spec by apply F1. cbn [mbind option_bind].
    rewrite encode_all_spec by done. cbn [mbind option_bind]. by rewrite <-qapp_assoc, qdrop_qapp.
  - change (Quad [] ([class_id STORAGE_REMAP; st_flags st] ++ [s32 (zlen (st_runs st))]) (run_offsets (st_runs st)) [])
      with (Quad [] ([class_id STORAGE_REMAP; st_flags st] ++ [s32 (zlen (st_runs st))]) [] []
            +++ Quad [] [] (run_offsets (st_runs st)) []) in *.
    rewrite <-qapp_assoc in *.
    apply fits_qapp in Hf as [F1 Hf]. apply fits_qapp in Hf as [F2 F3].
    rewrite put_ints_spec by apply F1. cbn [mbind option_bind].
    rewrite put_offsets_spec by apply F2. cbn [mbind option_bind].
    rewrite encode_all_spec by done. cbn [mbind option_bind]. by rewrite <-!qapp_assoc, !qdrop_qapp.
Qed.

(** ** What is counted *)
Definition qcount (q : quad) (e : store_enc) : store_enc :=
  Enc (count (zlen (q_ports q)) (e_ports e)) (count (zlen (q_ints q)) (e_ints e))
    (count (zlen (q_offsets q)) (e_offsets e)) (count (zlen (q_data q)) (e_data e)).

Lemma count_count a b v : count a (count b v) = count (b + a) v.
Proof.
  unfold count. simpl. f_equal. unfold u32. rewrite Z.add_mod_idemp_l by lia. f_equal. lia.
Qed.

Lemma qcount_qapp p q e : qcount (p +++ q) e = qcount q (qcount p e).
Proof. unfold qcount. simpl. by rewrite !count_count, !length_app, !Nat2Z.inj_add. Qed.

Fixpoint allocate_all (ks : list store) (e : store_enc) : store_enc :=
  match ks with
  | [] => e
  | k :: ks' => allocate_all ks' (allocate_encoding k e).2
  end.

Lemma allocate_encoding_eq st e :
  allocate_encoding st e =
  match st_class st with
  | STORAGE_DEVICE | STORAGE_HURD_FILE | STORAGE_MEMORY | STORAGE_TASK =>
      store_std_leaf_allocate_encoding st e
  | STORAGE_ZERO => zero_allocate_encoding e
  | STORAGE_COPY => (EOPNOTSUPP, e)
  | STORAGE_CONCAT => (E0, allocate_all (st_children st) (on_ints (count 3) e))
  | STORAGE_INTERLEAVE => (E0, allocate_all (st_children st) (on_ints (count 4) e))
  | STORAGE_REMAP =>
      (E0, allocate_all (st_children st)
             (on_offsets (count (zlen (st_runs st) * 2)) (on_ints (count 3) e)))
  | _ => other_allocate_encoding st e
  end.
Proof. by destruct st. Qed.

Lemma length_run_offsets rs : zlen (run_offsets rs) = zlen rs * 2.
Proof.
  induction rs as [|r rs IH]; [done|].
  change (run_offsets (r :: rs)) with ([run_start r; run_length r] ++ run_offsets rs).
  rewrite length_app. simpl length. lia.
Qed.

Lemma allocate_encoding_spec st q e :
  encodable st → allocate_encoding st (qcount q e) = (E0, qcount (q +++ encoding st) e).
Proof.
  revert q e. induction st as [st IH] using store_tree_ind. intros q e [Hn Hk]%encodable_inv.
  assert (Hks : ∀ q e, allocate_all (st_children st) (qcount q e)
    = qcount (q +++ foldr qapp qnil (List.map encoding (st_children st))) e).
  { clear -IH Hk. induction IH as [|k ks Hk1 _ IHl]; intros q e; simpl; [by rewrite qapp_nil_r|].
    apply Forall_cons in Hk as [Hk Hks]. rewrite Hk1 by done. simpl. by rewrite IHl, qapp_assoc. }
  rewrite allocate_encoding_eq, encoding_eq. cbv zeta. destruct Hn as (_ & _ & _ & _ & _ & Hm & Hc).
  assert (Hleaf : ∀ i, length i = 6%nat → store_std_leaf_allocate_encoding st (qcount q e) =
    (E0, qcount (q +++ Quad [st_port st] i (run_offsets (st_runs st))
      (match st_name st with Some name => name ++ [0] | None => [] end ++ default [] (st_misc st))) e)).
  { intros i Hi. unfold store_std_leaf_allocate_encoding, qcount, on_ports, on_ints, on_offsets, on_data. simpl.
    rewrite !count_count, !length_app, !Nat2Z.inj_add, length_run_offsets, Hi, Hm. simpl.
    do 3 f_equal. unfold name_length. destruct (st_name st); [rewrite length_app; simpl; lia|simpl; lia]. }
  destruct (st_class st) eqn:Ec; try (exfalso; in_classes Hc); try by apply Hleaf.
  - unfold zero_allocate_encoding, qcount, on_ints, on_offsets. simpl.
    by rewrite !count_count, !length_app, !Nat2Z.inj_add, !Z.add_0_r.
  - rewrite qapp_assoc, <-Hks. do 2 f_equal. unfold qcount, on_ints. simpl.
    by rewrite !count_count, !length_app, !Nat2Z.inj_add, !Z.add_0_r.
  - rewrite qapp_assoc, <-Hks. do 2 f_equal. unfold qcount, on_ints, on_offsets. simpl.
    by rewrite !count_count, !length_app, !Nat2Z.inj_add, length_run_offsets, !Z.add_0_r.
Qed.

(** ** The whole encoder *)
Definition small (q : quad) : Prop :=
  zlen (q_ports q) < 2 ^ 32 ∧ zlen (q_ints q) < 2 ^ 32 ∧ zlen (q_offsets q) < 2 ^ 32
  ∧ zlen (q_data q) < 2 ^ 32.

Lemma grow_spec (xs arr : list Z) :
  zlen xs < 2 ^ 32 →
  ∃ arr', grow (zlen arr) (count (zlen xs) (uncount (Vec arr (zlen arr) 0))) false []
      = (vrep [] arr' (zlen xs), false, []) ∧ (length xs ≤ length arr')%nat.
Proof.
  intros Hx. unfold grow, count, uncount. simpl. rewrite u32_id by lia. case_bool_decide as Hlt; simpl.
  - exists (replicate (Z.to_nat (zlen xs)) 0). split; [done|]. rewrite length_replicate. lia.
  - exists arr. split; [done|lia].
Qed.

(** A vector with the encoding at its start and room for more after it. *)
Definition encoded (xs : list Z) (v : vec) : Prop := ∃ rest, v = Vec (xs ++ rest) (zlen xs) 0.

Lemma store_encode_spec st ports ints offsets data :
  encodable st → small (encoding st) →
  ∃ e, store_encode st (store_enc_init ports ints offsets data) [] = Some (E0, e, [])
    ∧ encoded (q_ports (encoding st)) (e_ports e) ∧ encoded (q_ints (encoding st)) (e_ints e)
    ∧ encoded (q_offsets (encoding st)) (e_offsets e) ∧ encoded (q_data (encoding st)) (e_data e).
Proof.
  intros Hst (S1 & S2 & S3 & S4). unfold store_encode, store_enc_init. cbn [e_ports e_ints e_offsets e_data v_num].
  set (e0 := Enc (uncount _) (uncount _) (uncount _) (uncount _)).
  assert (allocate_encoding st e0 = (E0, qcount (encoding st) e0)) as ->.
  { pose proof (allocate_encoding_spec st qnil e0 Hst) as Ha. exact Ha. }
  cbv iota beta. rewrite decide_False by tauto. unfold qcount, e0. cbn [e_ports e_ints e_offsets e_data].
  destruct (grow_spec (q_ports (encoding st)) ports S1) as (a1 & -> & L1).
  destruct (grow_spec (q_ints (encoding st)) ints S2) as (a2 & -> & L2).
  destruct (grow_spec (q_offsets (encoding st)) offsets S3) as (a3 & -> & L3).
  destruct (grow_spec (q_data (encoding st)) data S4) as (a4 & -> & L4).
  pose proof (encode_spec st Hst qnil (Quad a1 a2 a3 a4)
    (zlen (q_ports (encoding st)), zlen (q_ints (encoding st)), zlen (q_offsets (encoding st)),
     zlen (q_data (encoding st)))) as Henc.
  unfold erep in Henc. cbn [qnil q_ports q_ints q_offsets q_data] in Henc.
  rewrite Henc by done. cbn [mbind option_bind]. rewrite decide_True by done.
  eexists. split; [done|]. unfold encoded. split_and!; eexists; done.
Qed.

(** ** Stores that the library has built *)
Inductive built : store → Prop :=
| built_leaf c port flags block_size rs name misc st :
    c ∈ [STORAGE_DEVICE; STORAGE_HURD_FILE; STORAGE_MEMORY] →
    _store_create c port flags block_size rs 0 [] = Some (inr st, []) →
    (name = None ∨ misc = None) → Forall (λ c, c ≠ 0) (default [] name) → misc ≠ Some [] →
    built (with_flags flags (with_name_misc name misc (zlen (default [] misc)) st))
| built_zero size flags st :
    store_zero_create size flags [] = Some (inr st, []) → built st
| built_remap source rs flags st :
    built source → store_remap_create source rs flags [] = Some (inr st, []) → built st
| built_concat kids flags st :
    Forall built kids → store_concat_create kids flags [] = Some (inr st, []) → built st.

Lemma store_derive_fields st st' :
  _store_derive st = Some st' → ∃ a b c d e f, st' = with_derived a b c d e f st.
Proof.
  unfold _store_derive. intros ([ws bl] & _ & Hd)%bind_Some.
  apply bind_Some in Hd as ([en bl'] & _ & Hd).
  destruct (decide (st_block_size st = 0)); [injection Hd as <-; by repeat eexists|].
  apply bind_Some in Hd as (l & _ & Hd). case_decide; [|done].
  apply bind_Some in Hd as (l2 & _ & Hd). case_decide; [|done]. injection Hd as <-. by repeat eexists.
Qed.

(** The fields of a new store that creation takes over or clears. *)
Lemma store_create_fields c port flags bs rs end_ o st o' :
  _store_create c port flags bs rs end_ o = Some (inr st, o') →
  st_class st = c ∧ st_port st = port ∧ st_flags st = flags ∧ st_block_size st = bs
  ∧ st_runs st = rs ∧ st_children st = [] ∧ st_name st = None ∧ st_misc st = None
  ∧ st_misc_len st = 0.
Proof.
  unfold _store_create, store_set_runs. intros Hc. case_decide; [done|].
  destruct (alloc o) as [[] o1]; [|done]. case_decide; [|done].
  destruct (alloc o1) as [[] o2]; [|done]. apply bind_Some in Hc as (st1 & Hd & Hc).
  injection Hc as <- <-. case_decide; [|by injection Hd as <-].
  by apply store_derive_fields in Hd as (? & ? & ? & ? & ? & ? & ->).
Qed.

(** ** What is read *)

(** The vectors count at least what is in [w]. *)
Definition reaches (w : quad) (n : Z * Z * Z * Z) : Prop :=
  let '(np, ni, no, nd) := n in
  zlen (q_ports w) ≤ np < 2 ^ 32 ∧ zlen (q_ints w) ≤ ni < 2 ^ 32
  ∧ zlen (q_offsets w) ≤ no < 2 ^ 32 ∧ zlen (q_data w) ≤ nd < 2 ^ 32.

Lemma reaches_qapp w q n : reaches (w +++ q) n → reaches w n.
Proof.
  destruct n as [[[np ni] no] nd]. unfold reaches. simpl. rewrite !length_app. lia.
Qed.

Lemma reaches_ints w i o q r n :
  reaches (w +++ Quad [] i o [] +++ q) n →
  v_cur (e_ints (erep w r n)) + zlen i ≤ v_num (e_ints (erep w r n)).
Proof.
  destruct n as [[[np ni] no] nd]. intros (_ & Hi & _). simpl in Hi |- *.
  rewrite !length_app in Hi. lia.
Qed.

Lemma quad_eta q : Quad (q_ports q) (q_ints q) (q_offsets q) (q_data q) = q.
Proof. by destruct q. Qed.

Lemma get_int_spec x w p i o d n :
  get_int (erep w (Quad p (x :: i) o d) n) = Some (x, erep (w +++ Quad [] [x] [] []) (Quad p i o d) n).
Proof.
  destruct n as [[[np ni] no] nd]. unfold get_int, erep. cbn [e_ints q_ints].
  rewrite vec_get_spec. cbn [mbind option_bind]. unfold on_ints, qapp. simpl. by rewrite !app_nil_r.
Qed.

Lemma read_runs_spec rs w r n :
  read_runs (length rs) (vrep w (run_offsets rs ++ r) n) = Some (rs, vrep (w ++ run_offsets rs) r n).
Proof.
  revert w. induction rs as [|[st le] rs IH]; intros w; simpl; [by rewrite app_nil_r|].
  change (run_offsets (StoreRun st le :: rs) ++ r) with (st :: le :: run_offsets rs ++ r).
  rewrite vec_get_spec. cbn [mbind option_bind]. rewrite vec_get_spec. cbn [mbind option_bind].
  rewrite IH. cbn [mbind option_bind]. by rewrite <-!app_assoc.
Qed.

(** The runs are handed to the function, with the cursor after them. *)
Lemma decoded_runs_spec rs w p i o d n f :
  zlen rs < 2 ^ 31 →
  store_with_decoded_runs (erep w (Quad p i (run_offsets rs ++ o) d) n) (zlen rs) f []
    = f rs (erep (w +++ Quad [] [] (run_offsets rs) []) (Quad p i o d) n) [].
Proof.
  intros Hl. unfold store_with_decoded_runs.
  assert ((if decide (zlen rs ≤ MAX_STACK_RUNS) then (true, []) else alloc []) = (true, [])) as ->
    by (by case_decide).
  destruct n as [[[np ni] no] nd]. unfold erep. cbn [e_offsets q_offsets].
  rewrite Nat2Z.id, read_runs_spec. cbn [mbind option_bind]. unfold on_offsets, qapp. simpl.
  by rewrite !app_nil_r.
Qed.

Lemma c_string_spec name rest :
  Forall (λ c, c ≠ 0) name → c_string (name ++ 0 :: rest) = Some name.
Proof.
  induction 1 as [|c name Hc _ IH]; simpl; [done|].
  rewrite decide_False by done. by rewrite IH.
Qed.

Lemma decode_name_spec name w p i o d n :
  Forall (λ c, c ≠ 0) name → reaches (w +++ Quad [] [] [] (name ++ [0])) n →
  decode_name (zlen name + 1) (erep w (Quad p i o ((name ++ [0]) ++ d)) n) [] =
    Some (inr (Some name, erep (w +++ Quad [] [] [] (name ++ [0])) (Quad p i o d) n), []).
Proof.
  intros Hname Hn. unfold decode_name. rewrite decide_True by lia.
  destruct n as [[[np ni] no] nd]. destruct Hn as (_ & _ & _ & Hd). simpl in Hd.
  rewrite length_app, (length_app name) in Hd. simpl in Hd.
  unfold erep, vrep. cbn [e_data e_ports e_ints e_offsets q_data q_ports q_ints q_offsets v_arr v_cur].
  rewrite u64_id by lia.
  replace (zlen (q_data w) + (zlen name + 1) - 1) with (zlen (q_data w ++ name))
    by (rewrite length_app; lia).
  assert (q_data w ++ (name ++ [0]) ++ d = (q_data w ++ name) ++ 0 :: d) as Harr
    by (by rewrite <-!app_assoc).
  rewrite Harr, lookupz_mid by done. cbn [mbind option_bind].
  rewrite decide_False by tauto. simpl alloc. cbv iota beta.
  rewrite <-app_assoc, Nat2Z.id, drop_app_length, c_string_spec by done. cbn [mbind option_bind].
  unfold on_data, skip, qapp. simpl. rewrite u64_id, !app_nil_r by lia.
  replace ((q_data w ++ name ++ [0]) ++ d) with (q_data w ++ name ++ 0 :: d) by (by rewrite <-!app_assoc).
  by replace (zlen (q_data w ++ name ++ [0])) with (zlen (q_data w) + (zlen name + 1))
    by (rewrite !length_app; simpl; lia).
Qed.

Lemma decode_misc_spec misc w p i o d n :
  misc ≠ [] → reaches (w +++ Quad [] [] [] misc) n →
  decode_misc 0 (zlen misc) (erep w (Quad p i o (misc ++ d)) n) [] =
    Some (inr (Some misc, erep (w +++ Quad [] [] [] misc) (Quad p i o d) n), []).
Proof.
  intros Hne Hn. unfold decode_misc.
  rewrite decide_True by (destruct misc; [done|simpl; lia]). simpl alloc. cbv iota beta.
  destruct n as [[[np ni] no] nd]. destruct Hn as (_ & _ & _ & Hd). simpl in Hd. rewrite length_app in Hd.
  unfold erep, vrep. cbn [e_data e_ports e_ints e_offsets q_data q_ports q_ints q_offsets v_arr v_cur].
  rewrite u64_id by lia. unfold slice. rewrite decide_True by (rewrite !length_app; lia). cbn [mbind option_bind].
  rewrite Z.add_0_r, !Nat2Z.id, drop_app_length, take_app_length.
  unfold on_data, skip, qapp. simpl. rewrite u64_id, !app_nil_r, <-app_assoc by lia.
  by replace (zlen (q_data w ++ misc)) with (zlen (q_data w) + zlen misc) by (rewrite length_app; lia).
Qed.

(** The data of a leaf: a name or additional bytes, not both. *)
Definition leaf_data (name misc : option (list Z)) : list Z :=
  match name with Some name => name ++ [0] | None => [] end ++ default [] misc.

Definition leaf_name_len (name : option (list Z)) : Z :=
  match name with Some name => zlen name + 1 | None => 0 end.

Lemma decode_leaf_data name misc w p i o d n
    (k : option (list Z) → option (list Z) * store_enc → list bool → decoding) :
  (name = None ∨ misc = None) → Forall (λ c, c ≠ 0) (default [] name) → misc ≠ Some [] →
  reaches (w +++ Quad [] [] [] (leaf_data name misc)) n →
  and_then (decode_name (leaf_name_len name) (erep w (Quad p i o (leaf_data name misc ++ d)) n) [])
    (λ '(name', e) o, and_then (decode_misc (leaf_name_len name) (zlen (default [] misc)) e o) (k name'))
  = k name (misc, erep (w +++ Quad [] [] [] (leaf_data name misc)) (Quad p i o d) n) [].
Proof.
  intros Hor Hname Hmisc Hn. unfold leaf_data, leaf_name_len in *. destruct name as [name|].
  - destruct Hor as [Hor|Hor]; [done|subst misc]. simpl in *. rewrite !app_nil_r in *.
    by rewrite decode_name_spec by done.
  - unfold decode_name. rewrite decide_False by lia. cbn [and_then app] in *.
    destruct misc as [misc|]; simpl in *.
    + rewrite decode_misc_spec by (done || congruence). done.
    + change (Quad [] [] [] []) with qnil. by rewrite qapp_nil_r.
Qed.

Lemma std_leaf_decode_spec c port flags bs rs name misc st0 w s n :
  c ∈ [STORAGE_DEVICE; STORAGE_HURD_FILE; STORAGE_MEMORY] →
  _store_create c port flags bs rs 0 [] = Some (inr st0, []) →
  (name = None ∨ misc = None) → Forall (λ c, c ≠ 0) (default [] name) → misc ≠ Some [] →
  let st := with_flags flags (with_name_misc name misc (zlen (default [] misc)) st0) in
  node_encodable st → reaches (w +++ encoding st) n →
  store_std_leaf_decode c (erep w (encoding st +++ s) n) []
    = Some (inr (st, erep (w +++ encoding st) s n), []).
Proof.
  intros Hc Hcreate Hor Hname Hmisc st Henc Hn.
  destruct (store_create_fields _ _ _ _ _ _ _ _ _ Hcreate) as (Hcl & Hport & _ & Hbs & Hrs & _).
  assert (Heq : encoding st = Quad [port] [class_id c; flags; bs; zlen rs; leaf_name_len name; zlen (default [] misc)]
    (run_offsets rs) (leaf_data name misc)).
  { destruct Henc as (E1 & E2 & E3 & E4 & _). rewrite encoding_eq. unfold name_length in *. simpl in *.
    rewrite Hcl, Hport, Hbs, Hrs in *. unfold leaf_name_len, leaf_data.
    rewrite !s32_id by (destruct name; lia). by destruct c; try (exfalso; in_classes Hc). }
  rewrite Heq in *. clear Heq. destruct s as [sp si so sd]. destruct Henc as (E1 & E2 & E3 & E4 & _).
  unfold name_length in E3. simpl in E1, E2, E3, E4. rewrite Hbs in E1. rewrite Hrs in E2.
  fold (leaf_name_len name) in E3.
  assert (E3' : 0 ≤ leaf_name_len name) by (unfold leaf_name_len; destruct name; lia).
  assert (Hld : zlen (leaf_data name misc) = leaf_name_len name + zlen (default [] misc)).
  { unfold leaf_data, leaf_name_len. rewrite length_app. destruct name; [rewrite length_app; simpl; lia|simpl; lia]. }
  unfold store_std_leaf_decode.
  destruct n as [[[np ni] no] nd]. pose proof Hn as (N1 & N2 & N3 & N4). simpl in N1, N2, N3, N4.
  rewrite !length_app in N1, N2, N3, N4. simpl in N1, N2.
  rewrite decide_False by (unfold erep, vrep; cbn [e_ints e_ports v_num v_cur]; lia).
  unfold qapp at 1. cbn [q_ports q_ints q_offsets q_data app].
  do 6 (rewrite get_int_spec; cbn [mbind option_bind]).
  rewrite (u64_id bs), (u64_id (zlen rs)), (u64_id (leaf_name_len name)),
    (u64_id (zlen (default [] misc))) by lia.
  pose proof (length_run_offsets rs) as Hro.
  rewrite decide_False by (unfold erep, vrep, qapp; cbn [e_offsets e_data v_num v_cur q_offsets q_data];
    rewrite !app_nil_r; rewrite !u64_id by lia; lia).
  etransitivity; [apply (decode_leaf_data name misc _ _ _ _ _ _
    (λ name' '(misc', e) o, leaf_create c flags bs (zlen rs) name' misc' (zlen (default [] misc)) e o));
    [done..|unfold reaches; simpl; rewrite !length_app; simpl; lia]|].
  unfold leaf_create, erep. cbn [e_ports q_ports]. rewrite vec_get_spec. cbn [mbind option_bind].
  match goal with |- context [store_with_decoded_runs ?e] => 
    replace e with (erep (w +++ Quad [port] [class_id c; flags; bs; zlen rs; leaf_name_len name; zlen (default [] misc)] [] (leaf_data name misc))
      (Quad sp si (run_offsets rs ++ so) sd) (np, ni, no, nd)) end.
  2:{ unfold on_ports, erep, qapp. simpl. by rewrite !app_nil_r, <-!app_assoc. }
  rewrite decoded_runs_spec by done. rewrite Hcreate. cbn [and_then].
  unfold qapp. simpl. by rewrite !app_nil_r.
Qed.

(** ** The constructors, replayed with the flags of their results *)
Lemma and_then_inr {A B} (m : outcome A) f (y : B) o :
  and_then m f = Some (inr y, o) → ∃ x o1, m = Some (inr x, o1) ∧ f x o1 = Some (inr y, o).
Proof. destruct m as [[[err|x] o1]|]; simpl; try done. eauto. Qed.

Lemma lor_idem a b : Z.lor (Z.lor a b) b = Z.lor a b.
Proof. by rewrite <-Z.lor_assoc, Z.lor_diag. Qed.

Lemma store_set_children_fields st kids o st' o' :
  store_set_children st kids o = Some (inr st', o') → st' = with_children kids st.
Proof.
  unfold store_set_children. case_decide; [|done]. destruct (alloc o) as [[] ?]; [|done].
  by intros [= <- <-].
Qed.

Lemma store_create_size c port flags bs rs o st o' :
  0 < bs → _store_create c port flags bs rs 0 o = Some (inr st, o') →
  ∃ ws bl, sum_runs rs 0 0 = Some (ws, bl) ∧ st_size st = s64 (ws * bs).
Proof.
  unfold _store_create, store_set_runs. intros Hbs Hc. case_decide; [done|].
  destruct (alloc o) as [[] o1]; [|done]. case_decide; [|done].
  destruct (alloc o1) as [[] o2]; [|done]. apply bind_Some in Hc as (st1 & Hd & Hc).
  injection Hc as <- <-. rewrite decide_True in Hd by done. unfold _store_derive in Hd.
  apply bind_Some in Hd as ([ws bl] & Hs & Hd). exists ws, bl. split; [done|].
  apply bind_Some in Hd as ([en bl'] & He & Hd). simpl in He. injection He as <- <-.
  rewrite decide_False in Hd by (simpl; lia).
  apply bind_Some in Hd as (l & _ & Hd). case_decide; [|done].
  apply bind_Some in Hd as (l2 & _ & Hd). case_decide; [|done]. by injection Hd as <-.
Qed.

Lemma remap_create_replay source rs flags st :
  store_remap_create source rs flags [] = Some (inr st, []) →
  st_class st = STORAGE_REMAP ∧ st_runs st = rs ∧ st_children st = [source]
  ∧ store_remap_create source rs (st_flags st) [] = Some (inr st, []).
Proof.
  intros Hc. pose proof Hc as (st0 & o1 & H1 & H2)%and_then_inr.
  apply store_create_fields in H1 as (Hcl & _ & Hf & _ & Hrs & _).
  apply store_set_children_fields in H2 as ->. simpl. split_and!; [done..|].
  unfold store_remap_create in Hc |- *. by rewrite Hf, lor_idem.
Qed.

Lemma zero_create_replay size flags st :
  store_zero_create size flags [] = Some (inr st, []) →
  st_class st = STORAGE_ZERO ∧ store_zero_create (st_size st) (st_flags st) [] = Some (inr st, []).
Proof.
  intros Hc. pose proof Hc as (Hcl & _ & Hf & _)%store_create_fields. split; [done|].
  assert (st_size st = size) as ->; [|unfold store_zero_create in Hc |- *; by rewrite Hf, lor_idem].
  apply store_create_size in Hc as (ws & bl & Hs & ->); [|done]. simpl in Hs.
  apply bind_Some in Hs as (s1 & H1 & Hs). apply bind_Some in Hs as (s2 & H2 & Hs). injection Hs as <- <-.
  unfold chk64 in H1. case_decide as Hr; [|done]. injection H1 as <-.
  rewrite s64_id; lia.
Qed.

Lemma concat_create_replay kids flags st :
  store_concat_create kids flags [] = Some (inr st, []) →
  st_class st = STORAGE_CONCAT ∧ st_children st = kids
  ∧ store_concat_create kids (st_flags st) [] = Some (inr st, []).
Proof.
  intros Hc. pose proof Hc as Hc2. unfold store_concat_create in Hc, Hc2 |- *.
  apply bind_Some in Hc as (bs & Hbs & Hc). rewrite Hbs in Hc2 |- *. cbn [mbind option_bind] in Hc2 |- *.
  apply and_then_inr in Hc as (st0 & o1 & H1 & Hc). apply store_create_fields in H1 as (Hcl & _ & Hf & _).
  apply and_then_inr in Hc as (st1 & o2 & H2 & Hc). apply store_set_children_fields in H2 as ->.
  assert (st_class st = STORAGE_CONCAT ∧ st_children st = kids ∧ st_flags st = Z.lor flags (common_flags kids))
    as (H1' & H2' & ->); [|by rewrite lor_idem].
  simpl in Hc. destruct (store_children_name kids o2) as [[[err|nm] o3]|]; [..|done].
  - case_decide; [|done]. by injection Hc as <- _.
  - by injection Hc as <- _.
Qed.

Fixpoint depth (st : store) : nat := S (foldr Nat.max O (List.map depth (st_children st))).

Lemma depth_eq st : depth st = S (foldr Nat.max O (List.map depth (st_children st))).
Proof. by destruct st. Qed.

Lemma depth_child st k : k ∈ st_children st → (depth k < depth st)%nat.
Proof.
  rewrite (depth_eq st). generalize (st_children st). intros ks Hk.
  induction Hk as [|? ? ? _ IH]; simpl; lia.
Qed.

Lemma kids_ints ks :
  Forall (λ k, (depth k ≤ length (q_ints (encoding k)))%nat) ks →
  (foldr Nat.max O (List.map depth ks) ≤ length (q_ints (foldr qapp qnil (List.map encoding ks))))%nat.
Proof. induction 1 as [|k ks Hk _ IH]; simpl; [lia|]. rewrite length_app. lia. Qed.

(** Every level of a tree has integers of its own. *)
Lemma depth_ints st : built st → (depth st ≤ length (q_ints (encoding st)))%nat.
Proof.
  induction st as [st IH] using store_tree_ind. intros Hb. rewrite depth_eq, encoding_eq. cbv zeta.
  destruct Hb as [c port flags bs rs name misc st0 Hc Hcr Hor Hnm Hms|size flags st Hcr
    |source rs flags st Hsrc Hcr|kids flags st Hks Hcr].
  - apply store_create_fields in Hcr as (Hcl & _ & _ & _ & _ & Hk & _). simpl. rewrite Hk, Hcl.
    destruct c; try (exfalso; in_classes Hc); simpl; lia.
  - pose proof Hcr as (_ & _ & _ & _ & _ & Hk & _)%store_create_fields.
    apply zero_create_replay in Hcr as (Hcl & _). rewrite Hcl, Hk. simpl. lia.
  - apply remap_create_replay in Hcr as (Hcl & _ & Hk & _). rewrite Hcl, Hk in *. simpl.
    apply Forall_cons in IH as [IH _]. specialize (IH Hsrc). rewrite length_app. simpl. lia.
  - apply concat_create_replay in Hcr as (Hcl & Hk & _). rewrite Hcl, Hk in *.
    assert (Hle : Forall (λ k, (depth k ≤ length (q_ints (encoding k)))%nat) kids).
    { rewrite Forall_forall in *. auto. }
    apply kids_ints in Hle. simpl. lia.
Qed.

Definition decodes (fuel : nat) (st : store) : Prop :=
  ∀ w s n, reaches (w +++ encoding st) n →
    store_decode_from fuel (erep w (encoding st +++ s) n) [] =
      Some (inr (st, erep (w +++ encoding st) s n), []).

Lemma decode_children_spec fuel ks w s n :
  Forall (decodes fuel) ks → reaches (w +++ foldr qapp qnil (List.map encoding ks)) n →
  decode_children (store_decode_from fuel) (length ks)
      (erep w (foldr qapp qnil (List.map encoding ks) +++ s) n) [] =
    Some (inr (ks, erep (w +++ foldr qapp qnil (List.map encoding ks)) s n), []).
Proof.
  intros Hks. revert w. induction Hks as [|k ks Hk _ IH]; intros w Hn; simpl.
  { rewrite qapp_nil_r. by destruct s. }
  simpl in Hn. rewrite qapp_assoc in Hn. rewrite <-qapp_assoc.
  rewrite Hk by (by eapply reaches_qapp). cbn [and_then]. rewrite IH by done. cbn [and_then].
  by rewrite qapp_assoc.
Qed.

(** The class identifier leads to the class's decoder. *)
Lemma decode_dispatch fuel w p id i o d n :
  reaches (w +++ Quad [] [id] [] []) n →
  store_decode_from (S fuel) (erep w (Quad p (id :: i) o d) n) [] =
    let e := erep w (Quad p (id :: i) o d) n in
    let has c := bool_decide (id = class_id c) in
    if has STORAGE_DEVICE then store_std_leaf_decode STORAGE_DEVICE e []
    else if has STORAGE_HURD_FILE then store_std_leaf_decode STORAGE_HURD_FILE e []
    else if has STORAGE_MEMORY then store_std_leaf_decode STORAGE_MEMORY e []
    else if has STORAGE_ZERO then zero_decode e []
    else if has STORAGE_CONCAT then concat_decode (store_decode_from fuel) e []
    else if has STORAGE_INTERLEAVE then ileave_decode (store_decode_from fuel) e []
    else if has STORAGE_REMAP then remap_decode (store_decode_from fuel) e []
    else if has STORAGE_COPY then Some (inl EOPNOTSUPP, [])
    else other_decode e [].
Proof.
  intros Hn. destruct n as [[[np ni] no] nd]. destruct Hn as (_ & Hi & _). simpl in Hi.
  rewrite length_app in Hi. simpl in Hi. cbn [store_decode_from].
  rewrite decide_False by (unfold erep, vrep; cbn [e_ints v_num v_cur]; lia).
  set (e := erep _ _ _).
  assert (v_arr (e_ints e) !z v_cur (e_ints e) = Some id) as -> by (by apply lookupz_mid). done.
Qed.

Lemma zero_decode_spec st w s n size flags :
  store_zero_create size flags [] = Some (inr st, []) → reaches (w +++ encoding st) n →
  zero_decode (erep w (encoding st +++ s) n) [] = Some (inr (st, erep (w +++ encoding st) s n), []).
Proof.
  intros Hcr Hn. apply zero_create_replay in Hcr as [Hcl Hcr].
  assert (encoding st = Quad [] [6; st_flags st] [st_size st] []) as Heq by (by rewrite encoding_eq, Hcl).
  rewrite Heq in *. destruct s as [sp si so sd]. destruct n as [[[np ni] no] nd].
  destruct Hn as (_ & Hi & Ho & _). simpl in Hi, Ho. rewrite !length_app in Hi, Ho. simpl in Hi, Ho.
  unfold zero_decode.
  rewrite decide_False by (unfold erep, vrep; cbn [e_ints e_offsets v_num v_cur]; lia).
  unfold qapp at 1. cbn [q_ports q_ints q_offsets q_data app].
  do 2 (rewrite get_int_spec; cbn [mbind option_bind]).
  unfold erep. cbn [e_offsets q_offsets]. rewrite vec_get_spec. cbn [mbind option_bind].
  rewrite Hcr. cbn [and_then]. unfold on_offsets, erep, qapp. simpl.
  by rewrite !app_nil_r, <-!app_assoc.
Qed.

Lemma concat_decode_spec fuel kids flags st w s n :
  store_concat_create kids flags [] = Some (inr st, []) → node_encodable st →
  Forall (decodes fuel) kids → reaches (w +++ encoding st) n →
  concat_decode (store_decode_from fuel) (erep w (encoding st +++ s) n) [] =
    Some (inr (st, erep (w +++ encoding st) s n), []).
Proof.
  intros Hcr (_ & _ & _ & _ & Hlen & _) Hks Hn. apply concat_create_replay in Hcr as (Hcl & Hk & Hcr).
  assert (encoding st = Quad [] [7; st_flags st; zlen kids] [] [] +++ foldr qapp qnil (List.map encoding kids)) as Heq.
  { rewrite Hk in Hlen. rewrite encoding_eq, Hcl, Hk, s32_id by lia. done. }
  rewrite Heq in *. clear Heq. unfold concat_decode.
  rewrite decide_False by (apply Z.le_ngt; exact (reaches_ints _ _ _ _ _ _ Hn)).
  rewrite <-qapp_assoc. set (q := _ +++ s).
  assert (Quad [] [7; st_flags st; zlen kids] [] [] +++ q
    = Quad (q_ports q) (7 :: st_flags st :: zlen kids :: q_ints q) (q_offsets q) (q_data q)) as -> by done.
  do 3 (rewrite get_int_spec; cbn [mbind option_bind]).
  unfold store_decode_children. rewrite decide_False, Nat2Z.id by lia.
  assert (Hw : ((w +++ Quad [] [7] [] []) +++ Quad [] [st_flags st] [] []) +++ Quad [] [zlen kids] [] []
    = w +++ Quad [] [7; st_flags st; zlen kids] [] []).
  { rewrite <-!qapp_assoc. done. }
  rewrite Hw. rewrite qapp_assoc in Hn |- *. subst q.
  set (ks := foldr qapp qnil (List.map encoding kids)) in *.
  rewrite quad_eta. subst ks. rewrite decode_children_spec by done. cbn [and_then].
  by rewrite Hcr.
Qed.

Lemma remap_decode_spec fuel source rs flags st w s n :
  store_remap_create source rs flags [] = Some (inr st, []) → node_encodable st →
  decodes fuel source → reaches (w +++ encoding st) n →
  remap_decode (store_decode_from fuel) (erep w (encoding st +++ s) n) [] =
    Some (inr (st, erep (w +++ encoding st) s n), []).
Proof.
  intros Hcr (_ & Hlen & _) Hsrc Hn. apply remap_create_replay in Hcr as (Hcl & Hrs & Hk & Hcr).
  assert (encoding st = Quad [] [10; st_flags st; zlen rs] (run_offsets rs) [] +++ encoding source) as Heq.
  { rewrite Hrs in Hlen. rewrite encoding_eq, Hcl, Hk, Hrs, s32_id by lia. simpl.
    by rewrite qapp_nil_r. }
  rewrite Heq in *. clear Heq. unfold remap_decode.
  rewrite decide_False by (apply Z.le_ngt; exact (reaches_ints _ _ _ _ _ _ Hn)).
  rewrite <-qapp_assoc. set (q := _ +++ s).
  assert (Quad [] [10; st_flags st; zlen rs] (run_offsets rs) [] +++ q
    = Quad (q_ports q) (10 :: st_flags st :: zlen rs :: q_ints q) (run_offsets rs ++ q_offsets q) (q_data q)) as -> by done.
  do 3 (rewrite get_int_spec; cbn [mbind option_bind]).
  rewrite Hrs in Hlen. rewrite u64_id, decoded_runs_spec by lia.
  assert (Hw : (((w +++ Quad [] [10] [] []) +++ Quad [] [st_flags st] [] []) +++ Quad [] [zlen rs] [] [])
      +++ Quad [] [] (run_offsets rs) []
    = w +++ Quad [] [10; st_flags st; zlen rs] (run_offsets rs) []).
  { rewrite <-!qapp_assoc. done. }
  rewrite Hw. rewrite qapp_assoc in Hn |- *. subst q. rewrite quad_eta.
  unfold store_decode_children. rewrite decide_False by lia. simpl. rewrite Hsrc by done. simpl.
  by rewrite Hcr.
Qed.

Lemma decode_spec st fuel : built st → encodable st → (depth st ≤ fuel)%nat → decodes fuel st.
Proof.
  revert fuel. induction st as [st IH] using store_tree_ind.
  intros fuel Hb [Hn Hk]%encodable_inv Hf w s n Hr.
  destruct fuel as [|fuel]; [rewrite depth_eq in Hf; lia|].
  assert (Hkids : Forall built (st_children st) → Forall (decodes fuel) (st_children st)).
  { intros Hbk. rewrite Forall_forall in *. intros k Hin. apply IH; auto.
    pose proof (depth_child st k Hin). lia. }
  assert (Hdisp : ∀ id i, q_ints (encoding st) = id :: i →
    reaches (w +++ Quad [] [id] [] []) n ∧ encoding st +++ s =
      Quad (q_ports (encoding st) ++ q_ports s) (id :: i ++ q_ints s)
        (q_offsets (encoding st) ++ q_offsets s) (q_data (encoding st) ++ q_data s)).
  { intros id i Hi. split; [|unfold qapp; by rewrite Hi].
    destruct n as [[[np ni] no] nd]. unfold reaches in *. simpl in *. rewrite Hi in Hr.
    rewrite !length_app in Hr. rewrite !length_app. simpl in *. lia. }
  destruct Hb as [c port flags bs rs name misc st0 Hc Hcr Hor Hnm Hms|size flags st Hcr
    |source rs flags st Hsrc Hcr|kids flags st Hks Hcr].
  - set (st := with_flags _ _) in *.
    pose proof Hcr as (Hcl & _)%store_create_fields.
    destruct (Hdisp (class_id c) (tail (q_ints (encoding st)))) as [Hr1 Heq].
    { rewrite encoding_eq. simpl. rewrite Hcl. by destruct c; try (exfalso; in_classes Hc). }
    rewrite Heq, decode_dispatch, <-Heq by done. cbv zeta.
    pose proof (std_leaf_decode_spec c port flags bs rs name misc st0 w s n Hc Hcr Hor Hnm Hms Hn Hr) as Hd.
    by destruct c; try (exfalso; in_classes Hc).
  - pose proof Hcr as [Hcl _]%zero_create_replay.
    destruct (Hdisp 6 [st_flags st]) as [Hr1 Heq]; [by rewrite encoding_eq, Hcl|].
    rewrite Heq, decode_dispatch, <-Heq by done. cbv zeta. simpl.
    by eapply zero_decode_spec.
  - pose proof Hcr as (Hcl & Hrs & Hkid & _)%remap_create_replay.
    destruct (Hdisp 10 (tail (q_ints (encoding st)))) as [Hr1 Heq]; [by rewrite encoding_eq, Hcl|].
    rewrite Heq, decode_dispatch, <-Heq by done. cbv zeta. simpl.
    eapply remap_decode_spec; try done. rewrite Hkid in Hkids.
    assert (Forall built [source]) as Hbs by (by constructor). by apply Hkids, Forall_cons in Hbs as [? _].
  - pose proof Hcr as (Hcl & Hkid & _)%concat_create_replay.
    destruct (Hdisp 7 (tail (q_ints (encoding st)))) as [Hr1 Heq]; [by rewrite encoding_eq, Hcl|].
    rewrite Heq, decode_dispatch, <-Heq by done. cbv zeta. simpl.
    eapply concat_decode_spec; try done. rewrite Hkid in Hkids. auto.
Qed.

(** C18. A store that the library's constructors have built, a tree of device,
    file, memory object, zero, remapped and concatenated stores, is rebuilt
    exactly from its encoding: [store_encode] succeeds whatever vectors the caller
    provides, writing only within the room it has counted and allocated, and
    [store_decode] of the vectors returns the same store.  A leaf with both a name
    and additional data is left out, and every allocation succeeds. *)
Theorem store_encode_decode_roundtrip st ports ints offsets data :
  built st → encodable st → small (encoding st) →
  ∃ e e', store_encode st (store_enc_init ports ints offsets data) [] = Some (E0, e, [])
    ∧ v_num (e_ints e) = zlen (q_ints (encoding st))
    ∧ store_decode e [] = Some (inr (st, e'), []).
Proof.
  intros Hb Hst Hsm. pose proof Hsm as (S1 & S2 & S3 & S4).
  destruct (store_encode_spec st ports ints offsets data Hst Hsm)
    as (e & He & [rp Hp] & [ri Hi] & [ro Ho] & [rd Hd]).
  exists e. eexists. split; [done|]. split; [by rewrite Hi|].
  unfold store_decode.
  pose proof (decode_spec st (S (length (v_arr (e_ints e)))) Hb Hst) as Hdec.
  assert (e = erep qnil (encoding st +++ Quad rp ri ro rd)
    (zlen (q_ports (encoding st)), zlen (q_ints (encoding st)), zlen (q_offsets (encoding st)),
     zlen (q_data (encoding st)))) as Heq.
  { destruct e. simpl in *. by subst. }
  rewrite Heq at 2. apply Hdec.
  - rewrite Hi. simpl. rewrite length_app. pose proof (depth_ints st Hb). lia.
  - unfold reaches. simpl. lia.
Qed.
End roundtrip.

(** ** Examples *)
Definition no_other_enc : OtherEnc :=
  {| other_allocate_encoding _ e := (EOPNOTSUPP, e);
     other_encode _ e := Some (EOPNOTSUPP, e);
     other_decode _ o := Some (inl EINVAL, o) |}.

(** A remapping of the concatenation of a device with a name and a zero store. *)
Definition device : store := Eval vm_compute in
  created (_store_create (H := page_4096) STORAGE_DEVICE 9 0x100 512 [StoreRun 63 100; StoreRun (-1) 5] 0 []).
Definition named_device : store := with_flags 0x100 (with_name_misc (Some [104; 100; 48]) None 0 device).
Definition zeros : store := Eval vm_compute in created (store_zero_create (H := page_4096) 4096 0 []).
Definition joined : store := Eval vm_compute in
  created (store_concat_create (H := page_4096) [named_device; zeros] 0 []).
Definition tree : store := Eval vm_compute in
  created (store_remap_create (H := page_4096) joined [StoreRun 3 4; StoreRun 50 1] 0 []).

Lemma tree_built : built (H := page_4096) tree.
Proof.
  apply (built_remap (H := page_4096) joined [StoreRun 3 4; StoreRun 50 1] 0); [|by vm_compute].
  apply (built_concat (H := page_4096) [named_device; zeros] 0); [|by vm_compute].
  constructor; [|constructor; [|constructor]].
  - apply (built_leaf (H := page_4096) STORAGE_DEVICE 9 0x100 512 [StoreRun 63 100; StoreRun (-1) 5]
      (Some [104; 100; 48]) None device); [left|by vm_compute|by right| |done].
    apply (bool_decide_eq_true_1 _). by vm_compute.
  - apply (built_zero (H := page_4096) 4096 0). by vm_compute.
Qed.

Lemma tree_encodable : encodable tree.
Proof.
  assert (Hn : ∀ st, st ∈ [tree; joined; named_device; zeros] → node_encodable st).
  { intros st Hst. repeat (apply elem_of_cons in Hst as [->|Hst]); [..|by apply elem_of_nil in Hst];
      (split_and!; [by vm_compute..|apply (bool_decide_eq_true_1 _); by vm_compute]). }
  split; [apply Hn; left|]. split; [|done]. split; [apply Hn; right; left|].
  split; [split; [apply Hn; right; right; left|done]|].
  split; [split; [apply Hn; right; right; right; left|done]|done].
Qed.

Lemma store_encode_decode_roundtrip_witness :
  ∃ e e', store_encode (H0 := no_other_enc) tree (store_enc_init [] (replicate 60 0) [] (replicate 3 0)) []
      = Some (E0, e, [])
    ∧ v_num (e_ints e) = zlen (q_ints (encoding tree))
    ∧ store_decode (H := page_4096) (H0 := no_other_enc) e [] = Some (inr (tree, e'), []).
Proof.
  apply (store_encode_decode_roundtrip (H := page_4096) (H0 := no_other_enc) tree);
    [apply tree_built|apply tree_encodable|by vm_compute].
Defined.

(** ** Where the code does not do what it means to *)

(** A leaf with a name and additional data is not rebuilt: the data is read from
    [name_len] bytes after the place it is at, here past the end of the vector. *)
Example leaf_with_name_and_misc :
  let st := with_name_misc (Some [104; 100]) (Some [1; 2]) 2 device in
  match store_encode (H0 := no_other_enc) st (store_enc_init [] [] [] []) [] with
  | Some (E0, e, _) =>
      v_arr (e_data e) = [104; 100; 0; 1; 2]
      ∧ store_decode (H := page_4096) (H0 := no_other_enc) e [] = None
  | _ => False
  end.
Proof. by vm_compute. Qed.

(** The test that the vectors are long enough can overflow: with a name of length
    -1 and one byte of data the sum is 0, and the byte before the name is read. *)
Example leaf_decode_negative_length :
  store_decode (H := page_4096) (H0 := no_other_enc)
    (store_enc_init [5] [1; 0; 512; 0; -1; 1] [] []) [] = None.
Proof. lazy. reflexivity. Qed.

(** The number of runs of a remapped store is believed: the offsets are read past
    their end. *)
Example remap_decode_overruns :
  store_decode (H := page_4096) (H0 := no_other_enc)
    (store_enc_init [] [10; 0; 3] [1; 2] []) [] = None.
Proof. by vm_compute. Qed.

(** The interleave factor is sent in blocks but taken for bytes: two stripes of
    512-byte blocks interleaved every block cannot be rebuilt. *)
Example ileave_not_rebuilt :
  let stripe := created (_store_create (H := page_4096) STORAGE_DEVICE 9 0 512 [StoreRun 0 64] 0 []) in
  let st := created (store_ileave_create (H := page_4096) [stripe; stripe] 512 0 []) in
  match store_encode (H0 := no_other_enc) st (store_enc_init [] [] [] []) [] with
  | Some (E0, e, _) => store_decode (H := page_4096) (H0 := no_other_enc) e [] = Some (inl EINVAL, [])
  | _ => False
  end.
Proof. by vm_compute. Qed.

(** The error of a child that cannot be encoded is dropped: the encoding of a
    concatenation with a copy store is returned as a success and announces a child
    that is not in it. *)
Example child_error_dropped :
  let copy := created (_store_create (H := page_4096) STORAGE_COPY 0 0 512 [StoreRun 0 4] 0 []) in
  let st := created (store_concat_create (H := page_4096) [copy] 0 []) in
  encode (H0 := no_other_enc) copy (store_enc_init [] [] [] []) = Some (EOPNOTSUPP, store_enc_init [] [] [] [])
  ∧ match store_encode (H0 := no_other_enc) st (store_enc_init [] [] [] []) [] with
    | Some (E0, e, _) =>
        v_arr (e_ints e) = [7; 0; 1]
        ∧ store_decode (H := page_4096) (H0 := no_other_enc) e [] = Some (inl EINVAL, [])
    | _ => False
    end.
Proof. by vm_compute. Qed.
