(* ===== verification/Dev.v ===== *)
(** * Devices: byte access to a store (src/storeio/dev.c, dev.h)

    The translator [storeio] gives access to any range of bytes of a store,
    which itself transfers whole blocks: a buffer of one block is kept for what
    is not aligned.  The store is used through the interface [ArrayStore], which
    the trees of stores of [StoreTree.v] implement; the theorems state that a
    device, its buffer and its store together are an array of bytes.

    A call runs with the lock of the device held.  [None] is a failed assertion
    or an access outside of a buffer. *)

From S2P Require Import Prelude Slice Store StoreRefine StoreTree.

(** [readonly], the owner, the number of opens and the pager do not take part in
    the transfers. *)
Record dev := mk_dev {
  dstore : store;
  inhibit_cache : bool;
  block_mask : Z;
  buf : list Z;
  buf_offs : Z;
  buf_dirty : bool
}.

Definition set_buf (b : list Z) (d : dev) : dev :=
  mk_dev (dstore d) (inhibit_cache d) (block_mask d) b (buf_offs d) (buf_dirty d).
Definition set_buf_offs (offs : Z) (d : dev) : dev :=
  mk_dev (dstore d) (inhibit_cache d) (block_mask d) (buf d) offs (buf_dirty d).
Definition set_buf_dirty (b : bool) (d : dev) : dev :=
  mk_dev (dstore d) (inhibit_cache d) (block_mask d) (buf d) (buf_offs d) b.

(** [~mask] of an [unsigned], widened *)
Definition not_mask (mask : Z) : Z := 2 ^ 32 - 1 - mask.

Section dev.
Context {W : Type} `{Media W}.

Definition dev_buf_is_active (d : dev) : bool := bool_decide (0 ≤ buf_offs d).

Definition dev_buf_discard (d : dev) (w : W) : option (error_t * dev * W) :=
  if dev_buf_is_active d then
    if buf_dirty d then
      let st := dstore d in
      src ← mem_read 0 (st_block_size st) (buf d);
      '(err, amount, w) ← store_write st (Z.shiftr (buf_offs d) (st_log2_block_size st)) src w;
      err ← (if decide (err = E0) then
               amount ← amount; Some (if decide (amount < st_block_size st) then EIO else E0)
             else Some err);
      if decide (err ≠ E0) then Some (err, d, w)
      else Some (E0, set_buf_offs (-1) (set_buf_dirty false d), w)
    else Some (E0, set_buf_offs (-1) d, w)
  else Some (E0, d, w).

Definition dev_buf_fill (d : dev) (offs : Z) (w : W) (o : allocs)
    : option (error_t * dev * W * allocs) :=
  let st := dstore d in
  let mask := not_mask (block_mask d) in
  if dev_buf_is_active d && bool_decide (Z.land (buf_offs d) mask = Z.land offs mask)
  then Some (E0, d, w, o) else
  '(err, d, w) ← (if dev_buf_is_active d then dev_buf_discard d w else Some (E0, d, w));
  if decide (err ≠ E0) then Some (err, d, w, o) else
  match store_read w st (Z.shiftr offs (st_log2_block_size st)) (st_block_size st) (st_block_size st) o with
  | None => None
  | Some (inl err, o) => Some (err, d, w, o)
  | Some (inr (data, fresh), o) =>
      b ← (if fresh : bool then Some data else mem_write 0 data (buf d));
      if decide (zlen data < st_block_size st)
      then Some (EIO, if fresh then d else set_buf b d, w, o)
      else Some (E0, set_buf_offs (Z.land offs mask) (set_buf b d), w, o)
  end.

(** The state of a transfer: the device, what is below its store, the memory of
    the caller's buffer and whether it was allocated by the call. *)
Record io := mk_io {
  io_dev : dev;
  io_world : W;
  io_allocs : allocs;
  io_mem : list Z;
  io_allocated : bool
}.

Definition with_dev (x : io) (d : dev) (w : W) (o : allocs) : io :=
  mk_io d w o (io_mem x) (io_allocated x).

(** [buf_rw (buf_offs, io_offs, len)] *)
Abbreviation buf_rw_t := (Z → Z → Z → io → option (error_t * io)).
(** [raw_rw (offs, io_offs, len, &amount)], with the old and the new [amount] *)
Abbreviation raw_rw_t := (Z → Z → Z → Z → io → option (error_t * option Z * io)).

(** The error, the new [io_offs] and the new [len]. *)
Definition dev_buf_rw (buf_rw : buf_rw_t) (boffs io_offs len : Z) (x : io)
    : option (error_t * Z * Z * io) :=
  let block_size := st_block_size (dstore (io_dev x)) in
  if dev_buf_is_active (io_dev x) then
    if decide (block_size ≤ u64 (boffs + len)) then
      let buf_len := u64 (block_size - boffs) in
      '(err, x) ← buf_rw boffs io_offs buf_len x;
      if decide (err ≠ E0) then Some (err, io_offs, len, x) else
      '(err, d, w) ← dev_buf_discard (io_dev x) (io_world x);
      Some (err, io_offs + buf_len, u64 (len - buf_len), with_dev x d w (io_allocs x))
    else
      '(err, x) ← buf_rw boffs io_offs len x;
      if decide (err ≠ E0) then Some (err, io_offs, len, x) else Some (E0, io_offs + len, 0, x)
  else None.

Definition fill (offs : Z) (x : io) : option (error_t * io) :=
  '(err, d, w, o) ← dev_buf_fill (io_dev x) offs (io_world x) (io_allocs x);
  Some (err, with_dev x d w o).

Definition discard (x : io) : option (error_t * io) :=
  '(err, d, w) ← dev_buf_discard (io_dev x) (io_world x); Some (err, with_dev x d w (io_allocs x)).

(** The part of [buffered_rw] before the block boundary. *)
Definition rw_head (buf_rw : buf_rw_t) (offs len : Z) (x : io) : option (error_t * Z * Z * io) :=
  let block_offs := Z.land offs (block_mask (io_dev x)) in
  if decide (block_offs ≠ 0) then
    '(err, x) ← fill offs x;
    if decide (err ≠ E0) then Some (err, 0, len, x) else dev_buf_rw buf_rw block_offs 0 len x
  else Some (E0, 0, len, x).

(** The whole blocks. *)
Definition rw_blocks (raw_rw : raw_rw_t) (offs io_offs len : Z) (x : io) : option (error_t * Z * Z * io) :=
  if decide (u32 (st_block_size (dstore (io_dev x))) ≤ len) then
    let mask := not_mask (block_mask (io_dev x)) in
    '(err, x) ← discard x;
    if decide (err ≠ E0) then Some (err, io_offs, len, x) else
    '(err, amount, x) ← raw_rw (s64 (offs + io_offs)) io_offs (Z.land len mask) 0 x;
    if decide (err ≠ E0) then Some (err, io_offs, len, x) else
    amount ← amount; Some (E0, io_offs + amount, u64 (len - amount), x)
  else Some (E0, io_offs, len, x).

(** What is left after the whole blocks, which returned [err]. *)
Definition rw_tail (buf_rw : buf_rw_t) (err : error_t) (offs io_offs len : Z) (x : io)
    : option (error_t * Z * Z * io) :=
  if decide (0 < len < u32 (st_block_size (dstore (io_dev x)))) then
    '(err, x) ← fill (s64 (offs + io_offs)) x;
    if decide (err ≠ E0) then Some (err, io_offs, len, x) else dev_buf_rw buf_rw 0 io_offs len x
  else Some (err, io_offs, len, x).

(** The error and, on success, the amount. *)
Definition buffered_rw (buf_rw : buf_rw_t) (raw_rw : raw_rw_t) (offs len : Z) (x : io)
    : option (error_t * option Z * io) :=
  '(err, io_offs, len, x) ← rw_head buf_rw offs len x;
  '(err, io_offs, len, x) ←
    (if decide (err = E0 ∧ 0 < len) then
       '(err, io_offs, len, x) ← rw_blocks raw_rw offs io_offs len x;
       rw_tail buf_rw err offs io_offs len x
     else Some (err, io_offs, len, x));
  Some (err, if decide (err = E0) then Some io_offs else None, x).

(** [cap] is [*amount] of the caller. *)
Definition dev_rw (buf_rw : buf_rw_t) (raw_rw : raw_rw_t) (offs len cap : Z) (x : io)
    : option (error_t * option Z * io) :=
  let d := io_dev x in
  let size := st_size (dstore d) in
  if decide (offs < 0 ∨ size < offs) then Some (EINVAL, None, x) else
  let len := if decide (u64 size < u64 (offs + len)) then u64 (size - offs) else len in
  if dev_buf_is_active d || bool_decide (Z.land offs (block_mask d) ≠ 0)
     || bool_decide (Z.land len (block_mask d) ≠ 0)
  then buffered_rw buf_rw raw_rw offs len x
  else raw_rw offs 0 len cap x.

(** ** Writing *)
Definition buf_write (data : list Z) : buf_rw_t := λ boffs io_offs len x,
  src ← mem_read io_offs len data;
  b ← mem_write boffs src (buf (io_dev x));
  Some (E0, with_dev x (set_buf_dirty true (set_buf b (io_dev x))) (io_world x) (io_allocs x)).

Definition raw_write (data : list Z) : raw_rw_t := λ offs io_offs len _ x,
  let st := dstore (io_dev x) in
  src ← mem_read io_offs len data;
  '(err, amount, w) ← store_write st (Z.shiftr offs (st_log2_block_size st)) src (io_world x);
  Some (err, amount, with_dev x (io_dev x) w (io_allocs x)).

Definition dev_write (d : dev) (offs : Z) (data : list Z) (w : W) (o : allocs)
    : option (error_t * option Z * dev * W * allocs) :=
  let st := dstore d in
  let len := zlen data in
  if inhibit_cache d then
    if decide (st_block_size st = 0) then
      '(err, amount, w) ← store_write st offs data w; Some (err, amount, d, w, o)
    else if decide (Z.land offs (st_block_size st - 1) ≠ 0 ∨ Z.land len (st_block_size st - 1) ≠ 0) then
      Some (EINVAL, None, d, w, o)
    else
      addr ← chk64 (Z.shiftl offs (st_log2_block_size st));
      '(err, amount, w) ← store_write st addr data w;
      Some (err, amount, d, w, o)
  else
    '(err, amount, x) ← dev_rw (buf_write data) (raw_write data) offs len 0 (mk_io d w o [] false);
    Some (err, amount, io_dev x, io_world x, io_allocs x).

(** ** Reading *)

(** [ensure_buf]: [cap] is [*len], [whole] the whole amount. *)
Definition ensure_buf (cap whole : Z) (x : io) : error_t * io :=
  if decide (cap < whole) then
    let '(ok, o) := alloc (io_allocs x) in
    if ok then (E0, mk_io (io_dev x) (io_world x) o (replicate (Z.to_nat whole) 0) true)
    else (ENOMEM, mk_io (io_dev x) (io_world x) o (io_mem x) (io_allocated x))
  else (E0, x).

Definition set_mem (x : io) (o : allocs) (m : list Z) : io :=
  mk_io (io_dev x) (io_world x) o m (io_allocated x).

Definition buf_read (cap whole : Z) : buf_rw_t := λ boffs io_offs len x,
  let '(err, x) := ensure_buf cap whole x in
  if decide (err = E0) then
    src ← mem_read boffs len (buf (io_dev x));
    m ← mem_write io_offs src (io_mem x);
    Some (E0, set_mem x (io_allocs x) m)
  else Some (err, x).

Definition raw_read (cap whole : Z) : raw_rw_t := λ offs io_offs len amount x,
  let st := dstore (io_dev x) in
  let addr := Z.shiftr offs (st_log2_block_size st) in
  if decide (len = whole) then
    match store_read (io_world x) st addr len amount (io_allocs x) with
    | None => None
    | Some (inl err, o) => Some (err, None, set_mem x o (io_mem x))
    | Some (inr (data, fresh), o) =>
        m ← (if fresh : bool then Some data else mem_write 0 data (io_mem x));
        Some (E0, Some (zlen data), set_mem x o m)
    end
  else
    let '(err, x) := ensure_buf cap whole x in
    if decide (err = E0) then
      match store_read (io_world x) st addr len len (io_allocs x) with
      | None => None
      | Some (inl err, o) => Some (err, None, set_mem x o (io_mem x))
      | Some (inr (data, fresh), o) =>
          m ← mem_write io_offs data (io_mem x); Some (E0, Some (zlen data), set_mem x o m)
      end
    else Some (err, None, x).

(** [mem] is the caller's buffer, [*len] its size; the result has the new [*len] and
    the memory at the new [*buf]. *)
Definition dev_read (d : dev) (offs whole : Z) (mem : list Z) (w : W) (o : allocs)
    : option (error_t * option Z * list Z * dev * W * allocs) :=
  let st := dstore d in
  let cap := zlen mem in
  if decide (0 < st_size st ∧ offs = st_size st) then Some (E0, Some 0, mem, d, w, o) else
  if inhibit_cache d then
    let read addr :=
      match store_read w st addr whole cap o with
      | None => None
      | Some (inl err, o) => Some (err, None, mem, d, w, o)
      | Some (inr (data, fresh), o) =>
          m ← (if fresh : bool then Some data else mem_write 0 data mem);
          Some (E0, Some (zlen data), m, d, w, o)
      end in
    if decide (st_block_size st = 0) then read offs
    else if decide (Z.land offs (st_block_size st - 1) ≠ 0 ∨ Z.land whole (st_block_size st - 1) ≠ 0) then
      Some (EINVAL, None, mem, d, w, o)
    else addr ← chk64 (Z.shiftl offs (st_log2_block_size st)); read addr
  else
    '(err, amount, x) ← dev_rw (buf_read cap whole) (raw_read cap whole) offs whole cap (mk_io d w o mem false);
    let mem := if decide (err ≠ E0 ∧ io_allocated x = true) then [] else io_mem x in
    Some (err, amount, mem, io_dev x, io_world x, io_allocs x).

(** ** Opening, closing and flushing a device without a pager *)
Definition dev_sync (d : dev) (w : W) : option (error_t * dev * W) :=
  if inhibit_cache d then Some (E0, d, w) else dev_buf_discard d w.

(** A device whose [store] is 0. *)
Record closed_dev := mk_closed {
  c_inhibit_cache : bool;
  c_block_mask : Z;
  c_buf_offs : Z;
  c_buf_dirty : bool
}.

(** [opened] is the result of [store_create] or [store_parsed_open], [inactivate]
    what [store_set_flags (store, STORE_INACTIVE)] leaves, whose error is ignored. *)
Definition dev_open (opened : error_t + store) (inactivate : store → store) (c : closed_dev) (o : allocs)
    : outcome dev :=
  match opened with
  | inl err => Some (inl err, o)
  | inr st =>
      let st := inactivate st in
      let '(ok, o) := if decide (st_block_size st = 0) then (true, o) else alloc o in
      if ok : bool then
        let b := replicate (Z.to_nat (st_block_size st)) 0 in
        if c_inhibit_cache c then
          Some (inr (mk_dev st true (c_block_mask c) b (c_buf_offs c) (c_buf_dirty c)), o)
        else if decide (0 ≤ st_log2_block_size st < 31) then
          Some (inr (mk_dev st false (u32 (Z.shiftl 1 (st_log2_block_size st) - 1)) b (-1) (c_buf_dirty c)), o)
        else None
      else Some (inl ENOMEM, o)
  end.

(** The error of the last flush is ignored. *)
Definition dev_close (d : dev) (w : W) : option (closed_dev * W) :=
  '(_, d, w) ← (if inhibit_cache d then Some (E0, d, w) else dev_buf_discard d w);
  Some (mk_closed (inhibit_cache d) (block_mask d) (buf_offs d) (buf_dirty d), w).
End dev.
