(* ===== verification/DevRefine.v ===== *)
(** * Devices: a device is an array of bytes

    What a device promises, for the operations of [Dev.v]: the bytes of its
    store overlaid with its buffer are an array ([dev_view]); reads return a part
    of it and writes replace a part of it, at every offset and length, and
    flushing moves it to the store.  The store is known only by [ArrayStore]; the
    last part shows that trees of stores implement that interface. *)

From S2P Require Import Prelude Slice Store StoreRefine StoreTree StoreProps Dev.

(** ** Masks *)
Lemma land_not_mask x k : 0 ≤ k ≤ 32 → 0 ≤ x < 2 ^ 32 → Z.land x (not_mask (2 ^ k - 1)) = x - x mod 2 ^ k.
Proof.
  intros Hk Hx. unfold not_mask.
  change (2 ^ 32 - 1) with (Z.ones 32). rewrite Z.sub_1_r, <-Z.ones_equiv, Z.sub_nocarry_ldiff.
  - rewrite Z.ldiff_land, Z.land_assoc, Z.land_ones, Z.mod_small, <-Z.ldiff_land by lia.
    rewrite Z.ldiff_ones_r, Z.shiftl_mul_pow2, Z.shiftr_div_pow2 by lia.
    pose proof (Z.div_mod x (2 ^ k)). lia.
  - apply Z.bits_inj'. intros i Hi. rewrite Z.ldiff_spec, Z.bits_0, !Z.testbit_ones_nonneg by lia.
    destruct (Z.ltb_spec i k), (Z.ltb_spec i 32); done || lia.
Qed.

(** ** What a device relies on

    A store of whole blocks whose contents are an array of bytes. *)
Class ArrayStore (bs : Z) (st : store) (W : Type) `{Media W} := {
  contents : W → list Z;
  array_level : level_ok bs st;
  contents_length : ∀ w, zlen (contents w) = st_size st;
  array_read : ∀ w a m cap, 0 ≤ a → 0 < m → (a + m) * bs ≤ st_size st →
    delivers cap (m * bs) (slice (a * bs) (m * bs) (contents w)) (store_read w st a (m * bs) cap []);
  array_write : ∀ w a m data, 0 ≤ a → 0 < m → (a + m) * bs ≤ st_size st → zlen data = m * bs →
    ∃ w', store_write st a data w = Some (E0, Some (zlen data), w')
      ∧ contents w' = splice (a * bs) data (contents w)
}.

Section refine.
Context {W : Type} {HM : Media W} (bs : Z) (st : store) {HA : ArrayStore bs st W}.

(** The bytes of a device. *)
Definition dev_view (d : dev) (w : W) : list Z :=
  if dev_buf_is_active d then splice (buf_offs d) (buf d) (contents w) else contents w.

(** The invariant of a device with a cache: an active buffer is a block of the
    store, the same as in the store unless it is dirty. *)
Record dev_ok (d : dev) (w : W) : Prop := {
  do_store : dstore d = st;
  do_cache : inhibit_cache d = false;
  do_mask : block_mask d = bs - 1;
  do_buf : zlen (buf d) = bs;
  do_offs : buf_offs d = -1
    ∨ 0 ≤ buf_offs d ∧ buf_offs d mod bs = 0 ∧ buf_offs d + bs ≤ st_size st
      ∧ (buf_dirty d = false → buf d = slice (buf_offs d) bs (contents w))
}.

Definition represents (v : list Z) (d : dev) (w : W) : Prop := dev_ok d w ∧ dev_view d w = v.

(** The offsets fit the 32 bits of the mask. *)
Hypothesis Hsize : st_size st < 2 ^ 32.

Lemma array_lev : level_ok bs st.
Proof. apply array_level. Qed.

Lemma array_bs_pos : 0 < bs.
Proof. apply (bs_pos bs st array_lev). Qed.

Lemma array_size_mod : st_size st mod bs = 0.
Proof. rewrite (lo_size _ _ array_lev). apply Z.mod_mul. pose proof array_bs_pos. lia. Qed.

(** A part of a multiple of the block size. *)
Lemma block_in x : x mod bs = 0 → x < st_size st → x + bs ≤ st_size st.
Proof.
  intros Hx Hlt. pose proof array_bs_pos. pose proof array_size_mod as Hs.
  apply Z.mod_divide in Hx as [q ->]; [|lia]. apply Z.mod_divide in Hs as [n Hn]; [|lia].
  rewrite Hn in Hlt |- *. apply Z.mul_lt_mono_pos_r in Hlt; [|done]. nia.
Qed.

Lemma block_start x : 0 ≤ x < st_size st →
  (x - x mod bs) mod bs = 0 ∧ 0 ≤ x - x mod bs ∧ x - x mod bs + bs ≤ st_size st.
Proof.
  intros Hx. pose proof array_bs_pos. pose proof (Z.div_mod x bs). pose proof (Z.mod_pos_bound x bs).
  assert (Hm : (x - x mod bs) mod bs = 0).
  { replace (x - x mod bs) with (x / bs * bs) by lia. apply Z.mod_mul. lia. }
  split; [done|]. split; [|apply block_in; [done|lia]].
  replace (x - x mod bs) with (bs * (x / bs)) by lia. pose proof (Z.div_pos x bs). nia.
Qed.

Lemma shiftr_block x : Z.shiftr x (st_log2_block_size st) = x / bs.
Proof.
  rewrite Z.shiftr_div_pow2 by apply (lo_log2 _ _ array_lev). by rewrite <-(lo_pow _ _ array_lev).
Qed.

Lemma land_block_mask x : Z.land x (bs - 1) = x mod bs.
Proof.
  rewrite (lo_pow bs st array_lev) at 1 2. apply land_mask, (lo_log2 _ _ array_lev).
Qed.

Lemma land_not_block_mask x : bs ≤ st_size st → 0 ≤ x < 2 ^ 32 → Z.land x (not_mask (bs - 1)) = x - x mod bs.
Proof.
  intros Hb Hx. pose proof (lo_log2 _ _ array_lev). pose proof (lo_pow _ _ array_lev) as Hp.
  rewrite Hp at 1 2. apply land_not_mask; [|done]. split; [done|].
  apply (Z.pow_le_mono_r_iff 2); [lia|lia|]. lia.
Qed.

Lemma blocks_mul x : x mod bs = 0 → x / bs * bs = x.
Proof. intros Hx. pose proof array_bs_pos. pose proof (Z.div_mod x bs). lia. Qed.

(** Transfers of the store, at byte offsets. *)
Lemma read_at w x n cap :
  0 ≤ x → 0 < n → x mod bs = 0 → n mod bs = 0 → x + n ≤ st_size st →
  delivers cap n (slice x n (contents w)) (store_read w st (x / bs) n cap []).
Proof.
  intros Hx Hn Hxm Hnm Hb. pose proof array_bs_pos.
  pose proof (blocks_mul x Hxm) as Hx'. pose proof (blocks_mul n Hnm) as Hn'.
  destruct (array_read w (x / bs) (n / bs) cap) as (f & Hr & Hf);
    [apply Z.div_pos; lia|nia|nia|].
  rewrite Hx', Hn' in Hr. rewrite Hn' in Hf. by exists f.
Qed.

Lemma write_at w x data :
  0 ≤ x → 0 < zlen data → x mod bs = 0 → zlen data mod bs = 0 → x + zlen data ≤ st_size st →
  ∃ w', store_write st (x / bs) data w = Some (E0, Some (zlen data), w')
    ∧ contents w' = splice x data (contents w).
Proof.
  intros Hx Hn Hxm Hnm Hb. pose proof array_bs_pos.
  pose proof (blocks_mul x Hxm) as Hx'. pose proof (blocks_mul _ Hnm) as Hn'.
  destruct (array_write w (x / bs) (zlen data / bs) data) as (w' & Hr & Hc);
    [apply Z.div_pos; lia|nia|nia|done|].
  rewrite Hx' in Hc. by exists w'.
Qed.

Lemma view_length d w : dev_ok d w → zlen (dev_view d w) = st_size st.
Proof.
  intros Hd. unfold dev_view, dev_buf_is_active. case_bool_decide; [|apply contents_length].
  destruct (do_offs _ _ Hd) as [?|(? & ? & ? & _)]; [lia|].
  rewrite zlen_splice; [apply contents_length|done|]. rewrite contents_length, (do_buf _ _ Hd). done.
Qed.

(** ** The buffer *)
Lemma inactive_view d w : buf_offs d = -1 → dev_view d w = contents w.
Proof. intros Ho. unfold dev_view, dev_buf_is_active. by rewrite Ho. Qed.

Lemma discard_spec v d w :
  represents v d w →
  ∃ d' w', dev_buf_discard d w = Some (E0, d', w') ∧ represents v d' w' ∧ buf_offs d' = -1.
Proof.
  intros [Hd Hv]. pose proof array_bs_pos as Hbs. pose proof (do_buf _ _ Hd) as Hb.
  pose proof (do_store _ _ Hd) as Hst. pose proof (lo_block_size _ _ array_lev) as Hbl.
  unfold dev_buf_discard. unfold dev_view in Hv.
  destruct (do_offs _ _ Hd) as [Ho|(Ho & Hm & Hin & Hc)].
  { exists d, w. unfold dev_buf_is_active. rewrite Ho. split; [done|]. split; [|done].
    split; [done|]. by rewrite inactive_view, <-Hv; unfold dev_buf_is_active; rewrite ?Ho. }
  assert (Ha : dev_buf_is_active d = true) by (by apply bool_decide_true). rewrite Ha in Hv |- *.
  destruct (buf_dirty d) eqn:Hdirty.
  - rewrite Hst, Hbl, mem_read_ok, shiftr_block by lia. cbn [mbind option_bind].
    assert (slice 0 bs (buf d) = buf d) as ->.
    { unfold slice. change (Z.to_nat 0) with 0%nat. rewrite drop_0. apply take_ge. lia. }
    destruct (write_at w (buf_offs d) (buf d)) as (w' & -> & Hw); rewrite ?Hb, ?Z.mod_same by lia; try done; try lia.
    cbn [mbind option_bind]. rewrite decide_True by done. cbn [mbind option_bind].
    rewrite (decide_False (P := bs < bs)) by lia. rewrite decide_False by tauto.
    eexists _, w'. split; [done|]. split; [|done]. split.
    + destruct Hd. split; simpl; auto.
    + by rewrite inactive_view, Hw.
  - eexists _, w. split; [done|]. split; [|done]. split.
    + destruct Hd. split; simpl; auto.
    + rewrite inactive_view, <-Hv, (Hc eq_refl) by done. symmetry. apply splice_slice; rewrite ?contents_length; lia.
Qed.

Lemma fill_spec v d w offs :
  represents v d w → 0 ≤ offs < st_size st →
  ∃ d' w', dev_buf_fill d offs w [] = Some (E0, d', w', [])
    ∧ represents v d' w' ∧ buf_offs d' = offs - offs mod bs.
Proof.
  intros Hr Hoffs. pose proof array_bs_pos as Hbs. destruct (block_start offs Hoffs) as (Hm & H0 & Hin).
  pose proof Hr as [Hd Hv]. pose proof (Z.mod_pos_bound offs bs Hbs).
  pose proof (do_store _ _ Hd) as Hst. pose proof (lo_block_size _ _ array_lev) as Hbl.
  unfold dev_buf_fill. rewrite (do_mask _ _ Hd), Hst, (land_not_block_mask offs), Hbl by lia.
  case_match eqn:Hsame.
  { apply andb_true_iff in Hsame as [Ha Hs]. unfold dev_buf_is_active in Ha.
    apply bool_decide_eq_true in Ha, Hs. exists d, w. do 2 (split; [done|]).
    destruct (do_offs _ _ Hd) as [?|(_ & Hbm & Hb & _)]; [lia|].
    rewrite land_not_block_mask, Hbm in Hs by lia. lia. }
  destruct (discard_spec v d w Hr) as (d' & w' & Hdis & [Hd' Hv'] & Hno).
  assert ((if dev_buf_is_active d then dev_buf_discard d w else Some (E0, d, w)) = Some (E0, d', w')) as ->.
  { destruct (dev_buf_is_active d) eqn:Ha; [done|]. unfold dev_buf_discard in Hdis. by rewrite Ha in Hdis. }
  cbn [mbind option_bind]. rewrite decide_False by tauto. rewrite inactive_view in Hv' by done.
  rewrite shiftr_block. replace (offs / bs) with ((offs - offs mod bs) / bs).
  2:{ pose proof (Z.div_mod offs bs). replace (offs - offs mod bs) with (offs / bs * bs) by lia.
      apply Z.div_mul. lia. }
  destruct (read_at w' (offs - offs mod bs) bs bs) as (fresh & -> & _); try done; try lia.
  { apply Z.mod_same. lia. }
  pose proof (contents_length w') as Hcl. set (x := offs - offs mod bs) in *.
  assert (Hb : (if fresh then Some (slice x bs (contents w'))
                else mem_write 0 (slice x bs (contents w')) (buf d')) = Some (slice x bs (contents w'))).
  { destruct fresh; [done|]. pose proof (do_buf _ _ Hd').
    rewrite mem_write_ok by slice_len. f_equal. apply splice_all. slice_len. }
  rewrite Hb. cbn [mbind option_bind]. rewrite zlen_slice, decide_False by lia.
  eexists _, w'. split; [done|]. split; [|done]. split.
  - destruct Hd'. split; simpl; auto.
    slice_len.
  - unfold dev_view, dev_buf_is_active. simpl. rewrite bool_decide_true by lia.
    rewrite <-Hv'. apply splice_slice; lia.
Qed.

(** ** Transfers

    A transfer of [N] bytes at [offs], for any functions that move a piece from
    or to the buffer and the store.  [Q k v mem] says what has been done when [k]
    bytes were moved, of the bytes [v] of the device and the caller's memory;
    [allowed k n] are the pieces the functions work for. *)
Section transfer.
Local Abbreviation io := (io (W := W)).
Context (buf_rw : Z → Z → Z → io → option (error_t * io)).
Context (raw_rw : Z → Z → Z → Z → io → option (error_t * option Z * io)).
Context (offs N cap : Z) (Q : Z → list Z → list Z → Prop) (allowed : Z → Z → Prop).

Definition moved (k : Z) (x : io) : Prop :=
  ∃ v, represents v (io_dev x) (io_world x) ∧ io_allocs x = [] ∧ Q k v (io_mem x).

Hypothesis Hoffs : 0 ≤ offs.
Hypothesis HN : 0 < N.
Hypothesis Hend : offs + N ≤ st_size st.
Hypothesis Hbuf : ∀ k n boffs x,
  moved k x → 0 ≤ k → 0 < n → 0 ≤ boffs → boffs + n ≤ bs → k + n ≤ N → allowed k n →
  0 ≤ buf_offs (io_dev x) → buf_offs (io_dev x) + boffs = offs + k →
  ∃ x', buf_rw boffs k n x = Some (E0, x') ∧ moved (k + n) x' ∧ 0 ≤ buf_offs (io_dev x').
Hypothesis Hraw : ∀ k n c x,
  moved k x → 0 ≤ k → 0 < n → (offs + k) mod bs = 0 → n mod bs = 0 → k + n ≤ N → allowed k n →
  buf_offs (io_dev x) = -1 → c = 0 ∨ c = cap →
  ∃ x', raw_rw (offs + k) k n c x = Some (E0, Some n, x') ∧ moved (k + n) x'.

(** The length of the piece before the first block boundary, of the whole blocks
    and of the rest. *)
Definition head_len : Z := if decide (offs mod bs = 0) then 0 else Z.min N (bs - offs mod bs).
Definition blocks_len : Z := (N - head_len) - (N - head_len) mod bs.
Definition tail_len : Z := (N - head_len) mod bs.

Hypothesis Hhead : 0 < head_len → allowed 0 head_len.
Hypothesis Hblocks : 0 < blocks_len → allowed head_len blocks_len.
Hypothesis Htail : 0 < tail_len → allowed (head_len + blocks_len) tail_len.

Lemma head_len_bounds : 0 ≤ head_len ≤ N.
Proof.
  unfold head_len. pose proof array_bs_pos. pose proof (Z.mod_pos_bound offs bs). case_decide; lia.
Qed.

(** Where the head ends, unless it is the whole transfer. *)
Lemma head_aligned : head_len < N → (offs + head_len) mod bs = 0.
Proof.
  unfold head_len. pose proof array_bs_pos. intros Hlt. case_decide as Hm; [by rewrite Z.add_0_r|].
  rewrite Z.min_r in Hlt |- * by lia. replace (offs + (bs - offs mod bs)) with ((offs / bs + 1) * bs).
  - apply Z.mod_mul. lia.
  - pose proof (Z.div_mod offs bs). lia.
Qed.

Lemma tail_len_bounds : 0 ≤ tail_len < bs.
Proof. apply Z.mod_pos_bound, array_bs_pos. Qed.

Lemma blocks_len_mod : 0 ≤ blocks_len ∧ blocks_len mod bs = 0 ∧ head_len + blocks_len + tail_len = N
  ∧ (0 < blocks_len ↔ bs ≤ N - head_len).
Proof.
  unfold blocks_len, tail_len. pose proof array_bs_pos. pose proof head_len_bounds.
  pose proof (Z.mod_pos_bound (N - head_len) bs). pose proof (Z.div_mod (N - head_len) bs).
  assert (0 ≤ (N - head_len) / bs) by (apply Z.div_pos; lia).
  replace (N - head_len - (N - head_len) mod bs) with ((N - head_len) / bs * bs) by lia.
  split; [nia|]. split; [apply Z.mod_mul; lia|]. split; [lia|]. split; [|nia].
  intros ?. assert (1 ≤ (N - head_len) / bs) by nia. nia.
Qed.

Lemma moved_size k x : moved k x → dstore (io_dev x) = st ∧ block_mask (io_dev x) = bs - 1.
Proof. intros (v & [Hd _] & _). split; [apply (do_store _ _ Hd)|apply (do_mask _ _ Hd)]. Qed.

Lemma moved_fill k x p :
  moved k x → 0 ≤ p < st_size st →
  ∃ x', fill p x = Some (E0, x') ∧ moved k x' ∧ buf_offs (io_dev x') = p - p mod bs.
Proof.
  intros (v & Hr & Ho & HQ) Hp. destruct (fill_spec v _ _ p Hr Hp) as (d & w & Hf & Hr' & Hb).
  unfold fill. rewrite Ho, Hf. cbn [mbind option_bind]. eexists. split; [done|]. split; [|done].
  exists v. auto.
Qed.

Lemma moved_discard k x :
  moved k x → ∃ x', discard x = Some (E0, x') ∧ moved k x' ∧ buf_offs (io_dev x') = -1.
Proof.
  intros (v & Hr & Ho & HQ). destruct (discard_spec v _ _ Hr) as (d & w & Hf & Hr' & Hb).
  unfold discard. rewrite Hf. cbn [mbind option_bind]. eexists. split; [done|]. split; [|done].
  exists v. auto.
Qed.

Lemma dev_buf_rw_spec k boffs x :
  moved k x → 0 ≤ k < N → 0 ≤ boffs < bs → allowed k (Z.min (N - k) (bs - boffs)) →
  0 ≤ buf_offs (io_dev x) → buf_offs (io_dev x) + boffs = offs + k →
  ∃ x', dev_buf_rw buf_rw boffs k (N - k) x
      = Some (E0, k + Z.min (N - k) (bs - boffs), N - k - Z.min (N - k) (bs - boffs), x')
    ∧ moved (k + Z.min (N - k) (bs - boffs)) x'.
Proof.
  intros Hm Hk Hb Hal Ha Heq. destruct (moved_size k x Hm) as [Hst _].
  pose proof (lo_block_size _ _ array_lev) as Hbl. pose proof (lo_bound _ _ array_lev).
  assert (bs ≤ st_size st) by (apply (block_in 0); [done|lia]).
  unfold dev_buf_rw, dev_buf_is_active. rewrite bool_decide_true, Hst, Hbl, u64_id by lia.
  case_decide as Hc.
  - rewrite Z.min_r in Hal |- * by lia. rewrite u64_id by lia.
    destruct (Hbuf k (bs - boffs) boffs x) as (x' & -> & Hm' & _); try done; try lia.
    cbn [mbind option_bind]. rewrite decide_False by tauto.
    destruct (moved_discard _ _ Hm') as (x2 & Hd & Hm2 & _). unfold discard in Hd.
    apply bind_Some in Hd as ([[e d] w] & -> & [= -> <-]). cbn [mbind option_bind].
    rewrite u64_id by lia. by eexists.
  - rewrite Z.min_l in Hal |- * by lia.
    destruct (Hbuf k (N - k) boffs x) as (x' & -> & Hm' & _); try done; try lia.
    cbn [mbind option_bind]. rewrite decide_False by tauto. exists x'. split; [|done]. by rewrite Z.sub_diag.
Qed.

Lemma rw_head_spec x :
  moved 0 x →
  ∃ x', rw_head buf_rw offs N x = Some (E0, head_len, N - head_len, x') ∧ moved head_len x'.
Proof.
  intros Hm. destruct (moved_size 0 x Hm) as [_ Hmask]. pose proof array_bs_pos as Hbs.
  pose proof (Z.mod_pos_bound offs bs Hbs). unfold rw_head, head_len in *. rewrite Hmask, land_block_mask.
  destruct (decide (offs mod bs = 0)) as [Ho|Ho].
  { rewrite decide_False by tauto. exists x. by rewrite Z.sub_0_r. }
  rewrite decide_True by done. destruct (block_start offs) as (_ & ? & _); [lia|].
  destruct (moved_fill 0 x offs Hm) as (x1 & -> & Hm1 & Hb1); [lia|].
  cbn [mbind option_bind]. rewrite decide_False by tauto.
  destruct (dev_buf_rw_spec 0 (offs mod bs) x1) as (x' & Hrw & Hm'); try done; try lia.
  { rewrite Z.sub_0_r. apply Hhead. lia. }
  rewrite !Z.sub_0_r, Z.add_0_l in Hrw. rewrite !Z.sub_0_r, Z.add_0_l in Hm'. by exists x'.
Qed.

Lemma rw_blocks_spec x :
  moved head_len x → head_len < N →
  ∃ x', rw_blocks raw_rw offs head_len (N - head_len) x = Some (E0, head_len + blocks_len, tail_len, x')
    ∧ moved (head_len + blocks_len) x'.
Proof.
  intros Hm Hlt. destruct (moved_size _ x Hm) as [Hst Hmask]. pose proof head_len_bounds.
  destruct blocks_len_mod as (Hb0 & Hbm & Hsum & Hbiff). pose proof tail_len_bounds.
  assert (bs ≤ st_size st) by (apply (block_in 0); [done|lia]). pose proof array_bs_pos.
  unfold rw_blocks. rewrite Hst, Hmask, (lo_block_size _ _ array_lev), u32_id by lia.
  destruct (decide (bs ≤ N - head_len)) as [Hle|Hgt].
  - destruct (moved_discard _ x Hm) as (x1 & -> & Hm1 & Ha1). cbn [mbind option_bind].
    rewrite decide_False by tauto. rewrite s64_id, land_not_block_mask by lia.
    change (N - head_len - (N - head_len) mod bs) with blocks_len.
    destruct (Hraw head_len blocks_len 0 x1) as (x' & -> & Hm'); try done; try lia; auto.
    { by apply head_aligned. }
    { apply Hblocks. lia. }
    cbn [mbind option_bind]. rewrite decide_False by tauto. rewrite u64_id by lia.
    exists x'. split; [|done]. do 3 f_equal. lia.
  - assert (blocks_len = 0) as Hz by lia. exists x. rewrite Hz, Z.add_0_r. split; [|done].
    do 3 f_equal. lia.
Qed.

Lemma rw_tail_spec x :
  moved (head_len + blocks_len) x → head_len < N →
  ∃ x', rw_tail buf_rw E0 offs (head_len + blocks_len) tail_len x = Some (E0, N, 0, x') ∧ moved N x'.
Proof.
  intros Hm Hlt. destruct (moved_size _ x Hm) as [Hst Hmask]. pose proof head_len_bounds.
  destruct blocks_len_mod as (Hb0 & Hbm & Hsum & Hbiff). pose proof tail_len_bounds.
  assert (bs ≤ st_size st) by (apply (block_in 0); [done|lia]). pose proof array_bs_pos.
  assert (Hmod : (offs + (head_len + blocks_len)) mod bs = 0).
  { rewrite Z.add_assoc, Z.add_mod, head_aligned, Hbm by lia. apply Z.mod_0_l. lia. }
  unfold rw_tail. rewrite Hst, (lo_block_size _ _ array_lev), u32_id by lia.
  destruct (decide (0 < tail_len < bs)) as [Ht|Ht].
  - rewrite s64_id by lia.
    destruct (moved_fill _ x (offs + (head_len + blocks_len)) Hm) as (x1 & -> & Hm1 & Hb1); [lia|].
    cbn [mbind option_bind]. rewrite decide_False by tauto. rewrite Hmod in Hb1.
    replace tail_len with (N - (head_len + blocks_len)) by lia.
    destruct (dev_buf_rw_spec (head_len + blocks_len) 0 x1) as (x' & Hrw & Hm'); try done; try lia.
    { rewrite Z.min_l by lia. replace (N - (head_len + blocks_len)) with tail_len by lia. auto with lia. }
    rewrite Z.min_l in Hrw, Hm' by lia. replace (head_len + blocks_len + _) with N in Hm', Hrw by lia.
    rewrite Z.sub_diag in Hrw. by exists x'.
  - assert (tail_len = 0) as -> by lia. replace (head_len + blocks_len) with N in * by lia. by exists x.
Qed.

Lemma buffered_rw_spec x :
  moved 0 x → ∃ x', buffered_rw buf_rw raw_rw offs N x = Some (E0, Some N, x') ∧ moved N x'.
Proof.
  intros Hm. unfold buffered_rw. destruct (rw_head_spec x Hm) as (x1 & -> & Hm1).
  cbn [mbind option_bind]. pose proof head_len_bounds. destruct (decide (head_len < N)) as [Hlt|Hge].
  - rewrite decide_True by (split; [done|lia]).
    destruct (rw_blocks_spec x1 Hm1 Hlt) as (x2 & -> & Hm2). cbn [mbind option_bind].
    destruct (rw_tail_spec x2 Hm2 Hlt) as (x3 & -> & Hm3). cbn [mbind option_bind].
    rewrite decide_True by done. by exists x3.
  - assert (head_len = N) as Heq by lia. rewrite decide_False by lia. cbn [mbind option_bind].
    rewrite decide_True by done. rewrite Heq in *. by exists x1.
Qed.

(** [len] bytes are asked for, of which the device has [N]. *)
Lemma dev_rw_spec len x :
  N = Z.min len (st_size st - offs) → offs + len < 2 ^ 64 →
  moved 0 x → ∃ x', dev_rw buf_rw raw_rw offs len cap x = Some (E0, Some N, x') ∧ moved N x'.
Proof.
  intros HNeq Hlen Hm. destruct (moved_size _ x Hm) as [Hst Hmask]. pose proof array_bs_pos.
  unfold dev_rw. rewrite Hst, Hmask, decide_False by lia.
  assert ((if decide (u64 (st_size st) < u64 (offs + len)) then u64 (st_size st - offs) else len) = N) as ->.
  { rewrite !u64_id by lia. case_decide; lia. }
  case_match eqn:Hc; [by apply buffered_rw_spec|].
  apply orb_false_iff in Hc as [[Ha Ho]%orb_false_iff Hl]. unfold dev_buf_is_active in Ha.
  apply bool_decide_eq_false in Ha, Ho, Hl. rewrite land_block_mask in Ho, Hl.
  assert (Hh : head_len = 0) by (unfold head_len; by rewrite decide_True by lia).
  assert (Hb : blocks_len = N) by (unfold blocks_len; rewrite Hh, Z.sub_0_r; lia).
  destruct (Hraw 0 N cap x) as (x' & Hr & Hm'); rewrite ?Z.add_0_r; try done; try lia; auto.
  - rewrite Hh, Hb in Hblocks. auto.
  - destruct Hm as (v & [Hd _] & _). destruct (do_offs _ _ Hd) as [?|[? _]]; lia.
  - rewrite Z.add_0_r in Hr. exists x'. split; [done|]. by rewrite Z.add_0_l in Hm'.
Qed.
End transfer.

(** ** Writing *)

(** The buffer with a part replaced. *)
Lemma represents_buf_write v d w boffs src :
  represents v d w → 0 ≤ boffs → boffs + zlen src ≤ bs → 0 ≤ buf_offs d →
  represents (splice (buf_offs d + boffs) src v) (set_buf_dirty true (set_buf (splice boffs src (buf d)) d)) w.
Proof.
  intros [Hd Hv] Hb Hl Ha. pose proof (do_buf _ _ Hd) as Hbuf.
  destruct (do_offs _ _ Hd) as [?|(_ & Hm & Hin & _)]; [lia|]. split.
  - destruct Hd. split; simpl; auto.
    + slice_len.
    + right. split_and!; done.
  - subst v. unfold dev_view, dev_buf_is_active. simpl. rewrite bool_decide_true by done.
    apply splice_nested; rewrite ?contents_length; lia.
Qed.

(** What is represented after a write of the store. *)
Lemma represents_raw v d w w' x src :
  represents v d w → buf_offs d = -1 → contents w' = splice x src (contents w) →
  represents (splice x src v) d w'.
Proof.
  intros [Hd Hv] Ho Hw. split.
  - destruct Hd. split; auto.
  - by rewrite inactive_view, Hw, <-Hv, inactive_view.
Qed.

Definition written (v0 : list Z) (offs : Z) (data : list Z) (k : Z) (v mem : list Z) : Prop :=
  v = splice offs (slice 0 k data) v0.

(** C15. A write to a device is a write to an array of bytes: at every offset in
    the device and for every length that does not overflow, aligned to blocks or not,
    whatever is in the buffer, the call writes everything up to the end of the
    device, reports how much that is, replaces exactly these bytes of the device,
    and leaves the buffer consistent.  The device is smaller than 4 GiB
    ([Hsize]; from there on [dev_write_wrong_block]), it is opened with its buffer
    ([do_cache]: not with --no-cache), its store behaves like an array and memory can be
    allocated. *)
Theorem dev_write_refines v d w offs data :
  represents v d w → 0 ≤ offs < st_size st → data ≠ [] → offs + zlen data < 2 ^ 64 →
  let n := Z.min (zlen data) (st_size st - offs) in
  ∃ d' w', dev_write d offs data w [] = Some (E0, Some n, d', w', [])
    ∧ represents (splice offs (slice 0 n data) v) d' w'.
Proof.
  intros Hr Hoffs Hne Hlen n. pose proof Hr as [Hd Hv].
  assert (0 < zlen data) by (destruct data; simpl; [done|lia]).
  pose proof (view_length d w Hd) as Hvl. rewrite Hv in Hvl.
  unfold dev_write. rewrite (do_cache _ _ Hd).
  destruct (dev_rw_spec (buf_write data) (raw_write data) offs n 0 (written v offs data) (λ _ _, True))
    with (len := zlen data) (x := mk_io d w [] [] false) as (x' & -> & v' & Hr' & Ho' & ->); try done; try lia.
  - intros k m boffs x (v1 & Hr1 & Ho1 & ->) Hk Hm Hb Hbm Hkm _ Ha Heq.
    pose proof (do_buf _ _ (proj1 Hr1)) as Hbuf.
    unfold buf_write. rewrite mem_read_ok by lia. cbn [mbind option_bind].
    rewrite mem_write_ok by slice_len. cbn [mbind option_bind].
    eexists. split; [done|]. split; [|done]. eexists. split; [|split; [done|]].
    + apply represents_buf_write; [done|lia|slice_len|done].
    + simpl. unfold written. rewrite Heq. apply splice_slices; lia.
  - intros k m c x (v1 & Hr1 & Ho1 & ->) Hk Hm Hal Hmm Hkm _ Ha _.
    unfold raw_write. rewrite mem_read_ok by lia. cbn [mbind option_bind].
    rewrite (do_store _ _ (proj1 Hr1)), shiftr_block.
    destruct (write_at (io_world x) (offs + k) (slice k m data)) as (w' & -> & Hw);
      rewrite ?zlen_slice by lia; try done; try lia.
    cbn [mbind option_bind]. eexists. split; [done|]. eexists. split; [|split; [done|]].
    + by eapply represents_raw.
    + simpl. unfold written. apply splice_slices; lia.
  - exists v. split; [done|]. split; [done|]. unfold written. symmetry. apply splice_empty.
  - cbn [mbind option_bind]. rewrite Ho'. by eexists _, _.
Qed.

(** ** Reading *)
Section reading.
Context (v0 : list Z) (offs whole N cap : Z).
Hypothesis Hoffs : 0 ≤ offs.
Hypothesis HN : 0 < N ≤ whole.
Hypothesis Hend : offs + N ≤ zlen v0.

(** The first [k] bytes are in the caller's memory. *)
Definition has_read (k : Z) (v mem : list Z) : Prop :=
  v = v0 ∧ (k = 0 → zlen mem = cap) ∧ (k < N → whole ≤ cap → whole ≤ zlen mem)
  ∧ k ≤ zlen mem ∧ slice 0 k mem = slice offs k v0.

(** In memory that is allocated again for each piece, only one piece is kept. *)
Definition one_piece (k n : Z) : Prop := whole ≤ cap ∨ (k = 0 ∧ n = N).

Lemma ensure_buf_piece (x : io (W := W)) k n :
  io_allocs x = [] → has_read k v0 (io_mem x) → one_piece k n → 0 ≤ k → 0 < n → k + n ≤ N →
  ∃ x' m, ensure_buf cap whole x = (E0, x') ∧ io_dev x' = io_dev x ∧ io_world x' = io_world x
    ∧ io_allocs x' = [] ∧ mem_write k (slice (offs + k) n v0) (io_mem x') = Some m
    ∧ has_read (k + n) v0 m.
Proof.
  intros Ho (_ & Hcap & Hfit & Hk & Hsl) Hone H0 Hn Hkn. unfold ensure_buf.
  destruct (decide (cap < whole)) as [Hlt|Hge].
  - destruct Hone as [?|[-> ->]]; [lia|]. rewrite Ho. simpl. eexists _, _. do 4 (split; [done|]).
    assert (Hl : zlen (replicate (Z.to_nat whole) 0) = whole) by (rewrite length_replicate; lia).
    simpl. rewrite Z.add_0_r, mem_write_ok by (rewrite ?Hl; slice_len). split; [done|].
    unfold has_read. rewrite zlen_splice by (rewrite ?Hl; slice_len). split_and!; try done; try lia.
    rewrite <-(zlen_slice offs N v0) at 1 by lia. apply slice_splice; rewrite ?Hl; slice_len.
  - eexists x, _. do 4 (split; [done|]). specialize (Hfit ltac:(lia) ltac:(lia)).
    rewrite mem_write_ok by slice_len. split; [done|].
    unfold has_read. rewrite zlen_splice by slice_len. split_and!; try done; try lia.
    by apply slice_extend; try lia.
Qed.

Lemma buf_read_spec k n boffs (x : io (W := W)) :
  moved has_read k x → 0 ≤ k → 0 < n → 0 ≤ boffs → boffs + n ≤ bs → k + n ≤ N → one_piece k n →
  0 ≤ buf_offs (io_dev x) → buf_offs (io_dev x) + boffs = offs + k →
  ∃ x', buf_read cap whole boffs k n x = Some (E0, x') ∧ moved has_read (k + n) x'
    ∧ 0 ≤ buf_offs (io_dev x').
Proof.
  intros (v & Hr & Ho & HQ) H0 Hn Hb Hbn Hkn Hone Ha Heq. pose proof HQ as (-> & _).
  destruct (ensure_buf_piece x k n Ho HQ Hone H0 Hn Hkn) as (x' & m & He & Hd & Hw & Ho' & Hm & HQ').
  pose proof Hr as [Hok Hv]. pose proof (do_buf _ _ Hok) as Hbl.
  destruct (do_offs _ _ Hok) as [?|(_ & _ & Hin & _)]; [lia|].
  unfold buf_read. rewrite He, decide_True, Hd, mem_read_ok by (done || lia). cbn [mbind option_bind].
  assert (slice boffs n (buf (io_dev x)) = slice (offs + k) n v0) as ->.
  { rewrite <-Hv, <-Heq. unfold dev_view, dev_buf_is_active. rewrite bool_decide_true by done.
    symmetry. apply slice_nested; rewrite ?contents_length; lia. }
  rewrite Hm. cbn [mbind option_bind]. eexists. split; [done|]. simpl. rewrite Hd. split; [|done].
  exists v0. simpl. by rewrite Hd, Hw.
Qed.

Lemma raw_read_spec k n c (x : io (W := W)) :
  moved has_read k x → 0 ≤ k → 0 < n → (offs + k) mod bs = 0 → n mod bs = 0 → k + n ≤ N →
  one_piece k n → buf_offs (io_dev x) = -1 → c = 0 ∨ c = cap →
  ∃ x', raw_read cap whole (offs + k) k n c x = Some (E0, Some n, x') ∧ moved has_read (k + n) x'.
Proof.
  intros (v & Hr & Ho & HQ) H0 Hn Hal Hnm Hkn Hone Ha Hc. pose proof HQ as (-> & Hcap & _).
  pose proof Hr as [Hok Hv]. rewrite inactive_view in Hv by done.
  pose proof (contents_length (io_world x)) as Hcl. rewrite Hv in Hcl.
  unfold raw_read. rewrite (do_store _ _ Hok), shiftr_block. case_decide as Hnw.
  - assert (k = 0) as -> by lia. assert (n = N) as -> by lia. specialize (Hcap eq_refl).
    destruct (read_at (io_world x) (offs + 0) N c) as (fresh & Hrd & Hf); try done; try lia.
    rewrite Ho, Hrd, Hv, Z.add_0_r.
    assert (∃ m, (if fresh then Some (slice offs N v0)
                  else mem_write 0 (slice offs N v0) (io_mem x)) = Some m
                 ∧ N ≤ zlen m ∧ slice 0 N m = slice offs N v0) as (m & -> & Hml & Hms).
    { destruct fresh.
      - eexists. split; [done|]. split; [slice_len|]. slices.
      - specialize (Hf eq_refl). rewrite mem_write_ok by slice_len. eexists. split; [done|].
        split; [slice_len|]. rewrite <-(zlen_slice offs N v0) at 1 by lia. apply slice_splice; slice_len. }
    cbn [mbind option_bind]. rewrite zlen_slice by lia. eexists. split; [done|].
    exists v0. split; [done|]. split; [done|]. split_and!; simpl; try done; lia.
  - destruct (ensure_buf_piece x k n Ho HQ Hone H0 Hn Hkn) as (x' & m & -> & Hd & Hw & Ho' & Hm & HQ').
    rewrite decide_True, Ho', Hw by done.
    destruct (read_at (io_world x) (offs + k) n n) as (fresh & -> & _); try done; try lia.
    rewrite Hv, Hm. cbn [mbind option_bind]. rewrite zlen_slice by lia. eexists. split; [done|].
    exists v0. simpl. by rewrite Hd, Hw.
Qed.
End reading.

(** C29. A read of a device returns the bytes of the device: at every offset in the
    device and for every length that does not overflow, aligned to blocks or not, what
    was written before included whether it is in the buffer or in the store, up to
    the end of the device, without changing its bytes.  The caller's memory holds the
    whole request, or else the request is one piece: whole blocks, or inside of one
    block.  The device is smaller than 4 GiB and opened with its buffer, as
    for a write, its store behaves like an array and memory can be allocated. *)
Theorem dev_read_refines v d w offs whole mem :
  represents v d w → 0 ≤ offs < st_size st → 0 < whole → offs + whole < 2 ^ 64 →
  let n := Z.min whole (st_size st - offs) in
  whole ≤ zlen mem ∨ (offs mod bs = 0 ∧ n mod bs = 0) ∨ offs mod bs + n ≤ bs →
  ∃ mem' d' w', dev_read d offs whole mem w [] = Some (E0, Some n, mem', d', w', [])
    ∧ slice 0 n mem' = slice offs n v ∧ represents v d' w'.
Proof.
  intros Hr Hoffs Hwh Hlen n Hpiece. pose proof Hr as [Hd Hv]. pose proof array_bs_pos as Hbs.
  pose proof (view_length d w Hd) as Hvl. rewrite Hv in Hvl.
  pose proof (Z.mod_pos_bound offs bs Hbs) as Hob. assert (Hn : 0 < n) by lia.
  pose proof (Z.mod_pos_bound n bs Hbs). pose proof (Z.mod_le n bs).
  assert (Hsingle : ¬ whole ≤ zlen mem → offs mod bs = 0 ∧ (n mod bs = 0 ∨ n mod bs = n)
                    ∨ offs mod bs ≠ 0 ∧ offs mod bs + n ≤ bs).
  { intros ?. destruct Hpiece as [?|[[? ?]|Hin]]; [lia|by left; auto|].
    destruct (decide (offs mod bs = 0)); [left; split; [done|]|by right].
    destruct (decide (n = bs)) as [->|]; [left; apply Z.mod_same; lia|right; apply Z.mod_small; lia]. }
  unfold dev_read. rewrite (do_store _ _ Hd), (do_cache _ _ Hd), decide_False by lia.
  destruct (dev_rw_spec (buf_read (zlen mem) whole) (raw_read (zlen mem) whole) offs n (zlen mem)
    (has_read v offs whole n (zlen mem)) (one_piece whole n (zlen mem)))
    with (len := whole) (x := mk_io d w [] mem false)
    as (x' & -> & v' & Hr' & Ho' & (-> & _ & _ & _ & Hs)); try done; try lia.
  - intros. apply buf_read_spec; try done; lia.
  - intros. apply raw_read_spec; try done; lia.
  - unfold one_piece, head_len. destruct (decide (whole ≤ zlen mem)); [auto|].
    destruct (Hsingle ltac:(done)) as [[? _]|[? ?]]; case_decide; lia.
  - unfold one_piece, blocks_len, head_len. destruct (decide (whole ≤ zlen mem)); [auto|].
    destruct (Hsingle ltac:(done)) as [[? [?|?]]|[? ?]]; case_decide; rewrite ?Z.sub_0_r; try lia.
    rewrite Z.min_l, Z.sub_diag, Z.mod_0_l by lia. lia.
  - unfold one_piece, tail_len, blocks_len, head_len. destruct (decide (whole ≤ zlen mem)); [auto|].
    destruct (Hsingle ltac:(done)) as [[? [?|?]]|[? ?]]; case_decide; rewrite ?Z.sub_0_r; try lia.
    rewrite Z.min_l, Z.sub_diag, Z.mod_0_l by lia. lia.
  - exists v. split; [done|]. split; [done|]. split_and!; simpl; try done; lia.
  - cbn [mbind option_bind]. rewrite decide_False by tauto. rewrite Ho'. by eexists _, _, _.
Qed.

(** ** Flushing, opening and the bounds *)

(** Flushing a device moves its bytes to the store and changes none of them. *)
Theorem dev_sync_flushes v d w :
  represents v d w →
  ∃ d' w', dev_sync d w = Some (E0, d', w') ∧ represents v d' w' ∧ contents w' = v.
Proof.
  intros Hr. unfold dev_sync. rewrite (do_cache _ _ (proj1 Hr)).
  destruct (discard_spec v d w Hr) as (d' & w' & -> & Hr' & Ho). exists d', w'.
  split; [done|]. split; [done|]. destruct Hr' as [_ <-]. by rewrite inactive_view.
Qed.

(** A device that was opened has the bytes of its store, also when the last flush
    before it was closed failed. *)
Lemma dev_open_represents w st0 inactivate c :
  c_inhibit_cache c = false → inactivate st0 = st → bs < 2 ^ 31 →
  ∃ d, dev_open (inr st0) inactivate c [] = Some (inr d, []) ∧ represents (contents w) d w.
Proof.
  intros Hc Hi Hb. pose proof array_bs_pos as Hbs. pose proof (lo_block_size _ _ array_lev) as Hbl.
  pose proof (lo_log2 _ _ array_lev) as Hl0. pose proof (lo_pow bs st array_lev) as Hp.
  assert (Hl : st_log2_block_size st < 31) by (apply (Z.pow_lt_mono_r_iff 2); lia).
  unfold dev_open. rewrite Hi, Hbl, decide_False by lia. simpl.
  rewrite Hc, decide_True by lia.
  eexists. split; [done|]. split; [|done]. split; simpl; auto.
  - rewrite Z.shiftl_1_l, <-Hp. apply u32_id. lia.
  - rewrite length_replicate. lia.
Qed.

(** Offsets outside of the device: nothing is read at its end, and before the
    start or past the end every transfer is refused. *)
Lemma dev_bounds v d w offs whole mem data o :
  represents v d w → 0 < st_size st →
  (offs = st_size st → dev_read d offs whole mem w o = Some (E0, Some 0, mem, d, w, o))
  ∧ (offs < 0 ∨ st_size st < offs →
       dev_read d offs whole mem w o = Some (EINVAL, None, mem, d, w, o)
       ∧ dev_write d offs data w o = Some (EINVAL, None, d, w, o)).
Proof.
  intros [Hd _] Hs. unfold dev_read, dev_write. rewrite (do_store _ _ Hd), (do_cache _ _ Hd). split.
  - intros ->. by rewrite decide_True.
  - intros Ho. rewrite decide_False by lia. unfold dev_rw. cbn [io_dev].
    rewrite (do_store _ _ Hd), !(decide_True (P := offs < 0 ∨ st_size st < offs)) by done. split; [|done].
    cbn [mbind option_bind io_allocated]. by rewrite decide_False by (intros [_ ?]; done).
Qed.
End refine.

(** ** Trees of stores implement the interface *)
Section tree_array.
Context {W : Type} {HM : Media W} (bs : Z) {HMO : MediaOk bs W} (st : store) (ts : list target).
Hypothesis Hok : tree_ok bs st.
Hypothesis Hwr : tree_writable st.
Hypothesis Hmap : tree_map st = Some <$> ts.
Hypothesis Hnd : NoDup ts.
Hypothesis Hnz : TZero ∉ ts.

Definition tree_contents (w : W) : list Z := mjoin (target_block bs w <$> ts).

Lemma tree_level : level_ok bs st.
Proof. by apply tree_ok_inv in Hok as (? & _). Qed.

Lemma tree_targets_ok : Forall (target_ok bs) ts.
Proof.
  apply Forall_forall. intros t Ht. apply (tree_map_ok bs st); [done|].
  rewrite Hmap. by apply list_elem_of_fmap_2.
Qed.

Lemma blocks_length w l : Forall (target_ok bs) l → zlen (mjoin (target_block bs w <$> l)) = zlen l * bs.
Proof.
  pose proof (bs_pos bs st tree_level). induction 1 as [|t l Ht _ IH]; [done|].
  change (zlen (target_block bs w t ++ mjoin (target_block bs w <$> l)) = zlen (t :: l) * bs).
  rewrite length_app, Nat2Z.inj_add, IH, target_block_length by (done || lia). simpl length. lia.
Qed.

Lemma tree_size : st_size st = zlen ts * bs.
Proof.
  rewrite (lo_size _ _ tree_level), (lo_end _ _ tree_level), (lo_wrap _ _ tree_level). f_equal.
  rewrite <-(length_runs_map 0) by apply (lo_runs _ _ tree_level).
  rewrite <-(length_fmap Some ts), <-Hmap, tree_map_eq. by rewrite length_fmap.
Qed.

(** The blocks of a range and those around it. *)
Lemma tree_range a m :
  0 ≤ a → 0 < m → (a + m) * bs ≤ st_size st →
  ∃ l1 l2 l3, ts = l1 ++ l2 ++ l3 ∧ zlen l1 = a ∧ zlen l2 = m
    ∧ Some <$> l2 `prefix_of` drop (Z.to_nat a) (tree_map st).
Proof.
  intros Ha Hm Hb. rewrite tree_size in Hb. pose proof (bs_pos bs st tree_level).
  exists (take (Z.to_nat a) ts), (take (Z.to_nat m) (drop (Z.to_nat a) ts)), (drop (Z.to_nat m) (drop (Z.to_nat a) ts)).
  rewrite !take_drop, !length_take, length_drop. split; [done|]. split; [nia|]. split; [nia|].
  rewrite Hmap, <-fmap_drop. exists (Some <$> drop (Z.to_nat m) (drop (Z.to_nat a) ts)).
  by rewrite <-fmap_app, take_drop.
Qed.

Lemma contents_split w l1 l2 l3 :
  ts = l1 ++ l2 ++ l3 →
  tree_contents w = mjoin (target_block bs w <$> l1) ++ mjoin (target_block bs w <$> l2)
    ++ mjoin (target_block bs w <$> l3)
  ∧ zlen (mjoin (target_block bs w <$> l1)) = zlen l1 * bs
  ∧ zlen (mjoin (target_block bs w <$> l2)) = zlen l2 * bs.
Proof.
  intros Heq. pose proof tree_targets_ok as Ht. unfold tree_contents. rewrite Heq in Ht |- *.
  rewrite !fmap_app, !join_app. apply Forall_app in Ht as [H1 [H2 _]%Forall_app].
  rewrite !blocks_length by done. done.
Qed.

(** Blocks that are not written keep their contents. *)
Lemma unwritten w w' (l l2 : list target) ds :
  wrote_targets bs w (zip l2 ds) w' → (∀ t, t ∈ l → (t ∉ l2) ∧ (t ≠ TZero)) →
  target_block bs w' <$> l = target_block bs w <$> l.
Proof.
  intros Hw Hl. apply list_fmap_ext. intros i t Ht%list_elem_of_lookup_2.
  destruct (Hl t Ht) as [Hnin Ht0]. destruct t as [|p b]; [done|]. simpl. rewrite Hw.
  assert (last_write (zip l2 ds) (TBlock p b) = None) as ->; [|done].
  clear -Hnin. revert ds. induction l2 as [|t l2 IH]; intros [|d ds]; simpl; try done.
  apply not_elem_of_cons in Hnin as [? ?]. rewrite IH by done. by rewrite decide_False.
Qed.

Definition tree_array : ArrayStore bs st W.
Proof.
  refine {| contents := tree_contents; array_level := tree_level |}.
  - intros w. rewrite tree_size. apply blocks_length, tree_targets_ok.
  - intros w a m cap Ha Hm Hb. destruct (tree_range a m Ha Hm Hb) as (l1 & l2 & l3 & Heq & H1 & H2 & Hp).
    destruct (contents_split w l1 l2 l3 Heq) as (-> & Hl1 & Hl2).
    pose proof (tree_read bs w st Hok a l2 cap Ha) as Hr. rewrite H2 in Hr.
    unfold slice. rewrite drop_app_length', take_app_length' by lia.
    apply Hr; [|done]. intros ->. simpl in H2. lia.
  - intros w a m data Ha Hm Hb Hl. destruct (tree_range a m Ha Hm Hb) as (l1 & l2 & l3 & Heq & H1 & H2 & Hp).
    destruct (tree_write bs st Hok Hwr a l2 data w Ha) as (w' & Hr & Hw); [|by rewrite H2|done|].
    { intros ->. simpl in H2. lia. }
    exists w'. split; [done|]. pose proof (bs_pos bs st tree_level).
    destruct (contents_split w l1 l2 l3 Heq) as (-> & Hl1 & Hl2).
    destruct (contents_split w' l1 l2 l3 Heq) as (-> & _ & _).
    rewrite Heq in Hnd, Hnz. apply NoDup_app in Hnd as (_ & Hd1 & (Hnd2 & Hd2 & _)%NoDup_app).
    rewrite (unwritten w w' l1 l2 _ Hw), (unwritten w w' l3 l2 _ Hw) by set_solver.
    rewrite (wrote_read bs l2 _ w w' Hnd2 ltac:(set_solver) ltac:(by rewrite length_chunks) Hw).
    rewrite concat_chunks by lia. unfold splice. rewrite take_app_length' by lia. do 2 f_equal.
    rewrite app_assoc, drop_app_length'; [done|]. rewrite length_app. lia.
Defined.
End tree_array.

(** ** A device on a tree of stores *)
Definition remapped_array : ArrayStore 2 remapped disk.
Proof.
  refine (tree_array 2 remapped four_blocks (proj1 remapped_ok) (proj2 remapped_ok) _ _ _).
  - by vm_compute.
  - by apply (bool_decide_eq_true_1 _).
  - by apply (bool_decide_eq_true_1 _).
Defined.
#[local] Existing Instance remapped_array.

(** The device as [dev_open] leaves it, and with a byte written to its buffer. *)
Definition opened : dev := mk_dev remapped false 1 [0; 0] (-1) false.
Definition buffered : dev := mk_dev remapped false 1 [13; 99] 2 true.

Lemma opened_represents : represents 2 remapped (contents numbered_disk) opened numbered_disk.
Proof. split; [|done]. split; try done. by left. Qed.

Lemma buffered_represents :
  represents 2 remapped (splice 2 [13; 99] (contents numbered_disk)) buffered numbered_disk.
Proof. split; [|done]. split; try done. right. by vm_compute. Qed.

Lemma dev_write_refines_witness :
  ∃ d' w', dev_write buffered 1 [1; 2; 3; 4; 5; 6] numbered_disk [] = Some (E0, Some 6, d', w', [])
    ∧ represents 2 remapped
        (splice 1 (slice 0 6 [1; 2; 3; 4; 5; 6]) (splice 2 [13; 99] (contents numbered_disk))) d' w'.
Proof.
  apply (dev_write_refines 2 remapped eq_refl _ buffered numbered_disk 1 [1; 2; 3; 4; 5; 6]).
  - apply buffered_represents.
  - split; [done|by vm_compute].
  - done.
  - done.
Defined.

Lemma dev_read_refines_witness :
  ∃ mem' d' w', dev_read buffered 1 6 [0; 0; 0; 0; 0; 0] numbered_disk [] = Some (E0, Some 6, mem', d', w', [])
    ∧ slice 0 6 mem' = slice 1 6 (splice 2 [13; 99] (contents numbered_disk))
    ∧ represents 2 remapped (splice 2 [13; 99] (contents numbered_disk)) d' w'.
Proof.
  apply (dev_read_refines 2 remapped eq_refl _ buffered numbered_disk 1 6 [0; 0; 0; 0; 0; 0]).
  - apply buffered_represents.
  - split; [done|by vm_compute].
  - done.
  - done.
  - by left.
Defined.

Lemma dev_sync_flushes_witness :
  ∃ d' w', dev_sync buffered numbered_disk = Some (E0, d', w')
    ∧ represents 2 remapped (splice 2 [13; 99] (contents numbered_disk)) d' w'
    ∧ contents w' = splice 2 [13; 99] (contents numbered_disk).
Proof. apply (dev_sync_flushes 2 remapped). apply buffered_represents. Defined.

(** ** What the code gets wrong *)

Definition read_result {W} (r : option (error_t * option Z * list Z * dev * W * allocs))
    : option (error_t * option Z * list Z) :=
  match r with
  | Some (err, n, mem, _, _, _) => Some (err, n, mem)
  | None => None
  end.

(** A read of two pieces into memory that does not hold the request: the first
    piece is lost, since the second call of [ensure_buf] allocates again. *)
Example dev_read_loses_piece :
  read_result (dev_read opened 1 3 [0; 0; 0] numbered_disk []) = Some (E0, Some 3, [0; 13; 0])
  ∧ read_result (dev_read buffered 3 3 [] numbered_disk []) = Some (E0, Some 3, [0; 14; 0])
  ∧ slice 3 3 (splice 2 [13; 99] (contents numbered_disk)) = [99; 14; 0].
Proof. by vm_compute. Qed.

(** Without a cache the offset is multiplied by the block size where it should be
    divided: the block at byte 2 is block 1, the code reads block 4. *)
Example dev_no_cache_wrong_block :
  let d := mk_dev (part 1 0 8) true 1 [0; 0] (-1) false in
  read_result (dev_read d 2 2 [] numbered_disk []) = Some (E0, Some 2, [14; 0])
  ∧ read_result (dev_read (mk_dev (part 1 0 8) false 1 [0; 0] (-1) false) 2 2 [] numbered_disk [])
    = Some (E0, Some 2, [11; 0]).
Proof. by vm_compute. Qed.

(** A store of more than 4 GiB: its blocks from 2^31 on are those from 4 of a disk,
    its first blocks the first of the disk. *)
Definition large : store :=
  with_children [part 1 0 8]
    (created (_store_create (H := page_4096) STORAGE_REMAP 0 0 2
       [StoreRun 0 4; StoreRun (-1) (2 ^ 31 - 4); StoreRun 4 4] 0 [])).

(** The complement of the 32-bit mask cuts the offset of the buffer: a byte
    written at 2^32 + 1 replaces block 0 of the store by the block it is in, which
    keeps its old contents. *)
Example dev_write_wrong_block :
  ('(err, n, _, w, _) ← dev_write (mk_dev large false 1 [0; 0] (-1) false) (2 ^ 32 + 1) [77] numbered_disk [];
   Some (err, n, w 1 0, w 1 4)) = Some (E0, Some 1, [14; 77], [14; 0])
  ∧ numbered_disk 1 0 = [10; 0].
Proof. by vm_compute. Qed.

(** A device whose last flush failed is still dirty when it is opened again: a
    read of a part of a block writes the block back, and on a store that is
    read-only the read fails. *)
Example dev_reopen_dirty :
  let ro := with_flags STORE_READONLY (part 1 0 8) in
  (c ← fst <$> dev_close (mk_dev ro false 1 [7; 7] 0 true) numbered_disk;
   r ← dev_open (inr ro) id c [];
   match r with
   | (inr d, _) => '(err, _, _, _, _, _) ← dev_read d 1 1 [0] numbered_disk []; Some (buf_dirty d, err)
   | _ => None
   end) = Some (true, EROFS).
Proof. by vm_compute. Qed.
