(* ===== verification/Refcount.v ===== *)
(** * Reference counts (src/libshouldbeinlibc/refcount.h)

    The counts of hard and weak references of an object share one 64-bit word,
    the hard count in its low half, so that one atomic addition changes both.
    An operation is the atomic update and the assertions on its result; [None]
    is a failed assertion.  The theorems show that the additions on the word are
    the operations on the pair, with every overflow and underflow caught, and
    that the holders of references, whatever the order of their operations, can
    rely on the counts. *)

From S2P Require Import Prelude.

(** ** Simple reference counts *)
Definition UINT_MAX : Z := 2 ^ 32 - 1.

Definition refcount_init (references : Z) : option Z :=
  if decide (0 < references) then Some references else None.

(** The new count, which is also the result. *)
Definition refcount_unsafe_ref (ref : Z) : option Z :=
  let r := u32 (ref + 1) in
  if decide (r ≠ UINT_MAX) then Some r else None.

Definition refcount_ref (ref : Z) : option Z :=
  r ← refcount_unsafe_ref ref;
  if decide (r ≠ 1) then Some r else None.

Definition refcount_deref (ref : Z) : option Z :=
  let r := u32 (ref - 1) in
  if decide (r ≠ UINT_MAX) then Some r else None.

Definition refcount_references (ref : Z) : Z := ref.

(** ** Hard and weak reference counts *)
Record references := REFCOUNT_REFERENCES { hard : Z; weak : Z }.

#[export] Instance references_eq_dec : EqDecision references.
Proof. solve_decision. Defined.

Definition UINT32_MAX : Z := 2 ^ 32 - 1.

(** The union [_references], little endian. *)
Definition to_value (r : references) : Z := hard r + Z.shiftl (weak r) 32.
Definition of_value (v : Z) : references :=
  REFCOUNT_REFERENCES (Z.land v UINT32_MAX) (Z.shiftr v 32).

Definition refcounts_init (h w : Z) : option Z :=
  if decide (h ≠ 0 ∨ w ≠ 0) then Some (to_value (REFCOUNT_REFERENCES h w)) else None.

(** The new word and [*result]. *)
Definition refcounts_unsafe_ref (v : Z) : option (Z * references) :=
  let v := u64 (v + to_value (REFCOUNT_REFERENCES 1 0)) in
  let r := of_value v in
  if decide (hard r ≠ UINT32_MAX) then Some (v, r) else None.

Definition refcounts_ref (v : Z) : option (Z * references) :=
  '(v, r) ← refcounts_unsafe_ref v;
  if decide (¬ (hard r = 1 ∧ weak r = 0)) then Some (v, r) else None.

Definition refcounts_deref (v : Z) : option (Z * references) :=
  let v := u64 (v - to_value (REFCOUNT_REFERENCES 1 0)) in
  let r := of_value v in
  if decide (hard r ≠ UINT32_MAX) then Some (v, r) else None.

(** [~0U] *)
Definition not0 : Z := 2 ^ 32 - 1.

Definition refcounts_promote (v : Z) : option (Z * references) :=
  let v := u64 (v + to_value (REFCOUNT_REFERENCES 1 not0)) in
  let r := of_value v in
  if decide (hard r ≠ UINT32_MAX) then
    if decide (weak r ≠ UINT32_MAX) then Some (v, r) else None
  else None.

Definition refcounts_demote (v : Z) : option (Z * references) :=
  let v := u64 (v + to_value (REFCOUNT_REFERENCES not0 0)) in
  let r := of_value v in
  if decide (hard r ≠ UINT32_MAX) then
    if decide (weak r ≠ UINT32_MAX) then Some (v, r) else None
  else None.

Definition refcounts_unsafe_ref_weak (v : Z) : option (Z * references) :=
  let v := u64 (v + to_value (REFCOUNT_REFERENCES 0 1)) in
  let r := of_value v in
  if decide (weak r ≠ UINT32_MAX) then Some (v, r) else None.

Definition refcounts_ref_weak (v : Z) : option (Z * references) :=
  '(v, r) ← refcounts_unsafe_ref_weak v;
  if decide (¬ (hard r = 0 ∧ weak r = 1)) then Some (v, r) else None.

Definition refcounts_deref_weak (v : Z) : option (Z * references) :=
  let v := u64 (v - to_value (REFCOUNT_REFERENCES 0 1)) in
  let r := of_value v in
  if decide (weak r ≠ UINT32_MAX) then Some (v, r) else None.

Definition refcounts_references (v : Z) : references := of_value v.
Definition refcounts_hard_references (v : Z) : Z := hard (refcounts_references v).
Definition refcounts_weak_references (v : Z) : Z := weak (refcounts_references v).

(** ** The operations on pairs *)
Inductive refop := Ref | Deref | Promote | Demote | RefWeak | DerefWeak | UnsafeRef | UnsafeRefWeak.

Definition run_op (op : refop) : Z → option (Z * references) :=
  match op with
  | Ref => refcounts_ref
  | Deref => refcounts_deref
  | Promote => refcounts_promote
  | Demote => refcounts_demote
  | RefWeak => refcounts_ref_weak
  | DerefWeak => refcounts_deref_weak
  | UnsafeRef => refcounts_unsafe_ref
  | UnsafeRefWeak => refcounts_unsafe_ref_weak
  end.

(** By how much an operation changes the hard and the weak count. *)
Definition delta (op : refop) : Z * Z :=
  match op with
  | Ref | UnsafeRef => (1, 0)
  | Deref => (-1, 0)
  | Promote => (1, -1)
  | Demote => (-1, 1)
  | RefWeak | UnsafeRefWeak => (0, 1)
  | DerefWeak => (0, -1)
  end.

(** A first reference is not to be had from [ref]: the object was freed. *)
Definition resurrects (op : refop) (r : references) : bool :=
  match op with
  | Ref | RefWeak => bool_decide (hard r = 0 ∧ weak r = 0)
  | _ => false
  end.

(** A count that can be stored and is not the overflow mark. *)
Definition count_ok (c : Z) : Prop := 0 ≤ c < UINT32_MAX.
#[export] Instance count_ok_dec c : Decision (count_ok c).
Proof. unfold count_ok. apply _. Defined.

Definition spec_op (op : refop) (r : references) : option references :=
  let '(dh, dw) := delta op in
  if decide (count_ok (hard r + dh) ∧ count_ok (weak r + dw) ∧ resurrects op r = false)
  then Some (REFCOUNT_REFERENCES (hard r + dh) (weak r + dw)) else None.

(** ** The word and the pair *)
Lemma of_to_value h w v :
  0 ≤ h < 2 ^ 32 → v = h + w * 2 ^ 32 → of_value v = REFCOUNT_REFERENCES h w.
Proof.
  intros Hh ->. unfold of_value, UINT32_MAX. rewrite land_mask by lia. f_equal.
  - rewrite Z.mod_add by lia. by apply Z.mod_small.
  - rewrite Z.shiftr_div_pow2 by lia. rewrite Z.div_add by lia.
    rewrite Z.div_small; lia.
Qed.

Lemma to_value_eq h w : to_value (REFCOUNT_REFERENCES h w) = h + w * 2 ^ 32.
Proof. unfold to_value. simpl. by rewrite Z.shiftl_mul_pow2 by lia. Qed.

(** The word after an addition, as a pair; the halves wrap on their own. *)
Lemma wrapped_value x h w :
  0 ≤ h < 2 ^ 32 → 0 ≤ w < 2 ^ 32 → (∃ k, x = h + w * 2 ^ 32 + k * 2 ^ 64) →
  u64 x = to_value (REFCOUNT_REFERENCES h w) ∧ of_value (u64 x) = REFCOUNT_REFERENCES h w.
Proof.
  intros Hh Hw [k ->]. assert (u64 (h + w * 2 ^ 32 + k * 2 ^ 64) = h + w * 2 ^ 32) as ->.
  { unfold u64. rewrite Z.mod_add by lia. apply Z.mod_small. lia. }
  split; [by rewrite to_value_eq|]. by apply of_to_value.
Qed.

Ltac solve_word h w k :=
  match goal with |- context [u64 ?x] =>
    let E1 := fresh in let E2 := fresh in
    destruct (wrapped_value x h w) as [E1 E2];
      [unfold UINT32_MAX, not0 in *; lia..
      |exists k; rewrite ?to_value_eq; unfold not0; lia
      |rewrite ?E2, ?E1; clear E1 E2]
  end.

(** Each operation is the operation on the pair, and its assertions catch
    exactly the results that are no counts. *)
Ltac by_counts :=
  unfold spec_op, count_ok, UINT32_MAX, resurrects in *; simpl;
  repeat first [case_bool_decide | case_decide; simpl];
  first [done | exfalso; lia | simpl; repeat f_equal; lia].

Lemma run_op_spec op r :
  count_ok (hard r) → count_ok (weak r) →
  run_op op (to_value r) = (λ r', (to_value r', r')) <$> spec_op op r.
Proof.
  destruct r as [h w]. unfold count_ok, UINT32_MAX. simpl. intros Hh Hw.
  destruct op; simpl.
  - unfold refcounts_ref, refcounts_unsafe_ref. solve_word (h + 1) w 0. by_counts.
  - unfold refcounts_deref. destruct (decide (h = 0)) as [->|?].
    + destruct (decide (w = 0)) as [->|?].
      * solve_word (2 ^ 32 - 1) (2 ^ 32 - 1) (-1). by_counts.
      * solve_word (2 ^ 32 - 1) (w - 1) 0. by_counts.
    + solve_word (h - 1) w 0. by_counts.
  - unfold refcounts_promote. destruct (decide (w = 0)) as [->|?].
    + solve_word (h + 1) (2 ^ 32 - 1) 0. by_counts.
    + solve_word (h + 1) (w - 1) 1. by_counts.
  - unfold refcounts_demote. destruct (decide (h = 0)) as [->|?].
    + solve_word (2 ^ 32 - 1) w 0. by_counts.
    + solve_word (h - 1) (w + 1) 0. by_counts.
  - unfold refcounts_ref_weak, refcounts_unsafe_ref_weak. solve_word h (w + 1) 0. by_counts.
  - unfold refcounts_deref_weak. destruct (decide (w = 0)) as [->|?].
    + solve_word h (2 ^ 32 - 1) (-1). by_counts.
    + solve_word h (w - 1) 0. by_counts.
  - unfold refcounts_unsafe_ref. solve_word (h + 1) w 0. by_counts.
  - unfold refcounts_unsafe_ref_weak. solve_word h (w + 1) 0. by_counts.
Qed.

(** ** Holders

    An object with its references: the word, and how many hard and weak
    references are held.  Who holds a reference may clone it, give it up, or
    turn it into one of the other kind; a holder of either kind may take a
    reference of the other kind.  The operations are atomic, so a run of any
    number of threads is a sequence of steps. *)
Record object := Object { word : Z; held : references }.

(** What an operation needs to hold. *)
Definition entitled (op : refop) (r : references) : Prop :=
  match op with
  | Deref | Demote => 0 < hard r
  | Promote | DerefWeak => 0 < weak r
  | _ => 0 < hard r + weak r
  end.

Definition holds_after (op : refop) (r : references) : references :=
  REFCOUNT_REFERENCES (hard r + (delta op).1) (weak r + (delta op).2).

Inductive object_step : object → object → Prop :=
| op_step op ob v r :
    entitled op (held ob) → run_op op (word ob) = Some (v, r) →
    object_step ob (Object v (holds_after op (held ob))).

Inductive object_reachable : object → Prop :=
| object_init h w v :
    count_ok h → count_ok w → refcounts_init h w = Some v →
    object_reachable (Object v (REFCOUNT_REFERENCES h w))
| object_next ob ob' : object_reachable ob → object_step ob ob' → object_reachable ob'.

Definition exact (ob : object) : Prop :=
  word ob = to_value (held ob) ∧ count_ok (hard (held ob)) ∧ count_ok (weak (held ob)).

Lemma spec_op_Some op r r' :
  spec_op op r = Some r' → r' = holds_after op r ∧ count_ok (hard r') ∧ count_ok (weak r').
Proof.
  unfold spec_op, holds_after. destruct (delta op) as [dh dw]. simpl.
  case_decide as H; [|done]. intros [= <-]. simpl. naive_solver.
Qed.

Lemma exact_op op ob v r :
  exact ob → run_op op (word ob) = Some (v, r) →
  r = holds_after op (held ob) ∧ exact (Object v r).
Proof.
  intros (Hw & Hh & Hwk) Hr. rewrite Hw, run_op_spec in Hr by done.
  apply fmap_Some in Hr as (r' & Hs%spec_op_Some & [= -> ->]).
  destruct Hs as (-> & ? & ?). done.
Qed.

Lemma reachable_exact ob : object_reachable ob → exact ob.
Proof.
  induction 1 as [h w v Hh Hw Hi|ob ob' _ IH Hstep].
  - unfold refcounts_init in Hi. case_decide; [|done]. by injection Hi as <-.
  - destruct Hstep as [op ob v r _ Hr]. destruct (exact_op op ob v r IH Hr) as [-> Hex]. done.
Qed.

(** An operation that is entitled to and does not overflow succeeds. *)
Lemma entitled_succeeds op r :
  count_ok (hard r) → count_ok (weak r) → entitled op r →
  hard r + weak r + 1 < UINT32_MAX → spec_op op r = Some (holds_after op r).
Proof.
  intros Hh Hw He Hb. unfold spec_op, holds_after.
  destruct (delta op) as [dh dw] eqn:Hd. simpl. rewrite decide_True; [done|].
  unfold count_ok in *. split_and!; destruct op; simpl in *; simplify_eq; try lia;
    try done; apply bool_decide_false; lia.
Qed.

(** C32. The additions on the 64-bit word are the operations on the two counts:
    from counts below the overflow mark every operation gives the word of the
    new counts and reports them, carries and borrows between the halves
    included, and its assertions fail exactly when a count would leave its
    range or, for the checked operations, when the object had no reference. *)
Theorem refcounts_equivalent op h w :
  count_ok h → count_ok w →
  run_op op (to_value (REFCOUNT_REFERENCES h w)) =
    (λ r, (to_value r, r)) <$> spec_op op (REFCOUNT_REFERENCES h w).
Proof. intros. by apply run_op_spec. Qed.

(** In every run of the holders of an object's references, the counts are
    the numbers of references held; as long as there is room for one more, an
    operation its caller is entitled to passes its assertions, and it reports
    that no reference is left exactly when the last one was given up. *)
Theorem refcounts_holders_exact ob op :
  object_reachable ob → entitled op (held ob) →
  hard (held ob) + weak (held ob) + 1 < UINT32_MAX →
  refcounts_references (word ob) = held ob
  ∧ run_op op (word ob) =
      Some (to_value (holds_after op (held ob)), holds_after op (held ob))
  ∧ (holds_after op (held ob) = REFCOUNT_REFERENCES 0 0 ↔
     (op = Deref ∧ held ob = REFCOUNT_REFERENCES 1 0)
     ∨ (op = DerefWeak ∧ held ob = REFCOUNT_REFERENCES 0 1)).
Proof.
  intros Hr He Hb. destruct (reachable_exact _ Hr) as (Hw & Hh & Hk). split_and!.
  - rewrite Hw. unfold refcounts_references. destruct (held ob) as [h w]. rewrite to_value_eq.
    apply of_to_value; [|done]. unfold count_ok, UINT32_MAX in Hh. simpl in Hh. lia.
  - by rewrite Hw, run_op_spec, entitled_succeeds.
  - destruct (held ob) as [h w]. unfold holds_after, count_ok in *. simpl in *. split.
    + intros [= H1 H2]. destruct op; simpl in *; try lia; [left|right]; (split; [done|f_equal; lia]).
    + intros [[-> [= -> ->]]|[-> [= -> ->]]]; done.
Qed.

(** The hypotheses hold at a shared object. *)
Lemma refcounts_equivalent_witness :
  count_ok 1 ∧ count_ok 2
  ∧ run_op Demote (to_value (REFCOUNT_REFERENCES 1 2))
    = Some (to_value (REFCOUNT_REFERENCES 0 3), REFCOUNT_REFERENCES 0 3).
Proof.
  split; [done|]. split; [done|].
  rewrite (refcounts_equivalent Demote 1 2) by done. vm_compute. reflexivity.
Defined.

Lemma refcounts_holders_exact_witness :
  object_reachable (Object 1 (REFCOUNT_REFERENCES 1 0))
  ∧ run_op Deref 1 = Some (0, REFCOUNT_REFERENCES 0 0).
Proof.
  assert (H : object_reachable (Object 1 (REFCOUNT_REFERENCES 1 0))) by by apply object_init.
  split; [exact H|].
  destruct (refcounts_holders_exact _ Deref H) as (_ & Hop & _); [done|done|exact Hop].
Defined.

(** The counts can be taken past the assertions: an increment at the overflow
    mark itself carries into the weak count, unnoticed. *)
Example refcounts_carry :
  refcounts_unsafe_ref (to_value (REFCOUNT_REFERENCES UINT32_MAX 0))
  = Some (to_value (REFCOUNT_REFERENCES 0 1), REFCOUNT_REFERENCES 0 1).
Proof. vm_compute. reflexivity. Qed.
