(* ===== verification/Threadpool.v ===== *)
(** * Deferred deallocation in thread pools (src/libports/port-deref-deferred.c)

    The threads that serve the ports of a bucket look objects up by the payload
    of a message, without a lock.  A port that is destroyed is therefore given
    up only when every thread that was running has passed a quiescent state:
    threads and objects are in an old and a young generation, and when the last
    old thread has become young, the old objects are released and the
    generations flip.  The section on the system puts threads that join, leave,
    pass quiescent states and defer objects in any order together. *)

From S2P Require Import Prelude.

Abbreviation COLOR_BLACK := 0 (only parsing).
Abbreviation COLOR_WHITE := 1 (only parsing).
Abbreviation COLOR_INVALID := (2 ^ 32 - 1) (only parsing).

Definition valid_color (c : Z) : bool := bool_decide (c = COLOR_BLACK) || bool_decide (c = COLOR_WHITE).

Definition flip_color (c : Z) : option Z :=
  if valid_color c then Some (if decide (c = 0) then 1 else 0) else None.

(** The objects are named by the order in which they were deferred. *)
Record ports_threadpool := mk_pool {
  color : Z;
  old_threads : Z;
  old_objects : list nat;
  young_threads : Z;
  young_objects : list nat
}.

Definition _ports_threadpool_init : ports_threadpool := mk_pool COLOR_BLACK 0 [] 0 [].

Definition flip_generations (p : ports_threadpool) : option ports_threadpool :=
  if decide (old_threads p = 0) then
    if decide (old_objects p = []) then
      c ← flip_color (color p);
      Some (mk_pool c (young_threads p) (young_objects p) 0 [])
    else None
  else None.

(** The pool and the color of the new thread. *)
Definition _ports_thread_online (p : ports_threadpool) : option (ports_threadpool * Z) :=
  c ← flip_color (color p);
  Some (mk_pool (color p) (old_threads p) (old_objects p) (u64 (young_threads p + 1)) (young_objects p), c).

(** The pool, the new color of the thread and the objects to dereference. *)
Definition _ports_thread_quiescent (p : ports_threadpool) (tc : Z)
    : option (ports_threadpool * Z * list nat) :=
  if valid_color tc then
    if decide (tc = color p) then
      tc' ← flip_color tc;
      let p1 := mk_pool (color p) (u64 (old_threads p - 1)) (old_objects p)
                  (u64 (young_threads p + 1)) (young_objects p) in
      if decide (old_threads p1 = 0) then
        p2 ← flip_generations (mk_pool (color p1) (old_threads p1) [] (young_threads p1) (young_objects p1));
        Some (p2, tc', old_objects p1)
      else Some (p1, tc', [])
    else Some (p, tc, [])
  else None.

(** The part of [_ports_thread_offline] after its loop. *)
Definition leave (p : ports_threadpool) : ports_threadpool * Z :=
  (mk_pool (color p) (old_threads p) (old_objects p) (u64 (young_threads p - 1)) (young_objects p),
   COLOR_INVALID).

(** The loop of [_ports_thread_offline] with no other thread running; [Some None]
    when it has not ended after [fuel] rounds. *)
Fixpoint offline_loop (fuel : nat) (p : ports_threadpool) (tc : Z) (freed : list nat)
    : option (option (ports_threadpool * Z * list nat)) :=
  if decide (tc = color p) then
    match fuel with
    | O => Some None
    | S fuel' =>
        '(p, tc, l) ← _ports_thread_quiescent p tc;
        offline_loop fuel' p tc (freed ++ l)
    end
  else let '(p, tc) := leave p in Some (Some (p, tc, freed)).

Definition _ports_thread_offline (fuel : nat) (p : ports_threadpool) (tc : Z)
    : option (option (ports_threadpool * Z * list nat)) :=
  if valid_color tc then offline_loop fuel p tc [] else None.

(** An object whose list node cannot be allocated is never released. *)
Definition _ports_port_deref_deferred (p : ports_threadpool) (pi : nat) (o : allocs)
    : option (ports_threadpool * allocs) :=
  let '(ok, o) := alloc o in
  if ok then
    let p := mk_pool (color p) (old_threads p) (old_objects p) (young_threads p) (pi :: young_objects p) in
    if decide (old_threads p = 0) then
      if decide (old_objects p = []) then p ← flip_generations p; Some (p, o) else None
    else Some (p, o)
  else Some (p, o).

(** ** The threads of a pool

    [waits] says for a deferred object which of the threads that were in the pool
    when it was deferred have not passed a quiescent state since; [released]
    are the objects that were handed back for dereferencing. *)
Record system := mk_system {
  pool : ports_threadpool;
  threads : gmap nat Z;
  waits : gmap nat (gset nat);
  released : list nat;
  deferred : nat
}.

Definition passed (t : nat) (ws : gmap nat (gset nat)) : gmap nat (gset nat) :=
  (λ S, S ∖ {[t]}) <$> ws.

Definition quiesce (t : nat) (s : system) : option system :=
  tc ← threads s !! t;
  '(p, tc, l) ← _ports_thread_quiescent (pool s) tc;
  Some (mk_system p (<[t := tc]> (threads s)) (passed t (waits s)) (released s ++ l) (deferred s)).

Definition join (t : nat) (s : system) : option system :=
  '(p, tc) ← _ports_thread_online (pool s);
  Some (mk_system p (<[t := tc]> (threads s)) (waits s) (released s) (deferred s)).

(** One round of [_ports_thread_offline]: an old thread passes a quiescent state,
    a young one leaves. *)
Definition go_offline (t : nat) (s : system) : option system :=
  tc ← threads s !! t;
  if decide (tc = color (pool s)) then quiesce t s
  else Some (mk_system (leave (pool s)).1 (delete t (threads s)) (passed t (waits s))
               (released s) (deferred s)).

Definition defer (s : system) (o : allocs) : option system :=
  '(p, _) ← _ports_port_deref_deferred (pool s) (deferred s) o;
  Some (mk_system p (threads s) (<[deferred s := dom (threads s)]> (waits s)) (released s)
          (S (deferred s))).

(** Objects are deferred in states [G] allows. *)
Inductive pool_step (G : system → Prop) : system → system → Prop :=
| step_join t s s' : threads s !! t = None → Z.of_nat (size (threads s)) < 2 ^ 64 - 1 →
    join t s = Some s' → pool_step G s s'
| step_quiesce t s s' : quiesce t s = Some s' → pool_step G s s'
| step_offline t s s' : go_offline t s = Some s' → pool_step G s s'
| step_defer s o s' : G s → defer s o = Some s' → pool_step G s s'.

Definition init_system : system := mk_system _ports_threadpool_init ∅ ∅ [] 0.

Inductive pool_reachable (G : system → Prop) : system → Prop :=
| pool_init : pool_reachable G init_system
| pool_next s s' : pool_reachable G s → pool_step G s s' → pool_reachable G s'.

Definition some_thread (s : system) : Prop := threads s ≠ ∅.

(** ** Counting threads *)
Definition of_color (c : Z) (m : gmap nat Z) : Z :=
  Z.of_nat (size (filter (λ kv : nat * Z, kv.2 = c) m)).

Lemma of_color_insert c t c' m :
  m !! t = None → of_color c (<[t := c']> m) = of_color c m + (if decide (c' = c) then 1 else 0).
Proof.
  intros Ht. unfold of_color. case_decide as Hc.
  - rewrite map_filter_insert_True by done. rewrite map_size_insert_None; [lia|].
    apply map_lookup_filter_None_2. left. done.
  - rewrite map_filter_insert_False by done. rewrite delete_id by done. lia.
Qed.

Lemma of_color_delete c t c' m :
  m !! t = Some c' → of_color c (delete t m) = of_color c m - (if decide (c' = c) then 1 else 0).
Proof.
  intros Ht. rewrite <-(insert_delete_id m t c' Ht) at 2.
  rewrite of_color_insert by apply lookup_delete_eq. lia.
Qed.

Lemma of_color_update c t c0 c' m :
  m !! t = Some c0 →
  of_color c (<[t := c']> m)
    = of_color c m - (if decide (c0 = c) then 1 else 0) + (if decide (c' = c) then 1 else 0).
Proof.
  intros Ht. rewrite <-insert_delete_eq, of_color_insert by apply lookup_delete_eq.
  by rewrite (of_color_delete c t c0 m Ht).
Qed.

Lemma of_color_zero c m : of_color c m = 0 ↔ ∀ t, m !! t ≠ Some c.
Proof.
  unfold of_color. split.
  - intros Hz t Ht. assert (Hs : size (filter (λ kv : nat * Z, kv.2 = c) m) = 0%nat) by lia.
    apply map_size_empty_inv in Hs.
    by apply (map_empty_filter_1 _ _ Hs t c Ht).
  - intros Hn. assert (filter (λ kv : nat * Z, kv.2 = c) m = ∅) as ->; [|by rewrite map_size_empty].
    apply map_empty_filter_2. intros t c' Ht Hc. simpl in Hc. subst. by apply (Hn t).
Qed.

Lemma of_color_bounds c m : 0 ≤ of_color c m ≤ Z.of_nat (size m).
Proof.
  unfold of_color. split; [lia|]. apply inj_le. apply map_subseteq_size, map_filter_subseteq.
Qed.

Lemma valid_color_spec c : valid_color c = true ↔ c = 0 ∨ c = 1.
Proof.
  unfold valid_color.
  rewrite orb_true_iff, !bool_decide_eq_true. done.
Qed.

Lemma flip_color_valid c : valid_color c = true → flip_color c = Some (1 - c).
Proof.
  intros Hc. unfold flip_color. rewrite Hc. apply valid_color_spec in Hc. case_decide; f_equal; lia.
Qed.

(** The counters of a pool are right. *)
Record counted (p : ports_threadpool) (m : gmap nat Z) : Prop := {
  cn_color : valid_color (color p) = true;
  cn_threads : map_Forall (λ _ c, valid_color c = true) m;
  cn_old : old_threads p = of_color (color p) m;
  cn_young : young_threads p = of_color (1 - color p) m;
  cn_size : Z.of_nat (size m) < 2 ^ 64
}.

(** The three outcomes of a quiescent state: of a young thread, of an old one of
    several, and of the last old one. *)
Inductive quiesced (p : ports_threadpool) (m : gmap nat Z) (tc : Z)
    : ports_threadpool → Z → list nat → Prop :=
| quiesced_young : tc = 1 - color p → quiesced p m tc p tc []
| quiesced_old : tc = color p → 1 < old_threads p →
    quiesced p m tc (mk_pool (color p) (old_threads p - 1) (old_objects p)
                       (young_threads p + 1) (young_objects p)) (1 - tc) []
| quiesced_last : tc = color p → old_threads p = 1 →
    quiesced p m tc (mk_pool (1 - color p) (young_threads p + 1) (young_objects p) 0 [])
      (1 - tc) (old_objects p).

Lemma other_color c tc : valid_color c = true → valid_color tc = true → tc ≠ c → tc = 1 - c.
Proof. rewrite !valid_color_spec. lia. Qed.

Lemma counted_old p m t : counted p m → m !! t = Some (color p) → 1 ≤ old_threads p.
Proof.
  intros Hc Ht. rewrite (cn_old _ _ Hc). pose proof (of_color_bounds (color p) m).
  destruct (decide (of_color (color p) m = 0)) as [Hz|]; [|lia].
  rewrite of_color_zero in Hz. by destruct (Hz t).
Qed.

Lemma counted_total p m : counted p m → old_threads p + young_threads p = Z.of_nat (size m).
Proof.
  intros Hc. rewrite (cn_old _ _ Hc), (cn_young _ _ Hc).
  pose proof (cn_threads _ _ Hc) as Ht. pose proof (cn_color _ _ Hc) as Hv.
  apply valid_color_spec in Hv. clear Hc.
  induction m as [|t c m Hm IH] using map_ind; [done|].
  apply map_Forall_insert in Ht as [Hc Ht]; [|done].
  rewrite !of_color_insert, map_size_insert_None by done. apply valid_color_spec in Hc.
  specialize (IH Ht). repeat case_decide; lia.
Qed.

Lemma quiescent_spec p m t tc :
  counted p m → m !! t = Some tc →
  ∃ p' tc' l, _ports_thread_quiescent p tc = Some (p', tc', l) ∧ quiesced p m tc p' tc' l.
Proof.
  intros Hc Ht. pose proof (cn_threads _ _ Hc t tc Ht) as Htc. simpl in Htc.
  unfold _ports_thread_quiescent. rewrite Htc.
  destruct (decide (tc = color p)) as [->|Hne].
  2:{ eexists _, _, _. split; [done|]. constructor. by apply other_color; [apply Hc|..]. }
  rewrite flip_color_valid by done. simpl.
  pose proof (counted_old p m t Hc Ht). pose proof (counted_total p m Hc). pose proof (cn_size _ _ Hc).
  assert (0 ≤ young_threads p). { rewrite (cn_young _ _ Hc). apply of_color_bounds. }
  rewrite (u64_id (old_threads p - 1)) by lia.
  destruct (decide (old_threads p - 1 = 0)) as [Hl|Hl].
  - unfold flip_generations. simpl. rewrite decide_True by done. rewrite flip_color_valid by done. simpl.
    eexists _, _, _. split; [done|].
    destruct (decide (young_threads p + 1 < 2 ^ 64)); [|lia]. rewrite u64_id by lia.
    constructor; [done|lia].
  - eexists _, _, _. split; [done|]. rewrite u64_id by lia. constructor; [done|lia].
Qed.

Lemma quiesced_counted p m t tc p' tc' l :
  counted p m → m !! t = Some tc → quiesced p m tc p' tc' l → counted p' (<[t := tc']> m).
Proof.
  intros Hc Ht Hq. pose proof (cn_color _ _ Hc) as Hv. pose proof (cn_threads _ _ Hc) as Hf.
  pose proof (cn_size _ _ Hc) as Hs. pose proof Hv as Hv'. apply valid_color_spec in Hv'.
  assert (Hsz : ∀ c, size (<[t := c]> m) = size m).
  { intros c. apply map_size_insert_Some. by exists tc. }
  destruct Hq as [Htc|Htc Ho|Htc Ho].
  - rewrite insert_id by done. done.
  - subst tc. constructor; simpl; [done|..|by rewrite Hsz].
    + apply map_Forall_insert_2; [apply valid_color_spec; lia|done].
    + rewrite (of_color_update _ _ (color p)), (cn_old _ _ Hc) by done.
      rewrite decide_True, decide_False by lia. lia.
    + rewrite (of_color_update _ _ (color p)), (cn_young _ _ Hc) by done.
      rewrite decide_False, decide_True by lia. lia.
  - subst tc. constructor; simpl; [apply valid_color_spec; lia|..|by rewrite Hsz].
    + apply map_Forall_insert_2; [apply valid_color_spec; lia|done].
    + rewrite (of_color_update _ _ (color p)), (cn_young _ _ Hc) by done.
      rewrite decide_False, decide_True by lia. lia.
    + rewrite (of_color_update _ _ (color p)) by done. replace (1 - (1 - color p)) with (color p) by lia.
      rewrite <-(cn_old _ _ Hc). rewrite decide_True, decide_False by lia. lia.
Qed.

(** ** The invariant

    The threads an old object waits for are old, those a young one waits for are
    in the pool, and a released object waits for none. *)
Definition objects (s : system) : list nat :=
  old_objects (pool s) ++ young_objects (pool s) ++ released s.

Record pool_ok (s : system) : Prop := {
  pk_counted : counted (pool s) (threads s);
  pk_old : ∀ x, x ∈ old_objects (pool s) →
    ∃ S, waits s !! x = Some S ∧ ∀ t, t ∈ S → threads s !! t = Some (color (pool s));
  pk_young : ∀ x, x ∈ young_objects (pool s) →
    ∃ S, waits s !! x = Some S ∧ ∀ t, t ∈ S → is_Some (threads s !! t);
  pk_released : ∀ x, x ∈ released s → waits s !! x = Some ∅;
  pk_nodup : NoDup (objects s);
  pk_fresh : ∀ x, x ∈ objects s → (x < deferred s)%nat
}.

Lemma passed_lookup t ws x S : ws !! x = Some S → passed t ws !! x = Some (S ∖ {[t]}).
Proof. intros H. unfold passed. by rewrite lookup_fmap, H. Qed.

Lemma passed_empty t ws x : ws !! x = Some ∅ → passed t ws !! x = Some ∅.
Proof. intros H. rewrite (passed_lookup t ws x ∅ H). f_equal. set_solver. Qed.

Lemma objects_flip (o y r : list nat) : (y ++ [] ++ (r ++ o)) ≡ₚ (o ++ y ++ r).
Proof. simpl. rewrite (Permutation_app_comm o), <-app_assoc. done. Qed.

(** The last old thread is the only one of its color. *)
Lemma last_old p m t u :
  counted p m → m !! t = Some (color p) → old_threads p = 1 → u ≠ t → m !! u ≠ Some (color p).
Proof.
  intros Hc Ht Ho Hu. pose proof (of_color_delete (color p) t _ m Ht) as Hd.
  rewrite decide_True, <-(cn_old _ _ Hc), Ho in Hd by done.
  rewrite of_color_zero in Hd. specialize (Hd u). by rewrite lookup_delete_ne in Hd by done.
Qed.

Lemma waits_passed t ws x (P Q : nat → Prop) :
  (∃ S, ws !! x = Some S ∧ ∀ u, u ∈ S → P u) → (∀ u, u ≠ t → P u → Q u) →
  ∃ S, passed t ws !! x = Some S ∧ ∀ u, u ∈ S → Q u.
Proof.
  intros (S & HS & HP) HPQ. exists (S ∖ {[t]}). split; [by apply passed_lookup|].
  intros u [Hu Hut]%elem_of_difference. apply not_elem_of_singleton in Hut. auto.
Qed.

(** A thread passes a quiescent state or leaves, and the generations stay. *)
Lemma thread_passed_ok s t p m :
  pool_ok s → counted p m → color p = color (pool s) → old_objects p = old_objects (pool s) →
  young_objects p = young_objects (pool s) → (∀ u, u ≠ t → m !! u = threads s !! u) →
  pool_ok (mk_system p m (passed t (waits s)) (released s) (deferred s)).
Proof.
  intros Hok Hc Hcol Ho Hy Hm. constructor; simpl; unfold objects; simpl; rewrite ?Ho, ?Hy, ?Hcol;
    [done|..|apply Hok|apply Hok].
  - intros x Hx. eapply waits_passed; [by apply (pk_old s Hok)|]. intros u Hu. by rewrite Hm.
  - intros x Hx. eapply waits_passed; [by apply (pk_young s Hok)|]. intros u Hu. by rewrite Hm.
  - intros x Hx. by apply passed_empty, (pk_released s Hok).
Qed.

(** The last old thread passes a quiescent state. *)
Lemma flip_ok s t p m :
  pool_ok s → counted p m → threads s !! t = Some (color (pool s)) → old_threads (pool s) = 1 →
  color p = 1 - color (pool s) → old_objects p = young_objects (pool s) →
  young_objects p = [] → (∀ u, u ≠ t → m !! u = threads s !! u) →
  pool_ok (mk_system p m (passed t (waits s)) (released s ++ old_objects (pool s)) (deferred s)).
Proof.
  intros Hok Hc Ht Hl Hcol Ho Hy Hm.
  pose proof (λ u, last_old _ _ t u (pk_counted s Hok) Ht Hl) as Hlast.
  constructor; simpl; unfold objects; simpl; rewrite ?Ho, ?Hy, ?Hcol; [done|..].
  - intros x Hx. eapply waits_passed; [by apply (pk_young s Hok)|]. intros u Hu [c Huc].
    rewrite Hm, Huc by done. f_equal. apply other_color; [apply Hok|apply (cn_threads _ _ (pk_counted s Hok) u c Huc)|].
    intros ->. by apply (Hlast u Hu).
  - intros x Hx. by apply elem_of_nil in Hx.
  - intros x [Hx|Hx]%elem_of_app; [by apply passed_empty, (pk_released s Hok)|].
    destruct (waits_passed t (waits s) x _ (λ _, False) (pk_old s Hok x Hx)) as (S & HS & Hin).
    + intros u Hu Huc. by apply (Hlast u Hu).
    + rewrite HS. f_equal. apply set_eq. intros u. split; [|set_solver]. intros Hu. by apply Hin in Hu.
  - rewrite objects_flip. apply (pk_nodup s Hok).
  - intros x Hx. apply (pk_fresh s Hok). unfold objects. by rewrite <-objects_flip.
Qed.

Lemma quiesce_eq t tc s :
  pool_ok s → threads s !! t = Some tc →
  ∃ p' tc' l, quiesce t s
      = Some (mk_system p' (<[t := tc']> (threads s)) (passed t (waits s)) (released s ++ l) (deferred s))
    ∧ quiesced (pool s) (threads s) tc p' tc' l.
Proof.
  intros Hok Ht. destruct (quiescent_spec _ _ t tc (pk_counted s Hok) Ht) as (p' & tc' & l & Hr & Hq).
  exists p', tc', l. split; [|done]. unfold quiesce. rewrite Ht. simpl. by rewrite Hr.
Qed.

Lemma quiesce_ok t s s' : pool_ok s → quiesce t s = Some s' → pool_ok s'.
Proof.
  intros Hok Hs. destruct (threads s !! t) as [tc|] eqn:Ht; [|by unfold quiesce in Hs; rewrite Ht in Hs].
  destruct (quiesce_eq t tc s Hok Ht) as (p' & tc' & l & Hr & Hq). rewrite Hr in Hs. injection Hs as <-.
  pose proof (quiesced_counted _ _ t tc p' tc' l (pk_counted s Hok) Ht Hq) as Hc.
  assert (Hm : ∀ u, u ≠ t → <[t := tc']> (threads s) !! u = threads s !! u).
  { intros u Hu. by apply lookup_insert_ne. }
  destruct Hq as [Htc|Htc Ho|Htc Ho]; rewrite ?app_nil_r; [by apply thread_passed_ok..|].
  subst tc. by eapply flip_ok.
Qed.

Lemma offline_ok t s s' : pool_ok s → go_offline t s = Some s' → pool_ok s'.
Proof.
  intros Hok Hs. unfold go_offline in Hs. apply bind_Some in Hs as (tc & Ht & Hs).
  case_decide as Hc; [by eapply quiesce_ok|]. injection Hs as <-.
  pose proof (pk_counted s Hok) as Hcn. apply (thread_passed_ok s t); try done.
  2:{ intros u Hu. by apply lookup_delete_ne. }
  assert (Htc : tc = 1 - color (pool s)).
  { apply other_color; [apply Hcn|apply (cn_threads _ _ Hcn t tc Ht)|done]. }
  pose proof (of_color_delete (1 - color (pool s)) t tc _ Ht) as Hd. rewrite decide_True in Hd by done.
  pose proof (of_color_bounds (1 - color (pool s)) (delete t (threads s))).
  pose proof (of_color_bounds (1 - color (pool s)) (threads s)). pose proof (cn_size _ _ Hcn).
  assert (size (delete t (threads s)) ≤ size (threads s))%nat by apply map_subseteq_size, delete_subseteq.
  constructor; simpl; [apply Hcn|by apply map_Forall_delete, Hcn|..|lia].
  - rewrite (of_color_delete _ _ tc) by done. rewrite decide_False by done. rewrite (cn_old _ _ Hcn). lia.
  - rewrite (cn_young _ _ Hcn). rewrite u64_id; lia.
Qed.

Lemma join_ok t s s' :
  pool_ok s → threads s !! t = None → Z.of_nat (size (threads s)) < 2 ^ 64 - 1 →
  join t s = Some s' → pool_ok s'.
Proof.
  intros Hok Ht Hsz Hs. pose proof (pk_counted s Hok) as Hcn.
  pose proof (cn_color _ _ Hcn) as Hv. pose proof Hv as Hv'. apply valid_color_spec in Hv'.
  unfold join, _ports_thread_online in Hs. rewrite flip_color_valid in Hs by done. simpl in Hs.
  injection Hs as <-. pose proof (of_color_bounds (1 - color (pool s)) (threads s)).
  assert (Hin : ∀ u c, threads s !! u = Some c → <[t := 1 - color (pool s)]> (threads s) !! u = Some c).
  { intros u c Hu. rewrite lookup_insert_ne by congruence. done. }
  constructor; simpl; unfold objects; simpl; [|..|apply Hok|apply Hok].
  - constructor; simpl; [done|apply map_Forall_insert_2; [apply valid_color_spec; lia|apply Hcn]|..].
    + rewrite of_color_insert, decide_False by (done || lia). rewrite (cn_old _ _ Hcn). lia.
    + rewrite of_color_insert, decide_True by done. rewrite (cn_young _ _ Hcn). rewrite u64_id; lia.
    + rewrite map_size_insert_None by done. lia.
  - intros x Hx. destruct (pk_old s Hok x Hx) as (S & HS & Hu). exists S. eauto.
  - intros x Hx. destruct (pk_young s Hok x Hx) as (S & HS & Hu). exists S. split; [done|].
    intros u HuS. destruct (Hu u HuS) as [c Hc]. eauto.
  - apply Hok.
Qed.

(** An object is deferred: it waits for the threads of the pool. *)
Lemma waits_fresh s x (P : nat → Prop) :
  pool_ok s → x ∈ objects s →
  (∃ S, waits s !! x = Some S ∧ ∀ u, u ∈ S → P u) →
  ∃ S, <[deferred s := dom (threads s)]> (waits s) !! x = Some S ∧ ∀ u, u ∈ S → P u.
Proof.
  intros Hok Hx (S & HS & HP). exists S. split; [|done]. apply (pk_fresh s Hok) in Hx.
  by rewrite lookup_insert_ne by lia.
Qed.

Lemma deferred_fresh s : pool_ok s → deferred s ∉ objects s.
Proof. intros Hok Hx%(pk_fresh s Hok). lia. Qed.

Lemma flipped_counted p m :
  counted p m → old_threads p = 0 →
  counted (mk_pool (1 - color p) (young_threads p) (young_objects p) 0 []) m.
Proof.
  intros Hc Ho. pose proof (cn_color _ _ Hc) as Hv. apply valid_color_spec in Hv.
  constructor; simpl; [apply valid_color_spec; lia|apply Hc|apply Hc| |apply Hc].
  replace (1 - (1 - color p)) with (color p) by lia. by rewrite <-(cn_old _ _ Hc).
Qed.

Lemma all_young p m u c :
  counted p m → old_threads p = 0 → m !! u = Some c → c = 1 - color p.
Proof.
  intros Hc Ho Hu. apply other_color; [apply Hc|apply (cn_threads _ _ Hc u c Hu)|]. intros ->.
  rewrite (cn_old _ _ Hc), of_color_zero in Ho. by apply (Ho u).
Qed.

Lemma defer_new s :
  pool_ok s →
  let ws := <[deferred s := dom (threads s)]> (waits s) in
  (∀ x, x ∈ old_objects (pool s) →
     ∃ S, ws !! x = Some S ∧ ∀ u, u ∈ S → threads s !! u = Some (color (pool s)))
  ∧ (∀ x, x ∈ deferred s :: young_objects (pool s) →
       ∃ S, ws !! x = Some S ∧ ∀ u, u ∈ S → is_Some (threads s !! u))
  ∧ (∀ x, x ∈ released s → ws !! x = Some ∅).
Proof.
  intros Hok ws. pose proof (deferred_fresh s Hok) as Hfr. split_and!; intros x Hx.
  - apply waits_fresh; [done|unfold objects; set_solver|by apply (pk_old s Hok)].
  - apply elem_of_cons in Hx as [->|Hx].
    + exists (dom (threads s)). split; [apply lookup_insert_eq|]. intros u Hu. by apply elem_of_dom.
    + apply waits_fresh; [done|unfold objects; set_solver|by apply (pk_young s Hok)].
  - unfold ws. rewrite lookup_insert_ne; [by apply (pk_released s Hok)|].
    intros <-. apply Hfr. unfold objects. set_solver.
Qed.

Lemma defer_ok s o s' : pool_ok s → defer s o = Some s' → pool_ok s'.
Proof.
  intros Hok Hs. unfold defer, _ports_port_deref_deferred in Hs. destruct (alloc o) as [ok o'].
  pose proof (pk_counted s Hok) as Hcn. pose proof (deferred_fresh s Hok) as Hfr.
  destruct (defer_new s Hok) as (Hold & Hyng & Hrel).
  pose proof (pk_nodup s Hok) as Hnd. pose proof (pk_fresh s Hok) as Hlt. unfold objects in *.
  destruct ok; simpl in Hs.
  2:{ injection Hs as <-. constructor; simpl; [done|done| |done..|].
      - intros x Hx. apply Hyng. by right.
      - intros x Hx. specialize (Hlt x Hx). lia. }
  case_decide as Ho; simpl in Hs.
  - case_decide as He; simpl in Hs; [|done].
    unfold flip_generations in Hs. simpl in Hs. rewrite decide_True, decide_True in Hs by done.
    rewrite flip_color_valid in Hs by apply Hcn. simpl in Hs. injection Hs as <-.
    constructor; simpl; unfold objects; simpl; [|..|done| |].
    + apply (flipped_counted (mk_pool (color (pool s)) (old_threads (pool s)) (old_objects (pool s))
        (young_threads (pool s)) (deferred s :: young_objects (pool s)))); [|done]. by destruct Hcn.
    + intros x Hx. destruct (Hyng x Hx) as (S & HS & Hu). exists S. split; [done|].
      intros u [c Hc]%Hu. rewrite Hc. f_equal. by eapply all_young.
    + intros x Hx. by apply elem_of_nil in Hx.
    + rewrite He in Hnd, Hfr. by constructor.
    + rewrite He in Hlt. intros x [->|Hx]%elem_of_cons; [lia|]. specialize (Hlt x Hx). lia.
  - injection Hs as <-. constructor; simpl; unfold objects; simpl; [by destruct Hcn|done..| |].
    + rewrite Permutation_app_comm. simpl. rewrite (Permutation_app_comm _ (old_objects _)). by constructor.
    + intros x Hx. destruct (decide (x = deferred s)) as [->|Hne]; [lia|].
      assert (Hx' : (x < deferred s)%nat) by (apply Hlt; set_solver). lia.
Qed.

Lemma reachable_pool_ok G s : pool_reachable G s → pool_ok s.
Proof.
  induction 1 as [|s s' _ IH Hstep].
  - constructor; simpl; [constructor; done|..]; try (intros x Hx; by apply elem_of_nil in Hx).
    constructor.
  - destruct Hstep; eauto using join_ok, quiesce_ok, offline_ok, defer_ok.
Qed.

(** ** No assertion fails while there are threads *)
Definition tidy (p : ports_threadpool) : Prop :=
  old_threads p = 0 → old_objects p = [] ∧ young_objects p = [].

Lemma quiesced_tidy p m tc p' tc' l :
  counted p m → tidy p → quiesced p m tc p' tc' l → tidy p'.
Proof.
  intros Hc Ht Hq. pose proof (of_color_bounds (1 - color p) m). unfold tidy.
  destruct Hq; simpl; [done|lia|]. rewrite (cn_young _ _ Hc). lia.
Qed.

Lemma quiesce_tidy t s s' : pool_ok s → tidy (pool s) → quiesce t s = Some s' → tidy (pool s').
Proof.
  intros Hok Ht Hs. destruct (threads s !! t) as [tc|] eqn:Htc; [|by unfold quiesce in Hs; rewrite Htc in Hs].
  destruct (quiesce_eq t tc s Hok Htc) as (p' & tc' & l & Hr & Hq). rewrite Hr in Hs. injection Hs as <-.
  simpl. eapply quiesced_tidy; [apply (pk_counted s Hok)|done..].
Qed.

Lemma threads_some s : pool_ok s → some_thread s →
  0 < old_threads (pool s) + young_threads (pool s).
Proof.
  intros Hok Hne. rewrite (counted_total _ _ (pk_counted s Hok)).
  destruct (decide (size (threads s) = 0%nat)) as [Hz|]; [|lia]. by apply map_size_empty_inv in Hz.
Qed.

Lemma defer_succeeds s o :
  pool_ok s → tidy (pool s) → some_thread s → ∃ s', defer s o = Some s' ∧ tidy (pool s').
Proof.
  intros Hok Ht Hne. unfold defer, _ports_port_deref_deferred. destruct (alloc o) as [[] o']; [|by eexists].
  simpl. case_decide as Ho.
  - destruct (Ht Ho) as [He Hy]. rewrite decide_True by done.
    unfold flip_generations. simpl. rewrite decide_True, decide_True by done.
    rewrite flip_color_valid by apply (pk_counted s Hok). simpl. eexists. split; [done|].
    pose proof (threads_some s Hok Hne). unfold tidy. simpl. lia.
  - eexists. split; [done|]. unfold tidy. simpl. lia.
Qed.

Lemma reachable_tidy s : pool_reachable some_thread s → tidy (pool s).
Proof.
  induction 1 as [|s s' Hr IH Hstep]; [by intros _|].
  pose proof (reachable_pool_ok _ s Hr) as Hok.
  destruct Hstep as [t s s' _ _ Hs|t s s' Hs|t s s' Hs|s o s' Hne Hs].
  - unfold join, _ports_thread_online in Hs. rewrite flip_color_valid in Hs by apply (pk_counted s Hok).
    simpl in Hs. by injection Hs as <-.
  - by eapply quiesce_tidy.
  - unfold go_offline in Hs. apply bind_Some in Hs as (tc & Htc & Hs).
    case_decide; [by eapply quiesce_tidy|]. by injection Hs as <-.
  - destruct (defer_succeeds s o Hok IH Hne) as (s1 & Hs1 & Ht). simplify_eq. done.
Qed.

(** ** Every deferred object is released *)
Fixpoint quiesce_all (ts : list nat) (s : system) : option system :=
  match ts with
  | [] => Some s
  | t :: ts' => s ← quiesce t s; quiesce_all ts' s
  end.

Definition same_threads (s s' : system) : Prop := dom (threads s') = dom (threads s).

(** One round: [ts] contains all old threads. *)
Definition covers_old (ts : list nat) (s : system) : Prop :=
  ∀ t, threads s !! t = Some (color (pool s)) → t ∈ ts.

Record good (s : system) : Prop := { good_ok : pool_ok s; good_tidy : tidy (pool s) }.

(** What a quiescent state of [t] does to the generations. *)
Lemma quiesce_progress t s :
  good s → t ∈ dom (threads s) →
  ∃ s', quiesce t s = Some s' ∧ good s' ∧ same_threads s s'
    ∧ (∀ x, x ∈ released s → x ∈ released s')
    ∧ ((old_objects (pool s') = old_objects (pool s) ∧ young_objects (pool s') = young_objects (pool s)
        ∧ ∀ ts, covers_old (t :: ts) s → covers_old ts s')
       ∨ (old_objects (pool s') = young_objects (pool s) ∧ young_objects (pool s') = []
          ∧ ∀ x, x ∈ old_objects (pool s) → x ∈ released s')).
Proof.
  intros [Hok Htd] Hin. apply elem_of_dom in Hin as [tc Ht].
  destruct (quiesce_eq t tc s Hok Ht) as (p' & tc' & l & Hr & Hq).
  eexists. split; [exact Hr|]. split; [split; [by eapply quiesce_ok|by eapply quiesce_tidy]|].
  split. { unfold same_threads. simpl. rewrite dom_insert_L. apply elem_of_dom_2 in Ht. set_solver. }
  split; [set_solver|]. pose proof (cn_color _ _ (pk_counted s Hok)) as Hv. apply valid_color_spec in Hv.
  destruct Hq as [Htc|Htc Ho|Htc Ho]; simpl; [left|left|right]; (split; [done|]); (split; [done|]).
  - intros ts Hc u Hu. simpl in Hu. rewrite insert_id in Hu by done.
    apply Hc in Hu as Hu'. apply elem_of_cons in Hu' as [->|]; [|done]. rewrite Ht in Hu. simplify_eq. lia.
  - intros ts Hc u Hu. simpl in Hu. destruct (decide (u = t)) as [->|Hne].
    { rewrite lookup_insert_eq in Hu. simplify_eq. lia. }
    rewrite lookup_insert_ne in Hu by done. apply Hc, elem_of_cons in Hu as [->|]; done.
  - set_solver.
Qed.

Definition runs_to (ts : list nat) (s s' : system) : Prop :=
  quiesce_all ts s = Some s' ∧ good s' ∧ same_threads s s' ∧ (∀ x, x ∈ released s → x ∈ released s').

Lemma runs_to_nil s : good s → runs_to [] s s.
Proof. done. Qed.

Lemma runs_to_cons t ts s s1 s2 :
  quiesce t s = Some s1 → same_threads s s1 → (∀ x, x ∈ released s → x ∈ released s1) →
  runs_to ts s1 s2 → runs_to (t :: ts) s s2.
Proof.
  intros Hs Hd Hr (Hs2 & Hg & Hd2 & Hr2). split_and!; [|done| |auto].
  - simpl. by rewrite Hs.
  - unfold same_threads in *. congruence.
Qed.

Lemma keeps_old ts s :
  good s → (∀ t, t ∈ ts → t ∈ dom (threads s)) →
  ∃ s', runs_to ts s s'
    ∧ ∀ x, x ∈ old_objects (pool s) → x ∈ old_objects (pool s') ∨ x ∈ released s'.
Proof.
  revert s. induction ts as [|t ts IH]; intros s Hg Hin.
  { exists s. split; [by apply runs_to_nil|auto]. }
  destruct (quiesce_progress t s Hg) as (s1 & Hs1 & Hg1 & Hd1 & Hr1 & Hp); [set_solver|].
  destruct (IH s1 Hg1) as (s2 & Hr2 & Hold).
  { intros u Hu. rewrite Hd1. set_solver. }
  exists s2. split; [by eapply runs_to_cons|]. intros x Hx.
  destruct Hp as [(Ho & _)|(_ & _ & Hrel)]; [apply Hold; by rewrite Ho|].
  right. apply Hr2, Hrel, Hx.
Qed.

Lemma round_releases ts s :
  good s → covers_old ts s → (∀ t, t ∈ ts → t ∈ dom (threads s)) →
  ∃ s', runs_to ts s s'
    ∧ (∀ x, x ∈ old_objects (pool s) → x ∈ released s')
    ∧ (∀ x, x ∈ young_objects (pool s) → x ∈ old_objects (pool s') ∨ x ∈ released s').
Proof.
  revert s. induction ts as [|t ts IH]; intros s Hg Hc Hin.
  { exists s. split; [by apply runs_to_nil|]. destruct (good_tidy s Hg) as [-> ->]; [|set_solver].
    rewrite (cn_old _ _ (pk_counted s (good_ok s Hg))). apply of_color_zero. intros t Ht%Hc. set_solver. }
  destruct (quiesce_progress t s Hg) as (s1 & Hs1 & Hg1 & Hd1 & Hr1 & Hp); [set_solver|].
  assert (Hin1 : ∀ u, u ∈ ts → u ∈ dom (threads s1)).
  { intros u Hu. rewrite Hd1. set_solver. }
  destruct Hp as [(Ho & Hy & Hc1)|(Ho & _ & Hrel)].
  - destruct (IH s1 Hg1 (Hc1 ts Hc) Hin1) as (s2 & Hr2 & Ho2 & Hy2). rewrite Ho in Ho2. rewrite Hy in Hy2.
    exists s2. split; [by eapply runs_to_cons|done].
  - destruct (keeps_old ts s1 Hg1 Hin1) as (s2 & Hr2 & Hold). rewrite Ho in Hold.
    exists s2. split; [by eapply runs_to_cons|]. split; [|done]. intros x Hx. apply Hr2, Hrel, Hx.
Qed.

Lemma quiesce_all_app ts1 ts2 s :
  quiesce_all (ts1 ++ ts2) s = quiesce_all ts1 s ≫= quiesce_all ts2.
Proof.
  revert s. induction ts1 as [|t ts1 IH]; intros s; [done|]. simpl.
  destruct (quiesce t s); simpl; [apply IH|done].
Qed.

(** ** Leaving a pool *)
Lemma offline_next p m t tc :
  counted p m → m !! t = Some tc → tc = color p →
  ∃ p' tc' l, _ports_thread_quiescent p tc = Some (p', tc', l) ∧ counted p' (<[t := tc']> m)
    ∧ (tc' = color p' ↔ old_threads p = 1)
    ∧ (old_threads p = 1 → old_threads p' = young_threads p + 1).
Proof.
  intros Hc Ht Htc. destruct (quiescent_spec p m t tc Hc Ht) as (p' & tc' & l & Hr & Hq).
  exists p', tc', l. split; [done|]. split; [by eapply quiesced_counted|].
  pose proof (cn_color _ _ Hc) as Hv. apply valid_color_spec in Hv.
  destruct Hq; simpl; lia.
Qed.

(** The only thread of a pool, when it is old, is old again after each round. *)
Lemma offline_spins fuel p m t tc freed :
  counted p m → m !! t = Some tc → tc = color p → size m = 1%nat →
  offline_loop fuel p tc freed = Some None.
Proof.
  revert p m tc freed. induction fuel as [|fuel IH]; intros p m tc freed Hc Ht Htc Hs;
    simpl; rewrite decide_True by done; [done|].
  destruct (offline_next p m t tc Hc Ht Htc) as (p' & tc' & l & -> & Hc' & Hiff & _). simpl.
  eapply (IH p' (<[t := tc']> m)); [done|apply lookup_insert_eq| |].
  - apply Hiff. pose proof (counted_total p m Hc). subst tc. pose proof (counted_old p m t Hc Ht).
    pose proof (of_color_bounds (1 - color p) m). rewrite <-(cn_young _ _ Hc) in *. lia.
  - rewrite map_size_insert_Some; [done|by exists tc].
Qed.

Lemma offline_leaves p m t tc freed :
  counted p m → m !! t = Some tc → tc ≠ color p ∨ (1 < size m)%nat →
  ∃ r, offline_loop 2 p tc freed = Some (Some r).
Proof.
  intros Hc Ht Hor. simpl. destruct (decide (tc = color p)) as [Htc|]; [|eauto].
  destruct (offline_next p m t tc Hc Ht Htc) as (p1 & tc1 & l1 & -> & Hc1 & Hiff1 & Ho1). simpl.
  destruct (decide (tc1 = color p1)) as [He|He]; [|eauto].
  destruct (offline_next p1 (<[t := tc1]> m) t tc1 Hc1) as (p2 & tc2 & l2 & -> & _ & Hiff2 & _);
    [apply lookup_insert_eq|done|]. simpl. rewrite decide_False; [eauto|].
  intros H2%Hiff2. apply Hiff1 in He. pose proof (counted_total p m Hc). destruct Hor; [done|lia].
Qed.

(** C22. The grace period of deferred objects is kept: in every run of threads that
    join, leave, pass quiescent states and defer objects, an object that was
    released is waited for by no thread, that is, every thread that was in the
    pool when it was deferred has since passed a quiescent state or left; and no
    object is released twice. *)
Theorem pool_grace_period G s x :
  pool_reachable G s → x ∈ released s →
  waits s !! x = Some ∅ ∧ NoDup (old_objects (pool s) ++ young_objects (pool s) ++ released s).
Proof.
  intros Hr Hx. pose proof (reachable_pool_ok G s Hr) as Hok.
  split; [by apply (pk_released s Hok)|apply (pk_nodup s Hok)].
Qed.

(** C35. Deferred objects are released: if objects are deferred only while there
    is a thread in the pool, no assertion of the pool fails, and after every
    thread has passed two quiescent states, in any order, all objects that were
    pending have been released. *)
Theorem pool_releases_all s ts1 ts2 :
  pool_reachable some_thread s →
  (∀ t, t ∈ ts1 ↔ t ∈ dom (threads s)) → (∀ t, t ∈ ts2 ↔ t ∈ dom (threads s)) →
  (some_thread s → ∀ o, ∃ s', defer s o = Some s')
  ∧ ∃ s', quiesce_all (ts1 ++ ts2) s = Some s'
      ∧ ∀ x, x ∈ old_objects (pool s) ∨ x ∈ young_objects (pool s) → x ∈ released s'.
Proof.
  intros Hr H1 H2. pose proof (reachable_pool_ok _ s Hr) as Hok.
  pose proof (reachable_tidy s Hr) as Htd. split.
  { intros Hne o. destruct (defer_succeeds s o Hok Htd Hne) as (s' & Hs' & _). eauto. }
  assert (Hcov : ∀ ts s0, (∀ t, t ∈ ts ↔ t ∈ dom (threads s0)) → covers_old ts s0).
  { intros ts s0 Hts t Ht. apply Hts. by eapply elem_of_dom_2. }
  destruct (round_releases ts1 s) as (s1 & (Hq1 & Hg1 & Hd1 & Hr1) & Ho1 & Hy1);
    [by split|by apply Hcov|apply H1|]. unfold same_threads in Hd1.
  destruct (round_releases ts2 s1) as (s2 & (Hq2 & _ & _ & Hr2) & Ho2 & _); [done|..].
  { apply Hcov. intros t. by rewrite H2, Hd1. }
  { intros t Ht. rewrite Hd1. by apply H2. }
  exists s2. rewrite quiesce_all_app, Hq1. split; [done|]. intros x [Hx|Hx]; [auto|].
  destruct (Hy1 x Hx); auto.
Qed.

(** A thread that leaves its pool, with no other thread acting meanwhile, gets
    out of the loop, in at most two rounds, exactly if it is young or not alone:
    the only thread of a pool that is in the old generation is back in it after
    every round, and never leaves. *)
Theorem pool_offline_ends G s t tc :
  pool_reachable G s → threads s !! t = Some tc →
  ((∃ fuel r, _ports_thread_offline fuel (pool s) tc = Some (Some r)) ↔
     tc ≠ color (pool s) ∨ (1 < size (threads s))%nat)
  ∧ (tc ≠ color (pool s) ∨ (1 < size (threads s))%nat →
     ∃ r, _ports_thread_offline 2 (pool s) tc = Some (Some r)).
Proof.
  intros Hr Ht. pose proof (pk_counted _ (reachable_pool_ok G s Hr)) as Hc.
  unfold _ports_thread_offline. pose proof (cn_threads _ _ Hc t tc Ht) as Hv. simpl in Hv. rewrite Hv.
  split; [|intros Hor; by eapply offline_leaves].
  split; [|intros Hor; exists 2%nat; by eapply offline_leaves].
  intros (fuel & r & Hf). destruct (decide (tc = color (pool s))) as [He|]; [|by left]. right.
  destruct (decide (size (threads s) = 1%nat)) as [H1|H1].
  - by rewrite (offline_spins fuel _ _ t tc [] Hc Ht He H1) in Hf.
  - assert (size (threads s) ≠ 0%nat); [|lia]. intros Hz%map_size_empty_inv. by rewrite Hz in Ht.
Qed.

(** ** Runs *)
Inductive pool_event := Join (t : nat) | Quiesce (t : nat) | Offline (t : nat) | Defer.

Definition run_event (s : system) (e : pool_event) : option system :=
  match e with
  | Join t =>
      if decide (threads s !! t = None ∧ Z.of_nat (size (threads s)) < 2 ^ 64 - 1)
      then join t s else None
  | Quiesce t => quiesce t s
  | Offline t => go_offline t s
  | Defer => if decide (threads s ≠ ∅) then defer s [] else None
  end.

Fixpoint run_pool (es : list pool_event) (s : system) : option system :=
  match es with
  | [] => Some s
  | e :: es' => s ← run_event s e; run_pool es' s
  end.

Lemma run_pool_reachable es s s' :
  pool_reachable some_thread s → run_pool es s = Some s' → pool_reachable some_thread s'.
Proof.
  revert s. induction es as [|e es IH]; intros s Hr Hs; simpl in Hs; [by simplify_eq|].
  apply bind_Some in Hs as (s1 & He & Hs). apply (IH s1); [|done].
  eapply pool_next; [done|]. destruct e; simpl in He; repeat case_decide; try done.
  - by eapply step_join; [apply H|apply H|].
  - by eapply step_quiesce.
  - by eapply step_offline.
  - by eapply step_defer.
Qed.

Definition after (es : list pool_event) : system := default init_system (run_pool es init_system).

Lemma after_reachable es : is_Some (run_pool es init_system) → pool_reachable some_thread (after es).
Proof.
  intros [s Hs]. unfold after. rewrite Hs. by eapply run_pool_reachable, Hs; constructor.
Qed.

(** Two threads; an object is deferred, both pass a quiescent state. *)
Definition two_threads : list pool_event := [Join 0; Join 1; Defer; Quiesce 0; Quiesce 1].

Lemma pool_grace_period_witness :
  pool_reachable some_thread (after two_threads) ∧ released (after two_threads) = [0%nat]
  ∧ waits (after two_threads) !! 0%nat = Some ∅.
Proof.
  assert (H : pool_reachable some_thread (after two_threads)).
  { apply after_reachable. eexists. vm_compute. reflexivity. }
  assert (Hrel : released (after two_threads) = [0%nat]) by (vm_compute; reflexivity).
  split; [exact H|]. split; [exact Hrel|].
  apply (pool_grace_period some_thread _ 0%nat H). rewrite Hrel. left.
Defined.

(** An old and a young object; the last thread has joined after the first. *)
Definition two_objects : list pool_event := [Join 0; Defer; Join 1; Defer].

Lemma pool_releases_all_witness :
  pool_reachable some_thread (after two_objects)
  ∧ (old_objects (pool (after two_objects)), young_objects (pool (after two_objects)))
    = ([0%nat], [1%nat])
  ∧ ∃ s', quiesce_all ([0; 1] ++ [1; 0])%nat (after two_objects) = Some s'
      ∧ ∀ x, x ∈ old_objects (pool (after two_objects)) ∨ x ∈ young_objects (pool (after two_objects)) →
          x ∈ released s'.
Proof.
  assert (H : pool_reachable some_thread (after two_objects)).
  { apply after_reachable. eexists. vm_compute. reflexivity. }
  assert (Hd : dom (threads (after two_objects)) = {[0; 1]}%nat) by (vm_compute; reflexivity).
  split; [exact H|]. split; [vm_compute; reflexivity|].
  destruct (pool_releases_all _ [0; 1]%nat [1; 0]%nat H) as [_ Hr]; [..|exact Hr];
    intros t; rewrite Hd; set_solver.
Defined.

(** The only thread has deferred an object. *)
Definition one_thread : list pool_event := [Join 0; Defer].

Lemma pool_offline_ends_witness :
  pool_reachable some_thread (after one_thread)
  ∧ threads (after one_thread) !! 0%nat = Some (color (pool (after one_thread)))
  ∧ ¬ ∃ fuel r, _ports_thread_offline fuel (pool (after one_thread)) (color (pool (after one_thread)))
       = Some (Some r).
Proof.
  assert (H : pool_reachable some_thread (after one_thread)).
  { apply after_reachable. eexists. vm_compute. reflexivity. }
  assert (Ht : threads (after one_thread) !! 0%nat = Some (color (pool (after one_thread)))).
  { vm_compute. reflexivity. }
  split; [exact H|]. split; [exact Ht|]. intros Hend.
  apply (pool_offline_ends _ _ 0%nat _ H Ht) in Hend as [Hne|Hs]; [by apply Hne|].
  assert (Hsz : size (threads (after one_thread)) = 1%nat) by (vm_compute; reflexivity).
  rewrite Hsz in Hs. lia.
Defined.

(** Objects that are deferred while no thread is in the pool: the second one fails
    the assertion on the old objects, since nobody has released the first. *)
Example pool_defer_without_threads :
  ('(p, _) ← _ports_port_deref_deferred _ports_threadpool_init 0 [];
   _ports_port_deref_deferred p 1 []) = None.
Proof. reflexivity. Qed.
