(* ===== verification/Fat.v ===== *)
(** * The FAT file system: superblock, allocation table, names and times
      (src/fatfs/fat.c, fat.h)

    The superblock and the allocation table are arrays of bytes; an access
    outside of them is [None], as is a failed assertion.  A cluster number is an
    [unsigned long], 64 bits wide.  The cache of a file's cluster chain is in
    [FatChain.v]. *)

From S2P Require Import Prelude.

(** ** Little-endian fields *)
Definition read_word (img : list Z) (addr : Z) : option Z :=
  b0 ← img !z addr; b1 ← img !z (addr + 1);
  Some (b0 + Z.shiftl b1 8).

Definition read_dword (img : list Z) (addr : Z) : option Z :=
  b0 ← img !z addr; b1 ← img !z (addr + 1); b2 ← img !z (addr + 2); b3 ← img !z (addr + 3);
  Some (b0 + Z.shiftl b1 8 + Z.shiftl b2 16 + Z.shiftl b3 24).

(** The [n]th byte of a number. *)
Definition byte_of (v n : Z) : Z := Z.land (Z.shiftr v (8 * n)) 255.

Definition write_word (img : list Z) (addr v : Z) : option (list Z) :=
  img ← storez addr (byte_of v 0) img; storez (addr + 1) (byte_of v 1) img.

Definition write_dword (img : list Z) (addr v : Z) : option (list Z) :=
  img ← storez addr (byte_of v 0) img; img ← storez (addr + 1) (byte_of v 1) img;
  img ← storez (addr + 2) (byte_of v 2) img; storez (addr + 3) (byte_of v 3) img.

(** ** Constants *)
Inductive fat_t := FAT12 | FAT16 | FAT32.

#[export] Instance fat_t_eq_dec : EqDecision fat_t.
Proof. solve_decision. Defined.

Abbreviation FAT12_MAX_NR_OF_CLUSTERS := 4084 (only parsing).
Abbreviation FAT16_MAX_NR_OF_CLUSTERS := 65524 (only parsing).
Abbreviation BOOT_SECTOR_ID := 0xaa55 (only parsing).
Abbreviation FAT_DIR_REC_LEN := 32 (only parsing).
Abbreviation FAT_FREE_CLUSTER := 0 (only parsing).
Abbreviation FAT12_BAD_CLUSTER := 0x0ff7 (only parsing).
Abbreviation FAT16_BAD_CLUSTER := 0xfff7 (only parsing).
Abbreviation FAT32_BAD_CLUSTER := 0x0ffffff7 (only parsing).
Abbreviation FAT_BAD_CLUSTER := FAT32_BAD_CLUSTER (only parsing).
Abbreviation FAT12_EOC := 0x0ff8 (only parsing).
Abbreviation FAT16_EOC := 0xfff8 (only parsing).
Abbreviation FAT32_EOC := 0x0ffffff8 (only parsing).
Abbreviation FAT_EOC := FAT32_EOC (only parsing).

(** ** The superblock *)

(** The reasons for which [fat_read_sblock] ends the program. *)
Inductive sblock_error :=
| no_valid_superblock | bad_bytes_per_sector | bad_sectors_per_cluster | bad_bytes_per_cluster
| store_too_small | no_sectors | bad_block_size | no_reserved_sectors | no_fats
| no_sectors_per_fat | bad_version | no_active_fat.

(** The global variables it sets. *)
Record fat_info := mk_fat_info {
  fat_type : fat_t;
  bytes_per_sector : Z;
  log2_bytes_per_sector : Z;
  sectors_per_cluster : Z;
  bytes_per_cluster : Z;
  log2_bytes_per_cluster : Z;
  sectors_per_fat : Z;
  total_sectors : Z;
  nr_of_root_dir_sectors : Z;
  first_root_dir_byte : Z;
  first_data_sector : Z;
  first_data_byte : Z;
  first_fat_sector : Z;
  nr_of_clusters : Z
}.

(** The switches on sizes. *)
Definition log2_sector (n : Z) : option Z :=
  if decide (n = 512) then Some 9 else if decide (n = 1024) then Some 10
  else if decide (n = 2048) then Some 11 else if decide (n = 4096) then Some 12 else None.

Definition log2_cluster (n : Z) : option Z :=
  if decide (n = 512) then Some 9 else if decide (n = 1024) then Some 10
  else if decide (n = 2048) then Some 11 else if decide (n = 4096) then Some 12
  else if decide (n = 8192) then Some 13 else if decide (n = 16384) then Some 14
  else if decide (n = 32768) then Some 15 else None.

Definition valid_sectors_per_cluster (n : Z) : bool :=
  bool_decide (n ∈ [1; 2; 4; 8; 16; 32; 64; 128]).

(** [a ?: b] *)
Definition or_else (a b : Z) : Z := if decide (a = 0) then b else a.

(** The type by the number of clusters. *)
Definition type_of_clusters (n : Z) : fat_t :=
  if decide (n < FAT12_MAX_NR_OF_CLUSTERS) then FAT12
  else if decide (n < FAT16_MAX_NR_OF_CLUSTERS) then FAT16 else FAT32.

(** [sblock] is the boot sector that was read; the fields are at the offsets the
    comments of [struct boot_sector] give. *)
Definition fat_read_sblock (sblock : list Z) (store_size block_size : Z)
    : option (sblock_error + fat_info) :=
  id ← read_word sblock 510;
  if decide (id ≠ BOOT_SECTOR_ID) then Some (inl no_valid_superblock) else
  bps ← read_word sblock 11;
  match log2_sector bps with
  | None => Some (inl bad_bytes_per_sector)
  | Some log2_bps =>
  spc ← sblock !z 13;
  if negb (valid_sectors_per_cluster spc) then Some (inl bad_sectors_per_cluster) else
  let bpc := u64 (Z.shiftl spc log2_bps) in
  match log2_cluster bpc with
  | None => Some (inl bad_bytes_per_cluster)
  | Some log2_bpc =>
  total_16 ← read_word sblock 19;
  total_32 ← read_word sblock 32;
  let total := or_else total_16 total_32 in
  if decide (u64 store_size < u64 (total * bps)) then Some (inl store_too_small) else
  if decide (total = 0) then Some (inl no_sectors) else
  if decide (Z.land bps (u64 (block_size - 1)) ≠ 0) then Some (inl bad_block_size) else
  reserved ← read_word sblock 14;
  if decide (reserved = 0) then Some (inl no_reserved_sectors) else
  nr_of_fat_tables ← sblock !z 16;
  if decide (nr_of_fat_tables = 0) then Some (inl no_fats) else
  spf_16 ← read_word sblock 22;
  spf_32 ← read_word sblock 36;
  let spf := or_else spf_16 spf_32 in
  if decide (spf = 0) then Some (inl no_sectors_per_fat) else
  root_dirents ← read_word sblock 17;
  let root_sectors := u64 (u32 (u32 (root_dirents * FAT_DIR_REC_LEN) - 1) / bps + 1) in
  let root_byte := u64 (Z.shiftl (u64 (reserved + u64 (nr_of_fat_tables * spf))) log2_bps) in
  let data_sector := u64 (Z.shiftr root_byte log2_bps + root_sectors) in
  let data_byte := u64 (Z.shiftl data_sector log2_bps) in
  let clusters := u64 (total - data_sector) / spc in
  let type := type_of_clusters clusters in
  version ← read_word sblock 42;
  flags ← read_word sblock 40;
  if decide (type = FAT32 ∧ version ≠ 0) then Some (inl bad_version) else
  let active := Z.land flags 0x0f in
  if decide (type = FAT32 ∧ Z.land flags (Z.shiftl 1 7) ≠ 0) then
    if decide (nr_of_fat_tables < active) then Some (inl no_active_fat) else
    Some (inr (mk_fat_info type bps log2_bps spc bpc log2_bpc spf total root_sectors root_byte
                 data_sector data_byte (u64 (u64 (active * spf) + reserved)) clusters))
  else
    Some (inr (mk_fat_info type bps log2_bps spc bpc log2_bpc spf total root_sectors root_byte
                 data_sector data_byte reserved clusters))
  end end.

(** ** The allocation table *)
Section table.
Context (type : fat_t) (nr : Z).

Definition is_data_cluster (cluster : Z) : Prop := 2 ≤ cluster < u64 (nr + 2).
#[export] Instance is_data_cluster_dec cluster : Decision (is_data_cluster cluster).
Proof. unfold is_data_cluster. apply _. Defined.

(** The marks of the table for a bad cluster and the end of a chain. *)
Definition to_entry (bad eoc next_cluster : Z) : Z :=
  if decide (next_cluster = FAT_BAD_CLUSTER) then bad
  else if decide (next_cluster = FAT_EOC) then eoc else next_cluster.

Definition of_entry (bad eoc entry : Z) : Z :=
  if decide (entry = bad) then FAT_BAD_CLUSTER
  else if decide (eoc ≤ entry) then FAT_EOC else entry.

Definition fat_write_next_cluster (fat_image : list Z) (cluster next_cluster : Z)
    : option (list Z) :=
  if decide (is_data_cluster cluster) then
    match type with
    | FAT12 =>
        let next_cluster := to_entry FAT12_BAD_CLUSTER FAT12_EOC next_cluster in
        let fat_entry_offset := u64 (cluster * 3) / 2 in
        data ← read_word fat_image fat_entry_offset;
        let data :=
          if decide (Z.land cluster 1 ≠ 0)
          then Z.lor (Z.land data 0xf) (u64 (Z.shiftl (Z.land next_cluster 0xfff) 4))
          else Z.lor (Z.land data 0xf000) (Z.land next_cluster 0xfff) in
        write_word fat_image fat_entry_offset (u32 data)
    | FAT16 =>
        let next_cluster := to_entry FAT16_BAD_CLUSTER FAT16_EOC next_cluster in
        write_word fat_image (u64 (cluster * 2)) (u32 next_cluster)
    | FAT32 =>
        let next_cluster := to_entry FAT32_BAD_CLUSTER FAT32_EOC next_cluster in
        write_dword fat_image (u64 (cluster * 4)) (u32 (Z.land next_cluster 0x0fffffff))
    end
  else None.

Definition fat_get_next_cluster (fat_image : list Z) (cluster : Z) : option Z :=
  if decide (is_data_cluster cluster) then
    match type with
    | FAT12 =>
        data ← read_word fat_image (u64 (cluster * 3) / 2);
        let next_cluster :=
          if decide (Z.land cluster 1 ≠ 0) then Z.shiftr data 4 else Z.land data 0xfff in
        Some (of_entry FAT12_BAD_CLUSTER FAT12_EOC next_cluster)
    | FAT16 =>
        data ← read_word fat_image (u64 (cluster * 2));
        Some (of_entry FAT16_BAD_CLUSTER FAT16_EOC data)
    | FAT32 =>
        data ← read_dword fat_image (u64 (cluster * 4));
        Some (of_entry FAT32_BAD_CLUSTER FAT32_EOC (Z.land data 0x0fffffff))
    end
  else None.

(** The search of [fat_allocate_cluster] for a free cluster: what was found
    ([FAT_FREE_CLUSTER] for nothing) and the new [next_free_cluster]. *)
Fixpoint find_free (fuel : nat) (fat_image : list Z) (next_free old : Z) (wrapped : bool)
    : option (Z * Z) :=
  match fuel with
  | O => None
  | S fuel' =>
      content ← fat_get_next_cluster fat_image next_free;
      let found := if decide (content = FAT_FREE_CLUSTER) then next_free else FAT_FREE_CLUSTER in
      let '(next_free, wrapped) :=
        if decide (u64 (next_free + 1) = u64 (nr + 2)) then (2, true)
        else (u64 (next_free + 1), wrapped) in
      if decide (found = FAT_FREE_CLUSTER ∧ ¬ (wrapped = true ∧ next_free = old))
      then find_free fuel' fat_image next_free old wrapped
      else Some (found, next_free)
  end.

(** The image, [next_free_cluster] and the cluster, if there was one. *)
Definition fat_allocate_cluster (fat_image : list Z) (next_free content : Z)
    : option (error_t * list Z * Z * option Z) :=
  if decide (content ≠ FAT_FREE_CLUSTER) then
    '(found, next_free') ← find_free (S (Z.to_nat nr)) fat_image next_free next_free false;
    if decide (found ≠ FAT_FREE_CLUSTER) then
      fat_image ← fat_write_next_cluster fat_image found content;
      Some (E0, fat_image, next_free', Some found)
    else Some (ENOSPC, fat_image, next_free', None)
  else None.

(** The loop over the table, from [cluster] for [n] clusters. *)
Fixpoint count_free (n : nat) (fat_image : list Z) (cluster : Z) : option Z :=
  match n with
  | O => Some 0
  | S n' =>
      next ← fat_get_next_cluster fat_image cluster;
      rest ← count_free n' fat_image (cluster + 1);
      Some ((if decide (next = FAT_FREE_CLUSTER) then 1 else 0) + rest)
  end.

Definition fat_get_freespace (fat_image : list Z) : option Z :=
  count_free (Z.to_nat nr) fat_image 2.
End table.

(** ** Names *)

(** [while (npos < 7 && name[npos+1] == ' ') npos++;] *)
Fixpoint skip_spaces (fuel : nat) (name : list Z) (npos : Z) : option Z :=
  match fuel with
  | O => None
  | S fuel' =>
      if decide (npos < 7) then
        c ← name !z (npos + 1);
        if decide (c = 32) then skip_spaces fuel' name (npos + 1) else Some npos
      else Some npos
  end.

(** The loop over the name; [file] is what was written, up to [fpos]. *)
Fixpoint to_unix_loop (fuel : nat) (name : list Z) (npos : Z) (file : list Z) (ext : bool)
    : option (list Z * bool) :=
  match fuel with
  | O => None
  | S fuel' =>
      if decide (npos < 11) then
        c ← name !z npos;
        if decide (c = 32) then
          if ext then Some (file, ext)
          else npos ← skip_spaces 9 name npos;
               to_unix_loop fuel' name (npos + 1) (file ++ [46]) true
        else if decide (npos = 7) then to_unix_loop fuel' name (npos + 1) (file ++ [c] ++ [46]) true
        else to_unix_loop fuel' name (npos + 1) (file ++ [c]) ext
      else Some (file, ext)
  end.

Definition fat_to_unix_filename (name : list Z) : option (list Z) :=
  '(file, ext) ← to_unix_loop 12 name 0 [] false;
  if ext && bool_decide (last file = Some 46)
  then Some (take (length file - 1) file ++ [0])
  else Some (file ++ [0]).

(** [toupper] in the C locale *)
Definition toupper (c : Z) : Z := if decide (97 ≤ c ≤ 122) then c - 32 else c.

(** [while (fp < n) fn[fp++] = ' ';] *)
Definition pad (n : nat) (fn : list Z) : list Z := fn ++ replicate (n - length fn) 32.

(** [while (un[up++] != '.' && up < ul);] from position [un + up]: the new [up]. *)
Fixpoint skip_to_dot (fuel : nat) (mem : list Z) (un up ul : Z) : option Z :=
  match fuel with
  | O => None
  | S fuel' =>
      c ← mem !z (un + up);
      if decide (c ≠ 46 ∧ up + 1 < ul) then skip_to_dot fuel' mem un (up + 1) ul
      else Some (up + 1)
  end.

(** The loop that fills [fn]; [un] is the pointer into the memory [mem] of the
    name, which the loop moves, [up] and [ul] the indices. *)
Fixpoint from_unix_loop (fuel : nat) (mem : list Z) (un up ul : Z) (fn : list Z) (ext : bool)
    : option (list Z) :=
  match fuel with
  | O => None
  | S fuel' =>
      if decide (11 ≤ zlen fn) then Some fn
      else if decide (up = ul) then from_unix_loop fuel' mem un up ul (pad 11 fn) ext
      else
        c ← mem !z (un + up);
        if negb ext then
          if decide (c = 46) then from_unix_loop fuel' mem (un + 1) up ul (pad 8 fn) true
          else if decide (zlen fn = 8) then
            up ← skip_to_dot (S (length mem)) mem un up ul;
            from_unix_loop fuel' mem un up ul fn true
          else
            c ← mem !z (un + ul);
            from_unix_loop fuel' mem un up (ul + 1) (fn ++ [toupper c]) ext
        else if decide (c = 46) then from_unix_loop fuel' mem un up ul (pad 11 fn) ext
        else from_unix_loop fuel' mem un (up + 1) ul (fn ++ [toupper c]) ext
  end.

Definition fat_from_unix_filename (mem : list Z) (ul : Z) : option (list Z) :=
  from_unix_loop 32 mem 0 0 ul [] false.

(** ** Times

    [timegm] and [gmtime] convert between a count of seconds and the fields of
    [struct tm]; these are the conversions of the fields. *)
Record tm := mk_tm { tm_year : Z; tm_mon : Z; tm_mday : Z; tm_hour : Z; tm_min : Z; tm_sec : Z }.

Definition fat_to_tm (date time : list Z) : option tm :=
  d ← read_word date 0; t ← read_word time 0;
  Some (mk_tm (Z.shiftr d 9 + 80) (Z.shiftr (Z.land d 0x1ff) 5 - 1) (Z.land d 0x1f)
          (Z.shiftr t 11) (Z.shiftr (Z.land t 0x7ff) 5) (Z.land t 0x1f)).

Definition fat_from_tm (tm : tm) (date time : list Z) : option (list Z * list Z) :=
  date ← write_word date 0
    (u32 (Z.lor (Z.lor (tm_mday tm) (Z.shiftl (tm_mon tm + 1) 5)) (Z.shiftl (tm_year tm - 80) 9)));
  time ← write_word time 0
    (u32 (Z.lor (Z.lor (Z.shiftl (tm_hour tm) 11) (Z.shiftl (tm_min tm) 5)) (Z.shiftr (tm_sec tm) 1)));
  Some (date, time).

Section epoch.
Context (timegm : tm → Z) (gmtime : Z → tm).

Definition fat_to_epoch (date time : list Z) : option Z := timegm <$> fat_to_tm date time.
Definition fat_from_epoch (date time : list Z) (tp : Z) : option (list Z * list Z) :=
  fat_from_tm (gmtime tp) date time.
End epoch.

(** ** Words of an image *)
Definition bytes_ok (img : list Z) : Prop := Forall (λ b, 0 ≤ b < 256) img.

Lemma byte_of_mod v n : 0 ≤ n → byte_of v n = v / 2 ^ (8 * n) mod 256.
Proof.
  intros Hn. unfold byte_of. rewrite Z.shiftr_div_pow2 by lia.
  change 255 with (2 ^ 8 - 1). by rewrite land_mask by lia.
Qed.

Lemma byte_of_bounds v n : 0 ≤ n → 0 ≤ byte_of v n < 256.
Proof. intros. rewrite byte_of_mod by done. apply Z.mod_pos_bound. lia. Qed.

Lemma read_word_eq img a b0 b1 :
  img !z a = Some b0 → img !z (a + 1) = Some b1 → read_word img a = Some (b0 + 256 * b1).
Proof.
  intros H0 H1. unfold read_word. rewrite H0, H1. simpl. f_equal.
  rewrite Z.shiftl_mul_pow2 by lia. lia.
Qed.

Lemma bytes_lookup img a : bytes_ok img → 0 ≤ a < zlen img → ∃ b, img !z a = Some b ∧ 0 ≤ b < 256.
Proof.
  intros Hb Ha. destruct (lookupz_is_Some img a Ha) as [b Hl]. exists b. split; [done|].
  apply lookupz_elem_of in Hl. unfold bytes_ok in Hb. rewrite Forall_forall in Hb. by apply Hb.
Qed.

Lemma storez_ok img a b :
  bytes_ok img → 0 ≤ a < zlen img → 0 ≤ b < 256 →
  storez a b img = Some (updz a b img) ∧ zlen (updz a b img) = zlen img ∧ bytes_ok (updz a b img).
Proof.
  intros Hb Ha Hv. unfold storez. rewrite decide_True by done. split; [done|].
  rewrite length_updz. split; [done|]. unfold bytes_ok, updz. by apply Forall_insert.
Qed.

Lemma write_word_ok img a v :
  bytes_ok img → 0 ≤ a → a + 1 < zlen img →
  ∃ img', write_word img a v = Some img' ∧ zlen img' = zlen img ∧ bytes_ok img'
    ∧ ∀ i, img' !z i = if decide (i = a) then Some (byte_of v 0)
                       else if decide (i = a + 1) then Some (byte_of v 1) else img !z i.
Proof.
  intros Hb Ha Hl. unfold write_word.
  destruct (storez_ok img a (byte_of v 0)) as (-> & Hl0 & Hb0); [done|lia|by apply byte_of_bounds|]. simpl.
  destruct (storez_ok (updz a (byte_of v 0) img) (a + 1) (byte_of v 1)) as (-> & Hl1 & Hb1);
    [done|lia|by apply byte_of_bounds|].
  eexists. split; [done|]. split; [lia|]. split; [done|]. intros i.
  rewrite !lookupz_updz by (rewrite ?length_updz; lia). repeat case_decide; try done; lia.
Qed.

Lemma write_dword_ok img a v :
  bytes_ok img → 0 ≤ a → a + 3 < zlen img →
  ∃ img', write_dword img a v = Some img' ∧ zlen img' = zlen img ∧ bytes_ok img'
    ∧ (∀ i, a ≤ i < a + 4 → img' !z i = Some (byte_of v (i - a)))
    ∧ (∀ i, ¬ a ≤ i < a + 4 → img' !z i = img !z i).
Proof.
  intros Hb Ha Hl. unfold write_dword.
  destruct (storez_ok img a (byte_of v 0)) as (-> & Hl0 & Hb0); [done|lia|by apply byte_of_bounds|]. simpl.
  edestruct (storez_ok (updz a (byte_of v 0) img) (a + 1) (byte_of v 1)) as (-> & Hl1 & Hb1);
    [done|lia|by apply byte_of_bounds|]. simpl.
  edestruct (storez_ok (updz (a + 1) (byte_of v 1) (updz a (byte_of v 0) img)) (a + 2) (byte_of v 2))
    as (-> & Hl2 & Hb2); [done|lia|by apply byte_of_bounds|]. simpl.
  edestruct (storez_ok (updz (a + 2) (byte_of v 2) (updz (a + 1) (byte_of v 1) (updz a (byte_of v 0) img)))
    (a + 3) (byte_of v 3)) as (-> & Hl3 & Hb3); [done|lia|by apply byte_of_bounds|].
  eexists. split; [done|]. split; [lia|]. split; [done|].
  split; intros i Hi; rewrite !lookupz_updz by (rewrite ?length_updz; lia); repeat case_decide; try lia;
    try done; do 2 f_equal; lia.
Qed.

(** ** Entries of the table *)
Lemma lor_add a b k : 0 ≤ k → a mod 2 ^ k = 0 → 0 ≤ b < 2 ^ k → Z.lor a b = a + b.
Proof.
  intros Hk Ha Hb. assert (Hz : Z.land a b = 0).
  { apply Z.bits_inj'. intros i Hi. rewrite Z.land_spec, Z.bits_0.
    destruct (decide (i < k)) as [Hlt|].
    - rewrite <-(Z.mod_pow2_bits_low a k i), Ha, Z.bits_0 by lia. done.
    - rewrite <-(Z.mod_small b (2 ^ k)) by done. by rewrite Z.mod_pow2_bits_high, andb_false_r by lia. }
  by rewrite Z.add_nocarry_lxor, Z.lxor_lor.
Qed.

Lemma land_low x n m : 0 ≤ n → m = 2 ^ n - 1 → Z.land x m = x mod 2 ^ n.
Proof. intros Hn ->. by apply land_mask. Qed.

(** [data & 0xf000] *)
Lemma land_high4 a : 0 ≤ a < 2 ^ 16 → Z.land a 0xf000 = a / 4096 * 4096.
Proof.
  intros Ha. change 0xf000 with (Z.shiftl 15 12).
  assert (Hs : Z.land a (Z.shiftl 15 12) = Z.shiftl (Z.land (Z.shiftr a 12) 15) 12).
  { apply Z.bits_inj'. intros i Hi. rewrite Z.land_spec, !Z.shiftl_spec, Z.land_spec by done.
    destruct (decide (i < 12)).
    - by rewrite (Z.testbit_neg_r 15), !andb_false_r by lia.
    - rewrite Z.shiftr_spec by lia. by replace (i - 12 + 12) with i by lia. }
  rewrite Hs, Z.shiftr_div_pow2, Z.shiftl_mul_pow2 by lia. change (2 ^ 12) with 4096.
  rewrite (land_low _ 4) by done. rewrite Z.mod_small; [done|]. split; [apply Z.div_pos; lia|].
  apply Z.div_lt_upper_bound; lia.
Qed.

Section entries.
Context (type : fat_t) (nr : Z).

(** The first byte of an entry, and the table's size. *)
Definition entry_offset (c : Z) : Z :=
  match type with FAT12 => c * 3 / 2 | FAT16 => c * 2 | FAT32 => c * 4 end.
Definition entry_bytes : Z := match type with FAT32 => 4 | _ => 2 end.
Definition entry_bits : Z := match type with FAT12 => 12 | FAT16 => 16 | FAT32 => 28 end.
Definition bad_mark : Z :=
  match type with FAT12 => FAT12_BAD_CLUSTER | FAT16 => FAT16_BAD_CLUSTER | FAT32 => FAT32_BAD_CLUSTER end.
Definition eoc_mark : Z :=
  match type with FAT12 => FAT12_EOC | FAT16 => FAT16_EOC | FAT32 => FAT32_EOC end.

Record table_ok (img : list Z) : Prop := {
  tb_bytes : bytes_ok img;
  tb_nr : 0 ≤ nr < 2 ^ 32;
  tb_room : entry_offset (nr + 1) + entry_bytes ≤ zlen img
}.

(** The entry as it is stored. *)
Definition raw_entry (img : list Z) (c : Z) : option Z :=
  match type with
  | FAT12 =>
      b0 ← img !z (c * 3 / 2); b1 ← img !z (c * 3 / 2 + 1);
      Some (if decide (c mod 2 = 0) then b0 + 256 * (b1 mod 16) else b0 / 16 + 16 * b1)
  | FAT16 => b0 ← img !z (c * 2); b1 ← img !z (c * 2 + 1); Some (b0 + 256 * b1)
  | FAT32 =>
      b0 ← img !z (c * 4); b1 ← img !z (c * 4 + 1); b2 ← img !z (c * 4 + 2); b3 ← img !z (c * 4 + 3);
      Some (b0 + 256 * b1 + 65536 * b2 + 16777216 * (b3 mod 16))
  end.

Lemma data_cluster c : 0 ≤ nr < 2 ^ 32 → is_data_cluster nr c ↔ 2 ≤ c < nr + 2.
Proof. intros Hn. unfold is_data_cluster. rewrite u64_id by lia. done. Qed.

Lemma entry_in_table img c :
  table_ok img → 2 ≤ c < nr + 2 → 0 ≤ entry_offset c ∧ entry_offset c + entry_bytes ≤ zlen img.
Proof.
  intros Hok Hc. pose proof (tb_room _ Hok) as Hr. unfold entry_offset, entry_bytes in *.
  destruct type; try lia. split; [apply Z.div_pos; lia|].
  assert (c * 3 / 2 ≤ (nr + 1) * 3 / 2); [apply Z.div_le_mono; lia|lia].
Qed.

Lemma get_raw img c :
  table_ok img → 2 ≤ c < nr + 2 →
  ∃ e, raw_entry img c = Some e ∧ 0 ≤ e < 2 ^ entry_bits
    ∧ fat_get_next_cluster type nr img c = Some (of_entry bad_mark eoc_mark e).
Proof.
  intros Hok Hc. destruct (entry_in_table img c Hok Hc) as [H0 Hl].
  pose proof (tb_bytes _ Hok) as Hb. pose proof (tb_nr _ Hok) as Hn.
  unfold fat_get_next_cluster. rewrite decide_True by by apply data_cluster.
  unfold raw_entry, entry_offset, entry_bytes, entry_bits, bad_mark, eoc_mark in *. destruct type.
  - rewrite u64_id by lia. destruct (bytes_lookup img (c * 3 / 2)) as (b0 & E0 & B0); [done|lia|].
    destruct (bytes_lookup img (c * 3 / 2 + 1)) as (b1 & E1 & B1); [done|lia|].
    rewrite (read_word_eq _ _ b0 b1), E0, E1 by done. simpl. eexists. split; [done|].
    rewrite (land_low c 1) by done. rewrite (land_low _ 12) by done. rewrite Z.shiftr_div_pow2 by lia.
    change (2 ^ 4) with 16. change (2 ^ 12) with 4096. change (2 ^ 1) with 2.
    destruct (decide (c mod 2 = 0)) as [He|He].
    + rewrite decide_False by (intros H; by apply H). split; [pose proof (Z.mod_pos_bound b1 16); lia|].
      do 2 f_equal. symmetry. apply (Z.mod_unique_pos _ _ (b1 / 16)); [pose proof (Z.mod_pos_bound b1 16); lia|].
      pose proof (Z.div_mod b1 16). lia.
    + rewrite decide_True by done. assert (0 ≤ b0 / 16 < 16) by (split; [apply Z.div_pos; lia|apply Z.div_lt_upper_bound; lia]).
      split; [lia|]. do 2 f_equal. replace (b0 + 256 * b1) with (b0 + (16 * b1) * 16) by lia.
      rewrite Z.div_add by lia. done.
  - rewrite u64_id by lia. destruct (bytes_lookup img (c * 2)) as (b0 & E0 & B0); [done|lia|].
    destruct (bytes_lookup img (c * 2 + 1)) as (b1 & E1 & B1); [done|lia|].
    rewrite (read_word_eq _ _ b0 b1), E0, E1 by done. simpl. eexists. split; [done|]. split; [lia|done].
  - rewrite u64_id by lia. destruct (bytes_lookup img (c * 4)) as (b0 & E0 & B0); [done|lia|].
    destruct (bytes_lookup img (c * 4 + 1)) as (b1 & E1 & B1); [done|lia|].
    destruct (bytes_lookup img (c * 4 + 2)) as (b2 & E2 & B2); [done|lia|].
    destruct (bytes_lookup img (c * 4 + 3)) as (b3 & E3 & B3); [done|lia|].
    unfold read_dword. rewrite E0, E1, E2, E3. simpl. eexists. split; [done|].
    pose proof (Z.mod_pos_bound b3 16). split; [lia|]. do 2 f_equal.
    rewrite (land_low _ 28), !Z.shiftl_mul_pow2 by lia. symmetry.
    apply (Z.mod_unique_pos _ _ (b3 / 16)); [lia|]. pose proof (Z.div_mod b3 16). lia.
Qed.

(** ** Writing an entry *)
Definition stored (next_cluster : Z) : Z :=
  to_entry bad_mark eoc_mark next_cluster mod 2 ^ entry_bits.

(** [img'] is [img] with the entry of [c] set to [e]. *)
Definition entry_set (img : list Z) (c e : Z) (img' : list Z) : Prop :=
  table_ok img' ∧ zlen img' = zlen img ∧ raw_entry img' c = Some e
  ∧ ∀ c', 2 ≤ c' → c' ≠ c → raw_entry img' c' = raw_entry img c'.
End entries.

(** Half a byte and a byte of two entries of a FAT12. *)
Lemma nibbles_even data v : 0 ≤ data < 2 ^ 16 → 0 ≤ v < 4096 →
  Z.lor (Z.land data 0xf000) v = data / 4096 * 4096 + v.
Proof.
  intros Hd Hv. rewrite land_high4 by done. apply (lor_add _ _ 12); [lia| |done].
  change (2 ^ 12) with 4096. apply Z.mod_mul. lia.
Qed.

Lemma nibbles_odd data v : 0 ≤ v < 4096 →
  Z.lor (Z.land data 0xf) (u64 (Z.shiftl v 4)) = data mod 16 + v * 16.
Proof.
  intros Hv. rewrite (land_low _ 4) by done. rewrite Z.shiftl_mul_pow2, u64_id by lia.
  rewrite Z.lor_comm. rewrite (lor_add _ _ 4); [change (2 ^ 4) with 16; lia|lia| |].
  - change (2 ^ 4) with 16. apply Z.mod_mul. lia.
  - apply Z.mod_pos_bound. lia.
Qed.

Lemma table_ok_same type nr img img' :
  table_ok type nr img → bytes_ok img' → zlen img' = zlen img → table_ok type nr img'.
Proof. intros Hok Hb Hl. constructor; [done|apply Hok|]. rewrite Hl. apply Hok. Qed.

Ltac div_lia := Z.div_mod_to_equations; lia.

(** The two bytes that are written. *)
Lemma word_even b0 b1 v :
  0 ≤ b0 < 256 → 0 ≤ b1 < 256 → 0 ≤ v < 4096 →
  let w := u32 (Z.lor (Z.land (b0 + 256 * b1) 0xf000) v) in
  byte_of w 0 = v mod 256 ∧ byte_of w 1 = b1 / 16 * 16 + v / 256.
Proof.
  intros H0 H1 Hv w. unfold w. rewrite nibbles_even by lia.
  assert ((b0 + 256 * b1) / 4096 = b1 / 16) as -> by div_lia.
  rewrite u32_id by div_lia. rewrite !byte_of_mod by lia. simpl. rewrite Z.div_1_r.
  change (Z.pow_pos 2 8) with 256. split; div_lia.
Qed.

Lemma word_odd b0 b1 v :
  0 ≤ b0 < 256 → 0 ≤ b1 < 256 → 0 ≤ v < 4096 →
  let w := u32 (Z.lor (Z.land (b0 + 256 * b1) 0xf) (u64 (Z.shiftl v 4))) in
  byte_of w 0 = b0 mod 16 + v mod 16 * 16 ∧ byte_of w 1 = v / 16.
Proof.
  intros H0 H1 Hv w. unfold w. rewrite nibbles_odd by lia.
  assert ((b0 + 256 * b1) mod 16 = b0 mod 16) as -> by div_lia.
  rewrite u32_id by div_lia. rewrite !byte_of_mod by lia. simpl. rewrite Z.div_1_r.
  change (Z.pow_pos 2 8) with 256. split; div_lia.
Qed.

(** An entry of a FAT12 that shares no byte with, or half a byte of, the pair
    of bytes at [c]. *)
Lemma raw_entry12_other img img' c c' b0 b1 d0 d1 :
  2 ≤ c' → c' ≠ c → 0 ≤ c →
  img !z (c * 3 / 2) = Some b0 → img !z (c * 3 / 2 + 1) = Some b1 →
  (∀ i, img' !z i = if decide (i = c * 3 / 2) then Some d0
                    else if decide (i = c * 3 / 2 + 1) then Some d1 else img !z i) →
  (c mod 2 = 0 → d1 / 16 = b1 / 16) → (c mod 2 ≠ 0 → d0 mod 16 = b0 mod 16) →
  raw_entry FAT12 img' c' = raw_entry FAT12 img c'.
Proof.
  intros Hc' Hne Hc E0 E1 Hi He Ho. simpl. rewrite !Hi.
  destruct (decide (c' * 3 / 2 = c * 3 / 2)) as [Hq|_]; [exfalso; div_lia|].
  destruct (decide (c' * 3 / 2 = c * 3 / 2 + 1)) as [Hq|Hq].
  - rewrite !decide_False by lia. rewrite Hq, E1. simpl.
    destruct (img !z (c * 3 / 2 + 1 + 1)) as [b2|]; simpl; [|done]. f_equal.
    rewrite !decide_False by div_lia. by rewrite He by div_lia.
  - destruct (img !z (c' * 3 / 2)) as [a0|]; simpl; [|done].
    destruct (decide (c' * 3 / 2 + 1 = c * 3 / 2)) as [Hq'|Hq'].
    + rewrite Hq', E0. simpl. f_equal. rewrite !decide_True by div_lia. by rewrite Ho by div_lia.
    + by rewrite decide_False by div_lia.
Qed.

Lemma two_bytes (img img' : list Z) a d0 d1 :
  (∀ i, img' !z i = if decide (i = a) then Some d0
                    else if decide (i = a + 1) then Some d1 else img !z i) →
  img' !z a = Some d0 ∧ img' !z (a + 1) = Some d1.
Proof. intros Hi. by rewrite !Hi, decide_True, decide_False, decide_True by lia. Qed.

Lemma write_entry12 nr img c v :
  table_ok FAT12 nr img → 2 ≤ c < nr + 2 → 0 ≤ v < 4096 →
  ∃ img', (data ← read_word img (c * 3 / 2);
           write_word img (c * 3 / 2)
             (u32 (if decide (Z.land c 1 ≠ 0)
                   then Z.lor (Z.land data 0xf) (u64 (Z.shiftl v 4))
                   else Z.lor (Z.land data 0xf000) v))) = Some img'
    ∧ entry_set FAT12 nr img c v img'.
Proof.
  intros Hok Hc Hv. destruct (entry_in_table FAT12 nr img c Hok Hc) as [H0 Hl]. simpl in H0, Hl.
  pose proof (tb_bytes _ _ _ Hok) as Hb.
  destruct (bytes_lookup img (c * 3 / 2)) as (b0 & E0 & B0); [done|lia|].
  destruct (bytes_lookup img (c * 3 / 2 + 1)) as (b1 & E1 & B1); [done|lia|].
  rewrite (read_word_eq _ _ b0 b1) by done. simpl. rewrite (land_low c 1) by done. change (2 ^ 1) with 2.
  destruct (decide (c mod 2 ≠ 0)) as [Hodd|Heven].
  - destruct (word_odd b0 b1 v B0 B1 Hv) as [W0 W1]. set (w := u32 _) in *.
    destruct (write_word_ok img (c * 3 / 2) w) as (img' & Hw & Hl' & Hb' & Hi); [done|lia..|].
    exists img'. split; [done|]. split; [by eapply table_ok_same|]. split; [done|]. split.
    + simpl. destruct (two_bytes _ _ _ _ _ Hi) as [-> ->]. simpl.
      rewrite decide_False by done. f_equal. rewrite W0, W1. div_lia.
    + intros c' Hc' Hne. eapply raw_entry12_other; [done|done|lia|done..|lia|]. intros _. rewrite W0. div_lia.
  - destruct (word_even b0 b1 v B0 B1 Hv) as [W0 W1]. set (w := u32 _) in *.
    destruct (write_word_ok img (c * 3 / 2) w) as (img' & Hw & Hl' & Hb' & Hi); [done|lia..|].
    exists img'. split; [done|]. split; [by eapply table_ok_same|]. split; [done|]. split.
    + simpl. destruct (two_bytes _ _ _ _ _ Hi) as [-> ->]. simpl.
      rewrite decide_True by lia. f_equal. rewrite W0, W1. div_lia.
    + intros c' Hc' Hne. eapply raw_entry12_other; [done|done|lia|done..| |lia]. intros _. rewrite W1. div_lia.
Qed.

Lemma write_entry16 nr img c v :
  table_ok FAT16 nr img → 2 ≤ c < nr + 2 →
  ∃ img', write_word img (c * 2) v = Some img' ∧ entry_set FAT16 nr img c (v mod 2 ^ 16) img'.
Proof.
  intros Hok Hc. destruct (entry_in_table FAT16 nr img c Hok Hc) as [H0 Hl]. simpl in H0, Hl.
  destruct (write_word_ok img (c * 2) v) as (img' & Hw & Hl' & Hb' & Hi); [apply Hok|lia..|].
  exists img'. split; [done|]. split; [by eapply table_ok_same|]. split; [done|]. split.
  - simpl. destruct (two_bytes _ _ _ _ _ Hi) as [-> ->]. simpl. f_equal.
    rewrite !byte_of_mod by lia. change (2 ^ (8 * 0)) with 1. change (2 ^ (8 * 1)) with 256.
    change (2 ^ 16) with 65536. div_lia.
  - intros c' Hc' Hne. simpl. by rewrite !Hi, !decide_False by lia.
Qed.

Lemma write_entry32 nr img c v :
  table_ok FAT32 nr img → 2 ≤ c < nr + 2 → 0 ≤ v < 2 ^ 28 →
  ∃ img', write_dword img (c * 4) v = Some img' ∧ entry_set FAT32 nr img c v img'.
Proof.
  intros Hok Hc Hv. destruct (entry_in_table FAT32 nr img c Hok Hc) as [H0 Hl]. simpl in H0, Hl.
  destruct (write_dword_ok img (c * 4) v) as (img' & Hw & Hl' & Hb' & Hi & Ho); [apply Hok|lia..|].
  exists img'. split; [done|]. split; [by eapply table_ok_same|]. split; [done|]. split.
  - simpl. rewrite !Hi by lia. simpl. f_equal.
    replace (c * 4 - c * 4) with 0 by lia. replace (c * 4 + 1 - c * 4) with 1 by lia.
    replace (c * 4 + 2 - c * 4) with 2 by lia. replace (c * 4 + 3 - c * 4) with 3 by lia.
    rewrite !byte_of_mod by lia. change (2 ^ (8 * 0)) with 1. change (2 ^ (8 * 1)) with 256.
    change (2 ^ (8 * 2)) with 65536. change (2 ^ (8 * 3)) with 16777216. change (2 ^ 28) with 268435456 in Hv.
    div_lia.
  - intros c' Hc' Hne. simpl. by rewrite !Ho by lia.
Qed.

Lemma write_next_ok type nr img c n :
  table_ok type nr img → 2 ≤ c < nr + 2 → 0 ≤ n →
  ∃ img', fat_write_next_cluster type nr img c n = Some img'
    ∧ entry_set type nr img c (stored type n) img'.
Proof.
  intros Hok Hc Hn. pose proof (tb_nr _ _ _ Hok) as Hnr. unfold fat_write_next_cluster.
  rewrite decide_True by by apply data_cluster. unfold stored, bad_mark, eoc_mark, entry_bits.
  destruct type.
  - set (e := to_entry _ _ n). rewrite u64_id by lia. rewrite <-(land_low e 12 0xfff) by done.
    apply write_entry12; [done..|]. rewrite (land_low e 12) by done. apply Z.mod_pos_bound. lia.
  - set (e := to_entry _ _ n). rewrite u64_id by lia.
    destruct (write_entry16 nr img c (u32 e) Hok Hc) as (img' & Hw & Hs). exists img'. split; [done|].
    assert (u32 e mod 2 ^ 16 = e mod 2 ^ 16) as <-; [|done]. unfold u32.
    change (2 ^ 32) with (2 ^ 16 * 2 ^ 16). by rewrite Z.rem_mul_r, Z.mul_comm, Z.mod_add, Z.mod_mod by lia.
  - set (e := to_entry _ _ n). rewrite u64_id by lia. rewrite (land_low e 28) by done.
    pose proof (Z.mod_pos_bound e (2 ^ 28)). rewrite u32_id by lia. apply write_entry32; [done..|lia].
Qed.

(** The links a table of the type can hold. *)
Definition link_ok (type : fat_t) (n : Z) : Prop :=
  0 ≤ n < bad_mark type ∨ n = FAT_BAD_CLUSTER ∨ n = FAT_EOC.
#[export] Instance link_ok_dec type n : Decision (link_ok type n).
Proof. unfold link_ok. apply _. Defined.

Lemma of_stored type n :
  link_ok type n → of_entry (bad_mark type) (eoc_mark type) (stored type n) = n.
Proof.
  intros Hn. unfold link_ok, stored, of_entry, to_entry, bad_mark, eoc_mark, entry_bits in *.
  destruct type; destruct Hn as [Hn|[->| ->]]; try done;
    repeat (rewrite (decide_False (P := n = _)) by lia);
    rewrite Z.mod_small by lia; by rewrite !decide_False by lia.
Qed.

Lemma entry_set_get type nr img c n img' :
  table_ok type nr img → 2 ≤ c < nr + 2 → link_ok type n →
  entry_set type nr img c (stored type n) img' →
  fat_get_next_cluster type nr img' c = Some n
  ∧ ∀ c', 2 ≤ c' < nr + 2 → c' ≠ c →
      fat_get_next_cluster type nr img' c' = fat_get_next_cluster type nr img c'.
Proof.
  intros Hok Hc Hn (Hok' & Hl & Hr & Ho). split.
  - destruct (get_raw type nr img' c Hok' Hc) as (e & He & _ & ->). rewrite Hr in He. injection He as <-.
    by rewrite of_stored.
  - intros c' Hc' Hne. destruct (get_raw type nr img' c' Hok' Hc') as (e & He & _ & ->).
    destruct (get_raw type nr img c' Hok Hc') as (e' & He' & _ & ->).
    rewrite Ho in He by (done || lia). by simplify_eq.
Qed.

(** ** The search for a free cluster *)
Section search.
Context (type : fat_t) (nr : Z) (img : list Z) (Hok : table_ok type nr img).

Definition is_free (c : Z) : Prop := fat_get_next_cluster type nr img c = Some FAT_FREE_CLUSTER.
#[local] Instance is_free_dec c : Decision (is_free c).
Proof. unfold is_free. apply _. Defined.

(** The [k]th cluster from [old] on, around the table. *)
Definition around (old k : Z) : Z := 2 + (old - 2 + k) mod nr.

Lemma around_bounds old k : 0 < nr → 2 ≤ around old k < nr + 2.
Proof. intros. unfold around. pose proof (Z.mod_pos_bound (old - 2 + k) nr). lia. Qed.

Lemma around_next old k :
  2 ≤ old < nr + 2 → 0 ≤ k < nr →
  around old (k + 1) = (if decide (around old k + 1 = nr + 2) then 2 else around old k + 1)
  ∧ (around old (k + 1) = old ↔ k + 1 = nr).
Proof.
  intros Hold Hk. unfold around. destruct (decide (old - 2 + k < nr)) as [H1|H1].
  - rewrite (Z.mod_small (old - 2 + k)) by lia. destruct (decide (old - 2 + k + 1 = nr)) as [H2|H2].
    + replace (old - 2 + (k + 1)) with nr by lia. rewrite Z.mod_same by lia. rewrite decide_True by lia. lia.
    + rewrite Z.mod_small by lia. rewrite decide_False by lia. lia.
  - assert (Hm : ∀ x, nr ≤ x < 2 * nr → x mod nr = x - nr).
    { intros x Hx. symmetry. apply (Z.mod_unique_pos _ _ 1); lia. }
    rewrite (Hm (old - 2 + (k + 1))), (Hm (old - 2 + k)) by lia. rewrite decide_False by lia. lia.
Qed.

(** No free cluster among the first [k]. *)
Definition none_before (old k : Z) : Prop := ∀ j, 0 ≤ j < k → ¬ is_free (around old j).

Lemma find_free_spec fuel old k :
  2 ≤ old < nr + 2 → 0 ≤ k < nr → nr - k ≤ Z.of_nat fuel → none_before old k →
  ∃ found next, find_free type nr fuel img (around old k) old (bool_decide (nr ≤ old - 2 + k))
      = Some (found, next)
    ∧ 2 ≤ next < nr + 2
    ∧ ((found = FAT_FREE_CLUSTER ∧ none_before old nr)
       ∨ ∃ k', k ≤ k' < nr ∧ found = around old k' ∧ next = around old (k' + 1)
           ∧ is_free found ∧ none_before old k').
Proof.
  intros Hold Hk Hf Hnone. revert k Hk Hf Hnone. induction fuel as [|fuel IH]; intros k Hk Hf Hnone; [lia|].
  pose proof (tb_nr _ _ _ Hok) as Hnr. pose proof (around_bounds old k) as Hb.
  destruct (around_next old k Hold Hk) as [Hnext Hlast]. pose proof (around_bounds old (k + 1)) as Hb'.
  simpl. destruct (get_raw type nr img (around old k) Hok) as (e & _ & _ & Hget); [lia|]. rewrite Hget. simpl.
  set (content := of_entry _ _ e) in *.
  rewrite (u64_id (around old k + 1)), (u64_id (nr + 2)) by lia.
  set (wr := bool_decide (nr ≤ old - 2 + (k + 1))).
  assert (Hpair : (if decide (around old k + 1 = nr + 2) then (2, true)
      else (around old k + 1, bool_decide (nr ≤ old - 2 + k))) = (around old (k + 1), wr)).
  { rewrite Hnext. unfold wr, around in *. case_decide as Hd.
    - f_equal. symmetry. apply bool_decide_true.
      assert ((old - 2 + k) mod nr ≤ old - 2 + k) by (apply Z.mod_le; lia). lia.
    - f_equal. apply bool_decide_ext. split; [lia|]. intros Hle.
      destruct (decide (nr ≤ old - 2 + k)); [done|]. rewrite Z.mod_small in Hd by lia. lia. }
  rewrite Hpair. destruct (decide (content = FAT_FREE_CLUSTER)) as [Hfree|Hfree].
  - rewrite decide_False by lia.
    eexists _, _. split; [done|]. split; [lia|]. right. exists k. split; [lia|]. do 2 (split; [done|]).
    split; [|done]. unfold is_free. by rewrite Hget, Hfree.
  - assert (Hnone' : none_before old (k + 1)).
    { intros j Hj. destruct (decide (j = k)) as [->|]; [|apply Hnone; lia].
      unfold is_free. rewrite Hget. congruence. }
    destruct (decide (k + 1 = nr)) as [Hend|Hend].
    + rewrite decide_False.
      2:{ intros [_ Hn]. apply Hn. split; [|lia]. apply bool_decide_true. lia. }
      eexists _, _. split; [done|]. split; [lia|]. left. split; [done|]. by rewrite <-Hend.
    + rewrite decide_True by (split; [done|]; intros [_ ?]; lia).
      destruct (IH (k + 1)) as (found & next & Hr & Hn & Hor); [lia..|done|].
      exists found, next. split; [exact Hr|]. split; [done|].
      destruct Hor as [?|(k' & ? & ?)]; [by left|right]. exists k'. split; [lia|done].
Qed.
End search.

Lemma around_onto nr old c :
  2 ≤ old < nr + 2 → 2 ≤ c < nr + 2 → ∃ k, 0 ≤ k < nr ∧ around nr old k = c.
Proof.
  intros Hold Hc. exists ((c - old) mod nr). split; [apply Z.mod_pos_bound; lia|]. unfold around.
  rewrite Z.add_mod_idemp_r by lia. replace (old - 2 + (c - old)) with (c - 2) by lia.
  rewrite Z.mod_small; lia.
Qed.

(** Allocation: the first free cluster around the table, or none is free. *)
Lemma allocate_spec type nr img next content :
  table_ok type nr img → 2 ≤ next < nr + 2 → link_ok type content → content ≠ FAT_FREE_CLUSTER →
  ∃ next', 2 ≤ next' < nr + 2
    ∧ ((∃ c img', fat_allocate_cluster type nr img next content = Some (E0, img', next', Some c)
          ∧ 2 ≤ c < nr + 2 ∧ is_free type nr img c
          ∧ (∃ k, 0 ≤ k < nr ∧ c = around nr next k ∧ none_before type nr img next k)
          ∧ table_ok type nr img' ∧ zlen img' = zlen img
          ∧ fat_get_next_cluster type nr img' c = Some content
          ∧ ∀ c', 2 ≤ c' < nr + 2 → c' ≠ c →
              fat_get_next_cluster type nr img' c' = fat_get_next_cluster type nr img c')
       ∨ (fat_allocate_cluster type nr img next content = Some (ENOSPC, img, next', None)
          ∧ ∀ c, 2 ≤ c < nr + 2 → ¬ is_free type nr img c)).
Proof.
  intros Hok Hnext Hl Hc. pose proof (tb_nr _ _ _ Hok) as Hnr.
  destruct (find_free_spec type nr img Hok (S (Z.to_nat nr)) next 0) as (found & next' & Hf & Hn & Hor);
    [done|lia|lia|intros j; lia|].
  assert (Ha : around nr next 0 = next). { unfold around. rewrite Z.mod_small; lia. }
  rewrite Ha, bool_decide_false in Hf by lia. unfold fat_allocate_cluster. rewrite decide_True, Hf by done.
  cbn [mbind option_bind]. exists next'. split; [done|]. destruct Hor as [[-> Hnone]|(k & Hk & -> & _ & Hfree & Hnone)].
  - right. rewrite decide_False by (intros H; by apply H). split; [done|]. intros c Hcl.
    destruct (around_onto nr next c Hnext Hcl) as (k & Hk & <-). by apply Hnone.
  - left. pose proof (around_bounds nr next k) as Hb. rewrite decide_True by lia.
    destruct (write_next_ok type nr img (around nr next k) content) as (img' & Hw & Hs);
      [done|lia|unfold link_ok in Hl; lia|].
    rewrite Hw. destruct (entry_set_get type nr img (around nr next k) content img' Hok) as [Hg Ho]; [lia|done..|].
    eexists _, _. split; [done|]. split; [lia|]. split; [done|]. split; [by exists k|].
    destruct Hs as (? & ? & _). done.
Qed.

Lemma count_free_spec type nr img n c :
  table_ok type nr img → 2 ≤ c → c + Z.of_nat n ≤ nr + 2 →
  ∃ m, count_free type nr n img c = Some m ∧ 0 ≤ m
    ∧ (m = 0 ↔ ∀ c', c ≤ c' < c + Z.of_nat n → ¬ is_free type nr img c').
Proof.
  intros Hok. revert c. induction n as [|n IH]; intros c Hc Hn; simpl.
  { exists 0. split; [done|]. split; [lia|]. split; [intros _ c'; lia|done]. }
  destruct (get_raw type nr img c Hok) as (e & _ & _ & Hg); [lia|]. rewrite Hg. simpl.
  destruct (IH (c + 1)) as (m & -> & Hm & Hiff); [lia..|]. simpl. eexists. split; [done|].
  assert (Hfree : is_free type nr img c ↔ of_entry (bad_mark type) (eoc_mark type) e = FAT_FREE_CLUSTER).
  { unfold is_free. rewrite Hg. split; congruence. }
  case_decide as Hd; split; [lia| |lia|].
  - split; [lia|]. intros Hn'. exfalso. apply (Hn' c); [lia|by apply Hfree].
  - split.
    + intros Hz c' Hc'. destruct (decide (c' = c)) as [->|]; [by rewrite Hfree|]. apply Hiff; lia.
    + intros Hn'. assert (m = 0); [|lia]. apply Hiff. intros c' Hc'. apply Hn'. lia.
Qed.

(** ** The theorems on the table *)

(** C25. Entries of the table are independent, in all three formats: writing the
    link of a cluster succeeds and keeps the table well formed, the link reads
    back as it was written (the marks for a bad cluster and the end of a chain
    included), and every other link is unchanged, also where two entries of a
    FAT12 share a byte. *)
Theorem fat_entry_roundtrip type nr img c n :
  table_ok type nr img → 2 ≤ c < nr + 2 → link_ok type n →
  ∃ img', fat_write_next_cluster type nr img c n = Some img' ∧ table_ok type nr img'
    ∧ fat_get_next_cluster type nr img' c = Some n
    ∧ ∀ c', 2 ≤ c' < nr + 2 → c' ≠ c →
        fat_get_next_cluster type nr img' c' = fat_get_next_cluster type nr img c'.
Proof.
  intros Hok Hc Hn. destruct (write_next_ok type nr img c n Hok Hc) as (img' & Hw & Hs).
  { unfold link_ok in Hn. lia. }
  exists img'. split; [done|]. split; [apply Hs|]. by apply entry_set_get.
Qed.

(** C38. The allocator terminates and is right: it returns the first free cluster
    from the place of the last search on, around the table, and changes only
    its entry; it reports that the file system is full exactly if the count of
    free clusters is zero, and then changes nothing. *)
Theorem fat_allocate_correct type nr img next content :
  table_ok type nr img → 2 ≤ next < nr + 2 → link_ok type content → content ≠ FAT_FREE_CLUSTER →
  ∃ next' n, 2 ≤ next' < nr + 2 ∧ fat_get_freespace type nr img = Some n
    ∧ if decide (n = 0)
      then fat_allocate_cluster type nr img next content = Some (ENOSPC, img, next', None)
      else ∃ c img', fat_allocate_cluster type nr img next content = Some (E0, img', next', Some c)
        ∧ 2 ≤ c < nr + 2 ∧ is_free type nr img c
        ∧ (∃ k, 0 ≤ k < nr ∧ c = around nr next k ∧ none_before type nr img next k)
        ∧ table_ok type nr img' ∧ fat_get_next_cluster type nr img' c = Some content
        ∧ ∀ c', 2 ≤ c' < nr + 2 → c' ≠ c →
            fat_get_next_cluster type nr img' c' = fat_get_next_cluster type nr img c'.
Proof.
  intros Hok Hnext Hl Hc. pose proof (tb_nr _ _ _ Hok) as Hnr.
  destruct (count_free_spec type nr img (Z.to_nat nr) 2 Hok) as (n & Hn & _ & Hiff); [lia..|].
  destruct (allocate_spec type nr img next content Hok Hnext Hl Hc) as (next' & Hb & Hor).
  exists next', n. split; [done|]. split; [exact Hn|].
  destruct Hor as [(c & img' & Hr & Hcl & Hfree & Hk & Hok' & _ & Hg & Ho)|[Hr Hnone]].
  - rewrite decide_False; [by exists c, img'|]. intros Hz. rewrite Hiff in Hz. apply (Hz c); [lia|done].
  - rewrite decide_True; [done|]. apply Hiff. intros c' Hc'. apply Hnone. lia.
Qed.

(** ** Names *)
Lemma lookupz_drop {A} (l : list A) n x l' :
  0 ≤ n → drop (Z.to_nat n) l = x :: l' → l !z n = Some x ∧ drop (Z.to_nat (n + 1)) l = l'.
Proof.
  intros Hn Hd. split.
  - unfold lookupz. rewrite decide_True by done. rewrite <-(Nat.add_0_r (Z.to_nat n)), <-lookup_drop. by rewrite Hd.
  - replace (Z.to_nat (n + 1)) with (Z.to_nat n + 1)%nat by lia. rewrite <-drop_drop, Hd. done.
Qed.

Lemma skip_spaces_bound fuel name npos :
  zlen name = 11 → 0 ≤ npos ≤ 7 → 8 - npos ≤ Z.of_nat fuel →
  ∃ n, skip_spaces fuel name npos = Some n ∧ npos ≤ n ≤ 7.
Proof.
  intros Hl. revert npos. induction fuel as [|fuel IH]; intros npos Hn Hf; [lia|]. simpl.
  case_decide; [|exists npos; split; [done|lia]].
  destruct (lookupz_is_Some name (npos + 1)) as [c ->]; [lia|]. simpl.
  case_decide; [|exists npos; split; [done|lia]]. destruct (IH (npos + 1)) as (n & -> & ?); [lia..|].
  exists n. split; [done|lia].
Qed.

(** What is written so far fits in front of the terminating zero. *)
Lemma to_unix_bound fuel name npos file ext :
  zlen name = 11 → 0 ≤ npos ≤ 11 → 11 - npos < Z.of_nat fuel →
  (npos ≤ 7 → zlen file ≤ npos) → (8 ≤ npos → zlen file ≤ npos + 1 ∧ ext = true) →
  ∃ file' ext', to_unix_loop fuel name npos file ext = Some (file', ext') ∧ zlen file' ≤ 12.
Proof.
  intros Hl. revert npos file ext. induction fuel as [|fuel IH]; intros npos file ext Hn Hf H7 H8; [lia|].
  cbn [to_unix_loop]. case_decide as H11; [|eexists _, _; split; [done|lia]].
  destruct (lookupz_is_Some name npos) as [c ->]; [lia|]. cbn [mbind option_bind].
  assert (Happ : ∀ k : list Z, zlen (file ++ k) = zlen file + zlen k) by (intros; rewrite length_app; lia).
  destruct (decide (c = 32)) as [Hc|Hc]; [destruct ext|destruct (decide (npos = 7))].
  - eexists _, _. split; [done|lia].
  - destruct (decide (npos ≤ 7)) as [Hle|]; [|lia].
    destruct (skip_spaces_bound 9 name npos Hl) as (n & -> & Hn'); [lia..|]. cbn [mbind option_bind].
    apply IH; [lia|lia|intros _|intros _]; rewrite Happ; simpl; lia.
  - apply IH; [lia|lia|lia|]. intros _. rewrite Happ. simpl. lia.
  - apply IH; [lia|lia|intros ?|intros ?]; rewrite Happ; simpl; [lia|]. split; [lia|apply H8; lia].
Qed.

(** The characters before position 7. *)
Lemma to_unix_base fuel name npos b rest file :
  zlen name = 11 → 0 ≤ npos → npos + zlen b ≤ 7 → drop (Z.to_nat npos) name = b ++ rest →
  Forall (λ c, c ≠ 32) b →
  to_unix_loop (length b + fuel) name npos file false
    = to_unix_loop fuel name (npos + zlen b) (file ++ b) false.
Proof.
  intros Hl. revert npos file. induction b as [|c b IH]; intros npos file Hn H7 Hd Hb.
  { simpl. by rewrite Z.add_0_r, app_nil_r. }
  simpl in *. destruct (lookupz_drop name npos c (b ++ rest) Hn Hd) as [Hc Hd'].
  rewrite decide_True, Hc by lia. simpl. apply Forall_cons in Hb as [Hne Hb].
  rewrite decide_False, decide_False by (done || lia). rewrite IH; [|lia|lia|done|done].
  rewrite <-app_assoc. simpl. f_equal. lia.
Qed.

(** The extension. *)
Lemma to_unix_ext fuel name npos e n file :
  zlen name = 11 → 8 ≤ npos → drop (Z.to_nat npos) name = e ++ replicate n 32 →
  Forall (λ c, c ≠ 32) e → (length e < fuel)%nat →
  to_unix_loop fuel name npos file true = Some (file ++ e, true).
Proof.
  intros Hl. revert fuel npos file. induction e as [|c e IH]; intros fuel npos file Hn Hd He Hf;
    destruct fuel as [|fuel]; simpl in Hf; try lia; cbn [to_unix_loop].
  - rewrite app_nil_r. case_decide; [|done]. destruct n as [|n].
    + assert (Hld : length (drop (Z.to_nat npos) name) = 0%nat) by (rewrite Hd; done).
      rewrite length_drop in Hld. lia.
    + destruct (lookupz_drop name npos 32 (replicate n 32)) as [-> _]; [lia|done|done].
  - destruct (lookupz_drop name npos c (e ++ replicate n 32)) as [Hc Hd']; [lia|done|].
    apply lookupz_lt in Hc as Hlt. rewrite decide_True, Hc by lia. cbn [mbind option_bind].
    apply Forall_cons in He as [Hne He].
    rewrite decide_False, decide_False by (done || lia). rewrite IH; [|lia|done|done|lia].
    by rewrite <-app_assoc.
Qed.

Definition padded (base ext : list Z) : list Z :=
  base ++ replicate (8 - length base) 32 ++ ext ++ replicate (3 - length ext) 32.

Lemma skip_spaces_all fuel name npos :
  (∀ j, npos < j ≤ 7 → name !z j = Some 32) → npos ≤ 7 → 8 - npos ≤ Z.of_nat fuel →
  skip_spaces fuel name npos = Some 7.
Proof.
  revert npos. induction fuel as [|fuel IH]; intros npos Hs Hn Hf; [lia|]. simpl.
  case_decide; [|f_equal; lia]. rewrite Hs by lia. simpl. apply IH; [|lia|lia].
  intros j Hj. apply Hs. lia.
Qed.

Lemma padded_parts base ext :
  (length base ≤ 8)%nat → (length ext ≤ 3)%nat →
  zlen (padded base ext) = 11
  ∧ drop (Z.to_nat 8) (padded base ext) = ext ++ replicate (3 - length ext) 32
  ∧ ∀ j, zlen base ≤ j ≤ 7 → padded base ext !z j = Some 32.
Proof.
  intros Hb He. unfold padded. split_and!.
  - rewrite !length_app, !length_replicate. lia.
  - rewrite app_assoc, drop_app_length'; [done|]. rewrite length_app, length_replicate. lia.
  - intros j Hj. unfold lookupz. rewrite decide_True by lia. rewrite lookup_app_r by lia.
    rewrite lookup_app_l by (rewrite length_replicate; lia). apply lookup_replicate_2. lia.
Qed.

(** The first part of a name, up to the dot. *)
Lemma to_unix_first base ext :
  base ≠ [] → (length base ≤ 8)%nat → (length ext ≤ 3)%nat → Forall (λ c, c ≠ 32) base →
  ∃ fuel, (4 ≤ fuel)%nat
    ∧ to_unix_loop 12 (padded base ext) 0 [] false = to_unix_loop fuel (padded base ext) 8 (base ++ [46]) true.
Proof.
  intros Hne Hb He Hc. destruct (padded_parts base ext Hb He) as (Hl & _ & Hsp).
  set (name := padded base ext) in *. destruct (decide (length base = 8)%nat) as [H8|H8].
  - destruct (exists_last Hne) as (b & c & ->). rewrite length_app in H8. simpl in H8.
    assert (Hb7 : length b = 7%nat) by lia. apply Forall_app in Hc as [Hcb Hcc].
    exists 4%nat. split; [lia|]. replace 12%nat with (length b + 5)%nat by lia.
    rewrite (to_unix_base 5 name 0 b (c :: ext ++ replicate (3 - length ext) 32)); [|done|lia|lia| |done].
    2:{ simpl. unfold name, padded. rewrite length_app, Hb7. simpl. by rewrite <-app_assoc. }
    rewrite Hb7. cbn [to_unix_loop app]. rewrite decide_True by lia.
    assert (name !z (0 + Z.of_nat 7) = Some c) as ->.
    { unfold name, padded. rewrite <-app_assoc. unfold lookupz. rewrite decide_True by lia.
      rewrite lookup_app_r by lia. by replace (Z.to_nat (0 + Z.of_nat 7) - length b)%nat with 0%nat by lia. }
    cbn [mbind option_bind]. apply Forall_cons in Hcc as [Hc32 _].
    rewrite decide_False, decide_True by (done || lia). by rewrite <-app_assoc.
  - exists (11 - length base)%nat. split; [lia|]. replace 12%nat with (length base + (12 - length base))%nat by lia.
    rewrite (to_unix_base _ name 0 base (replicate (8 - length base) 32 ++ ext ++ replicate (3 - length ext) 32));
      [|done|lia|lia|done|done].
    replace (12 - length base)%nat with (S (11 - length base)) by lia. cbn [to_unix_loop app].
    rewrite decide_True, Hsp by lia. cbn [mbind option_bind]. rewrite decide_True by done.
    rewrite skip_spaces_all; [done|intros j Hj; apply Hsp; lia|lia|lia].
Qed.

(** Names of directory entries become names of files: whatever the eleven
    bytes of an entry are, the conversion stays within them and within the
    thirteen bytes of the caller's buffer, its terminating zero included; and a
    name and an extension, padded with spaces, become the name, a dot and the
    extension, without the dot if the extension is empty. *)
Theorem fat_to_unix_correct name base ext :
  zlen name = 11 → base ≠ [] → (length base ≤ 8)%nat → (length ext ≤ 3)%nat →
  Forall (λ c, c ≠ 32) base → Forall (λ c, c ≠ 32 ∧ c ≠ 46) ext →
  (∃ file, fat_to_unix_filename name = Some file ∧ zlen file ≤ 13)
  ∧ fat_to_unix_filename (padded base ext)
    = Some (base ++ (if decide (ext = []) then [] else 46 :: ext) ++ [0]).
Proof.
  intros Hn Hne Hb He Hcb Hce. split.
  - destruct (to_unix_bound 12 name 0 [] false) as (file & ext' & Hr & Hlen); [done|simpl; lia..|].
    unfold fat_to_unix_filename. rewrite Hr. cbn [mbind option_bind].
    case_match; eexists; (split; [done|]); rewrite length_app, ?length_take; simpl; lia.
  - destruct (padded_parts base ext Hb He) as (Hl & Hd & _).
    destruct (to_unix_first base ext Hne Hb He Hcb) as (fuel & Hf & Hr).
    unfold fat_to_unix_filename. rewrite Hr.
    rewrite (to_unix_ext fuel _ 8 ext (3 - length ext)); [|done|lia|done| |lia].
    2:{ eapply Forall_impl; [exact Hce|]. naive_solver. }
    cbn [mbind option_bind]. rewrite <-app_assoc. destruct (decide (ext = [])) as [->|Hne'].
    + rewrite app_nil_r, last_snoc. simpl. f_equal. rewrite length_app. simpl.
      rewrite take_app_length' by lia. done.
    + destruct (exists_last Hne') as (e & c & ->).
      rewrite bool_decide_false; [simpl; f_equal; rewrite <-!app_assoc; simpl; by rewrite <-!app_assoc|].
      rewrite !app_assoc, last_snoc.
      apply Forall_app in Hce as [_ Hc]. apply Forall_cons in Hc as [[_ Hc] _]. congruence.
Qed.

(** ** Times *)
Lemma read_write_word img v :
  bytes_ok img → 2 ≤ zlen img → 0 ≤ v < 2 ^ 16 →
  ∃ img', write_word img 0 v = Some img' ∧ read_word img' 0 = Some v.
Proof.
  intros Hb Hl Hv. destruct (write_word_ok img 0 v) as (img' & Hw & _ & _ & Hi); [done|lia..|].
  exists img'. split; [done|]. destruct (two_bytes _ _ _ _ _ Hi) as [H0 H1].
  rewrite (read_word_eq _ _ _ _ H0 H1). f_equal. rewrite !byte_of_mod by lia.
  change (2 ^ (8 * 0)) with 1. change (2 ^ (8 * 1)) with 256. change (2 ^ 16) with 65536 in Hv. div_lia.
Qed.

Lemma lor_shiftl a b k : 0 ≤ k → 0 ≤ a < 2 ^ k → 0 ≤ b → Z.lor a (Z.shiftl b k) = a + b * 2 ^ k.
Proof.
  intros Hk Ha Hb. rewrite Z.lor_comm, Z.shiftl_mul_pow2 by done.
  rewrite (lor_add _ _ k); [lia|done| |done]. apply Z.mod_mul. lia.
Qed.

(** The fields of a date and a time survive the conversions, but for the
    seconds: [fat_from_epoch] stores half of them, as the format demands, and
    [fat_to_epoch] does not double them again. *)
Lemma fat_time_roundtrip t date time :
  bytes_ok date → bytes_ok time → 2 ≤ zlen date → 2 ≤ zlen time →
  80 ≤ tm_year t < 208 → 0 ≤ tm_mon t < 12 → 1 ≤ tm_mday t < 32 →
  0 ≤ tm_hour t < 24 → 0 ≤ tm_min t < 60 → 0 ≤ tm_sec t < 60 →
  ∃ date' time', fat_from_tm t date time = Some (date', time')
    ∧ fat_to_tm date' time'
      = Some (mk_tm (tm_year t) (tm_mon t) (tm_mday t) (tm_hour t) (tm_min t) (tm_sec t / 2)).
Proof.
  intros Hbd Hbt Hld Hlt Hy Hmo Hd Hh Hmi Hs. unfold fat_from_tm.
  rewrite (lor_shiftl (tm_mday t)) by lia. rewrite (lor_shiftl (_ + _)) by lia.
  rewrite (Z.lor_comm (Z.shiftl _ 11)), (Z.lor_comm _ (Z.shiftr _ 1)), Z.lor_assoc.
  rewrite Z.shiftr_div_pow2 by lia. change (2 ^ 1) with 2. assert (0 ≤ tm_sec t / 2 < 30) by div_lia.
  rewrite (lor_shiftl (tm_sec t / 2)) by lia. rewrite (lor_shiftl (_ + _)) by lia.
  rewrite !u32_id by lia.
  edestruct (read_write_word date) as (d' & -> & Hrd); [exact Hbd|lia| |]; [|cbn [mbind option_bind]]; [lia|].
  edestruct (read_write_word time) as (t' & -> & Hrt); [exact Hbt|lia| |]; [|cbn [mbind option_bind]]; [lia|].
  eexists _, _. split; [done|]. unfold fat_to_tm. rewrite Hrd, Hrt. cbn [mbind option_bind].
  rewrite (land_low _ 9), (land_low _ 5), (land_low _ 11), (land_low _ 5), !Z.shiftr_div_pow2 by lia.
  change (2 ^ 5) with 32. change (2 ^ 9) with 512. change (2 ^ 11) with 2048. f_equal. f_equal; div_lia.
Qed.

(** ** The superblock *)
Definition sector_ok (sblock : list Z) : Prop := bytes_ok sblock ∧ zlen sblock = 512.

Lemma word_bounds img a v : bytes_ok img → read_word img a = Some v → 0 ≤ v < 2 ^ 16.
Proof.
  intros Hb Hr. unfold read_word in Hr.
  apply bind_Some in Hr as (b0 & H0 & Hr). apply bind_Some in Hr as (b1 & H1 & Hr). injection Hr as <-.
  unfold bytes_ok in Hb. rewrite Forall_forall in Hb.
  apply lookupz_elem_of, Hb in H0. apply lookupz_elem_of, Hb in H1.
  rewrite Z.shiftl_mul_pow2 by lia. lia.
Qed.

Lemma log2_sector_spec n k : log2_sector n = Some k → n = 2 ^ k ∧ 9 ≤ k ≤ 12.
Proof. unfold log2_sector. repeat case_decide; intros [= <-]; subst; (split; [done|lia]). Qed.

Lemma log2_cluster_spec n k : log2_cluster n = Some k → n = 2 ^ k ∧ 9 ≤ k ≤ 15.
Proof. unfold log2_cluster. repeat case_decide; intros [= <-]; subst; (split; [done|lia]). Qed.

Lemma sectors_per_cluster_spec n : valid_sectors_per_cluster n = true → 1 ≤ n ≤ 128.
Proof.
  unfold valid_sectors_per_cluster. rewrite bool_decide_eq_true. intros Hn.
  repeat (apply elem_of_cons in Hn as [->|Hn]; [lia|]). by apply elem_of_nil in Hn.
Qed.

Lemma or_else_bounds a b n : 0 ≤ a < n → 0 ≤ b < n → 0 ≤ or_else a b < n.
Proof. unfold or_else. by case_decide. Qed.

(** What an accepted superblock says. *)
Record info_ok (store_size : Z) (g : fat_info) : Prop := {
  io_sector : bytes_per_sector g = 2 ^ log2_bytes_per_sector g ∧ 9 ≤ log2_bytes_per_sector g ≤ 12;
  io_cluster : bytes_per_cluster g = 2 ^ log2_bytes_per_cluster g
    ∧ bytes_per_cluster g = sectors_per_cluster g * bytes_per_sector g ∧ 1 ≤ sectors_per_cluster g;
  io_total : 0 < total_sectors g ∧ total_sectors g * bytes_per_sector g ≤ store_size;
  io_type : fat_type g = type_of_clusters (nr_of_clusters g);
  io_data : first_data_byte g = first_data_sector g * bytes_per_sector g
    ∧ first_root_dir_byte g < first_data_byte g;
  io_clusters : first_data_sector g ≤ total_sectors g →
    nr_of_clusters g = (total_sectors g - first_data_sector g) / sectors_per_cluster g
}.

Ltac next_check H :=
  match type of H with
  | (_ ≫= _) = Some _ => let x := fresh "x" in let E := fresh "E" in apply bind_Some in H as (x & E & H)
  | (if decide ?P then _ else _) = Some _ => destruct (decide P) in H; [discriminate H|]
  end.

(** The layout of the regions; [rd] root directory entries, [r] sectors before
    the root directory. *)
Lemma layout_spec rd r bps k :
  bps = 2 ^ k → 9 ≤ k ≤ 12 → 0 ≤ r < 2 ^ 25 →
  let root_sectors := u64 (u32 (u32 (rd * FAT_DIR_REC_LEN) - 1) / bps + 1) in
  let root_byte := u64 (Z.shiftl r k) in
  let data_sector := u64 (Z.shiftr root_byte k + root_sectors) in
  root_byte = r * bps ∧ data_sector = r + root_sectors ∧ 1 ≤ root_sectors ≤ 2 ^ 24
  ∧ u64 (Z.shiftl data_sector k) = data_sector * bps.
Proof.
  intros Hbps Hk Hr root_sectors root_byte data_sector.
  assert (H9 : 2 ^ 9 ≤ bps ≤ 2 ^ 12) by (subst bps; split; apply Z.pow_le_mono_r; lia).
  assert (Hrs : 1 ≤ root_sectors ≤ 2 ^ 24).
  { unfold root_sectors. set (n := u32 (u32 _ - 1)). assert (0 ≤ n < 2 ^ 32) by (apply Z.mod_pos_bound; lia).
    assert (0 ≤ n / bps) by (apply Z.div_pos; lia).
    assert (n / bps < 2 ^ 23) by (apply Z.div_lt_upper_bound; nia). rewrite u64_id; lia. }
  assert (Hrb : root_byte = r * bps).
  { unfold root_byte. rewrite Z.shiftl_mul_pow2, <-Hbps by lia. apply u64_id. nia. }
  assert (Hds : data_sector = r + root_sectors).
  { unfold data_sector. rewrite Hrb, Z.shiftr_div_pow2, <-Hbps, Z.div_mul by lia. apply u64_id. lia. }
  split_and!; [done|done|lia|lia|]. rewrite Z.shiftl_mul_pow2, <-Hbps by lia. apply u64_id. rewrite Hds. nia.
Qed.

Lemma read_sblock_ok sblock size bs g :
  sector_ok sblock → 0 ≤ size < 2 ^ 63 → fat_read_sblock sblock size bs = Some (inr g) →
  info_ok size g.
Proof.
  intros [Hb _] Hsize H. unfold fat_read_sblock in H. do 3 next_check H.
  destruct (log2_sector _) as [k|] eqn:Hk; [|done]. apply log2_sector_spec in Hk as [Hbps Hk].
  next_check H. destruct (valid_sectors_per_cluster _) eqn:Hspc; [|done]. cbn [negb] in H.
  apply sectors_per_cluster_spec in Hspc.
  destruct (log2_cluster _) as [kc|] eqn:Hkc; [|done]. apply log2_cluster_spec in Hkc as [Hbpc Hkc].
  repeat next_check H. rename x0 into bps, x1 into spc, x2 into t16, x3 into t32, x4 into reserved,
    x5 into tables, x6 into s16, x7 into s32, x8 into rd.
  assert (Hw : ∀ a v, read_word sblock a = Some v → 0 ≤ v < 2 ^ 16) by (intros; by eapply word_bounds).
  assert (H9 : 2 ^ 9 ≤ bps ≤ 2 ^ 12) by (subst bps; split; apply Z.pow_le_mono_r; lia).
  pose proof (or_else_bounds t16 t32 (2 ^ 16) (Hw _ _ E2) (Hw _ _ E3)) as Ht.
  pose proof (or_else_bounds s16 s32 (2 ^ 16) (Hw _ _ E6) (Hw _ _ E7)) as Hf.
  set (total := or_else t16 t32) in *. set (spf := or_else s16 s32) in *.
  assert (Htb : 0 ≤ tables < 256).
  { apply lookupz_elem_of in E5. unfold bytes_ok in Hb. rewrite Forall_forall in Hb. by apply Hb. }
  pose proof (Hw _ _ E4) as Hres.
  assert (Hr : u64 (reserved + u64 (tables * spf)) = reserved + tables * spf).
  { rewrite (u64_id (tables * spf)) by nia. apply u64_id. nia. }
  rewrite Hr in H.
  destruct (layout_spec rd (reserved + tables * spf) bps k Hbps Hk) as (Hrb & Hds & Hrs & Hdb); [nia|].
  rewrite Z.shiftl_mul_pow2, <-Hbps, u64_id in Hbpc by (rewrite <-?Hbps; nia).
  rewrite (u64_id size), (u64_id (total * bps)) in n0 by nia.
  assert (Hinfo : ∀ fs : Z, let ds := u64 (Z.shiftr (u64 (Z.shiftl (reserved + tables * spf) k)) k
      + u64 (u32 (u32 (rd * FAT_DIR_REC_LEN) - 1) / bps + 1)) in
    info_ok size (mk_fat_info (type_of_clusters (u64 (total - ds) / spc)) bps k spc (u64 (Z.shiftl spc k)) kc
      spf total (u64 (u32 (u32 (rd * FAT_DIR_REC_LEN) - 1) / bps + 1))
      (u64 (Z.shiftl (reserved + tables * spf) k)) ds (u64 (Z.shiftl ds k)) fs (u64 (total - ds) / spc))).
  { intros fs ds. unfold ds. constructor; simpl; [done|..|done| |].
    - rewrite Z.shiftl_mul_pow2, <-Hbps, u64_id by (rewrite <-?Hbps; nia). split; [done|]. split; [done|lia].
    - lia.
    - rewrite Hdb. split; [done|]. rewrite Hds, Hrb. nia.
    - intros Hle. rewrite u64_id; [done|]. rewrite Hds in *. lia. }
  repeat case_decide; try done; injection H as <-; apply Hinfo.
Qed.

(** The superblock bounds the file system: if it is accepted and its data
    region starts inside of the file system, every data cluster lies within the
    sectors it declares and within the store, behind the root directory; the
    size of a cluster is a power of two, and the format follows from the number
    of clusters alone. *)
Theorem fat_sblock_bounds sblock size bs g c :
  sector_ok sblock → 0 ≤ size < 2 ^ 63 → fat_read_sblock sblock size bs = Some (inr g) →
  first_data_sector g ≤ total_sectors g → 2 ≤ c < nr_of_clusters g + 2 →
  let start := first_data_byte g + Z.shiftl (c - 2) (log2_bytes_per_cluster g) in
  first_root_dir_byte g < start
  ∧ start + bytes_per_cluster g ≤ total_sectors g * bytes_per_sector g ≤ size
  ∧ bytes_per_cluster g = 2 ^ log2_bytes_per_cluster g
  ∧ fat_type g = type_of_clusters (nr_of_clusters g).
Proof.
  intros Hs Hsize Hr Hd Hc start. destruct (read_sblock_ok sblock size bs g Hs Hsize Hr)
    as [[Hb Hk] (Hc1 & Hc2 & Hc3) [Ht1 Ht2] Hty [Hd1 Hd2] Hn]. specialize (Hn Hd).
  assert (Hbpc : 0 < bytes_per_cluster g).
  { assert (0 < bytes_per_sector g) by (rewrite Hb; apply Z.pow_pos_nonneg; lia). nia. }
  assert (Hk' : 0 ≤ log2_bytes_per_cluster g).
  { destruct (decide (0 ≤ log2_bytes_per_cluster g)); [done|]. rewrite Z.pow_neg_r in Hc1; lia. }
  unfold start. rewrite Z.shiftl_mul_pow2, <-Hc1 by done. split_and!; [nia| |done|done|done].
  assert (nr_of_clusters g * sectors_per_cluster g ≤ total_sectors g - first_data_sector g).
  { rewrite Hn. rewrite Z.mul_comm. apply Z.mul_div_le. lia. }
  rewrite Hd1, Hc2. assert (0 < bytes_per_sector g) by (rewrite Hb; apply Z.pow_pos_nonneg; lia). nia.
Qed.

(** ** Examples *)
Definition put_word (a v : Z) (img : list Z) : list Z := default [] (write_word img a v).
Definition put_byte (a v : Z) (img : list Z) : list Z := default [] (storez a v img).

(** A boot sector of a file system with sectors of 512 bytes, one sector per
    cluster, one reserved sector and two FATs. *)
Definition boot (dirents total16 total32_low total32_high spf : Z) : list Z :=
  put_word 510 BOOT_SECTOR_ID (put_word 11 512 (put_byte 13 1 (put_word 14 1 (put_byte 16 2
    (put_word 17 dirents (put_word 19 total16 (put_word 22 spf
      (put_word 32 total32_low (put_word 34 total32_high (replicate 512 0)))))))))).

(** A floppy disk: 2880 sectors, nine sectors per FAT, 224 root entries. *)
Definition floppy : list Z := Eval vm_compute in boot 224 2880 0 0 9.
Definition floppy_info : fat_info := Eval vm_compute in
  match fat_read_sblock floppy 1474560 512 with
  | Some (inr g) => g
  | _ => mk_fat_info FAT12 0 0 0 0 0 0 0 0 0 0 0 0 0
  end.

Lemma fat_sblock_bounds_witness :
  fat_read_sblock floppy 1474560 512 = Some (inr floppy_info)
  ∧ nr_of_clusters floppy_info = 2847
  ∧ first_data_byte floppy_info + Z.shiftl (2848 - 2) (log2_bytes_per_cluster floppy_info)
      + bytes_per_cluster floppy_info ≤ 1474560.
Proof.
  assert (H : fat_read_sblock floppy 1474560 512 = Some (inr floppy_info)) by (vm_compute; reflexivity).
  split; [exact H|]. split; [reflexivity|].
  assert (Hs : sector_ok floppy).
  { split; [|reflexivity]. unfold bytes_ok. apply (bool_decide_unpack _). vm_compute. exact I. }
  destruct (fat_sblock_bounds floppy 1474560 512 floppy_info 2848 Hs) as (_ & [H1 H2] & _);
    [lia|exact H|vm_compute; congruence|split; vm_compute; congruence|].
  etrans; [exact H1|exact H2].
Defined.

(** An empty FAT12 of eight clusters. *)
Definition empty_fat : list Z := replicate 16 0.

Lemma empty_fat_ok : table_ok FAT12 8 empty_fat.
Proof.
  constructor; [|lia|vm_compute; congruence].
  unfold bytes_ok. apply (bool_decide_unpack _). vm_compute. exact I.
Qed.

Lemma fat_entry_roundtrip_witness :
  table_ok FAT12 8 empty_fat ∧ link_ok FAT12 0x123
  ∧ ∃ img', fat_write_next_cluster FAT12 8 empty_fat 3 0x123 = Some img'
      ∧ fat_get_next_cluster FAT12 8 img' 3 = Some 0x123
      ∧ fat_get_next_cluster FAT12 8 img' 2 = Some 0.
Proof.
  assert (Hl : link_ok FAT12 0x123) by (left; split; vm_compute; congruence).
  split; [exact empty_fat_ok|]. split; [exact Hl|].
  destruct (fat_entry_roundtrip FAT12 8 empty_fat 3 0x123 empty_fat_ok) as (img' & Hw & _ & Hg & Ho);
    [lia|exact Hl|].
  exists img'. split; [exact Hw|]. split; [exact Hg|]. rewrite Ho by lia. reflexivity.
Defined.

Lemma fat_allocate_correct_witness :
  table_ok FAT12 8 empty_fat ∧ fat_get_freespace FAT12 8 empty_fat = Some 8
  ∧ ∃ next' n, 2 ≤ next' < 8 + 2 ∧ fat_get_freespace FAT12 8 empty_fat = Some n.
Proof.
  split; [exact empty_fat_ok|]. split; [reflexivity|].
  destruct (fat_allocate_correct FAT12 8 empty_fat 5 FAT_EOC empty_fat_ok) as (next' & n & Hb & Hn & _);
    [lia|by right; right|done|].
  exists next', n. split; [exact Hb|exact Hn].
Defined.

(** README.TXT *)
Lemma fat_to_unix_correct_witness :
  fat_to_unix_filename (padded [82; 69; 65; 68; 77; 69] [84; 88; 84])
  = Some [82; 69; 65; 68; 77; 69; 46; 84; 88; 84; 0].
Proof.
  destruct (fat_to_unix_correct (replicate 11 65) [82; 69; 65; 68; 77; 69] [84; 88; 84]) as [_ H];
    [done|done|simpl; lia|simpl; lia|by repeat constructor|by repeat constructor|exact H].
Defined.

(** A file system of 70000 sectors, whose number is in the 32-bit field: only its
    low half is read. *)
Example fat_total_sectors_truncated :
  match fat_read_sblock (boot 224 0 (70000 mod 65536) (70000 / 65536) 9) (70000 * 512) 512 with
  | Some (inr g) => total_sectors g = 4464
  | _ => False
  end.
Proof. vm_compute. reflexivity. Qed.

(** Without a root directory region, as in a FAT32, the number of its sectors wraps
    around: the data region is taken to start four gigabytes further on. *)
Example fat_no_root_directory :
  match fat_read_sblock (boot 0 2880 0 0 9) 1474560 512 with
  | Some (inr g) => nr_of_root_dir_sectors g = 2 ^ 23 ∧ first_data_byte g = 2 ^ 32 + 19 * 512
      ∧ fat_type g = FAT32
  | _ => False
  end.
Proof. vm_compute. done. Qed.

(** The name of a new file is copied from behind its end: the name A.B in a
    buffer that ends with it is read out of bounds. *)
Example fat_from_unix_overruns :
  fat_from_unix_filename [65; 46; 66; 0] 3 = None.
Proof. reflexivity. Qed.

(** An entry of a short name, in a longer buffer, holds the bytes behind the name. *)
Example fat_from_unix_wrong :
  fat_from_unix_filename ([65; 0] ++ replicate 12 120) 1 = Some ([0] ++ replicate 7 88 ++ replicate 3 32).
Proof. vm_compute. reflexivity. Qed.
