(* ===== verification/FatChain.v ===== *)
(** * The FAT file system: the chain of clusters of a file (src/fatfs/fat.c)

    A file caches the clusters of its chain in a linked list of tables that is
    extended when a cluster further on is asked for.  The tables are heap
    objects; a pointer to a freed one, or a cell that was never written, is not
    to be read.  The theorem on [fat_getcluster] is that the cache and the table
    on the disk together implement a list of clusters. *)

From S2P Require Import Prelude Fat.

Definition LOG2_CLUSTERS_PER_TABLE : Z := 10.
Definition CLUSTERS_PER_TABLE : Z := Z.shiftl 1 LOG2_CLUSTERS_PER_TABLE.

Record cluster_chain := mk_chain { next : option nat; cluster : list (option Z) }.

(** The fields of [struct disknode] for the chain, and the node's [allocsize]. *)
Record disknode := mk_dn {
  start_cluster : Z;
  first : option nat;
  last : option nat;
  length_of_chain : Z;
  chain_complete : bool;
  allocsize : Z
}.

(** The state of the file system: the image of the table, [next_free_cluster], the
    tables and the next address. *)
Record fsys := mk_fsys {
  fat_image : list Z;
  next_free_cluster : Z;
  tables : gmap nat cluster_chain;
  brk : nat
}.

Section chain.
Context (type : fat_t) (nr log2_bpc : Z).

Definition set_image (img : list Z) (f : fsys) : fsys :=
  mk_fsys img (next_free_cluster f) (tables f) (brk f).
Definition set_tables (t : gmap nat cluster_chain) (f : fsys) : fsys :=
  mk_fsys (fat_image f) (next_free_cluster f) t (brk f).

(** The cells of a table that was just allocated. *)
Definition new_cells : list (option Z) := replicate (Z.to_nat CLUSTERS_PER_TABLE) None.

(** [allocate_new_table]: a table without contents, linked behind the last one. *)
Definition allocate_new_table (table : option nat) (dn : disknode) (f : fsys) (o : allocs)
    : option (error_t * nat * disknode * fsys * allocs) :=
  let '(ok, o) := alloc o in
  if ok then
    let p := brk f in
    let f := mk_fsys (fat_image f) (next_free_cluster f)
               (<[p := mk_chain None new_cells]> (tables f)) (S p) in
    match table with
    | Some t =>
        ct ← tables f !! t;
        Some (E0, p,
              mk_dn (start_cluster dn) (first dn) (Some p) (length_of_chain dn) (chain_complete dn) (allocsize dn),
              set_tables (<[t := mk_chain (Some p) (cluster ct)]> (tables f)) f, o)
    | None =>
        Some (E0, p,
              mk_dn (start_cluster dn) (Some p) (Some p) (length_of_chain dn) (chain_complete dn) (allocsize dn), f, o)
    end
  else Some (ENOMEM, O, dn, f, o).

(** [table->cluster[offs]] *)
Definition read_cell (table : option nat) (offs : Z) (f : fsys) : option Z :=
  t ← table; ct ← tables f !! t; mjoin (cluster ct !z offs).

Definition write_cell (t : nat) (offs c : Z) (f : fsys) : option fsys :=
  ct ← tables f !! t; cells ← storez offs (Some c) (cluster ct);
  Some (set_tables (<[t := mk_chain (next ct) cells]> (tables f)) f).

(** The next cluster of the chain: from the table on the disk, or a new one. *)
Inductive step := Got (c : Z) | AtEnd | Failed (err : error_t).

Definition next_in_chain (prev_cluster : Z) (dn : disknode) (f : fsys)
    : option (step * disknode * fsys) :=
  if chain_complete dn then
    '(err, img, nf, c) ← fat_allocate_cluster type nr (fat_image f) (next_free_cluster f) FAT_EOC;
    let f := mk_fsys img nf (tables f) (brk f) in
    match c with
    | None => Some (Failed err, dn, f)
    | Some c =>
        if decide (prev_cluster ≠ 0) then
          img ← fat_write_next_cluster type nr (fat_image f) prev_cluster c;
          Some (Got c, dn, set_image img f)
        else
          Some (Got c, mk_dn c (first dn) (last dn) (length_of_chain dn) (chain_complete dn) (allocsize dn), f)
    end
  else
    c ← (if decide (prev_cluster ≠ FAT_FREE_CLUSTER)
         then fat_get_next_cluster type nr (fat_image f) prev_cluster
         else Some (start_cluster dn));
    if decide (c = FAT_EOC ∨ c = FAT_FREE_CLUSTER) then
      Some (AtEnd, mk_dn (start_cluster dn) (first dn) (last dn) (length_of_chain dn) true (allocsize dn), f)
    else Some (Got c, dn, f).

(** Cluster [c] goes into the next cell of the cache, in a new table if the last
    one is full. *)
Definition append_cluster (table : option nat) (offs c : Z) (dn : disknode) (f : fsys) (o : allocs)
    : option (error_t * option nat * Z * disknode * fsys * allocs) :=
  let offs := offs + 1 in
  '(err, table, offs, dn, f, o) ←
    (if decide (offs = CLUSTERS_PER_TABLE) then
       '(err, p, dn, f, o) ← allocate_new_table table dn f o; Some (err, Some p, 0, dn, f, o)
     else Some (E0, table, offs, dn, f, o));
  if decide (err ≠ E0) then Some (err, table, offs, dn, f, o) else
  t ← table;
  f ← write_cell t offs c f;
  Some (E0, table, offs,
        mk_dn (start_cluster dn) (first dn) (last dn) (u64 (length_of_chain dn + 1))
          (chain_complete dn) (allocsize dn), f, o).

(** The loop of [fat_extend_chain]. *)
Fixpoint extend_loop (fuel : nat) (create : bool) (left : Z) (table : option nat) (offs prev_cluster : Z)
    (dn : disknode) (f : fsys) (o : allocs) : option (error_t * disknode * fsys * allocs) :=
  if decide (left = 0) then Some (E0, dn, f, o) else
  match fuel with
  | O => None
  | S fuel' =>
      '(r, dn, f) ← next_in_chain prev_cluster dn f;
      match r with
      | Failed err => Some (err, dn, f, o)
      | AtEnd =>
          if create then extend_loop fuel' create left table offs prev_cluster dn f o
          else Some (E0, dn, f, o)
      | Got c =>
          '(err, table, offs, dn, f, o) ← append_cluster table offs c dn f o;
          if decide (err ≠ E0) then Some (err, dn, f, o)
          else extend_loop fuel' create (u64 (left - 1)) table offs c dn f o
      end
  end.

Definition fat_extend_chain (fuel : nat) (new_last_cluster : Z) (create : bool) (dn : disknode) (f : fsys)
    (o : allocs) : option (error_t * disknode * fsys * allocs) :=
  if decide (new_last_cluster < length_of_chain dn ∨ (create = false ∧ chain_complete dn = true))
  then Some (E0, dn, f, o) else
  let left := u64 (new_last_cluster + 1 - length_of_chain dn) in
  '(offs, prev_cluster) ←
    match last dn with
    | Some _ =>
        let offs := Z.land (length_of_chain dn - 1) (CLUSTERS_PER_TABLE - 1) in
        c ← read_cell (last dn) offs f; Some (offs, c)
    | None => Some (CLUSTERS_PER_TABLE - 1, FAT_FREE_CLUSTER)
    end;
  '(err, dn, f, o) ← extend_loop fuel create left (last dn) offs prev_cluster dn f o;
  let size := u64 (Z.shiftl (length_of_chain dn) log2_bpc) in
  Some (err,
        mk_dn (start_cluster dn) (first dn) (last dn) (length_of_chain dn) (chain_complete dn)
          (if decide (allocsize dn < size) then size else allocsize dn), f, o).

(** [while (chains_to_go--) chain = chain->next;] *)
Fixpoint follow (n : nat) (chain : option nat) (f : fsys) : option (option nat) :=
  match n with
  | O => Some chain
  | S n' => t ← chain; ct ← tables f !! t; follow n' (next ct) f
  end.

Definition fat_getcluster (fuel : nat) (c : Z) (create : bool) (dn : disknode) (f : fsys) (o : allocs)
    : option (error_t * option Z * disknode * fsys * allocs) :=
  let chains_to_go := Z.shiftr c LOG2_CLUSTERS_PER_TABLE in
  let offs := Z.land c (CLUSTERS_PER_TABLE - 1) in
  '(err, dn, f, o) ←
    (if decide (length_of_chain dn ≤ c) then fat_extend_chain fuel c create dn f o
     else Some (E0, dn, f, o));
  if decide (err ≠ E0) then Some (err, None, dn, f, o) else
  if decide (length_of_chain dn ≤ c) then
    if create then None else Some (EINVAL, None, dn, f, o)
  else
    chain ← follow (Z.to_nat chains_to_go) (first dn) f;
    disk_cluster ← read_cell chain offs f;
    Some (E0, Some disk_cluster, dn, f, o).

(** The walk of [fat_truncate_node] to the last table to keep; [dn->last] is set to
    the table before it, in the last round. *)
Fixpoint walk_to_last (count : nat) (chain last : option nat) (f : fsys) : option (option nat * option nat) :=
  match count with
  | O => Some (chain, last)
  | S count' =>
      t ← chain; ct ← tables f !! t;
      walk_to_last count' (next ct) (if decide (count' = O) then chain else last) f
  end.

(** The loop that frees the clusters of positions [pos] to [pos + n]. *)
Fixpoint purge (n : nat) (chain : option nat) (offs : Z) (f : fsys) : option fsys :=
  match n with
  | O => Some f
  | S n' =>
      '(chain, offs) ←
        (if decide (offs = CLUSTERS_PER_TABLE) then
           t ← chain; ct ← tables f !! t; t' ← next ct; Some (Some t', 0)
         else Some (chain, offs));
      c ← read_cell chain offs f;
      img ← fat_write_next_cluster type nr (fat_image f) c 0;
      purge n' chain (offs + 1) (set_image img f)
  end.

(** [free] of the tables from [chain] on. *)
Fixpoint free_tables (fuel : nat) (chain : option nat) (f : fsys) : option fsys :=
  match chain, fuel with
  | None, _ => Some f
  | Some _, O => None
  | Some t, S fuel' =>
      ct ← tables f !! t; free_tables fuel' (next ct) (set_tables (delete t (tables f)) f)
  end.

Definition fat_truncate_node (fuel : nat) (root : bool) (clusters_to_keep : Z) (dn : disknode) (f : fsys)
    (o : allocs) : option (disknode * fsys * allocs) :=
  if root && (bool_decide (type ≠ FAT32) || bool_decide (clusters_to_keep = 0)) then None else
  '(_, dn, f, o) ← fat_extend_chain fuel FAT_EOC false dn f o;
  if decide (clusters_to_keep = length_of_chain dn) then Some (dn, f, o) else
  if decide (length_of_chain dn < clusters_to_keep) then None else
  let count := Z.to_nat (Z.shiftr (clusters_to_keep - 1) LOG2_CLUSTERS_PER_TABLE) in
  let dangling := Z.to_nat (length_of_chain dn - clusters_to_keep) in
  if decide (clusters_to_keep = 0) then
    f ← purge dangling (first dn) 0 f;
    f ← free_tables (S (size (tables f))) (first dn) f;
    Some (mk_dn 0 None None 0 (chain_complete dn) (allocsize dn), f, o)
  else
    let offs := Z.land (clusters_to_keep - 1) (CLUSTERS_PER_TABLE - 1) in
    '(chain, last') ← walk_to_last count (first dn) (last dn) f;
    c ← read_cell chain offs f;
    img ← fat_write_next_cluster type nr (fat_image f) c FAT_EOC;
    f ← purge dangling chain (offs + 1) (set_image img f);
    '(chain, _) ← walk_to_last count (first dn) None f;
    t ← chain; ct ← tables f !! t;
    f ← free_tables (S (size (tables f))) (next ct) f;
    Some (mk_dn (start_cluster dn) (first dn) last' clusters_to_keep (chain_complete dn) (allocsize dn), f, o).
End chain.

(** ** The list of tables *)
Definition table_cells : nat := Z.to_nat CLUSTERS_PER_TABLE.

#[global] Arguments table_cells : simpl never.
#[global] Arguments new_cells : simpl never.

Lemma length_new_cells : length new_cells = table_cells.
Proof. apply length_replicate. Qed.

Lemma table_cells_eq : Z.of_nat table_cells = 1024 ∧ CLUSTERS_PER_TABLE = 1024.
Proof. done. Qed.

Fixpoint linked (m : gmap nat cluster_chain) (p : option nat) (ps : list nat) : Prop :=
  match ps with
  | [] => p = None
  | q :: ps' => p = Some q ∧ ∃ ct, m !! q = Some ct ∧ length (cluster ct) = table_cells ∧ linked m (next ct) ps'
  end.

Lemma linked_other m p ps q ct : q ∉ ps → linked m p ps → linked (<[q := ct]> m) p ps.
Proof.
  revert p. induction ps as [|r ps IH]; intros p Hq; simpl; [done|].
  intros (-> & ct' & Hr & Hl & Hn). split; [done|]. exists ct'.
  rewrite lookup_insert_ne by set_solver. split; [done|]. split; [done|]. apply IH; [set_solver|done].
Qed.

Lemma linked_lookup m p ps q : linked m p ps → q ∈ ps → ∃ ct, m !! q = Some ct ∧ length (cluster ct) = table_cells.
Proof.
  revert p. induction ps as [|r ps IH]; intros p Hl Hq; [by apply elem_of_nil in Hq|].
  destruct Hl as (-> & ct & Hr & Hlen & Hn). apply elem_of_cons in Hq as [->|Hq]; eauto.
Qed.

(** A cell of a table of the list is written. *)
Lemma linked_write m p ps q ct cells :
  linked m p ps → m !! q = Some ct → length cells = length (cluster ct) →
  linked (<[q := mk_chain (next ct) cells]> m) p ps.
Proof.
  intros Hl Hq Hlen. revert p Hl. induction ps as [|r ps IH]; intros p; simpl; [done|].
  intros (-> & ct' & Hr & Hl & Hn). split; [done|]. destruct (decide (q = r)) as [->|Hne].
  - rewrite Hr in Hq. injection Hq as ->. eexists. split; [apply lookup_insert_eq|]. simpl.
    split; [lia|]. by apply IH.
  - exists ct'. rewrite lookup_insert_ne by done. eauto.
Qed.

(** A table is linked behind the last one. *)
Lemma linked_snoc m p ps t ct q cells :
  linked m p (ps ++ [t]) → NoDup (ps ++ [t]) → q ∉ ps ++ [t] → m !! t = Some ct →
  m !! q = Some (mk_chain None cells) → length cells = table_cells →
  linked (<[t := mk_chain (Some q) (cluster ct)]> m) p ((ps ++ [t]) ++ [q]).
Proof.
  intros Hl Hnd Hq Ht Hm Hc. revert p Hl Hnd Hq. induction ps as [|r ps IH]; intros p; simpl.
  - intros (-> & ct' & Ht' & Hlen & Hn) _ Hq. rewrite Ht in Ht'. injection Ht' as <-.
    split; [done|]. eexists. split; [apply lookup_insert_eq|]. split; [done|]. split; [done|].
    exists (mk_chain None cells). rewrite lookup_insert_ne by set_solver. done.
  - intros (-> & ct' & Hr & Hlen & Hn) [Hr' Hnd]%NoDup_cons Hq. split; [done|]. exists ct'.
    rewrite lookup_insert_ne by set_solver. split; [done|]. split; [done|]. apply IH; [done..|set_solver].
Qed.

Lemma linked_follow m ps p f (k : nat) :
  tables f = m → linked m p ps → (k ≤ length ps)%nat → follow k p f = Some (ps !! k).
Proof.
  intros <-. revert p k. induction ps as [|q ps IH]; intros p k Hl Hk; simpl in *.
  - replace k with O by lia. simpl. by rewrite Hl.
  - destruct Hl as (-> & ct & Hq & _ & Hn). destruct k as [|k]; [done|]. simpl. rewrite Hq. simpl.
    apply IH; [done|lia].
Qed.

(** ** The cache

    The first clusters of the chain, [cs], are in the tables. *)
Record cache_ok (dn : disknode) (f : fsys) (ps : list nat) (cs : list Z) : Prop := {
  ca_linked : linked (tables f) (first dn) ps;
  ca_nodup : NoDup ps;
  ca_last : last dn = head (reverse ps);
  ca_length : length_of_chain dn = zlen cs;
  ca_tables : 1024 * (zlen ps - 1) < zlen cs ≤ 1024 * zlen ps ∨ (ps = [] ∧ cs = []);
  ca_cells : ∀ i c, cs !z i = Some c →
    ∃ p ct, ps !z (i / 1024) = Some p ∧ tables f !! p = Some ct ∧ cluster ct !z (i mod 1024) = Some (Some c);
  ca_fresh : ∀ p, is_Some (tables f !! p) → (p < brk f)%nat
}.

Lemma lookupz_snoc {A} (l : list A) x i :
  0 ≤ i → (l ++ [x]) !z i = if decide (i = zlen l) then Some x else l !z i.
Proof.
  intros Hi. unfold lookupz. rewrite decide_True by done. case_decide as He.
  - subst. rewrite lookup_app_r by lia. by replace (Z.to_nat (zlen l) - length l)%nat with O by lia.
  - rewrite (decide_True (P := 0 ≤ i)) by done. destruct (decide (i < zlen l)).
    + by rewrite lookup_app_l by lia.
    + rewrite !lookup_ge_None_2; [done|lia|rewrite length_app; simpl; lia].
Qed.

(** The cell of a table, after a cell of another position was written. *)
Lemma cells_write dn f ps cs t ct j c :
  cache_ok dn f ps cs → tables f !! t = Some ct → 0 ≤ j < 1024 →
  (∀ i, 0 ≤ i < zlen cs → ps !z (i / 1024) = Some t → i mod 1024 ≠ j) →
  ∀ i c', cs !z i = Some c' → ∃ p ct', ps !z (i / 1024) = Some p
    ∧ <[t := mk_chain (next ct) (updz j (Some c) (cluster ct))]> (tables f) !! p = Some ct'
    ∧ cluster ct' !z (i mod 1024) = Some (Some c').
Proof.
  intros Hok Ht Hj Hfree i c' Hi. destruct (ca_cells _ _ _ _ Hok i c' Hi) as (p & ct' & Hp & Hct & Hc).
  exists p. destruct (decide (p = t)) as [->|Hne].
  - rewrite Hct in Ht. injection Ht as <-. eexists. split; [done|]. split; [apply lookup_insert_eq|]. simpl.
    destruct (linked_lookup _ _ _ t (ca_linked _ _ _ _ Hok)) as (ct1 & Hct1 & Hlen); [by eapply lookupz_elem_of|].
    rewrite Hct in Hct1. injection Hct1 as <-. pose proof table_cells_eq as [Htc _].
    rewrite lookupz_updz_ne; [done|lia|]. intros Heq. apply (Hfree i); [by eapply lookupz_lt|done|done].
  - exists ct'. rewrite lookup_insert_ne by done. done.
Qed.

Definition longer (dn : disknode) (first' last' : option nat) (n : Z) : disknode :=
  mk_dn (start_cluster dn) first' last' n (chain_complete dn) (allocsize dn).

(** Into the last table. *)
Lemma append_old dn f ps cs c offs :
  cache_ok dn f ps cs → zlen cs mod 1024 ≠ 0 → zlen cs < 2 ^ 63 → offs = (zlen cs - 1) mod 1024 →
  ∃ f', append_cluster (last dn) offs c dn f []
      = Some (E0, last dn, zlen cs mod 1024, longer dn (first dn) (last dn) (zlen cs + 1), f', [])
    ∧ cache_ok (longer dn (first dn) (last dn) (zlen cs + 1)) f' ps (cs ++ [c])
    ∧ fat_image f' = fat_image f ∧ next_free_cluster f' = next_free_cluster f.
Proof.
  intros Hok Hmod Hn ->. pose proof (ca_tables _ _ _ _ Hok) as Htb.
  destruct Htb as [Htb|[-> ->]]; [|done].
  destruct ps as [|t ps _] using rev_ind.
  { exfalso. apply Hmod. replace (zlen cs) with 0 by (simpl in Htb; lia). done. }
  rewrite length_app in Htb. simpl in Htb. pose proof table_cells_eq as [Htc HC].
  destruct (linked_lookup _ _ _ t (ca_linked _ _ _ _ Hok)) as (ct & Ht & Hlen); [set_solver|].
  assert (Hlast : last dn = Some t). { rewrite (ca_last _ _ _ _ Hok). by rewrite reverse_snoc. }
  unfold append_cluster. rewrite HC. assert (Ho : (zlen cs - 1) mod 1024 + 1 = zlen cs mod 1024) by div_lia.
  rewrite Ho, decide_False by div_lia. cbn [mbind option_bind]. rewrite decide_False by (intros H; by apply H).
  rewrite Hlast. cbn [mbind option_bind]. unfold write_cell. rewrite Ht. cbn [mbind option_bind].
  unfold storez. rewrite decide_True by div_lia. cbn [mbind option_bind].
  rewrite (ca_length _ _ _ _ Hok), u64_id by lia. eexists. split; [done|]. split; [|done].
  constructor; simpl; [|apply Hok| | |left; rewrite !length_app; simpl; div_lia| |].
  - apply linked_write; [apply Hok|done|]. apply length_updz.
  - by rewrite reverse_snoc.
  - rewrite length_app. simpl. lia.
  - intros i c' Hi. apply lookupz_lt in Hi as Hb. rewrite lookupz_snoc in Hi by lia.
    destruct (decide (i = zlen cs)) as [->|Hne].
    + injection Hi as <-. exists t. eexists. split.
      { rewrite lookupz_snoc by div_lia. rewrite decide_True by div_lia. done. }
      split; [apply lookup_insert_eq|]. simpl. apply lookupz_updz_eq. div_lia.
    + eapply cells_write; [done|done|div_lia| |done]. intros j Hj Hjt Hjm.
      assert (j / 1024 = zlen ps); [|div_lia].
      pose proof (ca_nodup _ _ _ _ Hok) as Hnd. rewrite lookupz_snoc in Hjt by div_lia. case_decide; [done|].
      apply lookupz_elem_of in Hjt. apply NoDup_app in Hnd as (_ & Hnd & _). by apply Hnd in Hjt; set_solver.
  - intros p Hp. apply (ca_fresh _ _ _ _ Hok). destruct (decide (p = t)) as [->|]; [eauto|].
    by rewrite lookup_insert_ne in Hp.
Qed.

(** The tables after a new one was linked and its first cell written. *)
Definition with_new_table (f : fsys) (last : option nat) (c : Z) : fsys :=
  let p := brk f in
  let m := <[p := mk_chain None new_cells]> (tables f) in
  let m := match last with
           | Some t => match m !! t with
                       | Some ct => <[t := mk_chain (Some p) (cluster ct)]> m
                       | None => m
                       end
           | None => m
           end in
  mk_fsys (fat_image f) (next_free_cluster f)
    (<[p := mk_chain None (updz 0 (Some c) new_cells)]> m) (S p).

Lemma new_table_cells f last c q ct :
  tables f !! q = Some ct → q ≠ brk f →
  ∃ ct', tables (with_new_table f last c) !! q = Some ct' ∧ cluster ct' = cluster ct.
Proof.
  intros Hq Hne. unfold with_new_table. simpl. rewrite lookup_insert_ne by done.
  destruct last as [t|]; [|rewrite lookup_insert_ne by done; eauto].
  destruct (decide (t = brk f)) as [->|Ht].
  - rewrite lookup_insert_eq, lookup_insert_ne, lookup_insert_ne by done. eauto.
  - rewrite lookup_insert_ne by done. destruct (tables f !! t) as [ct'|] eqn:E.
    + destruct (decide (q = t)) as [->|].
      * rewrite lookup_insert_eq. rewrite Hq in E. injection E as <-. eauto.
      * rewrite !lookup_insert_ne by done. eauto.
    + rewrite lookup_insert_ne by done. eauto.
Qed.

Lemma new_table_linked dn f ps cs c :
  cache_ok dn f ps cs →
  linked (tables (with_new_table f (last dn) c)) (if decide (ps = []) then Some (brk f) else first dn)
    (ps ++ [brk f]).
Proof.
  intros Hok. pose proof (ca_last _ _ _ _ Hok) as Hlast. pose proof (ca_linked _ _ _ _ Hok) as Hl.
  assert (Hp : brk f ∉ ps).
  { intros Hin. destruct (linked_lookup _ _ _ _ Hl Hin) as (ct & Hct & _).
    assert (brk f < brk f)%nat by (apply (ca_fresh _ _ _ _ Hok); eauto). lia. }
  assert (Hr : length (updz 0 (Some c) new_cells) = table_cells).
  { rewrite length_updz. apply length_new_cells. }
  unfold with_new_table. destruct ps as [|t ps _] using rev_ind.
  - rewrite Hlast. simpl. split; [done|]. eexists. split; [apply lookup_insert_eq|]. done.
  - rewrite reverse_snoc in Hlast. simpl in Hlast. rewrite Hlast, decide_False by (by destruct ps).
    destruct (linked_lookup _ _ _ t Hl) as (ct & Ht & Hlen); [set_solver|].
    assert (t ≠ brk f) by set_solver. rewrite lookup_insert_ne by done. rewrite Ht. simpl.
    assert (Hnext : ∃ cells, (<[t := mk_chain (Some (brk f)) (cluster ct)]>
        (<[brk f := mk_chain None new_cells]> (tables f))) !! brk f
        = Some (mk_chain None cells) ∧ length cells = table_cells).
    { rewrite lookup_insert_ne, lookup_insert_eq by done. eexists. split; [done|]. apply length_new_cells. }
    destruct Hnext as (cells & Hc & Hcl).
    apply (linked_write _ _ _ _ (mk_chain None cells)); [|done|cbn [cluster]; congruence].
    eapply linked_snoc; [by apply linked_other|apply Hok|done| |apply lookup_insert_eq|apply length_new_cells].
    by rewrite lookup_insert_ne.
Qed.

Lemma append_new dn f ps cs c offs :
  cache_ok dn f ps cs → zlen cs mod 1024 = 0 → zlen cs < 2 ^ 63 → offs = (zlen cs - 1) mod 1024 →
  let first' := if decide (ps = []) then Some (brk f) else first dn in
  append_cluster (last dn) offs c dn f []
    = Some (E0, Some (brk f), 0, longer dn first' (Some (brk f)) (zlen cs + 1), with_new_table f (last dn) c, [])
  ∧ cache_ok (longer dn first' (Some (brk f)) (zlen cs + 1)) (with_new_table f (last dn) c)
      (ps ++ [brk f]) (cs ++ [c]).
Proof.
  intros Hok Hmod Hn -> first'. pose proof (new_table_linked dn f ps cs c Hok) as Hlk.
  pose proof (ca_fresh _ _ _ _ Hok) as Hfr. pose proof (ca_linked _ _ _ _ Hok) as Hl.
  assert (Hps : zlen cs = 1024 * zlen ps).
  { destruct (ca_tables _ _ _ _ Hok) as [Htb|[-> ->]]; [div_lia|done]. }
  pose proof table_cells_eq as [Htc HC]. split.
  - unfold append_cluster. rewrite HC, decide_True by div_lia. unfold allocate_new_table. simpl alloc. cbv iota beta.
    pose proof (ca_last _ _ _ _ Hok) as Hlast. unfold first', with_new_table.
    destruct ps as [|t ps _] using rev_ind.
    + rewrite Hlast. simpl. rewrite (ca_length _ _ _ _ Hok), u64_id by lia.
      unfold write_cell. simpl. rewrite lookup_insert_eq. simpl. done.
    + rewrite reverse_snoc in Hlast. simpl in Hlast. rewrite Hlast, decide_False by (by destruct ps).
      destruct (linked_lookup _ _ _ t Hl) as (ct & Ht & Hlen); [set_solver|].
      assert (t ≠ brk f). { intros ->. assert (brk f < brk f)%nat by eauto. lia. }
      simpl. rewrite lookup_insert_ne, Ht by done. simpl. unfold write_cell. simpl. rewrite lookup_insert_ne, lookup_insert_eq by done. simpl.
      by rewrite (ca_length _ _ _ _ Hok), u64_id by lia.
  - constructor; simpl; [done| |by rewrite reverse_snoc|rewrite length_app; simpl; lia|left; rewrite !length_app; simpl; lia| |].
    + apply NoDup_app. split; [apply Hok|]. split; [|by apply NoDup_singleton].
      intros q Hq ->%list_elem_of_singleton. destruct (linked_lookup _ _ _ _ Hl Hq) as (ct & Hct & _).
      assert (brk f < brk f)%nat by eauto. lia.
    + intros i c' Hi. apply lookupz_lt in Hi as Hb. rewrite lookupz_snoc in Hi by lia.
      destruct (decide (i = zlen cs)) as [->|Hne].
      * injection Hi as <-. exists (brk f). eexists. split.
        { rewrite lookupz_snoc by div_lia. rewrite decide_True by div_lia. done. }
        split; [apply lookup_insert_eq|]. simpl. rewrite Hmod. apply lookupz_updz_eq. rewrite length_new_cells. lia.
      * destruct (ca_cells _ _ _ _ Hok i c' Hi) as (q & ct & Hq & Hct & Hc).
        assert (q ≠ brk f). { intros ->. assert (brk f < brk f)%nat by eauto. lia. }
        destruct (new_table_cells f (last dn) c q ct Hct) as (ct' & Hct' & Hcl); [done|].
        exists q, ct'. rewrite Hcl. split; [|done]. rewrite lookupz_snoc by div_lia.
        apply lookupz_lt in Hq as Hqb. by rewrite decide_False by lia.
    + intros q Hq. unfold with_new_table in Hq. simpl in Hq.
      destruct (decide (q = brk f)) as [->|Hqp]; [lia|]. rewrite lookup_insert_ne in Hq by done.
      assert (is_Some (tables f !! q)); [|assert (q < brk f)%nat by eauto; lia].
      destruct (last dn) as [t|]; [|by rewrite lookup_insert_ne in Hq].
      destruct (_ !! t) as [ct|] eqn:E; [|by rewrite lookup_insert_ne in Hq].
      destruct (decide (q = t)) as [->|]; [rewrite lookup_insert_ne in E by done; eauto|].
      by rewrite !lookup_insert_ne in Hq.
Qed.

(** Both cases: one more cluster is in the cache. *)
Lemma append_ok dn f ps cs c offs :
  cache_ok dn f ps cs → zlen cs < 2 ^ 63 → offs = (zlen cs - 1) mod 1024 →
  ∃ dn' f' ps', append_cluster (last dn) offs c dn f []
      = Some (E0, last dn', zlen cs mod 1024, dn', f', [])
    ∧ cache_ok dn' f' ps' (cs ++ [c]) ∧ start_cluster dn' = start_cluster dn
    ∧ chain_complete dn' = chain_complete dn
    ∧ fat_image f' = fat_image f ∧ next_free_cluster f' = next_free_cluster f.
Proof.
  intros Hok Hn Ho. destruct (decide (zlen cs mod 1024 = 0)) as [Hmod|Hmod].
  - destruct (append_new dn f ps cs c offs Hok Hmod Hn Ho) as [Ha Hok']. eexists (longer _ _ _ _), _, _.
    split; [rewrite Ha, Hmod; done|]. split; [exact Hok'|]. done.
  - destruct (append_old dn f ps cs c offs Hok Hmod Hn Ho) as (f' & Ha & Hok' & ? & ?).
    eexists (longer _ _ _ _), _, _. split; [exact Ha|]. split; [exact Hok'|]. done.
Qed.

(** ** Chains on the disk *)
Section disk.
Context (type : fat_t) (nr : Z) (Hmarks : nr + 2 ≤ bad_mark type).

Definition data (c : Z) : Prop := 2 ≤ c < nr + 2.

(** [full] is the chain that starts at [start]: its links lead from each cluster to
    the next, and from the last one to the end mark. *)
Record on_disk (img : list Z) (start : Z) (full : list Z) : Prop := {
  od_data : Forall data full;
  od_nodup : NoDup full;
  od_start : match full with
             | [] => start = FAT_FREE_CLUSTER ∨ start = FAT_EOC
             | c :: _ => start = c
             end;
  od_links : ∀ i c, full !z i = Some c →
    fat_get_next_cluster type nr img c = Some (default FAT_EOC (full !z (i + 1)))
}.

Record file_ok (dn : disknode) (f : fsys) (full cs : list Z) (ps : list nat) : Prop := {
  fo_table : table_ok type nr (fat_image f);
  fo_next : 2 ≤ next_free_cluster f < nr + 2;
  fo_disk : on_disk (fat_image f) (start_cluster dn) full;
  fo_cache : cache_ok dn f ps cs;
  fo_prefix : cs `prefix_of` full
}.

Definition complete_ok (dn : disknode) (full cs : list Z) : Prop := chain_complete dn = true → cs = full.

(** The chain was extended by clusters that were free; other links are as before. *)
Definition grew (img full img' full' : list Z) : Prop :=
  ∃ new, full' = full ++ new ∧ Forall (is_free type nr img) new
    ∧ ∀ c, data c → c ∉ full' → fat_get_next_cluster type nr img' c = fat_get_next_cluster type nr img c.

Lemma grew_refl img full : grew img full img full.
Proof. exists []. rewrite app_nil_r. done. Qed.

Lemma grew_trans img full img1 full1 img2 full2 start :
  grew img full img1 full1 → grew img1 full1 img2 full2 → on_disk img2 start full2 →
  grew img full img2 full2.
Proof.
  intros (n1 & -> & Hf1 & Hu1) (n2 & -> & Hf2 & Hu2) Hd. exists (n1 ++ n2). split; [by rewrite app_assoc|].
  pose proof (od_nodup _ _ _ Hd) as Hnd. pose proof (od_data _ _ _ Hd) as Hda. split.
  - apply Forall_app. split; [done|]. rewrite Forall_forall in Hf2, Hda. apply Forall_forall. intros c Hc.
    unfold is_free. rewrite <-Hu1; [by apply Hf2|apply Hda; set_solver|].
    intros Hin. apply NoDup_app in Hnd as (_ & Hnd & _). by apply (Hnd c).
  - intros c Hc Hni. rewrite Hu2 by done. apply Hu1; set_solver.
Qed.

(** A cluster of a chain is not free. *)
Lemma chain_not_free img start full c : on_disk img start full → is_free type nr img c → c ∉ full.
Proof.
  intros Hd Hfree Hin. apply elem_of_lookupz in Hin as [i Hi].
  pose proof (od_links _ _ _ Hd i c Hi) as Hl. unfold is_free in Hfree. rewrite Hfree in Hl.
  injection Hl as Hl. destruct (full !z (i + 1)) as [c'|] eqn:E; simpl in Hl; [|done]. subst c'.
  apply lookupz_elem_of in E. pose proof (od_data _ _ _ Hd) as Hda. rewrite Forall_forall in Hda.
  apply Hda in E. unfold data in E. lia.
Qed.

Lemma data_link c : data c → link_ok type c ∧ c ≠ FAT_EOC ∧ c ≠ FAT_FREE_CLUSTER ∧ 0 ≤ c.
Proof.
  intros Hc. unfold data in Hc. unfold link_ok.
  assert (bad_mark type ≤ 0x0ffffff7) by (destruct type; vm_compute; congruence).
  lia.
Qed.

Lemma eoc_link : link_ok type FAT_EOC.
Proof. by right; right. Qed.

(** The last cluster of a list, 0 if there is none. *)
Definition last_cluster (cs : list Z) : Z := default FAT_FREE_CLUSTER (head (reverse cs)).

Lemma last_cluster_lookup cs c : cs !z (zlen cs - 1) = Some c → last_cluster cs = c.
Proof.
  destruct cs as [|x cs _] using rev_ind; [done|]. rewrite length_app. simpl.
  rewrite lookupz_snoc by lia. rewrite decide_True by lia. intros [= <-].
  unfold last_cluster. by rewrite reverse_snoc.
Qed.

Lemma last_cluster_data cs : cs ≠ [] → Forall data cs → data (last_cluster cs) ∧ cs !z (zlen cs - 1) = Some (last_cluster cs).
Proof.
  intros Hne Hd. destruct cs as [|x cs _] using rev_ind; [done|]. unfold last_cluster. rewrite reverse_snoc. simpl.
  apply Forall_app in Hd as [_ Hd]. apply Forall_cons in Hd as [Hd _]. split; [done|].
  rewrite length_app. simpl. rewrite lookupz_snoc by lia. by rewrite decide_True by lia.
Qed.

(** A new cluster behind the last one of a chain. *)
Lemma extend_disk img img1 img2 start full c :
  on_disk img start full → is_free type nr img c → data c → table_ok type nr img1 →
  fat_get_next_cluster type nr img1 c = Some FAT_EOC →
  (∀ c', data c' → c' ≠ c → fat_get_next_cluster type nr img1 c' = fat_get_next_cluster type nr img c') →
  (full = [] → img2 = img1) →
  (full ≠ [] → fat_get_next_cluster type nr img2 (last_cluster full) = Some c
     ∧ ∀ c', data c' → c' ≠ last_cluster full →
         fat_get_next_cluster type nr img2 c' = fat_get_next_cluster type nr img1 c') →
  on_disk img2 (if decide (full = []) then c else start) (full ++ [c]) ∧ grew img full img2 (full ++ [c]).
Proof.
  intros Hd Hfree Hc Hok1 Hg1 Ho1 Hnil Hcons. pose proof (chain_not_free _ _ _ _ Hd Hfree) as Hni.
  pose proof (od_data _ _ _ Hd) as Hda.
  assert (Hg2 : ∀ c', data c' → c' ∉ full ++ [c] → fat_get_next_cluster type nr img2 c' = fat_get_next_cluster type nr img c').
  { intros c' Hc' Hn'. destruct (decide (full = [])) as [He|Hne].
    - rewrite Hnil by done. apply Ho1; [done|set_solver].
    - destruct (Hcons Hne) as [_ Ho2]. destruct (last_cluster_data full Hne Hda) as [_ Hl].
      apply lookupz_elem_of in Hl. rewrite Ho2; [apply Ho1; [done|set_solver]|done|set_solver]. }
  split.
  2:{ exists [c]. split; [done|]. split; [by constructor|done]. }
  constructor.
  - apply Forall_app. split; [done|]. by constructor.
  - apply NoDup_app. split; [apply Hd|]. split; [|apply NoDup_singleton]. set_solver.
  - destruct full as [|x full]; simpl; [done|]. apply (od_start _ _ _ Hd).
  - intros i x Hi. apply lookupz_lt in Hi as Hb. rewrite length_app in Hb. simpl in Hb.
    rewrite (lookupz_snoc full c (i + 1)) by lia. rewrite lookupz_snoc in Hi by lia.
    destruct (decide (i = zlen full)) as [->|Hne].
    + injection Hi as <-. rewrite decide_False by lia.
      assert (full !z (zlen full + 1) = None) as ->.
      { unfold lookupz. rewrite decide_True by lia. apply lookup_ge_None_2. lia. }
      destruct (decide (full = [])) as [He|Hne]; [by rewrite Hnil|]. destruct (Hcons Hne) as [_ Ho2].
      destruct (last_cluster_data full Hne Hda) as [_ Hl]. apply lookupz_elem_of in Hl.
      rewrite Ho2; [done|done|]. intros ->. done.
    + apply lookupz_lt in Hi as Hb'. assert (Hfne : full ≠ []) by (intros ->; simpl in Hb'; lia).
      destruct (Hcons Hfne) as [Hlast Ho2]. destruct (last_cluster_data full Hfne Hda) as [_ Hl].
      destruct (decide (i + 1 = zlen full)) as [Hend|Hmid].
      * replace (zlen full - 1) with i in Hl by lia. rewrite Hi in Hl. injection Hl as ->. by rewrite Hlast.
      * assert (Hxd : data x). { apply lookupz_elem_of in Hi. rewrite Forall_forall in Hda. auto. }
        assert (x ≠ last_cluster full).
        { intros ->. pose proof (od_nodup _ _ _ Hd) as Hnd. unfold lookupz in Hi, Hl.
          rewrite decide_True in Hi by lia. rewrite decide_True in Hl by lia.
          pose proof (NoDup_lookup _ _ _ _ Hnd Hi Hl). lia. }
        assert (x ≠ c). { intros ->. apply lookupz_elem_of in Hi. done. }
        rewrite Ho2, Ho1 by done. by apply (od_links _ _ _ Hd).
Qed.

Lemma prefix_next (cs full : list Z) :
  cs `prefix_of` full → cs ≠ full → ∃ c, full !z zlen cs = Some c ∧ cs ++ [c] `prefix_of` full.
Proof.
  intros [k ->] Hne. destruct k as [|c k]; [by rewrite app_nil_r in Hne|]. exists c. split.
  - by apply lookupz_mid.
  - exists k. by rewrite <-app_assoc.
Qed.

(** The next cluster of a chain whose end is not known. *)
Lemma next_known dn f full cs ps :
  file_ok dn f full cs ps → chain_complete dn = false →
  (∃ c, cs ++ [c] `prefix_of` full ∧ next_in_chain type nr (last_cluster cs) dn f = Some (Got c, dn, f))
  ∨ (cs = full ∧ next_in_chain type nr (last_cluster cs) dn f
       = Some (AtEnd, mk_dn (start_cluster dn) (first dn) (last dn) (length_of_chain dn) true (allocsize dn), f)).
Proof.
  intros Hf Hc. pose proof (fo_disk _ _ _ _ _ Hf) as Hd. pose proof (fo_prefix _ _ _ _ _ Hf) as Hp.
  pose proof (od_data _ _ _ Hd) as Hda.
  assert (Hdc : Forall data cs). { destruct Hp as [k ->]. by apply Forall_app in Hda as [? _]. }
  assert (Hnext : (if decide (last_cluster cs ≠ FAT_FREE_CLUSTER)
      then fat_get_next_cluster type nr (fat_image f) (last_cluster cs) else Some (start_cluster dn))
      = Some (match full !z zlen cs with
              | Some c => c | None => if decide (cs = []) then start_cluster dn else FAT_EOC end)).
  { destruct (decide (cs = [])) as [->|Hne].
    - rewrite decide_False by (intros H; by apply H). pose proof (od_start _ _ _ Hd) as Hs.
      destruct full as [|c full]; simpl; [done|]. by rewrite Hs.
    - destruct (last_cluster_data cs Hne Hdc) as [Hl Hi]. destruct (data_link _ Hl) as (_ & _ & Hnz & _).
      rewrite decide_True by done. destruct Hp as [k Hk].
      assert (Hi' : full !z (zlen cs - 1) = Some (last_cluster cs)).
      { rewrite Hk. apply lookupz_lt in Hi as Hb. unfold lookupz in *. rewrite decide_True in * by lia.
        by apply lookup_app_l_Some. }
      rewrite (od_links _ _ _ Hd _ _ Hi'). replace (zlen cs - 1 + 1) with (zlen cs) by lia.
      by destruct (full !z zlen cs). }
  unfold next_in_chain. rewrite Hc. setoid_rewrite Hnext. cbn [mbind option_bind].
  destruct (decide (cs = full)) as [->|Hne].
  - right. split; [done|]. assert (full !z zlen full = None) as ->.
    { unfold lookupz. rewrite decide_True by lia. apply lookup_ge_None_2. lia. }
    rewrite decide_True; [done|]. destruct (decide (full = [])) as [->|]; [|by left].
    pose proof (od_start _ _ _ Hd) as Hs. simpl in Hs. naive_solver.
  - left. destruct (prefix_next cs full Hp Hne) as (c & Hi & Hpre). exists c. split; [done|]. rewrite Hi.
    apply lookupz_elem_of in Hi. rewrite Forall_forall in Hda. destruct (data_link c) as (_ & ? & ? & _); [auto|].
    rewrite decide_False by naive_solver. done.
Qed.

(** The end of the chain is known: a cluster is allocated, or none is free. *)
Lemma next_new dn f full ps :
  file_ok dn f full full ps → chain_complete dn = true →
  (∃ c dn' f', next_in_chain type nr (last_cluster full) dn f = Some (Got c, dn', f')
     ∧ file_ok dn' f' (full ++ [c]) full ps ∧ chain_complete dn' = true ∧ last dn' = last dn
     ∧ grew (fat_image f) full (fat_image f') (full ++ [c]))
  ∨ (∃ f', next_in_chain type nr (last_cluster full) dn f = Some (Failed ENOSPC, dn, f')
       ∧ file_ok dn f' full full ps ∧ fat_image f' = fat_image f
       ∧ ∀ c, data c → ¬ is_free type nr (fat_image f') c).
Proof.
  intros Hf Hc. pose proof (fo_disk _ _ _ _ _ Hf) as Hd. pose proof (fo_cache _ _ _ _ _ Hf) as Hca.
  unfold next_in_chain. rewrite Hc.
  destruct (allocate_spec type nr (fat_image f) (next_free_cluster f) FAT_EOC (fo_table _ _ _ _ _ Hf)
    (fo_next _ _ _ _ _ Hf) eoc_link) as (nf & Hnf & Hor); [done|].
  destruct Hor as [(c & img1 & -> & Hcd & Hfree & _ & Hok1 & _ & Hg1 & Ho1)|[-> Hnone]]; cbn [mbind option_bind].
  2:{ right. eexists. split; [done|]. split; [|done]. constructor; [apply Hf|done|done| |apply Hf].
      destruct Hca. by constructor. }
  left. destruct (decide (full = [])) as [->|Hne].
  - cbn [last_cluster]. rewrite decide_False by (intros H; by apply H). eexists _, _, _. split; [done|].
    destruct (extend_disk (fat_image f) img1 img1 (start_cluster dn) [] c) as [Hd' Hgr]; try done.
    split; [|done]. constructor; simpl; [done|done|done| |by exists [c]]. destruct Hca. by constructor.
  - destruct (last_cluster_data full Hne (od_data _ _ _ Hd)) as [Hl Hi].
    destruct (data_link _ Hl) as (_ & _ & Hnz & _). rewrite decide_True by done.
    destruct (data_link _ Hcd) as (Hlc & _ & _ & Hc0).
    destruct (write_next_ok type nr img1 (last_cluster full) c Hok1 Hl Hc0) as (img2 & Hw & Hs).
    simpl. rewrite Hw. cbn [mbind option_bind].
    destruct (entry_set_get type nr img1 (last_cluster full) c img2 Hok1 Hl Hlc Hs) as [Hg2 Ho2].
    destruct (extend_disk (fat_image f) img1 img2 (start_cluster dn) full c) as [Hd' Hgr]; try done.
    rewrite decide_False in Hd' by done. eexists _, _, _. split; [done|].
    split; [|done]. constructor; simpl; [apply Hs|done|done| |by exists [c]]. destruct Hca. by constructor.
Qed.

Lemma last_cluster_snoc cs c : last_cluster (cs ++ [c]) = c.
Proof. unfold last_cluster. by rewrite reverse_snoc. Qed.

(** How a run of the loop ends: [n] clusters are in the cache; the chain ends
    before, and is not to be extended; or the disk is full. *)
Definition extended (create : bool) (n : Z) (err : error_t) (img' full full' cs' : list Z) : Prop :=
  (err = E0 ∧ (zlen cs' = n ∨ (create = false ∧ cs' = full')))
  ∨ (err = ENOSPC ∧ create = true ∧ cs' = full' ∧ zlen cs' < n ∧ ∀ c, data c → ¬ is_free type nr img' c).

(** What the loop does from a file with chain [full] and cache [cs], to get [left]
    more clusters. *)
Definition loop_post (create : bool) (left : Z) (f : fsys) (full cs : list Z)
    (r : option (error_t * disknode * fsys * allocs)) : Prop :=
  ∃ err dn' f' full' cs' ps', r = Some (err, dn', f', [])
    ∧ file_ok dn' f' full' cs' ps' ∧ complete_ok dn' full' cs'
    ∧ grew (fat_image f) full (fat_image f') full' ∧ cs `prefix_of` cs' ∧ zlen cs' ≤ zlen cs + left
    ∧ (full' = full ∨ create = true ∧ cs' = full')
    ∧ extended create (zlen cs + left) err (fat_image f') full full' cs'.

Definition loop_ok (create : bool) (fuel : nat) : Prop := ∀ left dn f full cs ps,
  file_ok dn f full cs ps → complete_ok dn full cs → (create = true ∨ chain_complete dn = false) →
  0 ≤ left → zlen cs + left < 2 ^ 63 →
  left + (if chain_complete dn then 0 else 1) ≤ Z.of_nat fuel →
  loop_post create left f full cs
    (extend_loop type nr fuel create left (last dn) ((zlen cs - 1) mod 1024) (last_cluster cs) dn f []).

Lemma loop_stop create left dn f full cs ps :
  file_ok dn f full cs ps → complete_ok dn full cs → 0 ≤ left →
  left = 0 ∨ (create = false ∧ cs = full) →
  loop_post create left f full cs (Some (E0, dn, f, [])).
Proof.
  intros Hf Hc Hl Hor. exists E0, dn, f, full, cs, ps. split; [done|]. do 2 (split; [done|]).
  split; [apply grew_refl|]. split; [done|]. split; [lia|]. split; [by left|].
  left. split; [done|]. destruct Hor as [->|?]; [left; lia|by right].
Qed.

(** A cluster [c] was found: it is stored, and the loop goes on. *)
Lemma loop_step create fuel left dn f full cs c f1 full1 ps :
  loop_ok create fuel → file_ok dn f1 full1 cs ps → cs ++ [c] `prefix_of` full1 →
  (create = true ∨ chain_complete dn = false) →
  (chain_complete dn = true → cs ++ [c] = full1) → 0 < left → zlen cs + left < 2 ^ 63 →
  left - 1 + (if chain_complete dn then 0 else 1) ≤ Z.of_nat fuel →
  grew (fat_image f) full (fat_image f1) full1 → full1 = full ∨ create = true ∧ cs ++ [c] = full1 →
  loop_post create left f full cs
    ('(err, table, offs, dn, f, o) ← append_cluster (last dn) ((zlen cs - 1) mod 1024) c dn f1 [];
     if decide (err ≠ E0) then Some (err, dn, f, o)
     else extend_loop type nr fuel create (u64 (left - 1)) table offs c dn f o).
Proof.
  intros IH Hf1 Hp1 Hcr Hc1 Hl Hb Hfu Hg Hor.
  destruct (append_ok dn f1 ps cs c ((zlen cs - 1) mod 1024) (fo_cache _ _ _ _ _ Hf1))
    as (dn2 & f2 & ps2 & -> & Hca & Hst & Hcp & Him & Hnf); [lia|done|].
  cbn [mbind option_bind]. rewrite decide_False by (intros H; by apply H). rewrite u64_id by lia.
  assert (Hz : zlen (cs ++ [c]) = zlen cs + 1) by (rewrite length_app; simpl; lia).
  destruct (IH (left - 1) dn2 f2 full1 (cs ++ [c]) ps2) as
    (err & dn' & f' & full' & cs' & ps' & Hr & Hf' & Hc' & Hg' & Hpc & Hzl & Hfu' & He).
  - destruct Hf1 as [Ht Hn Hd Hca1 Hpre]. constructor; [by rewrite Him|by rewrite Hnf|by rewrite Him, Hst|done..].
  - intros Htr. apply Hc1. congruence.
  - by rewrite Hcp.
  - lia.
  - lia.
  - by rewrite Hcp.
  - rewrite Hz, last_cluster_snoc in Hr. replace (zlen cs + 1 - 1) with (zlen cs) in Hr by lia.
    exists err, dn', f', full', cs', ps'. split; [exact Hr|]. do 2 (split; [done|]).
    rewrite Him in Hg'. split; [by eapply grew_trans; [..|apply Hf']|].
    split; [etrans; [|done]; by exists [c]|]. rewrite Hz in Hzl, He. split; [lia|].
    replace (zlen cs + 1 + (left - 1)) with (zlen cs + left) in He by lia. split; [|done].
    destruct Hfu' as [->|?]; [|by right]. destruct Hor as [->|[? Heq]]; [by left|]. right. split; [done|].
    pose proof (fo_prefix _ _ _ _ _ Hf') as Hpre. rewrite Heq in Hpc. by apply (anti_symm prefix).
Qed.

Lemma extend_loop_spec create fuel : loop_ok create fuel.
Proof.
  induction fuel as [|fuel IH]; intros left dn f full cs ps Hf Hc Hcr Hl Hb Hfu.
  { assert (left = 0) as -> by (destruct (chain_complete dn); lia). simpl.
    eapply loop_stop; [done|done|lia|by left]. }
  cbn [extend_loop]. destruct (decide (left = 0)) as [->|Hl0]; [eapply loop_stop; [done|done|lia|by left]|].
  destruct (chain_complete dn) eqn:Hcd.
  - pose proof (Hc Hcd) as ->. destruct (next_new dn f full ps Hf Hcd)
      as [(c & dn1 & f1 & -> & Hf1 & Hc1 & Hlast & Hg1)|(f1 & -> & Hf1 & Him & Hnone)]; cbn [mbind option_bind].
    + rewrite <-Hlast. destruct Hcr as [->|?]; [|congruence].
      eapply loop_step; [done|done|done|by left|done|lia|lia| |done|by right]. rewrite Hc1. lia.
    + destruct Hcr as [->|?]; [|congruence].
      exists ENOSPC, dn, f1, full, full, ps. split; [done|]. do 2 (split; [done|]).
      rewrite Him. split; [apply grew_refl|]. split; [done|]. split; [lia|]. split; [by left|]. right.
      rewrite <-Him. split_and!; [done..|lia|done].
  - destruct (next_known dn f full cs ps Hf Hcd) as [(c & Hp & ->)|[-> ->]]; cbn [mbind option_bind].
    + eapply loop_step; [done|done|done|by right|congruence|lia|lia| |apply grew_refl|by left]. rewrite Hcd. lia.
    + set (dn1 := mk_dn _ _ _ _ _ _). assert (Hf1 : file_ok dn1 f full full ps).
      { destruct Hf as [? ? ? Hca ?]. constructor; try done. destruct Hca. by constructor. }
      destruct create; [|eapply loop_stop; [done|done|lia|by right]].
      change (last dn) with (last dn1). apply (IH left dn1 f full full ps Hf1); [done|by left|done|done|]. simpl. lia.
Qed.

(** Reading the cache. *)
Lemma read_cached dn f ps cs i c :
  cache_ok dn f ps cs → cs !z i = Some c → read_cell (ps !z (i / 1024)) (i mod 1024) f = Some c.
Proof.
  intros Hok Hi. destruct (ca_cells _ _ _ _ Hok i c Hi) as (p & ct & Hp & Hct & Hc).
  unfold read_cell. rewrite Hp. simpl. rewrite Hct. simpl. by rewrite Hc.
Qed.

Lemma last_table dn f ps cs :
  cache_ok dn f ps cs → cs ≠ [] → ps !z ((zlen cs - 1) / 1024) = last dn.
Proof.
  intros Hok Hne. destruct (ca_tables _ _ _ _ Hok) as [Htb|[_ ->]]; [|done].
  rewrite (ca_last _ _ _ _ Hok). destruct ps as [|t ps _] using rev_ind.
  { simpl in Htb. destruct cs; [done|simpl in Htb; lia]. }
  rewrite length_app in Htb. simpl in Htb. rewrite reverse_snoc. simpl.
  rewrite lookupz_snoc by div_lia. by rewrite decide_True by div_lia.
Qed.

Lemma file_ok_allocsize dn f full cs ps n :
  file_ok dn f full cs ps →
  file_ok (mk_dn (start_cluster dn) (first dn) (last dn) (length_of_chain dn) (chain_complete dn) n) f full cs ps.
Proof. intros [? ? ? Hca ?]. constructor; try done. destruct Hca. by constructor. Qed.

Lemma extend_chain_spec log2_bpc fuel new_last create dn f full cs ps :
  file_ok dn f full cs ps → complete_ok dn full cs → 0 ≤ new_last < 2 ^ 62 →
  new_last + 2 ≤ Z.of_nat fuel →
  loop_post create (Z.max 0 (new_last + 1 - zlen cs)) f full cs
    (fat_extend_chain type nr log2_bpc fuel new_last create dn f []).
Proof.
  intros Hf Hc Hn Hfu. pose proof (fo_cache _ _ _ _ _ Hf) as Hca. pose proof (ca_length _ _ _ _ Hca) as Hlen.
  unfold fat_extend_chain. rewrite Hlen. case_decide as Hd.
  { eapply loop_stop; [done|done|lia|]. destruct Hd as [?|[? Hcc]]; [left; lia|right; auto]. }
  assert (¬ new_last < zlen cs) by naive_solver.
  rewrite Z.max_r, u64_id by lia. pose proof table_cells_eq as [_ ->].
  assert (Hstart : match last dn with
    | Some _ => c ← read_cell (last dn) (Z.land (zlen cs - 1) (1024 - 1)) f; Some (Z.land (zlen cs - 1) (1024 - 1), c)
    | None => Some (1024 - 1, FAT_FREE_CLUSTER) end = Some ((zlen cs - 1) mod 1024, last_cluster cs)).
  { destruct (decide (cs = [])) as [->|Hne].
    - pose proof (ca_last _ _ _ _ Hca) as Hla. destruct (ca_tables _ _ _ _ Hca) as [Htb|[-> _]].
      + destruct ps; [by rewrite Hla|simpl in Htb; lia].
      + by rewrite Hla.
    - pose proof (od_data _ _ _ (fo_disk _ _ _ _ _ Hf)) as Hda.
      destruct (last_cluster_data cs Hne) as [_ Hi].
      { destruct (fo_prefix _ _ _ _ _ Hf) as [k ->]. by apply Forall_app in Hda as [? _]. }
      pose proof (read_cached dn f ps cs _ _ Hca Hi) as Hr. rewrite (last_table dn f ps cs Hca Hne) in Hr.
      rewrite (land_low _ 10) by done. change (2 ^ 10) with 1024. destruct (last dn); [|done]. by rewrite Hr. }
  rewrite Hstart. cbn [mbind option_bind].
  destruct (extend_loop_spec create fuel (new_last + 1 - zlen cs) dn f full cs ps Hf Hc) as
    (err & dn' & f' & full' & cs' & ps' & -> & Hf' & Hc' & Hrest); [|lia|lia| |].
  - destruct create; [by left|]. right. destruct (chain_complete dn); [naive_solver|done].
  - destruct (chain_complete dn); lia.
  - cbn [mbind option_bind]. exists err. eexists _, f', full', cs', ps'. split; [done|].
    split; [by apply file_ok_allocsize|]. done.
Qed.
End disk.

Lemma lookupz_app_l {A} (l k : list A) i x : l !z i = Some x → (l ++ k) !z i = Some x.
Proof.
  intros Hx. apply lookupz_lt in Hx as Hb. unfold lookupz in *. rewrite decide_True in * by lia.
  by apply lookup_app_l_Some.
Qed.

(** A cluster that is in the cache. *)
Lemma getcluster_cached dn f ps cs c :
  cache_ok dn f ps cs → 0 ≤ c < zlen cs →
  ∃ y, cs !z c = Some y
    ∧ (chain ← follow (Z.to_nat (Z.shiftr c LOG2_CLUSTERS_PER_TABLE)) (first dn) f;
       disk_cluster ← read_cell chain (Z.land c (CLUSTERS_PER_TABLE - 1)) f;
       Some (E0, Some disk_cluster, dn, f, @nil bool)) = Some (E0, Some y, dn, f, []).
Proof.
  intros Hca Hc. destruct (lookupz_is_Some cs c Hc) as [y Hy]. exists y. split; [done|].
  pose proof (read_cached dn f ps cs c y Hca Hy) as Hr.
  destruct (ca_cells _ _ _ _ Hca c y Hy) as (p & _ & Hp & _). apply lookupz_lt in Hp as Hb.
  unfold LOG2_CLUSTERS_PER_TABLE. rewrite Z.shiftr_div_pow2 by lia. change (2 ^ 10) with 1024.
  rewrite (linked_follow (tables f) ps); [|done|apply Hca|lia]. cbn [mbind option_bind].
  pose proof table_cells_eq as [_ ->]. rewrite (land_low c 10) by done. change (2 ^ 10) with 1024.
  unfold lookupz in Hr. rewrite decide_True in Hr by lia. by rewrite Hr.
Qed.

(** The first part of [fat_getcluster]. *)
Lemma getcluster_extend type nr log2_bpc fuel c create dn f full cs ps :
  nr + 2 ≤ bad_mark type → file_ok type nr dn f full cs ps → complete_ok dn full cs →
  0 ≤ c < 2 ^ 62 → c + 2 ≤ Z.of_nat fuel →
  ∃ err dn' f' full' cs' ps',
    (if decide (length_of_chain dn ≤ c) then fat_extend_chain type nr log2_bpc fuel c create dn f []
     else Some (E0, dn, f, [])) = Some (err, dn', f', [])
    ∧ file_ok type nr dn' f' full' cs' ps' ∧ complete_ok dn' full' cs'
    ∧ grew type nr (fat_image f) full (fat_image f') full' ∧ zlen cs' ≤ Z.max (zlen cs) (c + 1)
    ∧ (full' = full ∨ create = true ∧ cs' = full')
    ∧ extended type nr create (Z.max (zlen cs) (c + 1)) err (fat_image f') full full' cs'.
Proof.
  intros Hmarks Hf Hc Hcb Hfu. rewrite (ca_length _ _ _ _ (fo_cache _ _ _ _ _ _ _ Hf)). case_decide as Hd.
  - destruct (extend_chain_spec type nr Hmarks log2_bpc fuel c create dn f full cs ps Hf Hc Hcb Hfu)
      as (err & dn' & f' & full' & cs' & ps' & Hr & Hf' & Hc' & Hg & _ & Hz & Hor & He).
    replace (zlen cs + Z.max 0 (c + 1 - zlen cs)) with (Z.max (zlen cs) (c + 1)) in Hz, He by lia.
    exists err, dn', f', full', cs', ps'. auto 10.
  - exists E0, dn, f, full, cs, ps. split; [done|]. do 2 (split; [done|]). split; [apply grew_refl|].
    split; [lia|]. split; [by left|]. left. split; [done|]. left. lia.
Qed.

(** C19. The cluster cache refines the chain on the disk: for a file whose table
    entries form a chain, of which any first part is cached, asking for a cluster
    of the chain returns the one at that place and changes no link; asking beyond
    the end returns [EINVAL], or, to create, extends the chain by clusters that
    were free up to the one asked for and returns it, leaving all links outside
    of the chain alone, or reports that no cluster is free.  The result is again
    a file whose cache is a first part of its chain.  Every allocation succeeds. *)
Theorem fat_getcluster_refines type nr log2_bpc fuel c create dn f full cs ps :
  nr + 2 ≤ bad_mark type → file_ok type nr dn f full cs ps → complete_ok dn full cs →
  0 ≤ c < 2 ^ 62 → c + 2 ≤ Z.of_nat fuel →
  ∃ err r dn' f' full' cs' ps',
    fat_getcluster type nr log2_bpc fuel c create dn f [] = Some (err, r, dn', f', [])
    ∧ file_ok type nr dn' f' full' cs' ps' ∧ complete_ok dn' full' cs'
    ∧ grew type nr (fat_image f) full (fat_image f') full'
    ∧ match full !z c with
      | Some x => err = E0 ∧ r = Some x ∧ full' = full
      | None =>
          if create then
            (err = E0 ∧ zlen full' = c + 1 ∧ r = full' !z c)
            ∨ (err = ENOSPC ∧ r = None ∧ ∀ x, data nr x → ¬ is_free type nr (fat_image f') x)
          else err = EINVAL ∧ r = None ∧ full' = full
      end.
Proof.
  intros Hmarks Hf Hc Hcb Hfu.
  destruct (getcluster_extend type nr log2_bpc fuel c create dn f full cs ps Hmarks Hf Hc Hcb Hfu) as (err & dn' & f' & full' & cs' & ps' & Hr & Hf' & Hc' & Hg & Hz & Hor & He).
  unfold fat_getcluster. rewrite Hr. cbn [mbind option_bind].
  pose proof (fo_cache _ _ _ _ _ _ _ Hf') as Hca'. rewrite (ca_length _ _ _ _ Hca').
  assert (Hpre : full `prefix_of` full') by (destruct Hg as (new & -> & _); by exists new).
  assert (Hsame : ∀ x, full !z c = Some x → full' !z c = Some x).
  { intros x Hx. destruct Hpre as [k ->]. by apply lookupz_app_l. }
  assert (Hsc : zlen cs ≤ zlen full ∧ zlen full ≤ zlen full').
  { split; apply inj_le, prefix_length; [apply (fo_prefix _ _ _ _ _ _ _ Hf)|done]. }
  destruct He as [[-> Hlen]|(-> & -> & -> & Hlt & Hnone)].
  2:{ rewrite decide_True by done. eexists _, _, _, _, full', full', ps'. split; [done|]. do 3 (split; [done|]).
      destruct (full !z c) as [x|] eqn:Ex; [|by right]. apply lookupz_lt in Ex. lia. }
  rewrite decide_False by (intros H; by apply H). destruct (decide (zlen cs' ≤ c)) as [Hle|Hle].
  - destruct Hlen as [Hlen|[-> ->]]; [lia|]. destruct Hor as [->|[? _]]; [|done].
    eexists _, _, _, _, full, full, ps'. split; [done|]. do 3 (split; [done|]).
    destruct (full !z c) as [x|] eqn:Ex; [apply lookupz_lt in Ex; lia|done].
  - destruct (getcluster_cached dn' f' ps' cs' c Hca') as (y & Hy & Hread); [lia|].
    assert (Hy' : full' !z c = Some y).
    { destruct (fo_prefix _ _ _ _ _ _ _ Hf') as [k ->]. by apply lookupz_app_l. }
    rewrite Hread. eexists _, _, _, _, full', cs', ps'. split; [done|]. do 3 (split; [done|]).
    destruct (full !z c) as [x|] eqn:Ex.
    + specialize (Hsame x eq_refl). split; [done|]. split; [congruence|]. apply lookupz_lt in Ex.
      destruct Hor as [?|[_ ->]]; [done|]. symmetry. apply prefix_length_eq; [done|]. apply Nat2Z.inj_le. lia.
    + assert (zlen full ≤ c).
      { destruct (decide (zlen full ≤ c)); [done|]. destruct (lookupz_is_Some full c) as [x Hx]; [lia|congruence]. }
      assert (zlen cs' ≤ zlen full') by (apply inj_le, prefix_length, (fo_prefix _ _ _ _ _ _ _ Hf')).
      destruct Hor as [->|[-> ->]]; [lia|]. left. split; [done|]. split; [|done].
      destruct Hlen as [Hlen|[? _]]; [lia|done].
Qed.

(** ** Examples *)
Definition empty_file : disknode := mk_dn 0 None None 0 false 0.
Definition empty_fs : fsys := mk_fsys empty_fat 2 ∅ 0.

Lemma empty_file_ok : file_ok FAT12 8 empty_file empty_fs [] [] [].
Proof.
  constructor; [exact empty_fat_ok|simpl; lia| | |done].
  - constructor; [by apply Forall_nil|by apply NoDup_nil|by left|].
    intros i c Hi%lookupz_lt. simpl in Hi. lia.
  - constructor; try done; [by apply NoDup_nil|by right| |].
    + intros i c Hi%lookupz_lt. simpl in Hi. lia.
    + intros p [ct Hp]. done.
Qed.

Lemma fat_getcluster_refines_witness :
  file_ok FAT12 8 empty_file empty_fs [] [] []
  ∧ ∃ err r dn' f' full', fat_getcluster FAT12 8 9 4 1 true empty_file empty_fs [] = Some (err, r, dn', f', [])
      ∧ ((err = E0 ∧ zlen full' = 2 ∧ r = full' !z 1)
         ∨ (err = ENOSPC ∧ r = None ∧ ∀ x, data 8 x → ¬ is_free FAT12 8 (fat_image f') x)).
Proof.
  split; [exact empty_file_ok|].
  destruct (fat_getcluster_refines FAT12 8 9 4 1 true empty_file empty_fs [] [] [])
    as (err & r & dn' & f' & full' & cs' & ps' & Hr & _ & _ & _ & Hres);
    [vm_compute; congruence|exact empty_file_ok|done|lia|simpl; lia|].
  exists err, r, dn', f', full'. split; [exact Hr|exact Hres].
Defined.

(** The clusters of a file as the links on the disk give them. *)
Fixpoint disk_chain (type : fat_t) (nr : Z) (fuel : nat) (img : list Z) (c : Z) : list Z :=
  match fuel with
  | O => []
  | S fuel' =>
      if decide (is_data_cluster nr c) then
        c :: match fat_get_next_cluster type nr img c with
             | Some c' => disk_chain type nr fuel' img c'
             | None => []
             end
      else []
  end.

(** A file of 1100 clusters in a file system of 2000. *)
Definition large_file : option (disknode * fsys) :=
  '(_, _, dn, f, _) ← fat_getcluster FAT12 2000 9 1200 1099 true empty_file
                        (mk_fsys (replicate 3006 0) 2 ∅ 0) [];
  Some (dn, f).

(** It is cut to 1050 clusters, in its second table, and extended by one: the new
    cluster is linked behind the 26th one instead of the last, since [dn->last]
    is the first table, and the rest of the file is lost. *)
Example fat_truncate_corrupts_chain :
  ('(dn, f) ← large_file;
   '(dn, f, _) ← fat_truncate_node FAT12 2000 9 1200 false 1050 dn f [];
   '(_, _, dn, f, _) ← fat_getcluster FAT12 2000 9 1200 1050 true dn f [];
   Some (length_of_chain dn, zlen (disk_chain FAT12 2000 1200 (fat_image f) (start_cluster dn))))
  = Some (1051, 27).
Proof. vm_compute. reflexivity. Qed.

(** It is cut to 1000 clusters: [dn->last] is the second table, which was freed,
    and the next extension reads it. *)
Example fat_truncate_dangling :
  ('(dn, f) ← large_file;
   '(dn, f, _) ← fat_truncate_node FAT12 2000 9 1200 false 1000 dn f [];
   Some (length_of_chain dn, bool_decide (tables f !! 1%nat = None), last dn,
         fat_getcluster FAT12 2000 9 1200 1000 true dn f []))
  = Some (1000, true, Some 1%nat, None).
Proof. vm_compute. reflexivity. Qed.

(** A new table cannot be allocated after the cluster for it was: the chain on the
    disk is one longer than the cache says, and the next extension drops that
    cluster from the chain without freeing it. *)
Example fat_enomem_loses_cluster :
  ('(err, _, dn, f, _) ← fat_getcluster FAT12 8 9 4 0 true empty_file empty_fs [false];
   '(_, _, dn, f, _) ← fat_getcluster FAT12 8 9 4 0 true dn f [];
   free ← fat_get_freespace FAT12 8 (fat_image f);
   Some (err, free, disk_chain FAT12 8 9 (fat_image f) (start_cluster dn)))
  = Some (ENOMEM, 6, [3]).
Proof. vm_compute. reflexivity. Qed.
