(* ===== verification/Bpf.v ===== *)
(** * Packet filters (src/libbpf/bpf_impl.c, bpf_impl.h)

    The interpreter for filter programs, the check of a program before it is
    installed, and the search in the hash table of a filter with several
    sessions.  Programs come from other tasks: the check is what keeps a bad one
    from crashing the server.  The theorems say which faults it excludes, and the
    examples which it does not.

    [device/bpf.h] is a header of the kernel.  The operation codes that Linux
    shares are those of [src/pfinet/linux-src/include/linux/filter.h]; the codes of
    the match instruction and of its keys and the size of a packet are
    parameters. *)

From S2P Require Import Prelude.

Abbreviation BPF_CLASS code := (Z.land code 0x07) (only parsing).
Abbreviation BPF_LD := 0x00 (only parsing).
Abbreviation BPF_LDX := 0x01 (only parsing).
Abbreviation BPF_ST := 0x02 (only parsing).
Abbreviation BPF_STX := 0x03 (only parsing).
Abbreviation BPF_ALU := 0x04 (only parsing).
Abbreviation BPF_JMP := 0x05 (only parsing).
Abbreviation BPF_RET := 0x06 (only parsing).
Abbreviation BPF_MISC := 0x07 (only parsing).
Abbreviation BPF_W := 0x00 (only parsing).
Abbreviation BPF_H := 0x08 (only parsing).
Abbreviation BPF_B := 0x10 (only parsing).
Abbreviation BPF_IMM := 0x00 (only parsing).
Abbreviation BPF_ABS := 0x20 (only parsing).
Abbreviation BPF_IND := 0x40 (only parsing).
Abbreviation BPF_MEM := 0x60 (only parsing).
Abbreviation BPF_LEN := 0x80 (only parsing).
Abbreviation BPF_MSH := 0xa0 (only parsing).
Abbreviation BPF_OP code := (Z.land code 0xf0) (only parsing).
Abbreviation BPF_ADD := 0x00 (only parsing).
Abbreviation BPF_SUB := 0x10 (only parsing).
Abbreviation BPF_MUL := 0x20 (only parsing).
Abbreviation BPF_DIV := 0x30 (only parsing).
Abbreviation BPF_OR := 0x40 (only parsing).
Abbreviation BPF_AND := 0x50 (only parsing).
Abbreviation BPF_LSH := 0x60 (only parsing).
Abbreviation BPF_RSH := 0x70 (only parsing).
Abbreviation BPF_NEG := 0x80 (only parsing).
Abbreviation BPF_JA := 0x00 (only parsing).
Abbreviation BPF_JEQ := 0x10 (only parsing).
Abbreviation BPF_JGT := 0x20 (only parsing).
Abbreviation BPF_JGE := 0x30 (only parsing).
Abbreviation BPF_JSET := 0x40 (only parsing).
Abbreviation BPF_K := 0x00 (only parsing).
Abbreviation BPF_X := 0x08 (only parsing).
Abbreviation BPF_A := 0x10 (only parsing).
Abbreviation BPF_TAX := 0x00 (only parsing).
Abbreviation BPF_TXA := 0x80 (only parsing).
Abbreviation BPF_MEMWORDS := 16 (only parsing).

Abbreviation NET_HASH_SIZE := 256 (only parsing).
Abbreviation N_NET_HASH_KEYS := 4 (only parsing).

Record bpf_insn := mk_insn { code : Z; jt : Z; jf : Z; k : Z }.

#[export] Instance bpf_insn_eq_dec : EqDecision bpf_insn.
Proof. solve_decision. Defined.

(** A session of a filter: its port and the values of its keys. *)
Record net_hash_entry := mk_entry { ent_port : Z; keys : list Z }.

(** The sessions of a filter, a chain for each value of the hash function. *)
Record net_hash_header := mk_hash { n_keys : Z; ref_count : Z; table : list (list net_hash_entry) }.

(** ** Operations

    The cases of the switch of [bpf_do_filter]. *)
Inductive operand := K | X.
Inductive cmp := JGT | JGE | JEQ | JSET.
Inductive alu := ADD | SUB | MUL | DIV | AND | OR | LSH | RSH.
Inductive size := W | H | B.

Inductive op :=
| RET_K | RET_A | RET_MATCH
| LD_ABS (s : size) | LD_IND (s : size) | LD_LEN | LDX_LEN | LDX_MSH
| LD_IMM | LDX_IMM | LD_MEM | LDX_MEM | ST | STX
| JA | JUMP (c : cmp) (o : operand)
| ALU (a : alu) (o : operand) | NEG | TAX | TXA.

Definition labels : list (Z * op) :=
  let or := Z.lor in
  [ (or BPF_RET BPF_K, RET_K); (or BPF_RET BPF_A, RET_A);
    (or (or BPF_LD BPF_W) BPF_ABS, LD_ABS W); (or (or BPF_LD BPF_H) BPF_ABS, LD_ABS H);
    (or (or BPF_LD BPF_B) BPF_ABS, LD_ABS B);
    (or (or BPF_LD BPF_W) BPF_LEN, LD_LEN); (or (or BPF_LDX BPF_W) BPF_LEN, LDX_LEN);
    (or (or BPF_LD BPF_W) BPF_IND, LD_IND W); (or (or BPF_LD BPF_H) BPF_IND, LD_IND H);
    (or (or BPF_LD BPF_B) BPF_IND, LD_IND B); (or (or BPF_LDX BPF_MSH) BPF_B, LDX_MSH);
    (or BPF_LD BPF_IMM, LD_IMM); (or BPF_LDX BPF_IMM, LDX_IMM);
    (or BPF_LD BPF_MEM, LD_MEM); (or BPF_LDX BPF_MEM, LDX_MEM); (BPF_ST, ST); (BPF_STX, STX);
    (or BPF_JMP BPF_JA, JA);
    (or (or BPF_JMP BPF_JGT) BPF_K, JUMP JGT K); (or (or BPF_JMP BPF_JGE) BPF_K, JUMP JGE K);
    (or (or BPF_JMP BPF_JEQ) BPF_K, JUMP JEQ K); (or (or BPF_JMP BPF_JSET) BPF_K, JUMP JSET K);
    (or (or BPF_JMP BPF_JGT) BPF_X, JUMP JGT X); (or (or BPF_JMP BPF_JGE) BPF_X, JUMP JGE X);
    (or (or BPF_JMP BPF_JEQ) BPF_X, JUMP JEQ X); (or (or BPF_JMP BPF_JSET) BPF_X, JUMP JSET X);
    (or (or BPF_ALU BPF_ADD) BPF_X, ALU ADD X); (or (or BPF_ALU BPF_SUB) BPF_X, ALU SUB X);
    (or (or BPF_ALU BPF_MUL) BPF_X, ALU MUL X); (or (or BPF_ALU BPF_DIV) BPF_X, ALU DIV X);
    (or (or BPF_ALU BPF_AND) BPF_X, ALU AND X); (or (or BPF_ALU BPF_OR) BPF_X, ALU OR X);
    (or (or BPF_ALU BPF_LSH) BPF_X, ALU LSH X); (or (or BPF_ALU BPF_RSH) BPF_X, ALU RSH X);
    (or (or BPF_ALU BPF_ADD) BPF_K, ALU ADD K); (or (or BPF_ALU BPF_SUB) BPF_K, ALU SUB K);
    (or (or BPF_ALU BPF_MUL) BPF_K, ALU MUL K); (or (or BPF_ALU BPF_DIV) BPF_K, ALU DIV K);
    (or (or BPF_ALU BPF_AND) BPF_K, ALU AND K); (or (or BPF_ALU BPF_OR) BPF_K, ALU OR K);
    (or (or BPF_ALU BPF_LSH) BPF_K, ALU LSH K); (or (or BPF_ALU BPF_RSH) BPF_K, ALU RSH K);
    (or BPF_ALU BPF_NEG, NEG); (or BPF_MISC BPF_TAX, TAX); (or BPF_MISC BPF_TXA, TXA) ].

Fixpoint case_of (ls : list (Z * op)) (c : Z) : option op :=
  match ls with
  | [] => None
  | (l, o) :: ls' => if decide (c = l) then Some o else case_of ls' c
  end.

(** ** Sessions *)
Fixpoint bpf_hash_sum (ks : list Z) (hval : Z) : Z :=
  match ks with
  | [] => hval
  | key :: ks' => bpf_hash_sum ks' (u32 (hval + key))
  end.

Definition bpf_hash (ks : list Z) : Z := bpf_hash_sum ks 0 mod NET_HASH_SIZE.

(** The chain starts with the head; the keys of an entry are [N_NET_HASH_KEYS]
    words, of which the first [n] are compared. *)
Definition find_session (n : nat) (ks : list Z) : list net_hash_entry → option net_hash_entry :=
  fix go chain :=
    match chain with
    | [] => None
    | e :: chain' => if decide (take n ks = take n (keys e)) then Some e else go chain'
    end.

(** [ks] starts with the keys: it is the memory of the program. *)
Definition bpf_match (hash : net_hash_header) (n : Z) (ks : list Z) : option (option net_hash_entry) :=
  if decide (n ≠ n_keys hash) then Some None
  else
    chain ← table hash !z bpf_hash (take (Z.to_nat n) ks);
    Some (find_session (Z.to_nat n) ks chain).

(** ** The interpreter *)
Record regs := mk_regs { A : Z; RX : Z; mem : list Z }.

(** The next instruction is [pc + 1] for [Next 0]. *)
Inductive effect := Next (jump : Z) (r : regs) | Return (n : Z) (e : option net_hash_entry) | Crash.

Section filter.
Context (BPF_MATCH_IMM BPF_KEY NET_RCV_MAX : Z).

Definition decode (c : Z) : option op :=
  if decide (c = Z.lor BPF_RET BPF_MATCH_IMM) then Some RET_MATCH else case_of labels c.

(** The port of the filter, whether it is null, and its sessions if it has a hash
    table. *)
Context (null_port : bool) (hash : option net_hash_header).

(** The packet starts at [poff] of the buffer it is in; [hlen] bytes of header are
    kept apart.  A byte is a number from 0 to 255. *)
Context (header packet : list Z) (poff wirelen : Z).

Definition hlen : Z := zlen header.

(** [n] bytes at [data + idx], the first one the most significant. *)
Fixpoint get_bytes (n : nat) (data : list Z) (idx acc : Z) : option Z :=
  match n with
  | O => Some acc
  | S n' => b ← data !z idx; get_bytes n' data (idx + 1) (acc * 256 + b)
  end.

Definition size_bytes (s : size) : Z := match s with W => 4 | H => 2 | B => 1 end.

(** The labels [load_word], [load_half] and [load_byte]; [Some None] is the case
    that ends the filter.  [(u_int)k + sizeof(int)] is computed in a [size_t] of 64
    bits, in which it does not wrap; with 32 bits it would, for the last few
    indices, and the load would read in front of the header. *)
Definition load (s : size) (idx : Z) : option (option Z) :=
  let n := size_bytes s in
  if decide (u32 idx + n ≤ hlen) then Some <$> get_bytes (Z.to_nat n) header (s32 idx) 0
  else if decide (u32 idx + n ≤ NET_RCV_MAX) then
    Some <$> get_bytes (Z.to_nat n) packet (poff + s32 (idx - hlen)) 0
  else Some None.

(** A byte is loaded from a [char], which has a sign. *)
Definition load_a (s : size) (idx : Z) : option (option Z) :=
  match load s idx, s with
  | Some (Some b), B => Some (Some (if decide (b < 128) then b else u32 (b - 256)))
  | v, _ => v
  end.

Definition operand_of (o : operand) (i : bpf_insn) (r : regs) : Z :=
  match o with K => u32 (k i) | X => RX r end.

Definition do_alu (a : alu) (x y : Z) : option Z :=
  match a with
  | ADD => Some (u32 (x + y))
  | SUB => Some (u32 (x - y))
  | MUL => Some (u32 (x * y))
  | DIV => if decide (y = 0) then None else Some (x / y)
  | AND => Some (Z.land x y)
  | OR => Some (Z.lor x y)
  | LSH => if decide (y < 32) then Some (u32 (Z.shiftl x y)) else None
  | RSH => if decide (y < 32) then Some (Z.shiftr x y) else None
  end.

Definition do_cmp (c : cmp) (x y : Z) : bool :=
  match c with
  | JGT => bool_decide (y < x)
  | JGE => bool_decide (y ≤ x)
  | JEQ => bool_decide (x = y)
  | JSET => bool_decide (Z.land x y ≠ 0)
  end.

Definition set_a (v : Z) (r : regs) : regs := mk_regs v (RX r) (mem r).
Definition set_x (v : Z) (r : regs) : regs := mk_regs (A r) v (mem r).
Definition to_a (r : regs) (v : option (option Z)) : effect :=
  match v with
  | None => Crash
  | Some None => Return 0 None
  | Some (Some v) => Next 0 (set_a v r)
  end.

(** The result is an [int]. *)
Definition at_most_wirelen (v : Z) : Z := s32 (if decide (v ≤ wirelen) then v else wirelen).

Definition ret (v : Z) : effect :=
  if null_port then Return 0 None else Return (at_most_wirelen v) None.

(** One pass through the switch. *)
Definition step (i : bpf_insn) (r : regs) : effect :=
  match decode (code i) with
  | None => Return 0 None
  | Some RET_K => ret (u32 (k i))
  | Some RET_A => ret (A r)
  | Some RET_MATCH =>
      match hash with
      | None => Crash
      | Some h =>
          match bpf_match h (jt i) (mem r) with
          | None => Crash
          | Some None => Return 0 None
          | Some (Some e) => Return (at_most_wirelen (u32 (k i))) (Some e)
          end
      end
  | Some (LD_ABS s) => to_a r (load_a s (k i))
  | Some (LD_IND s) => to_a r (load_a s (RX r + k i))
  | Some LD_LEN => Next 0 (set_a wirelen r)
  | Some LDX_LEN => Next 0 (set_x wirelen r)
  | Some LDX_MSH =>
      match load B (k i) with
      | None => Crash
      | Some None => Return 0 None
      | Some (Some b) => Next 0 (set_x (Z.shiftl (Z.land b 0xf) 2) r)
      end
  | Some LD_IMM => Next 0 (set_a (u32 (k i)) r)
  | Some LDX_IMM => Next 0 (set_x (u32 (k i)) r)
  | Some LD_MEM => match mem r !z k i with Some v => Next 0 (set_a v r) | None => Crash end
  | Some LDX_MEM => match mem r !z k i with Some v => Next 0 (set_x v r) | None => Crash end
  | Some ST =>
      match storez (k i) (A r) (mem r) with Some m => Next 0 (mk_regs (A r) (RX r) m) | None => Crash end
  | Some STX =>
      match storez (k i) (RX r) (mem r) with Some m => Next 0 (mk_regs (A r) (RX r) m) | None => Crash end
  | Some JA => Next (k i) r
  | Some (JUMP c o) => Next (if do_cmp c (A r) (operand_of o i r) then jt i else jf i) r
  | Some (ALU DIV X) =>
      if decide (RX r = 0) then Return 0 None else Next 0 (set_a (A r / RX r) r)
  | Some (ALU a o) =>
      match do_alu a (A r) (operand_of o i r) with Some v => Next 0 (set_a v r) | None => Crash end
  | Some NEG => Next 0 (set_a (u32 (- A r)) r)
  | Some TAX => Next 0 (set_x (A r) r)
  | Some TXA => Next 0 (set_a (RX r) r)
  end.

(** The loop, for a number of rounds. *)
Inductive run := Returned (n : Z) (e : option net_hash_entry) | Fault | Running.

Fixpoint bpf_loop (rounds : nat) (f : list bpf_insn) (pc : Z) (r : regs) : run :=
  match rounds with
  | O => Running
  | S rounds' =>
      if decide (zlen f ≤ pc) then Returned 0 None
      else
        match f !z pc with
        | None => Fault
        | Some i =>
            match step i r with
            | Next jump r' => bpf_loop rounds' f (pc + jump + 1) r'
            | Return n e => Returned n e
            | Crash => Fault
            end
        end
  end.

(** [mem0] is what is in the memory of the program when it starts. *)
Definition bpf_do_filter (rounds : nat) (f : list bpf_insn) (mem0 : list Z) : run :=
  bpf_loop rounds f 1 (mk_regs 0 0 mem0).

(** ** The check

    [None] is an access outside of the program. *)
Definition jump_ok (len i : Z) (p : bpf_insn) : bool :=
  let from := i + 1 in
  if decide (BPF_CLASS (code p) = BPF_JMP) then
    if decide (BPF_OP (code p) = BPF_JA) then bool_decide (s32 (from + k p) < len)
    else bool_decide (from + jt p < len ∧ from + jf p < len)
  else true.

Definition memory_ok (p : bpf_insn) : bool :=
  negb ((bool_decide (BPF_CLASS (code p) = BPF_ST)
         || (bool_decide (BPF_CLASS (code p) = BPF_LD) && bool_decide (Z.land (code p) 0xe0 = BPF_MEM)))
        && bool_decide (BPF_MEMWORDS ≤ k p ∨ k p < 0)).

Definition divisor_ok (p : bpf_insn) : bool :=
  negb (bool_decide (code p = Z.lor (Z.lor BPF_ALU BPF_DIV) BPF_K ∧ k p = 0)).

Definition all_keys (f : list bpf_insn) (i n : Z) : option bool :=
  ks ← mapM (λ j, f !z (i + j)) (seqZ 1 n);
  Some (forallb (λ p, bool_decide (code p = Z.lor BPF_MISC BPF_KEY)) ks).

(** [match_at] is the index of the match instruction. *)
Fixpoint validate_loop (rounds : nat) (f : list bpf_insn) (i : Z) (match_at : option Z)
    : option (bool * option Z) :=
  match rounds with
  | O => Some (true, match_at)
  | S rounds' =>
      if decide (zlen f ≤ i) then Some (true, match_at)
      else
        p ← f !z i;
        if negb (jump_ok (zlen f) i p && memory_ok p && divisor_ok p) then Some (false, match_at)
        else if decide (code p = Z.lor BPF_RET BPF_MATCH_IMM) then
          if decide (match_at ≠ None ∨ jt p = 0 ∨ N_NET_HASH_KEYS < jt p) then Some (false, match_at)
          else if decide (zlen f < i + jt p + 1) then Some (false, match_at)
          else
            ok ← all_keys f i (jt p);
            if ok : bool then validate_loop rounds' f (i + jt p + 1) (Some i)
            else Some (false, match_at)
        else validate_loop rounds' f (i + 1) match_at
  end.

Definition bpf_validate (f : list bpf_insn) : option (Z * option Z) :=
  '(ok, m) ← validate_loop (length f) f 1 None;
  if ok : bool then
    last ← f !z (zlen f - 1);
    if decide (BPF_CLASS (code last) = BPF_RET)
    then Some (match m with None => 1 | Some _ => 2 end, m) else Some (0, m)
  else Some (0, m).

(** Whether two programs differ only in the keys of their match instructions;
    [insn_eq] is the comparison of two instructions, [BPF_INSN_EQ]. *)
Fixpoint bpf_eq (insn_eq : bpf_insn → bpf_insn → bool) (f1 f2 : list bpf_insn) : bool :=
  match f1, f2 with
  | p1 :: f1', p2 :: f2' =>
      if insn_eq p1 p2 then bpf_eq insn_eq f1' f2'
      else if decide (code p1 = Z.lor BPF_MISC BPF_KEY ∧ code p2 = Z.lor BPF_MISC BPF_KEY)
      then bpf_eq insn_eq f1' f2' else false
  | _, _ => true
  end.

(** ** What the check is for *)

(** An instruction as the kernel's structure holds it. *)
Definition insn_ok (i : bpf_insn) : Prop :=
  0 ≤ jt i < 256 ∧ 0 ≤ jf i < 256 ∧ - 2 ^ 31 ≤ k i < 2 ^ 31.

(** What the check leaves out: jumps are forward, the words that index register
    instructions use exist, and words are shifted by less than their width. *)
Definition unchecked_ok (i : bpf_insn) : bool :=
  match decode (code i) with
  | Some JA => bool_decide (0 ≤ k i)
  | Some STX | Some LDX_MEM => bool_decide (0 ≤ k i < BPF_MEMWORDS)
  | Some (ALU LSH K) | Some (ALU RSH K) => bool_decide (0 ≤ k i < 32)
  | Some (ALU LSH X) | Some (ALU RSH X) => false
  | _ => true
  end.

Definition checked (m : option Z) (p : bpf_insn) : Prop :=
  memory_ok p = true ∧ divisor_ok p = true
  ∧ (code p = Z.lor BPF_RET BPF_MATCH_IMM → m ≠ None ∧ 0 < jt p ≤ N_NET_HASH_KEYS).

Lemma all_keys_spec f i n :
  all_keys f i n = Some true → ∀ j p, 1 ≤ j < 1 + n → f !z (i + j) = Some p → code p = Z.lor BPF_MISC BPF_KEY.
Proof.
  unfold all_keys. intros Hk j p Hj Hp. apply bind_Some in Hk as (ks & Hks & Hall).
  injection Hall as Hall. apply mapM_Some in Hks. rewrite forallb_forall in Hall.
  assert (Hin : j ∈ seqZ 1 n) by (apply elem_of_seqZ; lia).
  apply list_elem_of_lookup in Hin as [x Hx].
  destruct (Forall2_lookup_l _ _ _ _ _ Hks Hx) as (q & Hq & Heq). simpl in Heq.
  rewrite Hp in Heq. injection Heq as <-. apply list_elem_of_lookup_2 in Hq.
  apply list_elem_of_In, Hall, bool_decide_eq_true in Hq. done.
Qed.

Lemma validate_loop_spec rounds f i m0 m :
  Forall insn_ok f → 0 ≤ i → zlen f ≤ i + Z.of_nat rounds → validate_loop rounds f i m0 = Some (true, m) →
  (m0 ≠ None → m ≠ None)
  ∧ ∀ j p, i ≤ j → f !z j = Some p → checked m p ∨ code p = Z.lor BPF_MISC BPF_KEY.
Proof.
  intros Hf. revert i m0. induction rounds as [|rounds IH]; intros i m0 Hi Hr Hv; cbn [validate_loop] in Hv.
  { injection Hv as <-. split; [done|]. intros j p Hj Hp%lookupz_lt. lia. }
  case_decide as Hlen.
  { injection Hv as <-. split; [done|]. intros j p Hj Hp%lookupz_lt. lia. }
  apply bind_Some in Hv as (q & Hq & Hv). destruct (negb _) eqn:Hchk in Hv; [done|].
  apply negb_false_iff, andb_true_iff in Hchk as [[_ Hmem]%andb_true_iff Hdiv].
  case_decide as Hmatch.
  - case_decide as Hbad; [done|]. case_decide as Hend; [done|].
    apply bind_Some in Hv as ([] & Hkeys & Hv); [|done].
    pose proof (Forall_lookupz _ _ _ _ Hf Hq) as (Hjt & _).
    destruct (IH (i + jt q + 1) (Some i) ltac:(lia) ltac:(lia) Hv) as [Hm Hall]. split; [auto|].
    intros j p Hj Hp. destruct (decide (j = i)) as [->|Hne].
    + left. rewrite Hq in Hp. injection Hp as <-. split; [done|]. split; [done|]. intros _.
      split; [by apply Hm|]. assert (jt q ≠ 0 ∧ ¬ N_NET_HASH_KEYS < jt q) by tauto. lia.
    + destruct (decide (j < i + jt q + 1)); [right|apply (Hall j); [lia|done]].
      apply (all_keys_spec f i (jt q) Hkeys (j - i)); [lia|]. by replace (i + (j - i)) with j by lia.
  - destruct (IH (i + 1) m0 ltac:(lia) ltac:(lia) Hv) as [Hm Hall]. split; [done|].
    intros j p Hj Hp. destruct (decide (j = i)) as [->|Hne]; [|apply (Hall j); [lia|done]].
    left. rewrite Hq in Hp. injection Hp as <-. by split_and!.
Qed.

(** ** One instruction *)
Record regs_ok (r : regs) : Prop := {
  ro_a : 0 ≤ A r < 2 ^ 32;
  ro_x : 0 ≤ RX r < 2 ^ 32;
  ro_mem : zlen (mem r) = BPF_MEMWORDS;
  ro_words : Forall (λ v, 0 ≤ v < 2 ^ 32) (mem r)
}.

Hypothesis Hheader : Forall (λ b, 0 ≤ b < 256) header.
Hypothesis Hpacket : Forall (λ b, 0 ≤ b < 256) packet.
Hypothesis Hwire : 0 ≤ wirelen < 2 ^ 31.
Hypothesis Hhlen : hlen ≤ NET_RCV_MAX < 2 ^ 31.
(** The packet has room for what the interpreter takes for its length, and a
    word that starts in the header is still in the buffer. *)
Hypothesis Hbefore : 3 ≤ poff.
Hypothesis Hroom : poff + NET_RCV_MAX ≤ zlen packet + hlen.

Lemma get_bytes_ok n data idx acc :
  Forall (λ b, 0 ≤ b < 256) data → 0 ≤ idx → idx + Z.of_nat n ≤ zlen data → 0 ≤ acc →
  ∃ v, get_bytes n data idx acc = Some v ∧ 0 ≤ v < (acc + 1) * 256 ^ Z.of_nat n.
Proof.
  intros Hd. revert idx acc. induction n as [|n IH]; intros idx acc Hi Hl Ha; cbn [get_bytes].
  { exists acc. split; [done|]. lia. }
  destruct (lookupz_is_Some data idx) as [b Hb]; [lia|]. rewrite Hb. cbn [mbind option_bind].
  pose proof (Forall_lookupz _ _ _ _ Hd Hb) as Hr. simpl in Hr.
  destruct (IH (idx + 1) (acc * 256 + b)) as (v & Hv & Hlt); [lia|lia|lia|].
  exists v. split; [done|]. split; [lia|]. rewrite Nat2Z.inj_succ, Z.pow_succ_r by lia. nia.
Qed.

Lemma load_ok s idx :
  - 2 ^ 31 ≤ idx < 2 ^ 33 →
  load s idx = Some None ∨ ∃ v, load s idx = Some (Some v) ∧ 0 ≤ v < 256 ^ size_bytes s.
Proof.
  intros Hidx. unfold load. pose proof (u32_range idx) as Hu.
  assert (Hs : 1 ≤ size_bytes s ≤ 4) by (by destruct s).
  assert (Hget : ∀ data i, Forall (λ b, 0 ≤ b < 256) data → 0 ≤ i → i + size_bytes s ≤ zlen data →
    ∃ v, Some <$> get_bytes (Z.to_nat (size_bytes s)) data i 0 = Some (Some v) ∧ 0 ≤ v < 256 ^ size_bytes s).
  { intros data i Hd Hi Hl. destruct (get_bytes_ok (Z.to_nat (size_bytes s)) data i 0) as (v & -> & Hv); [done|lia|lia|lia|].
    exists v. rewrite Z2Nat.id in Hv by lia. split; [done|]. lia. }
  assert (Hs32 : ∀ z, 0 ≤ u32 idx - z < 2 ^ 31 ∨ - 2 ^ 31 ≤ u32 idx - z < 0 → s32 (idx - z) = u32 idx - z).
  { intros z Hz. unfold s32. replace (idx - z + 2 ^ 31) with (u32 idx - z + 2 ^ 31 + (idx / 2 ^ 32) * 2 ^ 32).
    - rewrite Z.mod_add by lia. rewrite Z.mod_small by lia. lia.
    - unfold u32. pose proof (Z.div_mod idx (2 ^ 32)). lia. }
  case_decide as Hh; [right|case_decide as Hp; [right|by left]].
  - assert (s32 idx = u32 idx) as -> by (pose proof (Hs32 0) as H0; rewrite !Z.sub_0_r in H0; apply H0; lia).
    apply Hget; [done|lia|]. unfold hlen in Hh. lia.
  - unfold hlen in *. rewrite Hs32 by lia. apply Hget; [done|lia|lia].
Qed.

Lemma load_a_ok s idx :
  - 2 ^ 31 ≤ idx < 2 ^ 33 →
  load_a s idx = Some None ∨ ∃ v, load_a s idx = Some (Some v) ∧ 0 ≤ v < 2 ^ 32.
Proof.
  intros Hi. unfold load_a. destruct (load_ok s idx Hi) as [->|(v & -> & Hv)]; [by left; destruct s|].
  right. destruct s; simpl in Hv; eexists; (split; [done|]); try lia.
  case_decide; [lia|]. apply u32_range.
Qed.

Lemma land_range x y : 0 ≤ x < 2 ^ 32 → 0 ≤ y < 2 ^ 32 → 0 ≤ Z.land x y < 2 ^ 32.
Proof.
  intros Hx Hy. assert (Z.land x y = Z.land x y mod 2 ^ 32) as ->; [|apply Z.mod_pos_bound; lia].
  by rewrite <-Z.land_ones, <-Z.land_assoc, Z.land_ones, Z.mod_small by lia.
Qed.

Lemma lor_range x y : 0 ≤ x < 2 ^ 32 → 0 ≤ y < 2 ^ 32 → 0 ≤ Z.lor x y < 2 ^ 32.
Proof.
  intros Hx Hy. split; [apply Z.lor_nonneg; lia|].
  assert (Z.lor x y = Z.lor x y mod 2 ^ 32) as ->; [|apply Z.mod_pos_bound; lia].
  rewrite <-Z.land_ones, Z.land_lor_distr_l, !Z.land_ones, !Z.mod_small by lia. done.
Qed.

Lemma do_alu_ok a x y :
  0 ≤ x < 2 ^ 32 → 0 ≤ y < 2 ^ 32 → (a = DIV → y ≠ 0) → (a = LSH ∨ a = RSH → y < 32) →
  ∃ v, do_alu a x y = Some v ∧ 0 ≤ v < 2 ^ 32.
Proof.
  intros Hx Hy Hd Hs. unfold do_alu.
  destruct a; try (eexists; split; [done|]; apply u32_range).
  - rewrite decide_False by auto. eexists. split; [done|]. assert (y ≠ 0) by auto.
    split; [apply Z.div_pos; lia|]. apply Z.div_lt_upper_bound; nia.
  - eexists. split; [done|]. by apply land_range.
  - eexists. split; [done|]. by apply lor_range.
  - rewrite decide_True by auto. eexists. split; [done|]. apply u32_range.
  - rewrite decide_True by auto. eexists. split; [done|]. assert (y < 32) by auto.
    rewrite Z.shiftr_div_pow2 by lia. pose proof (Z.pow_pos_nonneg 2 y). split; [apply Z.div_pos; lia|].
    apply Z.div_lt_upper_bound; nia.
Qed.

(** The labels whose instructions the check looks at. *)
Lemma case_of_elem ls c o : case_of ls c = Some o → (c, o) ∈ ls.
Proof.
  induction ls as [|[l o'] ls IH]; [done|]. simpl. case_decide as Hc.
  - intros [= ->]. subst. left.
  - intros Ho. right. auto.
Qed.

Definition label_class (c : Z) (o : op) : Prop :=
  match o with
  | LD_MEM => BPF_CLASS c = BPF_LD ∧ Z.land c 0xe0 = BPF_MEM
  | ST => BPF_CLASS c = BPF_ST
  | ALU DIV K => c = Z.lor (Z.lor BPF_ALU BPF_DIV) BPF_K
  | RET_MATCH => c = Z.lor BPF_RET BPF_MATCH_IMM
  | _ => True
  end.

Lemma decode_class c o : decode c = Some o → label_class c o.
Proof.
  unfold decode. case_decide as Hm; [by intros [= <-]|]. intros Hin%case_of_elem.
  assert (Hall : Forall (λ '(c, o), match o with RET_MATCH => False | _ => label_class c o end) labels)
    by (repeat constructor).
  rewrite Forall_forall in Hall. specialize (Hall _ Hin). simpl in Hall. by destruct o.
Qed.

(** An instruction that passed does not crash, jumps forward or returns at most
    the length of the packet. *)
Definition effect_ok (x : effect) : Prop :=
  match x with
  | Next jump r => 0 ≤ jump ∧ regs_ok r
  | Return n _ => 0 ≤ n ≤ wirelen
  | Crash => False
  end.

Lemma set_a_ok v r : regs_ok r → 0 ≤ v < 2 ^ 32 → regs_ok (set_a v r).
Proof. intros [] ?. by split. Qed.

Lemma set_x_ok v r : regs_ok r → 0 ≤ v < 2 ^ 32 → regs_ok (set_x v r).
Proof. intros [] ?. by split. Qed.

Lemma at_most_wirelen_ok v : 0 ≤ v → 0 ≤ at_most_wirelen v ≤ wirelen.
Proof. intros Hv. unfold at_most_wirelen. case_decide; rewrite s32_id by lia; lia. Qed.

Lemma ret_ok v : 0 ≤ v → effect_ok (ret v).
Proof. intros Hv. unfold ret. destruct null_port; simpl; [lia|by apply at_most_wirelen_ok]. Qed.

Lemma to_a_ok s idx r : - 2 ^ 31 ≤ idx < 2 ^ 33 → regs_ok r → effect_ok (to_a r (load_a s idx)).
Proof.
  intros Hi Hr. destruct (load_a_ok s idx Hi) as [->|(v & -> & Hv)]; simpl; [lia|].
  split; [done|]. by apply set_a_ok.
Qed.

Lemma mem_get r j : regs_ok r → 0 ≤ j < BPF_MEMWORDS → ∃ v, mem r !z j = Some v ∧ 0 ≤ v < 2 ^ 32.
Proof.
  intros Hr Hj. destruct (lookupz_is_Some (mem r) j) as [v Hv]; [rewrite (ro_mem _ Hr); lia|].
  exists v. split; [done|]. by apply (Forall_lookupz _ _ _ _ (ro_words _ Hr) Hv).
Qed.

Lemma mem_set r j v :
  regs_ok r → 0 ≤ j < BPF_MEMWORDS → 0 ≤ v < 2 ^ 32 →
  ∃ m, storez j v (mem r) = Some m ∧ regs_ok (mk_regs (A r) (RX r) m).
Proof.
  intros Hr Hj Hv. unfold storez. rewrite decide_True by (rewrite (ro_mem _ Hr); lia).
  eexists. split; [done|]. split; simpl; try apply Hr.
  - rewrite length_updz. apply Hr.
  - apply Forall_insert; [apply Hr|done].
Qed.

Lemma checked_k m i :
  checked m i → decode (code i) = Some LD_MEM ∨ decode (code i) = Some ST → 0 ≤ k i < BPF_MEMWORDS.
Proof.
  intros (Hm & _) Hd. unfold memory_ok in Hm. rewrite negb_true_iff, andb_false_iff in Hm.
  destruct Hm as [Hm|Hm%bool_decide_eq_false]; [|lia].
  apply orb_false_iff in Hm as [H1 H2]. destruct Hd as [Hd%decode_class|Hd%decode_class]; simpl in Hd.
  - destruct Hd as [Hc He]. by rewrite !bool_decide_true in H2.
  - by rewrite bool_decide_true in H1.
Qed.

Lemma operand_range o i r : insn_ok i → regs_ok r → 0 ≤ operand_of o i r < 2 ^ 32.
Proof. intros Hi Hr. destruct o; simpl; [apply u32_range|apply (ro_x _ Hr)]. Qed.

(** Arithmetic other than the division by a register, which has a test of its own. *)
Lemma step_alu_ok m i r a o :
  insn_ok i → checked m i → unchecked_ok i = true → regs_ok r → decode (code i) = Some (ALU a o) →
  (a = DIV ∧ o = X → False) →
  effect_ok match do_alu a (A r) (operand_of o i r) with Some v => Next 0 (set_a v r) | None => Crash end.
Proof.
  intros Hi Hc Hu Hr Hd Hax. pose proof (operand_range o i r Hi Hr) as Ho. pose proof Hi as (_ & _ & Hk).
  unfold unchecked_ok in Hu. rewrite Hd in Hu.
  destruct (do_alu_ok a (A r) (operand_of o i r)) as (v & -> & Hv); [apply (ro_a _ Hr)|done|..].
  - intros ->. destruct o; [|by exfalso; auto]. destruct Hc as (_ & Hdiv & _).
    apply decode_class in Hd. simpl in Hd. unfold divisor_ok in Hdiv.
    rewrite negb_true_iff, bool_decide_eq_false in Hdiv. simpl. intros H0. apply Hdiv. split; [done|].
    unfold u32 in H0. apply Z.mod_divide in H0 as [z Hz]; lia.
  - intros [-> | ->]; destruct o; try done; apply bool_decide_eq_true in Hu; simpl; rewrite u32_id; lia.
  - split; [done|]. by apply set_a_ok.
Qed.

Lemma bpf_step_ok m i r :
  insn_ok i → checked m i → unchecked_ok i = true → regs_ok r →
  (m ≠ None → ∃ h, hash = Some h ∧ zlen (table h) = NET_HASH_SIZE) →
  effect_ok (step i r).
Proof.
  intros Hi Hc Hu Hr Hh. pose proof (ro_a _ Hr) as Ha. pose proof (ro_x _ Hr) as Hx.
  pose proof Hi as (Hjt & Hjf & Hk). pose proof (u32_range (k i)) as Hku.
  pose proof (checked_k m i Hc) as Hck. unfold step. pose proof Hu as Hu'. unfold unchecked_ok in Hu'.
  destruct (decode (code i)) as [o|] eqn:Hd; [|simpl; lia].
  destruct o as [| | |s|s| | | | | | | | | | |c o|a o| | |].
  - apply ret_ok. lia.
  - apply ret_ok. lia.
  - apply decode_class in Hd. simpl in Hd. destruct Hc as (_ & _ & Hmatch).
    destruct (Hmatch Hd) as [Hm _]. destruct (Hh Hm) as (h & -> & Ht).
    unfold bpf_match. case_decide; [simpl; lia|].
    destruct (lookupz_is_Some (table h) (bpf_hash (take (Z.to_nat (jt i)) (mem r)))) as [chain ->].
    { rewrite Ht. unfold bpf_hash. apply Z.mod_pos_bound. done. }
    cbn [mbind option_bind]. destruct (find_session _ _ chain); simpl; [apply at_most_wirelen_ok; lia|lia].
  - apply to_a_ok; [lia|done].
  - apply to_a_ok; [lia|done].
  - simpl. split; [done|]. apply set_a_ok; [done|lia].
  - simpl. split; [done|]. apply set_x_ok; [done|lia].
  - destruct (load_ok B (k i)) as [->|(v & -> & Hv)]; [lia|simpl; lia|]. split; [done|].
    apply set_x_ok; [done|]. assert (0 ≤ Z.land v 0xf < 16).
    { change 0xf with (Z.ones 4). rewrite Z.land_ones by lia. apply Z.mod_pos_bound. lia. }
    rewrite Z.shiftl_mul_pow2 by lia. lia.
  - split; [done|]. by apply set_a_ok.
  - split; [done|]. by apply set_x_ok.
  - destruct (mem_get r (k i) Hr) as (v & -> & Hv); [auto|]. split; [done|]. by apply set_a_ok.
  - apply bool_decide_eq_true in Hu'. destruct (mem_get r (k i) Hr) as (v & -> & Hv); [auto|].
    split; [done|]. by apply set_x_ok.
  - destruct (mem_set r (k i) (A r) Hr) as (v & -> & Hv); [auto|done|]. by split.
  - apply bool_decide_eq_true in Hu'. destruct (mem_set r (k i) (RX r) Hr) as (v & -> & Hv); [auto|done|]. by split.
  - apply bool_decide_eq_true in Hu'. by split.
  - split; [case_match; lia|done].
  - pose proof (step_alu_ok m i r a o Hi Hc Hu Hr Hd) as Halu. destruct a, o; try (apply Halu; naive_solver).
    case_decide; [simpl; lia|]. split; [done|]. apply set_a_ok; [done|].
    split; [apply Z.div_pos; lia|]. apply Z.div_lt_upper_bound; nia.
  - split; [done|]. apply set_a_ok; [done|apply u32_range].
  - split; [done|]. by apply set_x_ok.
  - split; [done|]. by apply set_a_ok.
Qed.

(** ** Whole programs *)

(** A key is not an operation. *)
Hypothesis Hkey : decode (Z.lor BPF_MISC BPF_KEY) = None.

Lemma bpf_loop_ok f m rounds pc r :
  Forall insn_ok f → Forall (λ i, unchecked_ok i = true) f →
  (∀ j p, 1 ≤ j → f !z j = Some p → checked m p ∨ code p = Z.lor BPF_MISC BPF_KEY) →
  (m ≠ None → ∃ h, hash = Some h ∧ zlen (table h) = NET_HASH_SIZE) →
  1 ≤ pc → regs_ok r → (0 < rounds)%nat → zlen f < pc + Z.of_nat rounds →
  ∃ n e, bpf_loop rounds f pc r = Returned n e ∧ 0 ≤ n ≤ wirelen.
Proof.
  intros Hf Hu Hchk Hh. revert pc r. induction rounds as [|rounds IH]; intros pc r Hpc Hr H0 Hlt; cbn [bpf_loop]; [lia|].
  case_decide as Hend; [exists 0, None; split; [done|lia]|].
  destruct (lookupz_is_Some f pc) as [i Hi]; [lia|]. rewrite Hi.
  assert (Hs : effect_ok (step i r)).
  { destruct (Hchk pc i Hpc Hi) as [Hc|Hk].
    - apply (bpf_step_ok m); [by apply (Forall_lookupz _ _ _ _ Hf Hi)|done|by apply (Forall_lookupz _ _ _ _ Hu Hi)|done..].
    - unfold step. rewrite Hk, Hkey. simpl. lia. }
  destruct (step i r) as [jump r'|n e|]; simpl in Hs; [|by exists n, e|done].
  apply IH; [lia|by apply Hs|lia|lia].
Qed.

(** C14. A filter program that the check accepted, and that keeps the rules the
    check leaves out ([unchecked_ok]), cannot harm the server: on every packet it
    ends after at most one round for each instruction, never reads or writes
    outside of the packet, the header, its memory and the hash table, never divides
    by zero, and returns at most the length of the packet.  The size type of the
    machine has 64 bits. *)
Theorem bpf_validated_safe f v m mem0 :
  Forall insn_ok f → bpf_validate f = Some (v, m) → v ≠ 0 → Forall (λ i, unchecked_ok i = true) f →
  (m ≠ None → ∃ h, hash = Some h ∧ zlen (table h) = NET_HASH_SIZE) →
  zlen mem0 = BPF_MEMWORDS → Forall (λ w, 0 ≤ w < 2 ^ 32) mem0 →
  ∃ n e, bpf_do_filter (length f) f mem0 = Returned n e ∧ 0 ≤ n ≤ wirelen.
Proof.
  intros Hf Hv Hne Hu Hh Hlen Hwords. unfold bpf_validate in Hv.
  apply bind_Some in Hv as ([ok m'] & Hloop & Hv). destruct ok; [|by injection Hv as <- _].
  apply bind_Some in Hv as (lst & Hlst%lookupz_lt & Hv). assert (m' = m) as -> by (case_decide; by injection Hv).
  destruct (validate_loop_spec (length f) f 1 None m Hf ltac:(lia) ltac:(lia) Hloop) as [_ Hchk].
  apply (bpf_loop_ok f m); try done; try lia.
Qed.
End filter.

(** ** Sessions *)

(** The entries of a table are in the chain of the hash value of their keys. *)
Definition hashed (h : net_hash_header) : Prop :=
  zlen (table h) = NET_HASH_SIZE
  ∧ ∀ j chain e, table h !z j = Some chain → e ∈ chain →
      bpf_hash (take (Z.to_nat (n_keys h)) (keys e)) = j.

Lemma find_session_spec n ks chain :
  match find_session n ks chain with
  | Some e => e ∈ chain ∧ take n ks = take n (keys e)
  | None => ∀ e, e ∈ chain → take n ks ≠ take n (keys e)
  end.
Proof.
  induction chain as [|e chain IH]; simpl; [by intros e ?%elem_of_nil|].
  case_decide as Heq; [split; [left|done]|].
  destruct (find_session n ks chain) as [e'|]; [split; [right|]; apply IH|].
  intros e' [->|Hin]%elem_of_cons; auto.
Qed.

(** The search for a session looks in one chain, and finds a session of the
    whole table with the keys if there is one. *)
Theorem bpf_match_complete h ks :
  hashed h →
  match bpf_match h (n_keys h) ks with
  | None => False
  | Some (Some e) => e ∈ mjoin (table h) ∧ take (Z.to_nat (n_keys h)) ks = take (Z.to_nat (n_keys h)) (keys e)
  | Some None => ∀ e, e ∈ mjoin (table h) → take (Z.to_nat (n_keys h)) ks ≠ take (Z.to_nat (n_keys h)) (keys e)
  end.
Proof.
  intros [Hlen Hh]. unfold bpf_match. rewrite decide_False by tauto. set (n := Z.to_nat (n_keys h)) in *.
  destruct (lookupz_is_Some (table h) (bpf_hash (take n ks))) as [chain Hc].
  { rewrite Hlen. unfold bpf_hash. by apply Z.mod_pos_bound. }
  rewrite Hc. cbn [mbind option_bind]. pose proof (find_session_spec n ks chain) as Hf.
  destruct (find_session n ks chain) as [e|].
  - destruct Hf as [Hin Hk]. split; [|done]. apply list_elem_of_join. exists chain.
    split; [done|]. by eapply lookupz_elem_of.
  - intros e (chain' & Hin & [j Hj]%elem_of_lookupz)%list_elem_of_join Heq.
    pose proof (Hh j chain' e Hj Hin) as Hj'. rewrite <-Heq in Hj'. subst j. rewrite Hc in Hj. injection Hj as <-.
    by apply (Hf e).
Qed.

(** Two programs are shared sessions of one filter exactly if they differ in no
    more than the keys. *)
Lemma bpf_eq_spec BPF_KEY insn_eq f1 f2 :
  (∀ p q, insn_eq p q = true ↔ p = q) → length f1 = length f2 →
  bpf_eq BPF_KEY insn_eq f1 f2 = true ↔
  Forall2 (λ p q, p = q ∨ (code p = Z.lor BPF_MISC BPF_KEY ∧ code q = Z.lor BPF_MISC BPF_KEY)) f1 f2.
Proof.
  intros Heq. revert f2. induction f1 as [|p f1 IH]; intros [|q f2] Hl; simpl in *; try done.
  rewrite Forall2_cons, <-IH by lia. destruct (insn_eq p q) eqn:E.
  - apply Heq in E. tauto.
  - assert (p ≠ q) by (intros H%Heq; congruence). case_decide; [tauto|]. split; [done|tauto].
Qed.

(** ** Examples

    The values of the kernel's header: the match instruction 0x18, its keys 0x10,
    packets of at most 4095 bytes. *)
Definition validate := bpf_validate 0x18 0x10.

(** A filter on the type field of an ethernet header of 14 bytes, and a packet of
    which the first four bytes of the buffer are not part. *)
Definition eth_header : list Z := replicate 12 7 ++ [8; 0].
Definition eth_buffer : list Z := replicate 4085 1.
Definition filter := bpf_do_filter 0x18 4095 false None eth_header eth_buffer 4 60.

Definition flags : bpf_insn := mk_insn 0 0 0 0.
Definition is_ip : list bpf_insn :=
  [ flags; mk_insn 0x28 0 0 12; mk_insn 0x15 0 1 0x800; mk_insn 0x06 0 0 40; mk_insn 0x06 0 0 0 ].
Definition zeros : list Z := replicate 16 0.

Lemma bpf_validated_safe_witness :
  ∃ n e, filter (length is_ip) is_ip zeros = Returned n e ∧ 0 ≤ n ≤ 60.
Proof.
  apply (bpf_validated_safe 0x18 0x10 4095 false None eth_header eth_buffer 4 60) with (v := 1) (m := None).
  - apply (bool_decide_eq_true_1 _). by vm_compute.
  - apply (bool_decide_eq_true_1 _). by vm_compute.
  - lia.
  - by vm_compute.
  - lia.
  - by vm_compute.
  - by vm_compute.
  - repeat constructor; simpl; lia.
  - by vm_compute.
  - done.
  - by repeat constructor.
  - done.
  - done.
  - repeat constructor; lia.
Defined.

(** The sum of the keys of a session is its chain. *)
Definition one_session : net_hash_header :=
  mk_hash 2 1 (replicate 5 [] ++ [[mk_entry 9 [2; 3; 0; 0]]] ++ replicate 250 []).

Lemma one_session_hashed : hashed one_session.
Proof.
  split; [done|]. intros j chain e Hj He.
  assert (Hall : Forall (λ '(i, c), Forall (λ e, bpf_hash (take 2 (keys e)) = Z.of_nat i) c) (imap pair (table one_session))).
  { apply (bool_decide_eq_true_1 _). by vm_compute. }
  unfold lookupz in Hj. case_decide; [|done]. rewrite Forall_forall in Hall.
  assert (Hc : Forall (λ e, bpf_hash (take 2 (keys e)) = Z.of_nat (Z.to_nat j)) chain).
  { apply (Hall (Z.to_nat j, chain)). apply list_elem_of_lookup. exists (Z.to_nat j).
    by rewrite list_lookup_imap, Hj. }
  rewrite Z2Nat.id, Forall_forall in Hc by lia. by apply Hc.
Qed.

Lemma bpf_match_complete_witness :
  match bpf_match one_session 2 [2; 3; 4] with
  | None => False
  | Some (Some e) => e ∈ mjoin (table one_session) ∧ take 2 [2; 3; 4] = take 2 (keys e)
  | Some None => ∀ e, e ∈ mjoin (table one_session) → take 2 [2; 3; 4] ≠ take 2 (keys e)
  end.
Proof. apply (bpf_match_complete one_session [2; 3; 4]). apply one_session_hashed. Defined.

(** ** What the check accepts *)

(** An instruction that stores the index register may write anywhere, one that
    loads it may read anywhere. *)
Example bpf_stx_unchecked :
  let store := [flags; mk_insn 0x03 0 0 1000; mk_insn 0x06 0 0 0] in
  let load := [flags; mk_insn 0x61 0 0 (-1); mk_insn 0x06 0 0 0] in
  validate store = Some (1, None) ∧ filter 3 store zeros = Fault
  ∧ validate load = Some (1, None) ∧ filter 3 load zeros = Fault.
Proof. by vm_compute. Qed.

(** A jump backwards: the filter never ends. *)
Definition endless : list bpf_insn := [flags; mk_insn 0x05 0 0 (-1); mk_insn 0x06 0 0 0].

Lemma bpf_backward_jump_spins :
  validate endless = Some (1, None) ∧ ∀ rounds, filter rounds endless zeros = Running.
Proof.
  split; [by vm_compute|]. intros rounds. unfold filter, bpf_do_filter.
  induction rounds as [|rounds IH]; [done|]. exact IH.
Qed.

(** A word at the last two bytes of the header is not read from there: it is read
    before the start of the packet.  A byte of 128 or more is extended by its sign. *)
Example bpf_load_wrong :
  filter 4 [flags; mk_insn 0x20 0 0 12; mk_insn 0x15 1 0 0x01010101; mk_insn 0x06 0 0 1; mk_insn 0x06 0 0 2] zeros
    = Returned 2 None
  ∧ bpf_do_filter 0x18 4095 false None (replicate 14 0xff) eth_buffer 4 60 4
      [flags; mk_insn 0x30 0 0 0; mk_insn 0x15 1 0 0xff; mk_insn 0x06 0 0 1; mk_insn 0x06 0 0 2] zeros
    = Returned 1 None.
Proof. by vm_compute. Qed.

(** A program of no instruction is read before its start. *)
Example bpf_validate_empty : validate [] = None.
Proof. done. Qed.
