(* ===== verification/Queue.v ===== *)
(** * Doubly linked queues (src/libbpf/queue.c, queue.h)

    A queue is a ring of chains with a head that is not an element.  The heap maps
    the address of a chain to its two fields; an access to an address where no
    chain is allocated is [None].  The functions of queue.c work on chains.  The
    macros of queue.h work on structures with the chain at some offset: the pointers
    in the chains are addresses of structures, but the head is a chain, so that the
    macros have to treat it apart.  The theorem says that every operation on the ring
    is the operation on a list it is meant to be, and touches no other chain. *)

From S2P Require Import Prelude.

Abbreviation loc := nat.

Record heap := mk_heap { nexts : gmap loc loc; prevs : gmap loc loc }.

Definition get_next (p : loc) (h : heap) : option loc := nexts h !! p.
Definition get_prev (p : loc) (h : heap) : option loc := prevs h !! p.

Definition set_next (p v : loc) (h : heap) : option heap :=
  match nexts h !! p with
  | Some _ => Some (mk_heap (<[p := v]> (nexts h)) (prevs h))
  | None => None
  end.

Definition set_prev (p v : loc) (h : heap) : option heap :=
  match prevs h !! p with
  | Some _ => Some (mk_heap (nexts h) (<[p := v]> (prevs h)))
  | None => None
  end.

(** ** queue.c *)
Definition queue_init (q : loc) (h : heap) : option heap := h ← set_prev q q h; set_next q q h.

Definition enqueue_head (que elt : loc) (h : heap) : option heap :=
  n ← get_next que h; h ← set_next elt n h;
  h ← set_prev elt que h;
  n ← get_next elt h; h ← set_prev n elt h;
  set_next que elt h.

Definition enqueue_tail (que elt : loc) (h : heap) : option heap :=
  h ← set_next elt que h;
  p ← get_prev que h; h ← set_prev elt p h;
  p ← get_prev elt h; h ← set_next p elt h;
  set_prev que elt h.

Definition dequeue_head (que : loc) (h : heap) : option (option loc * heap) :=
  elt ← get_next que h;
  if decide (elt = que) then Some (None, h) else
  n ← get_next elt h; h ← set_prev n que h;
  n ← get_next elt h; h ← set_next que n h;
  Some (Some elt, h).

Definition dequeue_tail (que : loc) (h : heap) : option (option loc * heap) :=
  elt ← get_prev que h;
  if decide (elt = que) then Some (None, h) else
  p ← get_prev elt h; h ← set_next p que h;
  p ← get_prev elt h; h ← set_prev que p h;
  Some (Some elt, h).

Definition remqueue (elt : loc) (h : heap) : option heap :=
  n ← get_next elt h; p ← get_prev elt h; h ← set_prev n p h;
  p ← get_prev elt h; n ← get_next elt h; set_next p n h.

Definition remque (elt : loc) (h : heap) : option (loc * heap) :=
  n ← get_next elt h; p ← get_prev elt h; h ← set_prev n p h;
  p ← get_prev elt h; n ← get_next elt h; h ← set_next p n h;
  Some (elt, h).

Definition insque (entry pred : loc) (h : heap) : option heap :=
  n ← get_next pred h; h ← set_next entry n h;
  h ← set_prev entry pred h;
  n ← get_next pred h; h ← set_prev n entry h;
  set_next pred entry h.

(** ** The macros of queue.h

    [field] is the offset of the chain in the structure of an element. *)
Section macros.
Context (field : nat).

Definition queue_first (q : loc) (h : heap) : option loc := get_next q h.
Definition queue_next (qc : loc) (h : heap) : option loc := get_next qc h.
Definition queue_last (q : loc) (h : heap) : option loc := get_prev q h.
Definition queue_prev (qc : loc) (h : heap) : option loc := get_prev qc h.
Definition queue_end (q qe : loc) : bool := bool_decide (q = qe).
Definition queue_empty (q : loc) (h : heap) : option bool := queue_end q <$> queue_first q h.

(** [&((type)elt)->field] *)
Definition chain_of (elt : loc) : loc := elt + field.

Definition queue_field (head thing : loc) : loc := if decide (head = thing) then head else chain_of thing.

Definition queue_enter (head elt : loc) (h : heap) : option heap :=
  prev ← get_prev head h;
  h ← (if decide (head = prev) then set_next head elt h else set_next (chain_of prev) elt h);
  h ← set_prev (chain_of elt) prev h; h ← set_next (chain_of elt) head h;
  set_prev head elt h.

Definition queue_enter_first (head elt : loc) (h : heap) : option heap :=
  next ← get_next head h;
  h ← (if decide (head = next) then set_prev head elt h else set_prev (chain_of next) elt h);
  h ← set_next (chain_of elt) next h; h ← set_prev (chain_of elt) head h;
  set_next head elt h.

Definition queue_remove (head elt : loc) (h : heap) : option heap :=
  next ← get_next (chain_of elt) h; prev ← get_prev (chain_of elt) h;
  h ← (if decide (head = next) then set_prev head prev h else set_prev (chain_of next) prev h);
  if decide (head = prev) then set_next head next h else set_next (chain_of prev) next h.

Definition queue_remove_first (head : loc) (h : heap) : option (loc * heap) :=
  entry ← get_next head h; next ← get_next (chain_of entry) h;
  h ← (if decide (head = next) then set_prev head head h else set_prev (chain_of next) head h);
  h ← set_next head next h; Some (entry, h).

Definition queue_remove_last (head : loc) (h : heap) : option (loc * heap) :=
  entry ← get_prev head h; prev ← get_prev (chain_of entry) h;
  h ← (if decide (head = prev) then set_next head head h else set_next (chain_of prev) head h);
  h ← set_prev head prev h; Some (entry, h).

Definition queue_assign (to from : loc) (h : heap) : option heap :=
  p ← get_prev from h; h ← set_next (chain_of p) to h;
  n ← get_next from h; h ← set_prev (chain_of n) to h;
  n ← get_next from h; p ← get_prev from h;
  h ← set_next to n h; set_prev to p h.

(** The elements that [queue_iterate] goes through, from [elt] on. *)
Fixpoint iterate_from (fuel : nat) (head elt : loc) (h : heap) : option (list loc) :=
  if queue_end head elt then Some [] else
  match fuel with
  | O => None
  | S fuel' => next ← queue_next (chain_of elt) h; l ← iterate_from fuel' head next h; Some (elt :: l)
  end.

Definition queue_iterate (fuel : nat) (head : loc) (h : heap) : option (list loc) :=
  elt ← queue_first head h; iterate_from fuel head elt h.
End macros.

(** ** Rings and lists *)

(** What the assignments do. *)
Lemma set_next_ok p v h :
  is_Some (get_next p h) →
  ∃ h', set_next p v h = Some h' ∧ (∀ x, get_next x h' = if decide (x = p) then Some v else get_next x h)
    ∧ (∀ x, get_prev x h' = get_prev x h).
Proof.
  intros [n Hn]. unfold set_next, get_next in *. rewrite Hn. eexists. split; [done|]. split; [|done].
  intros x. simpl. case_decide; [subst; apply lookup_insert_eq|by rewrite lookup_insert_ne].
Qed.

Lemma set_prev_ok p v h :
  is_Some (get_prev p h) →
  ∃ h', set_prev p v h = Some h' ∧ (∀ x, get_prev x h' = if decide (x = p) then Some v else get_prev x h)
    ∧ (∀ x, get_next x h' = get_next x h).
Proof.
  intros [n Hn]. unfold set_prev, get_prev in *. rewrite Hn. eexists. split; [done|]. split; [|done].
  intros x. simpl. case_decide; [subst; apply lookup_insert_eq|by rewrite lookup_insert_ne].
Qed.

(** Fields of a heap after assignments. *)
Ltac fields :=
  repeat match goal with
  | H : ∀ x, get_next x ?h = _ |- context [get_next _ ?h] => rewrite H
  | H : ∀ x, get_prev x ?h = _ |- context [get_prev _ ?h] => rewrite H
  end;
  repeat case_decide; subst; try done; eauto.

Ltac assign :=
  match goal with
  | |- context [set_next ?p ?v ?h] =>
      let h' := fresh "h" in let Hs := fresh "Hs" in let Hn := fresh "Hn" in let Hp := fresh "Hp" in
      destruct (set_next_ok p v h) as (h' & Hs & Hn & Hp); [fields|rewrite Hs; clear Hs; cbn [mbind option_bind]]
  | |- context [set_prev ?p ?v ?h] =>
      let h' := fresh "h" in let Hs := fresh "Hs" in let Hn := fresh "Hn" in let Hp := fresh "Hp" in
      destruct (set_prev_ok p v h) as (h' & Hs & Hp & Hn); [fields|rewrite Hs; clear Hs; cbn [mbind option_bind]]
  end.

(** The value of a field that is read. *)
Ltac fetch v :=
  match goal with
  | |- context [get_next ?p ?h ≫= _] =>
      let H := fresh "Hf" in assert (H : get_next p h = Some v) by fields; rewrite H; cbn [mbind option_bind]
  | |- context [get_prev ?p ?h ≫= _] =>
      let H := fresh "Hf" in assert (H : get_prev p h = Some v) by fields; rewrite H; cbn [mbind option_bind]
  end.

(** A queue with its head at [q] and the chains of the elements at offset [field]. *)
Section rings.
Context (field : nat) (q : loc).

Abbreviation chain := (queue_field field q).

(** The chain of an element is not the head. *)
Definition good (x : loc) : Prop := x = q ∨ chain_of field x ≠ q.

#[local] Instance good_dec x : Decision (good x).
Proof. unfold good. apply _. Defined.

Lemma chain_inj x y : good x → good y → chain x = chain y → x = y.
Proof. unfold good, queue_field, chain_of. intros Hx Hy. repeat case_decide; lia. Qed.

Ltac same_chain :=
  exfalso; match goal with H : chain _ = chain _ |- _ => apply chain_inj in H; [congruence|done|done] end.

(** The neighbours of an element. *)
Definition nx (x : loc) (h : heap) : option loc := if decide (good x) then get_next (chain x) h else None.
Definition pv (x : loc) (h : heap) : option loc := if decide (good x) then get_prev (chain x) h else None.

(** The links from [p] over the elements [l] to [e]. *)
Fixpoint links (h : heap) (p : loc) (l : list loc) (e : loc) : Prop :=
  match l with
  | [] => nx p h = Some e ∧ pv e h = Some p
  | x :: l' => nx p h = Some x ∧ pv x h = Some p ∧ links h x l' e
  end.

Definition ring (h : heap) (l : list loc) : Prop := NoDup (q :: l) ∧ links h q l q.

Lemma links_app h p l1 x l2 e :
  links h p (l1 ++ x :: l2) e ↔ links h p l1 x ∧ links h x l2 e.
Proof.
  revert p. induction l1 as [|y l1 IH]; intros p; simpl; [tauto|]. rewrite IH. tauto.
Qed.

(** Links depend on the next fields of all but the last and the previous fields of
    all but the first. *)
Lemma links_frame h h' p l e :
  (∀ x, x ∈ p :: l → nx x h' = nx x h) → (∀ x, x ∈ l ++ [e] → pv x h' = pv x h) →
  links h p l e → links h' p l e.
Proof.
  revert p. induction l as [|x l IH]; intros p Hn Hp; simpl.
  - intros [H1 H2]. rewrite Hn, Hp by set_solver. done.
  - intros (H1 & H2 & H3). rewrite Hn, Hp by set_solver. split_and!; try done.
    apply IH; [|by intros y Hy; apply Hp; set_solver|done]. intros y Hy. apply Hn. set_solver.
Qed.

Lemma links_next h p l e : links h p l e → nx p h = Some (default e (head l)).
Proof. destruct l; simpl; tauto. Qed.

Lemma links_prev h p l e : links h p l e → pv e h = Some (default p (last l)).
Proof.
  revert p. induction l as [|x l IH]; intros p; simpl; [tauto|]. intros (_ & _ & H).
  rewrite (IH x H), last_cons. by destruct (last l).
Qed.

(** An element between [p] and [n], and the removal of one: the cells of the heap,
    and the neighbours. *)
Definition linked_in (p elt n : loc) (h h' : heap) : Prop :=
  (∀ a, get_next a h' = if decide (a = chain p) then Some elt else if decide (a = chain elt) then Some n else get_next a h)
  ∧ (∀ a, get_prev a h' = if decide (a = chain n) then Some elt else if decide (a = chain elt) then Some p else get_prev a h).

Definition linked_out (p n : loc) (h h' : heap) : Prop :=
  (∀ a, get_next a h' = if decide (a = chain p) then Some n else get_next a h)
  ∧ (∀ a, get_prev a h' = if decide (a = chain n) then Some p else get_prev a h).

Definition view_in (p elt n : loc) (h h' : heap) : Prop :=
  (∀ x, nx x h' = if decide (x = p) then Some elt else if decide (x = elt) then Some n else nx x h)
  ∧ (∀ x, pv x h' = if decide (x = n) then Some elt else if decide (x = elt) then Some p else pv x h).

Definition view_out (p n : loc) (h h' : heap) : Prop :=
  (∀ x, nx x h' = if decide (x = p) then Some n else nx x h)
  ∧ (∀ x, pv x h' = if decide (x = n) then Some p else pv x h).

Lemma linked_in_view p elt n h h' : good p → good elt → good n → linked_in p elt n h h' → view_in p elt n h h'.
Proof.
  intros Hp He Hn [H1 H2]. split; intros x; unfold nx, pv; rewrite ?H1, ?H2; repeat case_decide; subst; try done; same_chain.
Qed.

Lemma linked_out_view p n h h' : good p → good n → linked_out p n h h' → view_out p n h h'.
Proof.
  intros Hp Hn [H1 H2]. split; intros x; unfold nx, pv; rewrite ?H1, ?H2; repeat case_decide; subst; try done; same_chain.
Qed.

Lemma ring_split h l1 l2 :
  ring h (l1 ++ l2) →
  nx (default q (last l1)) h = Some (default q (head l2))
  ∧ pv (default q (head l2)) h = Some (default q (last l1)).
Proof.
  intros [_ H]. destruct l1 as [|x l1 _] using rev_ind; simpl.
  - split; [by apply links_next|]. destruct l2 as [|y l2]; simpl in *; tauto.
  - rewrite last_snoc. rewrite <-app_assoc in H. apply links_app in H as [_ H]. simpl.
    split; [by apply links_next|]. destruct l2 as [|y l2]; simpl in *; tauto.
Qed.

(** The part of a ring before and behind a place that is changed. *)
Lemma links_before h h' e l1 z y l2 :
  links h e ((l1 ++ [z]) ++ l2) y → (∀ x, x ∈ e :: l1 → nx x h' = nx x h) →
  (∀ x, x ∈ l1 ++ [z] → pv x h' = pv x h) → links h' e l1 z.
Proof. rewrite <-app_assoc. intros [Hl _]%links_app Hn Hp. by eapply links_frame. Qed.

Lemma links_behind h h' e l1 z y l2 :
  links h e (l1 ++ z :: l2) y → (∀ x, x ∈ z :: l2 → nx x h' = nx x h) →
  (∀ x, x ∈ l2 ++ [y] → pv x h' = pv x h) → links h' z l2 y.
Proof. intros [_ Hl]%links_app Hn Hp. by eapply links_frame. Qed.

Lemma linked_in_ring h h' l1 elt l2 :
  ring h (l1 ++ l2) → elt ∉ q :: l1 ++ l2 →
  view_in (default q (last l1)) elt (default q (head l2)) h h' → ring h' (l1 ++ elt :: l2).
Proof.
  intros [Hnd Hl] Hne [Hn Hp]. apply NoDup_cons in Hnd as [Hq Hnd]. pose proof Hnd as (_ & Hdis & _)%NoDup_app.
  split.
  { rewrite <-Permutation_middle. apply NoDup_cons. split; [set_solver|]. apply NoDup_cons. split; [set_solver|done]. }
  apply links_app. split.
  - destruct l1 as [|z l1 _] using rev_ind; simpl.
    + rewrite Hn, Hp. rewrite decide_True by done. rewrite decide_False, decide_True; [done|done|].
      intros ->. apply Hne. destruct l2; set_solver.
    + rewrite last_snoc in Hn, Hp. simpl in Hn, Hp. apply NoDup_app in Hnd as ((_ & Hz & _)%NoDup_app & _).
      apply (links_app h' q l1 z []). split; [eapply links_before; [exact Hl|..]|].
      * intros x Hx. rewrite Hn, !decide_False; [done|set_solver|set_solver].
      * intros x Hx. rewrite Hp, !decide_False; [done|set_solver|destruct l2; set_solver].
      * simpl. rewrite Hn, Hp. rewrite decide_True by done. rewrite decide_False, decide_True; [done|done|].
        intros ->. apply Hne. destruct l2; set_solver.
  - destruct l2 as [|z l2]; simpl in *.
    + rewrite Hn, Hp. rewrite decide_False, !decide_True; [done|done|done|].
      intros ->. apply Hne. destruct (last l1) eqn:E; [|set_solver]. apply last_Some_elem_of in E. set_solver.
    + apply NoDup_app in Hnd as (_ & _ & [Hz _]%NoDup_cons).
      assert (elt ≠ default q (last l1) ∧ (∀ x, x ∈ z :: l2 → x ≠ default q (last l1))) as [Hel Hlast].
      { destruct (last l1) eqn:E; simpl; [apply last_Some_elem_of in E|]; set_solver. }
      rewrite Hn, Hp, decide_False, !decide_True by done. split_and!; [done|done|].
      eapply links_behind; [exact Hl|..]; intros x Hx.
      * rewrite Hn, !decide_False; [done|set_solver|auto].
      * rewrite Hp, !decide_False; [done|set_solver|set_solver].
Qed.

Lemma linked_out_ring h h' l1 elt l2 :
  ring h (l1 ++ elt :: l2) →
  view_out (default q (last l1)) (default q (head l2)) h h' → ring h' (l1 ++ l2).
Proof.
  intros [Hnd Hl] [Hn Hp]. apply NoDup_cons in Hnd as [Hq Hnd].
  pose proof Hnd as (Hnd1 & Hdis & [He Hnd2]%NoDup_cons)%NoDup_app. split.
  { apply NoDup_cons. split; [set_solver|]. apply NoDup_app. split; [done|]. split; [set_solver|done]. }
  assert (Hback : ∀ z l, l2 = z :: l → links h' z l q).
  { intros z l ->. apply NoDup_cons in Hnd2 as [Hz _].
    eapply (links_behind h h' q (l1 ++ [elt]) z); [by rewrite <-app_assoc|..]; intros x Hx.
    - rewrite Hn, decide_False; [done|]. destruct (last l1) eqn:E; simpl; [apply last_Some_elem_of in E|]; set_solver.
    - rewrite Hp, decide_False; [done|]. simpl. set_solver. }
  destruct l1 as [|y l1 _] using rev_ind; simpl.
  - simpl in *. destruct l2 as [|z l2]; simpl in *; rewrite Hn, Hp, !decide_True by done; [done|]. auto.
  - rewrite last_snoc in Hn, Hp. simpl in Hn, Hp. apply NoDup_app in Hnd1 as (_ & Hy & _).
    rewrite <-app_assoc. apply links_app. split.
    + eapply links_before; [exact Hl|..]; intros x Hx.
      * rewrite Hn, decide_False; [done|set_solver].
      * rewrite Hp, decide_False; [done|]. destruct l2; set_solver.
    + destruct l2 as [|z l2]; simpl in *; rewrite Hn, Hp, !decide_True by done; [done|]. auto.
Qed.

(** ** The operations *)
Lemma chain_head : chain q = q.
Proof. unfold queue_field. by rewrite decide_True. Qed.

Lemma chain_elt x : x ≠ q → chain_of field x = chain x.
Proof. intros. unfold queue_field. by rewrite decide_False. Qed.

Lemma chain_0 : field = 0%nat → ∀ x, chain x = x.
Proof. intros Hf x. unfold queue_field, chain_of. case_decide; lia. Qed.

Definition allocated (p : loc) (h : heap) : Prop := is_Some (get_next p h) ∧ is_Some (get_prev p h).

Ltac linked := eexists; split; [done|]; split; intros ?; rewrite ?chain_head; rewrite ?chain_0 by done; fields.

Section insert.
Context (h : heap) (p elt n : loc).
Hypothesis Hnext : get_next (chain p) h = Some n.
Hypothesis Hprev : get_prev (chain n) h = Some p.
Hypothesis Halloc : allocated (chain elt) h.
Hypothesis Hp : chain elt ≠ chain p.
Hypothesis Hn : chain elt ≠ chain n.

(** Functions, on chains. *)
Lemma enqueue_tail_in : field = 0%nat → ∃ h', enqueue_tail n elt h = Some h' ∧ linked_in p elt n h h'.
Proof.
  intros Hf. pose proof (chain_0 Hf) as Hc. rewrite !Hc in *.
  destruct Halloc as [[x Hx] [y Hy]]. unfold enqueue_tail.
  assign. fetch p. assign. fetch p. assign. assign. linked.
Qed.

Lemma enqueue_head_in : field = 0%nat → ∃ h', enqueue_head p elt h = Some h' ∧ linked_in p elt n h h'.
Proof.
  intros Hf. pose proof (chain_0 Hf) as Hc. rewrite !Hc in *.
  destruct Halloc as [[x Hx] [y Hy]]. unfold enqueue_head.
  fetch n. assign. assign. fetch n. assign. assign. linked.
Qed.

Lemma insque_in : field = 0%nat → ∃ h', insque elt p h = Some h' ∧ linked_in p elt n h h'.
Proof.
  intros Hf. pose proof (chain_0 Hf) as Hc. rewrite !Hc in *.
  destruct Halloc as [[x Hx] [y Hy]]. unfold insque.
  fetch n. assign. assign. fetch n. assign. assign. linked.
Qed.

(** Macros, on elements. *)
Lemma queue_enter_in : n = q → elt ≠ q → ∃ h', queue_enter field q elt h = Some h' ∧ linked_in p elt n h h'.
Proof.
  intros -> He. rewrite chain_head in *. destruct Halloc as [[x Hx] [y Hy]]. unfold queue_enter, linked_in.
  rewrite chain_head, (chain_elt elt) by done. rewrite <-(chain_elt elt) in * by done. fetch p.
  destruct (decide (q = p)) as [<-|Hne]; [rewrite chain_head in *|rewrite (chain_elt p) by done];
    assign; assign; assign; assign; linked.
Qed.

Lemma queue_enter_first_in :
  p = q → elt ≠ q → ∃ h', queue_enter_first field q elt h = Some h' ∧ linked_in p elt n h h'.
Proof.
  intros -> He. rewrite chain_head in *. destruct Halloc as [[x Hx] [y Hy]]. unfold queue_enter_first, linked_in.
  rewrite chain_head. rewrite <-(chain_elt elt) in * by done. fetch n.
  destruct (decide (q = n)) as [<-|Hne]; [rewrite chain_head in *|rewrite (chain_elt n) by done];
    assign; assign; assign; assign; linked.
Qed.
End insert.

Section remove.
Context (h : heap) (p elt n : loc).
Hypothesis Hnext : get_next (chain p) h = Some elt.
Hypothesis Hnext' : get_next (chain elt) h = Some n.
Hypothesis Hprev : get_prev (chain elt) h = Some p.
Hypothesis Hprev' : get_prev (chain n) h = Some elt.
Hypothesis Hp : chain elt ≠ chain p.
Hypothesis Hn : chain elt ≠ chain n.

Lemma remqueue_out : field = 0%nat → ∃ h', remqueue elt h = Some h' ∧ linked_out p n h h'.
Proof.
  intros Hf. pose proof (chain_0 Hf) as Hc. rewrite !Hc in *.
  unfold remqueue. fetch n. fetch p. assign. fetch p. fetch n. assign. linked.
Qed.

Lemma remque_out : field = 0%nat → ∃ h', remque elt h = Some (elt, h') ∧ linked_out p n h h'.
Proof.
  intros Hf. pose proof (chain_0 Hf) as Hc. rewrite !Hc in *.
  unfold remque. fetch n. fetch p. assign. fetch p. fetch n. assign. linked.
Qed.

Lemma dequeue_head_out : field = 0%nat → ∃ h', dequeue_head p h = Some (Some elt, h') ∧ linked_out p n h h'.
Proof.
  intros Hf. pose proof (chain_0 Hf) as Hc. rewrite !Hc in *.
  unfold dequeue_head. fetch elt. rewrite decide_False by done. fetch n. assign. fetch n. assign. linked.
Qed.

Lemma dequeue_tail_out : field = 0%nat → ∃ h', dequeue_tail n h = Some (Some elt, h') ∧ linked_out p n h h'.
Proof.
  intros Hf. pose proof (chain_0 Hf) as Hc. rewrite !Hc in *.
  unfold dequeue_tail. fetch elt. rewrite decide_False by done. fetch p. assign. fetch p. assign. linked.
Qed.

Lemma queue_remove_out : elt ≠ q → ∃ h', queue_remove field q elt h = Some h' ∧ linked_out p n h h'.
Proof.
  intros He. unfold queue_remove, linked_out. rewrite (chain_elt elt) by done. fetch n. fetch p.
  destruct (decide (q = n)) as [<-|], (decide (q = p)) as [<-|]; rewrite ?chain_head in *;
    rewrite ?(chain_elt n), ?(chain_elt p) by done; assign; assign; linked.
Qed.

Lemma queue_remove_first_out :
  p = q → elt ≠ q → ∃ h', queue_remove_first field q h = Some (elt, h') ∧ linked_out p n h h'.
Proof.
  intros -> He. unfold queue_remove_first, linked_out. rewrite chain_head in *. fetch elt.
  rewrite (chain_elt elt) by done. fetch n.
  destruct (decide (q = n)) as [<-|]; rewrite ?chain_head in *; rewrite ?(chain_elt n) by done; assign; assign; linked.
Qed.

Lemma queue_remove_last_out :
  n = q → elt ≠ q → ∃ h', queue_remove_last field q h = Some (elt, h') ∧ linked_out p n h h'.
Proof.
  intros -> He. unfold queue_remove_last, linked_out. rewrite chain_head in *. fetch elt.
  rewrite (chain_elt elt) by done. fetch p.
  destruct (decide (q = p)) as [<-|]; rewrite ?chain_head in *; rewrite ?(chain_elt p) by done; assign; assign; linked.
Qed.
End remove.

(** The queue holds [new] afterwards; chains that are not of this queue are as before. *)
Definition changed (h : heap) (old new : list loc) (h' : heap) : Prop :=
  ring h' new
  ∧ ∀ a, a ∉ chain <$> q :: old ++ new → get_next a h' = get_next a h ∧ get_prev a h' = get_prev a h.

Definition becomes (h : heap) (old new : list loc) (r : option heap) : Prop :=
  ∃ h', r = Some h' ∧ changed h old new h'.

Definition gives {A} (h : heap) (old new : list loc) (x : A) (r : option (A * heap)) : Prop :=
  ∃ h', r = Some (x, h') ∧ changed h old new h'.

Lemma nx_Some x h y : nx x h = Some y → good x ∧ get_next (chain x) h = Some y.
Proof. unfold nx. by case_decide. Qed.

Lemma pv_Some x h y : pv x h = Some y → good x ∧ get_prev (chain x) h = Some y.
Proof. unfold pv. by case_decide. Qed.

Lemma default_last (l : list loc) : default q (last l) ∈ q :: l.
Proof. destruct (last l) eqn:E; simpl; [apply last_Some_elem_of in E|]; set_solver. Qed.

Lemma default_head (l : list loc) : default q (head l) ∈ q :: l.
Proof. destruct l; set_solver. Qed.

(** A place in a ring, for a new element. *)
Lemma place_in h l1 elt l2 :
  ring h (l1 ++ l2) → elt ∉ q :: l1 ++ l2 → good elt →
  let p := default q (last l1) in let n := default q (head l2) in
  get_next (chain p) h = Some n ∧ get_prev (chain n) h = Some p ∧ chain elt ≠ chain p ∧ chain elt ≠ chain n
  ∧ ∀ h', linked_in p elt n h h' → changed h (l1 ++ l2) (l1 ++ elt :: l2) h'.
Proof.
  intros Hr Hne He p n. pose proof (default_last l1) as H1. pose proof (default_head l2) as H2.
  destruct (ring_split h l1 l2 Hr) as [[Hgp Hn]%nx_Some [Hgn Hp]%pv_Some].
  split_and!; [done|done|intros E; apply chain_inj in E; set_solver|intros E; apply chain_inj in E; set_solver|].
  intros h' Hlk. split; [by eapply linked_in_ring, linked_in_view|]. destruct Hlk as [Hn' Hp'].
  intros a Ha. rewrite Hn', Hp', !decide_False; [done|..]; intros ->; apply Ha, list_elem_of_fmap_2; set_solver.
Qed.

(** The place of an element. *)
Lemma place_out h l1 elt l2 :
  ring h (l1 ++ elt :: l2) →
  let p := default q (last l1) in let n := default q (head l2) in
  get_next (chain p) h = Some elt ∧ get_next (chain elt) h = Some n
  ∧ get_prev (chain elt) h = Some p ∧ get_prev (chain n) h = Some elt
  ∧ chain elt ≠ chain p ∧ chain elt ≠ chain n ∧ elt ≠ q
  ∧ ∀ h', linked_out p n h h' → changed h (l1 ++ elt :: l2) (l1 ++ l2) h'.
Proof.
  intros Hr p n. pose proof (default_last l1) as H1. pose proof (default_head l2) as H2.
  destruct (ring_split h l1 (elt :: l2) Hr) as [[Hgp Hn]%nx_Some [Hge Hp]%pv_Some]. simpl in Hn, Hp.
  assert (Hr' : ring h ((l1 ++ [elt]) ++ l2)) by (by rewrite <-app_assoc).
  destruct (ring_split h (l1 ++ [elt]) l2 Hr') as [[_ Hn']%nx_Some [Hgn Hp']%pv_Some]. rewrite last_snoc in Hn', Hp'.
  pose proof Hr as [[Hq (_ & Hdis & [He _]%NoDup_cons)%NoDup_app]%NoDup_cons _]. simpl in Hge.
  split_and!; try done; [intros E; apply chain_inj in E; set_solver..|set_solver|].
  intros h' Hlk. split; [by eapply linked_out_ring, linked_out_view|]. destruct Hlk as [Hn2 Hp2].
  intros a Ha. rewrite Hn2, Hp2, !decide_False; [done|..]; intros ->; apply Ha, list_elem_of_fmap_2; set_solver.
Qed.

Ltac operate op := destruct op as (h' & Hop & Hlk); try done; exists h'; split; [done|]; auto.

(** New elements. *)
Lemma enter_refines h l elt :
  ring h l → elt ∉ q :: l → good elt → allocated (chain elt) h →
  becomes h l (l ++ [elt]) (queue_enter field q elt h) ∧ becomes h l (elt :: l) (queue_enter_first field q elt h)
  ∧ (field = 0%nat → becomes h l (l ++ [elt]) (enqueue_tail q elt h) ∧ becomes h l (elt :: l) (enqueue_head q elt h)).
Proof.
  intros Hr Hne Hg Ha. assert (elt ≠ q) as Heq by set_solver. pose proof (place_in h l elt []) as Ht. rewrite app_nil_r in Ht.
  destruct (Ht Hr Hne Hg) as (Hn & Hp & H1 & H2 & Hch).
  destruct (place_in h [] elt l Hr Hne Hg) as (Hn' & Hp' & H1' & H2' & Hch'). simpl in *. split_and!.
  - operate (queue_enter_in h (default q (last l)) elt q).
  - operate (queue_enter_first_in h q elt (default q (head l))).
  - intros Hf. split.
    + operate (enqueue_tail_in h (default q (last l)) elt q).
    + operate (enqueue_head_in h q elt (default q (head l))).
Qed.

Lemma insque_refines h l1 x l2 elt :
  field = 0%nat → ring h (l1 ++ x :: l2) → elt ∉ q :: l1 ++ x :: l2 → good elt → allocated (chain elt) h →
  becomes h (l1 ++ x :: l2) (l1 ++ x :: elt :: l2) (insque elt x h).
Proof.
  intros Hf Hr Hne Hg Ha. pose proof (place_in h (l1 ++ [x]) elt l2) as Ht.
  rewrite <-!app_assoc, last_snoc in Ht. destruct (Ht Hr Hne Hg) as (Hn & Hp & H1 & H2 & Hch). simpl in *.
  operate (insque_in h x elt (default q (head l2))).
Qed.

(** Elements that go out. *)
Lemma remove_refines h l1 x l2 :
  ring h (l1 ++ x :: l2) →
  becomes h (l1 ++ x :: l2) (l1 ++ l2) (queue_remove field q x h)
  ∧ (field = 0%nat → becomes h (l1 ++ x :: l2) (l1 ++ l2) (remqueue x h)
                     ∧ gives h (l1 ++ x :: l2) (l1 ++ l2) x (remque x h)).
Proof.
  intros Hr. destruct (place_out h l1 x l2 Hr) as (? & ? & ? & ? & ? & ? & ? & Hch). split.
  - operate (queue_remove_out h (default q (last l1)) x (default q (head l2))).
  - intros Hf. split.
    + operate (remqueue_out h (default q (last l1)) x (default q (head l2))).
    + operate (remque_out h (default q (last l1)) x (default q (head l2))).
Qed.

Lemma first_refines h x l :
  ring h (x :: l) →
  gives h (x :: l) l x (queue_remove_first field q h)
  ∧ (field = 0%nat → gives h (x :: l) l (Some x) (dequeue_head q h)).
Proof.
  intros Hr. destruct (place_out h [] x l Hr) as (? & ? & ? & ? & ? & ? & ? & Hch). split.
  - operate (queue_remove_first_out h q x (default q (head l))).
  - intros Hf. operate (dequeue_head_out h q x (default q (head l))).
Qed.

Lemma last_refines h l x :
  ring h (l ++ [x]) →
  gives h (l ++ [x]) l x (queue_remove_last field q h)
  ∧ (field = 0%nat → gives h (l ++ [x]) l (Some x) (dequeue_tail q h)).
Proof.
  intros Hr. pose proof (place_out h l x [] Hr) as (? & ? & ? & ? & ? & ? & ? & Hch). rewrite app_nil_r in Hch. split.
  - operate (queue_remove_last_out h (default q (last l)) x q).
  - intros Hf. operate (dequeue_tail_out h (default q (last l)) x q).
Qed.

(** Going through the queue. *)
Lemma iterate_refines h p l :
  links h p l q → q ∉ l → nx p h ≫= (λ x, iterate_from field (length l) q x h) = Some l.
Proof.
  revert p. induction l as [|x l IH]; intros p.
  - intros [-> _] _. simpl. unfold queue_end. by rewrite bool_decide_true.
  - intros (-> & _ & Hl) Hq. cbn [mbind option_bind length iterate_from]. unfold queue_end.
    rewrite bool_decide_false by set_solver. specialize (IH x Hl ltac:(set_solver)).
    pose proof (links_next _ _ _ _ Hl) as Hn. rewrite Hn in IH. apply nx_Some in Hn as [_ Hn].
    unfold queue_next. rewrite chain_elt by set_solver. rewrite Hn. cbn [mbind option_bind] in *. by rewrite IH.
Qed.
End rings.

Lemma queue_init_ring field q h : allocated q h → ∃ h', queue_init q h = Some h' ∧ ring field q h' [].
Proof.
  intros [[n Hn] [p Hp]]. unfold queue_init. assign. assign. eexists. split; [done|].
  split; [apply NoDup_singleton|]. simpl. unfold nx, pv. rewrite !decide_True by (by left).
  rewrite chain_head. split; fields.
Qed.

(** ** A queue that gets a new head *)
Section assign.
Context (field : nat) (q to : loc) (h h' : heap).

(** An element of the queue with either head. *)
Definition member (x : loc) : Prop :=
  x ≠ q ∧ x ≠ to ∧ chain_of field x ≠ q ∧ chain_of field x ≠ to.

Lemma member_view x : member x →
  nx field q x h = get_next (chain_of field x) h ∧ nx field to x h' = get_next (chain_of field x) h'
  ∧ pv field q x h = get_prev (chain_of field x) h ∧ pv field to x h' = get_prev (chain_of field x) h'.
Proof.
  intros (? & ? & ? & ?). unfold nx, pv, queue_field.
  by rewrite !(decide_True (P := good _ _ _)), !decide_False by (by right || congruence).
Qed.

(** The last of the elements points to the new head, and the head to it. *)
Lemma links_rehead p l :
  links field q h p l q → Forall member (p :: l) → NoDup (p :: l) →
  (∀ x, x ∈ p :: l → get_next (chain_of field x) h' = if decide (last (p :: l) = Some x) then Some to else get_next (chain_of field x) h) →
  (∀ x, x ∈ l → get_prev (chain_of field x) h' = get_prev (chain_of field x) h) →
  pv field to to h' = last (p :: l) →
  links field to h' p l to.
Proof.
  revert p. induction l as [|x l IH]; intros p Hl Hm Hnd Hn Hp Hto; apply Forall_cons in Hm as [Hmp Hm];
    destruct (member_view p Hmp) as (En & En' & Ep & Ep').
  - simpl. rewrite En', Hn, decide_True by set_solver. done.
  - destruct Hl as (H1 & H2 & H3). apply NoDup_cons in Hnd as [Hpl Hnd]. rewrite last_cons_cons in Hn, Hto.
    pose proof Hm as [Hmx _]%Forall_cons. destruct (member_view x Hmx) as (_ & _ & Epx & Epx').
    split; [|split].
    + rewrite En', Hn, decide_False; [congruence| |set_solver]. intros Hlast%last_Some_elem_of. done.
    + rewrite Epx', Hp by set_solver. congruence.
    + apply IH; [done|done|done| |by intros y Hy; apply Hp; set_solver|done]. intros y Hy. apply Hn. set_solver.
Qed.
End assign.

Lemma ring_good field q h l x : ring field q h l → x ∈ l → good field q x.
Proof.
  intros [_ Hl] (l1 & l2 & ->)%list_elem_of_split. apply links_app in Hl as [Hl _].
  by apply links_prev, pv_Some in Hl as [? _].
Qed.

Lemma ring_members field q to h l :
  ring field q h l → to ∉ q :: l → Forall (λ x, chain_of field x ≠ to) l → Forall (member field q to) l.
Proof.
  intros Hr Hto Hch. apply Forall_forall. intros y Hy. rewrite Forall_forall in Hch.
  pose proof Hr as [[Hq _]%NoDup_cons _].
  split_and!; [set_solver|set_solver| |by apply Hch]. by destruct (ring_good field q h l y) as [->|].
Qed.

(** The two ends of a queue that is not empty. *)
Lemma ring_ends field q h x l :
  ring field q h (x :: l) →
  ∃ z, last (x :: l) = Some z ∧ get_next q h = Some x ∧ get_prev q h = Some z
    ∧ is_Some (get_next (chain_of field z) h) ∧ is_Some (get_prev (chain_of field x) h).
Proof.
  intros [[Hq _]%NoDup_cons Hl]. destruct (last (x :: l)) as [z|] eqn:Hz; [|by apply last_None in Hz].
  pose proof (links_prev _ _ _ _ _ _ Hl) as [_ Hlast]%pv_Some. rewrite chain_head, Hz in Hlast.
  exists z. split; [done|]. pose proof Hl as ([_ Hnx]%nx_Some & [_ Hpx]%pv_Some & _). rewrite chain_head in Hnx.
  rewrite <-chain_elt in Hpx by set_solver. apply last_Some in Hz as [l' E]. rewrite E in *.
  apply links_app in Hl as [_ [[_ Hn]%nx_Some _]]. rewrite <-chain_elt in Hn by set_solver. by split_and!.
Qed.

Lemma queue_assign_ring field q to h l :
  ring field q h l → l ≠ [] → allocated to h → to ∉ q :: l → Forall (λ x, chain_of field x ≠ to) l →
  ∃ h', queue_assign field to q h = Some h' ∧ ring field to h' l.
Proof.
  intros Hr Hne [[tn Htn] [tp Htp]] Hto Hch. destruct l as [|x l]; [done|].
  pose proof (ring_members field q to h _ Hr Hto Hch) as Hmem. pose proof Hmem as Hm. rewrite Forall_forall in Hm.
  destruct (ring_ends field q h x l Hr) as (z & Hz & Hnx & Hlast & [zn Hzn] & [xp Hxp]).
  destruct (Hm z ltac:(by apply last_Some_elem_of)) as (Hzq & Hzt & Hzcq & Hzct).
  destruct (Hm x ltac:(set_solver)) as (Hxq & Hxt & Hxcq & Hxct).
  unfold queue_assign. fetch z. assign. fetch x. assign. fetch x. fetch z. assign. assign.
  eexists. split; [done|]. destruct Hr as [[Hq Hnd]%NoDup_cons (_ & _ & Hl)].
  split; [apply NoDup_cons; split; [set_solver|done]|].
  assert (Hhead : ∀ hx, nx field to to hx = get_next to hx ∧ pv field to to hx = get_prev to hx).
  { intros hx. unfold nx, pv. rewrite !decide_True by (by left). by rewrite chain_head. }
  destruct (member_view field q to h h3 x) as (_ & _ & _ & Hpv); [by apply Hm; set_solver|].
  split; [|split].
  - rewrite (proj1 (Hhead _)). fields.
  - rewrite Hpv. fields.
  - apply (links_rehead field q to h); try done.
    + intros y Hy. rewrite Hz. destruct (Hm y Hy) as (? & ? & ? & ?).
      destruct (decide (Some z = Some y)) as [[= <-]|Hzy]; [fields|].
      assert (chain_of field y ≠ chain_of field z) by (unfold chain_of; intros ?; apply Hzy; f_equal; lia). fields.
    + intros y Hy. destruct (Hm y ltac:(set_solver)) as (? & ? & ? & ?). apply NoDup_cons in Hnd as [Hxl _].
      assert (chain_of field y ≠ chain_of field x) by (unfold chain_of; intros ?; apply Hxl; by replace x with y by lia).
      fields.
    + rewrite (proj2 (Hhead _)), Hz. fields.
Qed.

(** C36. The queues refine lists.  With the queue of head [q] holding [l], its
    elements being structures with the chain at offset [field], a new element is put
    at the end or at the start; the first or last element is taken out, or one from
    the middle; the queue is gone through from first to last, is empty exactly if the
    list is, can be made empty, and can be given a new head unless it is empty.  No
    chain of another queue is touched.  With [field] 0 the functions of queue.c do
    the same, [insque] puts an element behind another one, and taking one from an
    empty queue gives a null pointer. *)
Theorem queue_refines field q h l :
  ring field q h l →
  let becomes := becomes field q h l in
  (∀ elt, elt ∉ q :: l → chain_of field elt ≠ q → allocated (chain_of field elt) h →
     becomes (l ++ [elt]) (queue_enter field q elt h) ∧ becomes (elt :: l) (queue_enter_first field q elt h)
     ∧ (field = 0%nat → becomes (l ++ [elt]) (enqueue_tail q elt h) ∧ becomes (elt :: l) (enqueue_head q elt h)
        ∧ ∀ l1 x l2, l = l1 ++ x :: l2 → becomes (l1 ++ x :: elt :: l2) (insque elt x h)))
  ∧ (∀ l1 x l2, l = l1 ++ x :: l2 →
       becomes (l1 ++ l2) (queue_remove field q x h)
       ∧ (field = 0%nat → becomes (l1 ++ l2) (remqueue x h) ∧ gives field q h l (l1 ++ l2) x (remque x h)))
  ∧ (∀ x l', l = x :: l' →
       gives field q h l l' x (queue_remove_first field q h)
       ∧ (field = 0%nat → gives field q h l l' (Some x) (dequeue_head q h)))
  ∧ (∀ l' x, l = l' ++ [x] →
       gives field q h l l' x (queue_remove_last field q h)
       ∧ (field = 0%nat → gives field q h l l' (Some x) (dequeue_tail q h)))
  ∧ (l = [] → dequeue_head q h = Some (None, h) ∧ dequeue_tail q h = Some (None, h))
  ∧ queue_iterate field (length l) q h = Some l ∧ queue_empty q h = Some (bool_decide (l = []))
  ∧ (∃ h', queue_init q h = Some h' ∧ ring field q h' [])
  ∧ (∀ to, l ≠ [] → allocated to h → to ∉ q :: l → Forall (λ x, chain_of field x ≠ to) l →
       ∃ h', queue_assign field to q h = Some h' ∧ ring field to h' l).
Proof.
  intros Hr. destruct (ring_split field q h [] l Hr) as [[_ Hn]%nx_Some _].
  pose proof (ring_split field q h l []) as Hs. rewrite app_nil_r in Hs. destruct (Hs Hr) as [_ [_ Hp]%pv_Some].
  simpl in Hn, Hp. rewrite chain_head in Hn, Hp. pose proof Hr as [[Hq _]%NoDup_cons Hl]. split_and!.
  - intros elt Hne Hg Ha. rewrite chain_elt with (q := q) in Ha by set_solver.
    destruct (enter_refines field q h l elt Hr Hne (or_intror Hg) Ha) as (? & ? & Hf). split_and!; [done..|].
    intros Hz. destruct (Hf Hz). split_and!; [done..|]. intros l1 x l2 ->. by apply insque_refines; [..|right|].
  - intros l1 x l2 ->. by apply remove_refines.
  - intros x l' ->. by apply first_refines.
  - intros l' x ->. by apply last_refines.
  - intros ->. unfold dequeue_head, dequeue_tail. rewrite Hn, Hp. cbn [mbind option_bind]. by rewrite !decide_True.
  - unfold queue_iterate, queue_first. rewrite Hn. pose proof (iterate_refines field q h q l Hl Hq) as Hi.
    rewrite (links_next _ _ _ _ _ _ Hl) in Hi. exact Hi.
  - unfold queue_empty, queue_first, queue_end. rewrite Hn. simpl. f_equal. apply bool_decide_ext.
    destruct l; simpl; [done|]. split; [set_solver|done].
  - apply queue_init_ring. split; by eexists.
  - intros to. by apply queue_assign_ring.
Qed.

(** ** Examples *)

(** The head at 100 and two elements, at 0 and 10, with their chains at offset 3;
    a third element at 20 that is not in the queue, and a head at 200. *)
Definition two_elements : heap :=
  mk_heap (list_to_map [(100, 0); (3, 10); (13, 100); (23, 23); (200, 200)]%nat)
          (list_to_map [(100, 10); (3, 100); (13, 0); (23, 23); (200, 200)]%nat).

Lemma two_elements_ring : ring 3 100 two_elements [0; 10]%nat.
Proof. split; [apply (bool_decide_eq_true_1 _); by vm_compute|]. by vm_compute. Qed.

Lemma queue_refines_witness :
  ring 3 100 two_elements [0; 10]%nat
  ∧ becomes 3 100 two_elements [0; 10]%nat [0; 10; 20]%nat (queue_enter 3 100 20 two_elements).
Proof.
  split; [exact two_elements_ring|].
  destruct (queue_refines 3 100 two_elements [0; 10]%nat two_elements_ring) as (He & _).
  assert (20%nat ∉ [100; 0; 10]%nat) as Hne by (apply (bool_decide_eq_true_1 _); by vm_compute).
  assert (chain_of 3 20 ≠ 100%nat) as Hg by (by vm_compute).
  assert (allocated (chain_of 3 20) two_elements) as Ha by (split; by eexists).
  exact (proj1 (He 20%nat Hne Hg Ha)).
Defined.

(** A queue that is empty cannot be given a new head: where the chain of an element would be
    there is none. *)
Example assign_empty_queue :
  queue_assign 3 100 200 two_elements = None ∧ queue_empty 200 two_elements = Some true.
Proof. by vm_compute. Qed.
