(* ===== verification/TermQueue.v ===== *)
(** * Terminals: character queues (src/term/term.h, munge.c)

    The queues of a terminal: an array of characters with a quote mark each, a
    start and an end in it, and a flag by which writers are held back between two
    marks.  The array grows or is shifted when its end is reached.  The theorem is
    that a queue is a list, with every access inside of the array.

    A [char] is a number from -128 to 127 and a [quoted_char], which is a [short],
    one from -2^15 to 2^15 - 1. *)

From S2P Require Import Prelude Slice.

Definition s8 (z : Z) : Z := (z + 2 ^ 7) mod 2 ^ 8 - 2 ^ 7.
Definition s16 (z : Z) : Z := (z + 2 ^ 15) mod 2 ^ 16 - 2 ^ 15.

(** A result of [int] arithmetic, whose overflow is undefined. *)
Definition chk32 (z : Z) : option Z := if decide (- 2 ^ 31 ≤ z < 2 ^ 31) then Some z else None.

Lemma chk32_ok z : - 2 ^ 31 ≤ z < 2 ^ 31 → chk32 z = Some z.
Proof. intros. unfold chk32. by rewrite decide_True. Qed.

Abbreviation QUEUE_LOWAT := 200 (only parsing).
Abbreviation QUEUE_HIWAT := 8100 (only parsing).
Abbreviation QUEUE_QUOTE_MARK := 0xf000 (only parsing).

(** [cs] and [ce] are indices; the condition variable is left out. *)
Record queue := mk_queue {
  susp : bool;
  lowat : Z;
  hiwat : Z;
  cs : Z;
  ce : Z;
  array : list Z
}.

Definition arraylen (q : queue) : Z := zlen (array q).

(** The C library and the compiler: whether [malloc] returns memory for a number of
    bytes, and the sizes of a queue without its array and of a condition variable. *)
Class Platform := {
  malloc : Z → bool;
  sizeof_queue : Z;
  sizeof_cond : Z
}.

(** [malloc] leaves the array as it is: the cells behind [ce] are never read. *)
Definition empty_queue (size lowat hiwat : Z) : queue :=
  mk_queue false lowat hiwat 0 0 (replicate (Z.to_nat size) 0).

Section queues.
Context {platform : Platform}.

(** Both allocations are asserted to succeed. *)
Definition create_queue (size lowat hiwat : Z) : option queue :=
  if malloc (sizeof_queue + size * 2) && malloc sizeof_cond then Some (empty_queue size lowat hiwat) else None.

Definition qsize (q : queue) : Z := ce q - cs q.
Definition qavail (q : queue) : bool := negb (susp q).
Definition clear_queue (q : queue) : queue := mk_queue false (lowat q) (hiwat q) 0 0 (array q).

(** The character with its mark, whether those that wait for the queue are woken,
    and the queue. *)
Definition dequeue_quote (q : queue) : option (Z * bool * queue) :=
  if decide (qsize q = 0) then None else
  let low := susp q && bool_decide (qsize q < lowat q) in
  let beep := low || bool_decide (qsize q = 1) in
  c ← array q !z cs q;
  Some (c, beep, mk_queue (susp q && negb low) (lowat q) (hiwat q) (cs q + 1) (ce q) (array q)).

Definition unquote_char (c : Z) : Z := s8 (Z.land c (Z.lnot QUEUE_QUOTE_MARK)).
Definition char_quoted_p (c : Z) : bool := bool_decide (Z.land c QUEUE_QUOTE_MARK ≠ 0).

Definition dequeue (q : queue) : option (Z * queue) :=
  '(c, _, q) ← dequeue_quote q; Some (unquote_char c, q).

(** The doubled length is an [int].  The result of [malloc] is used without a test. *)
Definition reallocate_queue (q : queue) : option queue :=
  let len := qsize q in
  chars ← mem_read (cs q) len (array q);
  if decide (len < arraylen q / 2) then
    a ← mem_write 0 chars (array q);
    Some (mk_queue (susp q) (lowat q) (hiwat q) 0 len a)
  else
    len' ← chk32 (arraylen q * 2);
    if malloc (sizeof_queue + len' * 2) then
      a ← mem_write 0 chars (replicate (Z.to_nat len') 0);
      Some (mk_queue (susp q) (lowat q) (hiwat q) 0 len a)
    else None.

(** The queue, and whether those that wait for characters are woken. *)
Definition enqueue_internal (c : Z) (q : queue) : option (bool * queue) :=
  q ← (if decide (ce q = arraylen q) then reallocate_queue q else Some q);
  a ← storez (ce q) c (array q);
  let q := mk_queue (susp q) (lowat q) (hiwat q) (cs q) (ce q + 1) a in
  Some (bool_decide (qsize q = 1),
        mk_queue (susp q || bool_decide (hiwat q < qsize q)) (lowat q) (hiwat q) (cs q) (ce q) (array q)).

Definition enqueue (c : Z) (q : queue) : option queue :=
  snd <$> enqueue_internal (s8 c) q.

Definition enqueue_quote (c : Z) (q : queue) : option queue :=
  snd <$> enqueue_internal (s16 (Z.lor (s8 c) QUEUE_QUOTE_MARK)) q.

Definition queue_erase (q : queue) : option (Z * bool * queue) :=
  if decide (qsize q = 0) then None else
  c ← array q !z (ce q - 1);
  let low := susp q && bool_decide (qsize q - 1 < lowat q) in
  let beep := low || bool_decide (qsize q - 1 = 0) in
  Some (c, beep, mk_queue (susp q && negb low) (lowat q) (hiwat q) (cs q) (ce q - 1) (array q)).

(** ** A queue is a list *)
Definition contents (q : queue) : list Z := slice (cs q) (qsize q) (array q).

Record queue_ok (q : queue) : Prop := {
  qo_bounds : 0 ≤ cs q ≤ ce q;
  qo_array : ce q ≤ arraylen q;
  qo_len : 0 < arraylen q
}.

Lemma empty_queue_ok size lo hi :
  0 < size → queue_ok (empty_queue size lo hi) ∧ contents (empty_queue size lo hi) = [].
Proof.
  intros Hs. split; [|done]. split; unfold arraylen; simpl; rewrite ?length_replicate; lia.
Qed.

Lemma contents_length q : queue_ok q → zlen (contents q) = qsize q.
Proof. intros [Hb Ha Hl]. unfold contents, qsize, arraylen in *. slice_len. Qed.

Lemma contents_nil q : queue_ok q → contents q = [] ↔ qsize q = 0.
Proof.
  intros Hq. pose proof (contents_length q Hq) as Hl. split.
  - intros Hn. rewrite Hn in Hl. simpl in Hl. lia.
  - intros H0. apply nil_length_inv. lia.
Qed.

Lemma clear_queue_ok q : queue_ok q → queue_ok (clear_queue q) ∧ contents (clear_queue q) = [].
Proof. intros [Hb Ha Hl]. split; [|done]. split; unfold arraylen in *; simpl; lia. Qed.

(** There is memory for queues of up to [most] characters, and their array does not
    get too long for an [int]. *)
Record plenty (most : Z) : Prop := {
  pl_malloc n : n ≤ sizeof_queue + 8 * most → malloc n = true;
  pl_most : most ≤ 2 ^ 29
}.

(** Room is made, and the characters are kept. *)
Lemma reallocate_queue_ok most q :
  plenty most → queue_ok q → ce q = arraylen q → zlen (contents q) < most →
  ∃ q', reallocate_queue q = Some q' ∧ queue_ok q' ∧ contents q' = contents q ∧ ce q' < arraylen q'
    ∧ susp q' = susp q ∧ lowat q' = lowat q ∧ hiwat q' = hiwat q.
Proof.
  intros [Hmem Hmost] Hq He Hlen. rewrite contents_length in Hlen by done. destruct Hq as [Hb Ha Hl].
  pose proof (Z.div_mod (arraylen q) 2 ltac:(lia)) as Hdiv. pose proof (Z.mod_pos_bound (arraylen q) 2 ltac:(lia)) as Hmod.
  unfold reallocate_queue, arraylen, qsize in *.
  rewrite mem_read_ok by lia. cbn [mbind option_bind].
  set (chars := slice (cs q) (ce q - cs q) (array q)).
  assert (Hc : zlen chars = ce q - cs q) by (unfold chars; slice_len).
  assert (Hs : ∀ a, ce q - cs q ≤ zlen a → slice 0 (ce q - cs q) (splice 0 chars a) = chars).
  { intros a Hle. rewrite <-Hc. apply slice_splice; lia. }
  case_decide as Hhalf; [|rewrite chk32_ok by lia; cbn [mbind option_bind]; rewrite Hmem by lia];
    rewrite mem_write_ok by (rewrite ?length_replicate; lia); cbn [mbind option_bind];
    eexists; (split; [done|]); unfold contents, qsize, arraylen; simpl; rewrite Z.sub_0_r, Hs, zlen_splice
      by (rewrite ?length_replicate; lia); rewrite ?length_replicate.
  - split_and!; try done; [split; unfold arraylen; simpl; rewrite ?zlen_splice; lia|lia].
  - split_and!; try done; [split; unfold arraylen; simpl; rewrite ?zlen_splice; rewrite ?length_replicate; lia|lia].
Qed.

(** Cells of a part of an array. *)
Lemma slice_cons i n (l : list Z) x : 0 ≤ i → 0 < n → l !z i = Some x → slice i n l = x :: slice (i + 1) (n - 1) l.
Proof.
  intros Hi Hn Hx. unfold slice, lookupz in *. rewrite decide_True in Hx by done.
  rewrite (drop_S _ _ _ Hx). replace (Z.to_nat n) with (S (Z.to_nat (n - 1))) by lia. simpl.
  do 3 f_equal. lia.
Qed.

Lemma slice_snoc i n (l : list Z) x : 0 ≤ i → 0 < n → l !z (i + n - 1) = Some x → slice i n l = slice i (n - 1) l ++ [x].
Proof.
  intros Hi Hn Hx. unfold slice, lookupz in *. rewrite decide_True in Hx by lia.
  replace (Z.to_nat n) with (S (Z.to_nat (n - 1))) by lia. apply take_S_r. rewrite lookup_drop, <-Hx. f_equal. lia.
Qed.

Lemma slice_updz i n (l : list Z) j x : 0 ≤ i → 0 ≤ n → i + n ≤ j < zlen l → slice i n (updz j x l) = slice i n l.
Proof.
  intros Hi Hn Hj. apply eq_lookupz. intros m Hm. rewrite !lookupz_slice by lia.
  case_decide; [|done]. by rewrite lookupz_updz_ne by lia.
Qed.

Lemma enqueue_internal_ok most c q :
  plenty most → queue_ok q → zlen (contents q) < most →
  ∃ q', enqueue_internal c q = Some (bool_decide (contents q = []), q') ∧ queue_ok q'
    ∧ contents q' = contents q ++ [c] ∧ susp q' = susp q || bool_decide (hiwat q ≤ zlen (contents q))
    ∧ lowat q' = lowat q ∧ hiwat q' = hiwat q.
Proof.
  intros Hmem Hq Hmost. unfold enqueue_internal.
  assert (∃ q1, (if decide (ce q = arraylen q) then reallocate_queue q else Some q) = Some q1
    ∧ queue_ok q1 ∧ contents q1 = contents q ∧ ce q1 < arraylen q1
    ∧ susp q1 = susp q ∧ lowat q1 = lowat q ∧ hiwat q1 = hiwat q) as (q1 & -> & Hq1 & Hc & Hroom & Hs & Hlo & Hhi).
  { case_decide as He; [by apply (reallocate_queue_ok most)|]. exists q. split_and!; try done.
    pose proof (qo_array _ Hq). lia. }
  cbn [mbind option_bind]. pose proof (contents_length q1 Hq1) as Hlen. rewrite Hc in Hlen.
  pose proof (contents_nil q1 Hq1) as Hnil. rewrite Hc in Hnil.
  destruct Hq1 as [Hb Ha Hl]. unfold qsize, arraylen in *. unfold storez. rewrite decide_True by lia. cbn [mbind option_bind].
  eexists. split; [do 2 f_equal; apply bool_decide_ext; simpl; rewrite Hnil; lia|]. simpl.
  split_and!; try done.
  - split; unfold arraylen; simpl; rewrite ?length_updz; lia.
  - unfold contents, qsize in *. simpl. rewrite (slice_snoc _ _ _ c); [|lia|lia|].
    + replace (ce q1 + 1 - cs q1 - 1) with (ce q1 - cs q1) by lia. rewrite slice_updz by lia. by rewrite Hc.
    + replace (cs q1 + (ce q1 + 1 - cs q1) - 1) with (ce q1) by lia. apply lookupz_updz_eq. lia.
  - rewrite Hs, Hhi. f_equal. apply bool_decide_ext. lia.
Qed.

Lemma dequeue_quote_ok q c l :
  queue_ok q → contents q = c :: l →
  ∃ q', dequeue_quote q = Some (c, (susp q && bool_decide (zlen l + 1 < lowat q)) || bool_decide (l = []), q')
    ∧ queue_ok q' ∧ contents q' = l ∧ susp q' = susp q && bool_decide (lowat q ≤ zlen l + 1)
    ∧ lowat q' = lowat q ∧ hiwat q' = hiwat q.
Proof.
  intros Hq Hc. pose proof (contents_length q Hq) as Hlen. rewrite Hc in Hlen. simpl in Hlen.
  destruct Hq as [Hb Ha Hl]. unfold qsize, arraylen in *. unfold dequeue_quote. unfold qsize.
  rewrite decide_False by lia. destruct (lookupz_is_Some (array q) (cs q)) as [x Hx]; [lia|].
  rewrite Hx. cbn [mbind option_bind]. unfold contents, qsize in Hc.
  rewrite (slice_cons _ _ _ x) in Hc by (done || lia). injection Hc as -> Hc.
  assert (bool_decide (ce q - cs q < lowat q) = bool_decide (zlen l + 1 < lowat q)) as -> by (apply bool_decide_ext; lia).
  assert (bool_decide (ce q - cs q = 1) = bool_decide (l = [])) as ->
    by (apply bool_decide_ext; rewrite <-length_zero_iff_nil; lia).
  eexists. split; [done|]. simpl. split_and!; try done; [split; unfold arraylen; simpl; lia| |].
  - unfold contents, qsize. simpl. rewrite <-Hc. f_equal. lia.
  - destruct (susp q); [|done]. simpl. rewrite <-bool_decide_not. apply bool_decide_ext. lia.
Qed.

Lemma queue_erase_ok q c l :
  queue_ok q → contents q = l ++ [c] →
  ∃ q', queue_erase q = Some (c, (susp q && bool_decide (zlen l < lowat q)) || bool_decide (l = []), q')
    ∧ queue_ok q' ∧ contents q' = l ∧ susp q' = susp q && bool_decide (lowat q ≤ zlen l)
    ∧ lowat q' = lowat q ∧ hiwat q' = hiwat q.
Proof.
  intros Hq Hc. pose proof (contents_length q Hq) as Hlen. rewrite Hc, length_app in Hlen. simpl in Hlen.
  destruct Hq as [Hb Ha Hl]. unfold qsize, arraylen in *. unfold queue_erase. unfold qsize.
  rewrite decide_False by lia. destruct (lookupz_is_Some (array q) (ce q - 1)) as [x Hx]; [lia|].
  rewrite Hx. cbn [mbind option_bind]. unfold contents, qsize in Hc.
  rewrite (slice_snoc _ _ _ x) in Hc; [|lia|lia|by replace (cs q + (ce q - cs q) - 1) with (ce q - 1) by lia].
  apply app_inj_tail in Hc as [Hc ->].
  assert (bool_decide (ce q - cs q - 1 < lowat q) = bool_decide (zlen l < lowat q)) as -> by (apply bool_decide_ext; lia).
  assert (bool_decide (ce q - cs q - 1 = 0) = bool_decide (l = [])) as ->
    by (apply bool_decide_ext; rewrite <-length_zero_iff_nil; lia).
  eexists. split; [done|]. simpl. split_and!; try done; [split; unfold arraylen; simpl; lia| |].
  - unfold contents, qsize. simpl. rewrite <-Hc. f_equal. lia.
  - destruct (susp q); [|done]. simpl. rewrite <-bool_decide_not. apply bool_decide_ext. lia.
Qed.

(** ** Quote marks *)
Lemma s8_range z : -128 ≤ s8 z < 128.
Proof. unfold s8. pose proof (Z.mod_pos_bound (z + 2 ^ 7) (2 ^ 8)). lia. Qed.

Lemma s8_id z : -128 ≤ z < 128 → s8 z = z.
Proof. intros. unfold s8. rewrite Z.mod_small; lia. Qed.

(** A fact about every character. *)
Lemma all_chars (P : Z → Prop) `{∀ c, Decision (P c)} :
  bool_decide (Forall P (seqZ (-128) 256)) = true → ∀ c, -128 ≤ c < 128 → P c.
Proof.
  intros Hall%bool_decide_eq_true c Hc. rewrite Forall_forall in Hall. apply Hall, elem_of_seqZ. lia.
Qed.

Definition quote (c : Z) : Z := s16 (Z.lor (s8 c) QUEUE_QUOTE_MARK).

(** The mark is put on and taken off without a change of the character. *)
Lemma quote_char c : -128 ≤ c < 128 → unquote_char (quote c) = c ∧ char_quoted_p (quote c) = true.
Proof. revert c. apply (all_chars _). by vm_compute. Qed.

Lemma unquote_plain c : -128 ≤ c < 128 → unquote_char c = c.
Proof. revert c. apply (all_chars _). by vm_compute. Qed.

(** A character that is not ASCII counts as quoted even without the mark, since
    its sign fills the bits of the mark. *)
Lemma plain_quoted c : -128 ≤ c < 128 → char_quoted_p c = bool_decide (c < 0).
Proof. revert c. apply (all_chars _). by vm_compute. Qed.

Lemma enqueue_ok most c q :
  plenty most → queue_ok q → zlen (contents q) < most →
  ∃ q', enqueue c q = Some q' ∧ queue_ok q' ∧ contents q' = contents q ++ [s8 c]
    ∧ susp q' = susp q || bool_decide (hiwat q ≤ zlen (contents q)) ∧ lowat q' = lowat q ∧ hiwat q' = hiwat q.
Proof.
  intros Hm Hq Hl. unfold enqueue. destruct (enqueue_internal_ok most (s8 c) q Hm Hq Hl) as (q' & -> & Hr). by exists q'.
Qed.

Lemma enqueue_quote_ok most c q :
  plenty most → queue_ok q → zlen (contents q) < most →
  ∃ q', enqueue_quote c q = Some q' ∧ queue_ok q' ∧ contents q' = contents q ++ [quote c]
    ∧ susp q' = susp q || bool_decide (hiwat q ≤ zlen (contents q)) ∧ lowat q' = lowat q ∧ hiwat q' = hiwat q.
Proof.
  intros Hm Hq Hl. unfold enqueue_quote. destruct (enqueue_internal_ok most (quote c) q Hm Hq Hl) as (q' & Hr & Hrest).
  unfold quote in Hr. rewrite Hr. by exists q'.
Qed.

(** C28. A character queue is a list of characters.  As long as it has less than
    [most] characters, [most] not above 2^29, and [malloc] has memory for an array
    of four times as many, putting one in finds room and appends it; it holds writers
    back above the high mark and wakes readers when the queue was empty.  Taking one
    out returns the first, erasing one the last, both let writers go on below the
    low mark and wake them; a quote mark does not change its character.  Taking from
    an empty queue fails an assertion. *)
Theorem term_queue_refines most q :
  plenty most → queue_ok q →
  (zlen (contents q) < most → ∀ c,
     ∃ q', enqueue_internal c q = Some (bool_decide (contents q = []), q')
       ∧ queue_ok q' ∧ contents q' = contents q ++ [c]
       ∧ susp q' = susp q || bool_decide (hiwat q ≤ zlen (contents q)))
  ∧ (∀ c l, contents q = c :: l →
       ∃ q', dequeue_quote q = Some (c, (susp q && bool_decide (zlen l + 1 < lowat q)) || bool_decide (l = []), q')
         ∧ queue_ok q' ∧ contents q' = l ∧ susp q' = susp q && bool_decide (lowat q ≤ zlen l + 1))
  ∧ (∀ c l, contents q = l ++ [c] →
       ∃ q', queue_erase q = Some (c, (susp q && bool_decide (zlen l < lowat q)) || bool_decide (l = []), q')
         ∧ queue_ok q' ∧ contents q' = l ∧ susp q' = susp q && bool_decide (lowat q ≤ zlen l))
  ∧ (contents q = [] → dequeue_quote q = None ∧ queue_erase q = None)
  ∧ (zlen (contents q) < most → ∀ c, -128 ≤ c < 128 →
       (∃ q', enqueue c q = Some q' ∧ contents q' = contents q ++ [c] ∧ unquote_char c = c)
       ∧ ∃ q' m, enqueue_quote c q = Some q' ∧ contents q' = contents q ++ [m]
           ∧ unquote_char m = c ∧ char_quoted_p m = true).
Proof.
  intros Hm Hq. split_and!.
  - intros Hlen c. destruct (enqueue_internal_ok most c q Hm Hq Hlen) as (q' & ? & ? & ? & ? & _). by exists q'.
  - intros c l Hc. destruct (dequeue_quote_ok q c l Hq Hc) as (q' & ? & ? & ? & ? & _). by exists q'.
  - intros c l Hc. destruct (queue_erase_ok q c l Hq Hc) as (q' & ? & ? & ? & ? & _). by exists q'.
  - intros H0%contents_nil; [|done]. unfold dequeue_quote, queue_erase. by rewrite !decide_True.
  - intros Hlen c Hc. split.
    + destruct (enqueue_ok most c q Hm Hq Hlen) as (q' & ? & _ & Hl & _). rewrite s8_id in Hl by done.
      exists q'. by rewrite unquote_plain.
    + destruct (enqueue_quote_ok most c q Hm Hq Hlen) as (q' & ? & _ & Hl & _). exists q', (quote c).
      destruct (quote_char c Hc). by split_and!.
Qed.
End queues.

(** A machine with 2^20 bytes. *)
Definition small_machine : Platform := {| malloc := λ n, bool_decide (n ≤ 2 ^ 20); sizeof_queue := 48; sizeof_cond := 48 |}.

Lemma small_machine_plenty : plenty (platform := small_machine) 131000.
Proof. split; [|lia]. intros n Hn. apply bool_decide_eq_true. simpl in Hn. lia. Qed.

Lemma term_queue_refines_witness :
  ∃ q', enqueue_internal (platform := small_machine) 104 (mk_queue false 1 2 0 2 [7; 105]) = Some (false, q')
    ∧ queue_ok q' ∧ contents q' = [7; 105; 104] ∧ susp q' = true.
Proof.
  destruct (term_queue_refines (platform := small_machine) 131000 (mk_queue false 1 2 0 2 [7; 105])) as (He & _);
    [exact small_machine_plenty|split; by vm_compute|].
  destruct (He ltac:(by vm_compute) 104) as (q' & ? & ? & ? & ?). by exists q'.
Defined.

(** Without memory a queue that is full is lost: the null pointer is written to. *)
Example queue_without_memory :
  enqueue_internal (platform := {| malloc := λ _, false; sizeof_queue := 48; sizeof_cond := 48 |}) 104
    (mk_queue false 1 2 0 2 [7; 105]) = None.
Proof. by vm_compute. Qed.
