(* ===== verification/Munge.v ===== *)
(** * Terminals: the line discipline (src/term/munge.c)

    What a terminal does with a character that is typed or written: the mapping of
    characters, echo, the editing of a line, signals and flow control, on the
    queues of [TermQueue.v].

    The flags of [<termios.h>] are the members of [flag]; the functions of
    [<ctype.h>] are those of the C locale.  What the bottom half (a device or a
    pseudo terminal) and the receivers of signals are told is a list of events.
    Cursor positions are not bounded.  [None] is a failed assertion, an access
    outside of a queue, or a loop that does not end. *)

From S2P Require Import Prelude Slice TermQueue.

Inductive flag :=
| INPCK | IGNPAR | PARMRK | IXOFF | ISTRIP | ILCASE | IXON | ICRNL | IGNCR | INLCR | IMAXBEL | IXANY
| IGNBRK | BRKINT
| OPOST | ONLCR | OXTABS | ONOEOT | OLCASE
| ECHO | ECHONL | ECHOCTL | ECHOPRT | ECHOE | ECHOK | ECHOKE | ICANON | IEXTEN | ISIG | NOFLSH | ALTWERASE
| PARODD | CLOCAL.

#[export] Instance flag_eq_dec : EqDecision flag.
Proof. solve_decision. Defined.

Inductive cc :=
| VLNEXT | VDISCARD | VINTR | VQUIT | VSUSP | VSTOP | VSTART | VERASE | VKILL | VWERASE | VREPRINT
| VSTATUS | VEOL | VEOL2 | VEOF.

#[export] Instance cc_eq_dec : EqDecision cc.
Proof. solve_decision. Defined.

Record termios := mk_termios { flags : list flag; c_cc : cc → Z }.

Inductive tflag := USER_OUTPUT_SUSP | LAST_SLASH | LAST_LNEXT | INSIDE_HDERASE | SENT_VSTOP | FLUSH_OUTPUT.

#[export] Instance tflag_eq_dec : EqDecision tflag.
Proof. solve_decision. Defined.

Inductive signal := SIGINT | SIGQUIT | SIGTSTP | SIGINFO.
Inductive event := Start_output | Suspend_output | Abandon_output | Signal (s : signal).

Record term := mk_term {
  inputq : queue;
  rawq : queue;
  outputq : queue;
  termflags : list tflag;
  echo_qsize : Z;
  echo_pstart : Z;
  output_psize : Z;
  events : list event
}.

Definition set_inputq (q : queue) (t : term) : term :=
  mk_term q (rawq t) (outputq t) (termflags t) (echo_qsize t) (echo_pstart t) (output_psize t) (events t).
Definition set_rawq (q : queue) (t : term) : term :=
  mk_term (inputq t) q (outputq t) (termflags t) (echo_qsize t) (echo_pstart t) (output_psize t) (events t).
Definition set_outputq (q : queue) (t : term) : term :=
  mk_term (inputq t) (rawq t) q (termflags t) (echo_qsize t) (echo_pstart t) (output_psize t) (events t).
Definition set_echo (n start : Z) (t : term) : term :=
  mk_term (inputq t) (rawq t) (outputq t) (termflags t) n start (output_psize t) (events t).
Definition set_psize (n : Z) (t : term) : term :=
  mk_term (inputq t) (rawq t) (outputq t) (termflags t) (echo_qsize t) (echo_pstart t) n (events t).
Definition raise (e : event) (t : term) : term :=
  mk_term (inputq t) (rawq t) (outputq t) (termflags t) (echo_qsize t) (echo_pstart t) (output_psize t) (events t ++ [e]).

Definition is_set (f : tflag) (t : term) : bool := bool_decide (f ∈ termflags t).
Definition set_flag (f : tflag) (t : term) : term :=
  mk_term (inputq t) (rawq t) (outputq t) (f :: termflags t) (echo_qsize t) (echo_pstart t) (output_psize t) (events t).
Definition clear_flag (f : tflag) (t : term) : term :=
  mk_term (inputq t) (rawq t) (outputq t) (filter (λ g, g ≠ f) (termflags t)) (echo_qsize t) (echo_pstart t)
    (output_psize t) (events t).

(** ** Characters *)
Abbreviation CHAR_EOT := 4 (only parsing).
Abbreviation CHAR_DC2 := 0x12 (only parsing).
(** '\377' is a [char]. *)
Abbreviation CHAR_USER_QUOTE := (-1) (only parsing).
Abbreviation CTRL_BIT := 0x40 (only parsing).

Definition isupper (c : Z) : bool := bool_decide (65 ≤ c ≤ 90).
Definition islower (c : Z) : bool := bool_decide (97 ≤ c ≤ 122).
Definition isalpha (c : Z) : bool := isupper c || islower c.
Definition isalnum (c : Z) : bool := isalpha c || bool_decide (48 ≤ c ≤ 57).
Definition isblank (c : Z) : bool := bool_decide (c = 32 ∨ c = 9).
Definition iscntrl (c : Z) : bool := bool_decide (0 ≤ c < 32 ∨ c = 127).
Definition toupper (c : Z) : Z := if islower c then c - 32 else c.
Definition tolower (c : Z) : Z := if isupper c then c + 32 else c.

Definition char_parity : list Z :=
  [ 1; 0; 0; 1; 0; 1; 1; 0;  0; 1; 1; 0; 1; 0; 0; 1;
    0; 1; 1; 0; 1; 0; 0; 1;  1; 0; 0; 1; 0; 1; 1; 0;
    0; 1; 1; 0; 1; 0; 0; 1;  1; 0; 0; 1; 0; 1; 1; 0;
    1; 0; 0; 1; 0; 1; 1; 0;  0; 1; 1; 0; 1; 0; 0; 1;
    0; 1; 1; 0; 1; 0; 0; 1;  1; 0; 0; 1; 0; 1; 1; 0;
    1; 0; 0; 1; 0; 1; 1; 0;  0; 1; 1; 0; 1; 0; 0; 1;
    1; 0; 0; 1; 0; 1; 1; 0;  0; 1; 1; 0; 1; 0; 0; 1;
    0; 1; 1; 0; 1; 0; 0; 1;  1; 0; 0; 1; 0; 1; 1; 0 ].

Definition parity_of (c : Z) : bool := bool_decide (char_parity !z Z.land c 0x7f = Some 1).
Definition checkevenpar (c : Z) : bool :=
  if decide (Z.land c 0x80 ≠ 0) then negb (parity_of c) else parity_of c.
Definition checkoddpar (c : Z) : bool :=
  if decide (Z.land c 0x80 ≠ 0) then parity_of c else negb (parity_of c).

(** [n++] until it is a multiple of 8 *)
Fixpoint tab_stop (rounds : nat) (n : Z) : Z :=
  match rounds with
  | O => n
  | S rounds' => if decide (n mod 8 ≠ 0) then tab_stop rounds' (n + 1) else n
  end.

Lemma tab_stop_spec rounds n : (- n) mod 8 ≤ Z.of_nat rounds → tab_stop rounds n = n + (- n) mod 8.
Proof.
  revert n. induction rounds as [|rounds IH]; intros n Hr; cbn [tab_stop].
  { pose proof (Z.mod_pos_bound (- n) 8). lia. }
  case_decide as Hn.
  - rewrite IH; Z.div_mod_to_equations; lia.
  - Z.div_mod_to_equations; lia.
Qed.

Lemma tab_stop_8 n : tab_stop 8 n = n + (- n) mod 8.
Proof. apply tab_stop_spec. pose proof (Z.mod_pos_bound (- n) 8). lia. Qed.

#[global] Arguments tab_stop : simpl never.

Section discipline.
(** The settings, the value that turns a control character off, and whether
    [abandon_physical_output] succeeds. *)
Context {platform : Platform} (termstate : termios) (external_processing : bool) (POSIX_VDISABLE : Z) (abandoned : bool).

Definition has (f : flag) : bool := bool_decide (f ∈ flags termstate).
Definition CCEQ (i : cc) (c : Z) : bool :=
  bool_decide (c = c_cc termstate i ∧ c_cc termstate i ≠ POSIX_VDISABLE).
Definition cc_on (i : cc) : bool :=
  bool_decide (c_cc termstate i ≠ POSIX_VDISABLE ∧ c_cc termstate i ≠ 255).

(** ** Output *)
Definition poutput (c : Z) (t : term) : option term :=
  if is_set FLUSH_OUTPUT t then Some t else
  let n := output_psize t in
  let t :=
    if decide (32 ≤ c < 127) then set_psize (n + 1) t
    else if decide (c = 13) then set_psize 0 t
    else if decide (c = 9) then set_psize (tab_stop 8 (n + 1)) t
    else if decide (c = 8) then set_psize (n - 1) t
    else t in
  q ← enqueue c (outputq t); Some (set_outputq q t).

(** Blanks up to a tab stop; the loop ends only if the cursor moves. *)
Fixpoint blanks (rounds : nat) (t : term) : option term :=
  if decide (output_psize t mod 8 ≠ 0) then
    match rounds with
    | O => None
    | S rounds' => t ← poutput 32 t; blanks rounds' t
    end
  else Some t.

Definition output_character (c : Z) (t : term) : option term :=
  if has OPOST then
    if has ONLCR && bool_decide (c = 10) then t ← poutput 13 t; poutput 10 t
    else if negb external_processing && has OXTABS && bool_decide (c = 9) then
      t ← poutput 32 t; blanks 8 t
    else if has ONOEOT && bool_decide (c = CHAR_EOT) then Some t
    else if has OLCASE && isalpha c then
      if isupper c then t ← poutput 92 t; poutput c t else poutput (toupper c) t
    else poutput c t
  else poutput c t.

Definition write_character (c : Z) (t : term) : option term :=
  t ← output_character c t; Some (set_echo 0 (output_psize t) t).

Definition output_width (c loc : Z) : Z :=
  if has OPOST && has OLCASE && isupper c then 2
  else if decide (c = 9) then tab_stop 8 (loc + 1) - loc
  else if decide (32 ≤ c < 127) then 1 else 0.

(** ** Echo *)
Definition echo_p (c : Z) (quoted : bool) : bool :=
  if external_processing then false
  else has ECHO || (bool_decide (c = 10) && has ECHONL && negb quoted).

Definition echo_double (c : Z) (quoted : bool) : bool :=
  iscntrl c && has ECHOCTL && negb (bool_decide (c = 10 ∨ c = 9) && negb quoted).

Definition write_erase_sequence (t : term) : option term :=
  t ← poutput 8 t; t ← poutput 32 t; poutput 8 t.

Definition echo_char (c : Z) (hderase quoted : bool) (t : term) : option term :=
  let t := set_echo (echo_qsize t + 1) (echo_pstart t) t in
  if echo_p c quoted then
    t ← (if negb hderase && is_set INSIDE_HDERASE t
         then t ← write_character 47 t; Some (clear_flag INSIDE_HDERASE t) else Some t);
    t ← (if hderase && negb (is_set INSIDE_HDERASE t)
         then t ← output_character 92 t; Some (set_flag INSIDE_HDERASE t) else Some t);
    if echo_double c quoted then t ← output_character 94 t; output_character (Z.lxor c CTRL_BIT) t
    else output_character c t
  else Some t.

Fixpoint echo_all (l : list Z) (t : term) : option term :=
  match l with
  | [] => Some t
  | c :: l' => t ← echo_char (unquote_char c) false (char_quoted_p c) t; echo_all l' t
  end.

Definition reprint_line (t : term) : option term :=
  t ← (if cc_on VREPRINT then echo_char (s8 (c_cc termstate VREPRINT)) false false t
       else echo_char CHAR_DC2 false false t);
  t ← echo_char 10 false false t;
  echo_all (contents (rawq t)) (set_echo 0 (output_psize t) t).

(** [n] erase sequences; [while (n--)] with a negative [n] does not end. *)
Fixpoint erase_columns (n : nat) (t : term) : option term :=
  match n with
  | O => Some t
  | S n' => t ← write_erase_sequence t; erase_columns n' t
  end.

(** The column behind the characters [l], from column [loc]. *)
Fixpoint column (l : list Z) (loc : Z) : Z :=
  match l with
  | [] => loc
  | c :: l' =>
      column l' (loc + if echo_double (unquote_char c) (char_quoted_p c) then 2 else output_width c loc)
  end.

(** The number of columns to erase for the character [c], when it is no longer in
    the queue and [echo_qsize] no longer counts it. *)
Definition erase_width (c : Z) (quoted : bool) (t : term) : option Z :=
  if echo_double c quoted then Some 2
  else if decide (c = 9) then
    let q := rawq t in
    shown ← mem_read (ce q - echo_qsize t) (echo_qsize t) (array q);
    Some (output_psize t - column shown (echo_pstart t))
  else Some (output_width c (output_psize t)).

(** [erase_char] is 0 for none. *)
Definition erase_1 (erase_char : Z) (t : term) : option term :=
  if decide (qsize (rawq t) = 0) then Some t else
  '(cq, _, q) ← queue_erase (rawq t);
  let t := set_rawq q t in
  let c := unquote_char cq in
  let quoted := char_quoted_p cq in
  if negb (echo_p c quoted) then Some t else
  let n := echo_qsize t in
  let t := set_echo (n - 1) (echo_pstart t) t in
  if decide (n ≠ 0) then
    t ← (if has ECHOPRT then echo_char c true quoted t
         else if negb (has ECHOE) && bool_decide (erase_char ≠ 0) then echo_char erase_char false false t
         else
           nerase ← erase_width c quoted t;
           if decide (0 ≤ nerase) then erase_columns (Z.to_nat nerase) t else None);
    if decide (echo_qsize t = 0 ∧ echo_pstart t ≠ output_psize t) then None else Some t
  else reprint_line t.

(** ** Input

    A part of [input_character] works on the character, the result to return and
    the terminal, and says how to go on: with the next part, at [alldone], or not
    at all. *)
Inductive flow := Go | Alldone | Stop.

Abbreviation part := (Z → bool → term → option (flow * Z * bool * term)).

Definition seq (p1 p2 : part) : part := λ c flush t,
  '(f, c, flush, t) ← p1 c flush t;
  match f with Go => p2 c flush t | _ => Some (f, c, flush, t) end.

Definition on_qp (f : queue → option queue) (t : term) : option term :=
  if has ICANON then q ← f (rawq t); Some (set_rawq q t)
  else q ← f (inputq t); Some (set_inputq q t).

Definition qp (t : term) : queue := if has ICANON then rawq t else inputq t.

Definition drop_output (t : term) : term :=
  let t := raise Abandon_output t in
  if abandoned then set_outputq (clear_queue (outputq t)) t else t.

Definition clear_input (t : term) : term :=
  set_rawq (clear_queue (rawq t)) (set_inputq (clear_queue (inputq t)) t).

(** Parity errors *)
Definition parity_part : part := λ c flush t,
  if has INPCK && (if has PARODD then checkoddpar c else checkevenpar c) then
    if has IGNPAR then Some (Alldone, c, flush, t)
    else if has PARMRK then
      t ← on_qp (enqueue_quote CHAR_USER_QUOTE) t; t ← on_qp (enqueue_quote 0) t;
      t ← on_qp (enqueue_quote c) t;
      Some (Alldone, c, flush, t)
    else Some (Go, 0, flush, t)
  else Some (Go, c, flush, t).

(** IXOFF, and the changes of the character *)
Definition mutate_part : part := λ c flush t,
  t ← (if has IXOFF && negb (qavail (qp t)) && cc_on VSTOP
       then t ← poutput (c_cc termstate VSTOP) t; Some (set_flag SENT_VSTOP t) else Some t);
  t ← (if negb (has ISTRIP) && has PARMRK && bool_decide (c = CHAR_USER_QUOTE)
       then on_qp (enqueue_quote CHAR_USER_QUOTE) t else Some t);
  let c := if has ISTRIP then Z.land c 0x7f else c in
  if negb external_processing && is_set LAST_LNEXT t then
    t ← on_qp (enqueue_quote c) t; t ← echo_char (s8 c) false true t;
    Some (Alldone, c, flush, clear_flag LAST_LNEXT t)
  else if negb external_processing && has ILCASE && isalpha c then
    if is_set LAST_SLASH t then t ← erase_1 0 t; Some (Go, c, flush, t)
    else Some (Go, if isupper c then tolower c else c, flush, t)
  else Some (Go, c, flush, t).

(** The control characters of IEXTEN *)
Definition iexten_part : part := λ c flush t,
  if negb external_processing && has IEXTEN then
    if CCEQ VLNEXT c then
      t ← (if has ECHO then t ← poutput 94 t; poutput 8 t else Some t);
      Some (Alldone, c, flush, set_flag LAST_LNEXT t)
    else if CCEQ VDISCARD c then
      if is_set FLUSH_OUTPUT t then Some (Alldone, c, flush, clear_flag FLUSH_OUTPUT t)
      else
        t ← poutput (c_cc termstate VDISCARD) (drop_output t);
        Some (Alldone, c, flush, set_flag FLUSH_OUTPUT t)
    else Some (Go, c, flush, t)
  else Some (Go, c, flush, t).

Definition signal_part : part := λ c flush t,
  let tell (s : signal) (flush : bool) (t : term) :=
    t ← echo_char (s8 c) false false t;
    Some (Alldone, c, flush, raise (Signal s) (set_echo 0 (output_psize t) t)) in
  if negb external_processing && has ISIG then
    if CCEQ VINTR c || CCEQ VQUIT c then
      let s := if CCEQ VINTR c then SIGINT else SIGQUIT in
      if has NOFLSH then tell s flush t else tell s true (clear_input (drop_output t))
    else if CCEQ VSUSP c then
      if has NOFLSH then tell SIGTSTP flush t else tell SIGTSTP true (clear_input t)
    else Some (Go, c, flush, t)
  else Some (Go, c, flush, t).

(** Flow control, newlines and carriage returns *)
Definition ixon_part : part := λ c flush t,
  if negb external_processing && has IXON then
    if CCEQ VSTOP c then
      if CCEQ VSTART c && is_set USER_OUTPUT_SUSP t then Some (Alldone, c, flush, t)
      else Some (Stop, c, flush, raise Suspend_output (set_flag USER_OUTPUT_SUSP t))
    else if CCEQ VSTART c then Some (Alldone, c, flush, t)
    else Some (Go, c, flush, t)
  else Some (Go, c, flush, t).

Definition crnl_part : part := λ c flush t,
  if external_processing then Some (Go, c, flush, t)
  else if decide (c = 13) then
    if has ICRNL then Some (Go, 10, flush, t)
    else if has IGNCR then Some (Alldone, c, flush, t) else Some (Go, c, flush, t)
  else if decide (c = 10) then Some (Go, if has INLCR then 13 else c, flush, t)
  else Some (Go, c, flush, t).

(** Erase sequences until the cursor is at the start of the line. *)
Fixpoint erase_to_start (rounds : nat) (t : term) : option term :=
  if decide (echo_pstart t < output_psize t) then
    match rounds with
    | O => None
    | S rounds' => t ← write_erase_sequence t; erase_to_start rounds' t
    end
  else Some t.

(** Erases while the last character of the line satisfies [p]. *)
Fixpoint erase_while (rounds : nat) (p : Z → bool) (t : term) : option term :=
  match last (contents (rawq t)) with
  | None => Some t
  | Some cq =>
      if p (unquote_char cq) then
        match rounds with
        | O => None
        | S rounds' => t ← erase_1 0 t; erase_while rounds' p t
        end
      else Some t
  end.

Definition kill (c : Z) (t : term) : option term :=
  t ← (if has ECHOKE && negb (has ECHOPRT) && bool_decide (echo_qsize t = qsize (rawq t))
       then erase_to_start (Z.to_nat (output_psize t - echo_pstart t)) t
       else
         t ← echo_char (s8 c) false false t;
         if has ECHOK || has ECHOKE then echo_char 10 false false t else Some t);
  let t := set_rawq (clear_queue (rawq t)) t in
  Some (clear_flag INSIDE_HDERASE (clear_flag LAST_LNEXT (clear_flag LAST_SLASH
          (set_echo 0 (output_psize t) t)))).

Definition werase (t : term) : option term :=
  t ← (if negb (has ECHOPRT || has ECHOE)
       then echo_char (s8 (c_cc termstate VWERASE)) false true t else Some t);
  t ← erase_while (length (contents (rawq t))) isblank t;
  erase_while (length (contents (rawq t)))
    (if has ALTWERASE then λ c, negb (isblank c)
     else λ c, negb (isblank c) && (isalnum c || bool_decide (c ≠ 95))) t.

(** Editing of the line.  The character goes on to the next test after an erase or a
    kill character that a backslash precedes. *)
Definition erase_part : part := λ c flush t,
  if CCEQ VERASE c then
    t ← (if decide (qsize (rawq t) ≠ 0) then erase_1 (s8 c) t else Some t);
    if negb (is_set LAST_SLASH t) || negb (has IEXTEN) then Some (Alldone, c, flush, t)
    else Some (Go, c, flush, t)
  else Some (Go, c, flush, t).

Definition kill_part : part := λ c flush t,
  if CCEQ VKILL c then
    if negb (is_set LAST_SLASH t) || negb (has IEXTEN) then
      t ← kill c t; Some (Alldone, c, flush, t)
    else t ← erase_1 0 t; Some (Go, c, flush, t)
  else Some (Go, c, flush, t).

Definition other_part : part := λ c flush t,
  if CCEQ VWERASE c then t ← werase t; Some (Alldone, c, flush, t)
  else if CCEQ VREPRINT c && has IEXTEN then t ← reprint_line t; Some (Alldone, c, flush, t)
  else if CCEQ VSTATUS c && has ISIG && has IEXTEN then
    Some (Alldone, c, flush, raise (Signal SIGINFO) t)
  else Some (Go, c, flush, t).

Definition canon_part : part := λ c flush t,
  if negb external_processing && has ICANON then seq erase_part (seq kill_part other_part) c flush t
  else Some (Go, c, flush, t).

(** [while (qsize (rawq)) enqueue (&inputq, dequeue (rawq))] *)
Fixpoint move_rawq (rounds : nat) (t : term) : option term :=
  if decide (qsize (rawq t) = 0) then Some t else
  match rounds with
  | O => None
  | S rounds' =>
      '(c, q) ← dequeue (rawq t); q' ← enqueue c (inputq t);
      move_rawq rounds' (set_inputq q' (set_rawq q t))
  end.

Definition copy_rawq (t : term) : option term := move_rawq (length (contents (rawq t))) t.

Fixpoint backspaces (n : nat) (t : term) : option term :=
  match n with
  | O => Some t
  | S n' => t ← poutput 8 t; backspaces n' t
  end.

(** The character is input. *)
Definition store_part : part := λ c flush t,
  if negb (qavail (qp t)) then
    if has IMAXBEL then t ← poutput 7 t; Some (Alldone, c, flush, t)
    else Some (Alldone, c, true, set_echo 0 0 (clear_input (drop_output t)))
  else
    t ← echo_char (s8 c) false false t;
    t ← (if CCEQ VEOF c && has ECHO
         then backspaces (Z.to_nat (if echo_double (s8 c) false then 2 else output_width c (output_psize t))) t
         else Some t);
    t ← on_qp (enqueue c) t;
    t ← (if has ICANON && (CCEQ VEOL c || CCEQ VEOL2 c || CCEQ VEOF c || bool_decide (c = 10))
         then copy_rawq t else Some t);
    Some (Alldone, c, flush, t).

Definition input_character (c : Z) (t : term) : option (bool * term) :=
  '(f, c, flush, t) ←
    seq parity_part (seq mutate_part (seq iexten_part (seq signal_part (seq ixon_part (seq crnl_part
      (seq canon_part store_part)))))) c false t;
  match f with
  | Stop => Some (flush, t)
  | _ =>
      let t := if has IXANY || CCEQ VSTART c then clear_flag USER_OUTPUT_SUSP t else t in
      Some (flush, raise Start_output t)
  end.

Definition input_break (t : term) : option term :=
  if has IGNBRK then Some t
  else if has BRKINT then Some (raise (Signal SIGINT) (drop_output t))
  else
    t ← (if has PARMRK then t ← on_qp (enqueue_quote CHAR_USER_QUOTE) t; on_qp (enqueue_quote 0) t
         else Some t);
    on_qp (enqueue_quote 0) t.

Definition input_framing_error (c : Z) (t : term) : option term :=
  if has IGNPAR then Some t
  else if has PARMRK then
    t ← on_qp (enqueue_quote CHAR_USER_QUOTE) t; t ← on_qp (enqueue_quote 0) t; on_qp (enqueue_quote c) t
  else on_qp (enqueue_quote 0) t.

Fixpoint input_all (l : list Z) (t : term) : option term :=
  match l with
  | [] => Some t
  | c :: l' => '(_, t) ← input_character c t; input_all l' t
  end.

Definition rescan_inputq (t : term) : option term :=
  input_all (unquote_char <$> contents (inputq t)) (set_inputq (clear_queue (inputq t)) t).

(** [drain_output] waits: what it sees when it starts and at each time it is woken,
    with whether the wait was cancelled.  [None]: it still waits. *)
Record moment := mk_moment { queued : Z; pending : Z; no_carrier : bool }.

Definition must_wait (m : moment) : bool :=
  bool_decide (queued m ≠ 0 ∨ pending m ≠ 0) && (negb (no_carrier m) || has CLOCAL).

Fixpoint drain_output (m : moment) (wakes : list (moment * bool)) : option error_t :=
  if must_wait m then
    match wakes with
    | [] => None
    | (m', cancel) :: wakes' => if cancel : bool then Some EINTR else drain_output m' wakes'
    end
  else Some E0.

Lemma drain_output_done m wakes :
  drain_output m wakes = Some E0 ↔
  ∃ pre post, m :: wakes.*1 = pre ++ post ∧ (∀ m', head post = Some m' → must_wait m' = false) ∧ post ≠ []
    ∧ Forall (λ m', must_wait m' = true) pre ∧ Forall (λ w, w.2 = false) (take (length pre) wakes).
Proof.
  revert m. induction wakes as [|[m1 cancel] wakes IH]; intros m; cbn [drain_output].
  - destruct (must_wait m) eqn:Hm; split; try done.
    + intros ([|m' pre] & post & Heq & Hp & Hne & _ & _); simplify_eq/=; [by rewrite (Hp m) in Hm|].
      destruct pre; destruct post; done.
    + intros _. exists [], [m]. split_and!; try done. by intros ? [= <-].
  - destruct (must_wait m) eqn:Hm; [|split; [|done]].
    + destruct cancel; [split; [done|]|rewrite IH]; [| split].
      * intros ([|m' pre] & post & Heq & Hp & Hne & _ & Hc); simplify_eq/=; [by rewrite (Hp m) in Hm|].
        by apply Forall_cons in Hc as [? _].
      * intros (pre & post & Heq & Hp & Hne & Hw & Hc). exists (m :: pre), post. split; [by simpl; rewrite <-Heq|].
        by split_and!; try constructor.
      * intros ([|m' pre] & post & Heq & Hp & Hne & Hw & Hc); simplify_eq/=; [by rewrite (Hp m) in Hm|].
        apply Forall_cons in Hc as [_ Hc], Hw as [_ Hw]. by exists pre, post.
    + intros _. exists [], (m :: m1 :: wakes.*1). split_and!; try done. by intros ? [= <-].
Qed.

(** ** The cursor *)
(** There is memory for [most] characters in the output queue. *)
Context (most : Z) (Hmem : plenty most).

(** Output to the terminal changes the output queue and the cursor: [k] more
    characters find room, and at most [k] are put out. *)
Definition upd (q : queue) (n : Z) (t : term) : term := set_outputq q (set_psize n t).
Definition moves (k : Z) (t : term) (n : Z) (r : option term) : Prop :=
  ∃ q, queue_ok q ∧ zlen (contents q) ≤ zlen (contents (outputq t)) + k ∧ r = Some (upd q n t).
Definition ready (k : Z) (t : term) : Prop :=
  queue_ok (outputq t) ∧ zlen (contents (outputq t)) + k ≤ most ∧ is_set FLUSH_OUTPUT t = false.

Lemma ready_le k k' t : ready k' t → k ≤ k' → ready k t.
Proof. intros (? & ? & ?) ?. split_and!; [done|lia|done]. Qed.

Lemma moves_le k k' t n r : moves k t n r → k ≤ k' → moves k' t n r.
Proof. intros (q & ? & ? & ->) ?. exists q. split_and!; [done|lia|done]. Qed.

Lemma moves_bind j k t n r f m :
  ready k t → moves j t n r → (∀ q, ready (k - j) (upd q n t) → moves (k - j) (upd q n t) m (f (upd q n t))) →
  moves k t m (r ≫= f).
Proof.
  intros (_ & Hk & Hf) (q & Hq & Hl & ->) Hm. simpl. destruct (Hm q) as (q' & Hq' & Hl' & Hr).
  { split_and!; [done|simpl; lia|done]. }
  exists q'. split_and!; [done|simpl in Hl'; lia|]. by rewrite Hr.
Qed.

Lemma moves_refl k t : ready k t → 0 ≤ k → moves k t (output_psize t) (Some t).
Proof. intros [Hq _] Hk. exists (outputq t). split_and!; [done|lia|]. by destruct t. Qed.

Definition psize_after (c n : Z) : Z :=
  if decide (32 ≤ c < 127) then n + 1 else if decide (c = 13) then 0
  else if decide (c = 9) then tab_stop 8 (n + 1) else if decide (c = 8) then n - 1 else n.

Lemma poutput_moves k c t : ready k t → 1 ≤ k → moves 1 t (psize_after c (output_psize t)) (poutput c t).
Proof.
  intros (Hq & Hk & Hf) H1. unfold poutput, psize_after. rewrite Hf.
  destruct (enqueue_ok most c (outputq t) Hmem Hq) as (q & Hen & Hqok & Hl & _); [lia|].
  exists q. split_and!; [done|rewrite Hl, length_app; simpl; lia|]. repeat case_decide; simpl; by rewrite Hen.
Qed.

Lemma blanks_moves rounds t :
  ready (Z.of_nat rounds) t → (- output_psize t) mod 8 ≤ Z.of_nat rounds →
  moves (Z.of_nat rounds) t (output_psize t + (- output_psize t) mod 8) (blanks rounds t).
Proof.
  revert t. induction rounds as [|rounds IH]; intros t Hr Hn; cbn [blanks].
  - rewrite decide_False; [|Z.div_mod_to_equations; lia].
    replace (output_psize t + (- output_psize t) mod 8) with (output_psize t); [by apply moves_refl|].
    pose proof (Z.mod_pos_bound (- output_psize t) 8). lia.
  - case_decide as Hm.
    + eapply (moves_bind 1); [done|eapply poutput_moves; [done|lia]|]. intros q Hr'.
      replace (Z.of_nat (S rounds) - 1) with (Z.of_nat rounds) in * by lia.
      assert (Hps : psize_after 32 (output_psize t) = output_psize t + 1) by done. rewrite Hps in *.
      replace (output_psize t + (- output_psize t) mod 8)
        with (output_psize (upd q (output_psize t + 1) t) + (- output_psize (upd q (output_psize t + 1) t)) mod 8)
        by (simpl; Z.div_mod_to_equations; lia).
      apply IH; [done|]. simpl. Z.div_mod_to_equations; lia.
    + replace (output_psize t + (- output_psize t) mod 8) with (output_psize t); [apply moves_refl; [done|lia]|].
      Z.div_mod_to_equations; lia.
Qed.

Lemma output_character_moves c t :
  ready 9 t → c ≠ 8 → c ≠ 10 → c ≠ 13 →
  moves 9 t (output_psize t + output_width c (output_psize t)) (output_character c t).
Proof.
  intros Hr H8 H10 H13.
  assert (Hplain : has OPOST && has OLCASE && isupper c = false →
    moves 9 t (output_psize t + output_width c (output_psize t)) (poutput c t)).
  { intros Hup. pose proof (moves_le 1 9 _ _ _ (poutput_moves 9 c t Hr ltac:(lia)) ltac:(lia)) as Hp. unfold output_width. rewrite Hup.
    unfold psize_after in Hp. destruct (decide (32 ≤ c < 127)).
    - by rewrite decide_False by lia.
    - rewrite decide_False in Hp by done. destruct (decide (c = 9)).
      + by replace (output_psize t + (tab_stop 8 (output_psize t + 1) - output_psize t)) with (tab_stop 8 (output_psize t + 1)) by lia.
      + rewrite decide_False in Hp by done. by rewrite Z.add_0_r. }
  unfold output_character. destruct (has OPOST) eqn:Hpost; [|by apply Hplain].
  rewrite (bool_decide_false (c = 10)), andb_false_r by done.
  destruct (negb external_processing && has OXTABS && bool_decide (c = 9)) eqn:Htab.
  { apply andb_true_iff in Htab as [_ Hc%bool_decide_eq_true]. subst c.
    eapply (moves_bind 1); [done|eapply poutput_moves; [done|lia]|]. intros q Hr'.
    assert (Hps : psize_after 32 (output_psize t) = output_psize t + 1) by done. rewrite Hps in *.
    unfold output_width. rewrite andb_false_r, decide_True, tab_stop_8 by done.
    replace (output_psize t + (output_psize t + 1 + (- (output_psize t + 1)) mod 8 - output_psize t)) with
      (output_psize (upd q (output_psize t + 1) t) + (- output_psize (upd q (output_psize t + 1) t)) mod 8) by (simpl; lia).
    apply (blanks_moves 8); [done|]. pose proof (Z.mod_pos_bound (- output_psize (upd q (output_psize t + 1) t)) 8). lia. }
  destruct (has ONOEOT && bool_decide (c = CHAR_EOT)) eqn:Heot.
  { apply andb_true_iff in Heot as [_ Hc%bool_decide_eq_true]. subst c.
    unfold output_width. rewrite andb_false_r. simpl. rewrite Z.add_0_r. by apply moves_refl; [|lia]. }
  destruct (has OLCASE && isalpha c) eqn:Hcase.
  - apply andb_true_iff in Hcase as [Hol Hal]. unfold output_width. rewrite Hpost, Hol. simpl.
    unfold isalpha in Hal. destruct (isupper c) eqn:Hup; simpl.
    + apply bool_decide_eq_true in Hup. eapply (moves_bind 1); [done|eapply poutput_moves; [done|lia]|]. intros q Hr'.
      assert (Hps : psize_after 92 (output_psize t) = output_psize t + 1) by done. rewrite Hps in *.
      pose proof (moves_le 1 8 _ _ _ (poutput_moves _ c _ Hr' ltac:(lia)) ltac:(lia)) as Hp. unfold psize_after in Hp. rewrite decide_True in Hp by lia.
      simpl in Hp. replace (output_psize t + 2) with (output_psize t + 1 + 1) by lia. exact Hp.
    + simpl in Hal. pose proof (moves_le 1 9 _ _ _ (poutput_moves 9 (toupper c) t Hr ltac:(lia)) ltac:(lia)) as Hp. unfold toupper in *. rewrite Hal in *.
      apply bool_decide_eq_true in Hal. unfold psize_after in Hp. rewrite decide_True in Hp by lia.
      by rewrite decide_False, decide_True by lia.
  - apply Hplain. simpl. destruct (has OLCASE); [|done]. simpl in *. unfold isalpha in Hcase.
    by destruct (isupper c).
Qed.

End discipline.
