(* ===== verification/MungeEdit.v ===== *)
(** * Terminals: editing a line (src/term/munge.c)

    The line discipline of [Munge.v] as a user sees it: what is typed, erased and
    killed before a newline makes up a line, and the cursor is behind that line.
    The abstract editor works on a list of characters; the theorem is that the code
    implements it, queues, echo and cursor included.  Where it does not, there are
    examples. *)

From S2P Require Import Prelude Slice TermQueue Munge.

(** ** The abstract editor *)
Inductive key := Char (c : Z) | Erase | Kill.

Definition press (line : list Z) (k : key) : list Z :=
  match k with
  | Char c => line ++ [s8 c]
  | Erase => removelast line
  | Kill => []
  end.

Definition edit (keys : list key) (line : list Z) : list Z := foldl press line keys.

(** The usual settings of a terminal, which echoes control characters with a caret
    and erases on the screen. *)
Record usual_mode (termstate : termios) : Prop := {
  um_on f : f ∈ [ICANON; ECHO; ECHOE; ECHOCTL; ECHOKE] → has termstate f = true;
  um_off f : f ∈ [ECHOPRT; OLCASE; INPCK; IXOFF; PARMRK; ISTRIP; ILCASE; INLCR] → has termstate f = false
}.

Section edit.
Context {platform : Platform} (termstate : termios) (POSIX_VDISABLE : Z) (abandoned : bool).

(** There is memory for [most] characters in a queue. *)
Context (most : Z) (Hmem : plenty most).

Abbreviation has := (has termstate).
Abbreviation CCEQ := (CCEQ termstate POSIX_VDISABLE).
Abbreviation echo_double := (echo_double termstate).
Abbreviation output_width := (output_width termstate).
Abbreviation column := (column termstate).
Abbreviation ready := (ready most).

Hypothesis Hmode : usual_mode termstate.

Let Hcanon : has ICANON = true := um_on _ Hmode ICANON ltac:(set_solver).
Let Hecho : has ECHO = true := um_on _ Hmode ECHO ltac:(set_solver).
Let Hechoe : has ECHOE = true := um_on _ Hmode ECHOE ltac:(set_solver).
Let Hechoctl : has ECHOCTL = true := um_on _ Hmode ECHOCTL ltac:(set_solver).
Let Hechoke : has ECHOKE = true := um_on _ Hmode ECHOKE ltac:(set_solver).
Let Hechoprt : has ECHOPRT = false := um_off _ Hmode ECHOPRT ltac:(set_solver).
Let Holcase : has OLCASE = false := um_off _ Hmode OLCASE ltac:(set_solver).
Let Hinpck : has INPCK = false := um_off _ Hmode INPCK ltac:(set_solver).
Let Hixoff : has IXOFF = false := um_off _ Hmode IXOFF ltac:(set_solver).
Let Hparmrk : has PARMRK = false := um_off _ Hmode PARMRK ltac:(set_solver).
Let Histrip : has ISTRIP = false := um_off _ Hmode ISTRIP ltac:(set_solver).
Let Hilcase : has ILCASE = false := um_off _ Hmode ILCASE ltac:(set_solver).
Let Hinlcr : has INLCR = false := um_off _ Hmode INLCR ltac:(set_solver).

(** A character that is part of a line. *)
Definition plain (c : Z) : Prop := -128 ≤ c < 128 ∧ c ≠ 10.

(** ** The cursor *)
Definition width (c loc : Z) : Z := if echo_double c false then 2 else output_width c loc.

Lemma echo_double_plain c q : plain c → (q = true → c < 0) → echo_double c q = echo_double c false.
Proof.
  intros [Hc _] Hq. unfold Munge.echo_double. destruct q; [|done]. specialize (Hq eq_refl).
  unfold iscntrl. by rewrite bool_decide_false by lia.
Qed.

Lemma column_snoc l c loc : plain c → column (l ++ [c]) loc = column l loc + width c (column l loc).
Proof.
  intros Hc. revert loc. induction l as [|x l IH]; intros loc; cbn [app Munge.column]; [|apply IH].
  pose proof Hc as [Hr _]. unfold width. rewrite unquote_plain, plain_quoted by done.
  rewrite echo_double_plain; [done|done|]. by intros ?%bool_decide_eq_true.
Qed.

(** A control character that is echoed as two. *)
Lemma caret c : echo_double c false = true → 32 ≤ Z.lxor c CTRL_BIT < 127.
Proof.
  unfold Munge.echo_double, iscntrl. rewrite !andb_true_iff. intros [[Hc%bool_decide_eq_true _] _].
  assert (Hall : ∀ c, -128 ≤ c < 128 → 0 ≤ c < 32 ∨ c = 127 → 32 ≤ Z.lxor c CTRL_BIT < 127).
  { apply (all_chars (λ c, 0 ≤ c < 32 ∨ c = 127 → 32 ≤ Z.lxor c CTRL_BIT < 127)). by vm_compute. }
  apply Hall; [lia|done].
Qed.

(** A character that is echoed as it is does not move the cursor back. *)
Lemma not_double c : plain c → echo_double c false = false → c ≠ 8 ∧ c ≠ 10 ∧ c ≠ 13.
Proof.
  intros [Hc H10] Hd. unfold Munge.echo_double in Hd. rewrite Hechoctl in Hd.
  split_and!; [|done|]; intros ->; by vm_compute in Hd.
Qed.

Lemma width_pos c loc : 0 ≤ width c loc.
Proof.
  unfold width, Munge.output_width. destruct (echo_double c false); [lia|]. rewrite Holcase, andb_false_r. simpl.
  repeat case_decide; try lia. rewrite tab_stop_8. pose proof (Z.mod_pos_bound (- (loc + 1)) 8). lia.
Qed.

Lemma width_le c loc : width c loc ≤ 8.
Proof.
  unfold width, Munge.output_width. destruct (echo_double c false); [lia|]. rewrite Holcase, andb_false_r. simpl.
  repeat case_decide; try lia. rewrite tab_stop_8. pose proof (Z.mod_pos_bound (- (loc + 1)) 8).
  Z.div_mod_to_equations; lia.
Qed.

Lemma column_le l loc : Forall plain l → loc ≤ column l loc ≤ loc + 8 * zlen l.
Proof.
  induction l as [|c l IH] using rev_ind; intros Hl; [simpl; lia|].
  apply Forall_app in Hl as [Hl [Hc _]%Forall_cons].
  rewrite column_snoc by done. rewrite length_app. cbn [length].
  pose proof (width_pos c (column l loc)). pose proof (width_le c (column l loc)). specialize (IH Hl). lia.
Qed.

Lemma printable_width c loc : 32 ≤ c < 127 → output_width c loc = 1.
Proof.
  intros Hc. unfold Munge.output_width. rewrite Holcase, andb_false_r. simpl.
  by rewrite decide_False, decide_True by lia.
Qed.

(** Echo of a character. *)
Lemma echo_char_moves c t :
  plain c → ready 18 t → is_set INSIDE_HDERASE t = false →
  moves 18 (set_echo (echo_qsize t + 1) (echo_pstart t) t) (output_psize t + width c (output_psize t))
    (echo_char termstate false c false false t).
Proof.
  intros Hc Hr Hh. unfold echo_char. set (t1 := set_echo _ _ t).
  assert (Hr1 : ready 18 t1) by done. change (is_set INSIDE_HDERASE t1) with (is_set INSIDE_HDERASE t).
  unfold echo_p. rewrite Hecho, Hh. simpl. unfold width. destruct (echo_double c false) eqn:Hd.
  - pose proof (caret c Hd) as Hx.
    eapply (moves_bind _ 9); [exact Hr1|apply (output_character_moves termstate false _ Hmem); [exact (ready_le most 9 18 t1 Hr1 ltac:(lia))|lia..]|].
    intros q Hr2. rewrite printable_width in * by lia.
    pose proof (output_character_moves termstate false _ Hmem (Z.lxor c CTRL_BIT) _ Hr2) as Hm.
    rewrite printable_width in Hm by done. simpl in Hm.
    replace (output_psize t + 2) with (output_psize t + 1 + 1) by lia. apply Hm; lia.
  - destruct (not_double c Hc Hd) as (? & ? & ?). apply (moves_le 9); [|lia].
    by apply (output_character_moves termstate false most Hmem c t1 (ready_le most 9 18 t1 Hr1 ltac:(lia))).
Qed.

(** Erase sequences. *)
Lemma erase_sequence_moves k t : ready k t → 3 ≤ k → moves 3 t (output_psize t - 1) (write_erase_sequence t).
Proof.
  intros Hr Hk. unfold write_erase_sequence. apply (ready_le _ 3) in Hr; [|done].
  eapply (moves_bind _ 1); [done|eapply poutput_moves; [done..|lia]|]. intros q Hr1.
  eapply (moves_bind _ 1); [done|eapply poutput_moves; [done..|lia]|]. intros q2 Hr2.
  pose proof (poutput_moves _ Hmem _ 8 _ Hr2 ltac:(lia)) as Hm. unfold psize_after in Hm. simpl in Hm.
  by replace (output_psize t - 1 + 1 - 1) with (output_psize t - 1) in Hm by lia.
Qed.

Lemma erase_columns_moves n t :
  ready (3 * Z.of_nat n) t → moves (3 * Z.of_nat n) t (output_psize t - Z.of_nat n) (erase_columns n t).
Proof.
  revert t. induction n as [|n IH]; intros t Hr; cbn [erase_columns].
  { rewrite Z.sub_0_r. by eapply moves_refl. }
  eapply (moves_bind _ 3); [done|eapply erase_sequence_moves; [done|lia]|]. intros q Hr1.
  replace (3 * Z.of_nat (S n) - 3) with (3 * Z.of_nat n) in * by lia.
  specialize (IH _ Hr1). simpl output_psize in IH.
  by replace (output_psize t - 1 - Z.of_nat n) with (output_psize t - Z.of_nat (S n)) in IH by lia.
Qed.

Lemma erase_to_start_moves n t :
  ready (3 * Z.of_nat n) t → output_psize t - echo_pstart t = Z.of_nat n →
  moves (3 * Z.of_nat n) t (echo_pstart t) (erase_to_start n t).
Proof.
  revert t. induction n as [|n IH]; intros t Hr Hn; cbn [erase_to_start].
  { rewrite decide_False by lia. replace (echo_pstart t) with (output_psize t) by lia. by eapply moves_refl. }
  rewrite decide_True by lia. eapply (moves_bind _ 3); [done|eapply erase_sequence_moves; [done|lia]|]. intros q Hr1.
  replace (3 * Z.of_nat (S n) - 3) with (3 * Z.of_nat n) in * by lia.
  specialize (IH _ Hr1). simpl in IH. apply IH. lia.
Qed.

(** Any output succeeds. *)
Lemma output_character_total c t : ready 9 t → ∃ n, moves 9 t n (output_character termstate false c t).
Proof.
  intros Hr. destruct (decide (c = 8 ∨ c = 10 ∨ c = 13)) as [Hc|Hc].
  - assert (Hp : ∃ n, moves 9 t n (poutput c t)).
    { eexists. apply (moves_le 1); [|lia]. by apply (poutput_moves most Hmem 9); [|lia]. }
    unfold output_character. destruct (has OPOST); [|done]. case_match.
    { exists 0. eapply (moves_bind _ 1); [done|eapply poutput_moves; [done..|lia]|]. intros q Hq.
      eapply moves_le; [exact (poutput_moves _ Hmem _ 10 _ Hq ltac:(lia))|lia]. }
    rewrite (bool_decide_false (c = 9)), (bool_decide_false (c = CHAR_EOT)), !andb_false_r by lia.
    replace (isalpha c) with false by (destruct Hc as [->|[->| ->]]; done). by rewrite andb_false_r.
  - eexists. apply (output_character_moves _ _ most Hmem); [done|lia..].
Qed.

(** ** A line that is edited *)
(** There is room for [k] more characters of output, and for the erasure of the line:
    no more than three for each of at most eight columns of a character. *)
Record editing (k : Z) (t : term) (line : list Z) (start : Z) (iq : queue) (high : Z) : Prop := {
  ed_raw : queue_ok (rawq t);
  ed_line : contents (rawq t) = line;
  ed_avail : susp (rawq t) = false;
  ed_high : hiwat (rawq t) = high;
  ed_budget : 0 ≤ k;
  ed_ready : ready (k + 24 * zlen line) t;
  ed_input : inputq t = iq;
  ed_echo : echo_qsize t = zlen line;
  ed_start : echo_pstart t = start;
  ed_cursor : output_psize t = column line start;
  ed_plain : Forall plain line;
  ed_lnext : is_set LAST_LNEXT t = false;
  ed_slash : is_set LAST_SLASH t = false;
  ed_hderase : is_set INSIDE_HDERASE t = false
}.

Lemma editing_le k k' t line start iq h : editing k' t line start iq h → 0 ≤ k → k ≤ k' → editing k t line start iq h.
Proof. intros [] ? ?. split; try done. eapply ready_le; [done|lia]. Qed.

Lemma is_set_clear f g t : is_set f t = false → is_set f (clear_flag g t) = false.
Proof.
  unfold is_set. rewrite !bool_decide_eq_false. simpl. intros Hf [_ H]%list_elem_of_filter. done.
Qed.

Lemma editing_raise e k t line start iq h : editing k t line start iq h → editing k (raise e t) line start iq h.
Proof. by intros []. Qed.

Lemma editing_clear g k t line start iq h : editing k t line start iq h → editing k (clear_flag g t) line start iq h.
Proof. intros [? ? ? ? ? (? & ? & ?)]. split; try done; [split_and!; try done|..]; by apply is_set_clear. Qed.

(** Output by a program starts the line anew. *)
Lemma write_character_editing k c t :
  ready (k + 9) t → 0 ≤ k → queue_ok (rawq t) → contents (rawq t) = [] → susp (rawq t) = false →
  (∀ f, f ∈ [LAST_LNEXT; LAST_SLASH; INSIDE_HDERASE] → is_set f t = false) →
  ∃ t', write_character termstate false c t = Some t'
    ∧ editing k t' [] (output_psize t') (inputq t) (hiwat (rawq t)).
Proof.
  intros Hr Hk Hq Hc Hs Hf. unfold write_character.
  destruct (output_character_total c t) as (n & q & Hqo & Hl & ->); [eapply ready_le; [done|lia]|]. cbn [mbind option_bind].
  eexists. split; [done|]. destruct Hr as (_ & Hm & Hr).
  split; try done; [split_and!; try done; simpl; lia|apply Hf; set_solver..].
Qed.

(** ** The way of a character *)
Definition finish (c : Z) (t : term) : term :=
  raise Start_output (if has IXANY || CCEQ VSTART c then clear_flag USER_OUTPUT_SUSP t else t).

Lemma editing_finish c k t line start iq h : editing k t line start iq h → editing k (finish c t) line start iq h.
Proof. intros He. unfold finish. apply editing_raise. case_match; [by apply editing_clear|done]. Qed.

Definition control (c : Z) : bool :=
  existsb (λ i, CCEQ i c) [VLNEXT; VDISCARD; VINTR; VQUIT; VSUSP; VSTOP; VSTART].

(** A character that is none of the early control characters gets to the editor. *)
Lemma input_character_edit c t :
  control c = false → c ≠ 13 → (c = 10 → has INLCR = false) → is_set LAST_LNEXT t = false →
  input_character termstate false POSIX_VDISABLE abandoned c t =
  '(f, c, flush, t) ← seq (canon_part termstate false POSIX_VDISABLE)
     (store_part termstate false POSIX_VDISABLE abandoned) c false t;
  match f with Stop => Some (flush, t) | _ => Some (flush, finish c t) end.
Proof.
  intros Hc H13 H10 Hl. unfold control in Hc. simpl in Hc. rewrite !orb_false_iff in Hc.
  destruct Hc as (Hlnext & Hdiscard & Hintr & Hquit & Hsusp & Hstop & Hstart & _).
  unfold input_character.
  assert (Hcr : crnl_part termstate false c false t = Some (Go, c, false, t)).
  { unfold crnl_part. rewrite decide_False by done. case_decide as Hn; [by rewrite H10|done]. }
  assert (Hsig : signal_part termstate false POSIX_VDISABLE abandoned c false t = Some (Go, c, false, t)).
  { unfold signal_part. rewrite Hintr, Hquit, Hsusp. by case_match. }
  assert (Hxon : ixon_part termstate false POSIX_VDISABLE c false t = Some (Go, c, false, t)).
  { unfold ixon_part. rewrite Hstop, Hstart. by case_match. }
  assert (Hext : iexten_part termstate false POSIX_VDISABLE abandoned c false t = Some (Go, c, false, t)).
  { unfold iexten_part. rewrite Hlnext, Hdiscard. by case_match. }
  assert (Hmut : mutate_part termstate false POSIX_VDISABLE c false t = Some (Go, c, false, t)).
  { unfold mutate_part. rewrite Hixoff, Hparmrk, Histrip, Hilcase. simpl. by rewrite Hl. }
  assert (Hpar : parity_part termstate c false t = Some (Go, c, false, t)).
  { unfold parity_part. by rewrite Hinpck. }
  unfold seq at 1. rewrite Hpar. cbn [mbind option_bind]. unfold seq at 1. rewrite Hmut. cbn [mbind option_bind].
  unfold seq at 1. rewrite Hext. cbn [mbind option_bind]. unfold seq at 1. rewrite Hsig. cbn [mbind option_bind].
  unfold seq at 1. rewrite Hxon. cbn [mbind option_bind]. unfold seq at 1. rewrite Hcr. done.
Qed.
(** ** The keys *)
(** A character of a line: none of the control characters. *)
Definition ordinary (c : Z) : Prop :=
  -128 ≤ c < 256 ∧ c ≠ 10 ∧ c ≠ 13 ∧ ∀ i, CCEQ i c = false.

(** The control character [i], and no other one. *)
Definition special (i : cc) : Prop :=
  let c := c_cc termstate i in
  c ≠ 10 ∧ c ≠ 13 ∧ CCEQ i c = true ∧ ∀ j, j ≠ i → CCEQ j c = false.

Lemma ordinary_plain c : ordinary c → plain (s8 c).
Proof.
  intros (Hc & H10 & _). split; [apply s8_range|]. unfold s8.
  Z.div_mod_to_equations; lia.
Qed.

Lemma ordinary_edits c flush t :
  (∀ i, CCEQ i c = false) → canon_part termstate false POSIX_VDISABLE c flush t = Some (Go, c, flush, t).
Proof.
  intros Hc. unfold canon_part, erase_part, kill_part, other_part, seq. rewrite Hcanon, Hc.
  cbn [negb andb mbind option_bind]. rewrite Hc. cbn [mbind option_bind]. by rewrite !Hc.
Qed.

Lemma type_ok c k t line start iq h :
  ordinary c → editing (k + 42) t line start iq h → 0 ≤ k → zlen line < h →
  ∃ t', input_character termstate false POSIX_VDISABLE abandoned c t = Some (false, t')
    ∧ editing k t' (line ++ [s8 c]) start iq h.
Proof.
  intros Ho He Hk Hlen. pose proof (ordinary_plain c Ho) as Hp. pose proof (ed_ready _ _ _ _ _ _ He) as Hr. destruct Ho as (_ & H10 & H13 & Hcc).
  rewrite input_character_edit; [|unfold control; simpl; by rewrite !Hcc|done|done|apply He].
  unfold seq at 1. rewrite ordinary_edits by done. cbn [mbind option_bind].
  unfold store_part, qp, qavail. rewrite Hcanon, (ed_avail _ _ _ _ _ _ He). cbn [negb].
  destruct (echo_char_moves (s8 c) t Hp) as (q & Hq & Hql & ->); [eapply ready_le; [done|lia]|apply He|].
  cbn [mbind option_bind]. rewrite !Hcc. simpl. unfold on_qp. rewrite Hcanon. simpl.
  destruct Hr as (Hro & Hrl & Hrf).
  destruct (enqueue_ok most c (rawq t) Hmem (ed_raw _ _ _ _ _ _ He)) as (q' & -> & Hq' & Hl & Hs & _ & Hh);
    [rewrite (ed_line _ _ _ _ _ _ He); lia|].
  cbn [mbind option_bind]. rewrite bool_decide_false by done. eexists. split; [done|]. apply editing_finish.
  destruct He as [? Hline Hsu Hhi ? _ ? He ? Hcur ? ? ? ?]. split; simpl; try done.
  - by rewrite Hl, Hline.
  - rewrite Hs, Hsu, Hhi, Hline. by rewrite bool_decide_false by lia.
  - by rewrite Hh.
  - split_and!; [done| |done]. rewrite length_app in *. simpl in *. lia.
  - rewrite He, length_app. simpl. lia.
  - by rewrite column_snoc, Hcur.
  - apply Forall_app. split; [done|]. by constructor.
Qed.

(** The columns that an erase takes back. *)
Lemma erase_width_ok x l t start :
  plain x → queue_ok (rawq t) → contents (rawq t) = l → echo_qsize t = zlen l → echo_pstart t = start →
  output_psize t = column (l ++ [x]) start →
  erase_width termstate x (char_quoted_p x) t = Some (output_psize t - column l start).
Proof.
  intros Hx Hq Hl He Hs Hc. unfold erase_width. pose proof Hx as [Hr _].
  rewrite plain_quoted, echo_double_plain by (done || by intros ?%bool_decide_eq_true).
  rewrite column_snoc in Hc by done. unfold width in Hc. destruct (echo_double x false).
  { f_equal. lia. }
  case_decide as H9.
  - pose proof (contents_length _ Hq) as Hlen. rewrite Hl in Hlen. unfold qsize in Hlen.
    destruct Hq as [Hb Ha _]. unfold arraylen in Ha. rewrite He, mem_read_ok by lia. cbn [mbind option_bind].
    assert (slice (ce (rawq t) - zlen l) (zlen l) (array (rawq t)) = l) as ->; [|by rewrite Hs].
    rewrite <-Hl at 3. unfold contents, qsize. f_equal; lia.
  - f_equal. rewrite Hc. unfold Munge.output_width. rewrite !(decide_False (P := x = 9)) by done.
    repeat case_match; lia.
Qed.

Lemma erase_1_ok c k t line start iq h :
  editing k t line start iq h →
  ∃ t', erase_1 termstate false POSIX_VDISABLE c t = Some t' ∧ editing k t' (removelast line) start iq h.
Proof.
  intros He. unfold erase_1. pose proof (contents_nil _ (ed_raw _ _ _ _ _ _ He)) as Hnil.
  rewrite (ed_line _ _ _ _ _ _ He) in Hnil. case_decide as H0.
  { exists t. split; [done|]. apply Hnil in H0. by rewrite H0 in *. }
  destruct line as [|x l _] using rev_ind; [by destruct H0; apply Hnil|].
  destruct He as [Hq Hline Hsu Hhi Hk (Hout & Hob & Hfl) Hin Hes Hst Hcur Hpl Hln Hsl Hhd].
  destruct (queue_erase_ok _ x l Hq Hline) as (q & -> & Hqo & Hqc & Hqs & _ & Hqh). cbn [mbind option_bind].
  apply Forall_app in Hpl as [Hl [Hx _]%Forall_cons]. pose proof Hx as [Hxr _]. rewrite unquote_plain by done.
  unfold echo_p. rewrite Hecho, Hechoprt, Hechoe. cbn [orb negb andb].
  rewrite length_app in Hes. simpl in Hes. rewrite decide_True by (simpl; lia).
  rewrite (erase_width_ok x l _ start) by (done || simpl; lia). cbn [mbind option_bind].
  change (output_psize (set_echo _ _ (set_rawq q t))) with (output_psize t).
  pose proof (column_snoc l x start Hx) as Hcs. pose proof (width_pos x (column l start)) as Hw.
  pose proof (width_le x (column l start)) as Hw8. rewrite length_app in Hob. simpl in Hob.
  rewrite decide_True by lia. set (t2 := set_echo _ _ _).
  destruct (erase_columns_moves (Z.to_nat (output_psize t - column l start)) t2) as (oq & Hoq & Hol & ->);
    [split_and!; [done|simpl; lia|done]|].
  cbn [mbind option_bind]. simpl. rewrite decide_False.
  - eexists. split; [done|]. rewrite removelast_last. split; simpl; try done; try lia; [by rewrite Hqs, Hsu|].
    split_and!; [done|simpl in *; lia|done].
  - intros [Hz Hne]. apply Hne. assert (l = []) as -> by (apply length_zero_iff_nil; lia). simpl in *. lia.
Qed.

Lemma special_control i c : i ∈ [VERASE; VKILL] → c = c_cc termstate i → special i → control c = false.
Proof.
  intros Hi -> (_ & _ & _ & Hj). unfold control. simpl. by rewrite !Hj by set_solver.
Qed.

Lemma erase_ok k t line start iq h :
  special VERASE → editing k t line start iq h →
  ∃ t', input_character termstate false POSIX_VDISABLE abandoned (c_cc termstate VERASE) t = Some (false, t')
    ∧ editing k t' (removelast line) start iq h.
Proof.
  intros Hs He. pose proof (special_control VERASE _ ltac:(set_solver) eq_refl Hs) as Hc.
  destruct Hs as (H10 & H13 & Hon & Hj).
  rewrite input_character_edit; [|done..|apply He].
  unfold seq at 1, canon_part, seq at 1, erase_part. rewrite Hcanon, Hon. cbn [negb andb mbind option_bind].
  assert (∃ t', (if decide (qsize (rawq t) ≠ 0) then erase_1 termstate false POSIX_VDISABLE (s8 (c_cc termstate VERASE)) t
     else Some t) = Some t' ∧ editing k t' (removelast line) start iq h) as (t' & -> & He').
  { case_decide as H0; [by apply erase_1_ok|]. exists t. split; [done|].
    assert (line = []) as -> by (rewrite <-(ed_line _ _ _ _ _ _ He); apply contents_nil; [apply He|lia]). done. }
  cbn [mbind option_bind]. rewrite (ed_slash _ _ _ _ _ _ He'). simpl. eexists. split; [done|]. by apply editing_finish.
Qed.

Lemma kill_ok k t line start iq h :
  special VKILL → editing k t line start iq h →
  ∃ t', input_character termstate false POSIX_VDISABLE abandoned (c_cc termstate VKILL) t = Some (false, t')
    ∧ editing k t' [] start iq h.
Proof.
  intros Hs He. pose proof (special_control VKILL _ ltac:(set_solver) eq_refl Hs) as Hc.
  destruct Hs as (H10 & H13 & Hon & Hj).
  rewrite input_character_edit; [|done..|apply He].
  unfold seq at 1, canon_part, seq at 1, erase_part. rewrite Hcanon, (Hj VERASE) by done.
  cbn [negb andb mbind option_bind]. unfold seq at 1, kill_part. rewrite Hon, (ed_slash _ _ _ _ _ _ He).
  cbn [negb orb]. unfold kill. rewrite Hechoke, Hechoprt.
  destruct He as [Hq Hline Hsu Hhi Hk (Hout & Hob & Hfl) Hin Hes Hst Hcur Hpl Hln Hsl Hhd].
  pose proof (contents_length _ Hq) as Hlen. rewrite Hline in Hlen. rewrite bool_decide_true by lia. cbn [negb andb].
  pose proof (column_le line start Hpl) as Hle.
  destruct (erase_to_start_moves (Z.to_nat (output_psize t - echo_pstart t)) t) as (oq & Hoq & Hol & ->);
    [split_and!; [done|lia|done]|lia|].
  cbn [mbind option_bind]. eexists. split; [done|]. apply editing_finish, editing_clear, editing_clear, editing_clear.
  destruct (clear_queue_ok _ Hq). split; try done. split_and!; [done|simpl in *; lia|done].
Qed.
(** ** The end of the line *)
Lemma move_rawq_ok rounds t :
  queue_ok (rawq t) → queue_ok (inputq t) → rounds = length (contents (rawq t)) →
  zlen (contents (inputq t)) + Z.of_nat rounds ≤ most →
  ∃ qi qr, move_rawq rounds t = Some (set_inputq qi (set_rawq qr t)) ∧ contents qr = []
    ∧ contents qi = contents (inputq t) ++ (unquote_char <$> contents (rawq t)).
Proof.
  revert t. induction rounds as [|rounds IH]; intros t Hr Hi Hn Hmost; cbn [move_rawq].
  { symmetry in Hn. apply nil_length_inv in Hn. rewrite decide_True by (by apply contents_nil).
    exists (inputq t), (rawq t). rewrite Hn, app_nil_r. by destruct t. }
  destruct (contents (rawq t)) as [|c l] eqn:Hc; [done|]. injection Hn as Hn.
  pose proof (contents_nil _ Hr) as Hnil. rewrite decide_False by (intros H0%Hnil; by rewrite Hc in H0).
  destruct (dequeue_quote_ok _ c l Hr Hc) as (qr & Hd & Hqr & Hl & _). unfold dequeue. rewrite Hd.
  cbn [mbind option_bind].
  destruct (enqueue_ok most (unquote_char c) (inputq t) Hmem Hi) as (qi & -> & Hqi & Hli & _); [lia|]. cbn [mbind option_bind].
  destruct (IH (set_inputq qi (set_rawq qr t))) as (qi' & qr' & Hm & He & Hc');
    [done|done|simpl; by rewrite Hl|simpl; rewrite Hli, length_app; simpl; lia|].
  exists qi', qr'. split; [exact Hm|]. split; [done|]. rewrite Hc'. simpl. rewrite Hl, Hli, <-app_assoc. simpl.
  by rewrite s8_id by apply s8_range.
Qed.

Lemma unquote_line l : Forall plain l → unquote_char <$> l = l.
Proof.
  intros Hl. induction Hl as [|c l [Hc _] _ IH]; [done|]. rewrite fmap_cons, IH. by rewrite unquote_plain.
Qed.

Lemma newline_ok k t line start iq h :
  has INLCR = false → (∀ i, CCEQ i 10 = false) → queue_ok iq → editing k t line start iq h → 9 ≤ k →
  zlen (contents iq) + zlen line + 1 ≤ most →
  ∃ t', input_character termstate false POSIX_VDISABLE abandoned 10 t = Some (false, t')
    ∧ contents (inputq t') = contents iq ++ line ++ [10] ∧ contents (rawq t') = [].
Proof.
  intros Hnl Hcc Hiq He Hk Hmost. pose proof (ed_ready _ _ _ _ _ _ He) as Hr.
  rewrite input_character_edit; [|unfold control; simpl; by rewrite !Hcc|done|done|apply He].
  unfold seq at 1. rewrite ordinary_edits by done. cbn [mbind option_bind].
  unfold store_part, qp, qavail. rewrite Hcanon, (ed_avail _ _ _ _ _ _ He). cbn [negb].
  unfold echo_char, echo_p. rewrite Hecho. change (is_set INSIDE_HDERASE (set_echo _ _ t)) with (is_set INSIDE_HDERASE t).
  rewrite (ed_hderase _ _ _ _ _ _ He). cbn [negb andb orb mbind option_bind].
  assert (echo_double (s8 10) false = false) as -> by (unfold Munge.echo_double; by rewrite andb_false_r).
  destruct (output_character_total (s8 10) (set_echo (echo_qsize t + 1) (echo_pstart t) t)) as (n & q & Hq & _ & ->);
    [eapply ready_le; [exact Hr|lia]|].
  cbn [mbind option_bind]. rewrite !Hcc. simpl. unfold on_qp. rewrite Hcanon. simpl.
  destruct (enqueue_ok most 10 (rawq t) Hmem (ed_raw _ _ _ _ _ _ He)) as (q' & -> & Hq' & Hl & _);
    [rewrite (ed_line _ _ _ _ _ _ He); lia|].
  cbn [mbind option_bind]. unfold copy_rawq. cbn [rawq set_rawq].
  destruct He as [? Hline ? ? ? ? Hin ? ? ? Hpl ? ? ?].
  destruct (move_rawq_ok (length (contents q')) (set_rawq q' (upd q n (set_echo (echo_qsize t + 1) (echo_pstart t) t))))
    as (qi & qr & -> & Hqr & Hqi);
    [done|simpl; by rewrite Hin|done|simpl; rewrite Hin, Hl, Hline, length_app; simpl; lia|].
  cbn [mbind option_bind]. eexists. split; [done|]. unfold finish.
  assert (Hres : contents qi = contents iq ++ line ++ [10]).
  { rewrite Hqi. simpl. by rewrite Hin, Hl, Hline, fmap_app, unquote_line. }
  by destruct (has IXANY || CCEQ VSTART 10).
Qed.

(** ** Sequences of keys *)
Definition typed (k : key) : Prop :=
  match k with Char c => ordinary c | Erase => special VERASE | Kill => special VKILL end.

Definition code (k : key) : Z :=
  match k with Char c => c | Erase => c_cc termstate VERASE | Kill => c_cc termstate VKILL end.

Lemma press_length k line : zlen (press line k) ≤ zlen line + 1.
Proof.
  destruct k; simpl; [rewrite length_app; simpl; lia| |lia].
  destruct line as [|x l _] using rev_ind; [simpl; lia|]. rewrite removelast_last, length_app. simpl. lia.
Qed.

Lemma press_ok x k t line start iq h :
  typed x → editing (k + 42) t line start iq h → 0 ≤ k → zlen line < h →
  ∃ t', input_character termstate false POSIX_VDISABLE abandoned (code x) t = Some (false, t')
    ∧ editing k t' (press line x) start iq h.
Proof.
  intros Hx He Hk Hl. destruct x; [by apply type_ok| |].
  - destruct (erase_ok (k + 42) t line start iq h) as (t' & ? & ?); [done..|]. exists t'.
    split; [done|]. eapply editing_le; [done|lia|lia].
  - destruct (kill_ok (k + 42) t line start iq h) as (t' & ? & ?); [done..|]. exists t'.
    split; [done|]. eapply editing_le; [done|lia|lia].
Qed.

Lemma keys_ok keys k t line start iq h :
  Forall typed keys → editing (k + 42 * zlen keys) t line start iq h → 0 ≤ k → zlen line + zlen keys ≤ h →
  ∃ t', input_all termstate false POSIX_VDISABLE abandoned (code <$> keys) t = Some t'
    ∧ editing k t' (edit keys line) start iq h.
Proof.
  intros Hx. revert t line. induction Hx as [|x keys Hx _ IH]; intros t line He Hk Hlen; cbn [length] in *.
  { exists t. split; [done|]. by replace (k + 42 * Z.of_nat 0) with k in He by lia. }
  replace (k + 42 * Z.of_nat (S (length keys))) with (k + 42 * zlen keys + 42) in He by lia.
  destruct (press_ok x _ t line start iq h Hx He ltac:(lia) ltac:(lia)) as (t1 & Hi & He1).
  cbn [fmap list_fmap input_all]. rewrite Hi. cbn [mbind option_bind].
  apply (IH t1 (press line x)); [done|done|]. pose proof (press_length x line). lia.
Qed.

Lemma edit_length keys line : zlen (edit keys line) ≤ zlen line + zlen keys.
Proof.
  revert line. induction keys as [|x keys IH]; intros line; [simpl; lia|].
  specialize (IH (press line x)). pose proof (press_length x line). cbn [length edit foldl] in *. unfold edit in IH. lia.
Qed.
End edit.

(** A backslash before an erase or kill character is documented to quote it. *)
Fixpoint slash_quotes (keys : list key) : bool :=
  match keys with
  | Char c :: (((Erase | Kill) :: _) as rest) => bool_decide (c = 92) || slash_quotes rest
  | _ :: rest => slash_quotes rest
  | [] => false
  end.

(** A terminal whose user has typed nothing since the last newline, with room for
    [output] and [input] more characters. *)
Record idle `{!Platform} (most output input : Z) (t : term) : Prop := {
  id_raw : queue_ok (rawq t);
  id_line : contents (rawq t) = [];
  id_avail : susp (rawq t) = false;
  id_input : queue_ok (inputq t);
  id_output : queue_ok (outputq t);
  id_room_in : zlen (contents (inputq t)) + input ≤ most;
  id_room_out : zlen (contents (outputq t)) + output ≤ most;
  id_flags f : f ∈ [LAST_LNEXT; LAST_SLASH; INSIDE_HDERASE; FLUSH_OUTPUT] → is_set f t = false
}.

(** C6. Typing a line.  After a program has put out a character (a prompt), ordinary
    characters, erase and kill characters in any order, but for an erase or kill
    character right after a backslash, make up the line that the abstract editor
    says, with the cursor behind it, tabs and control characters included.  The
    newline then hands that line to the readers, after what they have not read yet,
    and leaves an empty one.  The settings are the usual ones, the line has no more
    characters than the high mark, and there is memory for 42 characters of output for
    each character that is typed.  For a second line without output of a program between them
    see [erase_tab_second_line], for backslashes [slash_does_not_quote]. *)
Theorem term_line_edited `{!Platform} termstate VDISABLE abandoned most keys prompt t0 :
  usual_mode termstate → (∀ i, CCEQ termstate VDISABLE i 10 = false) → plenty most →
  Forall (typed termstate VDISABLE) keys → slash_quotes keys = false → zlen keys ≤ hiwat (rawq t0) →
  idle most (42 * zlen keys + 18) (zlen keys + 1) t0 →
  ∃ t t1 t2, write_character termstate false prompt t0 = Some t
    ∧ input_all termstate false VDISABLE abandoned (code termstate <$> keys) t = Some t1
    ∧ contents (rawq t1) = edit keys [] ∧ inputq t1 = inputq t0
    ∧ output_psize t1 = column termstate (edit keys []) (output_psize t)
    ∧ input_character termstate false VDISABLE abandoned 10 t1 = Some (false, t2)
    ∧ contents (inputq t2) = contents (inputq t0) ++ edit keys [] ++ [10] ∧ contents (rawq t2) = [].
Proof.
  intros Hmode Hnl Hmem Hk _ Hlen Hid.
  destruct (write_character_editing termstate most Hmem Hmode (9 + 42 * zlen keys) prompt t0) as (t & Hw & He);
    [destruct Hid; split_and!; [done|lia|set_solver]|lia|apply Hid..|intros f Hf; apply Hid; set_solver|].
  destruct (keys_ok termstate VDISABLE abandoned most Hmem Hmode keys 9 t [] _ _ _ Hk He ltac:(lia) Hlen)
    as (t1 & Hall & He1).
  pose proof (edit_length keys []) as Hel. pose proof (id_room_in _ _ _ _ Hid) as Hin0. cbn [length] in Hel.
  destruct (newline_ok termstate VDISABLE abandoned most Hmem Hmode 9 t1 (edit keys []) _ _ _
    (um_off _ Hmode INLCR ltac:(set_solver)) Hnl (id_input _ _ _ _ Hid) He1 ltac:(lia) ltac:(lia)) as (t2 & Hin & Hq & Hr).
  exists t, t1, t2. destruct He1. by split_and!.
Qed.

(** ** Examples *)
Definition controls (i : cc) : Z :=
  match i with VERASE => 127 | VKILL => 21 | VWERASE => 23 | VDISCARD => 15 | VEOF => 4 | _ => 255 end.

Definition sane (extra : list flag) : termios :=
  mk_termios (extra ++ [ICANON; ECHO; ECHOE; ECHOKE; OPOST; ONLCR; OXTABS; IEXTEN]) controls.

Definition fresh : term :=
  let q := empty_queue 4 QUEUE_LOWAT QUEUE_HIWAT in mk_term q q q [] 0 0 0 [].

#[local] Existing Instance small_machine.

Definition typing (extra : list flag) (l : list Z) : option term :=
  input_all (sane extra) false 255 true l fresh.

Lemma term_line_edited_witness :
  let termstate := sane [ECHOCTL] in
  let keys := [Char 97; Char 9; Char 3; Erase; Erase; Char 98; Char 200] in
  ∃ t t1 t2, write_character termstate false 36 fresh = Some t
    ∧ input_all termstate false 255 true (code termstate <$> keys) t = Some t1
    ∧ contents (rawq t1) = [97; 98; -56] ∧ inputq t1 = inputq fresh ∧ output_psize t1 = column termstate [97; 98; -56] (output_psize t)
    ∧ input_character termstate false 255 true 10 t1 = Some (false, t2)
    ∧ contents (inputq t2) = [97; 98; -56; 10] ∧ contents (rawq t2) = [].
Proof.
  apply (term_line_edited (sane [ECHOCTL]) 255 true 131000 [Char 97; Char 9; Char 3; Erase; Erase; Char 98; Char 200]
    36 fresh).
  - by split; apply Forall_forall; repeat constructor.
  - by intros [].
  - exact small_machine_plenty.
  - assert (Hs : special (sane [ECHOCTL]) 255 VERASE) by (split_and!; try done; by intros []).
    repeat constructor; try lia; try apply Hs; by intros [].
  - done.
  - by vm_compute.
  - split; try done; by split.
Defined.

(** Output to the terminal that is thrown away does not move the cursor: loops that
    wait for it to move do not end. *)
Lemma blanks_spin `{!Platform} rounds t :
  is_set FLUSH_OUTPUT t = true → output_psize t mod 8 ≠ 0 → blanks rounds t = None.
Proof.
  intros Hf Hn. induction rounds as [|rounds IH]; cbn [blanks]; rewrite decide_True by done; [done|].
  unfold poutput. by rewrite Hf.
Qed.

Lemma erase_to_start_spins `{!Platform} rounds t :
  is_set FLUSH_OUTPUT t = true → echo_pstart t < output_psize t → erase_to_start rounds t = None.
Proof.
  intros Hf Hn. induction rounds as [|rounds IH]; cbn [erase_to_start]; rewrite decide_True by done; [done|].
  unfold write_erase_sequence, poutput. rewrite Hf. cbn [mbind option_bind]. rewrite Hf. cbn [mbind option_bind].
  by rewrite Hf.
Qed.

(** An erase while output is thrown away fails the assertion on the cursor. *)
Example erase_after_discard : typing [] [97; 15; 127] = None.
Proof. by vm_compute. Qed.

(** So does the erase of a character before a carriage return. *)
Example erase_before_return : typing [] [97; 13; 127; 127] = None.
Proof. by vm_compute. Qed.

(** The count of echoed characters goes on behind a newline, so that a tab in a
    second line is measured with the characters of the first one, and the number
    of columns to erase is negative. *)
Example erase_tab_second_line : typing [ECHOCTL] [49; 50; 51; 52; 53; 54; 55; 56; 57; 10; 9; 127] = None.
Proof. by vm_compute. Qed.

(** A control character that is echoed in upper case with a backslash takes three
    columns, of which two are erased. *)
Example erase_control_upper : typing [ECHOCTL; OLCASE] [3; 127] = None.
Proof. by vm_compute. Qed.

(** A backslash does not quote the erase character. *)
Example slash_does_not_quote : (contents ∘ rawq) <$> typing [] [97; 92; 127] = Some [97].
Proof. by vm_compute. Qed.

(** A word erase goes on over punctuation, and stops at an underscore. *)
Example werase_punctuation :
  (contents ∘ rawq) <$> typing [] [97; 46; 98; 23] = Some []
  ∧ (contents ∘ rawq) <$> typing [] [97; 95; 98; 23] = Some [97; 95].
Proof. by vm_compute. Qed.

(** ** Parity *)
Definition even_parity (c : Z) : bool := Z.even (foldr Z.add 0 ((λ i, Z.b2z (Z.testbit c i)) <$> seqZ 0 8)).

Lemma checkpar_spec c : 0 ≤ c < 256 → checkevenpar c = even_parity c ∧ checkoddpar c = negb (even_parity c).
Proof.
  intros Hc. assert (Hall : Forall (λ c, checkevenpar c = even_parity c ∧ checkoddpar c = negb (even_parity c)) (seqZ 0 256)).
  { by apply (bool_decide_unpack _); vm_compute. }
  rewrite Forall_forall in Hall. apply Hall, elem_of_seqZ. lia.
Qed.

(** The tests say that the parity is right, and are taken for an error. *)
Example parity_inverted :
  (contents ∘ rawq) <$> typing [INPCK] [0x41] = Some [0]
  ∧ (contents ∘ rawq) <$> typing [INPCK] [0x43] = Some [0x43]
  ∧ even_parity 0x41 = true ∧ even_parity 0x43 = false.
Proof. by vm_compute. Qed.
