(* ===== verification/Bitmap.v ===== *)
(** * ext2: bitmaps (src/ext2fs/bitmap.c, ext2fs.h)

    The bitmaps of blocks and inodes: the operations on one bit, the search for a
    bit or a byte that is free, and the count of free bits.  A block of the disk
    is a list of 32-bit words, as a little-endian machine sees it; bit [n] is bit
    [n mod 32] of word [n / 32].  [None] is an access outside of the block.

    The width of [unsigned long] is a parameter: one search depends on it. *)

From S2P Require Import Prelude.

Abbreviation UINT32_MAX := (2 ^ 32 - 1) (only parsing).

(** ** Bits *)
Definition mask (num : Z) : Z := Z.shiftl 1 (Z.land num 31).

Definition test_bit (num : Z) (map : list Z) : option bool :=
  w ← map !z Z.shiftr num 5; Some (bool_decide (Z.land w (mask num) ≠ 0)).

(** The previous state of the bit, and the bitmap. *)
Definition set_bit (num : Z) (map : list Z) : option (bool * list Z) :=
  w ← map !z Z.shiftr num 5;
  if decide (Z.land w (mask num) ≠ 0) then Some (true, map)
  else Some (false, updz (Z.shiftr num 5) (Z.lor w (mask num)) map).

Definition clear_bit (num : Z) (map : list Z) : option (bool * list Z) :=
  w ← map !z Z.shiftr num 5;
  if decide (Z.land w (mask num) ≠ 0)
  then Some (true, updz (Z.shiftr num 5) (Z.land w (Z.lnot (mask num))) map)
  else Some (false, map).

(** ** Searches *)
Fixpoint ffs_from (n : nat) (w i : Z) : Z :=
  match n with
  | O => 0
  | S n' => if Z.testbit w i then i + 1 else ffs_from n' w (i + 1)
  end.

Definition ffs (w : Z) : Z := ffs_from 32 w 0.
Definition ffz (w : Z) : Z := ffs (u32 (Z.lnot w)) - 1.

Section long.
(** The number of bits of an [unsigned long]. *)
Context (long : Z).

Definition ULONG_MAX : Z := 2 ^ long - 1.

(** The labels [found_first] and [found_middle]. *)
Definition found_first (tmp size result : Z) : Z :=
  let tmp := u32 (Z.lor tmp (Z.shiftl ULONG_MAX size)) in
  if decide (tmp = UINT32_MAX) then result + size else result + ffz tmp.

(** The loop over whole words, and what is left of the last one; [p] is at the
    word of bit [result]. *)
Fixpoint scan_words (rounds : nat) (map : list Z) (size result : Z) : option Z :=
  if decide (Z.ldiff size 31 ≠ 0) then
    match rounds with
    | O => None
    | S rounds' =>
        tmp ← map !z Z.shiftr result 5;
        if decide (tmp ≠ UINT32_MAX) then Some (result + ffz tmp)
        else scan_words rounds' map (size - 32) (result + 32)
    end
  else if decide (size = 0) then Some result
  else tmp ← map !z Z.shiftr result 5; Some (found_first tmp size result).

Definition find_next_zero_bit (map : list Z) (size offset : Z) : option Z :=
  let result := Z.ldiff offset 31 in
  if decide (size ≤ offset) then Some size else
  let size := size - result in
  let offset := Z.land offset 31 in
  let rounds := Z.to_nat (size / 32) in
  if decide (offset ≠ 0) then
    tmp ← map !z Z.shiftr result 5;
    let tmp := u32 (Z.lor tmp (Z.shiftr ULONG_MAX (32 - offset))) in
    if decide (size < 32) then Some (found_first tmp size result)
    else if decide (tmp ≠ UINT32_MAX) then Some (result + ffz tmp)
    else scan_words rounds map (size - 32) (result + 32)
  else scan_words rounds map size result.

Definition find_first_zero_bit (map : list Z) (len : Z) : option Z := find_next_zero_bit map len 0.
End long.

Definition byte (map : list Z) (i : Z) : option Z :=
  w ← map !z (i / 4); Some (Z.land (Z.shiftr w (8 * (i mod 4))) 0xff).

(** The first zero byte of the [n] bytes from [i]. *)
Fixpoint memscan (n : nat) (map : list Z) (i : Z) : option Z :=
  match n with
  | O => Some i
  | S n' => b ← byte map i; if decide (b = 0) then Some i else memscan n' map (i + 1)
  end.

(** ** Counts *)
Definition nibblemap : list Z := [4; 3; 3; 2; 3; 2; 2; 1; 3; 2; 2; 1; 2; 1; 1; 0].

Fixpoint count_free_from (n : nat) (map : list Z) (i sum : Z) : option Z :=
  match n with
  | O => Some sum
  | S n' =>
      b ← byte map i; lo ← nibblemap !z Z.land b 0xf; hi ← nibblemap !z Z.land (Z.shiftr b 4) 0xf;
      count_free_from n' map (i + 1) (sum + (lo + hi))
  end.

Definition count_free (map : list Z) (numchars : Z) : option Z :=
  count_free_from (Z.to_nat numchars) map 0 0.

(** ** What a bitmap says *)
Implicit Types map : list Z.

Definition bit (map : list Z) (n : Z) : bool :=
  match map !z (n / 32) with Some w => Z.testbit w (n mod 32) | None => false end.

Definition words_ok (map : list Z) : Prop := Forall (λ w, 0 ≤ w < 2 ^ 32) map.

Lemma mask_pow num : mask num = 2 ^ (num mod 32).
Proof.
  unfold mask. rewrite Z.shiftl_1_l. f_equal. change 31 with (Z.ones 5). by rewrite Z.land_ones by lia.
Qed.

Lemma shiftr_5 num : Z.shiftr num 5 = num / 32.
Proof. by rewrite Z.shiftr_div_pow2 by lia. Qed.

Lemma land_mask_bit w num : Z.land w (mask num) ≠ 0 ↔ Z.testbit w (num mod 32) = true.
Proof.
  rewrite mask_pow. pose proof (Z.mod_pos_bound num 32). set (k := num mod 32) in *. split.
  - intros Hne. destruct (Z.testbit w k) eqn:Hk; [done|]. destruct Hne. apply Z.bits_inj'. intros m Hm.
    rewrite Z.land_spec, Z.bits_0, Z.pow2_bits_eqb by lia. destruct (Z.eqb_spec k m); [subst; by rewrite Hk|].
    by rewrite andb_false_r.
  - intros Hk H0. apply (f_equal (λ z, Z.testbit z k)) in H0.
    rewrite Z.land_spec, Z.bits_0, Hk, Z.pow2_bits_true in H0 by lia. done.
Qed.

Lemma word_is_Some map num : 0 ≤ num < 32 * zlen map → ∃ w, map !z (num / 32) = Some w.
Proof.
  intros Hn. apply lookupz_is_Some. pose proof (Z.div_lt_upper_bound num 32 (zlen map)).
  pose proof (Z.div_pos num 32). lia.
Qed.

Lemma words_range map i w : words_ok map → map !z i = Some w → 0 ≤ w < 2 ^ 32.
Proof. intros Hw Hi. by apply (Forall_lookupz _ _ _ _ Hw Hi). Qed.

Lemma words_updz map i w : words_ok map → 0 ≤ w < 2 ^ 32 → words_ok (updz i w map).
Proof. intros Hm Hw. by apply Forall_insert. Qed.

Lemma test_bit_ok num map : 0 ≤ num < 32 * zlen map → test_bit num map = Some (bit map num).
Proof.
  intros Hn. destruct (word_is_Some _ _ Hn) as [w Hw]. unfold test_bit, bit. rewrite shiftr_5, Hw.
  cbn [mbind option_bind]. f_equal. pose proof (land_mask_bit w num) as Hm.
  destruct (Z.testbit w (num mod 32)); [apply bool_decide_true|apply bool_decide_false]; rewrite Hm; done.
Qed.

(** A word with one bit changed. *)
Lemma bit_updz map num w m :
  0 ≤ num < 32 * zlen map → 0 ≤ m →
  bit (updz (num / 32) w map) m = if decide (m / 32 = num / 32) then Z.testbit w (m mod 32) else bit map m.
Proof.
  intros Hn Hm. pose proof (Z.div_lt_upper_bound num 32 (zlen map)). pose proof (Z.div_pos num 32).
  unfold bit. case_decide as Hd.
  - rewrite Hd, lookupz_updz_eq by lia. done.
  - by rewrite lookupz_updz_ne by lia.
Qed.

Lemma same_bit num m : m / 32 = num / 32 → m mod 32 = num mod 32 → m = num.
Proof. intros. Z.div_mod_to_equations. lia. Qed.

Lemma set_bit_ok num map :
  words_ok map → 0 ≤ num < 32 * zlen map →
  ∃ map', set_bit num map = Some (bit map num, map') ∧ words_ok map' ∧ zlen map' = zlen map
    ∧ ∀ m, 0 ≤ m → bit map' m = bit map m || bool_decide (m = num).
Proof.
  intros Hok Hn. destruct (word_is_Some _ _ Hn) as [w Hw]. pose proof (words_range _ _ _ Hok Hw) as Hr.
  unfold set_bit. rewrite shiftr_5, Hw. cbn [mbind option_bind].
  assert (Hb : bit map num = Z.testbit w (num mod 32)) by (unfold bit; by rewrite Hw).
  pose proof (land_mask_bit w num) as Hm. pose proof (Z.mod_pos_bound num 32) as Hmod. case_decide as Hd.
  - apply Hm in Hd. exists map. rewrite Hb, Hd. split_and!; try done. intros m _.
    destruct (decide (m = num)) as [->|]; [by rewrite Hb, Hd|]. by rewrite bool_decide_false, orb_false_r.
  - assert (Hf : Z.testbit w (num mod 32) = false) by (apply not_true_is_false; intros E%Hm; done).
    eexists. rewrite Hb, Hf. split; [done|]. rewrite length_updz. split_and!; try done.
    + apply words_updz; [done|]. rewrite mask_pow.
      pose proof (Z.pow_lt_mono_r 2 (num mod 32) 32). split; [apply Z.lor_nonneg; lia|].
      apply Z.log2_lt_cancel. rewrite Z.log2_lor, Z.log2_pow2 by lia. change (Z.log2 (2 ^ 32)) with 32.
      apply Z.max_lub_lt; [|lia]. destruct (decide (w = 0)) as [->|]; [done|]. apply Z.log2_lt_pow2; lia.
    + intros m Hm0. rewrite bit_updz by done. case_decide as He.
      * rewrite Z.lor_spec, mask_pow, Z.pow2_bits_eqb by lia. unfold bit. rewrite He, Hw. f_equal.
        destruct (Z.eqb_spec (num mod 32) (m mod 32)) as [E|E].
        -- rewrite bool_decide_true; [done|]. by apply same_bit.
        -- rewrite bool_decide_false; [done|]. by intros ->.
      * rewrite bool_decide_false by (by intros ->). by rewrite orb_false_r.
Qed.

Lemma clear_bit_ok num map :
  words_ok map → 0 ≤ num < 32 * zlen map →
  ∃ map', clear_bit num map = Some (bit map num, map') ∧ words_ok map' ∧ zlen map' = zlen map
    ∧ ∀ m, 0 ≤ m → bit map' m = bit map m && negb (bool_decide (m = num)).
Proof.
  intros Hok Hn. destruct (word_is_Some _ _ Hn) as [w Hw]. pose proof (words_range _ _ _ Hok Hw) as Hr.
  unfold clear_bit. rewrite shiftr_5, Hw. cbn [mbind option_bind].
  assert (Hb : bit map num = Z.testbit w (num mod 32)) by (unfold bit; by rewrite Hw).
  pose proof (land_mask_bit w num) as Hm. pose proof (Z.mod_pos_bound num 32) as Hmod. case_decide as Hd.
  - apply Hm in Hd. eexists. rewrite Hb, Hd. split; [done|]. rewrite length_updz. split_and!; try done.
    + apply words_updz; [done|]. rewrite mask_pow. split; [apply Z.land_nonneg; lia|].
      assert (Z.ldiff w (2 ^ (num mod 32)) ≤ w) by (apply Z.ldiff_le; [lia|]; by rewrite Z.ldiff_ldiff_l, Z.lor_comm, <-Z.ldiff_ldiff_l, Z.ldiff_diag, Z.ldiff_0_l).
      rewrite <-Z.ldiff_land. lia.
    + intros m Hm0. rewrite bit_updz by done. case_decide as He.
      * pose proof (Z.mod_pos_bound m 32).
        rewrite Z.land_spec, Z.lnot_spec, mask_pow, Z.pow2_bits_eqb by lia. unfold bit. rewrite He, Hw. f_equal.
        destruct (Z.eqb_spec (num mod 32) (m mod 32)) as [E|E].
        -- rewrite bool_decide_true; [done|]. by apply same_bit.
        -- rewrite bool_decide_false; [done|]. by intros ->.
      * rewrite bool_decide_false by (by intros ->). by rewrite andb_true_r.
  - assert (Hf : Z.testbit w (num mod 32) = false) by (apply not_true_is_false; intros E%Hm; done).
    exists map. rewrite Hb, Hf. split_and!; try done. intros m _.
    destruct (decide (m = num)) as [->|]; [by rewrite Hb, Hf|]. by rewrite bool_decide_false, andb_true_r.
Qed.

(** ** Searches *)
Lemma ffs_from_spec n w i :
  (∀ j, i ≤ j < i + Z.of_nat n → Z.testbit w j = false) ∧ ffs_from n w i = 0
  ∨ ∃ k, ffs_from n w i = k + 1 ∧ i ≤ k < i + Z.of_nat n ∧ Z.testbit w k = true ∧ ∀ j, i ≤ j < k → Z.testbit w j = false.
Proof.
  revert i. induction n as [|n IH]; intros i; cbn [ffs_from]; [left; split; [lia|done]|].
  destruct (Z.testbit w i) eqn:Hi.
  { right. exists i. split_and!; [done|lia..|done|lia]. }
  destruct (IH (i + 1)) as [[Hall H0]|(k & Hk & Hr & Hb & Hall)]; [left|right].
  - split; [|done]. intros j Hj. destruct (decide (j = i)) as [->|]; [done|]. apply Hall. lia.
  - exists k. split_and!; [done|lia..|done|]. intros j Hj. destruct (decide (j = i)) as [->|]; [done|]. apply Hall. lia.
Qed.

Lemma ones_testbit w k : 0 ≤ k < 32 → Z.testbit (u32 (Z.lnot w)) k = negb (Z.testbit w k).
Proof. intros Hk. unfold u32. by rewrite Z.mod_pow2_bits_low, Z.lnot_spec by lia. Qed.

Lemma all_ones w : 0 ≤ w < 2 ^ 32 → (∀ j, 0 ≤ j < 32 → Z.testbit w j = true) → w = UINT32_MAX.
Proof.
  intros Hw Hall. change UINT32_MAX with (Z.ones 32). apply Z.bits_inj'. intros j Hj. rewrite Z.testbit_ones by lia.
  destruct (decide (j < 32)).
  - rewrite Hall by lia. symmetry. apply andb_true_iff. lia.
  - rewrite Z.bits_above_log2; [|lia|].
    + symmetry. apply andb_false_iff. right. lia.
    + destruct (decide (w = 0)) as [->|]; [simpl; lia|]. pose proof (Z.log2_lt_pow2 w 32). lia.
Qed.

Lemma ffz_spec w :
  0 ≤ w < 2 ^ 32 → w ≠ UINT32_MAX →
  0 ≤ ffz w < 32 ∧ Z.testbit w (ffz w) = false ∧ ∀ j, 0 ≤ j < ffz w → Z.testbit w j = true.
Proof.
  intros Hw Hne. unfold ffz, ffs.
  destruct (ffs_from_spec 32 (u32 (Z.lnot w)) 0) as [[Hall _]|(k & -> & Hr & Hb & Hall)].
  - destruct Hne. apply all_ones; [done|]. intros j Hj. pose proof (Hall j ltac:(lia)) as Hf.
    rewrite ones_testbit in Hf by lia. by apply negb_false_iff.
  - replace (k + 1 - 1) with k by lia. rewrite ones_testbit in Hb by lia. split_and!; [lia..|by apply negb_true_iff|].
    intros j Hj. pose proof (Hall j ltac:(lia)) as Hf. rewrite ones_testbit in Hf by lia. by apply negb_false_iff.
Qed.

(** [k] is the first free bit from [from], or [to] if there is none before. *)
Definition first_zero map (from to k : Z) : Prop :=
  from ≤ k ≤ to ∧ (k < to → bit map k = false) ∧ ∀ i, from ≤ i < k → bit map i = true.

Lemma bit_word map result w i :
  result mod 32 = 0 → map !z (result / 32) = Some w → result ≤ i < result + 32 →
  bit map i = Z.testbit w (i - result).
Proof.
  intros Hr Hw Hi. unfold bit. replace (i / 32) with (result / 32) by (Z.div_mod_to_equations; lia). rewrite Hw.
  f_equal. Z.div_mod_to_equations; lia.
Qed.

Section long.
Context (long : Z) (Hlong : long = 32 ∨ long = 64).

(** The bits from [size] on are set. *)
Lemma found_first_bits tmp size i :
  0 ≤ i < 32 → 0 ≤ size < 32 →
  Z.testbit (u32 (Z.lor tmp (Z.shiftl (ULONG_MAX long) size))) i = Z.testbit tmp i || bool_decide (size ≤ i).
Proof.
  intros Hi Hs. unfold u32. rewrite Z.mod_pow2_bits_low, Z.lor_spec by lia. f_equal.
  rewrite Z.shiftl_spec by lia. unfold ULONG_MAX.
  replace (2 ^ long - 1) with (Z.ones long) by (rewrite Z.ones_equiv; lia).
  case_bool_decide.
  - rewrite Z.testbit_ones by lia. apply andb_true_iff. lia.
  - apply Z.testbit_neg_r. lia.
Qed.

(** [tmp] is the word at [result], with the bits before [off] set. *)
Lemma found_first_ok map tmp off size result w :
  0 ≤ result → result mod 32 = 0 → 0 ≤ off < size → size < 32 → map !z (result / 32) = Some w →
  (∀ i, 0 ≤ i < 32 → Z.testbit tmp i = Z.testbit w i || bool_decide (i < off)) →
  first_zero map (result + off) (result + size) (found_first long tmp size result).
Proof.
  intros H0 Hm Hs H32 Hw Ht. unfold found_first. set (tmp' := u32 _).
  assert (Hbits : ∀ i, 0 ≤ i < 32 → Z.testbit tmp' i = Z.testbit w i || bool_decide (i < off) || bool_decide (size ≤ i))
    by (intros i Hi; rewrite <-Ht by lia; apply found_first_bits; lia).
  assert (Hword : ∀ i, result ≤ i < result + 32 → bit map i = Z.testbit w (i - result))
    by (intros i Hi; by apply bit_word).
  assert (Htrue : ∀ i, result + off ≤ i < result + size → Z.testbit tmp' (i - result) = true → bit map i = true).
  { intros i Hi. by rewrite Hword, Hbits, !bool_decide_false, !orb_false_r by lia. }
  case_decide as Hall.
  - split_and!; [lia..|]. intros i Hi. apply Htrue; [lia|].
    rewrite Hall. change UINT32_MAX with (Z.ones 32). apply Z.ones_spec_low. lia.
  - destruct (ffz_spec tmp') as (Hr & Hz & Hb); [apply u32_range|done|].
    rewrite Hbits in Hz by lia.
    apply orb_false_iff in Hz as [[Hz Hge%bool_decide_eq_false]%orb_false_iff Hlt%bool_decide_eq_false].
    split_and!; [lia..| |].
    + intros _. rewrite Hword by lia. by replace (result + ffz tmp' - result) with (ffz tmp') by lia.
    + intros i Hi. apply Htrue; [lia|]. apply Hb. lia.
Qed.

Lemma scan_words_ok rounds map size result :
  words_ok map → 0 ≤ result → result mod 32 = 0 → 0 ≤ size → result + size ≤ 32 * zlen map →
  size / 32 ≤ Z.of_nat rounds →
  ∃ k, scan_words long rounds map size result = Some k ∧ first_zero map result (result + size) k.
Proof.
  intros Hok. revert size result. induction rounds as [|rounds IH]; intros size result H0 Hm Hs Hlen Hr.
  all: assert (Hd : Z.ldiff size 31 ≠ 0 ↔ 32 ≤ size)
    by (change 31 with (Z.ones 5); rewrite Z.ldiff_ones_r, Z.shiftl_mul_pow2, Z.shiftr_div_pow2 by lia;
        change (2 ^ 5) with 32; Z.div_mod_to_equations; lia).
  all: cbn [scan_words]; case_decide as Hc; [apply Hd in Hc|assert (size < 32) by (apply Z.nle_gt; by intros ?%Hd)].
  - exfalso. Z.div_mod_to_equations. lia.
  - case_decide as Hz; [exists result; split; [done|]; split_and!; lia|].
    destruct (word_is_Some map result) as [w Hw]; [lia|]. rewrite shiftr_5, Hw. cbn [mbind option_bind].
    eexists. split; [done|]. rewrite <-(Z.add_0_r result) at 1. apply found_first_ok with w; try done; try lia.
    intros i Hi. by rewrite bool_decide_false, orb_false_r by lia.
  - destruct (word_is_Some map result) as [w Hw]; [lia|]. rewrite shiftr_5, Hw. cbn [mbind option_bind].
    pose proof (words_range _ _ _ Hok Hw) as Hwr. case_decide as Hne.
    + destruct (ffz_spec w Hwr Hne) as (Hf & Hz & Hb). eexists. split; [done|]. split_and!; [lia..| |].
      * intros _. rewrite (bit_word map result w) by (done || lia). by replace (result + ffz w - result) with (ffz w) by lia.
      * intros i Hi. rewrite (bit_word map result w) by (done || lia). apply Hb. lia.
    + assert (w = UINT32_MAX) as -> by (destruct (decide (w = UINT32_MAX)); [done|by destruct Hne]).
      destruct (IH (size - 32) (result + 32)) as (k & Hk & Hb & Hz & Hall); [lia|Z.div_mod_to_equations; lia|lia|lia| |].
      { Z.div_mod_to_equations; lia. }
      exists k. split; [done|]. replace (result + 32 + (size - 32)) with (result + size) in * by lia.
      split_and!; [lia..|done|]. intros i Hi. destruct (decide (i < result + 32)); [|apply Hall; lia].
      rewrite (bit_word map result UINT32_MAX) by (done || lia). change UINT32_MAX with (Z.ones 32).
      apply Z.ones_spec_low. lia.
  - case_decide as Hz; [exists result; split; [done|]; split_and!; lia|].
    destruct (word_is_Some map result) as [w Hw]; [lia|]. rewrite shiftr_5, Hw. cbn [mbind option_bind].
    eexists. split; [done|]. rewrite <-(Z.add_0_r result) at 1. apply found_first_ok with w; try done; try lia.
    intros i Hi. by rewrite bool_decide_false, orb_false_r by lia.
Qed.
(** What is not looked at of the first word: on 64 bits, all of it. *)
Definition skipped (offset : Z) : Z :=
  if decide (long = 64 ∧ offset ≠ 0) then 32 else offset.

Lemma first_word_bits tmp off i :
  0 ≤ off < 32 → off ≠ 0 → 0 ≤ i < 32 →
  Z.testbit (u32 (Z.lor tmp (Z.shiftr (ULONG_MAX long) (32 - off)))) i
  = Z.testbit tmp i || bool_decide (i < skipped off).
Proof.
  intros Hoff Hne Hi. unfold u32. rewrite Z.mod_pow2_bits_low, Z.lor_spec, Z.shiftr_spec by lia. f_equal.
  unfold ULONG_MAX, skipped. replace (2 ^ long - 1) with (Z.ones long) by (rewrite Z.ones_equiv; lia).
  rewrite Z.testbit_ones by lia. destruct Hlong as [-> | ->].
  - rewrite decide_False by lia. rewrite (bool_decide_ext _ (i + (32 - off) < 32)) by lia.
    rewrite (proj2 (Z.leb_le 0 (i + (32 - off)))) by lia. simpl. apply eq_true_iff_eq.
    rewrite bool_decide_eq_true, Z.ltb_lt. lia.
  - rewrite decide_True by lia. rewrite bool_decide_true by lia. apply andb_true_iff. lia.
Qed.

(** The word in which the search starts is also the last one. *)
Lemma only_word_ok map tmp off size result w :
  0 ≤ result → result mod 32 = 0 → 0 < off < size → size < 32 → map !z (result / 32) = Some w →
  (∀ i, 0 ≤ i < 32 → Z.testbit tmp i = Z.testbit w i || bool_decide (i < skipped off)) →
  first_zero map (Z.min (result + size) (result + skipped off)) (result + size) (found_first long tmp size result).
Proof.
  intros H0 Hm Hs H32 Hw Hbits.
  assert (Hsk : skipped off = off ∨ skipped off = 32) by (unfold skipped; case_decide; lia). destruct Hsk as [Hsk|Hsk].
  - rewrite Hsk in *. replace (Z.min (result + size) (result + off)) with (result + off) by lia.
    apply found_first_ok with w; done || lia.
  - rewrite Hsk in *. replace (Z.min (result + size) (result + 32)) with (result + size) by lia. unfold found_first.
    rewrite decide_True; [split_and!; lia|]. apply all_ones; [apply u32_range|]. intros j Hj.
    by rewrite found_first_bits, Hbits, (bool_decide_true (j < 32)), orb_true_r by lia.
Qed.

(** The search goes on behind that word, or ends in it. *)
Lemma first_word_ok map tmp off size result w :
  words_ok map → 0 ≤ result → result mod 32 = 0 → 0 < off < 32 → 32 ≤ size → result + size ≤ 32 * zlen map →
  map !z (result / 32) = Some w → 0 ≤ tmp < 2 ^ 32 →
  (∀ i, 0 ≤ i < 32 → Z.testbit tmp i = Z.testbit w i || bool_decide (i < skipped off)) →
  ∃ k, (if decide (tmp ≠ UINT32_MAX) then Some (result + ffz tmp)
        else scan_words long (Z.to_nat (size / 32)) map (size - 32) (result + 32)) = Some k
    ∧ first_zero map (result + skipped off) (result + size) k.
Proof.
  intros Hok H0 Hm Ho Hs Hlen Hw Htmp Hbits.
  assert (Hsk : 0 < skipped off ≤ 32) by (unfold skipped; case_decide; lia).
  assert (Hin : ∀ i, result + skipped off ≤ i < result + 32 → bit map i = Z.testbit tmp (i - result)).
  { intros i Hi. rewrite (bit_word map result w) by (done || lia). by rewrite Hbits, bool_decide_false, orb_false_r by lia. }
  case_decide as Hall.
  - destruct (ffz_spec tmp Htmp Hall) as (Hf & Hz & Hb). eexists. split; [done|].
    assert (skipped off ≤ ffz tmp).
    { rewrite Hbits in Hz by lia. apply orb_false_iff in Hz as [_ Hge%bool_decide_eq_false]. lia. }
    split_and!; [lia..| |]; intros; rewrite Hin by lia; [by replace (result + ffz tmp - result) with (ffz tmp) by lia|].
    apply Hb. lia.
  - assert (tmp = UINT32_MAX) as Ht by (destruct (decide (tmp = UINT32_MAX)); [done|by destruct Hall]).
    destruct (scan_words_ok (Z.to_nat (size / 32)) map (size - 32) (result + 32)) as (k & Hk & Hr & Hz & Hb); try done; try lia.
    { Z.div_mod_to_equations; lia. } { Z.div_mod_to_equations; lia. }
    replace (result + 32 + (size - 32)) with (result + size) in * by lia. exists k. split; [done|].
    split_and!; [lia..|done|]. intros i Hi. destruct (decide (result + 32 ≤ i)); [apply Hb; lia|].
    rewrite Hin, Ht by lia. change UINT32_MAX with (Z.ones 32). apply Z.ones_spec_low. lia.
Qed.

Lemma find_next_zero_bit_ok map size offset :
  words_ok map → 0 ≤ offset < size → size ≤ 32 * zlen map →
  ∃ k, find_next_zero_bit long map size offset = Some k
    ∧ first_zero map (Z.min size (Z.ldiff offset 31 + skipped (Z.land offset 31))) size k.
Proof.
  intros Hok Ho Hlen. unfold find_next_zero_bit. rewrite decide_False by lia.
  assert (Hres : Z.ldiff offset 31 = offset - offset mod 32).
  { change 31 with (Z.ones 5). rewrite Z.ldiff_ones_r, Z.shiftl_mul_pow2, Z.shiftr_div_pow2 by lia.
    change (2 ^ 5) with 32. Z.div_mod_to_equations; lia. }
  assert (Hoff : Z.land offset 31 = offset mod 32) by (change 31 with (Z.ones 5); by rewrite Z.land_ones by lia).
  rewrite Hres, Hoff. pose proof (Z.mod_pos_bound offset 32) as Hmod. pose proof (Z.mod_le offset 32) as Hmle.
  set (off := offset mod 32) in *. set (result := offset - off). set (rest := size - result).
  assert (Hrm : result mod 32 = 0) by (unfold result, off; Z.div_mod_to_equations; lia).
  assert (Hrest : result + rest = size) by (unfold rest; lia).
  assert (Hpos : 0 ≤ result ∧ result + off = offset) by (unfold result; lia). clearbody rest result.
  case_decide as Hne.
  2:{ unfold skipped. rewrite decide_False by lia. assert (off = 0) as -> by lia.
      destruct (scan_words_ok (Z.to_nat (rest / 32)) map rest result) as (k & Hk & Hf); try done; try lia.
      exists k. split; [done|]. rewrite Hrest in Hf. replace (Z.min size (result + 0)) with result by lia. done. }
  destruct (word_is_Some map result) as [w Hw]; [lia|]. rewrite shiftr_5, Hw. cbn [mbind option_bind].
  assert (Hbits : ∀ i, 0 ≤ i < 32 → Z.testbit (u32 (Z.lor w (Z.shiftr (ULONG_MAX long) (32 - off)))) i
    = Z.testbit w i || bool_decide (i < skipped off)) by (intros i Hi; apply first_word_bits; lia).
  case_decide as Hsz.
  - eexists. split; [done|]. rewrite <-Hrest. apply only_word_ok with w; done || lia.
  - destruct (first_word_ok map _ off rest result w Hok ltac:(lia) Hrm ltac:(lia) ltac:(lia) ltac:(lia) Hw (u32_range _) Hbits)
      as (k & -> & Hk).
    exists k. split; [done|]. rewrite Hrest in Hk.
    replace (Z.min size (result + skipped off)) with (result + skipped off); [done|]. unfold skipped. case_decide; lia.
Qed.
End long.

(** ** Bytes *)
Lemma byte_spec map i :
  0 ≤ i < 4 * zlen map →
  ∃ b, byte map i = Some b ∧ 0 ≤ b < 256 ∧ ∀ j, 0 ≤ j < 8 → Z.testbit b j = bit map (8 * i + j).
Proof.
  intros Hi. destruct (lookupz_is_Some map (i / 4)) as [w Hw]; [Z.div_mod_to_equations; lia|].
  unfold byte. rewrite Hw. cbn [mbind option_bind]. eexists. split; [done|]. change 0xff with (Z.ones 8).
  rewrite Z.land_ones by lia. split; [apply Z.mod_pos_bound; lia|]. intros j Hj.
  pose proof (Z.mod_pos_bound i 4). rewrite Z.mod_pow2_bits_low, Z.shiftr_spec by lia. unfold bit.
  replace ((8 * i + j) / 32) with (i / 4) by (Z.div_mod_to_equations; lia). rewrite Hw. f_equal.
  Z.div_mod_to_equations; lia.
Qed.

Lemma memscan_ok n map i :
  0 ≤ i → i + Z.of_nat n ≤ 4 * zlen map →
  ∃ r, memscan n map i = Some r ∧ i ≤ r ≤ i + Z.of_nat n
    ∧ (r < i + Z.of_nat n → ∀ j, 8 * r ≤ j < 8 * r + 8 → bit map j = false).
Proof.
  revert i. induction n as [|n IH]; intros i Hi Hlen; cbn [memscan]; [exists i; split_and!; try done; lia|].
  destruct (byte_spec map i) as (b & -> & Hb & Hbits); [lia|]. cbn [mbind option_bind]. case_decide as H0.
  - exists i. split_and!; [done|lia..|]. intros _ j Hj. replace j with (8 * i + (j - 8 * i)) by lia.
    rewrite <-Hbits by lia. subst b. apply Z.bits_0.
  - destruct (IH (i + 1)) as (r & Hr & Hrange & Hz); [lia..|]. exists r. split_and!; [done|lia..|].
    intros Hlt. apply Hz. lia.
Qed.

(** ** Counting *)
Fixpoint countz (p : Z → bool) (n : nat) : Z :=
  match n with O => 0 | S n' => countz p n' + Z.b2z (p (Z.of_nat n')) end.

(** The number of free bits among the first [n]. *)
Definition zeros map (n : Z) : Z := countz (λ i, negb (bit map i)) (Z.to_nat n).

Lemma countz_ext p q n : (∀ i, 0 ≤ i < Z.of_nat n → p i = q i) → countz p n = countz q n.
Proof.
  induction n as [|n IH]; intros He; cbn [countz]; [done|]. rewrite IH, He by (intros; apply He; lia) || lia. done.
Qed.

Lemma countz_bounds p n : 0 ≤ countz p n ≤ Z.of_nat n.
Proof. induction n as [|n IH]; cbn [countz]; [lia|]. destruct (p _); simpl; lia. Qed.

Lemma countz_add p n m : countz p (n + m) = countz p n + countz (λ i, p (Z.of_nat n + i)) m.
Proof.
  induction m as [|m IH]; [by rewrite Nat.add_0_r, Z.add_0_r|].
  rewrite Nat.add_succ_r. cbn [countz]. rewrite IH, Nat2Z.inj_add. lia.
Qed.

Lemma countz_change p q n k :
  0 ≤ k < Z.of_nat n → (∀ i, 0 ≤ i < Z.of_nat n → i ≠ k → p i = q i) →
  countz p n - Z.b2z (p k) = countz q n - Z.b2z (q k).
Proof.
  induction n as [|n IH]; intros Hk He; cbn [countz]; [lia|]. destruct (decide (k = Z.of_nat n)) as [->|].
  - rewrite (countz_ext p q n); [lia|]. intros i Hi. apply He; lia.
  - rewrite (He (Z.of_nat n)) by lia. assert (countz p n - Z.b2z (p k) = countz q n - Z.b2z (q k)); [|lia].
    apply IH; [lia|]. intros i Hi Hne. apply He; lia.
Qed.

Lemma countz_pos p n : 0 < countz p n ↔ ∃ i, 0 ≤ i < Z.of_nat n ∧ p i = true.
Proof.
  induction n as [|n IH]; cbn [countz]; [split; [lia|intros (? & ? & ?); lia]|].
  pose proof (countz_bounds p n). destruct (p (Z.of_nat n)) eqn:Hp; simpl.
  - split; [intros _; exists (Z.of_nat n); split; [lia|done]|lia].
  - rewrite Z.add_0_r, IH. split; intros (i & Hi & Hpi).
    + exists i. split; [lia|done].
    + exists i. split; [|done]. destruct (decide (i = Z.of_nat n)) as [->|]; [congruence|lia].
Qed.

(** Setting or clearing a bit. *)
Lemma zeros_change map map' n k :
  0 ≤ k < n → (∀ i, 0 ≤ i → i ≠ k → bit map' i = bit map i) →
  zeros map' n = zeros map n + Z.b2z (bit map k) - Z.b2z (bit map' k).
Proof.
  intros Hk He. unfold zeros.
  pose proof (countz_change (λ i, negb (bit map' i)) (λ i, negb (bit map i)) (Z.to_nat n) k) as Hc.
  assert (countz (λ i, negb (bit map' i)) (Z.to_nat n) - Z.b2z (negb (bit map' k)) =
          countz (λ i, negb (bit map i)) (Z.to_nat n) - Z.b2z (negb (bit map k)))
    by (apply Hc; [lia|intros i Hi Hne; by rewrite He by lia]).
  destruct (bit map k), (bit map' k); simpl in *; lia.
Qed.

Lemma zeros_pos map n : 0 < zeros map n ↔ ∃ i, 0 ≤ i < n ∧ bit map i = false.
Proof.
  unfold zeros. rewrite countz_pos. split; intros (i & Hi & Hb); exists i; (split; [lia|]); by apply negb_true_iff.
Qed.

Lemma zeros_bounds map n : 0 ≤ n → 0 ≤ zeros map n ≤ n.
Proof. intros Hn. unfold zeros. pose proof (countz_bounds (λ i, negb (bit map i)) (Z.to_nat n)). lia. Qed.

(** The table of nibbles counts zeros. *)
Lemma nibblemap_spec b :
  0 ≤ b < 256 →
  ∃ lo hi, nibblemap !z Z.land b 0xf = Some lo ∧ nibblemap !z Z.land (Z.shiftr b 4) 0xf = Some hi
    ∧ lo + hi = countz (λ i, negb (Z.testbit b i)) 8.
Proof.
  intros Hb.
  assert (Hall : Forall (λ b, default (-1) (nibblemap !z Z.land b 0xf) + default (-1) (nibblemap !z Z.land (Z.shiftr b 4) 0xf)
     = countz (λ i, negb (Z.testbit b i)) 8 ∧ is_Some (nibblemap !z Z.land b 0xf)
     ∧ is_Some (nibblemap !z Z.land (Z.shiftr b 4) 0xf)) (seqZ 0 256)).
  { apply (bool_decide_unpack _). by vm_compute. }
  rewrite Forall_forall in Hall. destruct (Hall b) as (Hs & [lo Hlo] & [hi Hhi]); [apply elem_of_seqZ; lia|].
  exists lo, hi. rewrite Hlo, Hhi in *. done.
Qed.

Lemma count_free_from_ok n map i sum :
  0 ≤ i → i + Z.of_nat n ≤ 4 * zlen map →
  count_free_from n map i sum = Some (sum + countz (λ j, negb (bit map (8 * i + j))) (n * 8)).
Proof.
  revert i sum. induction n as [|n IH]; intros i sum Hi Hlen; cbn [count_free_from]; [simpl; f_equal; lia|].
  destruct (byte_spec map i) as (b & -> & Hb & Hbits); [lia|]. cbn [mbind option_bind].
  destruct (nibblemap_spec b Hb) as (lo & hi & -> & -> & Hsum). cbn [mbind option_bind].
  rewrite IH by lia. f_equal. change (S n * 8)%nat with (8 + n * 8)%nat. rewrite countz_add.
  rewrite (countz_ext (λ j, negb (bit map (8 * i + j))) (λ j, negb (Z.testbit b j)) 8)
    by (intros j Hj; by rewrite Hbits by lia).
  rewrite Hsum, Z.add_assoc. f_equal. apply countz_ext. intros j Hj. do 2 f_equal. lia.
Qed.

Lemma count_free_ok map n :
  0 ≤ n ≤ 4 * zlen map → count_free map n = Some (zeros map (8 * n)).
Proof.
  intros Hn. unfold count_free, zeros. rewrite count_free_from_ok by lia. f_equal.
  replace (Z.to_nat n * 8)%nat with (Z.to_nat (8 * n)) by lia. by apply countz_ext.
Qed.

(** The first free bit, if there is one. *)
Lemma find_first_zero_bit_ok long map n :
  long = 32 ∨ long = 64 → words_ok map → 0 < n ≤ 32 * zlen map →
  ∃ k, find_first_zero_bit long map n = Some k ∧ 0 ≤ k ≤ n
    ∧ (k < n → bit map k = false) ∧ (0 < zeros map n → k < n).
Proof.
  intros Hlong Hw Hn. unfold find_first_zero_bit.
  destruct (find_next_zero_bit_ok long Hlong map n 0) as (k & -> & Hk & Hkz & Hall); [done|lia..|].
  change (Z.land 0 31) with 0 in *. change (Z.ldiff 0 31) with 0 in *.
  assert (Hs : skipped long 0 = 0) by (unfold skipped; by rewrite decide_False by lia). rewrite Hs in *.
  exists k. split_and!; [done|lia|lia|done|]. intros (x & Hx & Hb)%zeros_pos.
  destruct (decide (k < n)); [done|]. rewrite Hall in Hb by lia. done.
Qed.
