(* ===== verification/Balloc.v ===== *)
(** * ext2: allocation of blocks (src/ext2fs/balloc.c)

    The blocks of a file system are divided into groups, each with a bitmap and a
    descriptor that counts its free blocks; the superblock counts them all.
    [ext2_new_block] looks for a free block near a goal and takes it, with free
    ones behind it in advance; [ext2_free_blocks] gives blocks back.  The theorems
    are that the bitmaps change by exactly these blocks, that a block is found if
    one is free, and that the counts stay right.

    The lock is held for all of each function.  Left out is what marks a block of
    the cache as changed.  Errors that are printed are in [messages]; [None] is a
    failed assertion, a panic, or an access outside of an array. *)

From S2P Require Import Prelude Bitmap.

Definition u16 (z : Z) : Z := z mod 2 ^ 16.

Record ext2_group_desc := mk_gdp {
  bg_block_bitmap : Z;
  bg_inode_bitmap : Z;
  bg_inode_table : Z;
  bg_free_blocks_count : Z;
  bg_free_inodes_count : Z;
  bg_used_dirs_count : Z
}.

(** What does not change while the file system is in use; [store_blocks] is the
    size of the store in blocks. *)
Record geometry := mk_geometry {
  s_blocks_count : Z;
  s_first_data_block : Z;
  s_blocks_per_group : Z;
  groups_count : Z;
  itb_per_group : Z;
  group_desc_block_end : Z;
  store_blocks : Z
}.

Inductive message :=
| Not_in_datazone (block count : Z)
| Already_cleared (block : Z)
| Already_set (bit : Z)
| Count_corrupted (group : Z)
| Beyond_end (group block : Z)
| Inode_invalid (inum : Z)
| Inode_already_cleared (inum : Z)
| Inode_already_set (bit : Z)
| Inode_count_corrupted (group : Z)
| Inode_beyond_end (group inum : Z).

(** The blocks in the cache, by number, are lists of words; [freed] is what the
    journal is told. *)
Record fs := mk_fs {
  s_free_blocks_count : Z;
  groups : list ext2_group_desc;
  cache : gmap Z (list Z);
  modified_global_blocks : option (list Z);
  freed : list (Z * Z);
  messages : list message
}.

Definition set_free_count (n : Z) (gdp : ext2_group_desc) : ext2_group_desc :=
  mk_gdp (bg_block_bitmap gdp) (bg_inode_bitmap gdp) (bg_inode_table gdp) n (bg_free_inodes_count gdp)
    (bg_used_dirs_count gdp).

Definition say (m : message) (f : fs) : fs :=
  mk_fs (s_free_blocks_count f) (groups f) (cache f) (modified_global_blocks f) (freed f) (messages f ++ [m]).

Definition in_range (b first len : Z) : bool := bool_decide (first ≤ b ∧ b ≤ u64 (first + len - 1)).

Section balloc.
Context (long : Z) (g : geometry).

Abbreviation pg := (s_blocks_per_group g).
Abbreviation first := (s_first_data_block g).

(** ** Freeing *)
(** The bits from [bit + i], with the bitmap, the two counts and the messages. *)
Fixpoint free_bits (n : nat) (bit block i : Z) (bh : list Z) (gfree sfree : Z) (msgs : list message)
    : option (list Z * Z * Z * list message) :=
  match n with
  | O => Some (bh, gfree, sfree, msgs)
  | S n' =>
      '(old, bh) ← clear_bit (u32 (bit + i)) bh;
      if old : bool then free_bits n' bit block (i + 1) bh (u16 (gfree + 1)) (u32 (sfree + 1)) msgs
      else free_bits n' bit block (i + 1) bh gfree sfree (msgs ++ [Already_cleared (block + i)])
  end.

Definition in_system_zone (block gcount : Z) (gdp : ext2_group_desc) : bool :=
  in_range (bg_block_bitmap gdp) block gcount || in_range (bg_inode_bitmap gdp) block gcount
  || in_range block (bg_inode_table gdp) (itb_per_group g)
  || in_range (u64 (block + gcount - 1)) (bg_inode_table gdp) (itb_per_group g).

Fixpoint free_groups (fuel : nat) (block count : Z) (f : fs) : option fs :=
  match fuel with
  | O => None
  | S fuel' =>
      let block_group := u32 (block - first) / pg in
      let bit := u32 (block - first) mod pg in
      let gcount := if decide (pg < bit + count) then count - (bit + count - pg) else count in
      gdp ← groups f !z block_group;
      bh ← cache f !! bg_block_bitmap gdp;
      if in_system_zone block gcount gdp then None else
      '(bh, gfree, sfree, msgs) ←
        free_bits (Z.to_nat gcount) bit block 0 bh (bg_free_blocks_count gdp) (s_free_blocks_count f) (messages f);
      let f :=
        mk_fs sfree (updz block_group (set_free_count gfree gdp) (groups f))
          (<[bg_block_bitmap gdp := bh]> (cache f)) (modified_global_blocks f)
          (freed f ++ [(block, gcount)]) msgs in
      if decide (0 < count - gcount) then free_groups fuel' (u32 (block + gcount)) (count - gcount) f
      else Some f
  end.

Definition ext2_free_blocks (block count : Z) (f : fs) : option fs :=
  if decide (group_desc_block_end g ≤ block ∧ block + count ≤ store_blocks g) then
    if decide (block < first ∨ s_blocks_count g < block + count) then Some (say (Not_in_datazone block count) f)
    else free_groups (S (Z.to_nat count)) block count f
  else None.

(** ** Searching *)
(** Whether the block is taken, or a free byte was found from which to go back. *)
Inductive place := Got (j : Z) | Back (j : Z) | Nowhere.

(** A free bit among the 32 behind bit [j]. *)
Definition near_goal (j : Z) (bh : list Z) : option (option Z) :=
  lmap ← (if decide (Z.land j 31 = 31) then Some 0
          else w ← bh !z Z.shiftr j 5; Some (Z.shiftr w (Z.land j 31 + 1)));
  lmap ← (if decide (j < u32 (pg - 32))
          then w ← bh !z (Z.shiftr j 5 + 1); Some (u32 (Z.lor lmap (Z.shiftl w (31 - Z.land j 31))))
          else Some (u32 (Z.lor lmap (Z.shiftl UINT32_MAX (31 - Z.land j 31)))));
  if decide (lmap ≠ UINT32_MAX) then
    let k := ffz lmap + 1 in
    Some (if decide (j + k < pg) then Some (j + k) else None)
  else Some None.

Definition search_goal_group (j : Z) (bh : list Z) : option place :=
  b ← test_bit j bh;
  if negb b then Some (Got j) else
  near ← (if decide (j ≠ 0) then near_goal j bh else Some None);
  match near with
  | Some j' => Some (Got j')
  | None =>
      r ← memscan (Z.to_nat (Z.shiftr (u32 (pg - j + 7)) 3)) bh (Z.shiftr j 3);
      if decide (Z.shiftl r 3 < pg) then Some (Back (Z.shiftl r 3)) else
      k ← find_next_zero_bit long bh pg j;
      Some (if decide (k < pg) then Got k else Nowhere)
  end.

(** The next group with free blocks behind group [i], cyclically. *)
Fixpoint next_group (n : nat) (i : Z) (gs : list ext2_group_desc) : option (option Z) :=
  match n with
  | O => Some None
  | S n' =>
      let i := if decide (groups_count g ≤ i + 1) then 0 else i + 1 in
      gdp ← gs !z i;
      if decide (0 < bg_free_blocks_count gdp) then Some (Some i) else next_group n' i gs
  end.

Definition search_group (bh : list Z) : option place :=
  r ← memscan (Z.to_nat (Z.shiftr pg 3)) bh 0;
  if decide (Z.shiftl r 3 < pg) then Some (Back (Z.shiftl r 3)) else
  j ← find_first_zero_bit long bh pg;
  Some (if decide (pg ≤ j) then Nowhere else Back j).

Fixpoint search_back (n : nat) (j : Z) (bh : list Z) : option Z :=
  match n with
  | O => Some j
  | S n' =>
      if decide (0 < j) then b ← test_bit (j - 1) bh; if b : bool then Some j else search_back n' (j - 1) bh
      else Some j
  end.

Inductive search := Found (i j : Z) | Full | Corrupted (i : Z).

(** From the place in group [i]; [next] is what follows if there is none. *)
Definition settle (i : Z) (bh : list Z) (p : place) (next : option search) : option search :=
  match p with
  | Got j => Some (Found i j)
  | Back j => j ← search_back 7 j bh; Some (Found i j)
  | Nowhere => next
  end.

Definition other_groups (i : Z) (f : fs) : option search :=
  n ← next_group (Z.to_nat (groups_count g)) i (groups f);
  match n with
  | None => Some Full
  | Some i =>
      gdp ← groups f !z i; bh ← cache f !! bg_block_bitmap gdp;
      p ← search_group bh;
      settle i bh p (Some (Corrupted i))
  end.

Definition find_block (goal : Z) (f : fs) : option search :=
  let goal := if decide (goal < first ∨ s_blocks_count g ≤ goal) then first else goal in
  let i := u32 (goal - first) / pg in
  gdp ← groups f !z i;
  if decide (0 < bg_free_blocks_count gdp) then
    bh ← cache f !! bg_block_bitmap gdp;
    p ← search_goal_group (u32 (goal - first) mod pg) bh;
    settle i bh p (other_groups i f)
  else other_groups i f.

(** ** Taking *)
Definition clear_modified (block : Z) (m : option (list Z)) : option (option (list Z)) :=
  match m with
  | None => Some None
  | Some m => '(_, m) ← clear_bit (u32 block) m; Some (Some m)
  end.

(** The blocks behind the one that is taken, from the [k]-th; the number of blocks,
    the bitmap and the other bitmap. *)
Fixpoint preallocate (n : nat) (j tmp k count : Z) (bh : list Z) (m : option (list Z))
    : option (Z * list Z * option (list Z)) :=
  match n with
  | O => Some (count, bh, m)
  | S n' =>
      if decide (j + k < pg) then
        '(old, bh) ← set_bit (j + k) bh;
        if old : bool then Some (count, bh, m)
        else m ← clear_modified (tmp + k) m; preallocate n' j tmp (k + 1) (count + 1) bh m
      else Some (count, bh, m)
  end.

(** The last assertion; [j] is an [int]. *)
Definition block_trapped (j : Z) : bool :=
  negb (bool_decide (j = 0) || (bool_decide (group_desc_block_end g ≤ s32 j) && bool_decide (s32 j < store_blocks g))).

(** The block with the number of blocks and the first one that are taken in
    advance; [inl] is the jump back to [repeat]. *)
Definition got_block (prealloc_goal i j : Z) (f : fs) : option (fs + (Z * option (Z * Z) * fs)) :=
  gdp ← groups f !z i;
  bh ← cache f !! bg_block_bitmap gdp;
  let tmp := u32 (j + i * pg + first) in
  if bool_decide (tmp = bg_block_bitmap gdp ∨ tmp = bg_inode_bitmap gdp)
     || in_range tmp (bg_inode_table gdp) (itb_per_group g) then None else
  '(old, bh) ← set_bit j bh;
  if old : bool then Some (inl (say (Already_set j) f)) else
  m ← clear_modified tmp (modified_global_blocks f);
  '(count, bh, m) ←
    (if decide (prealloc_goal ≠ 0) then preallocate (Z.to_nat (prealloc_goal - 1)) j tmp 1 0 bh m
     else Some (0, bh, m));
  let prealloc := if decide (prealloc_goal ≠ 0) then Some (count, u32 (tmp + 1)) else None in
  let gfree := u16 (bg_free_blocks_count gdp - count) in
  let sfree := u32 (s_free_blocks_count f - count) in
  let leave gfree sfree msgs :=
    mk_fs sfree (updz i (set_free_count gfree gdp) (groups f)) (<[bg_block_bitmap gdp := bh]> (cache f)) m
      (freed f) msgs in
  if decide (s_blocks_count g ≤ tmp) then
    Some (inr (0, prealloc, leave gfree sfree (messages f ++ [Beyond_end i tmp])))
  else if block_trapped tmp then None
  else Some (inr (tmp, prealloc, leave (u16 (gfree - 1)) (u32 (sfree - 1)) (messages f))).

Fixpoint ext2_new_block (tries : nat) (goal prealloc_goal : Z) (f : fs) : option (Z * option (Z * Z) * fs) :=
  match tries with
  | O => None
  | S tries' =>
      s ← find_block goal f;
      match s with
      | Full => Some (0, None, f)
      | Corrupted i => Some (0, None, say (Count_corrupted i) f)
      | Found i j =>
          r ← got_block prealloc_goal i j f;
          match r with
          | inl f => ext2_new_block tries' goal prealloc_goal f
          | inr r => Some r
          end
      end
  end.
End balloc.

(** ** Searches find free bits *)
Section search_proofs.
Context (long : Z) (g : geometry).
Hypothesis Hlong : long = 32 ∨ long = 64.

Abbreviation pg := (s_blocks_per_group g).

Hypothesis Hpg : 32 ≤ pg < 2 ^ 16 ∧ pg mod 8 = 0.

Definition map_ok (map : list Z) : Prop := words_ok map ∧ pg ≤ 32 * zlen map.

(** Bit [i] of the window is free only if the bit behind the goal is. *)
Lemma window_bits j bh lmap i :
  0 ≤ j → 0 ≤ i < 32 →
  (if decide (Z.land j 31 = 31) then Some 0
   else w ← bh !z Z.shiftr j 5; Some (Z.shiftr w (Z.land j 31 + 1))) = Some lmap →
  i < 31 - j mod 32 → Z.testbit lmap i = bit bh (j + 1 + i).
Proof.
  intros Hj Hi Hl Hlt. assert (Hm : Z.land j 31 = j mod 32) by (change 31 with (Z.ones 5); by rewrite Z.land_ones by lia).
  rewrite Hm, shiftr_5 in Hl. pose proof (Z.mod_pos_bound j 32). rewrite decide_False in Hl by lia.
  destruct (bh !z (j / 32)) as [w|] eqn:Hw; [|done]. injection Hl as <-. rewrite Z.shiftr_spec by lia.
  unfold bit. replace ((j + 1 + i) / 32) with (j / 32) by (Z.div_mod_to_equations; lia). rewrite Hw. f_equal.
  Z.div_mod_to_equations; lia.
Qed.

(** The word behind the goal joins the window, or nothing if the group ends. *)
Lemma window_ok j bh lmap :
  map_ok bh → 0 ≤ j < pg → (∀ i, 0 ≤ i < 32 → i < 31 - j mod 32 → Z.testbit lmap i = bit bh (j + 1 + i)) →
  ∃ lmap', (if decide (j < u32 (pg - 32))
      then w ← bh !z (j / 32 + 1); Some (u32 (Z.lor lmap (Z.shiftl w (31 - j mod 32))))
      else Some (u32 (Z.lor lmap (Z.shiftl UINT32_MAX (31 - j mod 32))))) = Some lmap' ∧ 0 ≤ lmap' < 2 ^ 32
    ∧ ∀ i, 0 ≤ i < 32 → Z.testbit lmap' i = false → bit bh (j + 1 + i) = false.
Proof.
  intros [Hw Hlen] Hj Hbits. pose proof (Z.mod_pos_bound j 32 ltac:(lia)) as Hmod. case_decide as Hroom.
  - rewrite u32_id in Hroom by lia. destruct (word_is_Some bh (j + 32)) as [w Hw1]; [lia|].
    replace ((j + 32) / 32) with (j / 32 + 1) in Hw1 by (Z.div_mod_to_equations; lia). rewrite Hw1.
    eexists. split; [done|]. split; [apply u32_range|]. intros i Hi Hb. unfold u32 in Hb.
    rewrite Z.mod_pow2_bits_low, Z.lor_spec in Hb by lia. apply orb_false_iff in Hb as [Hb1 Hb2].
    destruct (decide (i < 31 - j mod 32)); [by rewrite <-Hbits by (done || lia)|].
    rewrite Z.shiftl_spec in Hb2 by lia. unfold bit.
    replace ((j + 1 + i) / 32) with (j / 32 + 1) by (Z.div_mod_to_equations; lia). rewrite Hw1, <-Hb2. f_equal.
    Z.div_mod_to_equations; lia.
  - eexists. split; [done|]. split; [apply u32_range|]. intros i Hi Hb. unfold u32 in Hb.
    rewrite Z.mod_pow2_bits_low, Z.lor_spec in Hb by lia. apply orb_false_iff in Hb as [Hb1 Hb2].
    destruct (decide (i < 31 - j mod 32)); [by rewrite <-Hbits by (done || lia)|].
    rewrite Z.shiftl_spec in Hb2 by lia. change UINT32_MAX with (Z.ones 32) in Hb2.
    rewrite Z.ones_spec_low in Hb2 by lia. done.
Qed.

Lemma near_goal_ok j bh :
  map_ok bh → 0 ≤ j < pg →
  ∃ r, near_goal g j bh = Some r ∧ ∀ j', r = Some j' → 0 ≤ j' < pg ∧ bit bh j' = false.
Proof.
  intros Hok Hj. unfold near_goal. pose proof Hok as [_ Hlen].
  assert (Hm : Z.land j 31 = j mod 32) by (change 31 with (Z.ones 5); by rewrite Z.land_ones by lia).
  assert (∃ lmap, (if decide (Z.land j 31 = 31) then Some 0
     else w ← bh !z Z.shiftr j 5; Some (Z.shiftr w (Z.land j 31 + 1))) = Some lmap) as [lmap Hl].
  { case_decide; [by eexists|]. rewrite shiftr_5. destruct (word_is_Some bh j) as [w ->]; [lia|]. by eexists. }
  pose proof (λ i Hi, window_bits j bh lmap i (proj1 Hj) Hi Hl) as Hbits. rewrite Hl. cbn [mbind option_bind].
  rewrite Hm, shiftr_5. destruct (window_ok j bh lmap Hok Hj Hbits) as (lmap' & -> & Hr & Hfree).
  cbn [mbind option_bind]. destruct (decide (lmap' ≠ UINT32_MAX)) as [Hne|Hne]; [|exists None; split; [done|intros ? [=]]]. eexists. split; [done|].
  destruct (ffz_spec lmap' Hr Hne) as (Hf & Hz & _). intros j' He. case_decide as Hin; [|done]. injection He as <-.
  split; [lia|]. replace (j + (ffz lmap' + 1)) with (j + 1 + ffz lmap') by lia. by apply Hfree.
Qed.

Lemma shiftr_3 n : Z.shiftr n 3 = n / 8.
Proof. by rewrite Z.shiftr_div_pow2 by lia. Qed.

Lemma shiftl_3 n : Z.shiftl n 3 = 8 * n.
Proof. rewrite Z.shiftl_mul_pow2 by lia. lia. Qed.

(** A place where a bit is free. *)
Definition place_ok (bh : list Z) (p : place) : Prop :=
  match p with
  | Got j | Back j => 0 ≤ j < pg ∧ bit bh j = false
  | Nowhere => True
  end.

Lemma search_goal_group_ok j bh :
  map_ok bh → 0 ≤ j < pg →
  ∃ p, search_goal_group long g j bh = Some p ∧ place_ok bh p ∧ (bit bh j = false → p = Got j).
Proof.
  intros Hok Hj. pose proof Hok as [Hw Hlen]. unfold search_goal_group. rewrite test_bit_ok by lia.
  cbn [mbind option_bind]. destruct (bit bh j) eqn:Hb; [|by exists (Got j)]. cbn [negb].
  assert (∃ r, (if decide (j ≠ 0) then near_goal g j bh else Some None) = Some r
     ∧ ∀ j', r = Some j' → 0 ≤ j' < pg ∧ bit bh j' = false) as (r & -> & Hr).
  { case_decide; [by apply near_goal_ok|exists None; split; [done|intros ? [=]]]. }
  cbn [mbind option_bind]. destruct r as [j'|]; [exists (Got j'); split_and!; try done; by apply Hr|].
  rewrite shiftr_3, shiftr_3, u32_id by lia.
  destruct (memscan_ok (Z.to_nat ((pg - j + 7) / 8)) bh (j / 8)) as (r & -> & Hrange & Hz);
    [Z.div_mod_to_equations; lia..|].
  cbn [mbind option_bind]. rewrite shiftl_3. case_decide as Hlt.
  { exists (Back (8 * r)). split; [done|]. split; [|done]. split; [Z.div_mod_to_equations; lia|].
    apply Hz; [Z.div_mod_to_equations; lia|lia]. }
  destruct (find_next_zero_bit_ok long Hlong bh pg j) as (k & -> & Hk & Hkz & _); [done|lia..|].
  cbn [mbind option_bind]. eexists. split; [done|]. split; [|done]. case_decide; [|done].
  split; [|by apply Hkz]. pose proof (Z.land_nonneg j 31). assert (0 ≤ Z.ldiff j 31) by (apply Z.ldiff_nonneg; lia).
  unfold skipped in Hk. case_decide; lia.
Qed.

Lemma search_group_ok bh :
  map_ok bh →
  ∃ p, search_group long g bh = Some p ∧ place_ok bh p ∧ (0 < zeros bh pg → p ≠ Nowhere).
Proof.
  intros [Hw Hlen]. unfold search_group. rewrite shiftr_3.
  destruct (memscan_ok (Z.to_nat (pg / 8)) bh 0) as (r & -> & Hrange & Hz); [Z.div_mod_to_equations; lia..|].
  cbn [mbind option_bind]. rewrite shiftl_3. case_decide as Hlt.
  { exists (Back (8 * r)). split; [done|]. split; [|done]. split; [Z.div_mod_to_equations; lia|].
    apply Hz; [Z.div_mod_to_equations; lia|lia]. }
  destruct (find_first_zero_bit_ok long bh pg Hlong Hw) as (k & -> & Hk & Hkz & Hpos); [lia|].
  cbn [mbind option_bind]. eexists. split; [done|]. destruct (decide (pg ≤ k)) as [Hge|Hge].
  - split; [done|]. intros Hzs. specialize (Hpos Hzs). lia.
  - split; [|done]. split; [lia|]. apply Hkz. lia.
Qed.

Lemma search_back_ok n j bh :
  map_ok bh → 0 ≤ j < pg → bit bh j = false →
  ∃ j', search_back n j bh = Some j' ∧ 0 ≤ j' ≤ j ∧ bit bh j' = false.
Proof.
  intros [Hw Hlen]. revert j. induction n as [|n IH]; intros j Hj Hb; cbn [search_back]; [by exists j; split_and!; try lia|].
  case_decide; [|exists j; split_and!; done || lia]. rewrite test_bit_ok by lia. cbn [mbind option_bind].
  destruct (bit bh (j - 1)) eqn:Hp; [exists j; split_and!; done || lia|].
  destruct (IH (j - 1)) as (j' & -> & Hr & Hb'); [lia|done|]. exists j'. split_and!; done || lia.
Qed.

(** The search over the groups visits each of them. *)
Lemma next_group_ok n i gs :
  zlen gs = groups_count g → 0 ≤ i < groups_count g →
  ∃ r, next_group g n i gs = Some r
    ∧ match r with
      | Some i' => ∃ gdp, gs !z i' = Some gdp ∧ 0 < bg_free_blocks_count gdp
      | None => ∀ m gdp, 1 ≤ m ≤ Z.of_nat n → gs !z ((i + m) mod groups_count g) = Some gdp → bg_free_blocks_count gdp ≤ 0
      end.
Proof.
  intros Hlen. revert i. induction n as [|n IH]; intros i Hi; cbn [next_group]; [exists None; split; [done|lia]|].
  set (i1 := if decide (groups_count g ≤ i + 1) then 0 else i + 1).
  assert (Hi1 : i1 = (i + 1) mod groups_count g ∧ 0 ≤ i1 < groups_count g).
  { unfold i1. case_decide as Hd.
    - assert (i + 1 = groups_count g) as -> by lia. rewrite Z.mod_same by lia. lia.
    - rewrite Z.mod_small by lia. lia. }
  destruct (lookupz_is_Some gs i1) as [gdp Hgdp]; [lia|]. rewrite Hgdp. cbn [mbind option_bind].
  case_decide as Hc; [exists (Some i1); split; [done|by exists gdp]|].
  destruct (IH i1) as (r & -> & Hr); [lia|]. exists r. split; [done|]. destruct r as [i'|]; [done|].
  intros m gdp' Hm Hg. destruct (decide (m = 1)) as [->|].
  - rewrite <-(proj1 Hi1), Hgdp in Hg. injection Hg as <-. lia.
  - apply (Hr (m - 1)); [lia|]. rewrite (proj1 Hi1), Z.add_mod_idemp_l by lia.
    by replace (i + 1 + (m - 1)) with (i + m) by lia.
Qed.

Lemma next_group_all i gs r :
  zlen gs = groups_count g → 0 ≤ i < groups_count g → next_group g (Z.to_nat (groups_count g)) i gs = Some r →
  match r with
  | Some i' => ∃ gdp, gs !z i' = Some gdp ∧ 0 < bg_free_blocks_count gdp
  | None => ∀ x gdp, gs !z x = Some gdp → bg_free_blocks_count gdp ≤ 0
  end.
Proof.
  intros Hlen Hi Hn. destruct (next_group_ok (Z.to_nat (groups_count g)) i gs Hlen Hi) as (r' & Hr' & Hres).
  rewrite Hn in Hr'. injection Hr' as <-. destruct r as [i'|]; [done|]. intros x gdp Hx.
  pose proof (lookupz_lt _ _ _ Hx) as Hxr. pose proof (Z.mod_pos_bound (x - i - 1) (groups_count g) ltac:(lia)).
  apply (Hres ((x - i - 1) mod groups_count g + 1)); [lia|].
  replace (i + ((x - i - 1) mod groups_count g + 1)) with ((x - i - 1) mod groups_count g + (i + 1)) by lia.
  rewrite Z.add_mod_idemp_l by lia. replace (x - i - 1 + (i + 1)) with x by lia. by rewrite Z.mod_small by lia.
Qed.
End search_proofs.

(** ** Sums over the groups *)
Fixpoint sum_of (p : ext2_group_desc → Z) (gs : list ext2_group_desc) : Z :=
  match gs with [] => 0 | gdp :: gs' => p gdp + sum_of p gs' end.

Lemma sum_of_updz p gs i gdp gdp' :
  gs !z i = Some gdp → sum_of p (updz i gdp' gs) = sum_of p gs + p gdp' - p gdp.
Proof.
  unfold lookupz, updz. case_decide; [|done]. revert gs. induction (Z.to_nat i) as [|n IH]; intros [|x gs] Hx; try done.
  - simpl in *. injection Hx as ->. lia.
  - simpl in *. rewrite IH by done. lia.
Qed.

Lemma sum_of_bounds p n gs :
  (∀ i gdp, gs !z i = Some gdp → 0 ≤ p gdp ≤ n) → 0 ≤ sum_of p gs ≤ n * zlen gs.
Proof.
  induction gs as [|x gs IH]; intros Hall; [simpl; lia|].
  pose proof (Hall 0 x eq_refl) as Hx. simpl. assert (0 ≤ sum_of p gs ≤ n * zlen gs); [|lia].
  apply IH. intros i gdp Hi. apply (Hall (1 + i)). pose proof (lookupz_lt _ _ _ Hi). rewrite <-Hi. by apply (lookupz_app_r [x]); lia.
Qed.

(** ** Free blocks *)
Section state.
Context (g : geometry).

Abbreviation pg := (s_blocks_per_group g).
Abbreviation first := (s_first_data_block g).

Record geometry_ok : Prop := {
  go_pg : 32 ≤ pg < 2 ^ 16 ∧ pg mod 8 = 0;
  go_first : 0 ≤ first < s_blocks_count g;
  go_count : s_blocks_count g ≤ 2 ^ 31;
  go_groups : first + (groups_count g - 1) * pg < s_blocks_count g ≤ first + groups_count g * pg;
  go_reserved : 0 < group_desc_block_end g;
  go_table : 0 < itb_per_group g < 2 ^ 32
}.

(** The first block of group [i]. *)
Definition start (i : Z) : Z := first + i * pg.

(** A block that may be handed out. *)
Definition usable (gdp : ext2_group_desc) (n : Z) : Prop :=
  n < s_blocks_count g ∧ group_desc_block_end g ≤ n < store_blocks g
  ∧ n ≠ bg_block_bitmap gdp ∧ n ≠ bg_inode_bitmap gdp
  ∧ ¬ (bg_inode_table gdp ≤ n < bg_inode_table gdp + itb_per_group g).

Record group_ok (i : Z) (gdp : ext2_group_desc) (map : list Z) : Prop := {
  gr_map : map_ok g map;
  gr_count : bg_free_blocks_count gdp = zeros map pg;
  gr_usable j : 0 ≤ j < pg → bit map j = false → usable gdp (start i + j);
  gr_table : 0 ≤ bg_inode_table gdp < 2 ^ 32
}.

Abbreviation total := (sum_of bg_free_blocks_count).

Definition modified_ok (m : option (list Z)) : Prop :=
  match m with Some m => words_ok m ∧ start (groups_count g) ≤ 32 * zlen m | None => True end.

Record fs_ok (f : fs) : Prop := {
  fo_groups : zlen (groups f) = groups_count g;
  fo_group i gdp : groups f !z i = Some gdp → ∃ map, cache f !! bg_block_bitmap gdp = Some map ∧ group_ok i gdp map;
  fo_distinct i i' gdp gdp' : groups f !z i = Some gdp → groups f !z i' = Some gdp' →
    bg_block_bitmap gdp = bg_block_bitmap gdp' → i = i';
  fo_total : s_free_blocks_count f = total (groups f);
  fo_modified : modified_ok (modified_global_blocks f)
}.

(** Whether bit [j] of group [i], and block [n], is free. *)
Definition free_in (f : fs) (i j : Z) : bool :=
  match gdp ← groups f !z i; cache f !! bg_block_bitmap gdp with Some map => negb (bit map j) | None => false end.

Definition is_free (f : fs) (n : Z) : bool :=
  bool_decide (first ≤ n) && free_in f ((n - first) / pg) ((n - first) mod pg).

Hypothesis Hg : geometry_ok.

Lemma count_bounds f i gdp : fs_ok f → groups f !z i = Some gdp → 0 ≤ bg_free_blocks_count gdp ≤ pg.
Proof.
  intros Hf Hi. destruct (fo_group f Hf i gdp Hi) as (map & _ & [_ -> _ _]).
  apply zeros_bounds. destruct (go_pg Hg). lia.
Qed.

Lemma free_count_bounds f : fs_ok f → 0 ≤ s_free_blocks_count f < 2 ^ 32.
Proof.
  intros Hf. rewrite (fo_total f Hf).
  pose proof (sum_of_bounds _ pg (groups f) (λ i gdp, count_bounds f i gdp Hf)) as Hb. rewrite (fo_groups f Hf) in Hb.
  destruct Hg as [[? _] ? ? ? _ _]. nia.
Qed.

(** A change of the bitmap of one group, with its counts. *)
Definition changed (i : Z) (gdp : ext2_group_desc) (map : list Z) (d : Z) (m : option (list Z))
    (fr : list (Z * Z)) (msgs : list message) (f : fs) : fs :=
  mk_fs (s_free_blocks_count f + d) (updz i (set_free_count (bg_free_blocks_count gdp + d) gdp) (groups f))
    (<[bg_block_bitmap gdp := map]> (cache f)) m fr msgs.

Lemma changed_ok i gdp map map' d m fr msgs f :
  fs_ok f → groups f !z i = Some gdp → cache f !! bg_block_bitmap gdp = Some map →
  map_ok g map' → d = zeros map' pg - zeros map pg → modified_ok m →
  (∀ j, 0 ≤ j < pg → bit map' j = false → usable gdp (start i + j)) →
  fs_ok (changed i gdp map' d m fr msgs f).
Proof.
  intros Hf Hi Hc Hm -> Hmod Hus. pose proof (lookupz_lt _ _ _ Hi) as Hlt.
  destruct (fo_group f Hf i gdp Hi) as (map0 & Hc0 & [Hm0 Hcnt _ Ht]). rewrite Hc in Hc0. injection Hc0 as <-.
  assert (Hlook : ∀ i' gdp', groups (changed i gdp map' (zeros map' pg - zeros map pg) m fr msgs f) !z i' = Some gdp' →
    ∃ gdp0, groups f !z i' = Some gdp0 ∧ bg_block_bitmap gdp' = bg_block_bitmap gdp0
      ∧ (i' ≠ i → gdp' = gdp0) ∧ (i' = i → gdp0 = gdp ∧ gdp' = set_free_count (zeros map' pg) gdp)).
  { intros i' gdp' Hi'. simpl in Hi'. destruct (decide (i' = i)) as [->|].
    - rewrite lookupz_updz_eq in Hi' by lia. injection Hi' as <-. exists gdp. split_and!; try done.
      intros _. split; [done|]. f_equal. lia.
    - rewrite lookupz_updz_ne in Hi' by done. by exists gdp'. }
  split.
  - simpl. rewrite length_updz. apply Hf.
  - intros i' gdp' Hi'. destruct (Hlook i' gdp' Hi') as (gdp0 & H0 & Hbm & Hne & He). simpl.
    destruct (decide (i' = i)) as [->|Hd].
    + destruct (He eq_refl) as [-> ->]. simpl. rewrite lookup_insert_eq. exists map'. split; [done|]. by split.
    + rewrite (Hne Hd) in *. destruct (fo_group f Hf i' gdp0 H0) as (map2 & Hc2 & Hgr). exists map2. split; [|done].
      rewrite lookup_insert_ne; [done|]. intros E. apply Hd. symmetry. by apply (fo_distinct f Hf i i' gdp gdp0).
  - intros i1 i2 g1 g2 H1 H2 E. destruct (Hlook i1 g1 H1) as (g1' & H1' & E1 & _), (Hlook i2 g2 H2) as (g2' & H2' & E2 & _).
    apply (fo_distinct f Hf i1 i2 g1' g2'); [done..|congruence].
  - simpl. rewrite (sum_of_updz _ _ _ gdp) by done. rewrite (fo_total f Hf). simpl. lia.
  - done.
Qed.

Lemma changed_free i gdp map' d m fr msgs f i' j :
  fs_ok f → groups f !z i = Some gdp →
  free_in (changed i gdp map' d m fr msgs f) i' j = if decide (i' = i) then negb (bit map' j) else free_in f i' j.
Proof.
  intros Hf Hi. pose proof (lookupz_lt _ _ _ Hi) as Hlt. unfold free_in. simpl. case_decide as Hd.
  - subst i'. rewrite lookupz_updz_eq by lia. simpl. by rewrite lookup_insert_eq.
  - rewrite lookupz_updz_ne by done. destruct (groups f !z i') as [gdp'|] eqn:Hi'; [|done]. simpl.
    rewrite lookup_insert_ne; [done|]. intros E. apply Hd. symmetry. by apply (fo_distinct f Hf i i' gdp gdp').
Qed.

(** The groups are where they were. *)
Definition same_layout (f f' : fs) : Prop := set_free_count 0 <$> groups f' = set_free_count 0 <$> groups f.

(** Of the blocks in the cache at most the bitmaps are different. *)
Record bitmaps_only (f f' : fs) : Prop := {
  bo_layout : same_layout f f';
  bo_cache b : (∀ i gdp, groups f !z i = Some gdp → b ≠ bg_block_bitmap gdp) → cache f' !! b = cache f !! b
}.

Lemma same_layout_lookup f f' i gdp :
  same_layout f f' → groups f !z i = Some gdp →
  ∃ gdp', groups f' !z i = Some gdp' ∧ set_free_count 0 gdp' = set_free_count 0 gdp.
Proof.
  intros Hb Hi. unfold lookupz in *. case_decide; [|done].
  assert ((set_free_count 0 <$> groups f') !! Z.to_nat i = Some (set_free_count 0 gdp)) as Hl
    by (by rewrite Hb, list_lookup_fmap, Hi).
  rewrite list_lookup_fmap in Hl. destruct (groups f' !! Z.to_nat i) as [gdp'|]; [|done]. injection Hl as Hl.
  exists gdp'. split; [done|]. unfold set_free_count. congruence.
Qed.

#[global] Instance same_layout_equivalence : Equivalence same_layout.
Proof. split; [done|by intros f f'|]. intros f1 f2 f3 H12 H23. unfold same_layout in *. congruence. Qed.

#[global] Instance bitmaps_only_refl : Reflexive bitmaps_only.
Proof. by split. Qed.

#[global] Instance bitmaps_only_trans : Transitive bitmaps_only.
Proof.
  intros f1 f2 f3 H12 H23. split; [transitivity f2; [apply H12|apply H23]|]. intros b Hb.
  rewrite (bo_cache f2 f3 H23); [by apply H12|]. intros i gdp Hi ->.
  destruct (same_layout_lookup f2 f1 i gdp) as (gdp1 & Hi1 & He); [symmetry; apply H12|done|].
  apply (Hb i gdp1 Hi1). by injection He.
Qed.

Lemma changed_bitmaps_only i gdp map d m fr msgs f :
  groups f !z i = Some gdp → bitmaps_only f (changed i gdp map d m fr msgs f).
Proof.
  intros Hi. split; simpl.
  - unfold same_layout. simpl. unfold updz. rewrite list_fmap_insert. apply list_insert_id. unfold lookupz in Hi.
    case_decide; [|done]. by rewrite list_lookup_fmap, Hi.
  - intros b Hb. rewrite lookup_insert_ne; [done|]. intros E. by apply (Hb i gdp Hi).
Qed.

(** The number of a block in its group. *)
Lemma block_place i j : 0 ≤ j < pg → (start i + j - first) / pg = i ∧ (start i + j - first) mod pg = j.
Proof.
  intros Hj. replace (start i + j - first) with (i * pg + j) by (unfold start; lia).
  split; [rewrite Z.div_add_l, Z.div_small by lia; lia|].
  rewrite Z.add_comm, Z.mod_add, Z.mod_small by lia. lia.
Qed.

Lemma place_block n : n = start ((n - first) / pg) + (n - first) mod pg ∧ 0 ≤ (n - first) mod pg < pg.
Proof.
  destruct (go_pg Hg) as [? _]. unfold start. pose proof (Z.div_mod (n - first) pg). pose proof (Z.mod_pos_bound (n - first) pg). lia.
Qed.
End state.

(** ** Allocation *)
Section alloc.
Context (long : Z) (g : geometry).
Hypothesis Hlong : long = 32 ∨ long = 64.
Hypothesis Hg : geometry_ok g.

Abbreviation pg := (s_blocks_per_group g).
Abbreviation first := (s_first_data_block g).

Lemma free_in_map f i gdp map j :
  groups f !z i = Some gdp → cache f !! bg_block_bitmap gdp = Some map → free_in f i j = negb (bit map j).
Proof. intros Hi Hc. unfold free_in. rewrite Hi. simpl. by rewrite Hc. Qed.

Lemma free_in_Some f i j :
  fs_ok g f → free_in f i j = true →
  ∃ gdp map, groups f !z i = Some gdp ∧ cache f !! bg_block_bitmap gdp = Some map ∧ group_ok g i gdp map ∧ bit map j = false.
Proof.
  intros Hf Hfree. unfold free_in in Hfree. destruct (groups f !z i) as [gdp|] eqn:Hi; [|done]. simpl in Hfree.
  destruct (fo_group g f Hf i gdp Hi) as (map & Hc & Hgr). rewrite Hc in Hfree. exists gdp, map.
  split_and!; try done. by apply negb_true_iff.
Qed.

(** What a search may return. *)
Definition search_ok (f : fs) (s : search) : Prop :=
  match s with
  | Found i j => 0 ≤ j < pg ∧ free_in f i j = true
  | Full => ∀ i j, 0 ≤ j < pg → free_in f i j = false
  | Corrupted _ => False
  end.

Lemma settle_place_ok f i gdp bh p next :
  groups f !z i = Some gdp → cache f !! bg_block_bitmap gdp = Some bh → map_ok g bh → place_ok g bh p →
  (p = Nowhere → ∃ s, next = Some s ∧ search_ok f s) →
  ∃ s, settle i bh p next = Some s ∧ search_ok f s ∧ (∀ j, p = Got j → s = Found i j).
Proof.
  intros Hi Hc Hm Hp Hn. destruct p as [j|j|]; cbn [settle].
  - destruct Hp as [Hj Hb]. exists (Found i j). split_and!; [done| |by intros ? [= <-]].
    split; [done|]. by rewrite (free_in_map f i gdp bh), Hb.
  - destruct Hp as [Hj Hb]. destruct (search_back_ok g 7 j bh Hm Hj Hb) as (j' & -> & Hr & Hb').
    cbn [mbind option_bind]. exists (Found i j'). split_and!; try done. split; [lia|].
    by rewrite (free_in_map f i gdp bh), Hb'.
  - destruct (Hn eq_refl) as (s & Hs & Hok). by exists s.
Qed.

Lemma other_groups_ok i f :
  fs_ok g f → 0 ≤ i < groups_count g → ∃ s, other_groups long g i f = Some s ∧ search_ok f s.
Proof.
  intros Hf Hi. unfold other_groups.
  destruct (next_group_ok g (Z.to_nat (groups_count g)) i (groups f) (fo_groups g f Hf) Hi) as (r & Hr & _).
  pose proof (next_group_all g i (groups f) r (fo_groups g f Hf) Hi Hr) as Hres. rewrite Hr. cbn [mbind option_bind].
  destruct r as [i'|].
  - destruct Hres as (gdp & Hgdp & Hpos). rewrite Hgdp. cbn [mbind option_bind].
    destruct (fo_group g f Hf i' gdp Hgdp) as (map & Hc & [Hm Hcnt _ _]). rewrite Hc. cbn [mbind option_bind].
    destruct (search_group_ok long g Hlong (go_pg g Hg) map Hm) as (p & -> & Hp & Hnw). cbn [mbind option_bind].
    destruct (settle_place_ok f i' gdp map p (Some (Corrupted i'))) as (s & Hs & Hok & _); try done; [|by exists s].
    intros ->. by destruct Hnw; [rewrite <-Hcnt|].
  - exists Full. split; [done|]. intros i' j Hj. destruct (free_in f i' j) eqn:Hfree; [|done].
    destruct (free_in_Some f i' j Hf Hfree) as (gdp & map & Hgdp & Hc & [_ Hcnt _ _] & Hb).
    pose proof (Hres i' gdp Hgdp) as H0. rewrite Hcnt in H0.
    assert (0 < zeros map pg) by (apply zeros_pos; by exists j). lia.
Qed.

(** Free blocks are blocks of the file system. *)
Lemma is_free_usable f n :
  fs_ok g f → is_free g f n = true →
  first ≤ n < s_blocks_count g ∧ group_desc_block_end g ≤ n
  ∧ free_in f ((n - first) / pg) ((n - first) mod pg) = true.
Proof.
  intros Hf [Hge%bool_decide_eq_true Hfree]%andb_true_iff.
  destruct (free_in_Some f _ _ Hf Hfree) as (gdp & map & _ & _ & [_ _ Hus _] & Hb).
  destruct (place_block g Hg n) as [Hn Hmod]. pose proof (Hus _ Hmod Hb) as (? & ? & _). rewrite <-Hn in *. split_and!; lia || done.
Qed.

Lemma find_block_ok goal f :
  fs_ok g f →
  ∃ s, find_block long g goal f = Some s ∧ search_ok f s
    ∧ (is_free g f goal = true → s = Found ((goal - first) / pg) ((goal - first) mod pg)).
Proof.
  intros Hf. unfold find_block. set (goal1 := if decide _ then first else goal).
  destruct (go_first g Hg) as [H0 H1]. pose proof (go_count g Hg) as H31. destruct (go_pg g Hg) as [Hpg _].
  assert (Hgoal : first ≤ goal1 < s_blocks_count g) by (unfold goal1; case_decide; lia).
  assert (Hsame : is_free g f goal = true → goal1 = goal).
  { intros Hfree. destruct (is_free_usable f goal Hf Hfree) as (? & _). unfold goal1. rewrite decide_False by lia. done. }
  rewrite u32_id by lia. set (i := (goal1 - first) / pg). set (j := (goal1 - first) mod pg).
  assert (Hi : 0 ≤ i < groups_count g).
  { split; [apply Z.div_pos; lia|]. apply Z.div_lt_upper_bound; [lia|]. destruct (go_groups g Hg). lia. }
  assert (Hj : 0 ≤ j < pg) by (apply Z.mod_pos_bound; lia).
  destruct (lookupz_is_Some (groups f) i) as [gdp Hgdp]; [rewrite (fo_groups g f Hf); lia|]. rewrite Hgdp.
  cbn [mbind option_bind]. destruct (fo_group g f Hf i gdp Hgdp) as (map & Hc & [Hm Hcnt _ _]).
  destruct (other_groups_ok i f Hf Hi) as (s0 & Hs0 & Hok0). case_decide as Hpos.
  - rewrite Hc. cbn [mbind option_bind].
    destruct (search_goal_group_ok long g Hlong (go_pg g Hg) j map Hm Hj) as (p & -> & Hp & Hgot). cbn [mbind option_bind].
    destruct (settle_place_ok f i gdp map p (other_groups long g i f)) as (s & Hs & Hok & Hfd); try done; [by intros _; exists s0|].
    exists s. split_and!; try done. intros Hfree. pose proof (Hsame Hfree) as He.
    destruct (is_free_usable f goal Hf Hfree) as (_ & _ & Hin). rewrite <-He in Hin |- *.
    rewrite (free_in_map f _ gdp map) in Hin by done. by apply Hfd, Hgot, negb_true_iff.
  - exists s0. split_and!; try done. intros Hfree. pose proof (Hsame Hfree) as He.
    destruct (is_free_usable f goal Hf Hfree) as (_ & _ & Hin). rewrite <-He in Hin.
    rewrite (free_in_map f _ gdp map) in Hin by done. apply negb_true_iff in Hin.
    assert (0 < zeros map pg) by (apply zeros_pos; by exists j). lia.
Qed.
(** ** Taking blocks *)
Lemma start_bound i : 0 ≤ i < groups_count g → 0 ≤ start g i ∧ start g i + pg ≤ start g (groups_count g) < 2 ^ 32.
Proof. intros Hi. destruct Hg as [[? _] ? ? ? _ _]. unfold start. nia. Qed.

Lemma clear_modified_ok b m :
  modified_ok g m → 0 ≤ b < start g (groups_count g) → ∃ m', clear_modified b m = Some m' ∧ modified_ok g m'.
Proof.
  intros Hm Hb. destruct (go_groups g Hg), (go_first g Hg), (go_pg g Hg) as [? _]. unfold clear_modified.
  destruct m as [m|]; [|by exists None]. destruct Hm as [Hw Hlen].
  destruct (start_bound 0) as (_ & _ & ?); [nia|].
  destruct (clear_bit_ok (u32 b) m) as (m' & -> & Hw' & Hl' & _); [done|rewrite u32_id; lia|].
  exists (Some m'). split; [done|]. split; [done|]. by rewrite Hl'.
Qed.

(** A bit that is set lowers the number of free ones. *)
Lemma set_free_bit j bh :
  map_ok g bh → 0 ≤ j < pg → bit bh j = false →
  ∃ bh', set_bit j bh = Some (false, bh') ∧ map_ok g bh' ∧ zeros bh' pg = zeros bh pg - 1
    ∧ ∀ x, 0 ≤ x → bit bh' x = bit bh x || bool_decide (x = j).
Proof.
  intros [Hw Hlen] Hj Hb. destruct (set_bit_ok j bh) as (bh' & Hs & Hw' & Hl' & Hbits); [done|lia|].
  rewrite Hb in Hs. exists bh'. split_and!; try done; [split; [done|by rewrite Hl']|].
  rewrite (zeros_change bh bh' pg j); [|done|].
  - rewrite Hbits, Hb, bool_decide_true by lia. simpl. lia.
  - intros x Hx Hne. by rewrite Hbits, bool_decide_false, orb_false_r by done.
Qed.

(** What the preallocation of [c] blocks from bit [from] does to a bitmap. *)
Definition took (bh bh' : list Z) (from c : Z) : Prop :=
  map_ok g bh' ∧ zeros bh' pg = zeros bh pg - c ∧ 0 ≤ c
  ∧ (∀ x, from ≤ x < from + c → x < pg ∧ bit bh x = false)
  ∧ ∀ x, 0 ≤ x → bit bh' x = bit bh x || bool_decide (from ≤ x < from + c).

Lemma took_none bh from : map_ok g bh → took bh bh from 0.
Proof.
  intros Hm. split_and!; try done; try lia. intros x Hx. by rewrite bool_decide_false, orb_false_r by lia.
Qed.

Lemma took_cons bh bh1 bh2 j c :
  0 ≤ j < pg → bit bh j = false → zeros bh1 pg = zeros bh pg - 1 →
  (∀ x, 0 ≤ x → bit bh1 x = bit bh x || bool_decide (x = j)) →
  took bh1 bh2 (j + 1) c → took bh bh2 j (c + 1).
Proof.
  intros Hj Hb Hz Hbits (Hm & Hz2 & Hc & Hfree & Hbits2). split_and!; try done; try lia.
  - intros x Hx. destruct (decide (x = j)) as [->|]; [split; [lia|done]|].
    destruct (Hfree x) as [? Hbx]; [lia|]. rewrite Hbits in Hbx by lia. apply orb_false_iff in Hbx as [? _]. done.
  - intros x Hx. rewrite Hbits2, Hbits by done. rewrite <-orb_assoc. f_equal.
    apply eq_true_iff_eq. rewrite orb_true_iff, !bool_decide_eq_true. lia.
Qed.

Lemma preallocate_ok n i j k count bh m :
  0 ≤ i < groups_count g → 0 ≤ j → 0 ≤ k → map_ok g bh → modified_ok g m →
  ∃ c bh' m', preallocate g n j (start g i + j) k count bh m = Some (count + c, bh', m')
    ∧ took bh bh' (j + k) c ∧ c ≤ Z.of_nat n ∧ modified_ok g m'.
Proof.
  intros Hi Hj. revert k count bh m. induction n as [|n IH]; intros k count bh m Hk Hm Hmod; cbn [preallocate].
  { exists 0, bh, m. rewrite Z.add_0_r. split_and!; try done. by apply took_none. }
  case_decide as Hin.
  2:{ exists 0, bh, m. rewrite Z.add_0_r. split_and!; try done. by apply took_none. }
  destruct (bit bh (j + k)) eqn:Hb.
  - destruct (set_bit_ok (j + k) bh) as (bh' & -> & Hw' & Hl' & Hbits); [apply Hm|destruct Hm; lia|].
    rewrite Hb. cbn [mbind option_bind]. exists 0, bh', m. rewrite Z.add_0_r. split_and!; try done.
    assert (Hsame : ∀ x, 0 ≤ x → bit bh' x = bit bh x).
    { intros x Hx. rewrite Hbits by done. case_bool_decide; [subst; by rewrite Hb|by rewrite orb_false_r]. }
    split_and!; try lia; [split; [done|destruct Hm; lia]| |].
    + unfold zeros. rewrite Z.sub_0_r. apply countz_ext. intros x Hx. by rewrite Hsame by lia.
    + intros x Hx. rewrite Hsame, bool_decide_false, orb_false_r by lia. done.
  - destruct (set_free_bit (j + k) bh) as (bh1 & -> & Hm1 & Hz1 & Hbits1); [done|lia|done|]. cbn [mbind option_bind].
    destruct (start_bound i Hi) as (? & ? & ?).
    destruct (clear_modified_ok (start g i + j + k) m Hmod) as (m1 & -> & Hmod1); [lia|]. cbn [mbind option_bind].
    destruct (IH (k + 1) (count + 1) bh1 m1) as (c & bh2 & m2 & -> & Htook & Hc & Hmod2); [lia|done..|].
    exists (c + 1), bh2, m2. split; [do 3 f_equal; lia|]. split_and!; [|lia|done].
    apply (took_cons bh bh1); [lia|done..|]. by replace (j + k + 1) with (j + (k + 1)) by lia.
Qed.

Lemma in_range_iff b a len :
  0 ≤ b → 0 ≤ a < 2 ^ 32 → 0 ≤ len < 2 ^ 32 → 0 < a + len → in_range b a len = true ↔ a ≤ b < a + len.
Proof. intros Hb Ha Hl Hp. unfold in_range. rewrite bool_decide_eq_true, u64_id by lia. lia. Qed.
Lemma usable_no_panic gdp n :
  usable g gdp n → 0 ≤ n → 0 ≤ bg_inode_table gdp < 2 ^ 32 →
  bool_decide (n = bg_block_bitmap gdp ∨ n = bg_inode_bitmap gdp) || in_range n (bg_inode_table gdp) (itb_per_group g) = false.
Proof.
  intros (_ & _ & H1 & H2 & H3) Hn Ht. pose proof (go_table g Hg). apply orb_false_iff. split.
  - apply bool_decide_false. naive_solver.
  - apply not_true_is_false. rewrite in_range_iff by lia. done.
Qed.

Lemma count_le_total f i gdp :
  fs_ok g f → groups f !z i = Some gdp → bg_free_blocks_count gdp ≤ s_free_blocks_count f.
Proof.
  intros Hf Hi. pose proof (lookupz_lt _ _ _ Hi) as Hir. destruct (go_pg g Hg) as [Hpg _].
  rewrite (fo_total g f Hf). pose proof (sum_of_updz bg_free_blocks_count (groups f) i gdp (set_free_count 0 gdp) Hi) as Htot. simpl in Htot.
  enough (0 ≤ sum_of bg_free_blocks_count (updz i (set_free_count 0 gdp) (groups f))) by lia.
  apply (sum_of_bounds _ pg). intros x gdp' Hx.
  destruct (decide (x = i)) as [->|].
  - rewrite lookupz_updz_eq in Hx by lia. injection Hx as <-. simpl. lia.
  - rewrite lookupz_updz_ne in Hx by done. by apply (count_bounds g Hg f x).
Qed.

Lemma got_block_ok goal i j gdp bh f :
  fs_ok g f → 0 ≤ goal → groups f !z i = Some gdp → cache f !! bg_block_bitmap gdp = Some bh →
  0 ≤ j < pg → bit bh j = false →
  ∃ c bh' m', got_block g goal i j f
      = Some (inr (start g i + j, if decide (goal ≠ 0) then Some (c, start g i + j + 1) else None,
                   changed i gdp bh' (- (c + 1)) m' (freed f) (messages f) f))
    ∧ took bh bh' j (c + 1) ∧ 0 ≤ c ≤ Z.max 0 (goal - 1) ∧ modified_ok g m'.
Proof.
  intros Hf Hgoal Hi Hc Hj Hb. destruct (fo_group g f Hf i gdp Hi) as (map0 & Hc0 & [Hm Hcnt Hus Ht]).
  rewrite Hc in Hc0. injection Hc0 as <-. pose proof (lookupz_lt _ _ _ Hi) as Hir. rewrite (fo_groups g f Hf) in Hir.
  destruct (start_bound i Hir) as (Hs0 & Hs1 & Hs2). unfold got_block. rewrite Hi. cbn [mbind option_bind].
  rewrite Hc. cbn [mbind option_bind].
  assert (Htmp : u32 (j + i * pg + first) = start g i + j) by (unfold start in *; rewrite u32_id; lia). rewrite Htmp.
  pose proof (Hus j Hj Hb) as Hu. rewrite (usable_no_panic gdp _ Hu) by lia.
  destruct (set_free_bit j bh Hm Hj Hb) as (bh1 & -> & Hm1 & Hz1 & Hbits1). cbn [mbind option_bind].
  destruct (clear_modified_ok (start g i + j) _ (fo_modified g f Hf)) as (m1 & -> & Hmod1); [lia|]. cbn [mbind option_bind].
  assert (∃ c bh' m', (if decide (goal ≠ 0) then preallocate g (Z.to_nat (goal - 1)) j (start g i + j) 1 0 bh1 m1
     else Some (0, bh1, m1)) = Some (c, bh', m') ∧ took bh1 bh' (j + 1) c ∧ c ≤ Z.max 0 (goal - 1) ∧ modified_ok g m')
    as (c & bh' & m' & -> & Htook & Hcmax & Hmod').
  { case_decide as Hne; [|exists 0, bh1, m1; split_and!; [done|by apply took_none|lia|done]].
    destruct (preallocate_ok (Z.to_nat (goal - 1)) i j 1 0 bh1 m1) as (c & bh' & m' & Hp & Htk & Hcn & Hmod'); [done..|lia|lia|done|done|].
    exists c, bh', m'. rewrite Z.add_0_l in Hp. split_and!; done || lia. }
  cbn [mbind option_bind]. assert (Hall : took bh bh' j (c + 1)) by (apply (took_cons bh bh1); done || lia).
  exists c, bh', m'. split; [|destruct Htook as (_ & _ & ? & _); done]. destruct Hu as (Hub & Hur & _). rewrite decide_False by lia.
  pose proof (go_count g Hg) as H31. destruct Hall as (Hm' & Hz & Hc0 & _). destruct (go_pg g Hg) as [Hpg _].
  pose proof (zeros_bounds bh' pg) as Hzb. pose proof (count_bounds g Hg f i gdp Hf Hi) as Hcb.
  pose proof (free_count_bounds g Hg f Hf) as Hfb.
  pose proof (count_le_total f i gdp Hf Hi) as Hsf.
  destruct Htook as (_ & _ & Hc1 & _).
  assert (block_trapped g (start g i + j) = false) as ->.
  { unfold block_trapped. rewrite s32_id by lia. rewrite (bool_decide_true (_ ≤ _)), (bool_decide_true (_ < _)) by lia.
    by rewrite orb_true_r. }
  assert (Hu16 : u16 (u16 (bg_free_blocks_count gdp - c) - 1) = bg_free_blocks_count gdp + - (c + 1)).
  { unfold u16. rewrite !Z.mod_small by (rewrite ?Z.mod_small; lia). lia. }
  rewrite Hu16, (u32_id (start g i + j + 1)), !u32_id by (rewrite ?u32_id; lia). unfold changed.
  by replace (s_free_blocks_count f - c - 1) with (s_free_blocks_count f + - (c + 1)) by lia.
Qed.
(** The blocks that are free afterwards. *)
Lemma changed_is_free i j c gdp bh bh' d m fr msgs f n :
  fs_ok g f → groups f !z i = Some gdp → cache f !! bg_block_bitmap gdp = Some bh → 0 ≤ j → j + c ≤ pg → 0 ≤ c →
  (∀ x, 0 ≤ x → bit bh' x = bit bh x || bool_decide (j ≤ x < j + c)) →
  is_free g (changed i gdp bh' d m fr msgs f) n
  = is_free g f n && negb (bool_decide (start g i + j ≤ n < start g i + j + c)).
Proof.
  intros Hf Hi Hc Hj Hjc Hc0 Hbits. unfold is_free. case_bool_decide as Hn; [|done]. cbn [andb].
  rewrite changed_free with (g := g) by done. destruct (place_block g Hg n) as [Heq Hmod].
  case_decide as Hd.
  - rewrite Hd, (free_in_map f i gdp bh) by done. rewrite Hbits, negb_orb by lia. do 2 f_equal.
    apply bool_decide_ext. rewrite Hd in Heq. lia.
  - rewrite bool_decide_false; [by rewrite andb_true_r|]. intros Hin. apply Hd.
    replace n with (start g i + (n - start g i)) by lia. apply block_place. lia.
Qed.

Lemma is_free_block f i j : fs_ok g f → 0 ≤ j < pg → free_in f i j = true → is_free g f (start g i + j) = true.
Proof.
  intros Hf Hj Hfree. unfold is_free. destruct (block_place g i j Hj) as [-> ->]. rewrite Hfree, andb_true_r.
  apply bool_decide_eq_true. destruct (free_in_Some f i j Hf Hfree) as (gdp & map & Hi & _).
  pose proof (lookupz_lt _ _ _ Hi). destruct (go_pg g Hg). unfold start. nia.
Qed.

Lemma free_or_full f : fs_ok g f → (∃ n, is_free g f n = true) ∨ ∀ n, is_free g f n = false.
Proof.
  intros Hf. destruct (find_block_ok 0 f Hf) as ([i j| |i] & _ & Hok & _); [|right|done].
  - left. exists (start g i + j). destruct Hok. by apply is_free_block.
  - intros n. destruct (is_free g f n) eqn:Hn; [|done]. destruct (is_free_usable f n Hf Hn) as (_ & _ & Hin).
    rewrite Hok in Hin; [done|]. apply place_block, Hg.
Qed.

Lemma new_block_none tries goal prealloc_goal f :
  fs_ok g f → (∀ n, is_free g f n = false) →
  ext2_new_block long g (S tries) goal prealloc_goal f = Some (0, None, f).
Proof.
  intros Hf Hnone. destruct (find_block_ok goal f Hf) as (s & Hs & Hok & _). cbn [ext2_new_block]. rewrite Hs.
  cbn [mbind option_bind]. destruct s as [i j| |i]; [|done|done]. destruct Hok as [Hj Hfree].
  pose proof (Hnone (start g i + j)) as Hno. by rewrite (is_free_block f i j) in Hno.
Qed.

Lemma new_block_found tries goal prealloc_goal f n0 :
  fs_ok g f → 0 ≤ prealloc_goal → is_free g f n0 = true →
  ∃ b c f', ext2_new_block long g (S tries) goal prealloc_goal f
      = Some (b, if decide (prealloc_goal ≠ 0) then Some (c, b + 1) else None, f')
    ∧ fs_ok g f' ∧ messages f' = messages f ∧ b ≠ 0 ∧ 0 ≤ c ≤ Z.max 0 (prealloc_goal - 1)
    ∧ (∀ n, b ≤ n ≤ b + c → is_free g f n = true)
    ∧ (∀ n, is_free g f' n = is_free g f n && negb (bool_decide (b ≤ n ≤ b + c)))
    ∧ bitmaps_only f f' ∧ (is_free g f goal = true → b = goal).
Proof.
  intros Hf Hpre Hn0. destruct (find_block_ok goal f Hf) as (s & Hs & Hok & Hgoal).
  cbn [ext2_new_block]. rewrite Hs. cbn [mbind option_bind]. destruct s as [i j| |i]; [| |done].
  2:{ destruct (is_free_usable f n0 Hf Hn0) as (_ & _ & Hin). rewrite Hok in Hin; [done|]. apply place_block, Hg. }
  destruct Hok as [Hj Hfree]. destruct (free_in_Some f i j Hf Hfree) as (gdp & bh & Hi & Hc & Hgr & Hb).
  destruct (got_block_ok prealloc_goal i j gdp bh f) as (c & bh' & m' & -> & Htook & Hcm & Hmod'); [done..|].
  cbn [mbind option_bind]. exists (start g i + j), c. eexists. split; [done|].
  destruct Htook as (Hm' & Hz & Hc0 & Hwas & Hbits).
  assert (Hend : j + (c + 1) ≤ s_blocks_per_group g) by (destruct (Hwas (j + c)); lia).
  destruct (gr_usable g i gdp bh Hgr j Hj Hb) as (_ & Hres & _). pose proof (go_reserved g Hg).
  split_and!; try done; try lia.
  + apply changed_ok with bh; try done; [lia|]. intros x Hx Hbx. apply (gr_usable g i gdp bh Hgr x Hx).
    rewrite Hbits in Hbx by lia. by apply orb_false_iff in Hbx as [? _].
  + intros n Hn. replace n with (start g i + (n - start g i)) by lia. destruct (Hwas (n - start g i)) as [? Hbn]; [lia|].
    apply is_free_block; try done; [lia|]. by rewrite (free_in_map f i gdp bh), Hbn.
  + intros n. rewrite (changed_is_free i j (c + 1) gdp bh) by (done || lia). do 2 f_equal.
    apply bool_decide_ext. lia.
  + by apply changed_bitmaps_only.
  + intros Hfg. pose proof (Hgoal Hfg) as [= -> ->]. symmetry. apply place_block, Hg.
Qed.
End alloc.

(** C3. Allocation of a block.  If no block is free the result is 0 and nothing
    changes.  Otherwise a block is returned, the goal itself if it is free; it and
    the blocks behind it that are taken in advance, fewer than asked for, were
    free, and no other block changes its state; of the cache only bitmaps change,
    all counts stay right, nothing is reported, and the first try succeeds. *)
Theorem ext2_new_block_correct long g tries goal prealloc_goal f :
  long = 32 ∨ long = 64 → geometry_ok g → fs_ok g f → 0 ≤ prealloc_goal →
  ((∀ n, is_free g f n = false) → ext2_new_block long g (S tries) goal prealloc_goal f = Some (0, None, f))
  ∧ (∀ n0, is_free g f n0 = true →
     ∃ b c f', ext2_new_block long g (S tries) goal prealloc_goal f
         = Some (b, if decide (prealloc_goal ≠ 0) then Some (c, b + 1) else None, f')
       ∧ fs_ok g f' ∧ messages f' = messages f ∧ b ≠ 0 ∧ 0 ≤ c ≤ Z.max 0 (prealloc_goal - 1)
       ∧ (∀ n, b ≤ n ≤ b + c → is_free g f n = true)
       ∧ (∀ n, is_free g f' n = is_free g f n && negb (bool_decide (b ≤ n ≤ b + c)))
       ∧ bitmaps_only f f' ∧ (is_free g f goal = true → b = goal)).
Proof.
  intros Hlong Hg Hf Hpre. split; [by apply new_block_none|]. intros n0 Hn0. by apply new_block_found with n0.
Qed.

(** ** Freeing *)
Section free.
Context (g : geometry).
Hypothesis Hg : geometry_ok g.

Abbreviation pg := (s_blocks_per_group g).
Abbreviation first := (s_first_data_block g).

Lemma total_room f i gdp :
  fs_ok g f → groups f !z i = Some gdp → s_free_blocks_count f - bg_free_blocks_count gdp + pg < 2 ^ 32.
Proof.
  intros Hf Hi. pose proof (lookupz_lt _ _ _ Hi) as Hir. destruct (go_pg g Hg) as [Hpg _].
  pose proof (sum_of_updz bg_free_blocks_count (groups f) i gdp (set_free_count pg gdp) Hi) as Htot. simpl in Htot.
  rewrite (fo_total g f Hf). pose proof (sum_of_bounds bg_free_blocks_count pg (updz i (set_free_count pg gdp) (groups f))) as Hb.
  rewrite length_updz, (fo_groups g f Hf) in *. destruct (start_bound g Hg i) as (_ & _ & Hs); [lia|].
  destruct (go_first g Hg). unfold start in Hs.
  enough (sum_of bg_free_blocks_count (updz i (set_free_count pg gdp) (groups f)) ≤ pg * groups_count g) by lia. apply Hb. intros x gdp' Hx.
  destruct (decide (x = i)) as [->|].
  - rewrite lookupz_updz_eq in Hx by (rewrite (fo_groups g f Hf); lia). injection Hx as <-. simpl. lia.
  - rewrite lookupz_updz_ne in Hx by (rewrite ?(fo_groups g f Hf); done). by apply (count_bounds g Hg f x).
Qed.

(** What freeing [n] bits from [from] does to a bitmap. *)
Definition gave (bh bh' : list Z) (from n : Z) : Prop :=
  map_ok g bh' ∧ zeros bh pg ≤ zeros bh' pg
  ∧ ∀ x, 0 ≤ x → bit bh' x = bit bh x && negb (bool_decide (from ≤ x < from + n)).

Lemma free_bits_ok n bit0 block i bh sfree msgs :
  map_ok g bh → 0 ≤ bit0 + i → bit0 + i + Z.of_nat n ≤ pg →
  0 ≤ sfree → sfree - zeros bh pg + pg < 2 ^ 32 →
  ∃ bh' msgs', free_bits n bit0 block i bh (zeros bh pg) sfree msgs
      = Some (bh', zeros bh' pg, sfree + (zeros bh' pg - zeros bh pg), msgs')
    ∧ gave bh bh' (bit0 + i) (Z.of_nat n)
    ∧ ((∀ x, bit0 + i ≤ x < bit0 + i + Z.of_nat n → bit bh x = true) → msgs' = msgs).
Proof.
  destruct (go_pg g Hg) as [Hpg _].
  revert i bh sfree msgs. induction n as [|n IH]; intros i bh sfree msgs Hm Hi Hn Hs Hroom; cbn [free_bits].
  { exists bh, msgs. split; [by rewrite Z.sub_diag, Z.add_0_r|]. split; [|done]. split_and!; try done.
    intros x Hx. by rewrite bool_decide_false, andb_true_r by lia. }
  destruct Hm as [Hw Hlen]. rewrite (u32_id (bit0 + i)) by lia.
  destruct (clear_bit_ok (bit0 + i) bh) as (bh1 & -> & Hw1 & Hl1 & Hbits1); [done|lia|]. cbn [mbind option_bind].
  assert (Hm1 : map_ok g bh1) by (split; [done|by rewrite Hl1]).
  assert (Hz1 : zeros bh1 pg = zeros bh pg + Z.b2z (bit bh (bit0 + i))).
  { rewrite (zeros_change bh bh1 pg (bit0 + i)); [|lia|].
    - rewrite Hbits1, bool_decide_true, andb_false_r by lia. simpl. lia.
    - intros x Hx Hne. by rewrite Hbits1, bool_decide_false, andb_true_r by done. }
  pose proof (zeros_bounds bh1 pg ltac:(lia)) as Hb1.
  assert (Hgave : ∀ bh2, gave bh1 bh2 (bit0 + (i + 1)) (Z.of_nat n) → gave bh bh2 (bit0 + i) (Z.of_nat (S n))).
  { intros bh2 (Hm2 & Hz2 & Hbits2). split_and!; [done|destruct (bit bh (bit0 + i)); simpl in *; lia|]. intros x Hx.
    rewrite Hbits2, Hbits1 by done. rewrite <-andb_assoc. f_equal. rewrite <-negb_orb. f_equal.
    apply eq_true_iff_eq. rewrite orb_true_iff, !bool_decide_eq_true. lia. }
  destruct (bit bh (bit0 + i)) eqn:Hb; simpl in Hz1.
  - unfold u16. rewrite Z.mod_small, u32_id by lia. rewrite <-Hz1.
    destruct (IH (i + 1) bh1 (sfree + 1) msgs) as (bh2 & msgs2 & -> & Hg2 & Hmsg); [done|lia..|].
    exists bh2, msgs2. replace (sfree + 1 + (zeros bh2 pg - zeros bh1 pg)) with (sfree + (zeros bh2 pg - zeros bh pg)) by lia.
    split; [done|]. split; [by apply Hgave|]. intros Hall. apply Hmsg. intros x Hx.
    rewrite Hbits1, Hall, bool_decide_false by lia. done.
  - rewrite Z.add_0_r in Hz1. rewrite <-Hz1.
    destruct (IH (i + 1) bh1 sfree (msgs ++ [Already_cleared (block + i)])) as (bh2 & msgs2 & -> & Hg2 & _); [done|lia..|].
    exists bh2, msgs2. split; [done|]. split; [by apply Hgave|]. intros Hall. rewrite (Hall (bit0 + i)) in Hb by lia. done.
Qed.

(** A run of blocks without one that the file system needs. *)
Definition safe (f : fs) (block count : Z) : Prop :=
  ∀ n gdp, block ≤ n < block + count → groups f !z ((n - first) / pg) = Some gdp → usable g gdp n.

Lemma safe_no_panic f block gcount i gdp :
  safe f block gcount → (∀ n, block ≤ n < block + gcount → (n - first) / pg = i) → groups f !z i = Some gdp →
  0 ≤ block → 0 < gcount → block + gcount < 2 ^ 32 → 0 ≤ bg_inode_table gdp < 2 ^ 32 →
  in_system_zone g block gcount gdp = false.
Proof.
  intros Hsafe Hgroup Hi Hb Hc Hlt Ht. pose proof (go_table g Hg).
  assert (Hus : ∀ n, block ≤ n < block + gcount → usable g gdp n).
  { intros n Hn. apply Hsafe; [done|]. by rewrite Hgroup. }
  unfold in_system_zone. rewrite !orb_false_iff. split_and!; apply not_true_is_false.
  - unfold in_range. rewrite bool_decide_eq_true, u64_id by lia. intros Hin. destruct (Hus (bg_block_bitmap gdp)) as (_ & _ & H1 & _); [lia|done].
  - unfold in_range. rewrite bool_decide_eq_true, u64_id by lia. intros Hin. destruct (Hus (bg_inode_bitmap gdp)) as (_ & _ & _ & H1 & _); [lia|done].
  - rewrite in_range_iff by lia. intros Hin. destruct (Hus block) as (_ & _ & _ & _ & H1); [lia|done].
  - rewrite u64_id, in_range_iff by lia. intros Hin. destruct (Hus (block + gcount - 1)) as (_ & _ & _ & _ & H1); [lia|done].
Qed.
Lemma gave_is_free i j c gdp bh bh' d m fr msgs f n :
  fs_ok g f → groups f !z i = Some gdp → cache f !! bg_block_bitmap gdp = Some bh → 0 ≤ j → j + c ≤ pg → 0 ≤ c →
  gave bh bh' j c →
  is_free g (changed i gdp bh' d m fr msgs f) n
  = is_free g f n || bool_decide (start g i + j ≤ n < start g i + j + c).
Proof.
  intros Hf Hi Hc Hj Hjc Hc0 (_ & _ & Hbits). unfold is_free. pose proof (lookupz_lt _ _ _ Hi) as Hir.
  case_bool_decide as Hn; cbn [andb orb].
  2:{ symmetry. apply bool_decide_false. destruct (go_pg g Hg). unfold start. nia. }
  rewrite changed_free with (g := g) by done. destruct (place_block g Hg n) as [Heq Hmod].
  case_decide as Hd.
  - rewrite Hd, (free_in_map f i gdp bh) by done. rewrite Hbits, negb_andb, negb_involutive by lia. f_equal.
    apply bool_decide_ext. rewrite Hd in Heq. lia.
  - rewrite bool_decide_false; [by rewrite orb_false_r|]. intros Hin. apply Hd.
    replace n with (start g i + (n - start g i)) by lia. apply block_place. lia.
Qed.

Lemma safe_changed i gdp map d m fr msgs f block count :
  groups f !z i = Some gdp → safe f block count → safe (changed i gdp map d m fr msgs f) block count.
Proof.
  intros Hi Hs n gdp' Hn Hg'. pose proof (lookupz_lt _ _ _ Hi). simpl in Hg'.
  destruct (decide ((n - first) / pg = i)) as [E|E].
  - rewrite E, lookupz_updz_eq in Hg' by lia. injection Hg' as <-. apply (Hs n gdp Hn). by rewrite E.
  - rewrite lookupz_updz_ne in Hg' by done. by apply Hs.
Qed.

(** One round of the loop over the groups. *)
Lemma free_round_ok fuel block count f :
  fs_ok g f → 0 < count → first ≤ block → block + count ≤ s_blocks_count g → safe f block count →
  ∃ gcount f1, 0 < gcount ≤ count
    ∧ free_groups g (S fuel) block count f =
        (if decide (0 < count - gcount) then free_groups g fuel (block + gcount) (count - gcount) f1 else Some f1)
    ∧ fs_ok g f1 ∧ safe f1 block count ∧ bitmaps_only f f1
    ∧ (∀ n, is_free g f1 n = is_free g f n || bool_decide (block ≤ n < block + gcount))
    ∧ ((∀ n, block ≤ n < block + count → is_free g f n = false) → messages f1 = messages f).
Proof.
  intros Hf Hc Hfirst Hend Hsafe. destruct (go_pg g Hg) as [Hpg _]. pose proof (go_count g Hg).
  destruct (go_first g Hg). cbn [free_groups]. rewrite (u32_id (block - first)) by lia.
  destruct (place_block g Hg block) as [Hblock Hmod].
  set (i := (block - first) / pg) in *. set (j := (block - first) mod pg) in *.
  set (gcount := if decide (pg < j + count) then count - (j + count - pg) else count).
  assert (Hgc : 0 < gcount ≤ count ∧ j + gcount ≤ pg) by (unfold gcount; case_decide; lia). clearbody gcount.
  assert (Hir : 0 ≤ i < groups_count g).
  { split; [apply Z.div_pos; lia|]. apply Z.div_lt_upper_bound; [lia|]. destruct (go_groups g Hg). lia. }
  destruct (lookupz_is_Some (groups f) i) as [gdp Hi]; [rewrite (fo_groups g f Hf); lia|]. rewrite Hi. cbn [mbind option_bind].
  destruct (fo_group g f Hf i gdp Hi) as (bh & Hbh & [Hm Hcnt Hus Ht]). rewrite Hbh. cbn [mbind option_bind].
  assert (Hin : ∀ n, block ≤ n < block + gcount → (n - first) / pg = i).
  { intros n Hn. replace n with (start g i + (n - start g i)) by lia. apply block_place. lia. }
  assert (Hsafe' : safe f block gcount) by (intros n gdp' Hn; apply Hsafe; lia).
  rewrite (safe_no_panic f block gcount i gdp) by (done || lia).
  destruct (free_bits_ok (Z.to_nat gcount) j block 0 bh (s_free_blocks_count f) (messages f)) as (bh' & msgs' & Hbits & Hgave & Hmsg);
    [done|lia|lia|by apply (free_count_bounds g Hg)|rewrite <-Hcnt; by apply (total_room f i)|].
  rewrite Hcnt, Hbits. cbn [mbind option_bind]. rewrite Z.add_0_r, Z2Nat.id in * by lia. rewrite u32_id by lia.
  exists gcount. eexists. split; [lia|]. split; [done|].
  assert (Hform : mk_fs (s_free_blocks_count f + (zeros bh' pg - zeros bh pg))
      (updz i (set_free_count (zeros bh' pg) gdp) (groups f)) (<[bg_block_bitmap gdp:=bh']> (cache f))
      (modified_global_blocks f) (freed f ++ [(block, gcount)]) msgs'
    = changed i gdp bh' (zeros bh' pg - zeros bh pg) (modified_global_blocks f) (freed f ++ [(block, gcount)]) msgs' f).
  { unfold changed. do 3 f_equal. lia. }
  rewrite Hform. split_and!.
  - apply changed_ok with bh; try done; [apply Hgave|apply Hf|]. intros x Hx Hbx. destruct Hgave as (_ & _ & Hb').
    rewrite Hb' in Hbx by lia. apply andb_false_iff in Hbx as [Hbx|Hbx]; [by apply Hus|].
    apply negb_false_iff, bool_decide_eq_true in Hbx. apply (Hsafe (start g i + x) gdp); [lia|].
    by destruct (block_place g i x Hx) as [-> _].
  - by apply safe_changed.
  - by apply changed_bitmaps_only.
  - intros n. rewrite (gave_is_free i j gcount gdp bh) by (done || lia). by rewrite <-Hblock.
  - intros Hnone. apply Hmsg. intros x Hx. pose proof (Hnone (start g i + x) ltac:(lia)) as Hno.
    destruct (bit bh x) eqn:Hbx; [done|]. rewrite (is_free_block g Hg f i x) in Hno; [done|done|lia|].
    by rewrite (free_in_map f i gdp bh), Hbx.
Qed.

Lemma free_groups_ok fuel block count f :
  fs_ok g f → 0 < count ≤ Z.of_nat fuel → first ≤ block → block + count ≤ s_blocks_count g → safe f block count →
  ∃ f', free_groups g fuel block count f = Some f' ∧ fs_ok g f' ∧ bitmaps_only f f'
    ∧ (∀ n, is_free g f' n = is_free g f n || bool_decide (block ≤ n < block + count))
    ∧ ((∀ n, block ≤ n < block + count → is_free g f n = false) → messages f' = messages f).
Proof.
  revert block count f. induction fuel as [|fuel IH]; intros block count f Hf Hc Hb Hend Hsafe; [lia|].
  destruct (free_round_ok fuel block count f Hf) as (gcount & f1 & Hgc & -> & Hf1 & Hs1 & Ho1 & Hfree1 & Hmsg1); [lia..|done|].
  case_decide as Hmore.
  - destruct (IH (block + gcount) (count - gcount) f1) as (f' & -> & Hf' & Ho' & Hfree' & Hmsg'); [done|lia..| |].
    { intros n gdp Hn. apply Hs1. lia. }
    exists f'. split_and!; try done.
    + by transitivity f1.
    + intros n. rewrite Hfree', Hfree1, <-orb_assoc. f_equal. apply eq_true_iff_eq.
      rewrite orb_true_iff, !bool_decide_eq_true. lia.
    + intros Hnone. rewrite Hmsg', Hmsg1; [done|done|]. intros n Hn. rewrite Hfree1, Hnone, bool_decide_false by lia. done.
  - exists f1. assert (gcount = count) as -> by lia. by split_and!.
Qed.

Lemma free_blocks_ok block count f :
  fs_ok g f → 0 < count → group_desc_block_end g ≤ block → block + count ≤ store_blocks g →
  first ≤ block → block + count ≤ s_blocks_count g → safe f block count →
  ∃ f', ext2_free_blocks g block count f = Some f' ∧ fs_ok g f' ∧ bitmaps_only f f'
    ∧ (∀ n, is_free g f' n = is_free g f n || bool_decide (block ≤ n < block + count))
    ∧ ((∀ n, block ≤ n < block + count → is_free g f n = false) → messages f' = messages f).
Proof.
  intros Hf Hc Hres Hst Hb Hend Hsafe. unfold ext2_free_blocks. rewrite decide_True, decide_False by lia.
  apply free_groups_ok; done || lia.
Qed.
End free.

(** C23. Freeing blocks, over any number of groups: a run of blocks that the file
    system does not need for itself becomes free and no other block changes its
    state; of the cache only bitmaps change, all counts stay right, and a block
    that was free already is the only thing that is reported.  A run outside of the data zone is refused without a
    change. *)
Theorem ext2_free_blocks_correct g block count f :
  geometry_ok g → fs_ok g f → 0 < count → group_desc_block_end g ≤ block → block + count ≤ store_blocks g →
  (s_first_data_block g ≤ block → block + count ≤ s_blocks_count g → safe g f block count →
   ∃ f', ext2_free_blocks g block count f = Some f' ∧ fs_ok g f' ∧ bitmaps_only f f'
     ∧ (∀ n, is_free g f' n = is_free g f n || bool_decide (block ≤ n < block + count))
     ∧ ((∀ n, block ≤ n < block + count → is_free g f n = false) → messages f' = messages f))
  ∧ (block < s_first_data_block g ∨ s_blocks_count g < block + count →
     ext2_free_blocks g block count f = Some (say (Not_in_datazone block count) f)).
Proof.
  intros Hg Hf Hc Hres Hst. split; [by apply free_blocks_ok|]. intros Hout. unfold ext2_free_blocks.
  by rewrite !decide_True.
Qed.

(** ** Examples *)
Definition two_groups : geometry := mk_geometry 65 1 32 2 1 3 65.

Definition group0 : ext2_group_desc := mk_gdp 3 4 5 27 6 0.
Definition group1 : ext2_group_desc := mk_gdp 33 34 35 1 8 0.

(** Of the second group only the last block is free. *)
Definition small_fs : fs :=
  mk_fs 28 [group0; group1]
    (<[3 := [0x1f]]> (<[33 := [0x7fffffff]]> (<[4 := [0x3]]> (<[34 := [0]]>
      (<[5 := replicate 16 7]> (<[35 := replicate 16 7]> ∅)))))) None [] [].

Lemma two_groups_ok : geometry_ok two_groups.
Proof. split; by vm_compute. Qed.

#[local] Instance usable_dec g gdp n : Decision (usable g gdp n).
Proof. unfold usable. apply _. Defined.

Lemma group_usable i gdp map :
  bool_decide (Forall (λ j, bit map j = false → usable two_groups gdp (start two_groups i + j)) (seqZ 0 32)) = true →
  ∀ j, 0 ≤ j < 32 → bit map j = false → usable two_groups gdp (start two_groups i + j).
Proof. intros Hall%bool_decide_eq_true j Hj. rewrite Forall_forall in Hall. apply Hall, elem_of_seqZ. lia. Qed.

Lemma small_groups i gdp : groups small_fs !z i = Some gdp → i = 0 ∧ gdp = group0 ∨ i = 1 ∧ gdp = group1.
Proof.
  intros Hi. pose proof (lookupz_lt _ _ _ Hi) as Hr. simpl in Hr.
  assert (i = 0 ∨ i = 1) as [-> | ->] by lia; injection Hi as <-; auto.
Qed.

Lemma small_fs_ok : fs_ok two_groups small_fs.
Proof.
  split; [done| | |done|done].
  - intros i gdp Hi. destruct (small_groups i gdp Hi) as [[-> ->]|[-> ->]].
    + exists [0x1f]. split; [done|]. split; [split; [by repeat constructor|done]|done| |done].
      apply group_usable. by vm_compute.
    + exists [0x7fffffff]. split; [done|]. split; [split; [by repeat constructor|done]|done| |done].
      apply group_usable. by vm_compute.
  - intros i i' gdp gdp' Hi Hi' He. destruct (small_groups i gdp Hi) as [[-> ->]|[-> ->]], (small_groups i' gdp' Hi') as [[-> ->]|[-> ->]]; done.
Qed.

Lemma ext2_new_block_correct_witness :
  ∃ b c f', ext2_new_block 64 two_groups 1 10 4 small_fs = Some (b, Some (c, b + 1), f')
    ∧ fs_ok two_groups f' ∧ b = 10.
Proof.
  destruct (ext2_new_block_correct 64 two_groups 0 10 4 small_fs) as [_ Hfree];
    [by right|exact two_groups_ok|exact small_fs_ok|lia|].
  destruct (Hfree 10 eq_refl) as (b & c & f' & Hr & Hf' & _ & _ & _ & _ & _ & _ & Hgoal).
  exists b, c, f'. split_and!; [exact Hr|done|by apply Hgoal].
Defined.

(** Two blocks at the border of the groups. *)
Lemma ext2_free_blocks_correct_witness :
  ∃ f', ext2_free_blocks two_groups 31 2 small_fs = Some f' ∧ fs_ok two_groups f'.
Proof.
  destruct (ext2_free_blocks_correct two_groups 31 2 small_fs) as [Hok _];
    [exact two_groups_ok|exact small_fs_ok|done..|].
  destruct Hok as (f' & Hr & Hf' & _); [done..| |by exists f'].
  intros n gdp Hn Hi. assert (n = 31 ∨ n = 32) as [-> | ->] by lia; injection Hi as <-;
    apply (bool_decide_unpack _); by vm_compute.
Defined.

(** With a 64-bit [unsigned long] the rest of the word in which a search starts is
    skipped. *)
Example find_next_skips :
  find_next_zero_bit 32 [1; 1] 64 1 = Some 1 ∧ find_next_zero_bit 64 [1; 1] 64 1 = Some 33.
Proof. by vm_compute. Qed.

(** A run of blocks that has the whole inode table inside of it is not noticed. *)
Example free_misses_table :
  in_system_zone (mk_geometry 65 1 32 2 2 3 65) 9 4 (mk_gdp 3 4 10 0 0 0) = false.
Proof. by vm_compute. Qed.

(** A block number from 2^31 on fails the last assertion. *)
Example high_block_trapped : block_trapped (mk_geometry (2 ^ 31 + 8) 0 32768 65537 512 100 (2 ^ 31 + 8)) (2 ^ 31) = true.
Proof. by vm_compute. Qed.
