(* ===== verification/Ialloc.v ===== *)
(** * ext2: allocation of inodes (src/ext2fs/ialloc.c)

    Inodes have a bitmap and a count in each group, like blocks, and the count of
    directories in a group.  [ext2_alloc_inode] chooses a group by a policy, for
    directories a different one, and takes its first free inode, which is cleared
    on the disk.  The theorems are that exactly the inode that is returned becomes
    used, that the allocation of blocks is not disturbed, and in which cases a
    free inode is found; an example shows one in which it is not.

    The rendering is that of [Balloc.v]. *)

From S2P Require Import Prelude Slice Bitmap Balloc.

Record igeometry := mk_igeometry {
  geo : geometry;
  s_inodes_count : Z;
  s_inodes_per_group : Z;
  first_ino : Z;
  inodes_per_block : Z;
  inode_size : Z
}.

Record ifs := mk_ifs { base : fs; s_free_inodes_count : Z }.

Definition set_inode_counts (free dirs : Z) (gdp : ext2_group_desc) : ext2_group_desc :=
  mk_gdp (bg_block_bitmap gdp) (bg_inode_bitmap gdp) (bg_inode_table gdp) (bg_free_blocks_count gdp) free dirs.

(** The descriptor of a group and a block of the cache change. *)
Definition poke (i : Z) (gdp : ext2_group_desc) (b : Z) (bh : list Z) (f : fs) : fs :=
  mk_fs (s_free_blocks_count f) (updz i gdp (groups f)) (<[b := bh]> (cache f)) (modified_global_blocks f) (freed f)
    (messages f).

Definition say_inode (m : message) (f : ifs) : ifs := mk_ifs (say m (base f)) (s_free_inodes_count f).

Section ialloc.
Context (long : Z) (ig : igeometry).

Abbreviation ipg := (s_inodes_per_group ig).
Abbreviation G := (groups_count (geo ig)).

(** [diskfs_free_node], behind the release of the extended attributes. *)
Definition free_inode (inum : Z) (is_dir : bool) (f : ifs) : option ifs :=
  if decide (inum < first_ino ig ∨ s_inodes_count ig < inum) then Some (say_inode (Inode_invalid inum) f) else
  let block_group := (inum - 1) / ipg in
  let bit := (inum - 1) mod ipg in
  gdp ← groups (base f) !z block_group;
  bh ← cache (base f) !! bg_inode_bitmap gdp;
  '(old, bh) ← clear_bit (u32 bit) bh;
  if old : bool then
    let free := u16 (bg_free_inodes_count gdp + 1) in
    let dirs := if is_dir then u16 (bg_used_dirs_count gdp - 1) else bg_used_dirs_count gdp in
    Some (mk_ifs (poke block_group (set_inode_counts free dirs gdp) (bg_inode_bitmap gdp) bh (base f))
            (u32 (s_free_inodes_count f + 1)))
  else Some (say_inode (Inode_already_cleared inum) f).

(** ** The choice of a group *)
(** For a directory: of the groups with an average number of free inodes or more,
    the first one with the most free blocks.  [best] is the choice so far. *)
Fixpoint best_group (n : nat) (j avefreei : Z) (best : option (Z * ext2_group_desc)) (gs : list ext2_group_desc)
    : option (option (Z * ext2_group_desc)) :=
  match n with
  | O => Some best
  | S n' =>
      tmp ← gs !z j;
      let best :=
        if decide (bg_free_inodes_count tmp ≠ 0 ∧ avefreei ≤ bg_free_inodes_count tmp) then
          match best with
          | None => Some (j, tmp)
          | Some (_, gdp) =>
              if decide (bg_free_blocks_count gdp < bg_free_blocks_count tmp) then Some (j, tmp) else best
          end
        else best in
      best_group n' (j + 1) avefreei best gs
  end.

(** [j] goes from 1 by doubling; the group with a free inode. *)
Fixpoint quadratic (rounds : nat) (j i : Z) (gs : list ext2_group_desc) : option (option Z) :=
  match rounds with
  | O => if decide (j < G) then None else Some None
  | S rounds' =>
      if decide (j < G) then
        let i := if decide (G ≤ i + j) then i + j - G else i + j in
        tmp ← gs !z i;
        if decide (bg_free_inodes_count tmp ≠ 0) then Some (Some i) else quadratic rounds' (Z.shiftl j 1) i gs
      else Some None
  end.

Fixpoint linear (n : nat) (i : Z) (gs : list ext2_group_desc) : option (option Z) :=
  match n with
  | O => Some None
  | S n' =>
      let i := if decide (G ≤ i + 1) then 0 else i + 1 in
      tmp ← gs !z i;
      if decide (bg_free_inodes_count tmp ≠ 0) then Some (Some i) else linear n' i gs
  end.

Definition inode_group_num (inum : Z) : Z := (inum - 1) / ipg.

Definition group_for_file (dir_inum : Z) (gs : list ext2_group_desc) : option (option Z) :=
  let i := inode_group_num dir_inum in
  tmp ← gs !z i;
  if decide (bg_free_inodes_count tmp ≠ 0) then Some (Some i) else
  q ← quadratic (Z.to_nat G) 1 i gs;
  match q with
  | Some i => Some (Some i)
  | None => linear (Z.to_nat (G - 2)) (i + 1) gs
  end.

Definition choose_group (dir_inum : Z) (is_dir : bool) (f : ifs) : option (option Z) :=
  if is_dir then
    b ← best_group (Z.to_nat G) 0 (s_free_inodes_count f / G) None (groups (base f));
    Some (match b with Some (i, _) => Some i | None => None end)
  else group_for_file dir_inum (groups (base f)).

(** ** The inode on the disk *)
Definition dino_block (inum : Z) (gs : list ext2_group_desc) : option Z :=
  let bg_num := u64 (inum - 1) / ipg in
  let group_inum := u64 (inum - 1) mod ipg in
  bg ← gs !z bg_num;
  Some (u32 (bg_inode_table bg + group_inum / inodes_per_block ig)).

(** [dino_ref] and [memset], by words. *)
Definition clear_dino (inum : Z) (f : fs) : option fs :=
  block ← dino_block inum (groups f);
  ptr ← cache f !! block;
  let group_inum := u64 (inum - 1) mod ipg in
  let offset := group_inum mod inodes_per_block ig * inode_size ig in
  ptr ← mem_write (offset / 4) (replicate (Z.to_nat (inode_size ig / 4)) 0) ptr;
  Some (mk_fs (s_free_blocks_count f) (groups f) (<[block := ptr]> (cache f)) (modified_global_blocks f) (freed f) (messages f)).

(** The label [sync_out]. *)
Definition sync_out (inum : Z) (f : ifs) : option (Z * ifs) :=
  b ← clear_dino inum (base f); Some (inum, mk_ifs b (s_free_inodes_count f)).

(** ** Taking an inode of group [i]; [inl] is the jump back to [repeat]. *)
Definition take_inode (is_dir : bool) (i : Z) (f : ifs) : option (ifs + (Z * ifs)) :=
  gdp ← groups (base f) !z i;
  bh ← cache (base f) !! bg_inode_bitmap gdp;
  inum ← find_first_zero_bit long bh ipg;
  if decide (inum < ipg) then
    '(old, bh) ← set_bit (u32 inum) bh;
    if old : bool then Some (inl (say_inode (Inode_already_set inum) f)) else
    let inum := inum + u32 (i * ipg + 1) in
    if decide (inum < first_ino ig ∨ s_inodes_count ig < inum) then
      inr <$> sync_out 0
        (mk_ifs (say (Inode_beyond_end i inum) (poke i gdp (bg_inode_bitmap gdp) bh (base f))) (s_free_inodes_count f))
    else
      let free := u16 (bg_free_inodes_count gdp - 1) in
      let dirs := if is_dir then u16 (bg_used_dirs_count gdp + 1) else bg_used_dirs_count gdp in
      inr <$> sync_out inum
        (mk_ifs (poke i (set_inode_counts free dirs gdp) (bg_inode_bitmap gdp) bh (base f))
           (u32 (s_free_inodes_count f - 1)))
  else if decide (bg_free_inodes_count gdp ≠ 0) then inr <$> sync_out 0 (say_inode (Inode_count_corrupted i) f)
  else Some (inl f).

Fixpoint ext2_alloc_inode (tries : nat) (dir_inum : Z) (is_dir : bool) (f : ifs) : option (Z * ifs) :=
  match tries with
  | O => None
  | S tries' =>
      c ← choose_group dir_inum is_dir f;
      match c with
      | None => Some (0, f)
      | Some i =>
          r ← take_inode is_dir i f;
          match r with
          | inl f => ext2_alloc_inode tries' dir_inum is_dir f
          | inr r => Some r
          end
      end
  end.
End ialloc.

(** ** The state of inodes *)
Section state.
Context (ig : igeometry).

Abbreviation ipg := (s_inodes_per_group ig).
Abbreviation G := (groups_count (geo ig)).
Abbreviation itb := (itb_per_group (geo ig)).

Record igeometry_ok : Prop := {
  ig_geo : geometry_ok (geo ig);
  ig_ipg : 0 < ipg < 2 ^ 16;
  ig_first : 0 < first_ino ig;
  ig_count : s_inodes_count ig ≤ G * ipg < 2 ^ 32;
  ig_block : 0 < inodes_per_block ig;
  ig_size : 0 < inode_size ig ∧ inode_size ig mod 4 = 0;
  ig_table : ipg ≤ itb * inodes_per_block ig
}.

(** The blocks that hold bitmaps and tables are all different. *)
Record layout (gs : list ext2_group_desc) : Prop := {
  la_bitmaps i i' gdp gdp' : gs !z i = Some gdp → gs !z i' = Some gdp' →
    bg_inode_bitmap gdp ≠ bg_block_bitmap gdp' ∧ (bg_inode_bitmap gdp = bg_inode_bitmap gdp' → i = i');
  la_tables i i' gdp gdp' t t' : gs !z i = Some gdp → gs !z i' = Some gdp' → 0 ≤ t < itb → 0 ≤ t' < itb →
    bg_inode_table gdp + t = bg_inode_table gdp' + t' → i = i' ∧ t = t';
  la_apart i i' gdp gdp' t : gs !z i = Some gdp → gs !z i' = Some gdp' → 0 ≤ t < itb →
    bg_inode_table gdp + t ≠ bg_block_bitmap gdp' ∧ bg_inode_table gdp + t ≠ bg_inode_bitmap gdp';
  la_range i gdp : gs !z i = Some gdp → 0 ≤ bg_inode_table gdp ∧ bg_inode_table gdp + itb ≤ 2 ^ 32
}.

Record igroup_ok (i : Z) (gdp : ext2_group_desc) (map : list Z) : Prop := {
  igr_words : words_ok map;
  igr_len : ipg ≤ 32 * zlen map;
  igr_count : bg_free_inodes_count gdp = zeros map ipg;
  igr_valid j : 0 ≤ j < ipg → bit map j = false → first_ino ig ≤ i * ipg + j + 1 ≤ s_inodes_count ig
}.

Record ifs_ok (f : ifs) : Prop := {
  io_base : fs_ok (geo ig) (base f);
  io_layout : layout (groups (base f));
  io_group i gdp : groups (base f) !z i = Some gdp →
    ∃ map, cache (base f) !! bg_inode_bitmap gdp = Some map ∧ igroup_ok i gdp map;
  io_table i gdp t : groups (base f) !z i = Some gdp → 0 ≤ t < itb →
    ∃ ptr, cache (base f) !! (bg_inode_table gdp + t) = Some ptr
      ∧ inodes_per_block ig * (inode_size ig / 4) ≤ zlen ptr;
  io_total : s_free_inodes_count f = sum_of bg_free_inodes_count (groups (base f))
}.

Definition ifree_in (f : ifs) (i j : Z) : bool :=
  match gdp ← groups (base f) !z i; cache (base f) !! bg_inode_bitmap gdp with
  | Some map => negb (bit map j)
  | None => false
  end.

Definition inode_free (f : ifs) (n : Z) : bool :=
  bool_decide (1 ≤ n) && ifree_in f ((n - 1) / ipg) ((n - 1) mod ipg).

(** The record of an inode on the disk. *)
Definition dino (f : fs) (n : Z) : option (list Z) :=
  block ← dino_block ig n (groups f);
  ptr ← cache f !! block;
  mem_read ((u64 (n - 1) mod ipg) mod inodes_per_block ig * inode_size ig / 4) (inode_size ig / 4) ptr.

(** ** Changes that leave the blocks alone *)
Definition zones (gdp : ext2_group_desc) : Z * Z * Z := (bg_block_bitmap gdp, bg_inode_bitmap gdp, bg_inode_table gdp).

Definition same_zones (gs gs' : list ext2_group_desc) : Prop :=
  length gs' = length gs
  ∧ ∀ i gdp', gs' !z i = Some gdp' →
      ∃ gdp, gs !z i = Some gdp ∧ zones gdp' = zones gdp ∧ bg_free_blocks_count gdp' = bg_free_blocks_count gdp.

Lemma same_zones_updz gs i gdp free dirs :
  gs !z i = Some gdp → same_zones gs (updz i (set_inode_counts free dirs gdp) gs).
Proof.
  intros Hi. pose proof (lookupz_lt _ _ _ Hi). split; [apply length_updz|]. intros x gdp' Hx.
  destruct (decide (x = i)) as [->|].
  - rewrite lookupz_updz_eq in Hx by lia. injection Hx as <-. by exists gdp.
  - rewrite lookupz_updz_ne in Hx by done. by exists gdp'.
Qed.

Lemma same_zones_refl gs : same_zones gs gs.
Proof. split; [done|]. intros i gdp Hi. by exists gdp. Qed.

Lemma layout_same gs gs' : layout gs → same_zones gs gs' → layout gs'.
Proof.
  intros [L1 L2 L3 L4] [_ Hs]. split.
  - intros i i' g1 g2 H1 H2. destruct (Hs i g1 H1) as (g1' & H1' & [= A1 A2 A3] & _), (Hs i' g2 H2) as (g2' & H2' & [= B1 B2 B3] & _).
    rewrite ?A1, ?A2, ?A3, ?B1, ?B2, ?B3. by apply (L1 i i').
  - intros i i' g1 g2 t t' H1 H2. destruct (Hs i g1 H1) as (g1' & H1' & [= A1 A2 A3] & _), (Hs i' g2 H2) as (g2' & H2' & [= B1 B2 B3] & _).
    rewrite ?A1, ?A2, ?A3, ?B1, ?B2, ?B3. by apply L2.
  - intros i i' g1 g2 t H1 H2. destruct (Hs i g1 H1) as (g1' & H1' & [= A1 A2 A3] & _), (Hs i' g2 H2) as (g2' & H2' & [= B1 B2 B3] & _).
    rewrite ?A1, ?A2, ?A3, ?B1, ?B2, ?B3. by apply (L3 i i').
  - intros i g1 H1. destruct (Hs i g1 H1) as (g1' & H1' & [= _ _ ->] & _). by apply (L4 i).
Qed.

Lemma total_same gs gs' : same_zones gs gs' → sum_of bg_free_blocks_count gs' = sum_of bg_free_blocks_count gs.
Proof.
  revert gs'. induction gs as [|x gs IH]; intros [|x' gs'] [Hlen Hs]; try done. cbn [sum_of].
  destruct (Hs 0 x' eq_refl) as (y & [= <-] & _ & ->). rewrite (IH gs'); [done|]. split; [by injection Hlen|].
  intros i gdp' Hi. pose proof (lookupz_lt _ _ _ Hi).
  destruct (Hs (1 + i) gdp') as (gdp & Hg & Hz); [rewrite <-Hi; apply (lookupz_app_r [x']); lia|].
  exists gdp. split; [|done]. rewrite <-Hg. symmetry. apply (lookupz_app_r [x]). lia.
Qed.

(** The allocation of blocks does not see the change. *)
Lemma frame_ok f f' :
  fs_ok (geo ig) f → same_zones (groups f) (groups f') → s_free_blocks_count f' = s_free_blocks_count f →
  modified_global_blocks f' = modified_global_blocks f →
  (∀ i gdp, groups f !z i = Some gdp → cache f' !! bg_block_bitmap gdp = cache f !! bg_block_bitmap gdp) →
  fs_ok (geo ig) f' ∧ ∀ n, is_free (geo ig) f' n = is_free (geo ig) f n.
Proof.
  intros Hf Hz Hfree Hmod Hc. pose proof Hz as [Hlen Hs]. split.
  - split.
    + rewrite Hlen. apply Hf.
    + intros i gdp' Hi. destruct (Hs i gdp' Hi) as (gdp & Hg & [= H1 H2 H3] & H4).
      destruct (fo_group _ f Hf i gdp Hg) as (map & Hm & [A B C D]). exists map. rewrite H1, (Hc i gdp Hg). split; [done|].
      split; [done|by rewrite H4| |by rewrite H3]. intros j Hj Hb. pose proof (C j Hj Hb) as Hu. unfold usable in *. by rewrite H1, H2, H3.
    + intros i i' g1 g2 H1 H2 He. destruct (Hs i g1 H1) as (g1' & H1' & [= E1 _ _] & _), (Hs i' g2 H2) as (g2' & H2' & [= E2 _ _] & _).
      apply (fo_distinct _ f Hf i i' g1' g2'); congruence.
    + rewrite Hfree, (total_same _ _ Hz). apply Hf.
    + rewrite Hmod. apply Hf.
  - intros n. unfold is_free. f_equal. unfold free_in. set (i := (n - _) / _).
    destruct (groups f' !z i) as [gdp'|] eqn:Hi.
    + destruct (Hs i gdp' Hi) as (gdp & Hg & [= H1 _ _] & _). rewrite Hg. simpl. by rewrite H1, (Hc i gdp Hg).
    + destruct (groups f !z i) as [gdp|] eqn:Hg; [|done]. pose proof (lookupz_lt _ _ _ Hg).
      destruct (lookupz_is_Some (groups f') i) as [? Hx]; [lia|]. congruence.
Qed.
End state.

(** ** The choice of a group *)
Section choice.
Context (ig : igeometry).

Abbreviation ipg := (s_inodes_per_group ig).
Abbreviation G := (groups_count (geo ig)).

Definition has_inode (gs : list ext2_group_desc) (i : Z) : Prop :=
  ∃ gdp, gs !z i = Some gdp ∧ bg_free_inodes_count gdp ≠ 0.

Lemma best_group_ok n j ave best gs :
  0 ≤ j → j + Z.of_nat n ≤ zlen gs → (∀ i gdp, best = Some (i, gdp) → gs !z i = Some gdp ∧ bg_free_inodes_count gdp ≠ 0) →
  ∃ r, best_group n j ave best gs = Some r
    ∧ (∀ i gdp, r = Some (i, gdp) → gs !z i = Some gdp ∧ bg_free_inodes_count gdp ≠ 0)
    ∧ (r = None → best = None ∧ ∀ x gdp, j ≤ x < j + Z.of_nat n → gs !z x = Some gdp →
         bg_free_inodes_count gdp = 0 ∨ bg_free_inodes_count gdp < ave).
Proof.
  revert j best. induction n as [|n IH]; intros j best Hj Hlen Hbest; cbn [best_group].
  { exists best. split_and!; [done|done|]. intros ->. split; [done|]. lia. }
  destruct (lookupz_is_Some gs j) as [tmp Htmp]; [lia|]. rewrite Htmp. cbn [mbind option_bind].
  set (best1 := if decide _ then _ else _).
  assert (Hb1 : ∀ i gdp, best1 = Some (i, gdp) → gs !z i = Some gdp ∧ bg_free_inodes_count gdp ≠ 0).
  { intros i gdp. unfold best1. case_decide as Hd; [|apply Hbest]. destruct best as [[i0 gdp0]|].
    - case_decide; [intros [= <- <-]; split; [done|apply Hd]|apply Hbest].
    - intros [= <- <-]. split; [done|apply Hd]. }
  destruct (IH (j + 1) best1) as (r & -> & Hr & Hnone); [lia|lia|done|]. exists r. split_and!; [done|done|].
  intros Hrn. destruct (Hnone Hrn) as [Hb1n Hall].
  assert (Hcase : best = None ∧ ¬ (bg_free_inodes_count tmp ≠ 0 ∧ ave ≤ bg_free_inodes_count tmp)).
  { unfold best1 in Hb1n. case_decide as Hd; [|done]. destruct best as [[i0 gdp0]|]; [by case_decide|done]. }
  destruct Hcase as [-> Hd]. split; [done|]. intros x gdp Hx Hg. destruct (decide (x = j)) as [->|].
  - rewrite Htmp in Hg. injection Hg as <-. lia.
  - apply (Hall x); [lia|done].
Qed.

(** If no group has an average number of free inodes, none has one at all. *)
Lemma average_ok gs :
  0 < zlen gs → (∀ i gdp, gs !z i = Some gdp → 0 ≤ bg_free_inodes_count gdp) →
  (∀ i gdp, gs !z i = Some gdp → bg_free_inodes_count gdp = 0
     ∨ bg_free_inodes_count gdp < sum_of bg_free_inodes_count gs / zlen gs) →
  ∀ i gdp, gs !z i = Some gdp → bg_free_inodes_count gdp = 0.
Proof.
  intros Hlen Hpos Hall i gdp Hi. destruct (Hall i gdp Hi) as [|Hlt]; [done|]. exfalso.
  set (ave := sum_of bg_free_inodes_count gs / zlen gs) in *. pose proof (Hpos i gdp Hi).
  assert (0 ≤ sum_of bg_free_inodes_count gs ≤ (ave - 1) * zlen gs) as [_ Hle].
  { apply sum_of_bounds. intros x g Hx. pose proof (Hpos x g Hx). destruct (Hall x g Hx); lia. }
  assert (ave * zlen gs ≤ sum_of bg_free_inodes_count gs) by (rewrite Z.mul_comm; apply Z.mul_div_le; lia). lia.
Qed.

Lemma quadratic_ok rounds j i gs :
  zlen gs = G → 0 ≤ i < G → 1 ≤ j → G ≤ j * 2 ^ Z.of_nat rounds →
  ∃ r, quadratic ig rounds j i gs = Some r
    ∧ match r with
      | Some i' => has_inode gs i'
      | None => j < G → ∀ gdp, gs !z ((i + j) mod G) = Some gdp → bg_free_inodes_count gdp = 0
      end.
Proof.
  intros Hlen. revert j i. induction rounds as [|rounds IH]; intros j i Hi Hj Hr; cbn [quadratic].
  { rewrite decide_False by lia. exists None. split; [done|lia]. }
  case_decide as Hlt; [|exists None; split; [done|lia]].
  set (i1 := if decide (G ≤ i + j) then i + j - G else i + j).
  assert (Hi1 : i1 = (i + j) mod G ∧ 0 ≤ i1 < G).
  { unfold i1. case_decide.
    - split; [|lia]. rewrite <-(Z.mod_small (i + j - G) G) by lia. rewrite <-(Z.mod_add (i + j - G) 1 G) by lia. f_equal. lia.
    - rewrite Z.mod_small by lia. lia. }
  destruct (lookupz_is_Some gs i1) as [tmp Htmp]; [lia|]. rewrite Htmp. cbn [mbind option_bind].
  case_decide as Hz; [exists (Some i1); split; [done|by exists tmp]|].
  destruct (IH (Z.shiftl j 1) i1) as (r & -> & Hres); [lia|rewrite Z.shiftl_mul_pow2 by lia; lia| |].
  { rewrite Z.shiftl_mul_pow2 by lia. rewrite Nat2Z.inj_succ, Z.pow_succ_r in Hr by lia. lia. }
  exists r. split; [done|]. destruct r; [done|]. intros _ gdp Hg. rewrite <-(proj1 Hi1), Htmp in Hg. injection Hg as <-. lia.
Qed.

Lemma linear_ok n i gs :
  zlen gs = G → 0 ≤ i ≤ G → 0 < G →
  ∃ r, linear ig n i gs = Some r
    ∧ match r with
      | Some i' => has_inode gs i'
      | None => i < G → ∀ m gdp, 1 ≤ m ≤ Z.of_nat n → gs !z ((i + m) mod G) = Some gdp → bg_free_inodes_count gdp = 0
      end.
Proof.
  intros Hlen. revert i. induction n as [|n IH]; intros i Hi HG; cbn [linear]; [exists None; split; [done|lia]|].
  set (i1 := if decide (G ≤ i + 1) then 0 else i + 1).
  assert (Hi1 : 0 ≤ i1 < G ∧ (i < G → i1 = (i + 1) mod G)).
  { unfold i1. case_decide; split; try lia; intros.
    - assert (i + 1 = G) as -> by lia. by rewrite Z.mod_same by lia.
    - by rewrite Z.mod_small by lia. }
  destruct (lookupz_is_Some gs i1) as [tmp Htmp]; [lia|]. rewrite Htmp. cbn [mbind option_bind].
  case_decide as Hz; [exists (Some i1); split; [done|by exists tmp]|].
  destruct (IH i1) as (r & -> & Hres); [lia|done|]. exists r. split; [done|]. destruct r; [done|].
  intros HiG m gdp Hm Hg. destruct Hi1 as [Hr1 He1]. rewrite (He1 HiG) in *.
  destruct (decide (m = 1)) as [->|].
  - rewrite Htmp in Hg. injection Hg as <-. lia.
  - apply (Hres ltac:(lia) (m - 1)); [lia|]. rewrite Z.add_mod_idemp_l by lia. by replace (i + 1 + (m - 1)) with (i + m) by lia.
Qed.

Lemma group_for_file_ok dir_inum gs :
  zlen gs = G → 0 ≤ inode_group_num ig dir_inum < G →
  ∃ r, group_for_file ig dir_inum gs = Some r
    ∧ match r with
      | Some i => has_inode gs i
      | None => inode_group_num ig dir_inum + 1 < G → ∀ x gdp, gs !z x = Some gdp → bg_free_inodes_count gdp = 0
      end.
Proof.
  intros Hlen Hi. unfold group_for_file. set (i := inode_group_num ig dir_inum) in *.
  destruct (lookupz_is_Some gs i) as [tmp Htmp]; [lia|]. rewrite Htmp. cbn [mbind option_bind].
  case_decide as Hz; [exists (Some i); split; [done|by exists tmp]|].
  destruct (quadratic_ok (Z.to_nat G) 1 i gs) as (q & -> & Hq); [done|done|lia| |].
  { rewrite Z2Nat.id by lia. pose proof (Z.pow_gt_lin_r 2 G). lia. }
  cbn [mbind option_bind]. destruct q as [i'|]; [by exists (Some i')|].
  destruct (linear_ok (Z.to_nat (G - 2)) (i + 1) gs) as (r & -> & Hr); [done|lia|lia|]. exists r. split; [done|].
  destruct r as [i'|]; [done|]. intros Hlast x gdp Hx. pose proof (lookupz_lt _ _ _ Hx) as Hxr.
  pose proof (Z.mod_pos_bound (x - i) G ltac:(lia)) as Hm.
  assert (Hxm : x = (i + (x - i) mod G) mod G).
  { rewrite Z.add_mod_idemp_r by lia. replace (i + (x - i)) with x by lia. by rewrite Z.mod_small by lia. }
  destruct (decide ((x - i) mod G = 0)) as [E0|]; [|destruct (decide ((x - i) mod G = 1)) as [E1|]].
  - rewrite Hxm, E0, Z.add_0_r, Z.mod_small, Htmp in Hx by lia. injection Hx as <-. lia.
  - apply Hq; [lia|]. by rewrite <-E1, <-Hxm.
  - apply (Hr ltac:(lia) ((x - i) mod G - 1)); [lia|].
    by replace (i + 1 + ((x - i) mod G - 1)) with (i + (x - i) mod G) by lia; rewrite <-Hxm.
Qed.
End choice.

(** ** Taking an inode *)
Section take.
Context (long : Z) (ig : igeometry).
Hypothesis Hlong : long = 32 ∨ long = 64.
Hypothesis Hig : igeometry_ok ig.

Abbreviation ipg := (s_inodes_per_group ig).
Abbreviation ipb := (inodes_per_block ig).
Abbreviation G := (groups_count (geo ig)).
Abbreviation itb := (itb_per_group (geo ig)).
Abbreviation words := (inode_size ig / 4).

Lemma icount_bounds f i gdp : ifs_ok ig f → groups (base f) !z i = Some gdp → 0 ≤ bg_free_inodes_count gdp ≤ ipg.
Proof.
  intros Hf Hi. destruct (io_group ig f Hf i gdp Hi) as (map & _ & [_ _ -> _]). apply zeros_bounds.
  pose proof (ig_ipg ig Hig). lia.
Qed.

Lemma inode_in_group n : 1 ≤ n ≤ G * ipg → 0 ≤ (n - 1) / ipg < G ∧ 0 ≤ (n - 1) mod ipg < ipg.
Proof.
  intros Hn. pose proof (ig_ipg ig Hig). split; [|apply Z.mod_pos_bound; lia].
  split; [apply Z.div_pos; lia|apply Z.div_lt_upper_bound; lia].
Qed.

(** Where the record of an inode is. *)
Definition table_of (n : Z) : Z := (n - 1) mod ipg / ipb.
Definition word_of (n : Z) : Z := (n - 1) mod ipg mod ipb * words.

Lemma word_of_eq n : 1 ≤ n ≤ G * ipg → (u64 (n - 1) mod ipg) mod ipb * inode_size ig / 4 = word_of n.
Proof.
  intros Hn. pose proof (ig_count ig Hig). destruct (ig_size ig Hig) as [_ Hs]. rewrite u64_id by lia. unfold word_of.
  rewrite (Z.div_mod (inode_size ig) 4), Hs, Z.add_0_r at 1 by lia.
  rewrite (Z.mul_comm 4), Z.mul_assoc, Z.div_mul by lia. done.
Qed.

Lemma word_of_bounds n : 1 ≤ n ≤ G * ipg → 0 ≤ word_of n ∧ word_of n + words ≤ ipb * words ∧ 0 ≤ words.
Proof.
  intros Hn. destruct (ig_size ig Hig). pose proof (ig_block ig Hig). pose proof (Z.mod_pos_bound ((n - 1) mod ipg) ipb).
  assert (0 ≤ words) by (apply Z.div_pos; lia). unfold word_of. nia.
Qed.

Lemma dino_block_ok gs n :
  layout ig gs → zlen gs = G → 1 ≤ n ≤ G * ipg →
  ∃ gdp, gs !z ((n - 1) / ipg) = Some gdp ∧ dino_block ig n gs = Some (bg_inode_table gdp + table_of n)
    ∧ 0 ≤ table_of n < itb.
Proof.
  intros Hla Hlen Hn. pose proof (ig_count ig Hig). destruct (inode_in_group n Hn) as [Hg Hm].
  pose proof (ig_block ig Hig). pose proof (ig_table ig Hig).
  destruct (lookupz_is_Some gs ((n - 1) / ipg)) as [gdp Hgdp]; [lia|]. exists gdp. split; [done|].
  assert (Ht : 0 ≤ table_of n < itb).
  { unfold table_of. split; [apply Z.div_pos; lia|apply Z.div_lt_upper_bound; lia]. }
  split; [|done]. unfold dino_block. rewrite u64_id, Hgdp by lia. cbn [mbind option_bind].
  destruct (la_range ig gs Hla _ gdp Hgdp). fold (table_of n). by rewrite u32_id by lia.
Qed.

(** Different inodes have different records. *)
Lemma records_apart gs n n' gdp gdp' :
  layout ig gs → gs !z ((n - 1) / ipg) = Some gdp → gs !z ((n' - 1) / ipg) = Some gdp' →
  0 ≤ table_of n < itb → 0 ≤ table_of n' < itb → 0 ≤ words → n ≠ n' →
  bg_inode_table gdp + table_of n = bg_inode_table gdp' + table_of n' →
  word_of n' + words ≤ word_of n ∨ word_of n + words ≤ word_of n'.
Proof.
  intros Hla H1 H2 Ht Ht' Hw Hne He.
  destruct (la_tables ig gs Hla _ _ gdp gdp' _ _ H1 H2 Ht Ht' He) as [E1 E2].
  pose proof (ig_ipg ig Hig). pose proof (ig_block ig Hig). unfold table_of, word_of in *.
  pose proof (Z.div_mod (n - 1) ipg). pose proof (Z.div_mod (n' - 1) ipg).
  pose proof (Z.div_mod ((n - 1) mod ipg) ipb). pose proof (Z.div_mod ((n' - 1) mod ipg) ipb).
  assert ((n - 1) mod ipg mod ipb ≠ (n' - 1) mod ipg mod ipb).
  { intros E3. apply Hne. rewrite E1, E2, E3 in *. lia. }
  nia.
Qed.
Lemma slice_splice_apart i d j n (l : list Z) :
  0 ≤ i → 0 ≤ j → 0 ≤ n → i + zlen d ≤ zlen l → j + n ≤ i ∨ i + zlen d ≤ j → slice j n (splice i d l) = slice j n l.
Proof. intros. slices. Qed.

Lemma dino_eq f n gdp ptr :
  layout ig (groups f) → zlen (groups f) = G → 1 ≤ n ≤ G * ipg → groups f !z ((n - 1) / ipg) = Some gdp →
  cache f !! (bg_inode_table gdp + table_of n) = Some ptr → ipb * words ≤ zlen ptr →
  dino ig f n = Some (slice (word_of n) words ptr).
Proof.
  intros Hla Hl Hn Hg Hp Hlen. destruct (dino_block_ok (groups f) n Hla Hl Hn) as (gdp' & Hg' & Hb & Ht).
  rewrite Hg in Hg'. injection Hg' as <-.
  unfold dino. rewrite Hb. cbn [mbind option_bind]. rewrite Hp. cbn [mbind option_bind]. rewrite word_of_eq by done.
  destruct (word_of_bounds n Hn) as (? & ? & ?). by rewrite mem_read_ok by lia.
Qed.

(** A change of a block of an inode table. *)
Lemma touch_table_ok f i gdp t ptr ptr' :
  ifs_ok ig f → groups (base f) !z i = Some gdp → 0 ≤ t < itb → cache (base f) !! (bg_inode_table gdp + t) = Some ptr →
  zlen ptr' = zlen ptr →
  let b := mk_fs (s_free_blocks_count (base f)) (groups (base f)) (<[bg_inode_table gdp + t := ptr']> (cache (base f)))
    (modified_global_blocks (base f)) (freed (base f)) (messages (base f)) in
  ifs_ok ig (mk_ifs b (s_free_inodes_count f)) ∧ (∀ n, is_free (geo ig) b n = is_free (geo ig) (base f) n)
  ∧ (∀ n, inode_free ig (mk_ifs b (s_free_inodes_count f)) n = inode_free ig f n).
Proof.
  intros Hf Hi Ht Hp Hlen b. pose proof (io_layout ig f Hf) as Hla.
  assert (Hib : ∀ x gx, groups (base f) !z x = Some gx → cache b !! bg_inode_bitmap gx = cache (base f) !! bg_inode_bitmap gx).
  { intros x gx Hx. simpl. apply lookup_insert_ne. by destruct (la_apart ig _ Hla i x gdp gx t Hi Hx Ht). }
  destruct (frame_ok ig (base f) b (io_base ig f Hf) (same_zones_refl _)) as [Hb Hfree]; [done..| |].
  { intros x gx Hx. simpl. apply lookup_insert_ne. by destruct (la_apart ig _ Hla i x gdp gx t Hi Hx Ht). }
  split_and!; [|done|].
  - split; simpl; [done|done| | |apply Hf].
    + intros x gx Hx. pose proof (Hib x gx Hx) as E. simpl in E. rewrite E. by apply (io_group ig f Hf).
    + intros x gx tx Hx Htx. destruct (io_table ig f Hf x gx tx Hx Htx) as (px & Hpx & Hl).
      destruct (decide (bg_inode_table gdp + t = bg_inode_table gx + tx)) as [E|E].
      * exists ptr'. rewrite E, lookup_insert_eq. split; [done|]. rewrite E, Hpx in Hp. injection Hp as ->. lia.
      * exists px. by rewrite lookup_insert_ne.
  - intros n. unfold inode_free, ifree_in. f_equal. simpl.
    destruct (groups (base f) !z ((n - 1) / ipg)) as [gx|] eqn:Hx; [|done]. simpl.
    pose proof (Hib _ gx Hx) as E. simpl in E. by rewrite E.
Qed.

Lemma clear_dino_ok f inum :
  ifs_ok ig f → 1 ≤ inum ≤ G * ipg →
  ∃ b, clear_dino ig inum (base f) = Some b ∧ ifs_ok ig (mk_ifs b (s_free_inodes_count f))
    ∧ (∀ n, is_free (geo ig) b n = is_free (geo ig) (base f) n)
    ∧ (∀ n, inode_free ig (mk_ifs b (s_free_inodes_count f)) n = inode_free ig f n)
    ∧ messages b = messages (base f) ∧ dino ig b inum = Some (replicate (Z.to_nat words) 0)
    ∧ ∀ n, 1 ≤ n ≤ G * ipg → n ≠ inum → dino ig b n = dino ig (base f) n.
Proof.
  intros Hf Hn. pose proof (io_layout ig f Hf) as Hla. pose proof (fo_groups _ _ (io_base ig f Hf)) as Hlen.
  destruct (dino_block_ok _ inum Hla Hlen Hn) as (gdp & Hg & Hb & Ht).
  destruct (io_table ig f Hf _ gdp (table_of inum) Hg Ht) as (ptr & Hp & Hpl).
  destruct (word_of_bounds inum Hn) as (Hw0 & Hw1 & Hw2). unfold clear_dino. rewrite Hb. cbn [mbind option_bind].
  rewrite Hp. cbn [mbind option_bind]. rewrite word_of_eq by done.
  assert (Hz : zlen (replicate (Z.to_nat words) 0) = words) by (rewrite length_replicate; lia).
  rewrite mem_write_ok by lia. cbn [mbind option_bind]. set (ptr' := splice _ _ _).
  assert (Hpl' : zlen ptr' = zlen ptr) by (unfold ptr'; apply zlen_splice; lia).
  destruct (touch_table_ok f _ gdp (table_of inum) ptr ptr' Hf Hg Ht Hp Hpl') as (Hok & Hfree & Hif). set (b := mk_fs _ _ _ _ _ _) in *.
  exists b. split; [done|]. split_and!; try done.
  - rewrite (dino_eq b inum gdp ptr'); [|done|done|done|done|simpl; by rewrite lookup_insert_eq|lia].
    f_equal. pose proof (slice_splice (word_of inum) (replicate (Z.to_nat words) 0) ptr) as E. rewrite Hz in E. apply E; lia.
  - intros n Hnr Hne. destruct (dino_block_ok _ n Hla Hlen Hnr) as (gn & Hgn & _ & Htn).
    destruct (io_table ig f Hf _ gn (table_of n) Hgn Htn) as (pn & Hpn & Hpln).
    rewrite (dino_eq (base f) n gn pn) by done.
    destruct (decide (bg_inode_table gdp + table_of inum = bg_inode_table gn + table_of n)) as [E|E].
    + rewrite (dino_eq b n gn ptr'); [|done|done|done|done|simpl; by rewrite E, lookup_insert_eq|lia].
      rewrite E, Hpn in Hp. injection Hp as ->. f_equal. destruct (word_of_bounds n Hnr) as (? & ? & ?).
      apply slice_splice_apart; try lia. rewrite Hz.
      pose proof (records_apart _ inum n gdp gn Hla Hg Hgn Ht Htn). lia.
    + rewrite (dino_eq b n gn pn); [done|done|done|done|done|simpl; by rewrite lookup_insert_ne|done].
Qed.
(** A change of the inode bitmap of a group, with its counts. *)
Definition ichanged (i : Z) (gdp : ext2_group_desc) (map : list Z) (d dirs : Z) (f : ifs) : ifs :=
  mk_ifs (poke i (set_inode_counts (bg_free_inodes_count gdp + d) dirs gdp) (bg_inode_bitmap gdp) map (base f))
    (s_free_inodes_count f + d).

Lemma ichanged_groups i gdp map d dirs f x gx :
  groups (base f) !z i = Some gdp → groups (base (ichanged i gdp map d dirs f)) !z x = Some gx →
  ∃ g0, groups (base f) !z x = Some g0 ∧ zones gx = zones g0
    ∧ (x ≠ i → gx = g0) ∧ (x = i → g0 = gdp ∧ gx = set_inode_counts (bg_free_inodes_count gdp + d) dirs gdp).
Proof.
  intros Hi Hx. pose proof (lookupz_lt _ _ _ Hi). simpl in Hx. destruct (decide (x = i)) as [->|].
  - rewrite lookupz_updz_eq in Hx by lia. injection Hx as <-. by exists gdp.
  - rewrite lookupz_updz_ne in Hx by done. by exists gx.
Qed.

Lemma ichanged_free i gdp map d dirs f i' j :
  ifs_ok ig f → groups (base f) !z i = Some gdp →
  ifree_in (ichanged i gdp map d dirs f) i' j = if decide (i' = i) then negb (bit map j) else ifree_in f i' j.
Proof.
  intros Hf Hi. pose proof (lookupz_lt _ _ _ Hi) as Hlt. unfold ifree_in. simpl. case_decide as Hd.
  - subst i'. rewrite lookupz_updz_eq by lia. simpl. by rewrite lookup_insert_eq.
  - rewrite lookupz_updz_ne by done. destruct (groups (base f) !z i') as [gdp'|] eqn:Hi'; [|done]. simpl.
    rewrite lookup_insert_ne; [done|]. intros E. apply Hd.
    symmetry. by apply (la_bitmaps ig _ (io_layout ig f Hf) i i' gdp gdp').
Qed.

Lemma ichanged_ok i gdp map map' d dirs f :
  ifs_ok ig f → groups (base f) !z i = Some gdp → cache (base f) !! bg_inode_bitmap gdp = Some map →
  words_ok map' → ipg ≤ 32 * zlen map' → d = zeros map' ipg - zeros map ipg →
  (∀ j, 0 ≤ j < ipg → bit map' j = false → first_ino ig ≤ i * ipg + j + 1 ≤ s_inodes_count ig) →
  let f' := ichanged i gdp map' d dirs f in
  ifs_ok ig f' ∧ (∀ n, is_free (geo ig) (base f') n = is_free (geo ig) (base f) n)
  ∧ (∀ n, 1 ≤ n ≤ G * ipg → dino ig (base f') n = dino ig (base f) n).
Proof.
  intros Hf Hi Hc Hw Hlen -> Hvalid f'. pose proof (io_layout ig f Hf) as Hla.
  pose proof (fo_groups _ _ (io_base ig f Hf)) as Hgl.
  destruct (io_group ig f Hf i gdp Hi) as (map0 & Hc0 & [_ _ Hcnt _]). rewrite Hc in Hc0. injection Hc0 as <-.
  assert (Hz : same_zones (groups (base f)) (groups (base f'))) by (by apply same_zones_updz).
  assert (Hlook : ∀ x gx, groups (base f') !z x = Some gx → _) by (intros x gx; by apply ichanged_groups).
  assert (Htab : ∀ x g0 t, groups (base f) !z x = Some g0 → 0 ≤ t < itb →
    cache (base f') !! (bg_inode_table g0 + t) = cache (base f) !! (bg_inode_table g0 + t)).
  { intros x g0 t Hx Ht. simpl. apply lookup_insert_ne. intros E. by destruct (la_apart ig _ Hla x i g0 gdp t Hx Hi Ht). }
  destruct (frame_ok ig (base f) (base f') (io_base ig f Hf) Hz) as [Hb Hfree]; [done..| |].
  { intros x gx Hx. simpl. apply lookup_insert_ne. by destruct (la_bitmaps ig _ Hla i x gdp gx Hi Hx). }
  split_and!; [|done|].
  - split; [done|by apply layout_same with (groups (base f))| | |].
    + intros x gx Hx. destruct (Hlook x gx Hx) as (g0 & H0 & [= _ Eb _] & Hne & He). rewrite Eb. simpl.
      destruct (decide (x = i)) as [->|Hd].
      * destruct (He eq_refl) as [-> ->]. rewrite lookup_insert_eq. exists map'. split; [done|]. split; try done. simpl. lia.
      * rewrite (Hne Hd) in *. destruct (io_group ig f Hf x g0 H0) as (m & Hm & Hgr). exists m. split; [|done].
        rewrite lookup_insert_ne; [done|]. intros E. apply Hd. symmetry. by apply (la_bitmaps ig _ Hla i x gdp g0).
    + intros x gx t Hx Ht. destruct (Hlook x gx Hx) as (g0 & H0 & [= _ _ Et] & _). rewrite Et, (Htab x g0 t H0 Ht).
      by apply (io_table ig f Hf x).
    + simpl. rewrite (sum_of_updz _ _ _ gdp) by done. rewrite (io_total ig f Hf). simpl. lia.
  - intros n Hn. destruct (dino_block_ok _ n Hla Hgl Hn) as (g0 & H0 & _ & Ht).
    destruct (io_table ig f Hf _ g0 _ H0 Ht) as (ptr & Hp & Hpl). rewrite (dino_eq (base f) n g0 ptr) by done.
    pose proof (lookupz_lt _ _ _ H0) as Hr. destruct Hz as [Hzl _].
    destruct (lookupz_is_Some (groups (base f')) ((n - 1) / ipg)) as [gx Hx]; [lia|].
    destruct (Hlook _ gx Hx) as (g0' & H0' & [= _ _ Et] & _). rewrite H0 in H0'. injection H0' as <-.
    apply (dino_eq (base f') n gx ptr); try done; [|lia|by rewrite Et, (Htab _ g0 _ H0 Ht)].
    apply layout_same with (groups (base f)); [done|]. by apply same_zones_updz.
Qed.
Lemma inode_place i j : 0 ≤ j < ipg → (i * ipg + j + 1 - 1) / ipg = i ∧ (i * ipg + j + 1 - 1) mod ipg = j.
Proof.
  intros Hj. replace (i * ipg + j + 1 - 1) with (i * ipg + j) by lia.
  split; [rewrite Z.div_add_l, Z.div_small by lia; lia|]. rewrite Z.add_comm, Z.mod_add, Z.mod_small by lia. lia.
Qed.

Lemma inode_free_block f i j : 0 ≤ i → 0 ≤ j < ipg → inode_free ig f (i * ipg + j + 1) = ifree_in f i j.
Proof.
  intros Hi Hj. pose proof (ig_ipg ig Hig). unfold inode_free. rewrite bool_decide_true by nia.
  by destruct (inode_place i j Hj) as [-> ->].
Qed.

(** One inode changes its state. *)
Lemma ichanged_inode_free i j gdp map map' d dirs f n (v : bool) :
  ifs_ok ig f → groups (base f) !z i = Some gdp → cache (base f) !! bg_inode_bitmap gdp = Some map → 0 ≤ j < ipg →
  (∀ x, 0 ≤ x → bit map' x = if decide (x = j) then v else bit map x) →
  inode_free ig (ichanged i gdp map' d dirs f) n
  = if decide (n = i * ipg + j + 1) then negb v else inode_free ig f n.
Proof.
  intros Hf Hi Hc Hj Hbits. pose proof (lookupz_lt _ _ _ Hi) as Hir. pose proof (ig_ipg ig Hig) as Hipg.
  case_decide as Hn.
  - subst n. rewrite inode_free_block, ichanged_free, decide_True, Hbits by (done || lia). by rewrite decide_True.
  - unfold inode_free. case_bool_decide as Hpos; [|done]. cbn [andb]. rewrite ichanged_free by done.
    case_decide as Hd; [|done]. pose proof (Z.div_mod (n - 1) ipg). pose proof (Z.mod_pos_bound (n - 1) ipg).
    rewrite Hbits, decide_False by nia. unfold ifree_in. rewrite Hd, Hi. simpl. by rewrite Hc.
Qed.

Lemma icount_le_total f i gdp :
  ifs_ok ig f → groups (base f) !z i = Some gdp →
  bg_free_inodes_count gdp ≤ s_free_inodes_count f ∧ s_free_inodes_count f - bg_free_inodes_count gdp + ipg < 2 ^ 32.
Proof.
  intros Hf Hi. pose proof (lookupz_lt _ _ _ Hi) as Hir. pose proof (ig_ipg ig Hig) as Hp. pose proof (ig_count ig Hig).
  assert (Hb : ∀ c, 0 ≤ c ≤ ipg → 0 ≤ sum_of bg_free_inodes_count (updz i (set_inode_counts c 0 gdp) (groups (base f))) ≤ ipg * G).
  { intros c Hc. rewrite <-(fo_groups _ _ (io_base ig f Hf)), <-(length_updz i (set_inode_counts c 0 gdp)). apply sum_of_bounds.
    intros x gx Hx. destruct (decide (x = i)) as [->|].
    - rewrite lookupz_updz_eq in Hx by lia. injection Hx as <-. simpl. lia.
    - rewrite lookupz_updz_ne in Hx by done. by apply (icount_bounds f x). }
  pose proof (Hb 0 ltac:(lia)) as H0. pose proof (Hb ipg ltac:(lia)) as H1.
  rewrite (sum_of_updz _ _ _ gdp) in H0, H1 by done. rewrite (io_total ig f Hf). simpl in *. lia.
Qed.

Lemma take_inode_ok is_dir i f :
  ifs_ok ig f → has_inode (groups (base f)) i →
  ∃ inum f', take_inode long ig is_dir i f = Some (inr (inum, f'))
    ∧ first_ino ig ≤ inum ≤ s_inodes_count ig ∧ inode_free ig f inum = true
    ∧ ifs_ok ig f' ∧ messages (base f') = messages (base f)
    ∧ (∀ n, inode_free ig f' n = inode_free ig f n && negb (bool_decide (n = inum)))
    ∧ (∀ n, is_free (geo ig) (base f') n = is_free (geo ig) (base f) n)
    ∧ dino ig (base f') inum = Some (replicate (Z.to_nat words) 0)
    ∧ ∀ n, 1 ≤ n ≤ G * ipg → n ≠ inum → dino ig (base f') n = dino ig (base f) n.
Proof.
  intros Hf (gdp & Hi & Hne). pose proof (ig_ipg ig Hig) as Hipg. pose proof (ig_count ig Hig) as Hcount.
  pose proof (lookupz_lt _ _ _ Hi) as Hir. rewrite (fo_groups _ _ (io_base ig f Hf)) in Hir.
  destruct (io_group ig f Hf i gdp Hi) as (map & Hc & [Hw Hlen Hcnt Hvalid]).
  pose proof (icount_bounds f i gdp Hf Hi). destruct (icount_le_total f i gdp Hf Hi).
  unfold take_inode. rewrite Hi. cbn [mbind option_bind]. rewrite Hc. cbn [mbind option_bind].
  destruct (find_first_zero_bit_ok long map ipg Hlong Hw) as (k & -> & Hk & Hkz & Hlt); [lia|]. cbn [mbind option_bind].
  specialize (Hlt ltac:(lia)).
  rewrite decide_True by done. specialize (Hkz Hlt). rewrite (u32_id k) by lia.
  destruct (set_bit_ok k map) as (map' & -> & Hw' & Hl' & Hbits); [done|lia|]. rewrite Hkz. cbn [mbind option_bind].
  rewrite u32_id by nia. replace (k + (i * ipg + 1)) with (i * ipg + k + 1) by lia.
  destruct (Hvalid k ltac:(lia) Hkz) as [Hv1 Hv2]. rewrite decide_False by lia. pose proof (ig_first ig Hig).
  set (dirs := if is_dir then _ else _).
  assert (Hz : zeros map' ipg - zeros map ipg = -1).
  { rewrite (zeros_change map map' ipg k), Hbits, Hkz, bool_decide_true; [simpl; lia|done|lia|lia|].
    intros x Hx Hnx. by rewrite Hbits, bool_decide_false, orb_false_r by done. }
  assert (Hform : mk_ifs (poke i (set_inode_counts (u16 (bg_free_inodes_count gdp - 1)) dirs gdp) (bg_inode_bitmap gdp) map' (base f))
     (u32 (s_free_inodes_count f - 1)) = ichanged i gdp map' (-1) dirs f).
  { unfold ichanged, u16. rewrite Z.mod_small, u32_id by lia. done. }
  rewrite Hform. destruct (ichanged_ok i gdp map map' (-1) dirs f) as (Hok1 & Hfree1 & Hdino1); try done; [lia| |].
  { intros j Hj Hb. apply Hvalid; [done|]. rewrite Hbits in Hb by lia. by apply orb_false_iff in Hb as [? _]. }
  unfold sync_out. destruct (clear_dino_ok (ichanged i gdp map' (-1) dirs f) (i * ipg + k + 1)) as (b & -> & Hok2 & Hfree2 & Hif2 & Hmsg2 & Hd2 & Hother);
    [done|lia|].
  cbn [mbind option_bind fmap option_fmap option_map]. eexists _, _. split; [done|]. split; [lia|].
  assert (Hwas : ifree_in f i k = true) by (unfold ifree_in; rewrite Hi; simpl; by rewrite Hc, Hkz).
  split_and!; try done.
  - by rewrite inode_free_block by lia.
  - intros n. rewrite Hif2, (ichanged_inode_free i k gdp map map' (-1) dirs f n true); try done; [|lia|].
    + case_decide as Hn; [|by rewrite bool_decide_false, andb_true_r]. by rewrite bool_decide_true, andb_false_r.
    + intros x Hx. rewrite Hbits by done. case_decide; [subst; by rewrite bool_decide_true, orb_true_r|].
      by rewrite bool_decide_false, orb_false_r.
  - intros n. by rewrite Hfree2.
  - intros n Hn Hnn. rewrite Hother, Hdino1 by done. done.
Qed.
Lemma choose_group_ok dir_inum is_dir f :
  ifs_ok ig f → 1 ≤ dir_inum ≤ G * ipg →
  ∃ r, choose_group ig dir_inum is_dir f = Some r
    ∧ match r with
      | Some i => has_inode (groups (base f)) i
      | None => is_dir = true ∨ inode_group_num ig dir_inum + 1 < G →
          ∀ x gdp, groups (base f) !z x = Some gdp → bg_free_inodes_count gdp = 0
      end.
Proof.
  intros Hf Hdir. pose proof (fo_groups _ _ (io_base ig f Hf)) as Hlen. destruct (inode_in_group dir_inum Hdir) as [Hgr _].
  unfold choose_group. destruct is_dir.
  - destruct (best_group_ok (Z.to_nat G) 0 (s_free_inodes_count f / G) None (groups (base f))) as (r & -> & Hr & Hnone);
      [lia|lia|done|].
    cbn [mbind option_bind]. destruct r as [[i gdp]|].
    + exists (Some i). split; [done|]. exists gdp. by apply Hr.
    + exists None. split; [done|]. intros _. apply average_ok; [lia| |].
      * intros x g Hx. by apply (icount_bounds f x).
      * intros x g Hx. pose proof (lookupz_lt _ _ _ Hx). rewrite <-(io_total ig f Hf), Hlen.
        apply (proj2 (Hnone eq_refl) x); [lia|done].
  - destruct (group_for_file_ok ig dir_inum (groups (base f)) Hlen Hgr) as (r & Hr & Hres). exists r. split; [done|].
    destruct r; [done|]. intros [?|Hlast]; [done|]. by apply Hres.
Qed.

(** The bit of an inode that is freed. *)
Lemma free_inode_step inum is_dir f :
  ifs_ok ig f → first_ino ig ≤ inum ≤ s_inodes_count ig →
  let i := (inum - 1) / ipg in
  let j := (inum - 1) mod ipg in
  ∃ gdp map map', groups (base f) !z i = Some gdp ∧ cache (base f) !! bg_inode_bitmap gdp = Some map
    ∧ free_inode ig inum is_dir f
      = (if bit map j
         then Some (mk_ifs (poke i (set_inode_counts (u16 (bg_free_inodes_count gdp + 1))
                      (if is_dir then u16 (bg_used_dirs_count gdp - 1) else bg_used_dirs_count gdp) gdp)
                      (bg_inode_bitmap gdp) map' (base f)) (u32 (s_free_inodes_count f + 1)))
         else Some (say_inode (Inode_already_cleared inum) f))
    ∧ bit map j = negb (inode_free ig f inum) ∧ words_ok map' ∧ zlen map' = zlen map
    ∧ ∀ x, 0 ≤ x → bit map' x = bit map x && negb (bool_decide (x = j)).
Proof.
  intros Hf Hv i j. pose proof (ig_first ig Hig). pose proof (ig_count ig Hig). pose proof (ig_ipg ig Hig).
  destruct (inode_in_group inum) as [Hi Hj]; [lia|].
  destruct (lookupz_is_Some (groups (base f)) i) as [gdp Hgdp]; [rewrite (fo_groups _ _ (io_base ig f Hf)); lia|].
  destruct (io_group ig f Hf i gdp Hgdp) as (map & Hc & [Hw Hlen _ _]).
  destruct (clear_bit_ok j map) as (map' & Hcl & Hw' & Hl' & Hbits); [done|unfold j; lia|].
  exists gdp, map, map'. split_and!; try done.
  - unfold free_inode. rewrite decide_False by lia. fold i j. rewrite Hgdp. cbn [mbind option_bind]. rewrite Hc.
    cbn [mbind option_bind]. rewrite (u32_id j), Hcl by (unfold j; lia). by destruct (bit map j).
  - unfold inode_free, ifree_in. rewrite bool_decide_true by lia. fold i j. rewrite Hgdp. simpl. by rewrite Hc, negb_involutive.
Qed.

Lemma free_used_ok inum is_dir f :
  ifs_ok ig f → first_ino ig ≤ inum ≤ s_inodes_count ig → inode_free ig f inum = false →
  ∃ f', free_inode ig inum is_dir f = Some f' ∧ ifs_ok ig f' ∧ messages (base f') = messages (base f)
    ∧ (∀ n, inode_free ig f' n = inode_free ig f n || bool_decide (n = inum))
    ∧ (∀ n, is_free (geo ig) (base f') n = is_free (geo ig) (base f) n).
Proof.
  intros Hf Hv Hused. destruct (free_inode_step inum is_dir f Hf Hv) as (gdp & map & map' & Hi & Hc & -> & Hb & Hw' & Hl' & Hbits).
  rewrite Hused in Hb. simpl in Hb. rewrite Hb. pose proof (ig_ipg ig Hig). pose proof (ig_first ig Hig). pose proof (ig_count ig Hig).
  destruct (io_group ig f Hf _ gdp Hi) as (map0 & Hc0 & [Hw Hlen Hcnt Hvalid]). rewrite Hc in Hc0. injection Hc0 as <-.
  set (i := (inum - 1) / ipg) in *. set (j := (inum - 1) mod ipg) in *. set (dirs := if is_dir then _ else _).
  assert (Hj : 0 ≤ j < ipg) by (apply Z.mod_pos_bound; lia).
  assert (Hinum : inum = i * ipg + j + 1) by (pose proof (Z.div_mod (inum - 1) ipg); unfold i, j; lia).
  assert (Hz : zeros map' ipg - zeros map ipg = 1).
  { rewrite (zeros_change map map' ipg j), Hbits, Hb, bool_decide_true; [simpl; lia|done|lia|lia|].
    intros x Hx Hnx. by rewrite Hbits, bool_decide_false, andb_true_r by done. }
  pose proof (zeros_bounds map' ipg ltac:(lia)). destruct (icount_le_total f i gdp Hf Hi).
  pose proof (icount_bounds f i gdp Hf Hi).
  assert (Hform : mk_ifs (poke i (set_inode_counts (u16 (bg_free_inodes_count gdp + 1)) dirs gdp) (bg_inode_bitmap gdp) map' (base f))
     (u32 (s_free_inodes_count f + 1)) = ichanged i gdp map' 1 dirs f).
  { unfold ichanged, u16. rewrite Z.mod_small, u32_id by lia. done. }
  rewrite Hform. destruct (ichanged_ok i gdp map map' 1 dirs f) as (Hok & Hfree & _); try done; [lia| |].
  { intros x Hx Hbx. rewrite Hbits in Hbx by lia. destruct (decide (x = j)) as [->|]; [lia|].
    apply Hvalid; [done|]. by rewrite bool_decide_false, andb_true_r in Hbx by done. }
  eexists. split; [done|]. split_and!; try done. intros n.
  rewrite (ichanged_inode_free i j gdp map map' 1 dirs f n false); try done.
  - rewrite <-Hinum. case_decide as Hn; [subst n; by rewrite bool_decide_true, orb_true_r by done|].
    by rewrite bool_decide_false, orb_false_r by done.
  - intros x Hx. rewrite Hbits by done. case_decide; [by rewrite bool_decide_true, andb_false_r by done|].
    by rewrite bool_decide_false, andb_true_r by done.
Qed.
End take.

(** C20. Allocation of an inode.  The inode that is returned was free and is a valid
    one; it alone becomes used, its record on the disk is cleared and all other
    records stay, the counts stay right, and the allocation of blocks is not
    disturbed.  The result is 0 only if no inode is free, for every directory, and
    for other files if the directory is not in the last group. *)
Theorem ext2_alloc_inode_correct long ig tries dir_inum is_dir f :
  long = 32 ∨ long = 64 → igeometry_ok ig → ifs_ok ig f →
  1 ≤ dir_inum ≤ groups_count (geo ig) * s_inodes_per_group ig →
  (ext2_alloc_inode long ig (S tries) dir_inum is_dir f = Some (0, f)
   ∧ (is_dir = true ∨ inode_group_num ig dir_inum + 1 < groups_count (geo ig) → ∀ n, inode_free ig f n = false))
  ∨ ∃ inum f', ext2_alloc_inode long ig (S tries) dir_inum is_dir f = Some (inum, f')
      ∧ first_ino ig ≤ inum ≤ s_inodes_count ig ∧ inode_free ig f inum = true
      ∧ ifs_ok ig f' ∧ messages (base f') = messages (base f)
      ∧ (∀ n, inode_free ig f' n = inode_free ig f n && negb (bool_decide (n = inum)))
      ∧ (∀ n, is_free (geo ig) (base f') n = is_free (geo ig) (base f) n)
      ∧ dino ig (base f') inum = Some (replicate (Z.to_nat (inode_size ig / 4)) 0)
      ∧ ∀ n, 1 ≤ n ≤ groups_count (geo ig) * s_inodes_per_group ig → n ≠ inum →
          dino ig (base f') n = dino ig (base f) n.
Proof.
  intros Hlong Hig Hf Hdir. cbn [ext2_alloc_inode].
  destruct (choose_group_ok ig Hig dir_inum is_dir f Hf Hdir) as (r & -> & Hr). cbn [mbind option_bind].
  destruct r as [i|].
  - right. destruct (take_inode_ok long ig Hlong Hig is_dir i f Hf Hr) as (inum & f' & -> & Hrest).
    cbn [mbind option_bind]. by exists inum, f'.
  - left. split; [done|]. intros Hcase n. specialize (Hr Hcase). destruct (inode_free ig f n) eqn:Hn; [|done].
    unfold inode_free, ifree_in in Hn. apply andb_true_iff in Hn as [_ Hn].
    destruct (groups (base f) !z ((n - 1) / s_inodes_per_group ig)) as [gdp|] eqn:Hi; [|done]. simpl in Hn.
    destruct (io_group ig f Hf _ gdp Hi) as (map & Hc & [_ _ Hcnt _]). rewrite Hc in Hn. apply negb_true_iff in Hn.
    rewrite (Hr _ gdp Hi) in Hcnt. pose proof (ig_ipg ig Hig).
    assert (0 < zeros map (s_inodes_per_group ig)); [|lia]. apply zeros_pos. eexists. split; [|exact Hn]. apply Z.mod_pos_bound. lia.
Qed.

(** Freeing an inode: a valid inode that is used becomes free and no other one
    changes; the counts stay right and the allocation of blocks is not disturbed.
    An inode that is free already, reserved or beyond the last one is reported and
    nothing else happens. *)
Theorem free_inode_correct ig inum is_dir f :
  igeometry_ok ig → ifs_ok ig f →
  (first_ino ig ≤ inum ≤ s_inodes_count ig → inode_free ig f inum = false →
   ∃ f', free_inode ig inum is_dir f = Some f' ∧ ifs_ok ig f' ∧ messages (base f') = messages (base f)
     ∧ (∀ n, inode_free ig f' n = inode_free ig f n || bool_decide (n = inum))
     ∧ (∀ n, is_free (geo ig) (base f') n = is_free (geo ig) (base f) n))
  ∧ (first_ino ig ≤ inum ≤ s_inodes_count ig → inode_free ig f inum = true →
     free_inode ig inum is_dir f = Some (say_inode (Inode_already_cleared inum) f))
  ∧ (inum < first_ino ig ∨ s_inodes_count ig < inum →
     free_inode ig inum is_dir f = Some (say_inode (Inode_invalid inum) f)).
Proof.
  intros Hig Hf. split_and!.
  - intros Hv Hused. by apply free_used_ok.
  - intros Hv Hfree. destruct (free_inode_step ig Hig inum is_dir f Hf Hv) as (gdp & map & map' & Hi & Hc & -> & Hb & _).
    by rewrite Hb, Hfree.
  - intros Hv. unfold free_inode. by rewrite decide_True.
Qed.

(** ** Examples *)
Definition small_geometry : igeometry := mk_igeometry two_groups 16 8 3 8 8.
Definition small_ifs : ifs := mk_ifs small_fs 14.

Lemma small_geometry_ok : igeometry_ok small_geometry.
Proof. split; [exact two_groups_ok|by vm_compute..]. Qed.

Lemma small_layout : layout small_geometry (groups small_fs).
Proof.
  split.
  - intros i i' g1 g2 H1 H2.
    destruct (small_groups i g1 H1) as [[-> ->]|[-> ->]], (small_groups i' g2 H2) as [[-> ->]|[-> ->]]; done.
  - intros i i' g1 g2 t t' H1 H2 Ht Ht'. simpl in Ht, Ht'.
    destruct (small_groups i g1 H1) as [[-> ->]|[-> ->]], (small_groups i' g2 H2) as [[-> ->]|[-> ->]]; simpl; lia.
  - intros i i' g1 g2 t H1 H2 Ht. simpl in Ht.
    destruct (small_groups i g1 H1) as [[-> ->]|[-> ->]], (small_groups i' g2 H2) as [[-> ->]|[-> ->]]; simpl; lia.
  - intros i g1 H1. destruct (small_groups i g1 H1) as [[-> ->]|[-> ->]]; by vm_compute.
Qed.

Lemma small_valid i map :
  bool_decide (Forall (λ j, bit map j = false → 3 ≤ i * 8 + j + 1 ≤ 16) (seqZ 0 8)) = true →
  ∀ j, 0 ≤ j < 8 → bit map j = false → 3 ≤ i * 8 + j + 1 ≤ 16.
Proof. intros Hall%bool_decide_eq_true j Hj. rewrite Forall_forall in Hall. apply Hall, elem_of_seqZ. lia. Qed.

Lemma small_ifs_ok : ifs_ok small_geometry small_ifs.
Proof.
  split; [exact small_fs_ok|exact small_layout| | |done].
  - intros i gdp Hi. destruct (small_groups i gdp Hi) as [[-> ->]|[-> ->]].
    + exists [0x3]. split; [done|]. split; [by repeat constructor|done..|]. apply small_valid. by vm_compute.
    + exists [0]. split; [done|]. split; [by repeat constructor|done..|]. apply small_valid. by vm_compute.
  - intros i gdp t Hi Ht. simpl in Ht. assert (t = 0) as -> by lia. exists (replicate 16 7).
    by destruct (small_groups i gdp Hi) as [[-> ->]|[-> ->]].
Qed.

Lemma ext2_alloc_inode_correct_witness :
  ∃ inum f', ext2_alloc_inode 64 small_geometry 1 2 false small_ifs = Some (inum, f') ∧ inum = 3
    ∧ ifs_ok small_geometry f' ∧ dino small_geometry (base f') 3 = Some [0; 0].
Proof.
  destruct (ext2_alloc_inode_correct 64 small_geometry 0 2 false small_ifs) as [[Hz _]|(inum & f' & Hr & _ & _ & Hf' & _ & _ & _ & Hd & _)];
    [by right|exact small_geometry_ok|exact small_ifs_ok|by vm_compute|by vm_compute in Hz|].
  assert (inum = 3) as -> by (vm_compute in Hr; congruence).
  exists 3, f'. split; [exact Hr|]. split; [reflexivity|]. split; [exact Hf'|exact Hd].
Defined.

Lemma free_inode_correct_witness :
  ∃ f', free_inode (mk_igeometry two_groups 16 8 2 8 8) 2 true small_ifs = Some f'
    ∧ inode_free (mk_igeometry two_groups 16 8 2 8 8) f' 2 = true.
Proof.
  destruct (free_inode_correct (mk_igeometry two_groups 16 8 2 8 8) 2 true small_ifs) as [Hok _].
  - split; [exact two_groups_ok|by vm_compute..].
  - destruct small_ifs_ok as [? [] Hg Ht ?]. split; [done|by split| |done|done]. intros i gdp Hi.
    destruct (Hg i gdp Hi) as (map & Hc & [? ? ? Hv]). exists map. split; [done|]. split; try done.
    intros j Hj Hb. pose proof (Hv j Hj Hb) as Hvj. simpl in *. lia.
  - destruct Hok as (f' & Hr & _ & _ & Hfree & _); [by vm_compute|by vm_compute|].
    exists f'. split; [done|]. by rewrite Hfree, orb_true_r.
Defined.

(** The search from a directory in the last of six groups does not visit the group
    before it, where the only free inodes are. *)
Example file_group_missed :
  let full := mk_gdp 0 0 0 0 0 0 in
  let ig := mk_igeometry (mk_geometry 193 1 32 6 1 3 193) 48 8 3 8 8 in
  inode_group_num ig 41 = 5
  ∧ group_for_file ig 41 [full; full; full; full; mk_gdp 0 0 0 0 7 0; full] = Some None.
Proof. by vm_compute. Qed.

(** After an error, for instance of a group whose count is wrong, the inode that is
    cleared has the number 0: the descriptor of its group is far outside of the
    array. *)
Lemma clear_dino_0 ig f : 0 < s_inodes_per_group ig < 2 ^ 16 → zlen (groups f) < 2 ^ 32 → clear_dino ig 0 f = None.
Proof.
  intros Hipg Hlen. unfold clear_dino, dino_block. change (u64 (0 - 1)) with (2 ^ 64 - 1).
  rewrite lookupz_ge; [done|]. apply Z.div_le_lower_bound; [lia|]. nia.
Qed.

Lemma count_corrupted_crashes long ig is_dir i gdp bh f :
  0 < s_inodes_per_group ig < 2 ^ 16 → zlen (groups (base f)) < 2 ^ 32 →
  groups (base f) !z i = Some gdp → cache (base f) !! bg_inode_bitmap gdp = Some bh →
  find_first_zero_bit long bh (s_inodes_per_group ig) = Some (s_inodes_per_group ig) →
  bg_free_inodes_count gdp ≠ 0 → take_inode long ig is_dir i f = None.
Proof.
  intros Hipg Hlen Hi Hc Hfull Hne. unfold take_inode. rewrite Hi. cbn [mbind option_bind]. rewrite Hc.
  cbn [mbind option_bind]. rewrite Hfull. cbn [mbind option_bind]. rewrite decide_False, decide_True by (done || lia).
  unfold sync_out. by rewrite clear_dino_0.
Qed.
