(* ===== verification/Blockmap.v ===== *)
(** * ext2: the blocks of a file as a tree

    The pointers of an inode and of its indirect blocks form a tree: a place in it
    is a path, the index of a pointer in the inode followed by the indices in the
    indirect blocks below.  The tree is stored as a map from block numbers to
    lists of pointers, in which 0 stands for the inode; 0 as a pointer is none.
    The theorems are about the change of one pointer, for [Getblk.v] and
    [Truncate.v]. *)

From S2P Require Import Prelude.

Section tree.
Context (addr_per_block : Z).

(** The number of indirect blocks below pointer [nr] of the inode. *)
Definition depth (nr : Z) : nat := Z.to_nat (nr - 11).

Definition index_ok (i : Z) : Prop := 0 ≤ i < addr_per_block.

Definition valid (p : list Z) : Prop :=
  match p with [] => True | nr :: l => 0 ≤ nr < 15 ∧ (length l ≤ depth nr)%nat ∧ Forall index_ok l end.

(** The paths to the inode and the indirect blocks. *)
Definition inner (p : list Z) : Prop :=
  match p with [] => True | nr :: l => 0 ≤ nr < 15 ∧ (length l < depth nr)%nat ∧ Forall index_ok l end.

Definition width (p : list Z) : Z := match p with [] => 15 | _ => addr_per_block end.

Fixpoint walk (m : gmap Z (list Z)) (b : Z) (p : list Z) : option Z :=
  match p with
  | [] => Some b
  | i :: p' => bh ← m !! b; b' ← bh !z i; if decide (b' = 0) then None else walk m b' p'
  end.

Lemma inner_valid p : inner p → valid p.
Proof. destruct p as [|nr l]; [done|]. intros (? & ? & ?). split_and!; done || lia. Qed.

Lemma valid_snoc p i : valid (p ++ [i]) ↔ inner p ∧ 0 ≤ i < width p.
Proof.
  destruct p as [|nr l]; simpl.
  - split; [intros [? _]; split; [done|lia]|intros [_ ?]; split; [lia|split; [lia|done]]].
  - rewrite length_app, Forall_app, Forall_singleton. simpl. unfold index_ok at 2. split.
    + intros (? & ? & ? & ?). split_and!; try done; lia.
    + intros ((? & ? & ?) & ?). split_and!; try done; lia.
Qed.

Lemma valid_init p i : valid (p ++ [i]) → valid p.
Proof. intros [Hp _]%valid_snoc. by apply inner_valid. Qed.

Lemma walk_app m b p q : walk m b (p ++ q) = c ← walk m b p; walk m c q.
Proof.
  revert b. induction p as [|i p IH]; intros b; [done|]. simpl.
  destruct (m !! b) as [bh|]; [|done]. simpl. destruct (bh !z i) as [b'|]; [|done]. simpl.
  destruct (decide (b' = 0)); [done|]. apply IH.
Qed.

Lemma walk_snoc m b p i :
  walk m b (p ++ [i]) = c ← walk m b p; bh ← m !! c; b' ← bh !z i; if decide (b' = 0) then None else Some b'.
Proof. rewrite walk_app. by destruct (walk m b p). Qed.

Lemma walk_None_app m b p q : walk m b p = None → walk m b (p ++ q) = None.
Proof. intros Hp. by rewrite walk_app, Hp. Qed.

(** Every indirect block is there, and no block is in two places. *)
Record tree_ok (m : gmap Z (list Z)) : Prop := {
  to_table p b : inner p → walk m 0 p = Some b → ∃ bh, m !! b = Some bh ∧ zlen bh = width p;
  to_inj p q b : valid p → valid q → walk m 0 p = Some b → walk m 0 q = Some b → p = q
}.

(** What is in the tree depends only on its blocks. *)
Lemma walk_frame m m' p :
  (∀ q c, inner q → walk m 0 q = Some c → m' !! c = m !! c) → valid p → walk m' 0 p = walk m 0 p.
Proof.
  intros Hm. induction p as [|i p IH] using rev_ind; [done|]. intros [Hp Hi]%valid_snoc.
  rewrite !walk_snoc, IH by (by apply inner_valid). destruct (walk m 0 p) as [c|] eqn:Hc; [|done]. simpl.
  by rewrite (Hm p c Hp Hc).
Qed.

Lemma tree_frame m m' :
  (∀ q c, inner q → walk m 0 q = Some c → m' !! c = m !! c) → tree_ok m → tree_ok m'.
Proof.
  intros Hm [Ht Hinj]. split.
  - intros p b Hp Hb. rewrite (walk_frame m m') in Hb by (done || by apply inner_valid). rewrite (Hm p b Hp Hb). by apply Ht.
  - intros p q b Hp Hq Hb Hb'. rewrite (walk_frame m m') in Hb, Hb' by done. by apply (Hinj p q b).
Qed.

(** ** The change of one pointer *)
Section put.
Context (m m' : gmap Z (list Z)) (p : list Z) (b i v : Z) (bh : list Z).
Hypothesis Hapb : 0 ≤ addr_per_block.
Hypothesis Hok : tree_ok m.
Hypothesis Hvalid : valid (p ++ [i]).
Hypothesis Hb : walk m 0 p = Some b.
Hypothesis Hbh : m !! b = Some bh.
(** There is nothing below the pointer. *)
Hypothesis Hempty : ∀ j, valid ((p ++ [i]) ++ [j]) → walk m 0 ((p ++ [i]) ++ [j]) = None.
(** The new block is not in the tree, and has no pointers. *)
Hypothesis Hfresh : v ≠ 0 → ∀ q, valid q → walk m 0 q ≠ Some v.
Hypothesis Hzero : v ≠ 0 → inner (p ++ [i]) → m' !! v = Some (replicate (Z.to_nat addr_per_block) 0).
Hypothesis Hput : m' !! b = Some (updz i v bh).
Hypothesis Hsame : ∀ q c, inner q → walk m 0 q = Some c → c ≠ b → m' !! c = m !! c.

Lemma walk_put q :
  valid q → walk m' 0 q = if decide (q = p ++ [i]) then if decide (v = 0) then None else Some v else walk m 0 q.
Proof.
  pose proof (proj1 (valid_snoc p i) Hvalid) as [Hp Hi].
  destruct (to_table m Hok p b Hp Hb) as (bh0 & Hbh0 & Hw). rewrite Hbh in Hbh0. injection Hbh0 as <-.
  induction q as [|j q IH] using rev_ind.
  { intros _. rewrite decide_False; [done|]. by destruct p. }
  intros Hq. pose proof (proj1 (valid_snoc q j) Hq) as [Hqi Hj]. pose proof (inner_valid q Hqi) as Hqv.
  rewrite (walk_snoc m'), IH by done. destruct (decide (q = p ++ [i])) as [->|Hne].
  - rewrite (decide_False (P := (p ++ [i]) ++ [j] = p ++ [i]))
      by (intros E; apply (f_equal length) in E; rewrite !length_app in E; simpl in E; lia).
    rewrite Hempty by done. destruct (decide (v = 0)) as [|Hv]; [done|]. simpl. rewrite (Hzero Hv Hqi). simpl.
    destruct (replicate _ 0 !z j) as [x|] eqn:Hx; [|done]. apply lookupz_replicate in Hx as [-> _]. done.
  - destruct (walk m 0 q) as [c|] eqn:Hc.
    2:{ simpl. rewrite (walk_None_app m 0 q [j]) by done. rewrite (decide_False (P := q ++ [j] = p ++ [i])); [done|].
        intros [-> ->]%app_inj_tail. by rewrite Hb in Hc. }
    simpl. destruct (decide (c = b)) as [->|Hcb].
    + assert (q = p) as -> by (apply (to_inj m Hok q p b); done || by apply inner_valid).
      rewrite Hput. simpl. rewrite lookupz_updz by lia. destruct (decide (i = j)) as [<-|Hij].
      * simpl. by rewrite (decide_True (P := p ++ [i] = p ++ [i])) by done.
      * rewrite (decide_False (P := p ++ [j] = p ++ [i])) by (intros [_ ->]%app_inj_tail; done).
        by rewrite walk_snoc, Hb; simpl; rewrite Hbh.
    + rewrite (Hsame q c Hqi Hc Hcb). rewrite (decide_False (P := q ++ [j] = p ++ [i])) by (intros [-> ->]%app_inj_tail; congruence).
      by rewrite walk_snoc, Hc.
Qed.

Lemma tree_put : tree_ok m'.
Proof.
  pose proof (proj1 (valid_snoc p i) Hvalid) as [Hp Hi]. split.
  - intros q c Hq Hc. rewrite walk_put in Hc by (by apply inner_valid). destruct (decide (q = p ++ [i])) as [->|Hne].
    + destruct (decide (v = 0)) as [|Hv]; [done|]. injection Hc as <-. rewrite (Hzero Hv Hq). eexists. split; [done|].
      rewrite length_replicate. destruct p; simpl in *; lia.
    + destruct (decide (c = b)) as [->|Hcb].
      * assert (q = p) as -> by (apply (to_inj m Hok q p b); done || by apply inner_valid).
        rewrite Hput. eexists. split; [done|]. rewrite length_updz.
        destruct (to_table m Hok p b Hp Hb) as (bh0 & Hbh0 & <-). rewrite Hbh in Hbh0. by injection Hbh0 as <-.
      * rewrite (Hsame q c Hq Hc Hcb). by apply (to_table m Hok).
  - intros q q' c Hq Hq' Hc Hc'. rewrite walk_put in Hc, Hc' by done.
    assert (Hno : v ≠ 0 → ∀ x, valid x → walk m 0 x = Some v → False) by (intros Hv x Hx E; by apply (Hfresh Hv x Hx)).
    destruct (decide (q = p ++ [i])) as [->|], (decide (q' = p ++ [i])) as [->|]; try done.
    + destruct (decide (v = 0)) as [|Hv]; [done|]. injection Hc as <-. by destruct (Hno Hv q').
    + destruct (decide (v = 0)) as [|Hv]; [done|]. injection Hc' as <-. by destruct (Hno Hv q).
    + by apply (to_inj m Hok q q' c).
Qed.
End put.
End tree.
