(* ===== verification/Getblk.v ===== *)
(** * ext2: the blocks of a file (src/ext2fs/getblk.c)

    [ext2_getblk] finds the block of the disk that holds a block of a file, through
    up to three indirect blocks, and creates what is missing on the way.  Blocks
    are allocated by [Balloc.v], some of them in advance for the same file.  The
    theorems are that the blocks of a file are those of the tree of [Blockmap.v],
    that a block is added to the tree in the right place only, that blocks stay
    disjoint, and that what belongs to others is not touched.

    The pointers of an inode are in the node, those of indirect blocks in the
    cache.  Calls that write to the disk are recorded in the node; an error of
    [store_sync], which is only printed, and the marks that times have to be set
    are left out.  [tries] bounds the tries of [ext2_new_block]; one is enough. *)

From S2P Require Import Prelude Bitmap Balloc Blockmap.

Abbreviation EXT2_NDIR_BLOCKS := 12 (only parsing).
Abbreviation EXT2_IND_BLOCK := 12 (only parsing).
Abbreviation EXT2_DIND_BLOCK := 13 (only parsing).
Abbreviation EXT2_TIND_BLOCK := 14 (only parsing).
Abbreviation EXT2_N_BLOCKS := 15 (only parsing).
Abbreviation EXT2_DEFAULT_PREALLOC_BLOCKS := 8 (only parsing).

Inductive file_type := Regular | Directory | Other.

Inductive errno := EINVAL | ENOSPC | EIO.

(** The last three fields are the blocks whose changes are noted, those that are
    written at once, and the updates of the inode, true if waited for. *)
Record node := mk_node {
  i_data : list Z;
  i_osync : Z;
  i_block_group : Z;
  i_next_alloc_block : Z;
  i_next_alloc_goal : Z;
  i_prealloc_block : Z;
  i_prealloc_count : Z;
  st_type : file_type;
  st_blocks : Z;
  stat_dirty : bool;
  indir_pokel : list Z;
  synced : list Z;
  updates : list bool
}.

Record settings := mk_settings {
  addr_per_block : Z;
  s_prealloc_blocks : Z;
  s_prealloc_dir_blocks : Z;
  compat_dir_prealloc : bool;
  log2_stat_blocks_per_fs_block : Z;
  diskfs_synchronous : bool
}.

Definition set_data (l : list Z) (n : node) : node :=
  mk_node l (i_osync n) (i_block_group n) (i_next_alloc_block n) (i_next_alloc_goal n) (i_prealloc_block n)
    (i_prealloc_count n) (st_type n) (st_blocks n) (stat_dirty n) (indir_pokel n) (synced n) (updates n).

Definition set_next (b goal : Z) (n : node) : node :=
  mk_node (i_data n) (i_osync n) (i_block_group n) b goal (i_prealloc_block n)
    (i_prealloc_count n) (st_type n) (st_blocks n) (stat_dirty n) (indir_pokel n) (synced n) (updates n).

Definition set_prealloc (b count : Z) (n : node) : node :=
  mk_node (i_data n) (i_osync n) (i_block_group n) (i_next_alloc_block n) (i_next_alloc_goal n) b
    count (st_type n) (st_blocks n) (stat_dirty n) (indir_pokel n) (synced n) (updates n).

Definition set_blocks (count : Z) (n : node) : node :=
  mk_node (i_data n) (i_osync n) (i_block_group n) (i_next_alloc_block n) (i_next_alloc_goal n) (i_prealloc_block n)
    (i_prealloc_count n) (st_type n) count true (indir_pokel n) (synced n) (updates n).

Definition set_logs (pokes syncs : list Z) (ups : list bool) (n : node) : node :=
  mk_node (i_data n) (i_osync n) (i_block_group n) (i_next_alloc_block n) (i_next_alloc_goal n) (i_prealloc_block n)
    (i_prealloc_count n) (st_type n) (st_blocks n) (stat_dirty n) pokes syncs ups.

Definition set_cache (c : gmap Z (list Z)) (m : option (list Z)) (f : fs) : fs :=
  mk_fs (s_free_blocks_count f) (groups f) c m (freed f) (messages f).

(** [global_block_modified] *)
Definition set_modified (block : Z) (m : option (list Z)) : option (option (list Z)) :=
  match m with
  | None => Some None
  | Some m => '(_, m) ← set_bit (u32 block) m; Some (Some m)
  end.

Definition record_indir_poke (block : Z) (n : node) (f : fs) : option (node * fs) :=
  m ← set_modified block (modified_global_blocks f);
  Some (set_logs (indir_pokel n ++ [block]) (synced n) (updates n) n, set_cache (cache f) m f).

Definition sync_global_ptr (block : Z) (n : node) (f : fs) : option (node * fs) :=
  m ← set_modified block (modified_global_blocks f);
  Some (set_logs (indir_pokel n) (synced n ++ [block]) (updates n) n, set_cache (cache f) m f).

Section getblk.
Context (long : Z) (tries : nat) (g : geometry) (sb : settings).

Abbreviation apb := (addr_per_block sb).

Definition ext2_discard_prealloc (n : node) (f : fs) : option (node * fs) :=
  if decide (i_prealloc_count n ≠ 0) then
    f ← ext2_free_blocks g (i_prealloc_block n) (s32 (i_prealloc_count n)) f;
    Some (set_prealloc (i_prealloc_block n) 0 n, f)
  else Some (n, f).

(** The number of blocks to ask for. *)
Definition prealloc_wanted (n : node) : Z :=
  match st_type n with
  | Regular => if decide (s_prealloc_blocks sb ≠ 0) then s_prealloc_blocks sb else EXT2_DEFAULT_PREALLOC_BLOCKS
  | Directory => if compat_dir_prealloc sb then s_prealloc_dir_blocks sb else 0
  | Other => 0
  end.

Definition ext2_alloc_block (goal : Z) (zero : bool) (n : node) (f : fs) : option (Z * node * fs) :=
  '(result, n, f) ←
    (if decide (i_prealloc_count n ≠ 0 ∧ (goal = i_prealloc_block n ∨ u32 (goal + 1) = i_prealloc_block n)) then
       Some (i_prealloc_block n, set_prealloc (u32 (i_prealloc_block n + 1)) (u32 (i_prealloc_count n - 1)) n, f)
     else
       '(n, f) ← ext2_discard_prealloc n f;
       '(result, p, f) ← ext2_new_block long g tries goal (prealloc_wanted n) f;
       Some (result, match p with Some (count, b) => set_prealloc b count n | None => n end, f));
  if decide (result = 0 ∨ group_desc_block_end g ≤ result < store_blocks g) then
    if decide (result ≠ 0 ∧ zero = true) then
      '(n, f) ← record_indir_poke result n
        (set_cache (<[result := replicate (Z.to_nat apb) 0]> (cache f)) (modified_global_blocks f) f);
      Some (result, n, f)
    else Some (result, n, f)
  else None.

(** The last pointer before place [nr], or 0. *)
Fixpoint last_pointer (nr : nat) (l : list Z) : option Z :=
  match nr with
  | O => Some 0
  | S i => b ← l !z Z.of_nat i; if decide (b ≠ 0) then Some b else last_pointer i l
  end.

(** The goal for pointer [nr] of a list of pointers; [fallback] if there is none. *)
Definition choose_goal (n : node) (new_block nr fallback : Z) (l : list Z) : option Z :=
  let goal := if decide (i_next_alloc_block n = new_block) then i_next_alloc_goal n else 0 in
  if decide (goal ≠ 0) then Some goal else
  goal ← last_pointer (Z.to_nat nr) l;
  Some (if decide (goal ≠ 0) then goal else fallback).

(** What is noted of a new block. *)
Definition note_block (new_block result : Z) (n : node) : node :=
  set_blocks (st_blocks n + Z.shiftl 1 (log2_stat_blocks_per_fs_block sb)) (set_next new_block result n).

Definition must_sync (n : node) : bool := diskfs_synchronous sb || bool_decide (i_osync n ≠ 0).

Definition inode_getblk (nr : Z) (create zero : bool) (new_block : Z) (n : node) (f : fs)
    : option ((errno + Z) * node * fs) :=
  if decide (0 ≤ nr < EXT2_N_BLOCKS) then
    result ← i_data n !z nr;
    if decide (result ≠ 0) then
      if decide (group_desc_block_end g ≤ result < store_blocks g) then Some (inr result, n, f) else None
    else if negb create then Some (inl EINVAL, n, f) else
    goal ← choose_goal n new_block nr
      (u32 (i_block_group n * s_blocks_per_group g + s_first_data_block g)) (i_data n);
    '(result, n, f) ← ext2_alloc_block goal zero n f;
    if decide (result = 0) then Some (inl ENOSPC, n, f) else
    l ← storez nr result (i_data n);
    let n := note_block new_block result (set_data l n) in
    Some (inr result, set_logs (indir_pokel n) (synced n) (updates n ++ [must_sync n]) n, f)
  else None.

Definition block_getblk (block nr : Z) (create zero : bool) (new_block : Z) (n : node) (f : fs)
    : option ((errno + Z) * node * fs) :=
  bh ← cache f !! block;
  result ← bh !z nr;
  if decide (result ≠ 0) then Some (inr result, n, f)
  else if negb create then Some (inl EINVAL, n, f) else
  goal ← choose_goal n new_block nr block bh;
  '(result, n, f) ← ext2_alloc_block goal zero n f;
  if decide (result = 0) then Some (inl ENOSPC, n, f) else
  bh ← cache f !! block;
  bh ← storez nr result bh;
  let f := set_cache (<[block := bh]> (cache f)) (modified_global_blocks f) f in
  '(n, f) ← (if must_sync n then sync_global_ptr block n f else record_indir_poke block n f);
  Some (inr result, note_block new_block result n, f).

(** The next indirect block, or the error so far. *)
Definition then_block (r : option ((errno + Z) * node * fs)) (nr : Z) (create zero : bool) (new_block : Z)
    : option ((errno + Z) * node * fs) :=
  '(r, n, f) ← r;
  match r with
  | inr indir => block_getblk indir nr create zero new_block n f
  | inl e => Some (inl e, n, f)
  end.

Definition ext2_getblk (block : Z) (create : bool) (n : node) (f : fs) : option ((errno + Z) * node * fs) :=
  if decide (EXT2_NDIR_BLOCKS + apb + apb * apb + apb * apb * apb < block) then Some (inl EIO, n, f) else
  let n :=
    if decide (block = u32 (i_next_alloc_block n + 1))
    then set_next (u32 (i_next_alloc_block n + 1)) (u32 (i_next_alloc_goal n + 1)) n else n in
  let b := block in
  if decide (block < EXT2_NDIR_BLOCKS) then inode_getblk block create false b n f else
  let block := block - EXT2_NDIR_BLOCKS in
  if decide (block < apb) then
    then_block (inode_getblk EXT2_IND_BLOCK create true b n f) block create false b
  else
  let block := block - apb in
  if decide (block < apb * apb) then
    then_block
      (then_block (inode_getblk EXT2_DIND_BLOCK create true b n f) (block / apb) create true b)
      (Z.land block (apb - 1)) create false b
  else
  let block := block - apb * apb in
  then_block
    (then_block
       (then_block (inode_getblk EXT2_TIND_BLOCK create true b n f) (block / (apb * apb)) create true b)
       (Z.land (block / apb) (apb - 1)) create true b)
    (Z.land block (apb - 1)) create false b.
End getblk.

(** ** What belongs to a file *)
Section owned.
Context (g : geometry) (apb : Z).

(** A block of data: not one the file system needs for itself. *)
Record data_block (f : fs) (b : Z) : Prop := {
  db_first : s_first_data_block g ≤ b;
  db_usable : ∃ gdp, groups f !z ((b - s_first_data_block g) / s_blocks_per_group g) = Some gdp ∧ usable g gdp b;
  db_bitmap i gdp : groups f !z i = Some gdp → b ≠ bg_block_bitmap gdp
}.

Definition taken (f : fs) (b : Z) : Prop := is_free g f b = false ∧ data_block f b.

(** The pointers, with the inode as block 0, and what is in a place of the tree. *)
Definition tabs (n : node) (f : fs) : gmap Z (list Z) := <[0 := i_data n]> (cache f).

Definition place_of (n : node) (f : fs) (p : list Z) : option Z := walk (tabs n f) 0 p.

Definition bitmaps_taken (f : fs) : Prop :=
  ∀ i gdp, groups f !z i = Some gdp → is_free g f (bg_block_bitmap gdp) = false.

(** The file system is consistent, the blocks of the file are taken, each in one
    place, and so are the blocks [held] for it, which are in no place. *)
Record holds (n : node) (f : fs) (held : Z → Prop) : Prop := {
  ho_fs : fs_ok g f;
  ho_bitmaps : bitmaps_taken f;
  ho_tree : tree_ok apb (tabs n f);
  ho_taken p b : valid apb p → p ≠ [] → place_of n f p = Some b → taken f b ∧ ¬ held b;
  ho_held b : held b → taken f b
}.

Definition owned (n : node) (f : fs) (held : Z → Prop) (b : Z) : Prop :=
  held b ∨ ∃ p, valid apb p ∧ p ≠ [] ∧ place_of n f p = Some b.

(** The blocks of data that are not of this file stay so, with their contents. *)
Definition others_kept (n : node) (f : fs) (held : Z → Prop) (n' : node) (f' : fs) (held' : Z → Prop) : Prop :=
  ∀ b, taken f b → ¬ owned n f held b → taken f' b ∧ ¬ owned n' f' held' b ∧ cache f' !! b = cache f !! b.

Lemma others_kept_trans n1 f1 h1 n2 f2 h2 n3 f3 h3 :
  others_kept n1 f1 h1 n2 f2 h2 → others_kept n2 f2 h2 n3 f3 h3 → others_kept n1 f1 h1 n3 f3 h3.
Proof.
  intros H12 H23 b Hb Ho. destruct (H12 b Hb Ho) as (Hb2 & Ho2 & E2). destruct (H23 b Hb2 Ho2) as (Hb3 & Ho3 & E3).
  split_and!; [done..|congruence].
Qed.

Hypothesis Hg : geometry_ok g.

Lemma data_block_range f b :
  data_block f b → 0 < b ∧ group_desc_block_end g ≤ b < store_blocks g ∧ s_first_data_block g ≤ b < s_blocks_count g.
Proof. intros [Hfirst (gdp & _ & H1 & H2 & _) _]. pose proof (go_reserved g Hg). lia. Qed.

Lemma data_block_layout f f' b : same_layout f f' → data_block f b → data_block f' b.
Proof.
  intros Hl [Hfirst (gdp & Hi & Hus) Hbm]. split; [done| |].
  - destruct (same_layout_lookup f f' _ gdp Hl Hi) as (gdp' & Hi' & E). exists gdp'. split; [done|].
    injection E as E1 E2 E3 E4 E5. unfold usable in *. by rewrite E1, E2, E3.
  - intros i gdp' Hi'. destruct (same_layout_lookup f' f i gdp') as (gdp0 & H0 & E); [by symmetry|done|].
    injection E as <- _. by apply (Hbm i).
Qed.

Lemma bitmaps_taken_layout f f' :
  same_layout f f' → bitmaps_taken f → (∀ i gdp, groups f !z i = Some gdp → is_free g f (bg_block_bitmap gdp) = false →
    is_free g f' (bg_block_bitmap gdp) = false) → bitmaps_taken f'.
Proof.
  intros Hl Hb Hk i gdp Hi. destruct (same_layout_lookup f' f i gdp) as (gdp0 & H0 & E); [by symmetry|done|].
  injection E as <- _. apply (Hk i); [done|]. by apply (Hb i).
Qed.

Lemma free_data f b : fs_ok g f → bitmaps_taken f → is_free g f b = true → data_block f b.
Proof.
  intros Hf Hbm Hb. destruct (is_free_usable g Hg f b Hf Hb) as (Hr & _ & Hfree).
  destruct (free_in_Some g f _ _ Hf Hfree) as (gdp & map & Hi & _ & Hgr & Hbit). destruct (place_block g Hg b) as [Hn Hmod].
  pose proof (gr_usable g _ gdp map Hgr _ Hmod Hbit) as Hus. rewrite <-Hn in Hus. split; [lia|by exists gdp|].
  intros i gdp' Hi' ->. specialize (Hbm i gdp' Hi'). congruence.
Qed.

Lemma tabs_ne n f b : b ≠ 0 → tabs n f !! b = cache f !! b.
Proof. intros Hb. unfold tabs. by rewrite lookup_insert_ne. Qed.

(** The tree stays if its blocks do. *)
Lemma holds_frame n f held n' f' held' :
  holds n f held → i_data n' = i_data n → fs_ok g f' → same_layout f f' → bitmaps_taken f' →
  (∀ p b, valid apb p → p ≠ [] → place_of n f p = Some b →
    is_free g f' b = false ∧ cache f' !! b = cache f !! b ∧ ¬ held' b) →
  (∀ b, held' b → taken f' b) →
  holds n' f' held' ∧ ∀ p, valid apb p → place_of n' f' p = place_of n f p.
Proof.
  intros [Hf Hbm Ht Htk Hh] Hd Hf' Hl Hbm' Hkeep Hheld.
  assert (Hsame : ∀ q c, inner apb q → walk (tabs n f) 0 q = Some c → tabs n' f' !! c = tabs n f !! c).
  { intros [|i q] c Hq Hc; [injection Hc as <-; unfold tabs; by rewrite !lookup_insert_eq, Hd|].
    destruct (Htk (i :: q) c) as [[_ Hdb] _]; [by apply inner_valid|done|done|]. apply data_block_range in Hdb.
    rewrite !tabs_ne by lia. by apply (Hkeep (i :: q)); [apply inner_valid| |]. }
  assert (Hp : ∀ p, valid apb p → place_of n' f' p = place_of n f p) by (intros p Hp; by apply walk_frame with apb).
  split; [|done]. split; [done|done|by apply tree_frame with (tabs n f)| |done].
  intros p b Hv Hne Hb. rewrite Hp in Hb by done. destruct (Hkeep p b Hv Hne Hb) as (Hu & _ & Hnh).
  split; [|done]. split; [done|]. apply (data_block_layout f f' b Hl). by apply (Htk p b).
Qed.
End owned.

(** ** Allocation for a file *)
Section alloc_proofs.
Context (long : Z) (tries : nat) (g : geometry) (sb : settings).
Hypothesis Hlong : long = 32 ∨ long = 64.
Hypothesis Hg : geometry_ok g.
Hypothesis Hsb : 0 ≤ s_prealloc_blocks sb < 2 ^ 8 ∧ 0 ≤ s_prealloc_dir_blocks sb < 2 ^ 8.

Definition reserved (n : node) (b : Z) : Prop :=
  i_prealloc_block n ≤ b < i_prealloc_block n + i_prealloc_count n.

(** A block that an allocation for the file may get. *)
Definition avail (n : node) (f : fs) (b : Z) : Prop := is_free g f b = true ∨ reserved n b.

(** What an allocation of block [r] does, 0 if there is none. *)
Record picked (n : node) (f : fs) (r : Z) (n' : node) (f' : fs) : Prop := {
  pk_fs : fs_ok g f';
  pk_layout : same_layout f f';
  pk_data : i_data n' = i_data n;
  pk_count : 0 ≤ i_prealloc_count n' < 2 ^ 31;
  pk_avail b : avail n' f' b ↔ avail n f b ∧ b ≠ r;
  pk_reserved b : reserved n' b → is_free g f' b = false;
  pk_got : r ≠ 0 → avail n f r;
  pk_full b : r = 0 → ¬ avail n' f' b;
  pk_cache b : b ≠ r → (∀ i gdp, groups f !z i = Some gdp → b ≠ bg_block_bitmap gdp) → cache f' !! b = cache f !! b
}.

Lemma wanted_bounds n : 0 ≤ prealloc_wanted sb n < 2 ^ 31.
Proof. unfold prealloc_wanted. destruct (st_type n); [case_decide|destruct (compat_dir_prealloc sb)|]; lia. Qed.

Lemma discard_ok n f :
  fs_ok g f → 0 ≤ i_prealloc_count n < 2 ^ 31 → (∀ b, reserved n b → taken g f b) →
  ∃ f', ext2_discard_prealloc g n f = Some (set_prealloc (i_prealloc_block n) 0 n, f') ∧ fs_ok g f' ∧ bitmaps_only f f'
    ∧ ∀ b, is_free g f' b = true ↔ avail n f b.
Proof.
  intros Hf Hc Hres. unfold ext2_discard_prealloc, avail. destruct (decide (i_prealloc_count n ≠ 0)) as [Hne|He].
  - assert (Hr : ∀ b, reserved n b → 0 < b ∧ group_desc_block_end g ≤ b < store_blocks g
      ∧ s_first_data_block g ≤ b < s_blocks_count g) by (intros b Hb; apply data_block_range with f; [done|by apply Hres]).
    pose proof (Hr (i_prealloc_block n)) as Hr0. pose proof (Hr (i_prealloc_block n + i_prealloc_count n - 1)) as Hr1.
    unfold reserved in Hr0, Hr1. rewrite s32_id by lia.
    destruct (free_blocks_ok g Hg (i_prealloc_block n) (i_prealloc_count n) f) as (f' & -> & Hf' & Hbo & Hfree & _); [done|lia..| |].
    { intros x gdp Hx Hi. destruct (Hres x Hx) as [_ [_ (gdp' & Hi' & Hu) _]]. rewrite Hi in Hi'. by injection Hi' as <-. }
    exists f'. split_and!; try done. intros b. by rewrite Hfree, orb_true_iff, bool_decide_eq_true.
  - exists f. assert (i_prealloc_count n = 0) as He' by lia. split_and!; try done; [by destruct n; simpl in *; subst|].
    intros b. unfold reserved. rewrite He'. split; [by left|intros [?|?]; [done|lia]].
Qed.

(** After a new block [b] with [c] blocks behind it. *)
Lemma found_picked n f f1 b c f' :
  let n1 := set_prealloc (i_prealloc_block n) 0 n in
  (∀ x, is_free g f1 x = true ↔ avail n f x) → fs_ok g f' → bitmaps_only f f' → b ≠ 0 →
  0 ≤ c ≤ Z.max 0 (prealloc_wanted sb n1 - 1) →
  (∀ x, b ≤ x ≤ b + c → is_free g f1 x = true) →
  (∀ x, is_free g f' x = is_free g f1 x && negb (bool_decide (b ≤ x ≤ b + c))) →
  picked n f b
    match (if decide (prealloc_wanted sb n1 ≠ 0) then Some (c, b + 1) else None) with
    | Some (count, b) => set_prealloc b count n1
    | None => n1
    end f'.
Proof.
  intros n1 Hfree1 Hf' Hbo Hb Hc Hwas Hnow. pose proof (wanted_bounds n1) as Hw.
  set (n' := match _ with Some _ => _ | None => _ end).
  assert (Hn' : i_data n' = i_data n ∧ 0 ≤ i_prealloc_count n' < 2 ^ 31 ∧ ∀ x, reserved n' x ↔ b < x ≤ b + c).
  { unfold n', reserved. case_decide; simpl; split_and!; try done; lia. }
  destruct Hn' as (Hd & Hcnt & Hr). clearbody n'.
  assert (Hgone : ∀ x, b ≤ x ≤ b + c → is_free g f' x = false).
  { intros x Hx. rewrite Hnow, bool_decide_true, andb_false_r by done. done. }
  split; try done; [apply Hbo| |intros x Hx%Hr; apply Hgone; lia|intros _; apply Hfree1, Hwas; lia|
    intros x _ Hx; by apply Hbo].
  intros x. unfold avail at 1. rewrite Hr, Hnow, andb_true_iff, negb_true_iff, bool_decide_eq_false, <-Hfree1. split.
  - intros [[Hx Hn]|Hx]; [split; [done|lia]|]. split; [apply Hwas; lia|lia].
  - intros [Hx Hne]. destruct (decide (b ≤ x ≤ b + c)); [right; lia|by left].
Qed.

Lemma pick_ok goal n f :
  fs_ok g f → 0 ≤ i_prealloc_count n < 2 ^ 31 → (∀ b, reserved n b → taken g f b) →
  ∃ r n' f',
    (if decide (i_prealloc_count n ≠ 0 ∧ (goal = i_prealloc_block n ∨ u32 (goal + 1) = i_prealloc_block n)) then
       Some (i_prealloc_block n, set_prealloc (u32 (i_prealloc_block n + 1)) (u32 (i_prealloc_count n - 1)) n, f)
     else
       '(n, f) ← ext2_discard_prealloc g n f;
       '(result, p, f) ← ext2_new_block long g (S tries) goal (prealloc_wanted sb n) f;
       Some (result, match p with Some (count, b) => set_prealloc b count n | None => n end, f)) = Some (r, n', f')
    ∧ picked n f r n' f' ∧ bitmaps_only f f'.
Proof.
  intros Hf Hc Hres. case_decide as Hhit.
  - do 3 eexists. split; [done|]. split; [|done]. destruct Hhit as [Hne _].
    assert (Hr : reserved n (i_prealloc_block n)) by (unfold reserved; lia).
    destruct (Hres _ Hr) as [Hu Hdb]. pose proof (data_block_range g Hg f _ Hdb) as Hrng. pose proof (go_count g Hg).
    rewrite !u32_id by lia. split; simpl; try done; try lia.
    + intros b. unfold avail, reserved. simpl. split.
      * intros [Hb|Hb]; [split; [by left|congruence]|split; [right; lia|lia]].
      * intros [[Hb|Hb] Hne']; [by left|right; lia].
    + intros b Hb. apply Hres. unfold reserved in *. simpl in Hb. lia.
    + intros _. by right.
  - destruct (discard_ok n f Hf Hc Hres) as (f1 & -> & Hf1 & Hbo1 & Hfree1). cbn [mbind option_bind].
    set (n1 := set_prealloc (i_prealloc_block n) 0 n). pose proof (wanted_bounds n1) as Hw.
    destruct (free_or_full long g Hlong Hg f1 Hf1) as [[b0 Hb0]|Hnone].
    + destruct (new_block_found long g Hlong Hg tries goal (prealloc_wanted sb n1) f1 b0) as
        (b & c & f' & -> & Hf' & _ & Hb & Hcb & Hwas & Hnow & Hbo' & _); [done|lia|done|].
      cbn [mbind option_bind]. do 3 eexists. split; [done|].
      assert (Hbo : bitmaps_only f f') by (by transitivity f1). split; [|done].
      by apply (found_picked n f f1 b c).
    + rewrite (new_block_none long g Hlong Hg) by done. cbn [mbind option_bind]. do 3 eexists. split; [done|]. split; [|done].
      assert (Ha : ∀ b, ¬ avail n f b) by (intros b Hb%Hfree1; by rewrite Hnone in Hb).
      assert (Ha' : ∀ b, ¬ avail n1 f1 b).
      { intros b [Hb|Hb]; [by rewrite Hnone in Hb|unfold reserved in Hb; simpl in Hb; lia]. }
      split; try done; try apply Hbo1.
      * intros b. split; [by intros ?%Ha'|by intros [?%Ha _]].
      * intros b _ Hb. by apply Hbo1.
Qed.

Lemma fs_ok_set_cache f c m :
  fs_ok g f → modified_ok g m →
  (∀ i gdp, groups f !z i = Some gdp → c !! bg_block_bitmap gdp = cache f !! bg_block_bitmap gdp) →
  fs_ok g (set_cache c m f) ∧ ∀ b, is_free g (set_cache c m f) b = is_free g f b.
Proof.
  intros [H1 H2 H3 H4 H5] Hm Hc. split.
  - split; simpl; try done. intros i gdp Hi. rewrite (Hc i gdp Hi). by apply H2.
  - intros b. unfold is_free, free_in. simpl. destruct (groups f !z _) as [gdp|] eqn:Hi; [|done]. simpl. by rewrite (Hc _ gdp Hi).
Qed.

Lemma set_modified_ok b m :
  modified_ok g m → 0 ≤ b < s_blocks_count g → ∃ m', set_modified b m = Some m' ∧ modified_ok g m'.
Proof.
  intros Hm Hb. pose proof (go_groups g Hg). pose proof (go_count g Hg). destruct m as [m|]; [|by exists None].
  destruct Hm as [Hw Hlen]. simpl. unfold start in Hlen.
  destruct (set_bit_ok (u32 b) m) as (m' & -> & Hw' & Hl' & _); [done|rewrite u32_id; lia|].
  exists (Some m'). split; [done|]. split; [done|]. by rewrite Hl'.
Qed.

(** Noting a change of the block, in either way, changes nothing else. *)
Lemma record_indir_poke_ok b n f :
  fs_ok g f → 0 ≤ b < s_blocks_count g →
  ∃ n' m, record_indir_poke b n f = Some (n', set_cache (cache f) m f) ∧ modified_ok g m
    ∧ i_data n' = i_data n ∧ reserved n' = reserved n ∧ i_prealloc_count n' = i_prealloc_count n.
Proof.
  intros Hf Hb. unfold record_indir_poke. destruct (set_modified_ok b _ (fo_modified g f Hf) Hb) as (m & -> & Hm).
  by do 2 eexists.
Qed.

Lemma sync_global_ptr_ok b n f :
  fs_ok g f → 0 ≤ b < s_blocks_count g →
  ∃ n' m, sync_global_ptr b n f = Some (n', set_cache (cache f) m f) ∧ modified_ok g m
    ∧ i_data n' = i_data n ∧ reserved n' = reserved n ∧ i_prealloc_count n' = i_prealloc_count n.
Proof.
  intros Hf Hb. unfold sync_global_ptr. destruct (set_modified_ok b _ (fo_modified g f Hf) Hb) as (m & -> & Hm).
  by do 2 eexists.
Qed.

Record node_ok (n : node) (f : fs) : Prop := {
  no_holds : holds g (addr_per_block sb) n f (reserved n);
  no_count : 0 ≤ i_prealloc_count n < 2 ^ 31
}.

Lemma avail_data n f b : node_ok n f → avail n f b → data_block g f b.
Proof.
  intros [Hh _] [Hb|Hb]; [|by apply (ho_held _ _ _ _ _ Hh)].
  apply free_data; [done|by apply Hh|by apply Hh|done].
Qed.

Lemma alloc_block_ok goal zero n f :
  node_ok n f →
  ∃ r n' f', ext2_alloc_block long (S tries) g sb goal zero n f = Some (r, n', f') ∧ picked n f r n' f'
    ∧ (zero = true → r ≠ 0 → cache f' !! r = Some (replicate (Z.to_nat (addr_per_block sb)) 0)).
Proof.
  intros Hno. pose proof Hno as [Hh Hc]. unfold ext2_alloc_block.
  destruct (pick_ok goal n f (ho_fs _ _ _ _ _ Hh) Hc (ho_held _ _ _ _ _ Hh)) as (r & n1 & f1 & -> & Hpk & Hbo).
  cbn [mbind option_bind]. destruct (decide (r = 0)) as [->|Hr].
  { rewrite decide_True by (by left). rewrite decide_False by (by intros [? _]). by exists 0, n1, f1. }
  assert (Hdb : data_block g f r) by (apply avail_data with n; [done|by apply (pk_got _ _ _ _ _ Hpk)]).
  pose proof (data_block_range g Hg f r Hdb) as Hrng. rewrite decide_True by lia.
  destruct (decide (r ≠ 0 ∧ zero = true)) as [[_ ->]|Hnz]; [|exists r, n1, f1; split_and!; try done; tauto].
  set (f2 := set_cache _ _ _).
  destruct (fs_ok_set_cache f1 (<[r := replicate (Z.to_nat (addr_per_block sb)) 0]> (cache f1)) (modified_global_blocks f1))
    as [Hf2 Hfree2]; [apply Hpk|apply Hpk| |].
  { intros i gdp Hi. rewrite lookup_insert_ne; [done|]. apply (db_bitmap g f1 r) with i; [|done].
    apply data_block_layout with f; [by apply Hpk|done]. }
  fold f2 in Hf2, Hfree2. destruct (record_indir_poke_ok r n1 f2 Hf2) as (n3 & m & -> & Hm & Hd & Hres & Hcnt); [lia|].
  cbn [mbind option_bind]. destruct (fs_ok_set_cache f2 (cache f2) m Hf2 Hm) as [Hf3 Hfree3]; [done|].
  do 3 eexists. split; [done|]. split; [|intros _ _; simpl; by rewrite lookup_insert_eq].
  assert (Ha : ∀ b, avail n3 (set_cache (cache f2) m f2) b ↔ avail n1 f1 b).
  { intros b. unfold avail. by rewrite Hres, Hfree3, Hfree2. }
  split; [done|apply Hpk|rewrite Hd; apply Hpk|rewrite Hcnt; apply Hpk| | |apply Hpk|done|].
  - intros b. rewrite Ha. apply Hpk.
  - intros b. rewrite Hres, Hfree3, Hfree2. apply Hpk.
  - intros b Hb Hbm. simpl. rewrite lookup_insert_ne by done. by apply Hpk.
Qed.

(** The file is as before, and the new block is of no one. *)
Lemma picked_ok n f r n' f' :
  node_ok n f → picked n f r n' f' →
  node_ok n' f' ∧ (∀ p, valid (addr_per_block sb) p → place_of n' f' p = place_of n f p)
  ∧ others_kept g (addr_per_block sb) n f (reserved n) n' f' (λ b, reserved n' b ∨ b = r)
  ∧ (r ≠ 0 → taken g f' r ∧ ¬ reserved n' r ∧ ∀ p, valid (addr_per_block sb) p → place_of n f p ≠ Some r).
Proof.
  intros Hno Hpk. pose proof Hno as [Hh Hc].
  assert (Hkeep : ∀ b, data_block g f b → ¬ avail n f b → is_free g f' b = false ∧ ¬ reserved n' b ∧ b ≠ r
    ∧ cache f' !! b = cache f !! b).
  { intros b Hb Ha. assert (Hb' : ¬ avail n' f' b) by (by intros [? _]%Hpk). pose proof (data_block_range g Hg f b Hb).
    assert (b ≠ r) by (intros ->; apply Ha, (pk_got _ _ _ _ _ Hpk); lia).
    split_and!; [|by intros ?; apply Hb'; right|done|apply Hpk; [done|by apply Hb]].
    destruct (is_free g f' b) eqn:E; [|done]. destruct Hb'. by left. }
  assert (Htk : ∀ b, taken g f b → ¬ reserved n b → data_block g f b ∧ ¬ avail n f b).
  { intros b [Hu Hb] Hr. split; [done|]. intros [E|?]; [congruence|done]. }
  assert (Hres : ∀ b, reserved n' b → taken g f' b).
  { intros b Hb. split; [by apply Hpk|]. apply data_block_layout with f; [by apply Hpk|]. apply avail_data with n; [done|].
    apply Hpk. by right. }
  destruct (holds_frame g (addr_per_block sb) Hg n f (reserved n) n' f' (reserved n') Hh) as [Hh' Hp'];
    [apply Hpk|apply Hpk|apply Hpk| | |done|].
  { apply bitmaps_taken_layout with f; [apply Hpk|apply Hh|]. intros i gdp Hi Hu.
    destruct (is_free g f' (bg_block_bitmap gdp)) eqn:E; [|done]. assert (avail n f (bg_block_bitmap gdp)) as Ha by (apply Hpk; by left).
    apply (avail_data n f) in Ha; [|done]. by destruct (db_bitmap g f _ Ha i gdp Hi). }
  { intros p b Hv Hne Hb. destruct (ho_taken _ _ _ _ _ Hh p b Hv Hne Hb) as [Hb1 Hb2].
    destruct (Htk b Hb1 Hb2) as [Hdb Ha]. by destruct (Hkeep b Hdb Ha) as (? & ? & ? & ?). }
  split; [split; [done|apply Hpk]|]. split; [done|]. split.
  - intros b Hb Ho. destruct (Htk b Hb) as [Hdb Ha]; [intros ?; apply Ho; by left|].
    destruct (Hkeep b Hdb Ha) as (Hu & Hnr & Hne & Hcache). split_and!; [|by intros [[?|?]|(p & Hv & Hp & Hw)];
      [done|done|apply Ho; right; exists p; rewrite <-Hp' by done]|done].
    split; [done|]. apply data_block_layout with f; [by apply Hpk|done].
  - intros Hr. pose proof (pk_got _ _ _ _ _ Hpk Hr) as Ha.
    assert (Hna : ¬ avail n' f' r) by (by intros [_ ?]%Hpk).
    split_and!; [split|by intros ?; apply Hna; right|].
    + destruct (is_free g f' r) eqn:E; [|done]. destruct Hna. by left.
    + apply data_block_layout with f; [by apply Hpk|by apply avail_data with n].
    + intros [|i p] Hv Hw; [injection Hw as <-; done|]. destruct (ho_taken _ _ _ _ _ Hh (i :: p) r Hv) as [Hb1 Hb2]; [done..|].
      by destruct (Htk r Hb1 Hb2).
Qed.
End alloc_proofs.

(** ** One step of the walk *)
Section step.
Context (long : Z) (tries : nat) (g : geometry) (sb : settings).
Hypothesis Hlong : long = 32 ∨ long = 64.
Hypothesis Hg : geometry_ok g.
Hypothesis Hsb : 0 ≤ s_prealloc_blocks sb < 2 ^ 8 ∧ 0 ≤ s_prealloc_dir_blocks sb < 2 ^ 8.

Abbreviation apb := (addr_per_block sb).

Hypothesis Hapb : 0 < apb.

(** What a walk to place [p] does to the file. *)
Record reached (create : bool) (p : list Z) (n : node) (f : fs) (res : errno + Z) (n' : node) (f' : fs) : Prop := {
  re_ok : node_ok g sb n' f';
  re_others : others_kept g apb n f (reserved n) n' f' (reserved n');
  re_same q : valid apb q → ¬ q `prefix_of` p → place_of n' f' q = place_of n f q;
  re_kept q b : valid apb q → place_of n f q = Some b → place_of n' f' q = Some b;
  re_new q b : valid apb q → place_of n f q = None → place_of n' f' q = Some b → avail g n f b;
  re_avail b : avail g n' f' b → avail g n f b;
  re_nothing : create = false ∨ place_of n f p ≠ None → n' = n ∧ f' = f;
  re_result :
    match res with
    | inr b => place_of n' f' p = Some b
    | inl e => place_of n' f' p = None
        ∧ (e = EINVAL ∧ create = false ∨ e = ENOSPC ∧ create = true ∧ ∀ b, ¬ avail g n' f' b)
    end
}.

Lemma last_pointer_ok nr l : Z.of_nat nr ≤ zlen l → ∃ b, last_pointer nr l = Some b.
Proof.
  induction nr as [|i IH]; intros Hl; simpl; [by eexists|].
  destruct (lookupz_is_Some l (Z.of_nat i)) as [b ->]; [lia|]. simpl. case_decide; [by eexists|apply IH; lia].
Qed.

Lemma choose_goal_ok n new_block nr fallback l : nr < zlen l → ∃ goal, choose_goal n new_block nr fallback l = Some goal.
Proof.
  intros Hl. unfold choose_goal. destruct (decide (_ ≠ 0)); [by eexists|].
  destruct (last_pointer_ok (Z.to_nat nr) l) as [b ->]; [lia|]. by eexists.
Qed.

(** A block is stored in a place that is empty. *)
Lemma put_ok n f p c i r bh n' f' :
  node_ok g sb n f → valid apb (p ++ [i]) → place_of n f p = Some c → place_of n f (p ++ [i]) = None →
  r ≠ 0 → taken g f r → ¬ reserved n r → (∀ q, valid apb q → place_of n f q ≠ Some r) →
  (inner apb (p ++ [i]) → cache f !! r = Some (replicate (Z.to_nat apb) 0)) →
  tabs n f !! c = Some bh → tabs n' f' !! c = Some (updz i r bh) → (∀ b, b ≠ c → tabs n' f' !! b = tabs n f !! b) →
  fs_ok g f' → (∀ b, is_free g f' b = is_free g f b) → groups f' = groups f →
  reserved n' = reserved n → i_prealloc_count n' = i_prealloc_count n →
  node_ok g sb n' f' ∧ (∀ q, valid apb q → place_of n' f' q = if decide (q = p ++ [i]) then Some r else place_of n f q).
Proof.
  intros [Hh Hc] Hv Hp Hnone Hr Htk Hnr Hfresh Hzero Hbh Hput Hsame Hf' Hfree Hgr Hres Hcnt.
  assert (Htk' : ∀ b, taken g f b → taken g f' b).
  { intros b [Hu Hdb]. split; [by rewrite Hfree|]. apply data_block_layout with f; [unfold same_layout; by rewrite Hgr|done]. }
  assert (Hrc : r ≠ c) by (intros ->; by apply (Hfresh p); [apply inner_valid, (proj1 (valid_snoc apb p i))|]).
  assert (Hwalk : ∀ q, valid apb q → place_of n' f' q = if decide (q = p ++ [i]) then Some r else place_of n f q).
  { intros q Hq. unfold place_of. rewrite (walk_put apb (tabs n f) (tabs n' f') p c i r bh); try done; [|apply Hh| | |].
    - by rewrite (decide_False (P := r = 0)) by done.
    - intros j _. by apply walk_None_app.
    - intros _ Hin. rewrite Hsame, tabs_ne by done. by apply Hzero.
    - intros q' c' _ _ Hne. by apply Hsame. }
  split; [|done]. split; [|by rewrite Hcnt]. rewrite Hres. split; [done| | | |].
  - intros j gdp Hj. rewrite Hfree. rewrite Hgr in Hj. by apply Hh with j.
  - apply (tree_put apb (tabs n f) (tabs n' f') p c i r bh); try done; [lia|apply Hh| | |].
    + intros j _. by apply walk_None_app.
    + intros _ Hin. rewrite Hsame, tabs_ne by done. by apply Hzero.
    + intros q' c' _ _ Hne. by apply Hsame.
  - intros q b Hq Hne Hb. rewrite Hwalk in Hb by done. case_decide.
    + injection Hb as <-. split; [by apply Htk'|done].
    + destruct (ho_taken _ _ _ _ _ Hh q b Hq Hne Hb). split; [by apply Htk'|done].
  - intros b Hb. by apply Htk', (ho_held _ _ _ _ _ Hh).
Qed.

(** A block is allocated and stored. *)
Lemma put_reached n f p c i r n1 f1 bh n' f' :
  node_ok g sb n f → valid apb (p ++ [i]) → place_of n f p = Some c → place_of n f (p ++ [i]) = None →
  picked g n f r n1 f1 → r ≠ 0 →
  (inner apb (p ++ [i]) → cache f1 !! r = Some (replicate (Z.to_nat apb) 0)) →
  tabs n1 f1 !! c = Some bh → tabs n' f' !! c = Some (updz i r bh) → (∀ b, b ≠ c → tabs n' f' !! b = tabs n1 f1 !! b) →
  fs_ok g f' → (∀ b, is_free g f' b = is_free g f1 b) → groups f' = groups f1 →
  reserved n' = reserved n1 → i_prealloc_count n' = i_prealloc_count n1 →
  reached true (p ++ [i]) n f (inr r) n' f'.
Proof.
  intros Hno Hv Hp Hnone Hpk Hr Hzero Hbh Hput Hsame Hf' Hfree Hgr Hres Hcnt.
  destruct (picked_ok g sb Hg n f r n1 f1 Hno Hpk) as (Hno1 & Hp1 & Hoth1 & Hnew).
  destruct (Hnew Hr) as (Htk & Hnr & Hfresh). pose proof (proj1 (valid_snoc apb p i) Hv) as [Hpi _].
  destruct (put_ok n1 f1 p c i r bh n' f') as [Hno' Hwalk]; try done.
  { rewrite Hp1; [done|by apply inner_valid]. }
  { by rewrite Hp1. }
  { intros q Hq. rewrite Hp1 by done. by apply Hfresh. }
  assert (Hwalk' : ∀ q, valid apb q → place_of n' f' q = if decide (q = p ++ [i]) then Some r else place_of n f q).
  { intros q Hq. rewrite Hwalk, Hp1 by done. done. }
  assert (Hav : ∀ b, avail g n' f' b ↔ avail g n1 f1 b) by (intros b; unfold avail; by rewrite Hres, Hfree).
  split; try done.
  - intros b Hb Ho. destruct (Hoth1 b Hb Ho) as (Hb1 & Ho1 & Hc1). rewrite <-Hc1.
    assert (Hbc : b ≠ c).
    { intros ->. destruct p as [|x p]; [injection Hp as <-; destruct Hb as [_ Hdb]; apply (data_block_range g Hg) in Hdb; lia|].
      apply Ho. right. exists (x :: p). split_and!; [by apply inner_valid|done|done]. }
    assert (0 < b) by (destruct Hb as [_ Hdb]; by apply (data_block_range g Hg) in Hdb as [? _]).
    split_and!.
    + destruct Hb1 as [Hu Hdb]. split; [by rewrite Hfree|]. apply data_block_layout with f1; [unfold same_layout; by rewrite Hgr|done].
    + rewrite Hres. intros [Hx|(q & Hq & Hne & Hx)]; [apply Ho1; left; by left|]. rewrite Hwalk in Hx by done.
      apply Ho1. case_decide; [left; right; by injection Hx|right; by exists q].
    + specialize (Hsame b Hbc). by rewrite !tabs_ne in Hsame by lia.
  - intros q Hq Hpre. rewrite Hwalk' by done. rewrite decide_False; [done|]. intros ->. by apply Hpre.
  - intros q b Hq Hb. rewrite Hwalk' by done. rewrite decide_False; [done|]. intros ->. congruence.
  - intros q b Hq Hb Hb'. rewrite Hwalk' in Hb' by done. case_decide; [|congruence]. injection Hb' as <-. by apply (pk_got g _ _ _ _ _ Hpk).
  - intros b Hb%Hav. by apply (pk_avail g _ _ _ _ _ Hpk) in Hb as [? _].
  - intros [?|?]; [done|congruence].
  - rewrite Hwalk' by done. by rewrite decide_True.
Qed.

(** Nothing is allocated. *)
Lemma full_reached n f p n' f' :
  node_ok g sb n f → valid apb p → place_of n f p = None → picked g n f 0 n' f' → reached true p n f (inl ENOSPC) n' f'.
Proof.
  intros Hno Hv Hnone Hpk. destruct (picked_ok g sb Hg n f 0 n' f' Hno Hpk) as (Hno' & Hp' & Hoth & _). split; try done.
  - intros b Hb Ho. destruct (Hoth b Hb Ho) as (Hb1 & Ho1 & Hc1). split_and!; try done.
    intros [Hx|Hx]; apply Ho1; [left; by left|by right].
  - intros q Hq _. by apply Hp'.
  - intros q b Hq Hb. by rewrite Hp'.
  - intros q b Hq Hb. rewrite Hp' by done. congruence.
  - intros b Hb. by apply (pk_avail g _ _ _ _ _ Hpk) in Hb as [? _].
  - intros [?|?]; [done|congruence].
  - split; [by rewrite Hp'|]. right. split_and!; [done|done|]. intros b. by apply (pk_full g _ _ _ _ _ Hpk).
Qed.

(** What is there already, or may not be created. *)
Lemma same_reached create p n f res :
  node_ok g sb n f →
  match res with inr b => place_of n f p = Some b | inl e => place_of n f p = None ∧ e = EINVAL ∧ create = false end →
  reached create p n f res n f.
Proof.
  intros Hno Hres. split; try done; try (intros; congruence). destruct res; naive_solver.
Qed.

Lemma inode_getblk_ok nr create zero new_block n f :
  node_ok g sb n f → 0 ≤ nr < 15 → (inner apb [nr] → zero = true) →
  ∃ res n' f', inode_getblk long (S tries) g sb nr create zero new_block n f = Some (res, n', f')
    ∧ reached create [nr] n f res n' f'.
Proof.
  intros Hno Hnr Hz. unfold inode_getblk. rewrite decide_True by done. pose proof (no_holds _ _ _ _ Hno) as Hh.
  destruct (to_table _ _ (ho_tree _ _ _ _ _ Hh) [] 0) as (l & Hl & Hlen); [done|done|].
  unfold tabs in Hl. rewrite lookup_insert_eq in Hl. injection Hl as <-. simpl in Hlen.
  destruct (lookupz_is_Some (i_data n) nr) as [b Hb]; [lia|].
  assert (Hplace : place_of n f [nr] = if decide (b = 0) then None else Some b).
  { unfold place_of, tabs. simpl. rewrite lookup_insert_eq. simpl. by rewrite Hb. }
  assert (Hv : valid apb [nr]) by (split_and!; simpl; (lia || done)).
  rewrite Hb. cbn [mbind option_bind]. destruct (decide (b ≠ 0)) as [Hne|He].
  { rewrite decide_False in Hplace by done. destruct (ho_taken _ _ _ _ _ Hh [nr] b Hv) as [[_ Hdb] _]; [done..|].
    pose proof (data_block_range g Hg f b Hdb). rewrite decide_True by lia. do 3 eexists. split; [done|]. by apply same_reached. }
  rewrite decide_True in Hplace by lia. destruct create; cbn [negb]; [|do 3 eexists; split; [done|]; by apply same_reached].
  destruct (choose_goal_ok n new_block nr (u32 (i_block_group n * s_blocks_per_group g + s_first_data_block g)) (i_data n))
    as [goal ->]; [lia|]. cbn [mbind option_bind].
  destruct (alloc_block_ok long tries g sb Hlong Hg Hsb goal zero n f Hno) as (r & n1 & f1 & -> & Hpk & Hzero).
  cbn [mbind option_bind]. destruct (decide (r = 0)) as [->|Hr].
  { do 3 eexists. split; [done|]. by apply full_reached. }
  unfold storez. rewrite (pk_data _ _ _ _ _ _ Hpk), decide_True by lia. cbn [mbind option_bind]. do 3 eexists. split; [done|].
  apply (put_reached n f [] 0 nr r n1 f1 (i_data n)); try done.
  - intros Hin. apply Hzero; [by apply Hz|done].
  - unfold tabs. by rewrite lookup_insert_eq, (pk_data _ _ _ _ _ _ Hpk).
  - unfold tabs. by rewrite lookup_insert_eq.
  - intros b' Hne. unfold tabs. by rewrite !lookup_insert_ne.
  - apply Hpk.
Qed.

Lemma block_getblk_ok p block nr create zero new_block n f :
  node_ok g sb n f → p ≠ [] → place_of n f p = Some block → valid apb (p ++ [nr]) → (inner apb (p ++ [nr]) → zero = true) →
  ∃ res n' f', block_getblk long (S tries) g sb block nr create zero new_block n f = Some (res, n', f')
    ∧ reached create (p ++ [nr]) n f res n' f'.
Proof.
  intros Hno Hp Hb Hv Hz. unfold block_getblk. pose proof (no_holds _ _ _ _ Hno) as Hh.
  pose proof (proj1 (valid_snoc apb p nr) Hv) as [Hin Hnr].
  destruct (ho_taken _ _ _ _ _ Hh p block (inner_valid _ _ Hin) Hp Hb) as [[Hu Hdb] Hnr0]. pose proof (data_block_range g Hg f block Hdb) as Hrng.
  destruct (to_table _ _ (ho_tree _ _ _ _ _ Hh) p block Hin Hb) as (bh & Hbh & Hlen).
  pose proof Hbh as Hc. rewrite tabs_ne in Hc by lia. rewrite Hc. cbn [mbind option_bind].
  destruct (lookupz_is_Some bh nr) as [b Hbn]; [lia|]. rewrite Hbn. cbn [mbind option_bind].
  assert (Hplace : place_of n f (p ++ [nr]) = if decide (b = 0) then None else Some b).
  { unfold place_of in *. rewrite walk_snoc, Hb. simpl. rewrite Hbh. simpl. by rewrite Hbn. }
  destruct (decide (b ≠ 0)) as [Hne|He].
  { rewrite decide_False in Hplace by done. do 3 eexists. split; [done|]. by apply same_reached. }
  rewrite decide_True in Hplace by lia. destruct create; cbn [negb]; [|do 3 eexists; split; [done|]; by apply same_reached].
  destruct (choose_goal_ok n new_block nr block bh) as [goal ->]; [lia|]. cbn [mbind option_bind].
  destruct (alloc_block_ok long tries g sb Hlong Hg Hsb goal zero n f Hno) as (r & n1 & f1 & -> & Hpk & Hzero).
  cbn [mbind option_bind]. destruct (decide (r = 0)) as [->|Hr].
  { do 3 eexists. split; [done|]. by apply full_reached. }
  destruct (picked_ok g sb Hg n f r n1 f1 Hno Hpk) as (Hno1 & Hp1 & _ & Hnew). destruct (Hnew Hr) as (_ & _ & Hfresh).
  assert (block ≠ r) by (intros ->; by apply (Hfresh p); [apply inner_valid|]).
  rewrite (pk_cache _ _ _ _ _ _ Hpk), Hc by (done || apply Hdb). cbn [mbind option_bind].
  unfold storez. rewrite decide_True by lia. cbn [mbind option_bind].
  destruct (fs_ok_set_cache g f1 (<[block := updz nr r bh]> (cache f1)) (modified_global_blocks f1)) as [Hf2 Hfree2];
    [apply Hpk|apply Hpk| |].
  { intros i gdp Hi. rewrite lookup_insert_ne; [done|]. apply (db_bitmap g f1 block) with i; [|done].
    apply data_block_layout with f; [by apply Hpk|done]. }
  set (f2 := set_cache _ _ _) in *.
  assert (∃ n' m, (if must_sync sb n1 then sync_global_ptr block n1 f2 else record_indir_poke block n1 f2)
      = Some (n', set_cache (cache f2) m f2) ∧ modified_ok g m
    ∧ i_data n' = i_data n1 ∧ reserved n' = reserved n1 ∧ i_prealloc_count n' = i_prealloc_count n1)
    as (n3 & m & -> & Hm & Hd & Hres & Hcnt).
  { destruct (must_sync sb n1); [apply sync_global_ptr_ok|apply record_indir_poke_ok]; done || lia. }
  cbn [mbind option_bind]. destruct (fs_ok_set_cache g f2 (cache f2) m Hf2 Hm) as [Hf3 Hfree3]; [done|].
  do 3 eexists. split; [done|]. apply (put_reached n f p block nr r n1 f1 bh); try done.
  - intros Hi. apply Hzero; [by apply Hz|done].
  - rewrite tabs_ne by lia. rewrite (pk_cache _ _ _ _ _ _ Hpk); [done|done|apply Hdb].
  - rewrite tabs_ne by lia. simpl. by rewrite lookup_insert_eq.
  - intros b' Hne. unfold tabs. simpl. rewrite Hd. destruct (decide (b' = 0)) as [->|]; [by rewrite !lookup_insert_eq|].
    by rewrite !(lookup_insert_ne _ 0), lookup_insert_ne by done.
Qed.

(** ** The whole walk *)
Lemma reached_trans create p i b n0 f0 n f res n' f' :
  reached create p n0 f0 (inr b) n f → reached create (p ++ [i]) n f res n' f' → reached create (p ++ [i]) n0 f0 res n' f'.
Proof.
  intros [H1 H2 H3 H4 H5 H6 H7 H8] [K1 K2 K3 K4 K5 K6 K7 K8]. split; try done.
  - by apply (others_kept_trans g apb n0 f0 (reserved n0) n f (reserved n)).
  - intros q Hq Hpre. rewrite K3, H3; [done|done| |done|done]. intros Hp. apply Hpre. by apply prefix_app_r.
  - intros q c Hq Hc. apply K4; [done|]. by apply H4.
  - intros q c Hq Hc Hc'. destruct (place_of n f q) as [c'|] eqn:E; [|apply H6; by apply (K5 q)].
    pose proof (K4 q c' Hq E) as E'. rewrite Hc' in E'. injection E' as ->. by apply (H5 q).
  - intros b' Hb. by apply H6, K6.
  - intros Hn. destruct H7 as [-> ->]; [|by apply K7].
    destruct Hn as [?|Hn]; [by left|right]. intros E. apply Hn. by apply walk_None_app.
Qed.

Lemma reached_error create p i e n0 f0 n f :
  reached create p n0 f0 (inl e) n f → reached create (p ++ [i]) n0 f0 (inl e) n f.
Proof.
  intros [H1 H2 H3 H4 H5 H6 H7 [H8 H9]]. split; try done.
  - intros q Hq Hpre. apply H3; [done|]. intros Hp. apply Hpre. by apply prefix_app_r.
  - intros Hn. apply H7. destruct Hn as [?|Hn]; [by left|right]. intros E. apply Hn. by apply walk_None_app.
  - split; [by apply walk_None_app|done].
Qed.

Lemma then_block_ok p r nr create zero new_block n0 f0 :
  (∃ res n f, r = Some (res, n, f) ∧ reached create p n0 f0 res n f) → p ≠ [] → valid apb (p ++ [nr]) →
  (inner apb (p ++ [nr]) → zero = true) →
  ∃ res n f, then_block long (S tries) g sb r nr create zero new_block = Some (res, n, f)
    ∧ reached create (p ++ [nr]) n0 f0 res n f.
Proof.
  intros (res & n & f & -> & Hr) Hp Hv Hz. simpl. destruct res as [e|b].
  - do 3 eexists. split; [done|]. by apply reached_error.
  - destruct (block_getblk_ok p b nr create zero new_block n f) as (res & n' & f' & -> & Hr');
      [by destruct Hr|done|by destruct Hr|done|done|].
    do 3 eexists. split; [done|]. by apply reached_trans with b n f.
Qed.

Lemma node_ok_data n n' f :
  i_data n' = i_data n → i_prealloc_block n' = i_prealloc_block n → i_prealloc_count n' = i_prealloc_count n →
  node_ok g sb n f → node_ok g sb n' f.
Proof.
  intros Hd Hb Hc [[H1 H2 H3 H4 H5] Hcnt]. assert (Ht : tabs n' f = tabs n f) by (unfold tabs; by rewrite Hd).
  assert (Hr : reserved n' = reserved n) by (unfold reserved; by rewrite Hb, Hc).
  split; [|by rewrite Hc]. split; unfold place_of; rewrite ?Ht, ?Hr; done.
Qed.
End step.

(** The limit of the size of a file, and the place of a block of it. *)
Definition limit (apb : Z) : Z := 12 + apb + apb * apb + apb * apb * apb.

Definition path_of (apb block : Z) : list Z :=
  if decide (block < 12) then [block] else
  let block := block - 12 in
  if decide (block < apb) then [12; block] else
  let block := block - apb in
  if decide (block < apb * apb) then [13; block / apb; block mod apb] else
  let block := block - apb * apb in
  [14; block / (apb * apb); (block / apb) mod apb; block mod apb].

Definition file_block (apb : Z) (n : node) (f : fs) (block : Z) : option Z := place_of n f (path_of apb block).

(** The number of pointers in a block is a power of two. *)
Record settings_ok (sb : settings) : Prop := {
  so_apb : ∃ k, 0 ≤ k ≤ 10 ∧ addr_per_block sb = 2 ^ k;
  so_prealloc : 0 ≤ s_prealloc_blocks sb < 2 ^ 8 ∧ 0 ≤ s_prealloc_dir_blocks sb < 2 ^ 8
}.

Lemma path_of_valid apb block : 0 < apb → 0 ≤ block < limit apb → valid apb (path_of apb block).
Proof.
  intros Ha Hb. unfold limit in Hb. unfold path_of. repeat case_decide; simpl; unfold index_ok;
    (split; [lia|]; split; [unfold depth; simpl; lia|]); repeat constructor; try apply Z.mod_pos_bound; try lia;
    try (apply Z.div_pos; nia); apply Z.div_lt_upper_bound; nia.
Qed.

Lemma div_mod_inj a x y : 0 < a → x / a = y / a → x mod a = y mod a → x = y.
Proof. intros Ha Hd Hm. rewrite (Z.div_mod x a), (Z.div_mod y a) by lia. congruence. Qed.

(** Blocks of a file are in different places, none above another. *)
Lemma path_of_prefix apb x y :
  0 < apb → 0 ≤ x → 0 ≤ y → path_of apb x `prefix_of` path_of apb y → x = y.
Proof.
  intros Ha Hx Hy [k Hk]. unfold path_of in Hk. repeat case_decide; simpl in Hk; try (injection Hk; intros; lia).
  - injection Hk as Hd Hm _. apply (div_mod_inj apb) in Hm; [lia|done|done].
  - injection Hk as Hd Hm Hl _. rewrite <-!Z.div_div in Hd by lia. apply (div_mod_inj apb) in Hm; [|done|done].
    apply (div_mod_inj apb) in Hl; [lia|done|done].
Qed.

(** A pointer to a block of the file is not one to an indirect block. *)
Ltac not_inner := intros (_ & Hlt & _); unfold depth in Hlt; simpl in Hlt; lia.

Section walk.
Context (long : Z) (tries : nat) (g : geometry) (sb : settings).
Hypothesis Hlong : long = 32 ∨ long = 64.
Hypothesis Hg : geometry_ok g.
Hypothesis Hsb : settings_ok sb.

Abbreviation apb := (addr_per_block sb).

Lemma apb_pos : 0 < apb.
Proof. destruct (so_apb sb Hsb) as (k & Hk & ->). by apply Z.pow_pos_nonneg; lia. Qed.

Lemma land_apb x : Z.land x (apb - 1) = x mod apb.
Proof. destruct (so_apb sb Hsb) as (k & Hk & ->). rewrite <-Z.land_ones, Z.ones_equiv by lia. done. Qed.

Lemma getblk_reached block create n f :
  node_ok g sb n f → 0 ≤ block < limit apb →
  ∃ n1 res n' f', ext2_getblk long (S tries) g sb block create n f = Some (res, n', f')
    ∧ i_data n1 = i_data n ∧ reserved n1 = reserved n ∧ reached g sb create (path_of apb block) n1 f res n' f'.
Proof.
  intros Hno Hb. pose proof apb_pos as Ha. pose proof (so_prealloc sb Hsb) as Hpre.
  pose proof (path_of_valid apb block Ha Hb) as Hv. unfold ext2_getblk. unfold limit in Hb.
  rewrite (decide_False (P := 12 + apb + apb * apb + apb * apb * apb < block)) by lia.
  set (n1 := if decide (block = _) then _ else n).
  assert (Hn1 : i_data n1 = i_data n ∧ reserved n1 = reserved n ∧ node_ok g sb n1 f).
  { unfold n1. case_decide; [|done]. split_and!; [done|done|]. by apply node_ok_data with n. }
  destruct Hn1 as (Hd & Hr & Hno1). exists n1. clearbody n1.
  match goal with |- ∃ res n' f', ?e = _ ∧ _ =>
    enough (∃ res n' f', e = Some (res, n', f') ∧ reached g sb create (path_of apb block) n1 f res n' f')
      as (res & n' & f' & He & Hre) by (by exists res, n', f')
  end.
  rewrite !land_apb. unfold path_of in *.
  assert (Hi : ∀ nr zero, 0 ≤ nr < 15 → (inner apb [nr] → zero = true) →
    ∃ res n' f', inode_getblk long (S tries) g sb nr create zero block n1 f = Some (res, n', f')
      ∧ reached g sb create [nr] n1 f res n' f') by (intros; by apply inode_getblk_ok).
  destruct (decide (block < 12)).
  { apply Hi; [lia|]. not_inner. }
  destruct (decide (block - 12 < apb)).
  { apply (then_block_ok long tries g sb Hlong Hg Hpre Ha [12]); [by apply Hi|done|done|]. not_inner. }
  destruct (decide (block - 12 - apb < apb * apb)).
  { apply (then_block_ok long tries g sb Hlong Hg Hpre Ha [13; _]); [|done|done|not_inner].
    apply (then_block_ok long tries g sb Hlong Hg Hpre Ha [13]); [by apply Hi|done| |done].
    exact (valid_init apb [13; _] _ Hv). }
  apply (then_block_ok long tries g sb Hlong Hg Hpre Ha [14; _; _]); [|done|done|not_inner].
  assert (Hv3 : valid apb [14; (block - 12 - apb - apb * apb) / (apb * apb); ((block - 12 - apb - apb * apb) / apb) mod apb])
    by exact (valid_init apb [14; _; _] _ Hv).
  apply (then_block_ok long tries g sb Hlong Hg Hpre Ha [14; _]); [|done|done|done].
  apply (then_block_ok long tries g sb Hlong Hg Hpre Ha [14]); [by apply Hi|done| |done].
  exact (valid_init apb [14; _] _ Hv3).
Qed.
End walk.

(** C4. The block of a file.  If block [block] of the file is there its place on the
    disk is returned and nothing changes but hints.  Otherwise it is not created
    unless asked for; when it is, a block that was free or reserved for the file
    is put in its place, or the error is that no such block is left.  In every
    case no other block of the file moves or disappears, all blocks of the file
    are still in use, disjoint and distinct from the reserved ones, and blocks of
    data that do not belong to the file keep their contents and stay in use. *)
Theorem ext2_getblk_correct long tries g sb block create n f :
  long = 32 ∨ long = 64 → geometry_ok g → settings_ok sb → node_ok g sb n f → 0 ≤ block < limit (addr_per_block sb) →
  ∃ res n' f', ext2_getblk long (S tries) g sb block create n f = Some (res, n', f')
    ∧ node_ok g sb n' f'
    ∧ others_kept g (addr_per_block sb) n f (reserved n) n' f' (reserved n')
    ∧ (∀ x, 0 ≤ x < limit (addr_per_block sb) → x ≠ block →
        file_block (addr_per_block sb) n' f' x = file_block (addr_per_block sb) n f x)
    ∧ match file_block (addr_per_block sb) n f block with
      | Some b => res = inr b ∧ i_data n' = i_data n ∧ f' = f
      | None =>
          if create then
            (∃ b, res = inr b ∧ avail g n f b ∧ file_block (addr_per_block sb) n' f' block = Some b)
            ∨ (res = inl ENOSPC ∧ (∀ b, ¬ avail g n' f' b) ∧ file_block (addr_per_block sb) n' f' block = None)
          else res = inl EINVAL ∧ i_data n' = i_data n ∧ f' = f
      end.
Proof.
  intros Hlong Hg Hsb Hno Hb. pose proof (apb_pos sb Hsb) as Ha.
  destruct (getblk_reached long tries g sb Hlong Hg Hsb block create n f Hno Hb) as (n1 & res & n' & f' & He & Hd & Hr & Hre).
  destruct Hre as [H1 H2 H3 H4 H5 H6 H7 H8]. exists res, n', f'. split; [done|].
  assert (Hp : ∀ p, place_of n1 f p = place_of n f p) by (intros p; unfold place_of, tabs; by rewrite Hd).
  pose proof (path_of_valid _ _ Ha Hb) as Hv. unfold avail in H5. rewrite Hr in H2, H5. split_and!; [done| | |].
  - intros b Hb1 Ho. apply H2; [done|]. intros [?|(p & ? & ? & E)]; apply Ho; [by left|right; exists p; by rewrite <-Hp].
  - intros x Hx Hne. unfold file_block. rewrite H3, Hp; [done|by apply path_of_valid|]. intros Hpre.
    apply Hne. by apply (path_of_prefix (addr_per_block sb)); [|lia..|].
  - unfold file_block. rewrite Hp in *. destruct (place_of n f (path_of (addr_per_block sb) block)) as [b|] eqn:E.
    + destruct H7 as [-> ->]; [by right|]. destruct res as [e|b']; [destruct H8; congruence|]. split_and!; try done. congruence.
    + destruct create.
      * destruct res as [e|b]; [right; destruct H8 as [? [[_ ?]|(-> & _ & ?)]]; done|left; exists b; split_and!; try done].
        apply (H5 (path_of (addr_per_block sb) block)); try done. by rewrite Hp.
      * destruct H7 as [-> ->]; [by left|]. destruct res as [e|b]; [destruct H8 as [? [[-> _]|(_ & ? & _)]]; done|congruence].
Qed.

(** ** Examples *)
Definition empty_file : node := mk_node (replicate 15 0) 0 1 0 0 0 0 Regular 0 false [] [] [].

Definition two_pointers : settings := mk_settings 2 2 0 false 1 false.

Lemma two_pointers_ok : settings_ok two_pointers.
Proof. split; [by exists 1|done]. Qed.

Lemma empty_place f i p : place_of empty_file f (i :: p) = None.
Proof.
  unfold place_of, tabs. simpl. rewrite lookup_insert_eq. simpl. destruct (_ !z i) as [b|] eqn:Hb; [|done].
  by apply (lookupz_replicate 15) in Hb as [-> _].
Qed.

Lemma empty_node_ok sb : node_ok two_groups sb empty_file small_fs.
Proof.
  split; [|done]. split.
  - exact small_fs_ok.
  - intros i gdp Hi. by destruct (small_groups i gdp Hi) as [[-> ->]|[-> ->]].
  - pose proof (empty_place small_fs) as He. unfold place_of in He. split.
    + intros [|i p] b Hp Hb; [|by rewrite He in Hb]. injection Hb as <-. by exists (replicate 15 0).
    + intros [|i p] [|j q] b _ _ Hb Hb'; try done; rewrite He in *; done.
  - intros [|i p] b _ Hne Hb; [done|]. by rewrite empty_place in Hb.
  - intros b Hb. unfold reserved in Hb. simpl in Hb. lia.
Qed.

Lemma ext2_getblk_correct_witness :
  ∃ res n' f', ext2_getblk 64 1 two_groups two_pointers 13 true empty_file small_fs = Some (res, n', f')
    ∧ node_ok two_groups two_pointers n' f'.
Proof.
  destruct (ext2_getblk_correct 64 0 two_groups two_pointers 13 true empty_file small_fs)
    as (res & n' & f' & He & Hno & _); [by right|exact two_groups_ok|exact two_pointers_ok|exact (empty_node_ok two_pointers)|done|].
  exists res, n', f'. split; [exact He|exact Hno].
Defined.

(** Block 13 of the file, its indirect block and the block reserved behind it. *)
Example getblk_creates :
  (λ r : (errno + Z) * node * fs, let '(res, n, f) := r in (res, i_data n !z 12, cache f !! 64, i_prealloc_block n, i_prealloc_count n, st_blocks n))
    <$> ext2_getblk 64 1 two_groups two_pointers 13 true empty_file small_fs
  = Some (inr 6, Some 64, Some [0; 6], 7, 1, 4).
Proof. vm_compute. done. Qed.

(** The block at the limit is not refused and its index is beyond the indirect block. *)
Example getblk_limit_overruns :
  limit 2 = 26
  ∧ ext2_getblk 64 1 two_groups two_pointers 26 true empty_file small_fs = None
  ∧ ext2_getblk 64 1 two_groups two_pointers 27 true empty_file small_fs = Some (inl EIO, empty_file, small_fs).
Proof. by vm_compute. Qed.
