(* ===== verification/Truncate.v ===== *)
(** * ext2: truncation (src/ext2fs/truncate.c)

    The blocks behind the new end of a file are freed: pointers are cleared, and
    the blocks they pointed to are collected in runs that are freed at once.  An
    indirect block is freed when all that is below it has been.  The theorems are
    which blocks of the file are left, that exactly the blocks taken out of the
    tree of [Blockmap.v] become free, and that nothing else changes.  Blocks below
    a double or triple indirect block are left behind the end of the file: the
    code takes the number of a block for the index of a pointer there.

    A pointer in memory is a pair of a block and an index, with block 0 for the
    inode.  The part of [diskfs_truncate] that frees blocks is rendered; the calls
    to pagers, the partial last block and the case of an inode without blocks are
    left out.  [pager_flush_some] is recorded as the number of the block. *)

From S2P Require Import Prelude Bitmap Balloc Blockmap Getblk.

Record free_block_run := mk_run {
  first_block : Z;
  num_blocks : Z
}.

Record state := mk_state {
  nd : node;
  disk : fs;
  fbr : free_block_run;
  flushed : list Z
}.

Definition with_run (r : free_block_run) (s : state) : state := mk_state (nd s) (disk s) r (flushed s).

Section truncate.
Context (long : Z) (g : geometry) (sb : settings).

Abbreviation apb := (addr_per_block sb).

Definition load (p : Z * Z) (s : state) : option Z :=
  if decide (p.1 = 0) then i_data (nd s) !z p.2 else bh ← cache (disk s) !! p.1; bh !z p.2.

(** Clears the pointer. *)
Definition clear_pointer (p : Z * Z) (s : state) : option state :=
  if decide (p.1 = 0) then
    l ← storez p.2 0 (i_data (nd s)); Some (mk_state (set_data l (nd s)) (disk s) (fbr s) (flushed s))
  else
    bh ← cache (disk s) !! p.1; bh ← storez p.2 0 bh;
    Some (mk_state (nd s) (set_cache (<[p.1 := bh]> (cache (disk s))) (modified_global_blocks (disk s)) (disk s))
      (fbr s) (flushed s)).

Definition _free_block_run_flush (count : Z) (s : state) : option state :=
  let n := set_blocks (st_blocks (nd s) - Z.shiftl count (log2_stat_blocks_per_fs_block sb)) (nd s) in
  f ← ext2_free_blocks g (first_block (fbr s)) count (disk s);
  Some (mk_state n f (fbr s) (flushed s)).

Definition free_block_run_add (block : Z) (s : state) : option state :=
  let count := num_blocks (fbr s) in
  if decide (count = 0) then Some (with_run (mk_run block (count + 1)) s)
  else if decide (0 < count ∧ first_block (fbr s) = (block - count) mod 2 ^ long) then
    Some (with_run (mk_run (first_block (fbr s)) (count + 1)) s)
  else
    s ← _free_block_run_flush count s;
    Some (with_run (mk_run block 1) s).

Definition free_block_run_free_ptr (p : Z * Z) (s : state) : option state :=
  block ← load p s;
  if decide (block ≠ 0) then s ← clear_pointer p s; free_block_run_add block s else Some s.

Definition free_block_run_finish (s : state) : option state :=
  let count := num_blocks (fbr s) in
  if decide (0 < count) then _free_block_run_flush count s else Some s.

Fixpoint trunc_direct (fuel : nat) (last : Z) (s : state) : option state :=
  match fuel with
  | O => None
  | S fuel' =>
      if decide (last < EXT2_NDIR_BLOCKS) then s ← free_block_run_free_ptr (0, last) s; trunc_direct fuel' (last + 1) s
      else Some s
  end.

Abbreviation free_block_fn := (Z * Z → Z → state → option state).

(** The loop over the pointers of an indirect block, with the two flags. *)
Fixpoint trunc_loop (fuel : nat) (ind_bh index : Z) (free_block : free_block_fn) (s : state) (modified all_freed : bool)
    : option (state * bool * bool) :=
  match fuel with
  | O => None
  | S fuel' =>
      if decide (index < apb) then
        e ← load (ind_bh, index) s;
        if decide (e ≠ 0) then
          s ← free_block (ind_bh, index) index s;
          e ← load (ind_bh, index) s;
          if decide (e ≠ 0) then trunc_loop fuel' ind_bh (index + 1) free_block s modified false
          else trunc_loop fuel' ind_bh (index + 1) free_block s true all_freed
        else trunc_loop fuel' ind_bh (index + 1) free_block s modified all_freed
      else Some (s, modified, all_freed)
  end.

Definition trunc_indirect (last : Z) (p : Z * Z) (offset : Z) (free_block : free_block_fn) (s : state) : option state :=
  ind_bh ← load p s;
  if decide (ind_bh ≠ 0) then
    let first := if decide (last < offset) then 0 else last - offset in
    '(s, modified, all_freed) ← trunc_loop (S (Z.to_nat apb)) ind_bh first free_block s false true;
    if bool_decide (first = 0) && all_freed then
      free_block_run_free_ptr p (mk_state (nd s) (disk s) (fbr s) (flushed s ++ [ind_bh]))
    else if modified : bool then
      '(n, f) ← record_indir_poke ind_bh (nd s) (disk s);
      Some (mk_state n f (fbr s) (flushed s))
    else Some s
  else Some s.

Definition trunc_single_indirect (last : Z) (p : Z * Z) (offset : Z) (s : state) : option state :=
  trunc_indirect last p offset (λ p _ s, free_block_run_free_ptr p s) s.

Definition trunc_double_indirect (last : Z) (p : Z * Z) (offset : Z) (s : state) : option state :=
  trunc_indirect last p offset
    (λ p index s, trunc_single_indirect last p (u32 (offset + index * apb)) s) s.

Definition trunc_triple_indirect (last : Z) (p : Z * Z) (offset : Z) (s : state) : option state :=
  trunc_indirect last p offset
    (λ p index s, trunc_double_indirect last p (u32 (offset + index * apb * apb)) s) s.

(** The blocks from number [last] of the file. *)
Definition free_from (last : Z) (n : node) (f : fs) : option state :=
  let s := mk_state n f (mk_run 0 0) [] in
  s ← trunc_direct 13 last s;
  let offs := EXT2_NDIR_BLOCKS in
  s ← trunc_single_indirect last (0, EXT2_IND_BLOCK) offs s;
  let offs := u32 (offs + apb) in
  s ← trunc_double_indirect last (0, EXT2_DIND_BLOCK) offs s;
  let offs := u32 (offs + apb * apb) in
  s ← trunc_triple_indirect last (0, EXT2_TIND_BLOCK) offs s;
  free_block_run_finish s.

(** What [diskfs_truncate] does to the blocks for a new length in bytes. *)
Definition truncate_blocks (length : Z) (n : node) (f : fs) : option state :=
  '(n, f) ← ext2_discard_prealloc g n f;
  let n := set_logs (indir_pokel n) (synced n) (updates n ++ [diskfs_synchronous sb]) n in
  let block_size := 4 * apb in
  let last := u32 ((length + block_size - 1) / block_size) in
  free_from last n f.
End truncate.

(** ** Runs *)
Section runs.
Context (long : Z) (g : geometry) (sb : settings).
Hypothesis Hlong : long = 32 ∨ long = 64.
Hypothesis Hg : geometry_ok g.

Abbreviation apb := (addr_per_block sb).

Hypothesis Hapb : 0 < apb.

Definition in_run (r : free_block_run) (b : Z) : Prop := first_block r ≤ b < first_block r + num_blocks r.

Abbreviation pl s := (place_of (nd s) (disk s)).

(** The blocks of the run are held; nothing is reserved. *)
Record state_ok (s : state) : Prop := {
  st_holds : holds g apb (nd s) (disk s) (in_run (fbr s));
  st_run : 0 ≤ num_blocks (fbr s);
  st_reserved : i_prealloc_count (nd s) = 0
}.

Definition gone (s : state) (b : Z) : Prop := is_free g (disk s) b = true ∨ in_run (fbr s) b.

(** Exactly what is in the places of [R] is taken out. *)
Record removes (R : list Z → bool) (s s' : state) : Prop := {
  rm_ok : state_ok s';
  rm_place q : valid apb q → pl s' q = if R q then None else pl s q;
  rm_gone b : gone s' b ↔ gone s b ∨ ∃ q, valid apb q ∧ q ≠ [] ∧ R q = true ∧ pl s q = Some b;
  rm_others : others_kept g apb (nd s) (disk s) (in_run (fbr s)) (nd s') (disk s') (in_run (fbr s'))
}.

Lemma removes_ext R R' s s' :
  (∀ q, valid apb q → R q = R' q ∨ pl s q = None) → removes R s s' → removes R' s s'.
Proof.
  intros HR [H1 H2 H3 H4]. split; try done.
  - intros q Hq. rewrite H2 by done. destruct (HR q Hq) as [->| ->]; [done|by destruct (R q), (R' q)].
  - intros b. rewrite H3. f_equiv. split; intros (q & Hq & Hne & Hr & Hb); exists q; split_and!; try done;
      destruct (HR q Hq); congruence.
Qed.

Lemma removes_none s : state_ok s → removes (λ _, false) s s.
Proof. intros Hs. split; try done. intros b. split; [by left|]. by intros [?|(q & _ & _ & ? & _)]. Qed.

Lemma removes_trans R1 R2 s1 s2 s3 : removes R1 s1 s2 → removes R2 s2 s3 → removes (λ q, R1 q || R2 q) s1 s3.
Proof.
  intros [H1 H2 H3 H4] [K1 K2 K3 K4]. split; try done.
  - intros q Hq. rewrite K2, H2 by done. by destruct (R1 q), (R2 q).
  - intros b. rewrite K3, H3. split.
    + intros [[?|(q & Hq & Hne & Hr & Hb)]|(q & Hq & Hne & Hr & Hb)]; [by left|right..].
      * exists q. by rewrite Hr.
      * rewrite H2 in Hb by done. destruct (R1 q) eqn:E; [done|]. exists q. by rewrite E, Hr.
    + intros [?|(q & Hq & Hne & Hr & Hb)]; [by left; left|]. destruct (R1 q) eqn:E.
      * left. right. by exists q.
      * right. exists q. rewrite H2, E by done. by split_and!.
  - by apply (others_kept_trans g apb _ _ _ (nd s2) (disk s2) (in_run (fbr s2))).
Qed.

(** A change of the held blocks only, with some of them freed. *)
Lemma flush_ok count H s :
  holds g apb (nd s) (disk s) (λ b, first_block (fbr s) ≤ b < first_block (fbr s) + count ∨ H b) →
  (∀ b, H b → ¬ first_block (fbr s) ≤ b < first_block (fbr s) + count) → 0 < count →
  ∃ s', _free_block_run_flush g sb count s = Some s' ∧ fbr s' = fbr s ∧ i_prealloc_count (nd s') = i_prealloc_count (nd s)
    ∧ (∀ b, is_free g (disk s') b = is_free g (disk s) b || bool_decide (first_block (fbr s) ≤ b < first_block (fbr s) + count))
    ∧ bitmaps_only (disk s) (disk s')
    ∧ holds g apb (nd s') (disk s') H ∧ ∀ q, valid apb q → pl s' q = pl s q.
Proof.
  intros Hh Hdis Hc. unfold _free_block_run_flush.
  assert (Hr : ∀ b, first_block (fbr s) ≤ b < first_block (fbr s) + count → taken g (disk s) b)
    by (intros b Hb; apply (ho_held _ _ _ _ _ Hh); by left).
  pose proof (data_block_range g Hg (disk s)) as Hrng.
  destruct (Hr (first_block (fbr s))) as [_ D0]; [lia|]. destruct (Hr (first_block (fbr s) + count - 1)) as [_ D1]; [lia|].
  apply Hrng in D0, D1.
  destruct (free_blocks_ok g Hg (first_block (fbr s)) count (disk s)) as (f' & -> & Hf' & Hbo & Hfree & _); [apply Hh|lia..| |].
  { intros x gdp Hx Hi. destruct (Hr x Hx) as [_ [_ (gdp' & Hi' & Hu) _]]. rewrite Hi in Hi'. by injection Hi' as <-. }
  cbn [mbind option_bind]. eexists. split; [done|]. simpl. do 4 (split; [done|]).
  assert (Hkeep : ∀ b, taken g (disk s) b → ¬ first_block (fbr s) ≤ b < first_block (fbr s) + count → taken g f' b).
  { intros b [Hu Hd] Hn. split; [by rewrite Hfree, Hu, bool_decide_false|]. apply data_block_layout with (disk s); [apply Hbo|done]. }
  apply (holds_frame g apb Hg (nd s) (disk s) _ _ f' H Hh); try done; [apply Hbo| | |].
  - apply bitmaps_taken_layout with (disk s); [apply Hbo|apply Hh|]. intros i gdp Hi Hu.
    rewrite Hfree, Hu, bool_decide_false; [done|]. intros Hb. destruct (Hr _ Hb) as [_ Hd]. by destruct (db_bitmap _ _ _ Hd i gdp Hi).
  - intros p b Hv Hne Hb. destruct (ho_taken _ _ _ _ _ Hh p b Hv Hne Hb) as [Ht Hn].
    destruct (Hkeep b Ht) as [Hu _]; [tauto|]. split_and!; [done| |tauto]. apply Hbo, Ht.
  - intros b Hb. apply Hkeep; [apply (ho_held _ _ _ _ _ Hh); by right|by apply Hdis].
Qed.

Lemma holds_iff n f held held' : (∀ b, held b ↔ held' b) → holds g apb n f held → holds g apb n f held'.
Proof.
  intros He [H1 H2 H3 H4 H5]. split; try done; [|intros b Hb%He; by apply H5].
  intros p b Hv Hne Hb. destruct (H4 p b Hv Hne Hb). split; [done|]. by rewrite <-He.
Qed.

Lemma add_ok b s :
  holds g apb (nd s) (disk s) (λ x, in_run (fbr s) x ∨ x = b) → ¬ in_run (fbr s) b → 0 ≤ num_blocks (fbr s) →
  i_prealloc_count (nd s) = 0 →
  ∃ s', free_block_run_add long g sb b s = Some s' ∧ state_ok s' ∧ (∀ q, valid apb q → pl s' q = pl s q)
    ∧ (∀ x, gone s' x ↔ gone s x ∨ x = b)
    ∧ others_kept g apb (nd s) (disk s) (λ x, in_run (fbr s) x ∨ x = b) (nd s') (disk s') (in_run (fbr s')).
Proof.
  intros Hh Hnr Hcnt Hpre. unfold free_block_run_add. set (r := fbr s) in *.
  assert (Hmore : ∀ r', 0 ≤ num_blocks r' → (∀ x, in_run r' x ↔ in_run r x ∨ x = b) →
    ∃ s', Some (with_run r' s) = Some s' ∧ state_ok s' ∧ (∀ q, valid apb q → pl s' q = pl s q)
    ∧ (∀ x, gone s' x ↔ gone s x ∨ x = b)
    ∧ others_kept g apb (nd s) (disk s) (λ x, in_run r x ∨ x = b) (nd s') (disk s') (in_run (fbr s'))).
  { intros r' Hr' Hin. eexists. split; [done|]. split_and!; [|done| |].
    - split; [|done|done]. simpl. apply (holds_iff _ _ (λ x, in_run r x ∨ x = b)); [|done]. intros x. by rewrite Hin.
    - intros x. unfold gone. simpl. rewrite Hin. fold r. tauto.
    - intros x Hx Ho. split_and!; [done| |done]. intros [?%Hin|?]; apply Ho; [by left|by right]. }
  destruct (ho_held _ _ _ _ _ Hh b) as [_ Hdb]; [by right|]. pose proof (data_block_range g Hg _ _ Hdb) as Hb.
  pose proof (go_count g Hg) as H31. case_decide as H0.
  { apply Hmore; [simpl; lia|]. intros x. unfold in_run. simpl. lia. }
  assert (Hrun : 0 < first_block r ∧ first_block r + num_blocks r ≤ 2 ^ 31).
  { destruct (ho_held _ _ _ _ _ Hh (first_block r)) as [_ D0]; [left; unfold in_run; lia|].
    destruct (ho_held _ _ _ _ _ Hh (first_block r + num_blocks r - 1)) as [_ D1]; [left; unfold in_run; lia|].
    apply (data_block_range g Hg) in D0, D1. lia. }
  case_decide as Hadj.
  { apply Hmore; [simpl; lia|]. destruct Hadj as [_ Hadj].
    assert (b = first_block r + num_blocks r) as ->; [|intros x; unfold in_run; simpl; lia].
    assert (2 ^ 32 ≤ 2 ^ long) by (destruct Hlong as [-> | ->]; lia).
    destruct (decide (num_blocks r ≤ b)) as [Hle|Hgt]; [rewrite Z.mod_small in Hadj by lia; lia|].
    rewrite <-(Z.mod_add _ 1), Z.mod_small in Hadj by lia. lia. }
  destruct (flush_ok (num_blocks r) (λ x, x = b) s) as (s' & -> & Hr' & Hc' & Hfree & Hbo & Hh' & Hp'); [done| |lia|].
  { intros x ->. exact Hnr. }
  cbn [mbind option_bind]. eexists. split; [done|]. split_and!; [|done| |].
  - split; [|simpl; lia|simpl; congruence]. simpl. apply (holds_iff _ _ (λ x, x = b)); [|done]. intros x. unfold in_run. simpl. lia.
  - intros x. unfold gone. simpl. rewrite Hfree, orb_true_iff, bool_decide_eq_true. unfold in_run. simpl. fold r.
    assert (b ≤ x < b + 1 ↔ x = b) by lia. tauto.
  - intros x Hx Ho. simpl. split_and!; [| |apply Hbo, Hx].
    + destruct Hx as [Hu Hd]. split; [|apply data_block_layout with (disk s); [apply Hbo|done]].
      rewrite Hfree, Hu, bool_decide_false; [done|]. intros Hin. apply Ho. left. by left.
    + intros [Hin|(q & Hq & Hne & Hx')]; apply Ho; [left; right; unfold in_run in Hin; simpl in Hin; lia|].
      right. exists q. change (place_of (nd s') (disk s') q = Some x) in Hx'. by rewrite Hp' in Hx'.
Qed.
End runs.

(** ** Clearing pointers *)
Section clear.
Context (long : Z) (g : geometry) (sb : settings).
Hypothesis Hlong : long = 32 ∨ long = 64.
Hypothesis Hg : geometry_ok g.

Abbreviation apb := (addr_per_block sb).

Hypothesis Hapb : 0 < apb.

Abbreviation pl s := (place_of (nd s) (disk s)).
Abbreviation tb s := (tabs (nd s) (disk s)).

Lemma load_tabs c i s : load (c, i) s = bh ← tb s !! c; bh !z i.
Proof.
  unfold load, tabs. simpl. case_decide as Hc; [by rewrite Hc, lookup_insert_eq|]. by rewrite lookup_insert_ne.
Qed.

Lemma load_pointer_ok p c i s :
  state_ok g sb s → pl s p = Some c → valid apb (p ++ [i]) →
  ∃ bh e, tb s !! c = Some bh ∧ 0 ≤ i < zlen bh ∧ load (c, i) s = Some e
    ∧ pl s (p ++ [i]) = if decide (e = 0) then None else Some e.
Proof.
  intros Hs Hc [Hp Hi]%valid_snoc. destruct (to_table _ _ (ho_tree _ _ _ _ _ (st_holds _ _ _ Hs)) p c Hp Hc) as (bh & Hbh & Hlen).
  destruct (lookupz_is_Some bh i) as [e He]; [lia|]. exists bh, e. split_and!; [done|lia|lia| |].
  - by rewrite load_tabs, Hbh.
  - unfold place_of in *. rewrite walk_snoc, Hc. simpl. rewrite Hbh. simpl. by rewrite He.
Qed.

Lemma clear_pointer_ok p c i bh s :
  state_ok g sb s → pl s p = Some c → inner apb p → tb s !! c = Some bh → 0 ≤ i < zlen bh →
  ∃ s', clear_pointer (c, i) s = Some s' ∧ tb s' !! c = Some (updz i 0 bh) ∧ (∀ b, b ≠ c → tb s' !! b = tb s !! b)
    ∧ fbr s' = fbr s ∧ i_prealloc_count (nd s') = i_prealloc_count (nd s) ∧ fs_ok g (disk s')
    ∧ (∀ b, is_free g (disk s') b = is_free g (disk s) b) ∧ groups (disk s') = groups (disk s)
    ∧ (∀ b, b ≠ c → cache (disk s') !! b = cache (disk s) !! b).
Proof.
  intros Hs Hc Hp Hbh Hi. pose proof (st_holds _ _ _ Hs) as Hh. unfold clear_pointer, storez. simpl. destruct (decide (c = 0)) as [->|Hne].
  - unfold tabs in Hbh. rewrite lookup_insert_eq in Hbh. injection Hbh as <-. rewrite decide_True by done. eexists. split; [done|].
    simpl. unfold tabs. simpl. split_and!; try done; [by rewrite lookup_insert_eq| |apply Hh].
    intros b Hb. by rewrite !lookup_insert_ne.
  - rewrite tabs_ne in Hbh by done. rewrite Hbh. cbn [mbind option_bind]. rewrite decide_True by done. eexists. split; [done|]. simpl.
    assert (Hd : data_block g (disk s) c).
    { destruct p as [|x p]; [by injection Hc|]. by apply (ho_taken _ _ _ _ _ Hh (x :: p)); [apply inner_valid| |]. }
    destruct (fs_ok_set_cache g (disk s) (<[c := updz i 0 bh]> (cache (disk s))) (modified_global_blocks (disk s))) as [Hf Hfree];
      [apply Hh|apply Hh| |].
    { intros j gdp Hj. rewrite lookup_insert_ne; [done|]. by apply (db_bitmap _ _ _ Hd j). }
    unfold tabs. simpl. split_and!; try done.
    + by rewrite lookup_insert_ne, lookup_insert_eq.
    + intros b Hb. destruct (decide (b = 0)) as [->|]; [by rewrite !lookup_insert_eq|]. by rewrite !lookup_insert_ne.
    + intros b Hb. by rewrite lookup_insert_ne.
Qed.

(** A pointer with nothing below it. *)
Lemma free_ptr_ok p c i s :
  state_ok g sb s → pl s p = Some c → valid apb (p ++ [i]) →
  (∀ j, valid apb ((p ++ [i]) ++ [j]) → pl s ((p ++ [i]) ++ [j]) = None) →
  ∃ s', free_block_run_free_ptr long g sb (c, i) s = Some s' ∧ removes g sb (λ q, bool_decide (q = p ++ [i])) s s'.
Proof.
  intros Hs Hc Hv Hempty. pose proof (st_holds _ _ _ Hs) as Hh. unfold free_block_run_free_ptr.
  destruct (load_pointer_ok p c i s Hs Hc Hv) as (bh & e & Hbh & Hi & -> & He). cbn [mbind option_bind].
  destruct (decide (e ≠ 0)) as [Hne|H0].
  2:{ rewrite decide_True in He by lia. exists s. split; [done|].
      apply (removes_ext g sb (λ _, false)); [|by apply removes_none]. intros q _. destruct (decide (q = p ++ [i])) as [->|]; [by right|].
      left. by rewrite bool_decide_false. }
  rewrite decide_False in He by done. pose proof (proj1 (valid_snoc apb p i) Hv) as [Hp _].
  destruct (clear_pointer_ok p c i bh s Hs Hc Hp Hbh Hi) as (s1 & -> & Hput & Hsame & Hrun & Hcnt & Hf1 & Hfree1 & Hgr1 & Hcache1).
  cbn [mbind option_bind].
  destruct (ho_taken _ _ _ _ _ Hh (p ++ [i]) e Hv) as [Hte Hnr]; [by destruct p|done|].
  assert (Hw : ∀ q, valid apb q → pl s1 q = if bool_decide (q = p ++ [i]) then None else pl s q).
  { intros q Hq. unfold place_of. rewrite (walk_put apb (tb s) (tb s1) p c i 0 bh); try done; [|apply Hh|].
    - case_decide; [by rewrite bool_decide_true|by rewrite bool_decide_false].
    - intros q' c' _ _ Hne'. by apply Hsame. }
  assert (Htk : ∀ b, taken g (disk s) b → taken g (disk s1) b).
  { intros b [Hu Hd]. split; [by rewrite Hfree1|]. apply data_block_layout with (disk s); [unfold same_layout; by rewrite Hgr1|done]. }
  assert (Hh1 : holds g apb (nd s1) (disk s1) (λ x, in_run (fbr s1) x ∨ x = e)).
  { rewrite Hrun. split; [done| | | |].
    - intros j gdp Hj. rewrite Hfree1. rewrite Hgr1 in Hj. by apply (ho_bitmaps _ _ _ _ _ Hh j).
    - apply (tree_put apb (tb s) (tb s1) p c i 0 bh); try done; [lia|apply Hh|]. intros q' c' _ _ Hne'. by apply Hsame.
    - intros q b Hq Hqn Hb. rewrite Hw in Hb by done. case_bool_decide as Hqe; [done|].
      destruct (ho_taken _ _ _ _ _ Hh q b Hq Hqn Hb) as [Ht Hn]. split; [by apply Htk|]. intros [?| ->]; [done|].
      apply Hqe. by apply (to_inj _ _ (ho_tree _ _ _ _ _ Hh) q (p ++ [i]) e).
    - intros b [Hb| ->]; [|by apply Htk]. by apply Htk, (ho_held _ _ _ _ _ Hh). }
  destruct (add_ok long g sb Hlong Hg e s1 Hh1) as (s' & -> & Hs' & Hp' & Hgone & Hoth);
    [by rewrite Hrun|rewrite Hrun; apply Hs|rewrite Hcnt; apply Hs|].
  exists s'. split; [done|]. split; [done| | |].
  - intros q Hq. by rewrite Hp', Hw.
  - intros b. rewrite Hgone. unfold gone at 1. rewrite Hrun, Hfree1. fold (gone g s b). f_equiv. split.
    + intros ->. exists (p ++ [i]). split_and!; [done|by destruct p|by apply bool_decide_true|done].
    + intros (q & _ & _ & ->%bool_decide_eq_true & Hb). congruence.
  - intros b Hb Ho. assert (Hbe : b ≠ e) by (intros ->; apply Ho; right; exists (p ++ [i]); by split_and!; [|destruct p|]).
    assert (Hbc : b ≠ c).
    { intros ->. destruct p as [|x p]; [injection Hc as <-; destruct Hb as [_ Hd]; apply (data_block_range g Hg) in Hd; lia|].
      apply Ho. right. exists (x :: p). split_and!; [by apply inner_valid|done|done]. }
    destruct (Hoth b) as (Hb' & Ho' & Hc'); [by apply Htk| |split_and!; try done; by rewrite Hc', Hcache1].
    rewrite Hrun. intros [[?|?]|(q & Hq & Hqn & Hx)]; [apply Ho; by left|done|]. rewrite Hw in Hx by done.
    case_bool_decide; [done|]. apply Ho. right. by exists q.
Qed.
End clear.

(** ** Subtrees *)
(** What is behind [p] in [q]. *)
Fixpoint behind (p q : list Z) : option (list Z) :=
  match p, q with
  | [], _ => Some q
  | x :: p', y :: q' => if decide (x = y) then behind p' q' else None
  | _ :: _, [] => None
  end.

Lemma behind_Some p q r : behind p q = Some r ↔ q = p ++ r.
Proof.
  revert q. induction p as [|x p IH]; intros q; simpl; [split; [by intros [= ->]|by intros ->]|].
  destruct q as [|y q]; [done|]. case_decide as Hxy; [subst|split; [done|by intros [= -> _]]].
  rewrite IH. split; [by intros ->|by intros [= ->]].
Qed.

Lemma behind_app p r : behind p (p ++ r) = Some r.
Proof. by apply behind_Some. Qed.

(** The places in the subtree at [p], and those below its pointers [lo] to [hi]. *)
Definition subtree (p q : list Z) : bool := match behind p q with Some _ => true | None => false end.

Definition below (p : list Z) (lo hi : Z) (q : list Z) : bool :=
  match behind p q with Some (j :: _) => bool_decide (lo ≤ j < hi) | _ => false end.

Lemma below_step p lo hi q : lo < hi → below p lo hi q = subtree (p ++ [lo]) q || below p (lo + 1) hi q.
Proof.
  intros Hlt. unfold below, subtree. destruct (behind p q) as [r|] eqn:E.
  - apply behind_Some in E as ->. destruct r as [|j r].
    + destruct (behind (p ++ [lo]) _) as [r|] eqn:E; [|done]. apply behind_Some in E.
      apply (f_equal length) in E. rewrite !length_app in E. simpl in E. lia.
    + destruct (behind (p ++ [lo]) _) as [r'|] eqn:E.
      * apply behind_Some in E. rewrite <-app_assoc in E. apply app_inv_head in E. injection E as -> _.
        by rewrite bool_decide_true by lia.
      * simpl. assert (j ≠ lo) as Hj by (intros ->; by rewrite (app_assoc p [lo] r : p ++ lo :: r = _), behind_app in E).
        apply bool_decide_ext. lia.
  - destruct (behind (p ++ [lo]) q) as [r|] eqn:E'; [|done]. apply behind_Some in E' as ->.
    by rewrite <-app_assoc, behind_app in E.
Qed.

(** ** Indirect blocks *)
Section indirect.
Context (long : Z) (g : geometry) (sb : settings).
Hypothesis Hlong : long = 32 ∨ long = 64.
Hypothesis Hg : geometry_ok g.

Abbreviation apb := (addr_per_block sb).

Hypothesis Hapb : 0 < apb.

Abbreviation pl s := (place_of (nd s) (disk s)).

(** A place that is empty can be counted as taken out. *)
Lemma removes_nothing p s : state_ok g sb s → pl s p = None → removes g sb (subtree p) s s.
Proof.
  intros Hs Hp. apply (removes_ext g sb (λ _, false)); [|by apply removes_none]. intros q _. unfold subtree.
  destruct (behind p q) as [r|] eqn:E; [|by left]. right. apply behind_Some in E as ->. by apply walk_None_app.
Qed.

Lemma subtree_outside p i q : q = p ∨ (∃ j r, i ≠ j ∧ q = p ++ j :: r) → subtree (p ++ [i]) q = false.
Proof.
  intros Hq. unfold subtree. destruct (behind (p ++ [i]) q) as [r'|] eqn:E; [|done]. apply behind_Some in E.
  rewrite <-app_assoc in E. destruct Hq as [->|(j & r & Hne & ->)].
  - apply (f_equal length) in E. rewrite length_app in E. simpl in E. lia.
  - apply app_inv_head in E. by injection E as -> _.
Qed.

Lemma trunc_loop_ok fn p b : ∀ fuel lo s modified,
  (∀ j, lo ≤ j < apb → ∀ s, state_ok g sb s → pl s p = Some b →
    ∃ s', fn (b, j) j s = Some s' ∧ removes g sb (subtree (p ++ [j])) s s') →
  inner apb p → p ≠ [] → state_ok g sb s → pl s p = Some b → 0 ≤ lo → Z.max 0 (apb - lo) < Z.of_nat fuel →
  ∃ s' modified', trunc_loop sb fuel b lo fn s modified true = Some (s', modified', true)
    ∧ removes g sb (below p lo apb) s s'.
Proof.
  induction fuel as [|fuel IH]; intros lo s modified Hfn Hp Hne Hs Hb Hlo Hfuel; [lia|]. cbn [trunc_loop].
  destruct (decide (lo < apb)) as [Hlt|Hge].
  2:{ exists s, modified. split; [done|]. apply (removes_ext g sb (λ _, false)); [|by apply removes_none].
      intros q _. left. unfold below. destruct (behind p q) as [[|j r]|]; [done| |done]. by rewrite bool_decide_false by lia. }
  assert (Hv : valid apb (p ++ [lo])) by (apply valid_snoc; split; [done|]; destruct p; simpl; [done|lia]).
  destruct (load_pointer_ok g sb p b lo s Hs Hb Hv) as (bh & e & _ & _ & -> & He). cbn [mbind option_bind].
  assert (Hrest : ∀ s1 m1, removes g sb (subtree (p ++ [lo])) s s1 →
    ∃ s' modified', trunc_loop sb fuel b (lo + 1) fn s1 m1 true = Some (s', modified', true)
      ∧ removes g sb (below p lo apb) s s').
  { intros s1 m1 H1. assert (Hb1 : pl s1 p = Some b).
    { rewrite (rm_place _ _ _ _ _ H1), subtree_outside by (by left || by apply inner_valid). done. }
    destruct (IH (lo + 1) s1 m1) as (s' & m' & -> & H'); [intros j Hj; apply Hfn; lia|done|done|apply H1|done|lia|lia|].
    exists s', m'. split; [done|]. apply (removes_ext g sb (λ q, subtree (p ++ [lo]) q || below p (lo + 1) apb q)).
    - intros q _. left. symmetry. by apply below_step.
    - by apply removes_trans with s1. }
  destruct (decide (e ≠ 0)) as [Hne0|H0].
  - destruct (Hfn lo ltac:(lia) s Hs Hb) as (s1 & -> & H1). cbn [mbind option_bind].
    assert (Hb1 : pl s1 p = Some b).
    { rewrite (rm_place _ _ _ _ _ H1), subtree_outside by (by left || by apply inner_valid). done. }
    destruct (load_pointer_ok g sb p b lo s1 (rm_ok _ _ _ _ _ H1) Hb1 Hv) as (bh1 & e1 & _ & _ & -> & He1). cbn [mbind option_bind].
    rewrite (rm_place _ _ _ _ _ H1) in He1 by done. unfold subtree in He1 at 1.
    assert (behind (p ++ [lo]) (p ++ [lo]) = Some []) as E by (apply behind_Some; by rewrite app_nil_r). rewrite E in He1.
    destruct (decide (e1 = 0)) as [->|]; [|done]. rewrite decide_False by tauto. by apply Hrest.
  - rewrite decide_True in He by lia. by apply Hrest, removes_nothing.
Qed.

(** What is only noted does not matter. *)
Lemma removes_noted R s s' n f l :
  removes g sb R s s' → i_data n = i_data (nd s') → i_prealloc_count n = i_prealloc_count (nd s') →
  fs_ok g f → (∀ b, is_free g f b = is_free g (disk s') b) → groups f = groups (disk s') → cache f = cache (disk s') →
  removes g sb R s (mk_state n f (fbr s') l).
Proof.
  intros [[Hh Hrun Hres] H2 H3 H4] Hd Hc Hf Hfree Hgr Hcache.
  assert (Ht : tabs n f = tabs (nd s') (disk s')) by (unfold tabs; by rewrite Hd, Hcache).
  assert (Htk : ∀ b, taken g (disk s') b → taken g f b).
  { intros b [Hu Hdb]. split; [by rewrite Hfree|]. apply data_block_layout with (disk s'); [unfold same_layout; by rewrite Hgr|done]. }
  split.
  - split; simpl; [|done|congruence]. destruct Hh as [K1 K2 K3 K4 K5]. split; [done| |by rewrite Ht| |].
    + intros i gdp Hi. rewrite Hfree. rewrite Hgr in Hi. by apply (K2 i).
    + intros p b Hp Hne Hb. unfold place_of in *. rewrite Ht in Hb. destruct (K4 p b Hp Hne Hb). split; [by apply Htk|done].
    + intros b Hb. by apply Htk, K5.
  - intros q Hq. simpl. unfold place_of in *. rewrite Ht. by apply H2.
  - intros b. rewrite <-H3. unfold gone. simpl. by rewrite Hfree.
  - intros b Hb Ho. destruct (H4 b Hb Ho) as (Hb' & Ho' & Hc'). simpl. split_and!; [by apply Htk| |by rewrite Hcache].
    unfold owned, place_of in *. by rewrite Ht.
Qed.

(** What is taken out at an indirect block, from pointer [lo] on. *)
Definition cut (p : list Z) (lo : Z) (q : list Z) : bool :=
  match behind p q with
  | Some [] => bool_decide (lo = 0)
  | Some (j :: _) => bool_decide (lo ≤ j)
  | None => false
  end.

Lemma valid_behind p j r : p ≠ [] → valid apb (p ++ j :: r) → 0 ≤ j < apb.
Proof.
  destruct p as [|x p]; [done|]. intros _ (_ & _ & Hall). apply Forall_app in Hall as [_ Hall]. by apply Forall_cons in Hall as [? _].
Qed.

Lemma below_cut p lo q :
  p ≠ [] → valid apb q → cut p lo q = below p lo apb q || (bool_decide (lo = 0) && bool_decide (q = p)).
Proof.
  intros Hp Hq. unfold below, cut. destruct (behind p q) as [[|j r]|] eqn:E.
  - apply behind_Some in E as ->. rewrite app_nil_r, (bool_decide_true (p = p)) by done. by rewrite andb_true_r.
  - apply behind_Some in E as ->. apply valid_behind in Hq; [|done].
    rewrite (bool_decide_false (_ = p)), andb_false_r, orb_false_r; [apply bool_decide_ext; lia|].
    intros E%(f_equal length). rewrite length_app in E. simpl in E. lia.
  - rewrite (bool_decide_false (_ = p)), andb_false_r; [done|]. intros ->.
    assert (behind p p = Some []) by (apply behind_Some; by rewrite app_nil_r). congruence.
Qed.

Lemma cut_0 p q : p ≠ [] → valid apb q → cut p 0 q = subtree p q.
Proof.
  intros Hp Hq. unfold cut, subtree. destruct (behind p q) as [[|j r]|] eqn:E; [done| |done].
  apply behind_Some in E as ->. apply valid_behind in Hq; [|done]. by rewrite bool_decide_true by lia.
Qed.

Lemma trunc_indirect_ok fn last p c i offset s :
  let lo := if decide (last < offset) then 0 else last - offset in
  state_ok g sb s → pl s p = Some c → inner apb (p ++ [i]) →
  (∀ b j, lo ≤ j < apb → ∀ s, state_ok g sb s → pl s (p ++ [i]) = Some b →
    ∃ s', fn (b, j) j s = Some s' ∧ removes g sb (subtree ((p ++ [i]) ++ [j])) s s') →
  ∃ s', trunc_indirect long g sb last (c, i) offset fn s = Some s' ∧ removes g sb (cut (p ++ [i]) lo) s s'.
Proof.
  intros lo Hs Hc Hin Hfn. unfold trunc_indirect. fold lo. assert (Hlo : 0 ≤ lo) by (unfold lo; case_decide; lia). clearbody lo.
  pose proof (inner_valid _ _ Hin) as Hv. assert (Hne : p ++ [i] ≠ []) by (by destruct p).
  destruct (load_pointer_ok g sb p c i s Hs Hc Hv) as (bh & e & _ & _ & -> & He). cbn [mbind option_bind].
  destruct (decide (e ≠ 0)) as [Hne0|H0].
  2:{ rewrite decide_True in He by lia. exists s. split; [done|]. apply (removes_ext g sb (λ _, false)); [|by apply removes_none].
      intros q _. unfold cut. destruct (behind (p ++ [i]) q) as [r|] eqn:E; [|by left]. right.
      apply behind_Some in E as ->. by apply walk_None_app. }
  rewrite decide_False in He by done.
  destruct (trunc_loop_ok fn (p ++ [i]) e (S (Z.to_nat apb)) lo s false (Hfn e) Hin Hne Hs He Hlo) as (s1 & m1 & -> & H1); [lia|].
  cbn [mbind option_bind]. rewrite andb_true_r. case_bool_decide as Hz.
  - subst lo. set (s2 := mk_state _ _ _ _).
    assert (H2 : removes g sb (below (p ++ [i]) 0 apb) s s2) by (by apply removes_noted; try apply H1).
    assert (Hc2 : pl s2 p = Some c).
    { rewrite (rm_place _ _ _ _ _ H2) by (by apply valid_init with i). unfold below. destruct (behind (p ++ [i]) p) as [r|] eqn:E; [|done].
      apply behind_Some, (f_equal length) in E. rewrite !length_app in E. simpl in E. lia. }
    destruct (free_ptr_ok long g sb Hlong Hg Hapb p c i s2) as (s' & -> & H'); [apply H2|done|done| |].
    { intros j Hj. rewrite (rm_place _ _ _ _ _ H2) by done. unfold below. rewrite behind_app.
      apply valid_behind in Hj; [|done]. by rewrite bool_decide_true. }
    exists s'. split; [done|]. apply (removes_ext g sb (λ q, below (p ++ [i]) 0 apb q || bool_decide (q = p ++ [i]))).
    + intros q Hq. left. by rewrite below_cut.
    + by apply removes_trans with s2.
  - assert (H2 : removes g sb (cut (p ++ [i]) lo) s s1).
    { apply (removes_ext g sb (below (p ++ [i]) lo apb)); [|done]. intros q Hq. left.
      by rewrite below_cut, (bool_decide_false (lo = 0)), orb_false_r by done. }
    destruct m1; [|by exists s1]. pose proof (st_holds _ _ _ (rm_ok _ _ _ _ _ H1)) as Hh1.
    destruct (ho_taken _ _ _ _ _ (st_holds _ _ _ Hs) (p ++ [i]) e Hv Hne He) as [[_ Hd] _]. apply (data_block_range g Hg) in Hd.
    destruct (record_indir_poke_ok g Hg e (nd s1) (disk s1)) as (n & m & -> & Hm & Hdt & _ & Hcnt); [apply Hh1|lia|].
    cbn [mbind option_bind]. eexists. split; [done|].
    destruct (fs_ok_set_cache g (disk s1) (cache (disk s1)) m) as [Hf Hfree]; [apply Hh1|done|done|].
    by apply removes_noted.
Qed.
End indirect.

(** ** All levels *)
Section levels.
Context (long : Z) (g : geometry) (sb : settings).
Hypothesis Hlong : long = 32 ∨ long = 64.
Hypothesis Hg : geometry_ok g.

Abbreviation apb := (addr_per_block sb).

Hypothesis Hapb : 0 < apb ≤ 1024.

Abbreviation pl s := (place_of (nd s) (disk s)).

(** A place above the blocks of data by [k] indirect blocks. *)
Definition level (k : nat) (p : list Z) : Prop :=
  match p with [] => False | nr :: l => 0 ≤ nr < 15 ∧ (length l + k = depth nr)%nat ∧ Forall (index_ok apb) l end.

Lemma level_inner k p : level (S k) p → inner apb p.
Proof. destruct p as [|nr l]; [done|]. intros (? & ? & ?). split_and!; try done; lia. Qed.

Lemma level_valid k p : level k p → valid apb p.
Proof. destruct p as [|nr l]; [done|]. intros (? & ? & ?). split_and!; try done; lia. Qed.

Lemma level_snoc k p j : level (S k) p → 0 ≤ j < apb → level k (p ++ [j]).
Proof.
  destruct p as [|nr l]; [done|]. intros (? & ? & ?) Hj. simpl. rewrite length_app, Forall_app, Forall_singleton. simpl.
  split_and!; try done; lia.
Qed.

Lemma level_0 p x r : level 0 p → valid apb (p ++ x :: r) → False.
Proof. destruct p as [|nr l]; [done|]. intros (_ & ? & _) (_ & Hl & _). rewrite length_app in Hl. simpl in Hl. lia. Qed.

(** The first pointer of an indirect block for offset [offset] that is cleared. *)
Abbreviation lo last offset := (if decide (last < offset) then 0 else last - offset).

Lemma data_ok p b j s :
  state_ok g sb s → pl s p = Some b → level 0 (p ++ [j]) →
  ∃ s', free_block_run_free_ptr long g sb (b, j) s = Some s' ∧ removes g sb (subtree (p ++ [j])) s s'.
Proof.
  intros Hs Hb Hl. destruct (free_ptr_ok long g sb Hlong Hg (proj1 Hapb) p b j s Hs Hb (level_valid _ _ Hl)) as (s' & -> & H').
  { intros j' Hj'. by destruct (level_0 _ _ _ Hl Hj'). }
  exists s'. split; [done|]. apply (removes_ext g sb (λ q, bool_decide (q = p ++ [j]))); [|done]. intros q Hq. left.
  unfold subtree. destruct (behind (p ++ [j]) q) as [[|x r]|] eqn:E.
  - apply behind_Some in E as ->. apply bool_decide_true. by rewrite app_nil_r.
  - apply behind_Some in E as ->. by destruct (level_0 _ _ _ Hl Hq).
  - apply bool_decide_false. intros ->. by rewrite (proj2 (behind_Some _ _ []) (eq_sym (app_nil_r _))) in E.
Qed.

Lemma single_ok last p c i offset s :
  state_ok g sb s → pl s p = Some c → level 1 (p ++ [i]) →
  ∃ s', trunc_single_indirect long g sb last (c, i) offset s = Some s' ∧ removes g sb (cut (p ++ [i]) (lo last offset)) s s'.
Proof.
  intros Hs Hc Hl. apply trunc_indirect_ok; try done; [lia|by apply level_inner with 0%nat|].
  intros b j Hj s1 Hs1 Hb. apply data_ok; [done|done|]. apply level_snoc; [done|]. case_decide; lia.
Qed.

Lemma double_ok last p c i offset s :
  0 ≤ last → 0 ≤ offset → offset + apb * apb < 2 ^ 32 →
  state_ok g sb s → pl s p = Some c → level 2 (p ++ [i]) →
  ∃ s', trunc_double_indirect long g sb last (c, i) offset s = Some s' ∧ removes g sb (cut (p ++ [i]) (lo last offset)) s s'.
Proof.
  intros Hlast Ho Hbound Hs Hc Hl. apply trunc_indirect_ok; try done; [lia|by apply level_inner with 1%nat|].
  intros b j Hj s1 Hs1 Hb. assert (Hj' : 0 ≤ j < apb) by (case_decide; lia).
  pose proof (level_snoc _ _ j Hl Hj') as Hl'.
  rewrite u32_id by nia. destruct (single_ok last (p ++ [i]) b j (offset + j * apb) s1 Hs1 Hb Hl') as (s' & -> & H').
  exists s'. split; [done|]. assert (lo last (offset + j * apb) = 0) as E by (repeat case_decide; nia). rewrite E in H'.
  apply (removes_ext g sb (cut ((p ++ [i]) ++ [j]) 0)); [|done]. intros q Hq. left. apply cut_0 with sb; [by destruct p|done].
Qed.

Lemma triple_ok last p c i offset s :
  0 ≤ last → 0 ≤ offset → offset + apb * apb * apb < 2 ^ 32 →
  state_ok g sb s → pl s p = Some c → level 3 (p ++ [i]) →
  ∃ s', trunc_triple_indirect long g sb last (c, i) offset s = Some s' ∧ removes g sb (cut (p ++ [i]) (lo last offset)) s s'.
Proof.
  intros Hlast Ho Hbound Hs Hc Hl. apply trunc_indirect_ok; try done; [lia|by apply level_inner with 2%nat|].
  intros b j Hj s1 Hs1 Hb. assert (Hj' : 0 ≤ j < apb) by (case_decide; lia).
  pose proof (level_snoc _ _ j Hl Hj') as Hl'. assert (Hu : 0 ≤ j * apb * apb ∧ j * apb * apb + apb * apb ≤ apb * apb * apb) by nia.
  rewrite u32_id by lia.
  destruct (double_ok last (p ++ [i]) b j (offset + j * apb * apb) s1) as (s' & -> & H'); [done|lia|lia|done|done|done|].
  exists s'. split; [done|]. assert (j ≤ j * apb * apb) by nia.
  assert (lo last (offset + j * apb * apb) = 0) as E by (repeat case_decide; lia). rewrite E in H'.
  apply (removes_ext g sb (cut ((p ++ [i]) ++ [j]) 0)); [|done]. intros q Hq. left. apply cut_0 with sb; [by destruct p|done].
Qed.

(** ** The whole file *)
Definition cut_direct (last : Z) (q : list Z) : bool :=
  match q with [nr] => bool_decide (last ≤ nr < 12) | _ => false end.

Lemma trunc_direct_ok fuel last s :
  0 ≤ last → Z.max 0 (12 - last) < Z.of_nat fuel → state_ok g sb s →
  ∃ s', trunc_direct long g sb fuel last s = Some s' ∧ removes g sb (cut_direct last) s s'.
Proof.
  revert last s. induction fuel as [|fuel IH]; intros last s Hlast Hfuel Hs; [lia|]. cbn [trunc_direct].
  destruct (decide (last < 12)) as [Hlt|Hge].
  - destruct (data_ok [] 0 last s Hs eq_refl) as (s1 & -> & H1); [split_and!; unfold depth; simpl; try done; lia|].
    cbn [mbind option_bind]. destruct (IH (last + 1) s1) as (s' & -> & H'); [lia|lia|apply H1|].
    exists s'. split; [done|]. apply (removes_ext g sb (λ q, subtree [last] q || cut_direct (last + 1) q));
      [|by apply removes_trans with s1].
    intros q Hq. left. unfold subtree, cut_direct. destruct q as [|nr l]; [done|]. simpl.
    destruct (decide (last = nr)) as [<-|Hne]; simpl.
    + destruct l as [|x l]; [by rewrite bool_decide_true by lia|]. destruct Hq as (_ & Hl & _). unfold depth in Hl. simpl in Hl. lia.
    + destruct l; [|done]. apply bool_decide_ext. lia.
  - exists s. split; [done|]. apply (removes_ext g sb (λ _, false)); [|by apply removes_none]. intros [|nr [|x l]] _; [by left| |by left].
    left. unfold cut_direct. by rewrite bool_decide_false by lia.
Qed.
End levels.

Section whole.
Context (long : Z) (g : geometry) (sb : settings).
Hypothesis Hlong : long = 32 ∨ long = 64.
Hypothesis Hg : geometry_ok g.
Hypothesis Hsb : settings_ok sb.

Abbreviation apb := (addr_per_block sb).
Abbreviation pl s := (place_of (nd s) (disk s)).
Abbreviation lo last offset := (if decide (last < offset) then 0 else last - offset).

Lemma apb_bounds : 0 < apb ≤ 1024.
Proof.
  split; [by apply apb_pos|]. destruct (so_apb sb Hsb) as (k & Hk & ->). change 1024 with (2 ^ 10). apply Z.pow_le_mono_r; lia.
Qed.

Definition cut_all (last : Z) (q : list Z) : bool :=
  cut_direct last q || cut [12] (lo last 12) q || cut [13] (lo last (12 + apb)) q
  || cut [14] (lo last (12 + apb + apb * apb)) q.

Lemma finish_ok s :
  state_ok g sb s →
  ∃ s', free_block_run_finish g sb s = Some s' ∧ i_prealloc_count (nd s') = 0
    ∧ holds g apb (nd s') (disk s') (λ _, False) ∧ (∀ q, valid apb q → pl s' q = pl s q)
    ∧ (∀ b, is_free g (disk s') b = true ↔ gone g s b)
    ∧ others_kept g apb (nd s) (disk s) (in_run (fbr s)) (nd s') (disk s') (λ _, False).
Proof.
  intros [Hh Hrun Hres]. unfold free_block_run_finish. case_decide as Hc.
  - destruct (flush_ok long g sb Hlong Hg (num_blocks (fbr s)) (λ _, False) s) as (s' & -> & _ & Hc' & Hfree & Hbo & Hh' & Hp'); [|done|done|].
    { apply (holds_iff g sb _ _ (in_run (fbr s))); [|done]. intros b. unfold in_run. tauto. }
    exists s'. split_and!; [done|congruence|done|done| |].
    + intros b. by rewrite Hfree, orb_true_iff, bool_decide_eq_true.
    + intros b Hb Ho. split_and!; [| |apply Hbo, Hb].
      * destruct Hb as [Hu Hd]. split; [|apply data_block_layout with (disk s); [apply Hbo|done]].
        rewrite Hfree, Hu, bool_decide_false; [done|]. intros Hin. apply Ho. by left.
      * intros [?|(q & Hq & Hne & Hx)]; [done|]. apply Ho. right. exists q. by rewrite <-Hp'.
  - assert (Hno : ∀ b, ¬ in_run (fbr s) b) by (intros b; unfold in_run; lia).
    exists s. split_and!; [done|done| |done| |].
    + apply (holds_iff g sb _ _ (in_run (fbr s))); [|done]. intros b. split; [apply Hno|done].
    + intros b. unfold gone. split; [by left|by intros [?|?%Hno]].
    + intros b Hb Ho. split_and!; [done| |done]. intros [?|?]; [done|]. apply Ho. by right.
Qed.

Lemma free_from_ok last n f :
  0 ≤ last → holds g apb n f (λ _, False) → i_prealloc_count n = 0 →
  ∃ s, free_from long g sb last n f = Some s ∧ i_prealloc_count (nd s) = 0 ∧ holds g apb (nd s) (disk s) (λ _, False)
    ∧ (∀ q, valid apb q → pl s q = if cut_all last q then None else place_of n f q)
    ∧ (∀ b, is_free g (disk s) b = true ↔ is_free g f b = true
        ∨ ∃ q, valid apb q ∧ q ≠ [] ∧ cut_all last q = true ∧ place_of n f q = Some b)
    ∧ others_kept g apb n f (λ _, False) (nd s) (disk s) (λ _, False).
Proof.
  intros Hlast Hh Hres. pose proof apb_bounds as Ha. unfold free_from. set (s0 := mk_state n f (mk_run 0 0) []).
  assert (Hno : ∀ b, ¬ in_run (fbr s0) b) by (intros b; unfold in_run; simpl; lia).
  assert (Hs0 : state_ok g sb s0).
  { split; [|done|done]. apply (holds_iff g sb _ _ (λ _, False)); [|done]. intros b. split; [done|apply Hno]. }
  destruct (trunc_direct_ok long g sb Hlong Hg Ha 13 last s0) as (s1 & -> & H1); [lia|lia|done|]. cbn [mbind option_bind].
  destruct (single_ok long g sb Hlong Hg Ha last [] 0 12 12 s1) as (s2 & -> & H2); [apply H1|done|done|]. cbn [mbind option_bind].
  rewrite (u32_id (12 + apb)) by lia.
  destruct (double_ok long g sb Hlong Hg Ha last [] 0 13 (12 + apb) s2) as (s3 & -> & H3); [lia|lia|nia|apply H2|done|done|].
  cbn [mbind option_bind]. rewrite (u32_id (12 + apb + apb * apb)) by nia.
  assert (apb * apb * apb ≤ 1024 * 1024 * 1024) by (repeat apply Z.mul_le_mono_nonneg; nia).
  destruct (triple_ok long g sb Hlong Hg Ha last [] 0 14 (12 + apb + apb * apb) s3) as (s4 & -> & H4);
    [lia|nia|nia|apply H3|done|done|]. cbn [mbind option_bind].
  pose proof (removes_trans g sb _ _ _ _ _ (removes_trans g sb _ _ _ _ _ (removes_trans g sb _ _ _ _ _ H1 H2) H3) H4) as Hall.
  change (removes g sb (cut_all last) s0 s4) in Hall. clear H1 H2 H3 H4. destruct Hall as [Hs4 Hp4 Hgone4 Hoth4].
  destruct (finish_ok s4 Hs4) as (s & -> & Hc & Hh' & Hp & Hfree & Hoth). exists s. split_and!; [done|done|done| | |].
  - intros q Hq. by rewrite Hp, Hp4.
  - intros b. rewrite Hfree, Hgone4. assert (gone g s0 b ↔ is_free g f b = true) as ->; [|done].
    unfold gone. split; [by intros [?|?%Hno]|by left].
  - apply (others_kept_trans g apb _ _ _ (nd s4) (disk s4) (in_run (fbr s4))); [|done].
    intros b Hb Ho. apply Hoth4; [done|]. intros [?%Hno|?]; [done|]. apply Ho. by right.
Qed.

(** The blocks of a file that are left behind a truncation to [last] blocks. *)
Definition survives (last x : Z) : bool :=
  if decide (x < 12 + apb) then bool_decide (x < last)
  else if decide (x < 12 + apb + apb * apb) then bool_decide ((x - (12 + apb)) / apb < last - (12 + apb))
  else bool_decide ((x - (12 + apb + apb * apb)) / (apb * apb) < last - (12 + apb + apb * apb)).

Lemma negb_bool_decide (P Q : Prop) `{Decision P, Decision Q} : (¬ P ↔ Q) → negb (bool_decide P) = bool_decide Q.
Proof. intros HPQ. do 2 case_bool_decide; simpl; tauto. Qed.

Lemma cut_all_path last x : 0 ≤ last → 0 ≤ x < limit apb → negb (cut_all last (path_of apb x)) = survives last x.
Proof.
  intros Hlast Hx. pose proof apb_bounds as Ha. unfold limit in Hx. unfold cut_all, path_of, survives.
  assert (Hlo : ∀ o j, 0 ≤ j → (lo last o ≤ j ↔ last - o ≤ j)) by (intros; case_decide; lia).
  destruct (decide (x < 12)).
  { rewrite (decide_True (P := x < 12 + apb)) by lia. unfold cut, cut_direct. simpl.
    rewrite (decide_False (P := 12 = x)), (decide_False (P := 13 = x)), (decide_False (P := 14 = x)), !orb_false_r by lia. apply negb_bool_decide. lia. }
  destruct (decide (x - 12 < apb)).
  { rewrite (decide_True (P := x < 12 + apb)) by lia. unfold cut, cut_direct. simpl. rewrite !orb_false_r. apply negb_bool_decide.
    rewrite Hlo by lia. lia. }
  rewrite (decide_False (P := x < 12 + apb)) by lia. destruct (decide (x - 12 - apb < apb * apb)).
  - rewrite (decide_True (P := x < 12 + apb + apb * apb)) by lia. unfold cut, cut_direct. simpl. rewrite !orb_false_r. apply negb_bool_decide.
    replace (x - 12 - apb) with (x - (12 + apb)) by lia. pose proof (Z.div_pos (x - (12 + apb)) apb). rewrite Hlo by lia. lia.
  - rewrite (decide_False (P := x < 12 + apb + apb * apb)) by lia. unfold cut, cut_direct. simpl. apply negb_bool_decide.
    replace (x - 12 - apb - apb * apb) with (x - (12 + apb + apb * apb)) by lia.
    pose proof (Z.div_pos (x - (12 + apb + apb * apb)) (apb * apb)). rewrite Hlo by (apply Z.div_pos; nia). lia.
Qed.

(** What is before the end is left, and nothing else if the end is before the
    double indirect block. *)
Lemma survives_before last x : 0 ≤ x → x < last → survives last x = true.
Proof.
  intros Hx Hlt. pose proof apb_bounds as Ha. unfold survives.
  destruct (decide (x < 12 + apb)); [by apply bool_decide_eq_true|].
  destruct (decide (x < _)); apply bool_decide_eq_true; apply Z.div_lt_upper_bound; nia.
Qed.

Lemma survives_behind last x : 0 ≤ last ≤ 12 + apb → last ≤ x → survives last x = false.
Proof.
  intros Hl Hx. pose proof apb_bounds as Ha. unfold survives.
  destruct (decide (x < 12 + apb)); [apply bool_decide_eq_false; lia|].
  destruct (decide (x < _)); apply bool_decide_eq_false.
  - pose proof (Z.div_pos (x - (12 + apb)) apb). lia.
  - pose proof (Z.div_pos (x - (12 + apb + apb * apb)) (apb * apb)). nia.
Qed.
End whole.

Lemma discard_holds g sb n f f1 :
  geometry_ok g → node_ok g sb n f → fs_ok g f1 → bitmaps_only f f1 → (∀ b, is_free g f1 b = true ↔ avail g n f b) →
  let n1 := set_prealloc (i_prealloc_block n) 0 n in
  holds g (addr_per_block sb) n1 f1 (λ _, False) ∧ (∀ q, valid (addr_per_block sb) q → place_of n1 f1 q = place_of n f q)
  ∧ others_kept g (addr_per_block sb) n f (reserved n) n1 f1 (λ _, False).
Proof.
  intros Hg Hno Hf1 Hbo Hfree n1. pose proof (no_holds _ _ _ _ Hno) as Hh.
  assert (Hkeep : ∀ b, taken g f b → ¬ reserved n b → taken g f1 b).
  { intros b [Hu Hd] Hr. split; [|apply data_block_layout with f; [apply Hbo|done]].
    destruct (is_free g f1 b) eqn:E; [|done]. apply Hfree in E as [?|?]; [congruence|done]. }
  destruct (holds_frame g (addr_per_block sb) Hg n f (reserved n) n1 f1 (λ _, False)) as [Hh1 Hp1]; try done; [apply Hbo| | |].
  - apply bitmaps_taken_layout with f; [apply Hbo|apply Hh|]. intros i gdp Hi Hu.
    destruct (is_free g f1 (bg_block_bitmap gdp)) eqn:E; [|done]. apply Hfree, (avail_data g sb Hg n f _ Hno) in E.
    by destruct (db_bitmap _ _ _ E i gdp Hi).
  - intros p b Hv Hne Hb. destruct (ho_taken _ _ _ _ _ Hh p b Hv Hne Hb) as [Ht Hr]. destruct (Hkeep b Ht Hr) as [Hu _].
    split_and!; [done|apply Hbo, Ht|tauto].
  - split_and!; [done|done|]. intros b Hb Ho. split_and!; [apply Hkeep; [done|intros ?; apply Ho; by left]| |apply Hbo, Hb].
    intros [?|(q & Hq & Hne & Hx)]; [done|]. apply Ho. right. exists q. by rewrite <-Hp1.
Qed.

(** C5. Truncation to [last] blocks.  The blocks of the file before the end stay
    where they are, and if the end is not behind the pointers of the first
    indirect block, all others are gone.  Exactly the blocks that are taken out of
    the file, indirect ones included, and the reserved ones become free; the file
    is consistent again, and blocks of others are not touched.  With an end that
    lies deeper, below the double or triple indirect block, blocks behind it can be left
    in the file, against what is said of [trunc_indirect]: see
    [truncate_leaves_blocks]. *)
Theorem truncate_blocks_correct long g sb length n f :
  let apb := addr_per_block sb in let last := (length + 4 * apb - 1) / (4 * apb) in
  long = 32 ∨ long = 64 → geometry_ok g → settings_ok sb → node_ok g sb n f → 0 ≤ length → last < 2 ^ 32 →
  ∃ s, truncate_blocks long g sb length n f = Some s ∧ node_ok g sb (nd s) (disk s) ∧ i_prealloc_count (nd s) = 0
    ∧ (∀ x, 0 ≤ x < limit apb → x < last → file_block apb (nd s) (disk s) x = file_block apb n f x)
    ∧ (∀ x, 0 ≤ x < limit apb → last ≤ x → last ≤ 12 + apb → file_block apb (nd s) (disk s) x = None)
    ∧ (∀ b, is_free g (disk s) b = true ↔ avail g n f b
        ∨ ∃ p, valid apb p ∧ place_of n f p = Some b ∧ place_of (nd s) (disk s) p = None)
    ∧ others_kept g apb n f (reserved n) (nd s) (disk s) (reserved (nd s)).
Proof.
  intros apb last Hlong Hg Hsb Hno Hlen Hlast. pose proof (apb_bounds sb Hsb) as Ha. fold apb in Ha.
  assert (H0 : 0 ≤ last) by (apply Z.div_pos; lia). unfold truncate_blocks. fold apb.
  destruct (discard_ok g Hg n f) as (f1 & -> & Hf1 & Hbo & Hfree1);
    [apply Hno|apply (no_count _ _ _ _ Hno)|apply (ho_held _ _ _ _ _ (no_holds _ _ _ _ Hno))|].
  cbn [mbind option_bind]. rewrite u32_id by (fold last; lia). fold last.
  destruct (discard_holds g sb n f f1 Hg Hno Hf1 Hbo Hfree1) as (Hh1 & Hp1 & Hoth1).
  set (n1 := set_prealloc _ 0 n) in *. set (n2 := set_logs _ _ _ n1).
  assert (Hh2 : holds g apb n2 f1 (λ _, False)) by (by destruct Hh1).
  destruct (free_from_ok long g sb Hlong Hg Hsb last n2 f1 H0 Hh2 eq_refl) as (s & -> & Hc & Hh & Hp & Hfree & Hoth).
  change (place_of n2 f1) with (place_of n1 f1) in Hp, Hfree.
  assert (Hno' : ∀ b, reserved (nd s) b ↔ False) by (intros b; unfold reserved; rewrite Hc; lia).
  assert (Hx : ∀ x, 0 ≤ x < limit apb → file_block apb (nd s) (disk s) x = if survives sb last x then file_block apb n f x else None).
  { intros x Hx. pose proof (path_of_valid apb x (proj1 Ha) Hx) as Hv. unfold file_block. rewrite Hp, Hp1 by done.
    rewrite <-(cut_all_path long sb Hlong Hsb last x) by done. fold apb. by destruct (cut_all sb last (path_of apb x)). }
  exists s. split_and!; [done| |done| | | |].
  - split; [|rewrite Hc; lia]. apply (holds_iff g sb _ _ (λ _, False)); [|done]. intros b. by rewrite Hno'.
  - intros x Hr Hlt. by rewrite Hx, (survives_before sb Hsb) by (done || lia).
  - intros x Hr Hge Hle. by rewrite Hx, (survives_behind sb Hsb) by (done || lia).
  - intros b. rewrite Hfree, Hfree1. split; (intros [?|(q & Hq & Hr)]; [by left|right; exists q]).
    + destruct Hr as (_ & Hcut & Hb). rewrite Hp1 in Hb by done. by rewrite Hp, Hcut.
    + destruct Hr as (Hb & Hn). rewrite Hp, Hp1 in Hn by done. destruct (cut_all sb last q) eqn:E; [|congruence].
      rewrite Hp1 by done. split_and!; try done. by intros ->.
  - apply (others_kept_trans g apb _ _ _ _ _ _ _ _ _ Hoth1). intros b Hb Ho. destruct (Hoth b Hb Ho) as (? & Ho' & ?).
    split_and!; try done. intros [?%Hno'|?]; [done|]. apply Ho'. by right.
Qed.

(** ** Examples *)

(** The file with the given blocks, all obtained from [ext2_getblk]. *)
Definition file_with (blocks : list Z) : option (node * fs) :=
  foldr (λ b r, '(n, f) ← r; '(_, n', f') ← ext2_getblk 64 1 two_groups two_pointers b true n f; Some (n', f'))
    (Some (empty_file, small_fs)) blocks.

Lemma file_with_ok blocks n f :
  Forall (λ b, 0 ≤ b < limit 2) blocks → file_with blocks = Some (n, f) → node_ok two_groups two_pointers n f.
Proof.
  intros Hb. revert n f. induction Hb as [|b blocks Hb _ IH]; intros n f He; simpl in He.
  { injection He as <- <-. exact (empty_node_ok two_pointers). }
  fold (file_with blocks) in He. destruct (file_with blocks) as [[n0 f0]|]; [|done]. simpl in He.
  destruct (getblk_reached 64 0 two_groups two_pointers (or_intror eq_refl) two_groups_ok two_pointers_ok b true n0 f0
    (IH _ _ eq_refl) Hb) as (n1 & res & n' & f' & Hg & _ & _ & [Hno _ _ _ _ _ _ _]).
  rewrite Hg in He. simpl in He. by injection He as <- <-.
Qed.

Lemma three_blocks :
  ∃ n f, file_with [2; 12; 13] = Some (n, f) ∧ is_Some (file_block 2 n f 12) ∧ is_Some (file_block 2 n f 13).
Proof.
  assert (((λ '(n, f), bool_decide (is_Some (file_block 2 n f 12)) && bool_decide (is_Some (file_block 2 n f 13)))
    <$> file_with [2; 12; 13]) = Some true) as H by (vm_compute; reflexivity).
  destruct (file_with [2; 12; 13]) as [[n f]|]; [|done]. exists n, f. split; [done|].
  injection H as H. apply andb_prop in H as [H1 H2]. by rewrite bool_decide_eq_true in H1, H2.
Qed.

Lemma truncate_blocks_correct_witness :
  ∃ n f s, file_with [2; 12; 13] = Some (n, f) ∧ is_Some (file_block 2 n f 12) ∧ is_Some (file_block 2 n f 13)
    ∧ truncate_blocks 64 two_groups two_pointers (13 * 8) n f = Some s
    ∧ node_ok two_groups two_pointers (nd s) (disk s)
    ∧ file_block 2 (nd s) (disk s) 12 = file_block 2 n f 12 ∧ file_block 2 (nd s) (disk s) 13 = None.
Proof.
  destruct three_blocks as (n & f & E & H12 & H13).
  assert (Hno : node_ok two_groups two_pointers n f).
  { apply (file_with_ok [2; 12; 13]); [repeat constructor; vm_compute; congruence|exact E]. }
  destruct (truncate_blocks_correct 64 two_groups two_pointers (13 * 8) n f)
    as (s & He & Hok & _ & Hbefore & Hbehind & _);
    [by right|exact two_groups_ok|exact two_pointers_ok|exact Hno|lia|reflexivity|].
  exists n, f, s. split; [exact E|]. split; [exact H12|]. split; [exact H13|]. split; [exact He|].
  split; [exact Hok|]. split; [apply Hbefore|apply Hbehind]; vm_compute; repeat split; congruence.
Defined.

(** A file with four blocks below the double indirect block, numbers 14 to 17. *)
Definition long_file : node :=
  mk_node (replicate 13 0 ++ [40; 0]) 0 1 0 0 0 0 Regular 14 false [] [] [].

Definition long_fs : fs :=
  set_cache (<[40 := [41; 42]]> (<[41 := [43; 44]]> (<[42 := [45; 46]]> (cache small_fs)))) None small_fs.

Definition blocks_left (length : Z) : option (list (option Z)) :=
  (λ s, file_block 2 (nd s) (disk s) <$> [14; 15; 16; 17]) <$>
    truncate_blocks 64 two_groups two_pointers length long_file long_fs.

(** With the end at block 14 all are freed.  With the end at block 15 one block
    behind it is left, and with the end at block 16 none is freed. *)
Example truncate_leaves_blocks :
  blocks_left (14 * 8) = Some [None; None; None; None]
  ∧ blocks_left (15 * 8) = Some [Some 43; Some 44; None; None]
  ∧ blocks_left (16 * 8) = Some [Some 43; Some 44; Some 45; Some 46].
Proof. by vm_compute. Qed.
