(* ===== verification/Ext2Grow.v ===== *)
(** * ext2: growth of files (src/ext2fs/pager.c)

    [diskfs_grow] moves the end of the space of a file.  If the last page has been
    made writable it allocates the blocks of that page, through [ext2_getblk] of
    [Getblk.v], and stops there, so that its callers have to call it again.  The
    theorem of this file is that two calls are enough; [Ext2Dir.v] grows
    directories with it.

    The lock is left out, and so are errors of the disk that [diskfs_catch_exception]
    catches. *)

From S2P Require Import Prelude Bitmap Balloc Blockmap Getblk.

(** What belongs to a file besides its contents, and the disk. *)
Record space := mk_space {
  sp_node : node;
  sp_disk : fs;
  sp_allocsize : Z;
  last_page_partially_writable : bool
}.

(** The file system and the machine. *)
Record volume := mk_volume {
  v_long : Z;
  v_tries : nat;
  v_geometry : geometry;
  v_settings : settings;
  v_log2_block_size : Z;
  v_page_size : Z;
  v_readonly : bool
}.

Section grow.
Context (v : volume).

Abbreviation log2_block_size := (v_log2_block_size v).

Definition block_size : Z := Z.shiftl 1 log2_block_size.

Definition round_block (offs : Z) : Z :=
  Z.shiftl (Z.shiftr (offs + block_size - 1) log2_block_size) log2_block_size.

Definition round_page (offs : Z) : Z :=
  Z.land ((offs + v_page_size v - 1) mod 2 ^ v_long v) (Z.lnot (v_page_size v - 1)).

(** Blocks are made until the last page is complete; [end_block] is counted up before
    the error is looked at. *)
Fixpoint extend_loop (fuel : nat) (end_block writable_end : Z) (n : node) (f : fs)
    : option (option errno * Z * node * fs) :=
  if decide (end_block < writable_end) then
    match fuel with
    | O => None
    | S fuel' =>
        '(r, n, f) ← ext2_getblk (v_long v) (v_tries v) (v_geometry v) (v_settings v) end_block true n f;
        match r with
        | inl e => Some (Some e, end_block + 1, n, f)
        | inr _ => extend_loop fuel' (end_block + 1) writable_end n f
        end
    end
  else Some (None, end_block, n, f).

(** A block number has 32 bits, and keeps them when it is shifted. *)
Definition diskfs_grow (size : Z) (s : space) : option (option errno * space) :=
  if v_readonly v then None
  else if decide (sp_allocsize s < size) then
    let old_size := sp_allocsize s in
    let new_size := round_block size in
    let end_block := u32 (Z.shiftr old_size log2_block_size) in
    let new_end_block := u32 (Z.shiftr new_size log2_block_size) in
    let old_page_end_block := u32 (Z.shiftr (round_page old_size) log2_block_size) in
    if decide (end_block < new_end_block ∧ last_page_partially_writable s = true ∧ end_block < old_page_end_block) then
      let writable_end := if decide (new_end_block < old_page_end_block) then new_end_block else old_page_end_block in
      '(err, end_block, n, f) ←
        extend_loop (Z.to_nat (writable_end - end_block)) end_block writable_end (sp_node s) (sp_disk s);
      match err with
      | None => Some (None, mk_space n f (u32 (Z.shiftl end_block log2_block_size)) true)
      | Some e => Some (Some e, mk_space n f new_size (bool_decide (end_block < old_page_end_block)))
      end
    else Some (None, mk_space (sp_node s) (sp_disk s) new_size (last_page_partially_writable s))
  else Some (None, s).

(** ** Two calls are enough *)
Record volume_ok : Prop := {
  vo_long : v_long v = 32 ∨ v_long v = 64;
  vo_tries : (0 < v_tries v)%nat;
  vo_geometry : geometry_ok (v_geometry v);
  vo_settings : settings_ok (v_settings v);
  vo_block : 0 ≤ log2_block_size;
  vo_page : ∃ p, log2_block_size ≤ p < 32 ∧ v_page_size v = 2 ^ p;
  vo_readonly : v_readonly v = false
}.

Hypothesis Hv : volume_ok.

Abbreviation apb := (addr_per_block (v_settings v)).

Definition space_ok (s : space) : Prop :=
  node_ok (v_geometry v) (v_settings v) (sp_node s) (sp_disk s) ∧ 0 ≤ sp_allocsize s.

(** A size that the file system can hold, and that fits in 32 bits with a page more. *)
Definition grow_size_ok (size : Z) : Prop :=
  round_block size + v_page_size v ≤ 2 ^ 32 ∧ round_block size ≤ limit apb * 2 ^ log2_block_size.

Lemma extend_loop_ok fuel e w n f :
  node_ok (v_geometry v) (v_settings v) n f → 0 ≤ e → w ≤ limit apb → w - e ≤ Z.of_nat fuel →
  ∃ err e' n' f', extend_loop fuel e w n f = Some (err, e', n', f')
    ∧ node_ok (v_geometry v) (v_settings v) n' f'
    ∧ match err with Some err => err = ENOSPC | None => e' = Z.max e w end.
Proof.
  destruct Hv as [Hlong Ht Hg Hs _ _ _]. destruct (v_tries v) as [|tries] eqn:Htr; [lia|].
  revert e n f. induction fuel as [|fuel IH]; intros e n f Hn He Hw Hf; cbn [extend_loop].
  { rewrite decide_False by lia. do 4 eexists. split; [done|]. split; [done|lia]. }
  case_decide as Hlt; [|do 4 eexists; split; [done|]; split; [done|lia]]. rewrite Htr.
  destruct (getblk_reached (v_long v) tries _ _ Hlong Hg Hs e true n f Hn) as (n1 & res & n' & f' & -> & _ & _ & Hr); [lia|].
  cbn [mbind option_bind]. destruct Hr as [Hok _ _ _ _ _ _ Hres]. destruct res as [err|b].
  - do 4 eexists. split; [done|]. split; [done|]. destruct Hres as [_ [[_ ?]|[-> _]]]; done.
  - destruct (IH (e + 1) n' f') as (err & e' & n2 & f2 & -> & Hok2 & Hres2); [done|lia|done|lia|].
    do 4 eexists. split; [done|]. split; [done|]. destruct err; [done|lia].
Qed.

Lemma block_size_pow : block_size = 2 ^ log2_block_size.
Proof. unfold block_size. apply Z.shiftl_1_l. Qed.

Lemma round_block_eq offs :
  round_block offs = (offs + 2 ^ log2_block_size - 1) / 2 ^ log2_block_size * 2 ^ log2_block_size.
Proof.
  unfold round_block. rewrite block_size_pow.
  by rewrite Z.shiftl_mul_pow2, Z.shiftr_div_pow2 by apply (vo_block Hv).
Qed.

Lemma round_block_le offs : offs ≤ round_block offs.
Proof.
  rewrite round_block_eq. pose proof (Z.pow_pos_nonneg 2 log2_block_size ltac:(lia) (vo_block Hv)) as Hp.
  generalize dependent (2 ^ log2_block_size). intros b Hb. Z.div_mod_to_equations. nia.
Qed.

Lemma round_page_eq p offs :
  v_page_size v = 2 ^ p → 0 ≤ p → 0 ≤ offs → offs + 2 ^ p ≤ 2 ^ 32 →
  round_page offs = (offs + 2 ^ p - 1) / 2 ^ p * 2 ^ p.
Proof.
  intros Hp Hp0 H0 Hb. unfold round_page. rewrite Hp. pose proof (Z.pow_pos_nonneg 2 p ltac:(lia) Hp0).
  assert (2 ^ 32 ≤ 2 ^ v_long v) by (apply Z.pow_le_mono_r; [lia|]; destruct (vo_long Hv); lia).
  rewrite Z.mod_small by lia.
  replace (2 ^ p - 1) with (Z.ones p) by (rewrite Z.ones_equiv; lia). rewrite <-Z.ldiff_land, Z.ldiff_ones_r by done.
  by rewrite Z.shiftl_mul_pow2, Z.shiftr_div_pow2.
Qed.

(** From the end of a page on a file grows at once. *)
Lemma grow_aligned size s :
  round_page (sp_allocsize s) = sp_allocsize s → sp_allocsize s < size →
  diskfs_grow size s = Some (None, mk_space (sp_node s) (sp_disk s) (round_block size) (last_page_partially_writable s)).
Proof.
  intros Hr Hlt. unfold diskfs_grow. rewrite (vo_readonly Hv), decide_True, Hr by done. by rewrite decide_False by lia.
Qed.

(** Numbers of blocks and pages. *)
Lemma shift_blocks k offs : 0 ≤ k → Z.shiftr offs k = offs / 2 ^ k ∧ Z.shiftl offs k = offs * 2 ^ k.
Proof. intros. by rewrite Z.shiftr_div_pow2, Z.shiftl_mul_pow2. Qed.

(** The end of the page that [old] is in, as a number of blocks of [b] bytes. *)
Lemma page_blocks b c old :
  0 < b → 0 < c → 0 ≤ old →
  let page := b * c in let top := (old + page - 1) / page * page in
  top / b * b = top ∧ old ≤ top ∧ (top + page - 1) / page * page = top.
Proof.
  intros Hb Hc H0 page top. assert (Hp : 0 < page) by nia. split_and!.
  - unfold top. set (k := (old + page - 1) / page). replace (k * page) with (k * c * b) by (unfold page; ring).
    by rewrite Z.div_mul by lia.
  - unfold top. clearbody page. Z.div_mod_to_equations. nia.
  - unfold top. set (k := (old + page - 1) / page). f_equal.
    replace (k * page + page - 1) with (page - 1 + k * page) by lia. rewrite Z.div_add by lia.
    by rewrite Z.div_small by lia.
Qed.

(** One call: an error if the disk is full, and otherwise the file is large enough or
    ends with a page. *)
Lemma diskfs_grow_ok size s :
  space_ok s → grow_size_ok size → sp_allocsize s < size →
  ∃ err s', diskfs_grow size s = Some (err, s') ∧ space_ok s'
    ∧ match err with
      | Some e => e = ENOSPC
      | None => size ≤ sp_allocsize s' ∨ round_page (sp_allocsize s') = sp_allocsize s'
      end.
Proof.
  intros [Hn H0] [Hpage Hlim] Hlt. unfold diskfs_grow. rewrite (vo_readonly Hv), decide_True by done. cbv zeta.
  destruct (vo_page Hv) as (p & Hp & Hps). pose proof (vo_block Hv) as Hk. set (k := log2_block_size) in *.
  pose proof (round_block_le size) as Hle. rewrite Hps in Hpage.
  assert (Hpow : 2 ^ p = 2 ^ k * 2 ^ (p - k)) by (rewrite <-Z.pow_add_r by lia; f_equal; lia).
  pose proof (Z.pow_pos_nonneg 2 k ltac:(lia) Hk) as Hb. pose proof (Z.pow_pos_nonneg 2 (p - k) ltac:(lia) ltac:(lia)) as Hc.
  destruct (page_blocks (2 ^ k) (2 ^ (p - k)) (sp_allocsize s) Hb Hc H0) as (Hdiv & Hge & Hidem).
  rewrite <-Hpow in Hdiv, Hge, Hidem.
  rewrite (round_page_eq p (sp_allocsize s)) by lia. set (top := _ / 2 ^ p * 2 ^ p) in *.
  assert (Htop : top < sp_allocsize s + 2 ^ p) by (unfold top; Z.div_mod_to_equations; nia).
  rewrite !(proj1 (shift_blocks k _ Hk)). set (e := sp_allocsize s / 2 ^ k). set (t := top / 2 ^ k) in *.
  assert (Hround : round_block size = round_block size / 2 ^ k * 2 ^ k).
  { rewrite round_block_eq at 2. rewrite Z.div_mul by lia. by rewrite round_block_eq. }
  set (w := round_block size / 2 ^ k) in *.
  assert (He : 0 ≤ e) by (apply Z.div_pos; lia). assert (Hew : e ≤ w) by (apply Z.div_le_mono; lia).
  assert (w ≤ limit apb ∧ w < 2 ^ 32 ∧ t < 2 ^ 32 ∧ 0 ≤ t) as (Hwl & Hw32 & Ht32 & Ht0) by nia.
  rewrite !u32_id by lia. case_decide as Hcase.
  - destruct Hcase as (Hew' & Hlast & Het). set (we := if decide (w < t) then w else t).
    assert (Hwe : e < we ≤ w ∧ we ≤ t) by (unfold we; case_decide; lia).
    destruct (extend_loop_ok (Z.to_nat (we - e)) e we (sp_node s) (sp_disk s)) as (err & e' & n' & f' & -> & Hok & Hres);
      [done|lia|lia|lia|].
    cbn [mbind option_bind]. destruct err as [err|]; (do 2 eexists; split; [done|]).
    + split; [split; [done|simpl; lia]|done].
    + rewrite (proj2 (shift_blocks k _ Hk)), u32_id by nia. split; [split; [done|simpl; nia]|].
      simpl. replace e' with we by lia. unfold we. case_decide; [left; lia|right].
      rewrite Hdiv. assert (top ≤ round_block size) by nia. rewrite (round_page_eq p) by lia. exact Hidem.
  - do 2 eexists. split; [done|]. split; [split; [done|simpl; lia]|]. simpl. by left.
Qed.

(** Growth as its callers do it: once more if it was not enough. *)
Theorem diskfs_grow_twice size s :
  space_ok s → grow_size_ok size → sp_allocsize s < size →
  ∃ err s', diskfs_grow size s = Some (err, s') ∧ space_ok s'
    ∧ match err with
      | Some e => e = ENOSPC
      | None => sp_allocsize s' < size →
          ∃ s'', diskfs_grow size s' = Some (None, s'') ∧ space_ok s'' ∧ size ≤ sp_allocsize s''
      end.
Proof.
  intros Hs Hsz Hlt. destruct (diskfs_grow_ok size s Hs Hsz Hlt) as (err & s' & He & Hs' & Hres).
  exists err, s'. split_and!; [done..|]. destruct err; [done|]. intros Hlt'. destruct Hres as [?|Hr]; [lia|].
  eexists. split; [by apply grow_aligned|]. pose proof (round_block_le size).
  split; [split; [apply Hs'|simpl; destruct Hs; lia]|done].
Qed.
End grow.

(** ** Examples *)

(** Blocks of 1024 bytes, pages of 4096. *)
Definition some_volume : volume := mk_volume 64 1 two_groups (mk_settings 256 2 0 false 1 false) 10 4096 false.

(** The space of a file after growth to [size] from one block of a writable page. *)
Definition grown (size : Z) (f : fs) : option (option errno * Z) :=
  (λ '(err, s), (err, sp_allocsize s)) <$> diskfs_grow some_volume size (mk_space empty_file f 1024 true).

(** Growth stops at the end of the page, without an error. *)
Example grow_stops_at_page : grown 8192 small_fs = Some (None, 4096).
Proof. by vm_compute. Qed.

(** The disk without free blocks. *)
Definition no_blocks : fs :=
  mk_fs 0 [mk_gdp 3 4 5 0 6 0; mk_gdp 33 34 35 0 8 0]
    (<[3 := [0xffffffff]]> (<[33 := [0xffffffff]]> (cache small_fs))) None [] [].

(** When the disk is full, the space of the file is what was asked for all the same. *)
Example grow_error_size : grown 8192 no_blocks = Some (Some ENOSPC, 8192).
Proof. by vm_compute. Qed.

(** A block number is shifted in 32 bits: from 4 GiB on the space gets smaller. *)
Example grow_truncated :
  (λ '(err, s), (err, sp_allocsize s)) <$>
    diskfs_grow some_volume (2 ^ 32 + 2048) (mk_space empty_file small_fs (2 ^ 32 + 1024) true) = Some (None, 2048).
Proof. by vm_compute. Qed.
