(* ===== verification/Ext2Dir.v ===== *)
(** * ext2: directories (src/ext2fs/dir.c)

    A directory is a file of blocks, each filled with entries that have a length,
    an inode number, 0 if the entry is not in use, and a name.  Looking a name up
    also finds the place where an entry can be made, changed or removed, which
    other functions then do.  The theorems of [Ext2DirMap.v] are that a directory
    is a finite map from names to inodes under these operations.

    The contents are a list of bytes; offsets are from the start of the directory.
    [None] is a failed assertion or an access outside of the file.  Rendered are
    the search, entering, removing, rewriting, the test for emptiness and the
    listing of entries; what [diskfs_lookup_hard] does with nodes and locks once
    it has an inode number, and errors of the mapping, are left out. *)

From S2P Require Import Prelude Slice Ext2Grow.

Abbreviation EXT2_NAME_LEN := 255 (only parsing).

Definition EXT2_DIR_REC_LEN (name_len : Z) : Z := Z.land (name_len + 8 + 3) (Z.lnot 3).

Inductive lookup_type := LOOKUP | CREATE | RENAME | REMOVE.

Inductive slot_status := LOOKING | TAKE | SHRINK | COMPRESS | EXTEND | HERE_TIS.

#[global] Instance lookup_type_eq_dec : EqDecision lookup_type.
Proof. solve_decision. Defined.

#[global] Instance slot_status_eq_dec : EqDecision slot_status.
Proof. solve_decision. Defined.

Record dirstat := mk_ds {
  ds_type : lookup_type;
  ds_stat : slot_status;
  ds_idx : Z;
  ds_entry : Z;
  ds_preventry : option Z;
  ds_nbytes : Z
}.

Inductive dir_error := ENOENT | ENAMETOOLONG | EOVERFLOW | EIO | ENOSPC | EINVAL | EKERN_MEMORY_ERROR.

#[global] Instance dir_error_eq_dec : EqDecision dir_error.
Proof. solve_decision. Defined.

(** An error of [ext2_getblk]. *)
Definition of_errno (e : Getblk.errno) : dir_error :=
  match e with Getblk.EINVAL => EINVAL | Getblk.ENOSPC => ENOSPC | Getblk.EIO => EIO end.

(** [btree] is the flag [EXT2_BTREE_FL]; the size of the directory is the number of
    its bytes; [file_updates] counts the calls to [diskfs_file_update]; [oracle]
    tells which allocations of the counts of entries succeed, whose results are
    used without a test. *)
Record dirnode := mk_dirnode {
  mem : list Z;
  dir_idx : Z;
  dirents : option (list Z);
  dir_space : space;
  btree : bool;
  file_updates : Z;
  oracle : allocs
}.

Abbreviation st_size dp := (zlen (mem dp)).

(** ** Fields *)
Definition get16 (off : Z) (d : list Z) : option Z :=
  b0 ← d !z off; b1 ← d !z (off + 1); Some (b0 + Z.shiftl b1 8).

Definition get32 (off : Z) (d : list Z) : option Z :=
  lo ← get16 off d; hi ← get16 (off + 2) d; Some (lo + Z.shiftl hi 16).

Definition bytes16 (v : Z) : list Z := [v mod 256; v / 256 mod 256].

Definition bytes32 (v : Z) : list Z := bytes16 v ++ bytes16 (v / 65536).

Definition inode_at (off : Z) (d : list Z) : option Z := get32 off d.
Definition rec_len_at (off : Z) (d : list Z) : option Z := get16 (off + 4) d.
Definition name_len_at (off : Z) (d : list Z) : option Z := d !z (off + 6).

Section dir.
Context (v : volume) (DIRBLKSIZ : Z) (hurd_safe_memset : Z → option dir_error).

Abbreviation long := (v_long v).

(** ** Looking up *)
(** The checks of an entry. *)
Definition bad_entry (blockaddr currentoff : Z) (d : list Z) : option bool :=
  rec_len ← rec_len_at currentoff d; name_len ← name_len_at currentoff d;
  if bool_decide (rec_len = 0 ∨ rec_len mod 4 ≠ 0 ∨ EXT2_NAME_LEN < name_len
      ∨ blockaddr + DIRBLKSIZ < currentoff + rec_len ∨ rec_len < EXT2_DIR_REC_LEN name_len) then Some true
  else name ← mem_read (currentoff + 8) name_len d; Some (bool_decide (0 ∈ name)).

Record scan := mk_scan {
  sc_ds : option dirstat;
  nfree : Z;
  nbytes : Z;
  looking : bool;
  countcopies : bool;
  consider_compress : bool;
  nentries : Z
}.

(** The room that an entry leaves. *)
Definition count_room (blockaddr idx needed currentoff inode rec_len name_len : Z) (ds : dirstat) (s : scan) : scan :=
  let thisfree := if decide (inode = 0) then rec_len else rec_len - EXT2_DIR_REC_LEN name_len in
  let nb := if countcopies s && bool_decide (currentoff ≠ blockaddr)
            then nbytes s + EXT2_DIR_REC_LEN name_len else nbytes s in
  let cc := if bool_decide (ds_stat ds = COMPRESS ∧ ds_nbytes ds < nb) then false else countcopies s in
  if decide (needed ≤ thisfree) then
    mk_scan (Some (mk_ds CREATE (if decide (inode = 0) then TAKE else SHRINK) idx currentoff (ds_preventry ds) (ds_nbytes ds)))
      (nfree s) nb false false (consider_compress s) (nentries s)
  else
    let nf := nfree s + thisfree in
    mk_scan (sc_ds s) nf nb (looking s) cc (bool_decide (needed ≤ nf) || consider_compress s) (nentries s).

Definition same_name (off : Z) (name : list Z) (inode name_len : Z) (d : list Z) : option bool :=
  if decide (name_len = zlen name) then
    c ← d !z (off + 8);
    if decide (c = default 0 (name !z 0) ∧ inode ≠ 0) then
      n ← mem_read (off + 8) (zlen name) d; Some (bool_decide (n = name))
    else Some false
  else Some false.

Inductive scan_end := Bad | Whole | Hit (currentoff : Z) (prevoff : option Z) (inode : Z).

Fixpoint scan_loop (fuel : nat) (d : list Z) (blockaddr idx needed : Z) (name : list Z) (currentoff : Z)
    (prevoff : option Z) (s : scan) : option (scan_end * scan) :=
  match fuel with
  | O => None
  | S fuel' =>
      if decide (currentoff < blockaddr + DIRBLKSIZ) then
        bad ← bad_entry blockaddr currentoff d;
        if bad : bool then Some (Bad, s) else
        inode ← inode_at currentoff d; rec_len ← rec_len_at currentoff d; name_len ← name_len_at currentoff d;
        let s :=
          match sc_ds s with
          | Some ds =>
              if looking s || countcopies s
              then count_room blockaddr idx needed currentoff inode rec_len name_len ds s else s
          | None => s
          end in
        let s := mk_scan (sc_ds s) (nfree s) (nbytes s) (looking s) (countcopies s) (consider_compress s)
          (if decide (inode ≠ 0) then nentries s + 1 else nentries s) in
        hit ← same_name currentoff name inode name_len d;
        if hit : bool then Some (Hit currentoff prevoff inode, s)
        else scan_loop fuel' d blockaddr idx needed name (currentoff + rec_len) (Some currentoff) s
      else Some (Whole, s)
  end.

Definition maybe_compress (blockaddr idx : Z) (s : scan) : option dirstat :=
  match sc_ds s with
  | Some ds =>
      if decide (consider_compress s = true ∧ (ds_stat ds = LOOKING ∨ (ds_stat ds = COMPRESS ∧ nbytes s < ds_nbytes ds)))
      then Some (mk_ds CREATE COMPRESS idx blockaddr (ds_preventry ds) (nbytes s))
      else Some ds
  | None => None
  end.

(** The counts of entries by block, -1 if not known. *)
Definition the_dirents (dp : dirnode) : list Z :=
  match dirents dp with Some l => l | None => replicate (Z.to_nat (st_size dp / DIRBLKSIZ)) (-1) end.

(** Room for the counts of [dp], if there is none yet, or other room. *)
Definition alloc_dirents (again : bool) (dp : dirnode) : option dirnode :=
  if bool_decide (dirents dp = None) || again then
    let '(ok, o) := alloc (oracle dp) in
    if ok then Some (mk_dirnode (mem dp) (dir_idx dp) (dirents dp) (dir_space dp) (btree dp) (file_updates dp) o)
    else None
  else Some dp.

Definition set_dirents (l : list Z) (dp : dirnode) : dirnode :=
  mk_dirnode (mem dp) (dir_idx dp) (Some l) (dir_space dp) (btree dp) (file_updates dp) (oracle dp).

Definition dirscanblock (idx : Z) (name : list Z) (type : lookup_type) (ds : option dirstat) (dp : dirnode)
    : option (option Z * option dirstat * dirnode) :=
  let blockaddr := idx * DIRBLKSIZ in
  let look := match ds with Some ds => bool_decide (ds_stat ds = LOOKING ∨ ds_stat ds = COMPRESS) | None => false end in
  let needed := if look then EXT2_DIR_REC_LEN (zlen name) else 0 in
  '(e, s) ← scan_loop (S (Z.to_nat DIRBLKSIZ)) (mem dp) blockaddr idx needed name blockaddr None
    (mk_scan ds 0 0 look look false 0);
  match e with
  | Bad => Some (None, sc_ds s, dp)
  | Whole =>
      let ds := maybe_compress blockaddr idx s in
      dp ← alloc_dirents false dp;
      old ← the_dirents dp !z idx;
      if decide (old = -1 ∨ old = nentries s) then
        l ← storez idx (nentries s) (the_dirents dp); Some (None, ds, set_dirents l dp)
      else None
  | Hit currentoff prevoff inode =>
      let ds :=
        match maybe_compress blockaddr idx s with
        | Some ds =>
            Some match type with
                 | CREATE => mk_ds LOOKUP (ds_stat ds) (ds_idx ds) (ds_entry ds) (ds_preventry ds) (ds_nbytes ds)
                 | REMOVE | RENAME => mk_ds type HERE_TIS idx currentoff prevoff (ds_nbytes ds)
                 | LOOKUP => ds
                 end
        | None => None
        end in
      Some (Some inode, ds, dp)
  end.

Fixpoint lookup_loop (fuel : nat) (looped : bool) (idx lastidx : Z) (name : list Z) (type : lookup_type)
    (ds : option dirstat) (dp : dirnode) : option (option Z * option dirstat * dirnode) :=
  match fuel with
  | O => None
  | S fuel' =>
      if negb looped || bool_decide (idx < lastidx) then
        '(r, ds, dp) ← dirscanblock idx name type ds dp;
        match r with
        | Some inum =>
            Some (Some inum, ds, mk_dirnode (mem dp) idx (dirents dp) (dir_space dp) (btree dp) (file_updates dp) (oracle dp))
        | None =>
            let idx := idx + 1 in
            if bool_decide (st_size dp ≤ idx * DIRBLKSIZ) && negb looped
            then lookup_loop fuel' true 0 lastidx name type ds dp
            else lookup_loop fuel' looped idx lastidx name type ds dp
        end
      else Some (None, ds, dp)
  end.

(** The part of [diskfs_lookup_hard] that looks for the name: the inode number, 0 if
    there is none. *)
Definition lookup_name (name : list Z) (type : lookup_type) (ds : option dirstat) (dp : dirnode)
    : option ((dir_error + Z) * option dirstat * dirnode) :=
  let null ds := mk_ds LOOKUP (ds_stat ds) (ds_idx ds) (ds_entry ds) (ds_preventry ds) (ds_nbytes ds) in
  if decide (EXT2_NAME_LEN < zlen name) then Some (inl ENAMETOOLONG, null <$> ds, dp) else
  let ds := null <$> ds in
  let ds :=
    if decide (type = CREATE ∨ type = RENAME)
    then (λ ds, mk_ds (ds_type ds) LOOKING (ds_idx ds) (ds_entry ds) (ds_preventry ds) (ds_nbytes ds)) <$> ds else ds in
  let idx := if decide (st_size dp < dir_idx dp * DIRBLKSIZ) then 0 else dir_idx dp in
  let looped := bool_decide (idx = 0) in
  let lastidx := if decide (idx = 0) then st_size dp / DIRBLKSIZ else idx in
  '(r, ds, dp) ← lookup_loop (S (S (Z.to_nat (st_size dp / DIRBLKSIZ)))) looped idx lastidx name type ds dp;
  match r with
  | Some inum => Some (inr inum, ds, dp)
  | None =>
      let ds :=
        match ds with
        | Some ds' =>
            if decide ((type = CREATE ∨ type = RENAME) ∧ ds_stat ds' = LOOKING)
            then Some (mk_ds CREATE EXTEND (st_size dp / DIRBLKSIZ) (ds_entry ds') (ds_preventry ds') (ds_nbytes ds'))
            else ds
        | None => None
        end in
      Some (inl ENOENT, ds, dp)
  end.

(** ** Changing *)
Definition set_mem (d : list Z) (dp : dirnode) : dirnode :=
  mk_dirnode d (dir_idx dp) (dirents dp) (dir_space dp) (btree dp) (file_updates dp) (oracle dp).

(** Entries are moved to the front; the end of what is used. *)
Fixpoint compress_loop (fuel : nat) (last fromoff tooff : Z) (d : list Z) : option (Z * list Z) :=
  match fuel with
  | O => None
  | S fuel' =>
      if decide (fromoff < last) then
        fromreclen ← rec_len_at fromoff d;
        inode ← inode_at fromoff d;
        if decide (inode ≠ 0) then
          if decide (tooff ≤ fromoff) then
            data ← mem_read fromoff fromreclen d;
            d ← mem_write tooff data d;
            name_len ← name_len_at tooff d;
            d ← mem_write (tooff + 4) (bytes16 (EXT2_DIR_REC_LEN name_len)) d;
            rec_len ← rec_len_at tooff d;
            compress_loop fuel' last (fromoff + fromreclen) (tooff + rec_len) d
          else None
        else compress_loop fuel' last (fromoff + fromreclen) tooff d
      else Some (tooff, d)
  end.

(** Growth as often as it takes; [fuel] bounds the calls.  Two are enough (see
    [diskfs_grow_twice]). *)
Fixpoint grow_loop (fuel : nat) (wanted : Z) (sp : space) : option (option dir_error * space) :=
  match fuel with
  | O => None
  | S fuel' =>
      if decide (sp_allocsize sp < wanted) then
        '(err, sp) ← diskfs_grow v wanted sp;
        match err with
        | Some e => Some (Some (of_errno e), sp)
        | None => grow_loop fuel' wanted sp
        end
      else Some (None, sp)
  end.

Definition set_space (sp : space) (dp : dirnode) : dirnode :=
  mk_dirnode (mem dp) (dir_idx dp) (dirents dp) sp (btree dp) (file_updates dp) (oracle dp).

(** The place of the new entry, its length set, or an error, with the directory. *)
Definition make_room (needed : Z) (ds : dirstat) (dp : dirnode) : option ((dir_error + Z) * dirnode) :=
  let d := mem dp in
  let entry := ds_entry ds in
  match ds_stat ds with
  | TAKE =>
      inode ← inode_at entry d; rec_len ← rec_len_at entry d;
      if decide (inode = 0 ∧ needed ≤ rec_len) then Some (inr entry, dp) else None
  | SHRINK =>
      name_len ← name_len_at entry d; rec_len ← rec_len_at entry d;
      let oldneeded := EXT2_DIR_REC_LEN name_len in
      if decide (needed ≤ rec_len - oldneeded) then
        d ← mem_write (entry + oldneeded + 4) (bytes16 (rec_len - oldneeded)) d;
        d ← mem_write (entry + 4) (bytes16 oldneeded) d;
        Some (inr (entry + oldneeded), set_mem d dp)
      else None
  | COMPRESS =>
      '(tooff, d) ← compress_loop (S (Z.to_nat DIRBLKSIZ)) (entry + DIRBLKSIZ) entry entry d;
      let totfreed := entry + DIRBLKSIZ - tooff in
      if decide (needed ≤ totfreed) then
        d ← mem_write (tooff + 4) (bytes16 totfreed) d;
        Some (inr tooff, set_mem d dp)
      else None
  | EXTEND =>
      if decide (needed ≤ DIRBLKSIZ) then
        let oldsize := st_size dp mod 2 ^ long in
        if decide ((oldsize + DIRBLKSIZ) mod 2 ^ long ≠ st_size dp + DIRBLKSIZ) then Some (inl EOVERFLOW, dp) else
        '(err, sp) ← grow_loop 3 (oldsize + DIRBLKSIZ) (dir_space dp);
        let dp := set_space sp dp in
        match err with
        | Some e => Some (inl e, dp)
        | None =>
            match hurd_safe_memset oldsize with
            | Some e => Some (inl (if decide (e = EKERN_MEMORY_ERROR) then ENOSPC else e), dp)
            | None =>
                d ← mem_write (oldsize + 4) (bytes16 DIRBLKSIZ) (d ++ replicate (Z.to_nat DIRBLKSIZ) 0);
                Some (inr oldsize, set_mem d dp)
            end
        end
      else None
  | LOOKING | HERE_TIS => None
  end.

(** The count of a block is kept up to date if there is one. *)
Definition recount (idx change : Z) (dp : dirnode) : option dirnode :=
  match dirents dp with
  | Some l => c ← l !z idx; if decide (c ≠ -1) then l ← storez idx (c + change) l; Some (set_dirents l dp) else Some dp
  | None => Some dp
  end.

Definition count_extended (idx oldblocks : Z) (dp : dirnode) : option dirnode :=
  let blocks := st_size dp / DIRBLKSIZ in
  dp ← alloc_dirents true dp;
  let l := match dirents dp with
           | Some l => take (Z.to_nat oldblocks) l ++ replicate (Z.to_nat (blocks - oldblocks)) (-1)
           | None => replicate (Z.to_nat blocks) (-1)
           end in
  l ← storez idx 1 l; Some (set_dirents l dp).

Definition written (d : list Z) (dp : dirnode) : dirnode :=
  mk_dirnode d (dir_idx dp) (dirents dp) (dir_space dp) false (file_updates dp) (oracle dp).

Definition file_update (dp : dirnode) : dirnode :=
  mk_dirnode (mem dp) (dir_idx dp) (dirents dp) (dir_space dp) (btree dp) (file_updates dp + 1) (oracle dp).

Definition diskfs_direnter_hard (name : list Z) (inum : Z) (ds : dirstat) (dp : dirnode)
    : option (option dir_error * dirnode) :=
  let needed := EXT2_DIR_REC_LEN (zlen name) in
  let oldblocks := st_size dp / DIRBLKSIZ in
  if decide (ds_type ds = CREATE) then
    '(r, dp) ← make_room needed ds dp;
    match r with
    | inl e => Some (Some e, dp)
    | inr new =>
        d ← mem_write new (bytes32 inum) (mem dp);
        d ← mem_write (new + 6) [zlen name; 0] d;
        d ← mem_write (new + 8) name d;
        dp ← (if decide (ds_stat ds ≠ EXTEND) then recount (ds_idx ds) 1 (written d dp)
              else count_extended (ds_idx ds) oldblocks (written d dp));
        Some (None, file_update dp)
    end
  else None.

Definition diskfs_dirremove_hard (ds : dirstat) (dp : dirnode) : option dirnode :=
  if decide (ds_type ds = REMOVE ∧ ds_stat ds = HERE_TIS) then
    d ← match ds_preventry ds with
        | None => mem_write (ds_entry ds) (bytes32 0) (mem dp)
        | Some preventry =>
            prev_len ← rec_len_at preventry (mem dp); rec_len ← rec_len_at (ds_entry ds) (mem dp);
            if decide (ds_entry ds - preventry = prev_len)
            then mem_write (preventry + 4) (bytes16 (prev_len + rec_len)) (mem dp) else None
        end;
    dp ← recount (ds_idx ds) (-1) (written d dp);
    Some (file_update dp)
  else None.

Definition diskfs_dirrewrite_hard (inum : Z) (ds : dirstat) (dp : dirnode) : option dirnode :=
  if decide (ds_type ds = RENAME ∧ ds_stat ds = HERE_TIS) then
    d ← mem_write (ds_entry ds) (bytes32 inum) (mem dp);
    Some (file_update (written d dp))
  else None.

(** ** Reading *)
Fixpoint empty_loop (fuel : nat) (d : list Z) (curoff : Z) : option bool :=
  match fuel with
  | O => None
  | S fuel' =>
      if decide (curoff < zlen d) then
        inode ← inode_at curoff d; name_len ← name_len_at curoff d; rec_len ← rec_len_at curoff d;
        hit ← (if decide (inode ≠ 0) then
                 if decide (2 < name_len) then Some true else
                 c0 ← d !z (curoff + 8);
                 if decide (c0 ≠ 46) then Some true else
                 c1 ← d !z (curoff + 9); Some (bool_decide (c1 ≠ 46 ∧ c1 ≠ 0))
               else Some false);
        if hit : bool then Some false else empty_loop fuel' d (curoff + rec_len)
      else Some true
  end.

(** An entry of length 0 would not let the loop end; [fuel] bounds it otherwise. *)
Definition diskfs_dirempty (dp : dirnode) : option bool := empty_loop (S (Z.to_nat (st_size dp))) (mem dp) 0.

Fixpoint count_loop (fuel : nat) (buf : list Z) (offinblk count : Z) : option (dir_error + Z) :=
  match fuel with
  | O => None
  | S fuel' =>
      if decide (offinblk < DIRBLKSIZ) then
        inode ← inode_at offinblk buf; rec_len ← rec_len_at offinblk buf;
        if decide (rec_len = 0) then Some (inl EIO)
        else count_loop fuel' buf (offinblk + rec_len) (if decide (inode ≠ 0) then count + 1 else count)
      else Some (inr count)
  end.

(** The count of block [nb] is noted. *)
Definition count_dirents (nb : Z) (dp : dirnode) : option (dir_error + dirnode) :=
  match dirents dp with
  | None => None
  | Some l =>
      if decide ((nb + 1) * DIRBLKSIZ ≤ st_size dp) then
        buf ← mem_read (nb * DIRBLKSIZ) DIRBLKSIZ (mem dp);
        r ← count_loop (S (Z.to_nat DIRBLKSIZ)) buf 0 0;
        match r with
        | inl e => Some (inl e)
        | inr count =>
            old ← l !z nb;
            if decide (old = -1 ∨ old = count) then l ← storez nb count l; Some (inr (set_dirents l dp)) else None
        end
      else None
  end.

(** ** Listing *)
(** The block that entry number [entry] is in, with the number of its first entry. *)
Fixpoint find_entry_block (fuel : nat) (blkno curentry entry : Z) (dp : dirnode)
    : option (dir_error + (Z * Z * dirnode)) :=
  match fuel with
  | O => None
  | S fuel' =>
      if decide (blkno < st_size dp / DIRBLKSIZ) then
        c ← the_dirents dp !z blkno;
        r ← (if decide (c = -1) then count_dirents blkno dp else Some (inr dp));
        match r with
        | inl e => Some (inl e)
        | inr dp =>
            c ← the_dirents dp !z blkno;
            if decide (entry < curentry + c) then Some (inr (blkno, curentry, dp))
            else find_entry_block fuel' (blkno + 1) (curentry + c) entry dp
        end
      else Some (inr (blkno, curentry, dp))
  end.

(** [n] entries are skipped from offset [bufp] of the block at [blockaddr]. *)
Fixpoint skip_entries (n : nat) (blockaddr bufp : Z) (d : list Z) : option Z :=
  match n with
  | O => Some bufp
  | S n' =>
      if decide (bufp < DIRBLKSIZ)
      then rec_len ← rec_len_at (blockaddr + bufp) d; skip_entries n' blockaddr (bufp + rec_len) d
      else Some bufp
  end.

(** Where the name is in a [struct dirent], the alignment of these, and the size of
    a page, which the system defines. *)
Context (d_name_offset dirent_align page_size : Z).

Definition dirent_len (name_len : Z) : Z :=
  (d_name_offset + name_len + 1 + (dirent_align - 1)) / dirent_align * dirent_align.

Definition round_page (x : Z) : Z := (x + page_size - 1) / page_size * page_size.

(** The entries as inode numbers and names, with the bytes they take. *)
Fixpoint copy_loop (fuel : nat) (wanted bufsiz limit : Z) (d : list Z) (blkno bufp i datap : Z) (out : list (Z * list Z))
    : option (dir_error + (list (Z * list Z) * Z)) :=
  match fuel with
  | O => None
  | S fuel' =>
      if decide ((wanted = -1 ∨ i < wanted) ∧ (bufsiz = 0 ∨ datap < bufsiz) ∧ blkno < zlen d / DIRBLKSIZ) then
        let off := blkno * DIRBLKSIZ + bufp in
        inode ← inode_at off d; rec_len ← rec_len_at off d; name_len ← name_len_at off d;
        let next i datap out :=
          if decide (rec_len = 0) then Some (inl EIO) else
          if decide (bufp + rec_len = DIRBLKSIZ) then copy_loop fuel' wanted bufsiz limit d (blkno + 1) 0 i datap out
          else if decide (DIRBLKSIZ < bufp + rec_len) then Some (inl EIO)
          else copy_loop fuel' wanted bufsiz limit d blkno (bufp + rec_len) i datap out in
        if decide (inode ≠ 0) then
          if decide (datap + dirent_len name_len ≤ limit) then
            name ← mem_read (off + 8) name_len d;
            next (i + 1) (datap + dirent_len name_len) (out ++ [(inode, name)])
          else if decide (bufsiz = 0) then None else Some (inr (out, datap))
        else next i datap out
      else Some (inr (out, datap))
  end.

(** What the whole directory may take as [struct dirent]s. *)
Definition whole_size (dp : dirnode) : Z :=
  let min_entry_size := EXT2_DIR_REC_LEN 0 in
  let min_dirent_size := d_name_offset + 1 in
  let max_entries := st_size dp / min_entry_size in
  let entry_extra :=
    dirent_align + (if decide (min_entry_size < min_dirent_size) then min_dirent_size - min_entry_size else 0) in
  round_page (st_size dp + max_entries * entry_extra).

(** The size is kept in an [int]. *)
Definition directs_allocsize (bufsiz : Z) (dp : dirnode) : Z :=
  s32 (if decide (bufsiz = 0 ∨ st_size dp < bufsiz) then whole_size dp else round_page bufsiz).

(** At most [wanted] entries, -1 for all, from number [entry]. *)
Definition diskfs_get_directs (entry wanted bufsiz : Z) (dp : dirnode)
    : option (dir_error + (list (Z * list Z) * Z * dirnode)) :=
  dp ← alloc_dirents false dp;
  let dp := set_dirents (the_dirents dp) dp in
  let nblks := st_size dp / DIRBLKSIZ in
  r ← find_entry_block (S (Z.to_nat nblks)) 0 0 entry dp;
  match r with
  | inl e => Some (inl e)
  | inr (blkno, curentry, dp) =>
      if decide (blkno = nblks) then Some (inr ([], 0, dp)) else
      bufp ← (if decide (curentry ≠ entry) then
                bufp ← skip_entries (Z.to_nat (entry - curentry)) (blkno * DIRBLKSIZ) 0 (mem dp);
                if decide (bufp < DIRBLKSIZ) then Some bufp else None
              else Some 0);
      r ← copy_loop (S (Z.to_nat (st_size dp))) wanted bufsiz (directs_allocsize bufsiz dp) (mem dp) blkno bufp 0 0 [];
      match r with
      | inl e => Some (inl e)
      | inr (out, datap) => Some (inr (out, datap, dp))
      end
  end.
End dir.
