(* ===== verification/Ext2DirMap.v ===== *)
(** * ext2: directories as finite maps

    The functions of [Ext2Dir.v] on directories that are well formed: a block is
    the encoding of a list of entries, and a directory the finite map from the
    names of the entries in use to their inode numbers. *)

From S2P Require Import Prelude Slice Ext2Grow Ext2Dir.

(** ** Entries as bytes *)
Record dirent := mk_dirent {
  e_inode : Z;
  e_type : Z;
  e_name : list Z;
  e_pad : list Z
}.

Definition rec_len (e : dirent) : Z := 8 + zlen (e_name e) + zlen (e_pad e).

Definition enc (e : dirent) : list Z :=
  bytes32 (e_inode e) ++ bytes16 (rec_len e) ++ [zlen (e_name e); e_type e] ++ e_name e ++ e_pad e.

Definition encs (es : list dirent) : list Z := concat (enc <$> es).

Definition name_ok (name : list Z) : Prop := zlen name ≤ 255 ∧ 0 ∉ name.

Record dirent_ok (e : dirent) : Prop := {
  de_inode : 0 ≤ e_inode e < 2 ^ 32;
  de_name : name_ok (e_name e);
  de_len : rec_len e mod 4 = 0 ∧ rec_len e < 2 ^ 16
}.

(** The bytes that an entry needs. *)
Abbreviation need e := (EXT2_DIR_REC_LEN (zlen (e_name e))).

Lemma rec_len_round n : EXT2_DIR_REC_LEN n = (n + 11) / 4 * 4.
Proof.
  unfold EXT2_DIR_REC_LEN. replace (n + 8 + 3) with (n + 11) by lia. rewrite <-Z.ldiff_land.
  change 3 with (Z.ones 2). by rewrite Z.ldiff_ones_r, Z.shiftl_mul_pow2, Z.shiftr_div_pow2 by lia.
Qed.

Lemma need_le e : dirent_ok e → 8 ≤ need e ≤ rec_len e ∧ need e mod 4 = 0 ∧ 8 + zlen (e_name e) ≤ need e.
Proof.
  intros [_ _ [Hm _]]. rewrite rec_len_round. unfold rec_len in *. Z.div_mod_to_equations. lia.
Qed.

Lemma zlen_enc e : zlen (enc e) = rec_len e.
Proof. unfold enc, rec_len, bytes32, bytes16. rewrite !length_app. simpl. lia. Qed.

Lemma rec_len_pos e : 8 ≤ rec_len e.
Proof. unfold rec_len. lia. Qed.

Lemma encs_cons e es : encs (e :: es) = enc e ++ encs es.
Proof. done. Qed.

Lemma encs_app es es' : encs (es ++ es') = encs es ++ encs es'.
Proof. unfold encs. by rewrite fmap_app, concat_app. Qed.

(** ** Fields *)
Lemma bytes16_value v : 0 ≤ v < 2 ^ 16 → v mod 256 + Z.shiftl (v / 256 mod 256) 8 = v.
Proof.
  intros Hv. rewrite Z.shiftl_mul_pow2, (Z.mod_small (v / 256)) by (done || (Z.div_mod_to_equations; lia)).
  Z.div_mod_to_equations. lia.
Qed.

Lemma get16_ok off pre v post :
  off = zlen pre → 0 ≤ v < 2 ^ 16 → get16 off (pre ++ bytes16 v ++ post) = Some v.
Proof.
  intros -> Hv. unfold get16. replace (zlen pre) with (zlen pre + 0) at 1 by lia. rewrite !lookupz_app_r by lia. simpl.
  f_equal. by apply bytes16_value.
Qed.

Lemma get32_ok off pre v post :
  off = zlen pre → 0 ≤ v < 2 ^ 32 → get32 off (pre ++ bytes32 v ++ post) = Some v.
Proof.
  intros -> Hv. unfold get32, bytes32. rewrite <-(app_assoc (bytes16 v)).
  assert (Hlow : bytes16 v = bytes16 (v mod 65536)).
  { unfold bytes16. assert (v / 256 = (v mod 65536) / 256 + v / 65536 * 256) as -> by (Z.div_mod_to_equations; lia).
    rewrite Z.mod_add, Z.mod_mod_divide by (done || by exists 256). done. }
  rewrite Hlow, (get16_ok (zlen pre)) by (done || by apply Z.mod_pos_bound). cbn [mbind option_bind].
  rewrite (app_assoc pre), get16_ok; [|rewrite length_app; simpl; lia|split; [apply Z.div_pos; lia|apply Z.div_lt_upper_bound; lia]].
  cbn [mbind option_bind]. f_equal. rewrite Z.shiftl_mul_pow2 by lia. pose proof (Z.div_mod v 65536). lia.
Qed.

Lemma inode_at_ok off pre e post :
  dirent_ok e → off = zlen pre → inode_at off (pre ++ enc e ++ post) = Some (e_inode e).
Proof. intros He Hoff. unfold inode_at, enc. rewrite <-!app_assoc. apply get32_ok; [done|apply He]. Qed.

Lemma rec_len_at_ok off pre e post :
  dirent_ok e → off = zlen pre → rec_len_at off (pre ++ enc e ++ post) = Some (rec_len e).
Proof.
  intros He ->. unfold rec_len_at, enc. rewrite <-!app_assoc, (app_assoc pre).
  apply get16_ok; [rewrite length_app; simpl; lia|]. pose proof (rec_len_pos e). pose proof (de_len e He). lia.
Qed.

Lemma name_len_at_ok off pre e post :
  off = zlen pre → name_len_at off (pre ++ enc e ++ post) = Some (zlen (e_name e)).
Proof. intros ->. unfold name_len_at. rewrite lookupz_app_r by lia. done. Qed.

Lemma name_read_ok off pre e post n :
  off = zlen pre → n = zlen (e_name e) → mem_read (off + 8) n (pre ++ enc e ++ post) = Some (e_name e).
Proof.
  intros -> ->. unfold enc. rewrite <-!app_assoc. rewrite (app_assoc pre), (app_assoc (_ ++ _)), (app_assoc ((_ ++ _) ++ _)).
  apply mem_read_mid; [|done]. rewrite !length_app. simpl. lia.
Qed.

(** ** Directories *)
Abbreviation live e := (e_inode e ≠ 0).

Definition count_live (es : list dirent) : Z := countb (λ e, bool_decide (live e)) es.

(** The bytes of an entry that are free for another one. *)
Definition room (e : dirent) : Z := if decide (e_inode e = 0) then rec_len e else rec_len e - need e.

Fixpoint rooms (es : list dirent) : Z := match es with [] => 0 | e :: es' => room e + rooms es' end.

Lemma rooms_app es es' : rooms (es ++ es') = rooms es + rooms es'.
Proof. induction es as [|e es IH]; simpl; [done|]. rewrite IH. lia. Qed.

Lemma room_bounds e : dirent_ok e → 0 ≤ room e ≤ rec_len e.
Proof. intros He. pose proof (need_le e He). unfold room. case_decide; lia. Qed.

Lemma rooms_nonneg es : Forall dirent_ok es → 0 ≤ rooms es.
Proof. induction 1 as [|e es He _ IH]; simpl; [done|]. pose proof (room_bounds e He). lia. Qed.

Definition hit (name : list Z) (e : dirent) : Prop := live e ∧ e_name e = name.

#[global] Instance hit_dec name e : Decision (hit name e).
Proof. unfold hit. apply _. Defined.

(** The entry before the place behind [pre], if there is one. *)
Definition prev_ok (base : Z) (pre : list dirent) (prev : option Z) : Prop :=
  match prev with
  | None => pre = []
  | Some off => ∃ pre' e, pre = pre' ++ [e] ∧ off = base + zlen (encs pre')
  end.

Section blocks.
Context (DIRBLKSIZ : Z).

(** A block of entries, and the bytes of a directory. *)
Definition block_ok (es : list dirent) : Prop := Forall dirent_ok es ∧ zlen (encs es) = DIRBLKSIZ.

Definition bytes_of (ess : list (list dirent)) : list Z := concat (encs <$> ess).

Definition dir_ok (ess : list (list dirent)) : Prop := Forall block_ok ess.

Lemma bytes_of_app ess ess' : bytes_of (ess ++ ess') = bytes_of ess ++ bytes_of ess'.
Proof. unfold bytes_of. by rewrite fmap_app, concat_app. Qed.

Lemma zlen_bytes_of ess : dir_ok ess → zlen (bytes_of ess) = zlen ess * DIRBLKSIZ.
Proof.
  induction 1 as [|es ess [_ Hes] _ IH]; [done|]. change (bytes_of (es :: ess)) with (encs es ++ bytes_of ess).
  rewrite length_app. simpl. lia.
Qed.

(** Entry [e] of block number [idx], at offset [off]. *)
Record entry_at (ess : list (list dirent)) (idx off : Z) (bs1 : list (list dirent)) (es1 : list dirent) (e : dirent)
    (es2 : list dirent) (bs2 : list (list dirent)) : Prop := {
  ea_dir : ess = bs1 ++ (es1 ++ e :: es2) :: bs2;
  ea_idx : idx = zlen bs1;
  ea_off : off = idx * DIRBLKSIZ + zlen (encs es1)
}.

(** A place for an entry of [needed] bytes. *)
Definition slot_ok (needed : Z) (ess : list (list dirent)) (ds : dirstat) : Prop :=
  ds_type ds = CREATE ∧
  match ds_stat ds with
  | TAKE => ∃ bs1 es1 e es2 bs2, entry_at ess (ds_idx ds) (ds_entry ds) bs1 es1 e es2 bs2 ∧ e_inode e = 0 ∧ needed ≤ rec_len e
  | SHRINK => ∃ bs1 es1 e es2 bs2, entry_at ess (ds_idx ds) (ds_entry ds) bs1 es1 e es2 bs2 ∧ live e ∧ needed ≤ rec_len e - need e
  | COMPRESS => ∃ bs1 es bs2, ess = bs1 ++ es :: bs2 ∧ ds_idx ds = zlen bs1 ∧ ds_entry ds = ds_idx ds * DIRBLKSIZ ∧ needed ≤ rooms es
  | EXTEND => ds_idx ds = zlen ess
  | LOOKING | HERE_TIS => False
  end.

Definition good (needed : Z) (ess : list (list dirent)) (ds : option dirstat) : Prop :=
  match ds with Some ds => ds_stat ds = LOOKING ∨ slot_ok needed ess ds | None => True end.

(** ** Scanning a block *)
Section scan_block.
Context (ess bs1 : list (list dirent)) (es : list dirent) (bs2 : list (list dirent)).
Context (name : list Z) (needed nd : Z) (ds0 : option dirstat).
Hypothesis Hess : ess = bs1 ++ es :: bs2.
Hypothesis Hok : dir_ok ess.
Hypothesis Hname : name_ok name.
Hypothesis Hne : name ≠ [].

Abbreviation idx := (zlen bs1).
Abbreviation base := (zlen bs1 * DIRBLKSIZ).
Abbreviation d := (bytes_of ess).

Lemma dir_block_in : block_ok es.
Proof. rewrite Hess in Hok. apply Forall_app in Hok as [_ Hok']. by apply Forall_cons in Hok' as [? _]. Qed.

(** The bytes around an entry of the block. *)
Lemma bytes_around es1 e es2 :
  es = es1 ++ e :: es2 →
  d = (bytes_of bs1 ++ encs es1) ++ enc e ++ encs es2 ++ bytes_of bs2
  ∧ zlen (bytes_of bs1 ++ encs es1) = base + zlen (encs es1) ∧ dirent_ok e
  ∧ zlen (encs es1) + rec_len e + zlen (encs es2) = DIRBLKSIZ.
Proof.
  intros He. pose proof dir_block_in as [Hall Hlen]. rewrite Hess in Hok. apply Forall_app in Hok as [Hok1 _]. split_and!.
  - rewrite Hess, bytes_of_app. change (bytes_of (es :: bs2)) with (encs es ++ bytes_of bs2).
    by rewrite He, encs_app, encs_cons, <-!app_assoc.
  - by rewrite length_app, Nat2Z.inj_add, zlen_bytes_of.
  - rewrite He in Hall. apply Forall_app in Hall as [_ Hall]. by apply Forall_cons in Hall as [? _].
  - rewrite He, encs_app, encs_cons, !length_app in Hlen. pose proof (zlen_enc e). lia.
Qed.

Lemma fields_ok es1 e es2 :
  es = es1 ++ e :: es2 → let off := base + zlen (encs es1) in
  inode_at off d = Some (e_inode e) ∧ rec_len_at off d = Some (rec_len e) ∧ name_len_at off d = Some (zlen (e_name e))
  ∧ bad_entry DIRBLKSIZ base off d = Some false
  ∧ same_name off name (e_inode e) (zlen (e_name e)) d = Some (bool_decide (hit name e)).
Proof.
  intros He off. destruct (bytes_around es1 e es2 He) as (-> & Hlen & Hde & Hsum). fold off in Hlen.
  set (pre := bytes_of bs1 ++ encs es1) in *. set (post := encs es2 ++ bytes_of bs2).
  pose proof (need_le e Hde). destruct (de_name e Hde) as [Hn Hz]. destruct (de_len e Hde) as [Hmod _].
  split_and!.
  - by apply inode_at_ok.
  - by apply rec_len_at_ok.
  - by apply name_len_at_ok.
  - unfold bad_entry. rewrite rec_len_at_ok, name_len_at_ok by done. cbn [mbind option_bind].
    rewrite bool_decide_false by lia. rewrite name_read_ok by done. cbn [mbind option_bind]. by rewrite bool_decide_false.
  - unfold same_name. destruct (decide (zlen (e_name e) = zlen name)) as [Hl|Hl].
    2:{ rewrite bool_decide_false; [done|]. intros [_ E]. by rewrite E in Hl. }
    assert (∃ c cs, e_name e = c :: cs) as (c & cs & Hcs) by (destruct (e_name e); [by destruct name|eauto]).
    assert (Hc : (pre ++ enc e ++ post) !z (off + 8) = Some c).
    { rewrite <-Hlen, lookupz_app_r by lia. unfold enc. rewrite Hcs. done. }
    rewrite Hc. cbn [mbind option_bind]. destruct (decide (_ ∧ _)) as [[Hc0 Hlive]|Hnot].
    + rewrite name_read_ok by done. cbn [mbind option_bind]. f_equal. apply bool_decide_ext. unfold hit. tauto.
    + rewrite bool_decide_false; [done|]. intros [Hlive E]. apply Hnot. split; [|done]. by rewrite <-E, Hcs.
Qed.

(** What is known behind the entries [pre] of the block. *)
Record scanned (pre : list dirent) (s : scan) : Prop := {
  sn_count : nentries s = count_live pre;
  sn_free : looking s = true → sc_ds s ≠ None ∧ nfree s = rooms pre ∧ nd = needed;
  sn_copies : countcopies s = true → looking s = true;
  sn_consider : consider_compress s = true → needed ≤ rooms pre;
  sn_good : good needed ess ds0 → good needed ess (sc_ds s);
  sn_same : sc_ds s = None ↔ ds0 = None
}.

Lemma count_room_ok pre e es2 s :
  es = pre ++ e :: es2 → scanned pre s →
  let s1 :=
    match sc_ds s with
    | Some ds =>
        if looking s || countcopies s
        then count_room base idx nd (base + zlen (encs pre)) (e_inode e) (rec_len e) (zlen (e_name e)) ds s else s
    | None => s
    end in
  scanned (pre ++ [e]) (mk_scan (sc_ds s1) (nfree s1) (nbytes s1) (looking s1) (countcopies s1) (consider_compress s1)
    (if decide (e_inode e ≠ 0) then nentries s1 + 1 else nentries s1)).
Proof.
  intros He [Hc Hf Hcp Hco Hg Hs] s1. destruct (bytes_around pre e es2 He) as (_ & _ & Hde & _).
  pose proof (room_bounds e Hde) as Hr.
  assert (Hn : nentries s1 = nentries s).
  { unfold s1. destruct (sc_ds s); [|done]. destruct (_ || _); [|done]. unfold count_room. by case_decide. }
  assert (Hcount : (if decide (e_inode e ≠ 0) then nentries s1 + 1 else nentries s1) = count_live (pre ++ [e])).
  { unfold count_live. rewrite countb_app, Hn, Hc. unfold count_live. simpl. case_decide; [rewrite bool_decide_true by done|rewrite bool_decide_false by tauto]; lia. }
  rewrite Hcount. clear Hcount Hn. assert (Hrs : rooms (pre ++ [e]) = rooms pre + room e) by (rewrite rooms_app; simpl; lia).
  destruct (sc_ds s) as [ds|] eqn:Eds.
  2:{ assert (Hl : looking s = false) by (destruct (looking s); [by destruct Hf|done]). subst s1.
      split; simpl; rewrite ?Eds; try done; try congruence. intros H. specialize (Hco H). lia. }
  destruct (looking s || countcopies s) eqn:El.
  2:{ apply orb_false_iff in El as [El1 El2]. subst s1.
      split; simpl; rewrite ?Eds; try done; try congruence. intros H. specialize (Hco H). lia. }
  assert (Hlook : looking s = true) by (destruct (looking s); [done|]; simpl in El; by apply Hcp).
  destruct (Hf Hlook) as (_ & Hfree & Hnd). subst s1. rewrite Hnd. unfold count_room. fold (room e). case_decide as Hfit.
  - split; simpl; try done; [intros H; specialize (Hco H); lia| |split; [done|intros H; by apply Hs in H]]. intros _. right. split; [done|]. simpl.
    unfold room in Hfit. destruct (decide (e_inode e = 0)); simpl; exists bs1, pre, e, es2, bs2;
      (split; [split; [by rewrite Hess, He|done|done]|done]).
  - split; simpl; rewrite ?Eds; try done.
    + intros _. rewrite Hfree. split_and!; [done|lia|done].
    + intros [Hl%bool_decide_eq_true|Hl]%orb_true_iff; [lia|specialize (Hco Hl); lia].
Qed.

(** How the scan of a block ends. *)
Definition scan_result (pre rest : list dirent) (r : scan_end) (s : scan) : Prop :=
  match r with
  | Bad => False
  | Whole => Forall (λ e, ¬ hit name e) rest ∧ scanned (pre ++ rest) s
  | Hit off prev inode =>
      ∃ a e b, rest = a ++ e :: b ∧ hit name e ∧ off = base + zlen (encs (pre ++ a)) ∧ inode = e_inode e
        ∧ prev_ok base (pre ++ a) prev ∧ scanned (pre ++ a ++ [e]) s
  end.

Lemma scan_loop_ok fuel rest : ∀ pre prev s,
  es = pre ++ rest → scanned pre s → prev_ok base pre prev → zlen (encs rest) < Z.of_nat fuel →
  ∃ r s', scan_loop DIRBLKSIZ fuel d base idx nd name (base + zlen (encs pre)) prev s = Some (r, s')
    ∧ scan_result pre rest r s'.
Proof.
  revert rest. induction fuel as [|fuel IH]; intros rest pre prev s He Hs Hprev Hfuel; [lia|]. cbn [scan_loop].
  destruct rest as [|e rest].
  { destruct dir_block_in as [_ Hlen]. rewrite He, app_nil_r in Hlen. rewrite decide_False by lia.
    exists Whole, s. split; [done|]. split; [done|]. by rewrite app_nil_r. }
  destruct (bytes_around pre e rest He) as (_ & _ & Hde & Hsum). pose proof (rec_len_pos e).
  rewrite decide_True by lia. destruct (fields_ok pre e rest He) as (Hi & Hr & Hn & Hb & Hsn).
  rewrite Hb. cbn [mbind option_bind]. rewrite Hi, Hr, Hn. cbn [mbind option_bind]. rewrite Hsn. cbn [mbind option_bind].
  pose proof (count_room_ok pre e rest s He Hs) as Hs1. cbv zeta in Hs1. set (s1 := match sc_ds s with Some _ => _ | None => _ end) in *.
  case_bool_decide as Hhit.
  - do 2 eexists. split; [done|]. exists [], e, rest. rewrite app_nil_r. by split_and!.
  - replace (base + zlen (encs pre) + rec_len e) with (base + zlen (encs (pre ++ [e])))
      by (rewrite encs_app, length_app; change (encs [e]) with (enc e ++ []); rewrite app_nil_r; pose proof (zlen_enc e); lia).
    edestruct (IH rest (pre ++ [e])) as (r & s' & -> & Hres); [by rewrite <-app_assoc|exact Hs1| | |].
    + by exists pre, e.
    + rewrite encs_cons, length_app in Hfuel. pose proof (zlen_enc e). lia.
    + exists r, s'. split; [done|]. destruct r as [| |off prev' inode]; [done| |].
      * destruct Hres as [Hall Hres]. split; [by constructor|]. by rewrite <-app_assoc in Hres.
      * destruct Hres as (a & e' & b & -> & Hh & -> & -> & Hp & Hs'). exists (e :: a), e', b.
        rewrite <-!app_assoc in *. by split_and!.
Qed.
End scan_block.
End blocks.

(** ** The map that a directory is *)
Definition pairs (es : list dirent) : list (list Z * Z) := (λ e, (e_name e, e_inode e)) <$> filter (λ e, live e) es.

Definition contents (ess : list (list dirent)) : gmap (list Z) Z := list_to_map (pairs (concat ess)).

Section lookup.
Context (DIRBLKSIZ : Z).
Hypothesis HBLK : 264 ≤ DIRBLKSIZ < 2 ^ 16 ∧ DIRBLKSIZ mod 4 = 0.

(** The counts of entries are right where they are known. *)
Definition counts_ok (ess : list (list dirent)) (l : list Z) : Prop :=
  zlen l = zlen ess ∧ ∀ i es c, ess !z i = Some es → l !z i = Some c → c = -1 ∨ c = count_live es.

Record dirnode_ok (dp : dirnode) (ess : list (list dirent)) : Prop := {
  dn_mem : mem dp = bytes_of ess;
  dn_dir : dir_ok DIRBLKSIZ ess;
  dn_names : NoDup (pairs (concat ess)).*1;
  dn_idx : dir_idx dp = 0 ∨ 0 < dir_idx dp < zlen ess;
  dn_counts : match dirents dp with Some l => counts_ok ess l | None => True end;
  dn_memory : oracle dp = []
}.

Lemma alloc_dirents_ok again dp ess : dirnode_ok dp ess → alloc_dirents again dp = Some dp.
Proof. intros Hdp. unfold alloc_dirents. rewrite (dn_memory dp ess Hdp). destruct dp. simpl. case_match; [|done]. by rewrite <-(dn_memory _ _ Hdp). Qed.

Lemma size_ok dp ess : dirnode_ok dp ess → st_size dp = zlen ess * DIRBLKSIZ ∧ st_size dp / DIRBLKSIZ = zlen ess.
Proof.
  intros [Hm Hd _ _ _ _]. rewrite Hm, (zlen_bytes_of DIRBLKSIZ) by done. split; [done|]. apply Z.div_mul. lia.
Qed.

Lemma the_dirents_ok dp ess : dirnode_ok dp ess → counts_ok ess (the_dirents DIRBLKSIZ dp).
Proof.
  intros Hdp. destruct (size_ok dp ess Hdp) as [_ Hn]. pose proof (dn_counts dp ess Hdp) as Hc. unfold the_dirents.
  destruct (dirents dp); [done|]. rewrite Hn. split; [rewrite length_replicate; lia|].
  intros i es c _ Hi. left. by apply lookupz_replicate in Hi as [? _].
Qed.

Lemma counts_ok_store ess l i es c :
  counts_ok ess l → ess !z i = Some es → c = -1 ∨ c = count_live es → counts_ok ess (updz i c l).
Proof.
  intros [Hl Hc] Hi Hcnt. pose proof (lookupz_lt _ _ _ Hi). split; [by rewrite length_updz|]. intros j es' c' Hj Hc'.
  rewrite lookupz_updz in Hc' by lia. case_decide; [|by apply (Hc j)]. subst. injection Hc' as <-. congruence.
Qed.

Lemma mid_lookupz {A} (l1 : list A) x l2 : (l1 ++ x :: l2) !z zlen l1 = Some x.
Proof. by apply lookupz_mid. Qed.

(** What is found is in the place that the result names. *)
Definition found (ess : list (list dirent)) (name : list Z) (type : lookup_type) (idx inode : Z) (ds ds' : option dirstat) : Prop :=
  ∃ bs1 es1 e es2 bs2 off, entry_at DIRBLKSIZ ess idx off bs1 es1 e es2 bs2 ∧ hit name e ∧ inode = e_inode e
    ∧ (type = REMOVE ∨ type = RENAME → ds ≠ None →
       ∃ prev nb, ds' = Some (mk_ds type HERE_TIS idx off prev nb) ∧ prev_ok (idx * DIRBLKSIZ) es1 prev).

Lemma dirscanblock_ok bs1 es bs2 ess idx name type ds dp :
  dirnode_ok dp ess → ess = bs1 ++ es :: bs2 → idx = zlen bs1 → name_ok name → name ≠ [] →
  ∃ r ds' dp', dirscanblock DIRBLKSIZ idx name type ds dp = Some (r, ds', dp')
    ∧ dirnode_ok dp' ess ∧ dir_idx dp' = dir_idx dp ∧ dir_space dp' = dir_space dp
    ∧ match r with
      | Some inode => found ess name type idx inode ds ds'
      | None => Forall (λ e, ¬ hit name e) es ∧ (ds' = None ↔ ds = None)
          ∧ (good DIRBLKSIZ (EXT2_DIR_REC_LEN (zlen name)) ess ds → good DIRBLKSIZ (EXT2_DIR_REC_LEN (zlen name)) ess ds')
      end.
Proof.
  intros Hdp Hess -> Hname Hne. unfold dirscanblock. set (look := match ds with Some _ => _ | None => _ end).
  set (needed := EXT2_DIR_REC_LEN (zlen name)). set (nd := if look then needed else 0).
  rewrite (dn_mem dp ess Hdp). pose proof (dn_dir dp ess Hdp) as Hok.
  assert (Hs0 : scanned DIRBLKSIZ ess needed nd ds [] (mk_scan ds 0 0 look look false 0)).
  { split; simpl; try done. intros Hl. unfold nd. rewrite Hl. split_and!; try done. by destruct ds. }
  assert (Hblk : block_ok DIRBLKSIZ es) by (by apply (dir_block_in DIRBLKSIZ ess bs1 es bs2)).
  destruct (scan_loop_ok DIRBLKSIZ ess bs1 es bs2 name needed nd ds Hess Hok Hname Hne (S (Z.to_nat DIRBLKSIZ)) es [] None _ eq_refl Hs0)
    as (r & s & Hscan & Hres); [done|destruct Hblk; lia|]. change (encs []) with (@nil Z) in Hscan. simpl length in Hscan.
  rewrite Z.add_0_r in Hscan. rewrite Hscan. cbn [mbind option_bind]. clear Hscan.
  assert (Hmc : ∀ pre, pre `prefix_of` es → scanned DIRBLKSIZ ess needed nd ds pre s →
    (maybe_compress (zlen bs1 * DIRBLKSIZ) (zlen bs1) s = None ↔ ds = None)
    ∧ (good DIRBLKSIZ needed ess ds → good DIRBLKSIZ needed ess (maybe_compress (zlen bs1 * DIRBLKSIZ) (zlen bs1) s))).
  { intros pre [suf Hpre] [_ _ _ Hco Hg Hsame]. unfold maybe_compress. destruct (sc_ds s) as [ds1|]; [|done].
    case_decide as Hdec; [|done]. split; [by rewrite <-Hsame|]. intros Hgd. right. split; [done|]. simpl.
    exists bs1, es, bs2. split_and!; try done. destruct Hdec as [Hc _]. specialize (Hco Hc). rewrite Hpre, rooms_app.
    destruct Hblk as [Hall _]. rewrite Hpre in Hall. apply Forall_app in Hall as [_ Hall]. pose proof (rooms_nonneg suf Hall). lia. }
  destruct r as [| |off prev inode]; [done| |].
  - destruct Hres as [Hall Hs]. simpl in Hs. pose proof (the_dirents_ok dp ess Hdp) as Hcnt. pose proof Hcnt as [Hl Hc].
    rewrite (alloc_dirents_ok false dp ess Hdp). cbn [mbind option_bind].
    assert (Hes : ess !z zlen bs1 = Some es) by (rewrite Hess; apply mid_lookupz). pose proof (lookupz_lt _ _ _ Hes) as Hlt.
    destruct (lookupz_is_Some (the_dirents DIRBLKSIZ dp) (zlen bs1)) as [old Hold]; [lia|]. rewrite Hold. cbn [mbind option_bind].
    rewrite (sn_count _ _ _ _ _ _ _ Hs), decide_True by (by apply (Hc (zlen bs1))). unfold storez. rewrite decide_True by lia.
    cbn [mbind option_bind]. do 3 eexists. split; [done|]. destruct (Hmc es) as [Hn Hg]; [done|done|].
    split_and!; try done. destruct Hdp as [H1 H2 H3 H4 _ H6]. split; try done. simpl. by apply counts_ok_store with es; [| |right].
  - destruct Hres as (a & e & b & Hes & Hhit & -> & -> & Hprev & Hs). simpl in *. do 3 eexists. split; [done|]. split_and!; try done.
    destruct (Hmc (a ++ [e])) as [Hn _]; [exists b; by rewrite <-app_assoc|done|].
    exists bs1, a, e, b, bs2, (zlen bs1 * DIRBLKSIZ + zlen (encs a)). split_and!; try done; [split; [by rewrite Hess, Hes|done|done]|].
    intros Ht Hds. destruct (maybe_compress _ _ s) as [ds1|]; [|by destruct Hds; apply Hn].
    exists prev, (ds_nbytes ds1). by destruct Ht as [-> | ->].
Qed.
End lookup.

Section lookup_all.
Context (DIRBLKSIZ : Z) (ess : list (list dirent)) (name : list Z) (type : lookup_type).
Hypothesis HBLK : 264 ≤ DIRBLKSIZ < 2 ^ 16 ∧ DIRBLKSIZ mod 4 = 0.
Hypothesis Hname : name_ok name.
Hypothesis Hne : name ≠ [].

Abbreviation needed := (EXT2_DIR_REC_LEN (zlen name)).

Definition not_in (i : Z) : Prop := ∀ es, ess !z i = Some es → Forall (λ e, ¬ hit name e) es.

Definition looked (ds : option dirstat) (r : option Z) (ds' : option dirstat) : Prop :=
  match r with
  | Some inode => ∃ idx, found DIRBLKSIZ ess name type idx inode ds ds'
  | None => (∀ i, not_in i) ∧ (ds' = None ↔ ds = None) ∧ (good DIRBLKSIZ needed ess ds → good DIRBLKSIZ needed ess ds')
  end.

(** One block, and what is left to do. *)
Lemma lookup_block_ok idx ds dp :
  dirnode_ok DIRBLKSIZ dp ess → 0 ≤ idx < zlen ess →
  ∃ r ds' dp', dirscanblock DIRBLKSIZ idx name type ds dp = Some (r, ds', dp') ∧ dirnode_ok DIRBLKSIZ dp' ess
    ∧ dir_space dp' = dir_space dp
    ∧ match r with
      | Some inode => found DIRBLKSIZ ess name type idx inode ds ds'
      | None => not_in idx ∧ (ds' = None ↔ ds = None) ∧ (good DIRBLKSIZ needed ess ds → good DIRBLKSIZ needed ess ds')
      end.
Proof.
  intros Hdp Hi. destruct (lookupz_is_Some ess idx Hi) as [es Hes].
  assert (∃ bs1 bs2, ess = bs1 ++ es :: bs2 ∧ idx = zlen bs1) as (bs1 & bs2 & He & Hidx).
  { unfold lookupz in Hes. case_decide; [|done]. apply list_elem_of_split_length in Hes as (bs1 & bs2 & -> & Hl).
    exists bs1, bs2. split; [done|lia]. }
  destruct (dirscanblock_ok DIRBLKSIZ HBLK bs1 es bs2 ess idx name type ds dp Hdp He Hidx Hname Hne)
    as (r & ds' & dp' & -> & Hdp' & _ & Ha & Hr). exists r, ds', dp'. split_and!; try done.
  destruct r; [done|]. destruct Hr as (Hall & Hr). split; [|done]. intros es' Hes'. congruence.
Qed.

Lemma lookup_loop_ok fuel : ∀ (looped : bool) idx lastidx ds dp,
  dirnode_ok DIRBLKSIZ dp ess → 0 ≤ lastidx ≤ zlen ess →
  (if looped then 0 ≤ idx ≤ lastidx ∧ lastidx - idx < Z.of_nat fuel ∧ (∀ i, i < idx ∨ lastidx ≤ i → not_in i)
   else lastidx ≤ idx < zlen ess ∧ zlen ess - idx + lastidx < Z.of_nat fuel ∧ (∀ i, lastidx ≤ i < idx → not_in i)) →
  ∃ r ds' dp', lookup_loop DIRBLKSIZ fuel looped idx lastidx name type ds dp = Some (r, ds', dp')
    ∧ dirnode_ok DIRBLKSIZ dp' ess ∧ dir_space dp' = dir_space dp ∧ looked ds r ds'.
Proof.
  induction fuel as [|fuel IH]; intros looped idx lastidx ds dp Hdp Hlast Hphase; [destruct looped; lia|]. cbn [lookup_loop].
  destruct (negb looped || bool_decide (idx < lastidx)) eqn:Hgo.
  2:{ apply orb_false_iff in Hgo as [->%negb_false_iff Hge%bool_decide_eq_false]. exists None, ds, dp. split_and!; try done.
      split; [|done]. intros i. apply Hphase. lia. }
  assert (Hi : 0 ≤ idx < zlen ess).
  { apply orb_true_iff in Hgo as [->%negb_true_iff|Hlt%bool_decide_eq_true]; [lia|]. destruct looped; lia. }
  destruct (lookup_block_ok idx ds dp Hdp Hi) as (r & ds1 & dp1 & -> & Hdp1 & Ha1 & Hr). cbn [mbind option_bind].
  destruct r as [inode|].
  { do 3 eexists. split; [done|]. split; [|split; [done|by exists idx]]. destruct Hdp1. split; try done. simpl. lia. }
  destruct Hr as (Hn & Hds & Hg). destruct (size_ok DIRBLKSIZ HBLK dp1 ess Hdp1) as [-> _].
  assert (Hnext : ∀ looped' idx', (if looped' : bool then
      0 ≤ idx' ≤ lastidx ∧ lastidx - idx' < Z.of_nat fuel ∧ (∀ i, i < idx' ∨ lastidx ≤ i → not_in i)
    else lastidx ≤ idx' < zlen ess ∧ zlen ess - idx' + lastidx < Z.of_nat fuel ∧ (∀ i, lastidx ≤ i < idx' → not_in i)) →
    ∃ r ds' dp', lookup_loop DIRBLKSIZ fuel looped' idx' lastidx name type ds1 dp1 = Some (r, ds', dp')
      ∧ dirnode_ok DIRBLKSIZ dp' ess ∧ dir_space dp' = dir_space dp ∧ looked ds r ds').
  { intros looped' idx' Hp'. destruct (IH looped' idx' lastidx ds1 dp1 Hdp1 Hlast Hp') as (r & ds' & dp' & -> & Hdp' & Ha' & Hl).
    exists r, ds', dp'. split_and!; [done|done|congruence|]. destruct r as [inode|]; simpl in *.
    - destruct Hl as (j & bs1 & es1 & e & es2 & bs2 & off & Hat & Hh & Hin & Hf). exists j, bs1, es1, e, es2, bs2, off.
      split_and!; try done. intros Ht Hd. apply Hf; [done|]. by rewrite Hds.
    - destruct Hl as (Hall & Hd & Hg'). split_and!; [done|by rewrite Hd|]. intros H. by apply Hg', Hg. }
  destruct looped; cbn [negb].
  - rewrite andb_false_r. apply Hnext. destruct Hphase as (H1 & H2 & H3). apply orb_true_iff in Hgo as [?|Hlt%bool_decide_eq_true]; [done|].
    split_and!; [lia|lia|lia|]. intros i Hii. destruct (decide (i = idx)) as [->|]; [done|]. apply H3. lia.
  - rewrite andb_true_r. clear Hgo. destruct Hphase as (H1 & H2 & H3). case_bool_decide as Hend; apply Hnext.
    + split_and!; [lia|lia|lia|]. intros i [Hneg|Hge].
      * intros es Hes. apply lookupz_lt in Hes. lia.
      * destruct (decide (i < idx)); [apply H3; lia|]. destruct (decide (i = idx)) as [->|]; [done|].
        intros es Hes. apply lookupz_lt in Hes. nia.
    + split_and!; [lia|nia|nia|]. intros i Hii. destruct (decide (i = idx)) as [->|]; [done|]. apply H3. lia.
Qed.
End lookup_all.

(** ** What is in the map *)
Lemma pairs_app es es' : pairs (es ++ es') = pairs es ++ pairs es'.
Proof. unfold pairs. by rewrite filter_app, fmap_app. Qed.

Lemma pairs_dead e es : e_inode e = 0 → pairs (e :: es) = pairs es.
Proof. intros He. unfold pairs. by rewrite filter_cons_False by (intros H; by apply H). Qed.

Lemma pairs_live e es : live e → pairs (e :: es) = (e_name e, e_inode e) :: pairs es.
Proof. intros He. unfold pairs. by rewrite filter_cons_True. Qed.

Lemma elem_of_pairs name inode es : (name, inode) ∈ pairs es ↔ ∃ e, e ∈ es ∧ hit name e ∧ e_inode e = inode.
Proof.
  unfold pairs. rewrite list_elem_of_fmap. unfold hit. split.
  - intros (e & [= -> ->] & [Hl He]%list_elem_of_filter). by exists e.
  - intros (e & He & [Hl <-] & <-). exists e. split; [done|]. by apply list_elem_of_filter.
Qed.

Lemma contents_hit ess e name :
  NoDup (pairs (concat ess)).*1 → e ∈ concat ess → hit name e → contents ess !! name = Some (e_inode e).
Proof. intros Hnd He Hh. apply elem_of_list_to_map_1; [done|]. apply elem_of_pairs. by exists e. Qed.

Lemma contents_none ess name : (∀ i, not_in ess name i) → contents ess !! name = None.
Proof.
  intros Hno. apply not_elem_of_list_to_map_1. rewrite list_elem_of_fmap. intros ([nm inode] & -> & Hin). simpl in *.
  apply elem_of_pairs in Hin as (e & He & Hh & _). apply list_elem_of_In, in_concat in He as (es & Hes & Hee).
  apply list_elem_of_In, elem_of_lookupz in Hes as [i Hi]. specialize (Hno i es Hi). rewrite Forall_forall in Hno.
  by apply (Hno e); [apply list_elem_of_In|].
Qed.

Lemma entry_in BLK ess idx off bs1 es1 e es2 bs2 : entry_at BLK ess idx off bs1 es1 e es2 bs2 → e ∈ concat ess.
Proof. intros [-> _ _]. rewrite concat_app. simpl. set_solver. Qed.

(** ** Looking up *)
Lemma lookup_name_ok BLK ess name type ds dp :
  264 ≤ BLK < 2 ^ 16 ∧ BLK mod 4 = 0 → name_ok name → name ≠ [] → dirnode_ok BLK dp ess →
  ∃ r ds' dp', lookup_name BLK name type ds dp = Some (r, ds', dp') ∧ dirnode_ok BLK dp' ess ∧ dir_space dp' = dir_space dp
    ∧ match contents ess !! name with
      | Some inode => r = inr inode ∧ ∃ idx, found BLK ess name type idx inode ds ds'
      | None => r = inl ENOENT
          ∧ (type = CREATE ∨ type = RENAME → ds ≠ None →
             ∃ ds1, ds' = Some ds1 ∧ slot_ok BLK (EXT2_DIR_REC_LEN (zlen name)) ess ds1)
      end.
Proof.
  intros HBLK Hname Hne Hdp. unfold lookup_name. rewrite decide_False by (destruct Hname; lia).
  destruct (size_ok BLK HBLK dp ess Hdp) as [Hsz Hn]. rewrite Hn, Hsz.
  set (ds1 := if decide (type = CREATE ∨ type = RENAME) then _ else _).
  assert (Hds1 : (ds1 = None ↔ ds = None) ∧ (type = CREATE ∨ type = RENAME → good BLK (EXT2_DIR_REC_LEN (zlen name)) ess ds1)).
  { unfold ds1. case_decide; destruct ds; simpl; split; try done; intros _; by left. }
  assert (Hidx : (if decide (zlen ess * BLK < dir_idx dp * BLK) then 0 else dir_idx dp) = dir_idx dp).
  { rewrite decide_False; [done|]. destruct (dn_idx _ _ _ Hdp); nia. }
  rewrite Hidx. clear Hidx. pose proof (dn_idx _ _ _ Hdp) as Hdi.
  destruct (lookup_loop_ok BLK ess name type HBLK Hname Hne (S (S (Z.to_nat (zlen ess)))) (bool_decide (dir_idx dp = 0)) (dir_idx dp)
    (if decide (dir_idx dp = 0) then zlen ess else dir_idx dp) ds1 dp Hdp) as (r & ds' & dp' & -> & Hdp' & Ha & Hl).
  { destruct (decide (dir_idx dp = 0)); lia. }
  { case_bool_decide as H0; [rewrite decide_True by done|rewrite decide_False by done]; (split; [lia|split; [lia|]]).
    - intros i Hi es Hes. apply lookupz_lt in Hes. lia.
    - intros i Hi. lia. }
  cbn [mbind option_bind]. destruct r as [inode|].
  - destruct Hl as (idx & bs1 & es1 & e & es2 & bs2 & off & Hat & Hh & -> & Hf).
    do 3 eexists. split; [done|]. split_and!; try done.
    rewrite (contents_hit ess e name); [|apply Hdp|by apply entry_in in Hat|done]. split; [done|].
    exists idx, bs1, es1, e, es2, bs2, off. split_and!; try done. intros Ht Hd. apply Hf; [done|]. by rewrite (proj1 Hds1).
  - destruct Hl as (Hno & Hd & Hg). do 3 eexists. split; [done|]. split_and!; try done. rewrite contents_none by done. split; [done|].
    intros Ht Hd0. specialize (Hg (proj2 Hds1 Ht)). destruct ds' as [ds2|]; [|by destruct Hd0; apply Hds1, Hd].
    destruct (size_ok BLK HBLK dp' ess Hdp') as [_ ->]. case_decide as Hlk; eexists; (split; [done|]).
    + by split.
    + destruct Hg as [Hg|Hg]; [|done]. destruct Hlk. by split.
Qed.

(** ** Making room *)
(** The entry with no more bytes than it needs, and the bytes it gives up. *)
Definition shrink (e : dirent) : dirent :=
  mk_dirent (e_inode e) (e_type e) (e_name e) (take (Z.to_nat (need e - 8 - zlen (e_name e))) (e_pad e)).

Definition rest_pad (e : dirent) : list Z := drop (Z.to_nat (need e - 8 - zlen (e_name e))) (e_pad e).

Lemma shrink_ok e : dirent_ok e → dirent_ok (shrink e) ∧ rec_len (shrink e) = need e ∧ zlen (rest_pad e) = rec_len e - need e.
Proof.
  intros He. pose proof (need_le e He) as (H1 & H2 & H3). pose proof (de_len e He).
  assert (Hl : rec_len (shrink e) = need e) by (unfold shrink, rec_len in *; simpl; rewrite length_take; lia).
  split_and!; [|done|unfold rest_pad, rec_len in *; rewrite length_drop; lia].
  destruct He as [Hi Hn Hd]. split; [done|done|]. rewrite Hl. lia.
Qed.

(** What an entry needs, with length [len] in it. *)
Definition core (e : dirent) (len : Z) : list Z :=
  bytes32 (e_inode e) ++ bytes16 len ++ [zlen (e_name e); e_type e] ++ e_name e ++ e_pad (shrink e).

Lemma enc_core e : enc e = core e (rec_len e) ++ rest_pad e.
Proof. unfold enc, core, rest_pad. simpl e_pad. rewrite <-!app_assoc. do 4 f_equal. by rewrite take_drop. Qed.

Lemma enc_shrink e : dirent_ok e → enc (shrink e) = core e (need e).
Proof. intros He. destruct (shrink_ok e He) as (_ & Hl & _). unfold enc, core. by rewrite Hl. Qed.

Lemma zlen_core e len : dirent_ok e → zlen (core e len) = need e.
Proof.
  intros He. destruct (shrink_ok e He) as (_ & Hl & _). rewrite <-Hl. unfold core, rec_len. rewrite !length_app. simpl. lia.
Qed.

Lemma set_core pre e len len' post off :
  off = zlen pre → mem_write (off + 4) (bytes16 len') (pre ++ core e len ++ post) = Some (pre ++ core e len' ++ post).
Proof.
  intros ->. unfold core. rewrite <-!app_assoc, (app_assoc pre). rewrite (mem_write_mid _ (bytes16 len)); [|rewrite length_app; simpl; lia|done].
  by rewrite <-!app_assoc.
Qed.

(** The length of an entry in memory is set to what it needs. *)
Lemma set_rec_len pre e post off :
  dirent_ok e → off = zlen pre →
  mem_write (off + 4) (bytes16 (need e)) (pre ++ enc e ++ post) = Some (pre ++ enc (shrink e) ++ rest_pad e ++ post).
Proof. intros He Hoff. rewrite enc_core, <-app_assoc, enc_shrink by done. by apply set_core. Qed.

(** Room of [len] bytes behind [pre], with the length set. *)
Definition roomy (len : Z) (junk : list Z) : Prop :=
  ∃ a c, junk = a ++ bytes16 len ++ c ∧ zlen a = 4 ∧ zlen junk = len.

Lemma set_room pre junk post off len :
  off = zlen pre → zlen junk = len → 12 ≤ len →
  ∃ junk', mem_write (off + 4) (bytes16 len) (pre ++ junk ++ post) = Some (pre ++ junk' ++ post) ∧ roomy len junk'.
Proof.
  intros -> Hl Hlen. exists (take 4 junk ++ bytes16 len ++ drop 6 junk).
  assert (E : junk = take 4 junk ++ take 2 (drop 4 junk) ++ drop 6 junk).
  { rewrite <-(take_drop 4 junk) at 1. f_equal. rewrite <-(take_drop 2 (drop 4 junk)) at 1. f_equal. by rewrite drop_drop. }
  assert (Ht : zlen (take 4 junk) = 4) by (rewrite length_take; lia). split.
  - rewrite E at 1. rewrite <-!app_assoc, (app_assoc pre). rewrite (mem_write_mid _ (take 2 (drop 4 junk))).
    + by rewrite <-!app_assoc.
    + rewrite length_app. lia.
    + rewrite length_take, length_drop. change (length (bytes16 len)) with 2%nat. lia.
  - eexists _, _. split; [done|]. split; [done|]. rewrite !length_app, length_take, length_drop. change (length (bytes16 len)) with 2%nat. lia.
Qed.

(** The new entry is written into the room. *)
Lemma fill_room pre junk post off len inum name :
  off = zlen pre → roomy len junk → EXT2_DIR_REC_LEN (zlen name) ≤ len → len mod 4 = 0 → len < 2 ^ 16 →
  0 ≤ inum < 2 ^ 32 → name_ok name →
  ∃ e, (d ← mem_write off (bytes32 inum) (pre ++ junk ++ post);
        d ← mem_write (off + 6) [zlen name; 0] d; mem_write (off + 8) name d) = Some (pre ++ enc e ++ post)
    ∧ e_inode e = inum ∧ e_name e = name ∧ dirent_ok e ∧ rec_len e = len.
Proof.
  intros -> (a & c & -> & Ha & Hl) Hneed Hm Hlt Hi Hn. rewrite rec_len_round in Hneed.
  assert (Hc : 2 + zlen name ≤ zlen c).
  { rewrite !length_app in Hl. simpl length in Hl. Z.div_mod_to_equations. lia. }
  set (pad := drop (length name) (drop 2 c)).
  assert (E : c = take 2 c ++ take (length name) (drop 2 c) ++ pad).
  { rewrite <-(take_drop 2 c) at 1. f_equal. by rewrite <-(take_drop (length name) (drop 2 c)) at 1. }
  assert (Hpad : zlen pad = zlen c - 2 - zlen name) by (unfold pad; rewrite !length_drop; lia).
  exists (mk_dirent inum 0 name pad). assert (Hrl : rec_len (mk_dirent inum 0 name pad) = len).
  { unfold rec_len. simpl. rewrite !length_app in Hl. simpl length in Hl. lia. }
  split; [|split_and!; try done; split; try done; by rewrite Hrl].
  unfold enc. rewrite Hrl. simpl e_inode. simpl e_name. simpl e_type. simpl e_pad. rewrite E. clear E. rewrite <-!app_assoc.
  rewrite mem_write_mid by done. cbn [mbind option_bind].
  rewrite (app_assoc pre), (app_assoc (pre ++ _)), (mem_write_mid _ (take 2 c)).
  2:{ rewrite !length_app. simpl. lia. }
  2:{ rewrite length_take. change (length [zlen name; 0]) with 2%nat. lia. }
  cbn [mbind option_bind]. rewrite (app_assoc _ [zlen name; 0]), (mem_write_mid _ (take (length name) (drop 2 c))).
  - by rewrite <-!app_assoc.
  - rewrite !length_app. simpl. lia.
  - rewrite length_take, length_drop. lia.
Qed.

Definition compact (es : list dirent) : list dirent := shrink <$> filter (λ e, live e) es.

Lemma pairs_compact es : pairs (compact es) = pairs es.
Proof.
  unfold compact. induction es as [|e es IH]; [done|]. destruct (decide (e_inode e = 0)) as [H0|H0].
  - by rewrite pairs_dead, filter_cons_False by (done || by intros H; apply H).
  - rewrite (pairs_live e), filter_cons_True, fmap_cons, pairs_live by done. by rewrite IH.
Qed.

Lemma compact_ok es : Forall dirent_ok es → Forall dirent_ok (compact es).
Proof.
  intros Hall. unfold compact. apply Forall_fmap, Forall_forall. intros e [_ He]%list_elem_of_filter. rewrite Forall_forall in Hall.
  by apply shrink_ok, Hall.
Qed.

Lemma encs_snoc es e : encs (es ++ [e]) = encs es ++ enc e.
Proof. rewrite encs_app. unfold encs at 2. simpl. by rewrite app_nil_r. Qed.

Lemma compress_loop_ok A B fuel : ∀ rest done gap fromoff tooff last,
  Forall dirent_ok rest → tooff = zlen (A ++ encs done) → fromoff = tooff + zlen gap → last = fromoff + zlen (encs rest) →
  (length rest < fuel)%nat →
  ∃ gap', compress_loop fuel last fromoff tooff (A ++ encs done ++ gap ++ encs rest ++ B)
      = Some (zlen (A ++ encs (done ++ compact rest)), A ++ encs (done ++ compact rest) ++ gap' ++ B)
    ∧ zlen gap' = zlen gap + rooms rest.
Proof.
  induction fuel as [|fuel IH]; intros rest done gap fromoff tooff last Hall Hto Hfrom Hlast Hfuel; [lia|]. cbn [compress_loop].
  destruct rest as [|e rest].
  { rewrite decide_False by (simpl in *; lia). exists gap. unfold compact. simpl. rewrite app_nil_r. split; [by subst|lia]. }
  apply Forall_cons in Hall as [He Hall]. pose proof (rec_len_pos e). pose proof (zlen_enc e) as Hze.
  rewrite encs_cons, length_app in Hlast. rewrite decide_True by lia. rewrite encs_cons, <-!app_assoc.
  assert (Hpre : fromoff = zlen (A ++ encs done ++ gap)) by (rewrite Hfrom, Hto, !length_app; lia).
  assert (Hd : A ++ encs done ++ gap ++ enc e ++ encs rest ++ B = (A ++ encs done ++ gap) ++ enc e ++ encs rest ++ B)
    by (by rewrite <-!app_assoc).
  rewrite Hd, rec_len_at_ok, inode_at_ok by done. cbn [mbind option_bind]. destruct (decide (e_inode e ≠ 0)) as [Hlive|Hdead].
  - rewrite decide_True by lia. rewrite mem_read_mid by done. cbn [mbind option_bind].
    set (X := gap ++ enc e). set (G := drop (Z.to_nat (rec_len e)) X).
    assert (HX : zlen X = zlen gap + rec_len e) by (unfold X; rewrite length_app; lia).
    assert (HG : zlen G = zlen gap) by (unfold G; rewrite length_drop; lia).
    assert (Hd2 : (A ++ encs done ++ gap) ++ enc e ++ encs rest ++ B
      = (A ++ encs done) ++ take (Z.to_nat (rec_len e)) X ++ G ++ encs rest ++ B).
    { unfold G. rewrite (app_assoc (take _ X)), take_drop. unfold X. by rewrite <-!app_assoc. }
    rewrite Hd2, mem_write_mid by (done || (rewrite length_take; lia)). cbn [mbind option_bind].
    rewrite name_len_at_ok by done. cbn [mbind option_bind]. rewrite set_rec_len by done. cbn [mbind option_bind].
    destruct (shrink_ok e He) as (Hsok & Hsl & Hrp). rewrite rec_len_at_ok by done. cbn [mbind option_bind]. rewrite Hsl.
    replace ((A ++ encs done) ++ enc (shrink e) ++ rest_pad e ++ G ++ encs rest ++ B)
      with (A ++ encs (done ++ [shrink e]) ++ (rest_pad e ++ G) ++ encs rest ++ B) by (by rewrite encs_snoc, <-!app_assoc).
    destruct (IH rest (done ++ [shrink e]) (rest_pad e ++ G) (fromoff + rec_len e) (tooff + need e) last) as (gap' & -> & Hgap).
    + done.
    + rewrite encs_snoc, app_assoc, (length_app (A ++ _)). pose proof (zlen_enc (shrink e)). lia.
    + rewrite length_app. lia.
    + lia.
    + simpl in Hfuel. lia.
    + exists gap'. unfold compact. rewrite filter_cons_True by done. rewrite fmap_cons, <-app_assoc. split; [done|].
      rewrite Hgap, length_app. simpl rooms. unfold room. rewrite decide_False by done. lia.
  - replace ((A ++ encs done ++ gap) ++ enc e ++ encs rest ++ B) with (A ++ encs done ++ (gap ++ enc e) ++ encs rest ++ B)
      by (by rewrite <-!app_assoc).
    destruct (IH rest done (gap ++ enc e) (fromoff + rec_len e) tooff last) as (gap' & -> & Hgap); [done|done| |lia|simpl in Hfuel; lia|].
    + rewrite length_app. lia.
    + exists gap'. unfold compact. rewrite filter_cons_False by done. split; [done|].
      rewrite Hgap, length_app. simpl rooms. unfold room. rewrite decide_True by lia. lia.
Qed.

Lemma encs_length es : Forall dirent_ok es → 8 * Z.of_nat (length es) ≤ zlen (encs es).
Proof.
  induction 1 as [|e es He _ IH]; [done|]. rewrite encs_cons, length_app. pose proof (rec_len_pos e). pose proof (zlen_enc e). simpl length. lia.
Qed.

Lemma compact_len es : Forall dirent_ok es → zlen (encs (compact es)) + rooms es = zlen (encs es).
Proof.
  unfold compact. induction 1 as [|e es He _ IH]; [done|]. rewrite encs_cons, length_app. simpl rooms. unfold room.
  pose proof (zlen_enc e). destruct (decide (e_inode e = 0)) as [H0|H0].
  - rewrite filter_cons_False by (by intros H'; apply H'). lia.
  - rewrite filter_cons_True, fmap_cons, encs_cons, length_app by done. pose proof (zlen_enc (shrink e)).
    destruct (shrink_ok e He) as (_ & Hl & _). lia.
Qed.

(** ** Entering *)
Section enter.
Context (v : volume) (BLK : Z) (memset : Z → option dir_error).
Hypothesis Hv : volume_ok v.
Hypothesis HBLK : 264 ≤ BLK < 2 ^ 16 ∧ BLK mod 4 = 0.

Abbreviation long := (v_long v).

(** The directory can have one more block, or is too large to be mapped with it. *)
Definition can_grow (dp : dirnode) : Prop :=
  space_ok v (dir_space dp) ∧ (grow_size_ok v (st_size dp + BLK) ∨ 2 ^ long ≤ st_size dp + BLK).

(** Why an entry cannot be made: the directory gets too large, or the disk is full, or
    the new block cannot be written. *)
Definition no_room (dp : dirnode) (e : dir_error) : Prop :=
  e = EOVERFLOW ∧ 2 ^ long ≤ st_size dp + BLK
  ∨ e = ENOSPC ∧ (∃ sp, diskfs_grow v (st_size dp + BLK) (dir_space dp) = Some (Some Getblk.ENOSPC, sp))
  ∨ (∃ off e', memset off = Some e' ∧ e = if decide (e' = EKERN_MEMORY_ERROR) then ENOSPC else e').

(** The directory with room for an entry in a block. *)
Record room_made (needed : Z) (ess : list (list dirent)) (idx new : Z) (d : list Z) (bs1 : list (list dirent))
    (es1 es2 : list dirent) (bs2 : list (list dirent)) (len : Z) (junk : list Z) : Prop := {
  rm_bytes : d = (bytes_of bs1 ++ encs es1) ++ junk ++ encs es2 ++ bytes_of bs2;
  rm_new : new = zlen (bytes_of bs1 ++ encs es1);
  rm_junk : roomy len junk;
  rm_len : needed ≤ len ∧ len mod 4 = 0 ∧ len < 2 ^ 16;
  rm_idx : idx = zlen bs1;
  rm_blocks : dir_ok BLK bs1 ∧ dir_ok BLK bs2 ∧ Forall dirent_ok (es1 ++ es2) ∧ zlen (encs es1) + len + zlen (encs es2) = BLK
}.

Lemma mod4_len es : Forall dirent_ok es → zlen (encs es) mod 4 = 0.
Proof.
  induction 1 as [|e es He _ IH]; [done|]. rewrite encs_cons, length_app, Nat2Z.inj_add, (zlen_enc e).
  destruct (de_len e He) as [Hm _]. rewrite Z.add_mod, Hm, IH by lia. done.
Qed.

(** What is kept of the directory. *)
Definition kept (ess : list (list dirent)) (ds : dirstat) (bs1 : list (list dirent)) (es1 es2 : list dirent)
    (bs2 : list (list dirent)) : Prop :=
  if decide (ds_stat ds = EXTEND) then bs1 = ess ∧ es1 = [] ∧ es2 = [] ∧ bs2 = []
  else ∃ es, ess = bs1 ++ es :: bs2 ∧ pairs (es1 ++ es2) = pairs es.

Definition made (needed : Z) (ess : list (list dirent)) (ds : dirstat) (dp : dirnode) (new : Z) (dp1 : dirnode) : Prop :=
  dir_idx dp1 = dir_idx dp ∧ dirents dp1 = dirents dp ∧ file_updates dp1 = file_updates dp ∧ oracle dp1 = oracle dp
  ∧ (space_ok v (dir_space dp) → space_ok v (dir_space dp1)) ∧
  ∃ bs1 es1 es2 bs2 len junk, room_made needed ess (ds_idx ds) new (mem dp1) bs1 es1 es2 bs2 len junk ∧ kept ess ds bs1 es1 es2 bs2.

Lemma dir_ok_split bs1 es bs2 : dir_ok BLK (bs1 ++ es :: bs2) → dir_ok BLK bs1 ∧ block_ok BLK es ∧ dir_ok BLK bs2.
Proof. intros [H1 [H2 H3]%Forall_cons]%Forall_app. done. Qed.

Lemma enc_roomy e : roomy (rec_len e) (enc e).
Proof. eexists (bytes32 (e_inode e)), _. split; [done|]. split; [done|apply zlen_enc]. Qed.

Lemma make_take needed ess ds dp :
  dirnode_ok BLK dp ess → ds_stat ds = TAKE → slot_ok BLK needed ess ds →
  make_room v BLK memset needed ds dp = Some (inr (ds_entry ds), dp) ∧ made needed ess ds dp (ds_entry ds) dp.
Proof.
  intros Hdp Hst [_ Hslot]. rewrite Hst in Hslot. destruct Hslot as (bs1 & es1 & e & es2 & bs2 & [He Hi Ho] & H0 & Hn).
  pose proof (dn_dir _ _ _ Hdp) as Hok. destruct (bytes_around BLK ess bs1 _ bs2 He Hok es1 e es2 eq_refl) as (Hb & Hl & Hde & Hsum).
  rewrite <-Hi, <-Ho in Hl. unfold make_room. rewrite Hst, (dn_mem _ _ _ Hdp), Hb.
  rewrite inode_at_ok, rec_len_at_ok by done. cbn [mbind option_bind]. rewrite decide_True by done. split; [done|].
  split_and!; try done. exists bs1, es1, es2, bs2, (rec_len e), (enc e). rewrite (dn_mem _ _ _ Hdp), Hb.
  rewrite He in Hok. destruct (dir_ok_split _ _ _ Hok) as (H1 & [H2 _] & H3). apply Forall_app in H2 as [H2 [_ H4]%Forall_cons].
  destruct (de_len e Hde). split.
  - split; try done; [apply enc_roomy|]. split_and!; try done. by apply Forall_app.
  - unfold kept. rewrite decide_False by congruence. exists (es1 ++ e :: es2). split; [done|]. by rewrite !pairs_app, pairs_dead.
Qed.

Lemma make_shrink needed ess ds dp :
  dirnode_ok BLK dp ess → 12 ≤ needed → ds_stat ds = SHRINK → slot_ok BLK needed ess ds →
  ∃ new dp1, make_room v BLK memset needed ds dp = Some (inr new, dp1) ∧ made needed ess ds dp new dp1.
Proof.
  intros Hdp H12 Hst [_ Hslot]. rewrite Hst in Hslot. destruct Hslot as (bs1 & es1 & e & es2 & bs2 & [He Hi Ho] & Hlive & Hn).
  pose proof (dn_dir _ _ _ Hdp) as Hok. destruct (bytes_around BLK ess bs1 _ bs2 He Hok es1 e es2 eq_refl) as (Hb & Hl & Hde & Hsum).
  rewrite <-Hi, <-Ho in Hl. unfold make_room. rewrite Hst, (dn_mem _ _ _ Hdp), Hb.
  rewrite name_len_at_ok, rec_len_at_ok by done. cbn [mbind option_bind]. rewrite decide_True by lia.
  set (pre := bytes_of bs1 ++ encs es1) in *. set (post := encs es2 ++ bytes_of bs2).
  destruct (shrink_ok e Hde) as (Hsok & Hsl & Hrp). pose proof (need_le e Hde) as (Hnl & Hn4 & _).
  rewrite enc_core, <-app_assoc, (app_assoc pre).
  destruct (set_room (pre ++ core e (rec_len e)) (rest_pad e) post (ds_entry ds + need e) (rec_len e - need e)) as (junk & -> & Hjunk);
    [rewrite length_app, Nat2Z.inj_add, zlen_core by done; lia|done|lia|].
  cbn [mbind option_bind]. rewrite <-app_assoc, set_core by done. cbn [mbind option_bind]. do 2 eexists. split; [done|].
  split_and!; try done. exists bs1, (es1 ++ [shrink e]), es2, bs2, (rec_len e - need e), junk.
  rewrite He in Hok. destruct (dir_ok_split _ _ _ Hok) as (H1 & [H2 _] & H3). apply Forall_app in H2 as [H2 [_ H4]%Forall_cons].
  destruct (de_len e Hde) as [Hm Hlt]. pose proof (zlen_enc (shrink e)) as Hzs. pose proof (rec_len_pos e). split.
  - split; cbn [mem set_mem]; try done.
    + unfold pre, post. rewrite encs_snoc, enc_shrink by done. by rewrite <-!app_assoc.
    + rewrite encs_snoc, app_assoc, length_app. fold pre. lia.
    + split_and!; [done| |lia]. rewrite Zminus_mod, Hm, Hn4. done.
    + split_and!; try done; [by rewrite <-app_assoc, Forall_app, Forall_app; split_and!; [|constructor|]|]. rewrite encs_snoc, length_app. lia.
  - unfold kept. rewrite decide_False by congruence. exists (es1 ++ e :: es2). split; [done|].
    rewrite !pairs_app, (pairs_live e es2), (pairs_live (shrink e)) by done. by rewrite <-app_assoc.
Qed.

Lemma make_compress needed ess ds dp :
  dirnode_ok BLK dp ess → 12 ≤ needed → ds_stat ds = COMPRESS → slot_ok BLK needed ess ds →
  ∃ new dp1, make_room v BLK memset needed ds dp = Some (inr new, dp1) ∧ made needed ess ds dp new dp1.
Proof.
  intros Hdp H12 Hst [_ Hslot]. rewrite Hst in Hslot. destruct Hslot as (bs1 & es & bs2 & He & Hi & Ho & Hn).
  pose proof (dn_dir _ _ _ Hdp) as Hok. pose proof Hok as Hok'. rewrite He in Hok'.
  destruct (dir_ok_split _ _ _ Hok') as (H1 & [H2 Hlen] & H3).
  assert (Hb : mem dp = bytes_of bs1 ++ encs [] ++ [] ++ encs es ++ bytes_of bs2).
  { rewrite (dn_mem _ _ _ Hdp), He, bytes_of_app. done. }
  assert (Hent : ds_entry ds = zlen (bytes_of bs1 ++ encs [])).
  { change (encs []) with (@nil Z). rewrite app_nil_r, (zlen_bytes_of BLK) by done. congruence. }
  unfold make_room. rewrite Hst, Hb. pose proof (encs_length es H2) as Hel.
  destruct (compress_loop_ok (bytes_of bs1) (bytes_of bs2) (S (Z.to_nat BLK)) es [] [] (ds_entry ds) (ds_entry ds) (ds_entry ds + BLK))
    as (gap & -> & Hgap); [done|done|simpl; lia|lia|lia|]. cbn [mbind option_bind]. rewrite app_nil_l in *. simpl in Hgap.
  assert (Hsum : zlen (encs (compact es)) + rooms es = BLK) by (rewrite <-Hlen; by apply compact_len).
  assert (Htot : ds_entry ds + BLK - zlen (bytes_of bs1 ++ encs (compact es)) = rooms es).
  { rewrite Hent, !length_app. simpl. lia. }
  rewrite Htot, decide_True by lia. rewrite (app_assoc (bytes_of bs1)).
  destruct (set_room (bytes_of bs1 ++ encs (compact es)) gap (bytes_of bs2) _ (rooms es) eq_refl) as (junk & -> & Hjunk); [lia|lia|].
  cbn [mbind option_bind]. do 2 eexists. split; [done|]. split_and!; try done.
  exists bs1, (compact es), [], bs2, (rooms es), junk. pose proof (compact_ok es H2) as Hcok. split.
  - split; cbn [mem set_mem]; try done.
    + split_and!; [done| |pose proof (rooms_nonneg es H2); lia]. pose proof (mod4_len _ Hcok) as Hm. destruct HBLK as [_ HB].
      replace (rooms es) with (BLK - zlen (encs (compact es))) by lia. by rewrite Zminus_mod, HB, Hm.
    + split_and!; try done; [by rewrite app_nil_r|]. simpl. lia.
  - unfold kept. rewrite decide_False by congruence. exists es. split; [done|]. by rewrite app_nil_r, pairs_compact.
Qed.

Lemma grow_loop_ok wanted sp :
  space_ok v sp → grow_size_ok v wanted →
  ∃ err sp', grow_loop v 3 wanted sp = Some (err, sp') ∧ space_ok v sp'
    ∧ match err with
      | Some e => e = ENOSPC ∧ ∃ sp1, diskfs_grow v wanted sp = Some (Some Getblk.ENOSPC, sp1)
      | None => True
      end.
Proof.
  intros Hsp Hw. cbn [grow_loop]. case_decide as H0; [|by do 2 eexists].
  destruct (diskfs_grow_twice v Hv wanted sp Hsp Hw H0) as (err & sp1 & -> & Hsp1 & Hres). cbn [mbind option_bind].
  destruct err as [e|]; [subst e; do 2 eexists; split; [done|]; eauto|].
  case_decide as H1; [|by do 2 eexists]. destruct (Hres H1) as (sp2 & -> & Hsp2 & Hle). cbn [mbind option_bind].
  rewrite decide_False by lia. by do 2 eexists.
Qed.

Lemma make_extend needed ess ds dp :
  dirnode_ok BLK dp ess → 12 ≤ needed ≤ BLK → ds_stat ds = EXTEND → slot_ok BLK needed ess ds → can_grow dp →
  ∃ r dp1, make_room v BLK memset needed ds dp = Some (r, dp1)
    ∧ match r with
      | inl e => no_room dp e ∧ dp1 = set_space (dir_space dp1) dp ∧ space_ok v (dir_space dp1)
      | inr new => made needed ess ds dp new dp1
      end.
Proof.
  intros Hdp H12 Hst [_ Hslot] [Hsp Hgrow]. rewrite Hst in Hslot. unfold make_room. rewrite Hst, decide_True by lia.
  assert (Hpow : 2 ^ 32 ≤ 2 ^ long) by (destruct (vo_long v Hv) as [-> | ->]; lia).
  destruct (decide (st_size dp + BLK < 2 ^ long)) as [Hfit|Hbig].
  2:{ rewrite decide_True; [do 2 eexists; split; [done|]; split; [left; split; [done|lia]|by destruct dp]|].
      pose proof (Z.mod_pos_bound (st_size dp mod 2 ^ long + BLK) (2 ^ long)). lia. }
  rewrite (Z.mod_small (st_size dp)), (Z.mod_small (_ + BLK)) by lia. rewrite decide_False by tauto.
  destruct (grow_loop_ok (st_size dp + BLK) (dir_space dp) Hsp) as (err & sp & -> & Hsp1 & Herr); [destruct Hgrow; [done|lia]|].
  cbn [mbind option_bind]. destruct err as [e|]; [do 2 eexists; split; [done|]; split; [by right; left|done]|].
  destruct (memset (st_size dp)) as [e|] eqn:Hms; [do 2 eexists; split; [done|]; split; [right; right; by do 2 eexists|done]|].
  destruct (set_room (mem dp) (replicate (Z.to_nat BLK) 0) [] (st_size dp) BLK eq_refl) as (junk & Hw & Hjunk);
    [rewrite length_replicate; lia|lia|]. rewrite !app_nil_r in Hw. rewrite Hw. cbn [mbind option_bind].
  do 2 eexists. split; [done|]. split_and!; try done. exists ess, [], [], [], BLK, junk. split.
  - split; cbn [mem set_mem]; rewrite ?app_nil_r; try done.
    + by rewrite (dn_mem _ _ _ Hdp).
    + by rewrite (dn_mem _ _ _ Hdp).
    + destruct HBLK. split_and!; (done || lia).
    + split; [apply Hdp|]. split; [by apply Forall_nil|]. split; [by apply Forall_nil|]. simpl. lia.
  - unfold kept. by rewrite decide_True.
Qed.

(** Room is made for every slot that a lookup has found, unless the directory cannot grow. *)
Lemma make_room_ok needed ess ds dp :
  dirnode_ok BLK dp ess → 12 ≤ needed ≤ BLK → slot_ok BLK needed ess ds → can_grow dp →
  ∃ r dp1, make_room v BLK memset needed ds dp = Some (r, dp1)
    ∧ match r with
      | inl e => no_room dp e ∧ dp1 = set_space (dir_space dp1) dp ∧ space_ok v (dir_space dp1)
      | inr new => made needed ess ds dp new dp1
      end.
Proof.
  intros Hdp Hn Hs Hl. destruct (ds_stat ds) eqn:E; try (by destruct Hs as [_ Hs]; rewrite E in Hs).
  - destruct (make_take needed ess ds dp) as [-> Hm]; [done..|]. by do 2 eexists.
  - destruct (make_shrink needed ess ds dp) as (new & dp1 & -> & Hm); [done|lia|done..|]. by do 2 eexists.
  - destruct (make_compress needed ess ds dp) as (new & dp1 & -> & Hm); [done|lia|done..|]. by do 2 eexists.
  - by apply make_extend.
Qed.

(** ** The counts after a change *)
Lemma count_live_pairs es : count_live es = zlen (pairs es).
Proof.
  unfold count_live. induction es as [|e es IH]; [done|]. simpl countb. rewrite IH. case_bool_decide as Hl.
  - rewrite pairs_live by done. simpl. lia.
  - rewrite pairs_dead; [done|]. unfold live in Hl. lia.
Qed.

Definition dirents_ok (ess : list (list dirent)) (c : option (list Z)) : Prop :=
  match c with Some l => counts_ok ess l | None => True end.

Lemma put_block {A} (l1 : list A) x y l2 : l1 ++ y :: l2 = updz (zlen l1) y (l1 ++ x :: l2).
Proof. unfold updz. rewrite Nat2Z.id, insert_app_r_alt, Nat.sub_diag by lia. done. Qed.

Lemma counts_change bs1 es es' bs2 l c :
  counts_ok (bs1 ++ es :: bs2) l → c = -1 ∨ c = count_live es' → counts_ok (bs1 ++ es' :: bs2) (updz (zlen bs1) c l).
Proof.
  intros [Hl Hc] Hcnt. rewrite (put_block _ es es'). set (ess := bs1 ++ es :: bs2) in *.
  assert (Hlt : 0 ≤ zlen bs1 < zlen ess) by (unfold ess; rewrite length_app; simpl; lia). split; [by rewrite !length_updz|].
  intros i es1 c1. rewrite !lookupz_updz by lia. case_decide; [|by apply Hc]. congruence.
Qed.

Lemma recount_ok bs1 es es' bs2 k dp :
  dirents_ok (bs1 ++ es :: bs2) (dirents dp) → count_live es' = count_live es + k →
  ∃ c, recount (zlen bs1) k dp = Some (mk_dirnode (mem dp) (dir_idx dp) c (dir_space dp) (btree dp) (file_updates dp) (oracle dp))
    ∧ dirents_ok (bs1 ++ es' :: bs2) c.
Proof.
  intros Hok Hk. unfold recount. destruct dp as [m i [l|] a b f o]; simpl in *; [|by eexists]. pose proof Hok as [Hl Hc].
  destruct (lookupz_is_Some l (zlen bs1)) as [c Hi]; [rewrite Hl, length_app; simpl; lia|]. rewrite Hi. cbn [mbind option_bind].
  pose proof (lookupz_lt _ _ _ Hi) as Hlt. specialize (Hc _ es c (mid_lookupz _ _ _) Hi). destruct (decide (c ≠ -1)) as [Hne|He].
  - unfold storez. rewrite decide_True by done. cbn [mbind option_bind]. eexists. split; [done|]. simpl. eapply counts_change; [done|].
    right. lia.
  - eexists. split; [done|]. simpl. replace l with (updz (zlen bs1) (-1) l); [eapply counts_change; [done|by left]|].
    unfold updz. apply list_insert_id. unfold lookupz in Hi. rewrite decide_True in Hi by lia. rewrite Hi. f_equal. lia.
Qed.

Lemma lookupz_app_lt {A} (l m : list A) i : i < zlen l → (l ++ m) !z i = l !z i.
Proof. intros Hi. unfold lookupz. case_decide; [|done]. apply lookup_app_l. lia. Qed.

Lemma count_extended_ok ess es dp :
  oracle dp = [] → dirents_ok ess (dirents dp) → st_size dp / BLK = zlen ess + 1 → count_live es = 1 →
  ∃ c, count_extended BLK (zlen ess) (zlen ess) dp
      = Some (mk_dirnode (mem dp) (dir_idx dp) c (dir_space dp) (btree dp) (file_updates dp) (oracle dp))
    ∧ dirents_ok (ess ++ [es]) c.
Proof.
  intros Ho Hok Hsz He. unfold count_extended, alloc_dirents. rewrite Hsz, orb_true_r, Ho. simpl.
  set (l := match dirents dp with Some l => _ | None => _ end).
  assert (Hl : counts_ok (ess ++ [[]]) l).
  { unfold l. destruct (dirents dp) as [l0|]; simpl in Hok.
    - destruct Hok as [Hl Hc]. rewrite take_ge by lia. split; [rewrite !length_app, length_replicate; simpl; lia|].
      replace (Z.to_nat (zlen ess + 1 - zlen ess)) with 1%nat by lia. intros i es0 c Hi Hci. destruct (decide (i < zlen ess)).
      + pose proof (lookupz_lt _ _ _ Hi). apply (Hc i); [by rewrite lookupz_app_lt in Hi|by rewrite lookupz_app_lt in Hci by lia].
      + left. pose proof (lookupz_lt _ _ _ Hi) as Hb. rewrite length_app in Hb. simpl in Hb.
        replace i with (zlen l0 + 0) in Hci by lia. rewrite lookupz_app_r in Hci by lia. by injection Hci.
    - split; [rewrite length_app, length_replicate; simpl; lia|]. intros i es0 c _ Hi. left. by apply lookupz_replicate in Hi as [? _]. }
  pose proof Hl as [Hlen _]. rewrite length_app in Hlen. simpl in Hlen. unfold storez. rewrite decide_True by lia.
  cbn [mbind option_bind]. eexists. split; [done|]. simpl. eapply counts_change; [done|by right].
Qed.

(** ** The new entry *)
Lemma concat_mid (bs1 : list (list dirent)) es bs2 : pairs (concat (bs1 ++ es :: bs2)) = pairs (concat bs1) ++ pairs es ++ pairs (concat bs2).
Proof. rewrite concat_app. simpl. by rewrite !pairs_app. Qed.

Lemma pairs_entered ess ds bs1 es1 e es2 bs2 :
  kept ess ds bs1 es1 es2 bs2 → live e →
  pairs (concat (bs1 ++ (es1 ++ e :: es2) :: bs2)) ≡ₚ (e_name e, e_inode e) :: pairs (concat ess).
Proof.
  intros Hk He. rewrite concat_mid, pairs_app, (pairs_live e) by done. unfold kept in Hk. case_decide.
  - destruct Hk as (-> & -> & -> & ->). simpl. by rewrite <-Permutation_cons_append.
  - destruct Hk as (es & -> & Hes). rewrite concat_mid, <-Hes, pairs_app, <-!app_assoc. simpl. by rewrite <-!Permutation_middle.
Qed.

Lemma NoDup_entered ess ess' name inum :
  NoDup (pairs (concat ess)).*1 → contents ess !! name = None → pairs (concat ess') ≡ₚ (name, inum) :: pairs (concat ess) →
  NoDup (pairs (concat ess')).*1 ∧ contents ess' = <[name := inum]> (contents ess).
Proof.
  intros Hnd Hno Hp. assert (Hnd' : NoDup (pairs (concat ess')).*1).
  { rewrite Hp. simpl. apply NoDup_cons. split; [|done]. by apply not_elem_of_list_to_map_2. }
  split; [done|]. unfold contents. rewrite (list_to_map_proper _ _ Hnd' Hp). done.
Qed.

(** The counts are right after the entry is in. *)
Lemma counted_ok ess ds bs1 es1 e es2 bs2 dp :
  let ess' := bs1 ++ (es1 ++ e :: es2) :: bs2 in
  kept ess ds bs1 es1 es2 bs2 → live e → ds_idx ds = zlen bs1 → oracle dp = [] → dirents_ok ess (dirents dp) → mem dp = bytes_of ess' → dir_ok BLK ess' →
  ∃ c, (if decide (ds_stat ds ≠ EXTEND) then recount (ds_idx ds) 1 dp else count_extended BLK (ds_idx ds) (zlen ess) dp)
      = Some (mk_dirnode (mem dp) (dir_idx dp) c (dir_space dp) (btree dp) (file_updates dp) (oracle dp))
    ∧ dirents_ok ess' c.
Proof.
  intros ess' Hk He -> Ho Hc Hm Hok. unfold kept in Hk. destruct (decide (ds_stat ds = EXTEND)) as [Hx|Hx].
  - rewrite decide_False by tauto. destruct Hk as (-> & -> & -> & ->). apply count_extended_ok; [done|done| |].
    + rewrite Hm, (zlen_bytes_of BLK) by done. unfold ess'. rewrite length_app, Z.div_mul by lia. simpl. lia.
    + by rewrite count_live_pairs, app_nil_l, pairs_live.
  - rewrite decide_True by done. destruct Hk as (es & -> & Hes). eapply recount_ok; [done|].
    rewrite !count_live_pairs, <-Hes, !pairs_app, (pairs_live e) by done. rewrite !length_app. simpl. lia.
Qed.

Lemma needed_bounds name : name_ok name → name ≠ [] → 12 ≤ EXT2_DIR_REC_LEN (zlen name) ≤ BLK.
Proof.
  intros [Hl _] Hne. rewrite rec_len_round. assert (1 ≤ zlen name) by (destruct name; simpl; [done|lia]). Z.div_mod_to_equations. lia.
Qed.

(** The slot that a lookup has found takes the new name. *)
Lemma direnter_ok name inum ess ds dp :
  dirnode_ok BLK dp ess → can_grow dp → name_ok name → name ≠ [] → 0 < inum < 2 ^ 32 → contents ess !! name = None →
  slot_ok BLK (EXT2_DIR_REC_LEN (zlen name)) ess ds →
  ∃ err dp', diskfs_direnter_hard v BLK memset name inum ds dp = Some (err, dp')
    ∧ match err with
      | Some e => no_room dp e ∧ dirnode_ok BLK dp' ess ∧ space_ok v (dir_space dp') ∧ file_updates dp' = file_updates dp
      | None => ∃ ess', dirnode_ok BLK dp' ess' ∧ space_ok v (dir_space dp') ∧ contents ess' = <[name := inum]> (contents ess)
          ∧ btree dp' = false ∧ file_updates dp' = file_updates dp + 1
      end.
Proof.
  intros Hdp Hgrow Hname Hne Hinum Hno Hslot. unfold diskfs_direnter_hard. pose proof (needed_bounds name Hname Hne) as Hb.
  destruct (size_ok BLK HBLK dp ess Hdp) as [_ ->]. rewrite decide_True by apply Hslot.
  destruct (make_room_ok _ ess ds dp Hdp Hb Hslot Hgrow) as (r & dp1 & -> & Hr). cbn [mbind option_bind].
  destruct r as [e|new]; [do 2 eexists; split; [done|]; destruct Hr as (Hr & Heq & Hsp); split_and!; [done|rewrite Heq; by destruct Hdp; split|done|by rewrite Heq]|].
  destruct Hr as (Hi1 & Hc1 & Hu1 & Ho1 & Hsp1 & bs1 & es1 & es2 & bs2 & len & junk & Hroom & Hk).
  destruct Hroom as [Hby Hnew Hjunk (Hlen & Hm4 & Hlt) Hidx (Hb1 & Hb2 & Hes & Hsum)].
  destruct (fill_room (bytes_of bs1 ++ encs es1) junk (encs es2 ++ bytes_of bs2) new len inum name) as (e & Hw & Hei & Hen & Hde & Hrl);
    [done..|lia|done|]. rewrite Hby.
  destruct (mem_write new _ _) as [d1|]; [|done]. cbn [mbind option_bind] in *. destruct (mem_write (new + 6) _ d1) as [d2|]; [|done].
  cbn [mbind option_bind] in *. rewrite Hw. cbn [mbind option_bind]. clear Hw.
  set (ess' := bs1 ++ (es1 ++ e :: es2) :: bs2).
  assert (Hok : dir_ok BLK ess').
  { apply Forall_app. split; [done|]. apply Forall_cons. split; [|done]. apply Forall_app in Hes as [He1 He2]. split.
    - apply Forall_app. split; [done|]. by apply Forall_cons.
    - rewrite encs_app, encs_cons, !length_app. pose proof (zlen_enc e). lia. }
  assert (Hbytes : (bytes_of bs1 ++ encs es1) ++ enc e ++ encs es2 ++ bytes_of bs2 = bytes_of ess').
  { unfold ess'. rewrite bytes_of_app. change (bytes_of (?x :: ?y)) with (encs x ++ bytes_of y). by rewrite encs_app, encs_cons, <-!app_assoc. }
  assert (Hlive : live e) by (unfold live; lia).
  destruct (NoDup_entered ess ess' name inum) as [Hnd Hcont];
    [apply Hdp|done|by rewrite <-Hei, <-Hen; apply (pairs_entered ess ds)|].
  destruct (counted_ok ess ds bs1 es1 e es2 bs2 (written (bytes_of ess') dp1)) as (c & Hcount & Hc);
    [done|done|done|simpl; rewrite Ho1; apply Hdp|simpl; rewrite Hc1; apply Hdp|done|done|]. rewrite Hbytes, Hcount. cbn [mbind option_bind].
  do 2 eexists. split; [done|]. exists ess'. split_and!; [|simpl; apply Hsp1, Hgrow|done|done|simpl; lia].
  split; try done; [|simpl; rewrite Ho1; apply Hdp]. simpl. rewrite Hi1.
  destruct (dn_idx _ _ _ Hdp) as [?|Hdi]; [by left|]. right. split; [lia|]. unfold kept in Hk. unfold ess'. rewrite length_app. simpl.
  destruct (decide (ds_stat ds = EXTEND)); [destruct Hk as (-> & _); lia|]. destruct Hk as (es & -> & _). rewrite length_app in Hdi. simpl in Hdi. lia.
Qed.
End enter.

(** ** Removing and rewriting *)
Definition with_inode (inum : Z) (e : dirent) : dirent := mk_dirent inum (e_type e) (e_name e) (e_pad e).

(** An entry takes the room of the one behind it. *)
Definition absorb (e1 e2 : dirent) : dirent := mk_dirent (e_inode e1) (e_type e1) (e_name e1) (e_pad e1 ++ enc e2).

Lemma set_inode pre e post off inum :
  off = zlen pre → mem_write off (bytes32 inum) (pre ++ enc e ++ post) = Some (pre ++ enc (with_inode inum e) ++ post).
Proof.
  intros ->. unfold enc, rec_len, with_inode. simpl e_inode. simpl e_type. simpl e_name. simpl e_pad. rewrite <-!app_assoc.
  by rewrite (mem_write_mid _ (bytes32 (e_inode e))).
Qed.

Lemma set_absorb pre e1 e2 post off :
  off = zlen pre →
  mem_write (off + 4) (bytes16 (rec_len e1 + rec_len e2)) (pre ++ enc e1 ++ enc e2 ++ post) = Some (pre ++ enc (absorb e1 e2) ++ post).
Proof.
  intros ->. assert (Hl : rec_len (absorb e1 e2) = rec_len e1 + rec_len e2).
  { unfold rec_len, absorb. simpl. rewrite length_app. pose proof (zlen_enc e2). unfold rec_len in *. lia. }
  unfold enc at 1 3. rewrite Hl. unfold absorb. simpl e_inode. simpl e_type. simpl e_name. simpl e_pad. rewrite <-!app_assoc, (app_assoc pre).
  rewrite (mem_write_mid _ (bytes16 (rec_len e1))); [by rewrite <-!app_assoc|rewrite length_app; simpl; lia|done].
Qed.

Section change.
Context (BLK : Z).
Hypothesis HBLK : 264 ≤ BLK < 2 ^ 16 ∧ BLK mod 4 = 0.

Lemma pairs_removed ess ess' A B name inode :
  NoDup (pairs (concat ess)).*1 → pairs (concat ess) = A ++ (name, inode) :: B → pairs (concat ess') = A ++ B →
  NoDup (pairs (concat ess')).*1 ∧ contents ess' = delete name (contents ess).
Proof.
  intros Hnd He He'. assert (Hp : pairs (concat ess) ≡ₚ (name, inode) :: pairs (concat ess')).
  { rewrite He, He'. by rewrite Permutation_middle. }
  pose proof Hnd as Hnd1. rewrite Hp in Hnd1. simpl in Hnd1. apply NoDup_cons in Hnd1 as [Hno Hnd']. split; [done|].
  unfold contents. rewrite (list_to_map_proper _ _ Hnd Hp). simpl. rewrite delete_insert_id; [done|]. by apply not_elem_of_list_to_map_1.
Qed.

Lemma pairs_rewritten ess ess' A B name inode inum :
  NoDup (pairs (concat ess)).*1 → pairs (concat ess) = A ++ (name, inode) :: B → pairs (concat ess') = A ++ (name, inum) :: B →
  NoDup (pairs (concat ess')).*1 ∧ contents ess' = <[name := inum]> (contents ess).
Proof.
  intros Hnd He He'. assert (Hp : pairs (concat ess) ≡ₚ (name, inode) :: A ++ B) by (rewrite He; by rewrite Permutation_middle).
  assert (Hp' : pairs (concat ess') ≡ₚ (name, inum) :: A ++ B) by (rewrite He'; by rewrite Permutation_middle).
  assert (Hnd' : NoDup (pairs (concat ess')).*1) by (rewrite Hp'; rewrite Hp in Hnd; done). split; [done|].
  unfold contents. rewrite (list_to_map_proper _ _ Hnd Hp), (list_to_map_proper _ _ Hnd' Hp'). simpl. by rewrite insert_insert_eq.
Qed.

(** A block is put in the place of another. *)
Lemma block_changed bs1 es es' bs2 dp k :
  let ess' := bs1 ++ es' :: bs2 in
  dirnode_ok BLK dp (bs1 ++ es :: bs2) → block_ok BLK es' → count_live es' = count_live es + k → NoDup (pairs (concat ess')).*1 →
  ∃ dp', recount (zlen bs1) k (written (bytes_of ess') dp) = Some dp' ∧ dirnode_ok BLK dp' ess' ∧ btree dp' = false
    ∧ file_updates dp' = file_updates dp.
Proof.
  intros ess' [H1 H2 H3 H4 H5] Hes' Hk Hnd. destruct (recount_ok bs1 es es' bs2 k (written (bytes_of ess') dp) H5 Hk) as (c & -> & Hc).
  eexists. split; [done|]. split_and!; try done. split; try done.
  - destruct (dir_ok_split _ _ _ _ H2) as (Hb1 & _ & Hb2). apply Forall_app. split; [done|]. by apply Forall_cons.
  - simpl. unfold ess'. rewrite length_app in *. done.
Qed.

Lemma counts_kept bs1 es es' bs2 l :
  counts_ok (bs1 ++ es :: bs2) l → count_live es' = count_live es → counts_ok (bs1 ++ es' :: bs2) l.
Proof.
  intros [Hl Hc] Hk. rewrite (put_block _ es es'). set (ess := bs1 ++ es :: bs2) in *.
  assert (Hlt : 0 ≤ zlen bs1 < zlen ess) by (unfold ess; rewrite length_app; simpl; lia). split; [by rewrite length_updz|].
  intros i es1 c1. rewrite lookupz_updz by lia. case_decide as Hi; [|by apply Hc]. intros [= <-] Hc1. rewrite Hk. eapply Hc; [|done].
  subst i. apply mid_lookupz.
Qed.

Definition unlink_bytes (ds : dirstat) (d : list Z) : option (list Z) :=
  match ds_preventry ds with
  | None => mem_write (ds_entry ds) (bytes32 0) d
  | Some preventry =>
      prev_len ← rec_len_at preventry d; rec_len ← rec_len_at (ds_entry ds) d;
      if decide (ds_entry ds - preventry = prev_len) then mem_write (preventry + 4) (bytes16 (prev_len + rec_len)) d else None
  end.

Lemma bytes_of_mid (bs1 : list (list dirent)) es bs2 : bytes_of (bs1 ++ es :: bs2) = bytes_of bs1 ++ encs es ++ bytes_of bs2.
Proof. by rewrite bytes_of_app. Qed.

Lemma first_unlinked ds ess idx off bs1 e es2 bs2 :
  dir_ok BLK ess → entry_at BLK ess idx off bs1 [] e es2 bs2 → ds_entry ds = off → ds_preventry ds = None →
  ∃ es', unlink_bytes ds (bytes_of ess) = Some (bytes_of (bs1 ++ es' :: bs2)) ∧ block_ok BLK es' ∧ pairs es' = pairs es2.
Proof.
  intros Hok [He Hi Ho] Hent Hprev. destruct (bytes_around BLK ess bs1 _ bs2 He Hok [] e es2 eq_refl) as (Hb & Hl & Hde & Hsum).
  unfold unlink_bytes. rewrite Hprev, Hb, (set_inode _ e) by congruence. exists (with_inode 0 e :: es2). split_and!.
  - by rewrite bytes_of_mid, encs_cons, <-!app_assoc.
  - rewrite He in Hok. destruct (dir_ok_split _ _ _ _ Hok) as (_ & [Hall Hlen] & _). apply Forall_cons in Hall as [_ Hall]. destruct Hde. split.
    + apply Forall_cons. split; [|done]. by split.
    + cbn [app] in Hlen. rewrite encs_cons, length_app in Hlen. rewrite encs_cons, length_app. pose proof (zlen_enc e). pose proof (zlen_enc (with_inode 0 e)).
      change (rec_len (with_inode 0 e)) with (rec_len e) in *. lia.
  - by apply pairs_dead.
Qed.

Lemma rec_len_absorb e1 e2 : rec_len (absorb e1 e2) = rec_len e1 + rec_len e2.
Proof. unfold rec_len, absorb. simpl. rewrite length_app. pose proof (zlen_enc e2). unfold rec_len in *. lia. Qed.

Lemma next_unlinked ds ess idx off bs1 es1 e1 e es2 bs2 :
  dir_ok BLK ess → entry_at BLK ess idx off bs1 (es1 ++ [e1]) e es2 bs2 → ds_entry ds = off →
  ds_preventry ds = Some (idx * BLK + zlen (encs es1)) →
  ∃ es', unlink_bytes ds (bytes_of ess) = Some (bytes_of (bs1 ++ es' :: bs2)) ∧ block_ok BLK es'
    ∧ pairs es' = pairs (es1 ++ [e1]) ++ pairs es2.
Proof.
  intros Hok [He Hi Ho] Hent Hprev. destruct (bytes_around BLK ess bs1 _ bs2 He Hok (es1 ++ [e1]) e es2 eq_refl) as (Hb & Hl & Hde & Hsum).
  rewrite <-app_assoc in He. simpl in He. pose proof (zlen_enc e1) as Hz1. rewrite encs_snoc, length_app in *.
  destruct (bytes_around BLK ess bs1 _ bs2 He Hok es1 e1 (e :: es2) eq_refl) as (Hb1 & Hl1 & Hde1 & Hsum1).
  assert (Hr1 : rec_len_at (idx * BLK + zlen (encs es1)) (bytes_of ess) = Some (rec_len e1))
    by (rewrite Hb1; apply rec_len_at_ok; [done|subst idx; lia]).
  assert (Hr : rec_len_at off (bytes_of ess) = Some (rec_len e)) by (rewrite Hb; apply rec_len_at_ok; [done|subst idx; rewrite !length_app in *; lia]).
  unfold unlink_bytes. rewrite Hprev, Hent, Hr1, Hr. cbn [mbind option_bind]. rewrite decide_True by lia.
  rewrite Hb1, encs_cons, <-(app_assoc (enc e)), set_absorb by (subst idx; lia). exists (es1 ++ absorb e1 e :: es2). split_and!.
  - by rewrite bytes_of_mid, encs_app, encs_cons, <-!app_assoc.
  - rewrite He in Hok. destruct (dir_ok_split _ _ _ _ Hok) as (_ & [Hall Hlen] & _).
    apply Forall_app in Hall as [Ha [_ [_ Hc]%Forall_cons]%Forall_cons]. pose proof (zlen_enc (absorb e1 e)) as Hz. rewrite rec_len_absorb in Hz.
    split; [|rewrite encs_app, encs_cons, !length_app; lia]. apply Forall_app. split; [done|]. apply Forall_cons. split; [|done].
    destruct Hde1 as [? ? [Hm1 _]], Hde as [_ _ [Hm _]]. split; [done|done|]. rewrite rec_len_absorb. split; [by rewrite Z.add_mod, Hm1, Hm|lia].
  - rewrite !pairs_app. destruct (decide (live e1)) as [Hv|Hv].
    + by rewrite (pairs_live (absorb e1 e)), (pairs_live e1), <-app_assoc.
    + unfold live in Hv. by rewrite (pairs_dead (absorb e1 e)), (pairs_dead e1), app_nil_r by (simpl; lia).
Qed.

Lemma dirremove_ok ess dp idx off bs1 es1 e es2 bs2 prev nb name :
  dirnode_ok BLK dp ess → entry_at BLK ess idx off bs1 es1 e es2 bs2 → hit name e → prev_ok (idx * BLK) es1 prev →
  ∃ dp' ess', diskfs_dirremove_hard (mk_ds REMOVE HERE_TIS idx off prev nb) dp = Some dp' ∧ dirnode_ok BLK dp' ess'
    ∧ contents ess' = delete name (contents ess) ∧ btree dp' = false ∧ file_updates dp' = file_updates dp + 1.
Proof.
  intros Hdp Hat [Hlive Hname] Hprev. set (ds := mk_ds REMOVE HERE_TIS idx off prev nb).
  assert (∃ es', unlink_bytes ds (mem dp) = Some (bytes_of (bs1 ++ es' :: bs2)) ∧ block_ok BLK es' ∧ pairs es' = pairs es1 ++ pairs es2)
    as (es' & Hw & Hblk & Hpairs).
  { rewrite (dn_mem _ _ _ Hdp). destruct prev as [p|]; simpl in Hprev.
    - destruct Hprev as (pre & e0 & -> & ->). eapply next_unlinked; [apply Hdp|done..].
    - subst es1. eapply first_unlinked; [apply Hdp|done..]. }
  destruct Hat as [He Hi Ho]. destruct (pairs_removed ess (bs1 ++ es' :: bs2) (pairs (concat bs1) ++ pairs es1) (pairs es2 ++ pairs (concat bs2))
    name (e_inode e)) as [Hnd Hcont].
  { apply Hdp. }
  { rewrite He, concat_mid, pairs_app, (pairs_live e), Hname by done. by rewrite <-!app_assoc. }
  { by rewrite concat_mid, Hpairs, <-!app_assoc. }
  rewrite He in Hdp. destruct (block_changed bs1 _ es' bs2 dp (-1) Hdp Hblk) as (dp' & Hr & Hdp' & Hbt & Hfu); [|done|].
  { rewrite !count_live_pairs, Hpairs, pairs_app, (pairs_live e) by done. rewrite !length_app. simpl. lia. }
  unfold diskfs_dirremove_hard. rewrite decide_True by done. fold (unlink_bytes ds (mem dp)). rewrite Hw. cbn [mbind option_bind].
  change (ds_idx ds) with idx. rewrite Hi, Hr. cbn [mbind option_bind]. exists (file_update dp'), (bs1 ++ es' :: bs2).
  split_and!; try done; [by destruct Hdp'; split|simpl; lia].
Qed.

Lemma dirrewrite_ok ess dp idx off bs1 es1 e es2 bs2 prev nb name inum :
  dirnode_ok BLK dp ess → entry_at BLK ess idx off bs1 es1 e es2 bs2 → hit name e → 0 < inum < 2 ^ 32 →
  ∃ dp' ess', diskfs_dirrewrite_hard inum (mk_ds RENAME HERE_TIS idx off prev nb) dp = Some dp' ∧ dirnode_ok BLK dp' ess'
    ∧ contents ess' = <[name := inum]> (contents ess) ∧ btree dp' = false ∧ file_updates dp' = file_updates dp + 1.
Proof.
  intros [Hm Hok Hnd Hdi Hc] [He Hi Ho] [Hlive Hname] Hinum.
  destruct (bytes_around BLK ess bs1 _ bs2 He Hok es1 e es2 eq_refl) as (Hb & Hl & Hde & Hsum).
  unfold diskfs_dirrewrite_hard. rewrite decide_True by done. simpl ds_entry. rewrite Hm, Hb, (set_inode _ e) by congruence.
  cbn [mbind option_bind]. set (e' := with_inode inum e). set (ess' := bs1 ++ (es1 ++ e' :: es2) :: bs2). eexists _, ess'. split; [done|].
  assert (Hlive' : live e') by (unfold live, e'; simpl; lia).
  destruct (pairs_rewritten ess ess' (pairs (concat bs1) ++ pairs es1) (pairs es2 ++ pairs (concat bs2)) name (e_inode e) inum) as [Hnd' Hcont].
  { done. }
  { rewrite He, concat_mid, pairs_app, (pairs_live e), Hname by done. by rewrite <-!app_assoc. }
  { unfold ess'. rewrite concat_mid, pairs_app, (pairs_live e') by done. simpl. by rewrite Hname, <-!app_assoc. }
  split_and!; try done. rewrite He in Hok. destruct (dir_ok_split _ _ _ _ Hok) as (Hb1 & [Hall Hlen] & Hb2). split; try done.
  - cbn [mem file_update written]. unfold ess'. rewrite bytes_of_mid, encs_app, encs_cons. by rewrite <-!app_assoc.
  - apply Forall_app. split; [done|]. apply Forall_cons. split; [|done]. apply Forall_app in Hall as [Ha [_ Hc2]%Forall_cons]. split.
    + apply Forall_app. split; [done|]. apply Forall_cons. split; [|done]. destruct Hde. split; [simpl; lia|done|done].
    + rewrite encs_app, encs_cons, !length_app in *. pose proof (zlen_enc e). pose proof (zlen_enc e') as Hz.
      change (rec_len e') with (rec_len e) in Hz. lia.
  - simpl. rewrite He in Hdi. unfold ess'. rewrite length_app in *. done.
  - simpl. rewrite He in Hc. destruct (dirents dp); [|done]. eapply counts_kept; [done|].
    rewrite !count_live_pairs, !pairs_app, (pairs_live e), (pairs_live e') by done. by rewrite !length_app.
Qed.
End change.

(** ** The directory as a map *)
(** C7. A name is looked up to be created and then entered.  If the directory has
    the name, the inode number is found.  If not, the lookup picks a slot of any of
    the four kinds (an unused entry, the slack of an entry, a block to compress, a
    new block), and entering the name there gives a well-formed directory that is
    the old map with the name added; or it fails and the map is as it was, because
    the directory is too large to be mapped, the disk is full, or the new block
    cannot be written.  No assertion of the two functions fails, and growing the
    directory ends.  The file system is consistent before and after; the
    directory with one block more is too large to be mapped, or fits in the file
    system and, with a page more, in 32 bits; the counts of entries can be allocated. *)
Theorem ext2_dir_enter_correct v BLK memset name inum ess ds0 dp :
  volume_ok v → BLK = block_size v → 264 ≤ BLK < 2 ^ 16 ∧ BLK mod 4 = 0 →
  dirnode_ok BLK dp ess → can_grow v BLK dp → name_ok name → name ≠ [] → 0 < inum < 2 ^ 32 →
  ∃ r ds1 dp1, lookup_name BLK name CREATE (Some ds0) dp = Some (r, ds1, dp1)
    ∧ dirnode_ok BLK dp1 ess ∧ dir_space dp1 = dir_space dp
    ∧ match contents ess !! name with
      | Some inode => r = inr inode
      | None => r = inl ENOENT
          ∧ ∃ ds err dp', ds1 = Some ds ∧ diskfs_direnter_hard v BLK memset name inum ds dp1 = Some (err, dp')
              ∧ space_ok v (dir_space dp')
              ∧ match err with
                | Some e => no_room v BLK memset dp1 e ∧ dirnode_ok BLK dp' ess
                | None => ∃ ess', dirnode_ok BLK dp' ess' ∧ contents ess' = <[name := inum]> (contents ess)
                end
      end.
Proof.
  intros Hv _ HBLK Hdp Hgrow Hname Hne Hinum.
  destruct (lookup_name_ok BLK ess name CREATE (Some ds0) dp HBLK Hname Hne Hdp)
    as (r & ds1 & dp1 & -> & Hdp1 & Hsp & Hr). do 3 eexists. split; [done|]. split; [done|]. split; [done|].
  destruct (contents ess !! name) eqn:Hno; [by destruct Hr|]. destruct Hr as [-> Hslot]. split; [done|].
  destruct Hslot as (ds & -> & Hs); [by left|done|].
  assert (can_grow v BLK dp1) as Hgrow1.
  { unfold can_grow in *. by rewrite Hsp, (dn_mem _ _ _ Hdp1), <-(dn_mem _ _ _ Hdp). }
  destruct (direnter_ok v BLK memset Hv HBLK name inum ess ds dp1) as (err & dp' & He1 & He); [done..|].
  exists ds, err, dp'. split; [done|]. split; [done|].
  destruct err; [by destruct He as (? & ? & ? & _)|]. destruct He as (ess' & ? & ? & ? & _). split; [done|]. by exists ess'.
Qed.

(** C8. A name of the directory is looked up and then removed, or given another
    inode number.  The directory stays well formed, and is the old map without the
    name, or with the new number for it; the counts of entries are kept.  A name
    that is not there is not found.  The counts of entries can be allocated. *)
Theorem ext2_dir_change_correct BLK name inum ess ds0 dp :
  264 ≤ BLK < 2 ^ 16 ∧ BLK mod 4 = 0 → dirnode_ok BLK dp ess → name_ok name → name ≠ [] → 0 < inum < 2 ^ 32 →
  ∃ r1 ds1 dp1 r2 ds2 dp2,
    lookup_name BLK name REMOVE (Some ds0) dp = Some (r1, ds1, dp1) ∧ lookup_name BLK name RENAME (Some ds0) dp = Some (r2, ds2, dp2)
    ∧ match contents ess !! name with
      | Some inode => r1 = inr inode ∧ r2 = inr inode
          ∧ (∃ ds dp' ess', ds1 = Some ds ∧ diskfs_dirremove_hard ds dp1 = Some dp'
               ∧ dirnode_ok BLK dp' ess' ∧ contents ess' = delete name (contents ess))
          ∧ (∃ ds dp' ess', ds2 = Some ds ∧ diskfs_dirrewrite_hard inum ds dp2 = Some dp'
               ∧ dirnode_ok BLK dp' ess' ∧ contents ess' = <[name := inum]> (contents ess))
      | None => r1 = inl ENOENT ∧ r2 = inl ENOENT
      end.
Proof.
  intros HBLK Hdp Hname Hne Hinum.
  destruct (lookup_name_ok BLK ess name REMOVE (Some ds0) dp HBLK Hname Hne Hdp) as (r1 & ds1 & dp1 & -> & Hdp1 & _ & H1).
  destruct (lookup_name_ok BLK ess name RENAME (Some ds0) dp HBLK Hname Hne Hdp) as (r2 & ds2 & dp2 & -> & Hdp2 & _ & H2).
  do 6 eexists. split; [done|]. split; [done|]. destruct (contents ess !! name); [|by destruct H1 as [-> _], H2 as [-> _]].
  destruct H1 as (-> & i1 & bs1 & es1 & e1 & es1' & bs1' & off1 & Hat1 & Hh1 & _ & Hf1).
  destruct H2 as (-> & i2 & bs2 & es2 & e2 & es2' & bs2' & off2 & Hat2 & Hh2 & _ & Hf2).
  destruct Hf1 as (prev1 & nb1 & -> & Hp1); [by left|done|]. destruct Hf2 as (prev2 & nb2 & -> & Hp2); [by right|done|]. split_and!; try done.
  - destruct (dirremove_ok BLK HBLK ess dp1 i1 off1 bs1 es1 e1 es1' bs1' prev1 nb1 name Hdp1 Hat1 Hh1 Hp1) as (dp' & ess' & Hr & H & Hc & _).
    by exists (mk_ds REMOVE HERE_TIS i1 off1 prev1 nb1), dp', ess'.
  - destruct (dirrewrite_ok BLK ess dp2 i2 off2 bs2 es2 e2 es2' bs2' prev2 nb2 name inum Hdp2 Hat2 Hh2 Hinum) as (dp' & ess' & Hr & H & Hc & _).
    by exists (mk_ds RENAME HERE_TIS i2 off2 prev2 nb2), dp', ess'.
Qed.

(** ** A small directory *)
(** "." and "..", an unused entry and the file "a" in a block of 1024 bytes. *)
Definition small_dir : list (list dirent) :=
  [[mk_dirent 2 2 [46] [0; 0; 0]; mk_dirent 2 2 [46; 46] [0; 0]; mk_dirent 0 0 [98] (replicate 3 7); mk_dirent 11 0 [97] (replicate 979 0)]].

(** A volume with blocks of 1024 bytes, and a file without blocks on it whose space
    ends after one block of a page that is writable. *)
Definition small_volume : volume :=
  mk_volume 64 1 Balloc.two_groups (Getblk.mk_settings 256 2 0 false 1 false) 10 4096 false.

Definition small_space : space := mk_space Getblk.empty_file Balloc.small_fs 1024 true.

Lemma small_volume_ok : volume_ok small_volume.
Proof.
  split; [by right|simpl; lia|exact Balloc.two_groups_ok|split; [by exists 8|done]|done|by exists 12|done].
Qed.

Definition small : dirnode := mk_dirnode (bytes_of small_dir) 0 None small_space true 0 [].

Lemma small_ok : dirnode_ok 1024 small small_dir.
Proof.
  split; try done.
  - apply Forall_cons. split; [|by constructor]. split; [|by vm_compute].
    repeat (apply Forall_cons; split; [split; [done| |by vm_compute]|]); try (by split; [done|by vm_compute; set_solver]); constructor.
  - vm_compute. apply (bool_decide_unpack _). by vm_compute.
  - by left.
Qed.

(** A block without room: ".", "..", three names of 255 characters and one of 200. *)
Definition full_dir : list (list dirent) :=
  [[mk_dirent 2 2 [46] [0; 0; 0]; mk_dirent 2 2 [46; 46] [0; 0]; mk_dirent 11 0 (replicate 255 97) [0];
    mk_dirent 12 0 (replicate 255 98) [0]; mk_dirent 13 0 (replicate 255 99) [0]; mk_dirent 14 0 (replicate 200 97) []]].

Definition full : dirnode := mk_dirnode (bytes_of full_dir) 0 None small_space true 0 [].

Lemma full_ok : dirnode_ok 1024 full full_dir.
Proof.
  split; try done.
  - apply Forall_cons. split; [|by constructor]. split; [|by vm_compute].
    repeat (apply Forall_cons; split; [split; [done| |by vm_compute]|]); try (by split; [done|by vm_compute; set_solver]); constructor.
  - vm_compute. apply (bool_decide_unpack _). by vm_compute.
  - by left.
Qed.

Lemma full_size : st_size full = 1024.
Proof. by vm_compute. Qed.

Lemma full_can_grow : can_grow small_volume 1024 full.
Proof.
  split; [split; [exact (Getblk.empty_node_ok _)|done]|]. left. rewrite full_size. by split; vm_compute.
Qed.

Lemma full_grows sp : diskfs_grow small_volume 2048 small_space ≠ Some (Some Getblk.ENOSPC, sp).
Proof.
  intros Hg. assert (fst <$> diskfs_grow small_volume 2048 small_space = Some None) as Hf by (by vm_compute).
  by rewrite Hg in Hf.
Qed.

(** A new name takes a new block, for which the directory grows. *)
Lemma ext2_dir_enter_witness :
  ∃ r ds dp1 dp' ess', lookup_name 1024 [99] CREATE (Some (mk_ds CREATE LOOKING 0 0 None 0)) full = Some (r, Some ds, dp1)
    ∧ diskfs_direnter_hard small_volume 1024 (λ _, None) [99] 12 ds dp1 = Some (None, dp')
    ∧ dirnode_ok 1024 dp' ess' ∧ contents ess' = <[[99] := 12]> (contents full_dir).
Proof.
  destruct (ext2_dir_enter_correct small_volume 1024 (λ _, None) [99] 12 full_dir (mk_ds CREATE LOOKING 0 0 None 0) full)
    as (r & ds1 & dp1 & Hl & Hdp1 & Hsp & Hr);
    [exact small_volume_ok|done|done|exact full_ok|exact full_can_grow|split; [done|by vm_compute; set_solver]|done|done|].
  assert (Hno : contents full_dir !! [99] = None) by (by vm_compute). rewrite Hno in Hr.
  destruct Hr as (_ & ds & err & dp' & -> & He & _ & Hr).
  assert (Hz : st_size dp1 = 1024) by (rewrite (dn_mem _ _ _ Hdp1); exact full_size). destruct err as [e|].
  - exfalso. clear Hl He. destruct Hr as [[[_ Hbig]|[(_ & sp & Hg)|(? & ? & Hg & _)]] Hdp'].
    + rewrite Hz in Hbig. by vm_compute in Hbig.
    + rewrite Hz, Hsp in Hg. exact (full_grows sp Hg).
    + discriminate Hg.
  - destruct Hr as (ess' & Hdp' & Hc). exists r, ds, dp1, dp', ess'. exact (conj Hl (conj He (conj Hdp' Hc))).
Defined.

Lemma ext2_dir_change_witness :
  ∃ r1 ds1 dp1 dp' ess', lookup_name 1024 [97] REMOVE (Some (mk_ds REMOVE LOOKING 0 0 None 0)) small = Some (r1, Some ds1, dp1)
    ∧ diskfs_dirremove_hard ds1 dp1 = Some dp' ∧ dirnode_ok 1024 dp' ess' ∧ contents ess' = delete [97] (contents small_dir).
Proof.
  destruct (ext2_dir_change_correct 1024 [97] 12 small_dir (mk_ds REMOVE LOOKING 0 0 None 0) small)
    as (r1 & ds1 & dp1 & r2 & ds2 & dp2 & H1 & _ & Hr); [done|exact small_ok|split; [done|by vm_compute; set_solver]|done|done|].
  assert (Hin : contents small_dir !! [97] = Some 11) by (by vm_compute). rewrite Hin in Hr.
  destruct Hr as (-> & _ & (ds & dp' & ess' & -> & Hr) & _). exists (inr 11), ds, dp1, dp', ess'. exact (conj H1 Hr).
Defined.
