(* ===== verification/Ext2DirList.v ===== *)
(** * ext2: listing directories

    [count_dirents], [diskfs_get_directs] and [diskfs_dirempty] of [Ext2Dir.v] on
    well-formed directories ([Ext2DirMap.v]): what is listed, that the buffer is
    large enough for it, and when a directory is empty. *)

From S2P Require Import Prelude Slice Ext2Dir Ext2DirMap.

(** ** Counting *)
Section count.
Context (BLK : Z).
Hypothesis HBLK : 264 ≤ BLK < 2 ^ 16 ∧ BLK mod 4 = 0.

Lemma count_live_app es es' : count_live (es ++ es') = count_live es + count_live es'.
Proof. apply countb_app. Qed.

Lemma count_live_nonneg es : 0 ≤ count_live es.
Proof. apply countb_bounds. Qed.

Lemma count_loop_ok fuel : ∀ rest pre count,
  Forall dirent_ok rest → zlen (encs (pre ++ rest)) = BLK → (length rest < fuel)%nat →
  count_loop BLK fuel (encs (pre ++ rest)) (zlen (encs pre)) count = Some (inr (count + count_live rest)).
Proof.
  induction fuel as [|fuel IH]; intros rest pre count Hall Hlen Hfuel; [lia|]. cbn [count_loop]. destruct rest as [|e rest].
  { rewrite app_nil_r in *. rewrite decide_False by lia. unfold count_live. simpl. by rewrite Z.add_0_r. }
  apply Forall_cons in Hall as [He Hall]. pose proof (zlen_enc e) as Hz. pose proof (rec_len_pos e).
  assert (Hb : encs (pre ++ e :: rest) = encs pre ++ enc e ++ encs rest) by (by rewrite encs_app, encs_cons).
  rewrite decide_True by (rewrite Hb, !length_app in Hlen; lia).
  rewrite Hb, inode_at_ok, rec_len_at_ok, <-Hb by done. cbn [mbind option_bind]. rewrite decide_False by lia.
  replace (zlen (encs pre) + rec_len e) with (zlen (encs (pre ++ [e]))) by (rewrite encs_snoc, length_app; lia).
  replace (pre ++ e :: rest) with ((pre ++ [e]) ++ rest) in * by (by rewrite <-app_assoc).
  rewrite IH by (done || simpl in *; lia). do 2 f_equal. change (e :: rest) with ([e] ++ rest). rewrite count_live_app.
  unfold count_live at 2. simpl. case_decide as Hd; [rewrite bool_decide_true by done|rewrite bool_decide_false by tauto]; lia.
Qed.

(** The count of a block is noted, and the directory stays as it is. *)
Lemma count_dirents_ok bs1 es bs2 l dp :
  dirnode_ok BLK dp (bs1 ++ es :: bs2) → dirents dp = Some l →
  count_dirents BLK (zlen bs1) dp = Some (inr (set_dirents (updz (zlen bs1) (count_live es) l) dp))
  ∧ dirnode_ok BLK (set_dirents (updz (zlen bs1) (count_live es) l) dp) (bs1 ++ es :: bs2).
Proof.
  intros Hdp Hl. destruct (size_ok BLK HBLK dp _ Hdp) as [Hs _]. pose proof (dn_dir _ _ _ Hdp) as Hok.
  destruct (dir_ok_split _ _ _ _ Hok) as (Hb1 & [Hall Hlen] & _). pose proof (dn_counts _ _ _ Hdp) as Hc. rewrite Hl in Hc.
  assert (Hin : (bs1 ++ es :: bs2) !z zlen bs1 = Some es) by apply mid_lookupz. unfold count_dirents. rewrite Hl. split.
  - rewrite decide_True by (rewrite Hs, length_app; simpl; nia).
    rewrite (dn_mem _ _ _ Hdp), bytes_of_mid, mem_read_mid by (rewrite ?(zlen_bytes_of BLK) by done; done). cbn [mbind option_bind].
    pose proof (encs_length es Hall) as Hle. pose proof (count_loop_ok (S (Z.to_nat BLK)) es [] 0 Hall Hlen ltac:(lia)) as Hcl.
    simpl app in Hcl. change (zlen (encs [])) with 0 in Hcl. rewrite Hcl. cbn [mbind option_bind].
    destruct Hc as [Hcl1 Hc]. pose proof (lookupz_lt _ _ _ Hin) as Hlt. destruct (lookupz_is_Some l (zlen bs1)) as [old Hold]; [lia|].
    rewrite Hold. cbn [mbind option_bind]. rewrite decide_True by (by apply (Hc (zlen bs1))). unfold storez.
    rewrite decide_True by lia. done.
  - destruct Hdp as [H1 H2 H3 H4 _]. split; try done. simpl. apply counts_ok_store with es; [done|done|by right].
Qed.

(** The count of a block, which is made if it is not known. *)
Lemma known_count bs1 es bs2 l dp :
  dirnode_ok BLK dp (bs1 ++ es :: bs2) → dirents dp = Some l →
  ∃ l' c, the_dirents BLK dp !z zlen bs1 = Some c
    ∧ (if decide (c = -1) then count_dirents BLK (zlen bs1) dp else Some (inr dp)) = Some (inr (set_dirents l' dp))
    ∧ dirnode_ok BLK (set_dirents l' dp) (bs1 ++ es :: bs2) ∧ l' !z zlen bs1 = Some (count_live es).
Proof.
  intros Hdp Hl. unfold the_dirents. rewrite Hl. pose proof (dn_counts _ _ _ Hdp) as Hc. rewrite Hl in Hc. destruct Hc as [Hll Hc].
  assert (Hin : (bs1 ++ es :: bs2) !z zlen bs1 = Some es) by apply mid_lookupz. pose proof (lookupz_lt _ _ _ Hin) as Hlt.
  destruct (lookupz_is_Some l (zlen bs1)) as [c Hi]; [lia|]. specialize (Hc _ es c Hin Hi). destruct (decide (c = -1)) as [H1|H1].
  - destruct (count_dirents_ok bs1 es bs2 l dp Hdp Hl) as [Hcd Hdp']. exists (updz (zlen bs1) (count_live es) l), c. rewrite decide_True by done.
    split_and!; try done. apply lookupz_updz_eq. lia.
  - exists l, c. assert (Hdp0 : set_dirents l dp = dp) by (destruct dp; simpl in *; by subst). rewrite Hdp0, decide_False by done.
    split_and!; try done. destruct Hc as [?|Hc]; [done|]. by rewrite <-Hc.
Qed.

Lemma find_entry_block_ok entry ess fuel : ∀ bs1 bs2 l dp,
  ess = bs1 ++ bs2 → dirnode_ok BLK dp ess → dirents dp = Some l → count_live (concat bs1) ≤ entry → zlen bs2 < Z.of_nat fuel →
  ∃ b1 b2 l', find_entry_block BLK fuel (zlen bs1) (count_live (concat bs1)) entry dp
      = Some (inr (zlen b1, count_live (concat b1), set_dirents l' dp))
    ∧ ess = b1 ++ b2 ∧ dirnode_ok BLK (set_dirents l' dp) ess ∧ count_live (concat b1) ≤ entry
    ∧ match b2 with [] => True | es :: _ => entry < count_live (concat b1) + count_live es end.
Proof.
  induction fuel as [|fuel IH]; intros bs1 bs2 l dp Hess Hdp Hl Hcur Hfuel; [lia|]. cbn [find_entry_block].
  destruct (size_ok BLK HBLK dp _ Hdp) as [_ ->]. destruct bs2 as [|es bs2].
  { rewrite app_nil_r in Hess. subst bs1. rewrite decide_False by lia. exists ess, [], l.
    assert (Hdp0 : set_dirents l dp = dp) by (destruct dp; simpl in *; by subst). rewrite Hdp0, app_nil_r. by split_and!. }
  rewrite decide_True by (rewrite Hess, length_app; simpl; lia). rewrite Hess in Hdp.
  destruct (known_count bs1 es bs2 l dp Hdp Hl) as (l1 & c & -> & Hc & Hdp1 & Hl1). cbn [mbind option_bind]. rewrite Hc.
  cbn [mbind option_bind]. change (the_dirents BLK (set_dirents l1 dp)) with l1. rewrite Hl1. cbn [mbind option_bind].
  destruct (decide (entry < _)) as [Hlt|Hge].
  - exists bs1, (es :: bs2), l1. by rewrite Hess; split_and!.
  - destruct (IH (bs1 ++ [es]) bs2 l1 (set_dirents l1 dp)) as (b1 & b2 & l2 & Hf & Hb & Hdp2 & Hle & Hb2).
    { by rewrite <-app_assoc. }
    { by rewrite Hess. }
    { done. }
    { rewrite concat_app, count_live_app. simpl. rewrite app_nil_r. lia. }
    { simpl in Hfuel. lia. }
    rewrite concat_app, count_live_app in Hf. simpl concat in Hf. rewrite app_nil_r, length_app, Nat2Z.inj_add in Hf. change (zlen [es]) with 1 in Hf.
    exists b1, b2, l2. by rewrite Hf.
Qed.
End count.

(** ** Listing *)
(** The entries in use as they are listed. *)
Definition entries (es : list dirent) : list (Z * list Z) := prod_swap <$> pairs es.

(** All of them, or as many as are still wanted. *)
Definition listed (wanted i : Z) (es : list dirent) : list (Z * list Z) :=
  if decide (wanted = -1) then entries es else take (Z.to_nat (wanted - i)) (entries es).

Section listing.
Context (BLK d_name_offset dirent_align page_size : Z).
Hypothesis HBLK : 264 ≤ BLK < 2 ^ 16 ∧ BLK mod 4 = 0.
Hypothesis Hlayout : 0 ≤ d_name_offset ∧ 0 < dirent_align ∧ 0 < page_size.

Abbreviation dirent_len := (dirent_len d_name_offset dirent_align).

(** The bytes that a list of entries takes in the buffer. *)
Definition dirents_len (out : list (Z * list Z)) : Z := foldr (λ x n, dirent_len (zlen x.2) + n) 0 out.

(** The bytes set aside for an entry on top of its length on disk. *)
Definition extra : Z := dirent_align + Z.max 0 (d_name_offset - 7).

Definition budget (es : list dirent) : Z := zlen (encs es) + zlen es * extra.

Lemma listed_dead wanted i e es : e_inode e = 0 → listed wanted i (e :: es) = listed wanted i es.
Proof. intros He. unfold listed, entries. by rewrite pairs_dead. Qed.

Lemma listed_live wanted i e es :
  wanted = -1 ∨ i < wanted → live e → listed wanted i (e :: es) = (e_inode e, e_name e) :: listed wanted (i + 1) es.
Proof.
  intros Hw He. unfold listed, entries. rewrite pairs_live by done. case_decide; [done|]. destruct Hw as [?|Hw]; [done|].
  replace (Z.to_nat (wanted - i)) with (S (Z.to_nat (wanted - (i + 1)))) by lia. done.
Qed.

Lemma listed_none wanted i es : ¬ (wanted = -1 ∨ i < wanted) → listed wanted i es = [].
Proof. intros Hw. unfold listed. rewrite decide_False by tauto. by replace (Z.to_nat (wanted - i)) with 0%nat by lia. Qed.

Lemma dirent_len_bound e : dirent_ok e → 0 ≤ dirent_len (zlen (e_name e)) ≤ rec_len e + extra.
Proof.
  intros He. unfold Ext2Dir.dirent_len, extra, rec_len. destruct Hlayout as (H1 & H2 & _).
  set (x := d_name_offset + zlen (e_name e) + 1 + (dirent_align - 1)).
  pose proof (Z.mul_div_le x dirent_align H2) as Hle. assert (0 ≤ x / dirent_align) by (apply Z.div_pos; unfold x; lia). unfold x in *. nia.
Qed.

Lemma budget_cons e es : budget (e :: es) = rec_len e + extra + budget es.
Proof. unfold budget. rewrite encs_cons, length_app. pose proof (zlen_enc e).
  change (length (e :: es)) with (S (length es)). rewrite Nat2Z.inj_succ, Z.mul_succ_l. lia. Qed.

Lemma extra_pos : 0 < extra.
Proof. unfold extra. lia. Qed.

Lemma budget_nonneg es : 0 ≤ budget es.
Proof. pose proof extra_pos. unfold budget. nia. Qed.

Lemma budget_app es es' : budget es' ≤ budget (es ++ es').
Proof. pose proof extra_pos. unfold budget. rewrite encs_app, !length_app. nia. Qed.

Section copy.
Context (ess : list (list dirent)) (wanted limit : Z).
Hypothesis Hok : dir_ok BLK ess.

Abbreviation copy fuel := (copy_loop BLK d_name_offset dirent_align fuel wanted 0 limit (bytes_of ess)).

Definition copied (es : list dirent) (i datap : Z) (out : list (Z * list Z)) (r : option (dir_error + (list (Z * list Z) * Z))) : Prop :=
  r = Some (inr (out ++ listed wanted i es, datap + dirents_len (listed wanted i es))).

Lemma blocks_in : zlen (bytes_of ess) / BLK = zlen ess.
Proof. rewrite (zlen_bytes_of BLK) by done. apply Z.div_mul. lia. Qed.

Lemma block_not_empty bs1 es bs2 : ess = bs1 ++ es :: bs2 → es ≠ [].
Proof. intros He. pose proof Hok as Hd. rewrite He in Hd. destruct (dir_ok_split _ _ _ _ Hd) as (_ & [_ Hl] & _). intros ->. simpl in Hl. lia. Qed.

(** At the end of the directory, and when no more entries are wanted. *)
Lemma copy_end fuel bufp i datap out : copied [] i datap out (copy (S fuel) (zlen ess) bufp i datap out).
Proof.
  unfold copied. cbn [copy_loop]. rewrite blocks_in, decide_False by lia. unfold listed, entries, pairs.
  case_decide; simpl; rewrite ?take_nil, app_nil_r; simpl; by rewrite Z.add_0_r.
Qed.

Lemma fields_read bs1 pre e rest bs2 :
  ess = bs1 ++ (pre ++ e :: rest) :: bs2 →
  let off := zlen bs1 * BLK + zlen (encs pre) in
  inode_at off (bytes_of ess) = Some (e_inode e) ∧ rec_len_at off (bytes_of ess) = Some (rec_len e)
  ∧ name_len_at off (bytes_of ess) = Some (zlen (e_name e)) ∧ mem_read (off + 8) (zlen (e_name e)) (bytes_of ess) = Some (e_name e).
Proof.
  intros He off. destruct (bytes_around BLK ess bs1 _ bs2 He Hok pre e rest eq_refl) as (-> & Hl & Hde & _).
  split_and!; [by apply inode_at_ok|by apply rec_len_at_ok|by apply name_len_at_ok|by apply name_read_ok].
Qed.

Definition copies (fuel : nat) : Prop := ∀ bs1 pre rest bs2 i datap out,
  ess = bs1 ++ (pre ++ rest) :: bs2 → rest ≠ [] → 0 ≤ datap → datap + budget (rest ++ concat bs2) ≤ limit →
  (length (rest ++ concat bs2) < fuel)%nat →
  copied (rest ++ concat bs2) i datap out (copy fuel (zlen bs1) (zlen (encs pre)) i datap out).

(** What is done behind an entry, in its block or in the next one. *)
Lemma copy_next fuel bs1 pre e rest bs2 i datap out :
  copies fuel → ess = bs1 ++ (pre ++ e :: rest) :: bs2 → 0 ≤ datap → datap + budget (rest ++ concat bs2) ≤ limit →
  (length (rest ++ concat bs2) < fuel)%nat →
  copied (rest ++ concat bs2) i datap out
    (if decide (rec_len e = 0) then Some (inl EIO) else
     if decide (zlen (encs pre) + rec_len e = BLK) then copy fuel (zlen bs1 + 1) 0 i datap out
     else if decide (BLK < zlen (encs pre) + rec_len e) then Some (inl EIO)
     else copy fuel (zlen bs1) (zlen (encs pre) + rec_len e) i datap out).
Proof.
  intros IH He Hdp Hlim Hfuel. destruct (bytes_around BLK ess bs1 _ bs2 He Hok pre e rest eq_refl) as (_ & _ & Hde & Hsum).
  pose proof (rec_len_pos e). pose proof (zlen_enc e) as Hz. rewrite decide_False by lia. destruct rest as [|e2 rest].
  - change (encs []) with (@nil Z) in Hsum. simpl in Hsum. rewrite decide_True by lia. rewrite app_nil_l in *.
    assert (He' : ess = (bs1 ++ [pre ++ [e]]) ++ bs2) by (by rewrite <-app_assoc).
    assert (Hl : zlen (bs1 ++ [pre ++ [e]]) = zlen bs1 + 1) by (rewrite length_app; simpl; lia). destruct bs2 as [|es bs2].
    + rewrite app_nil_r in He'. rewrite <-Hl, <-He'. destruct fuel; [lia|]. apply copy_end.
    + rewrite <-Hl. apply (IH _ [] es bs2); try done. by apply (block_not_empty _ _ _ He').
  - pose proof (rec_len_pos e2). pose proof (zlen_enc e2). rewrite encs_cons, length_app in Hsum.
    rewrite !decide_False by lia. replace (zlen (encs pre) + rec_len e) with (zlen (encs (pre ++ [e]))) by (rewrite encs_snoc, length_app; lia).
    apply IH; try done. by rewrite <-app_assoc.
Qed.

Lemma copy_loop_ok fuel : copies fuel.
Proof.
  induction fuel as [|fuel IH]; intros bs1 pre rest bs2 i datap out He Hne Hdp Hlim Hfuel; [lia|].
  destruct rest as [|e rest]; [done|]. destruct (bytes_around BLK ess bs1 _ bs2 He Hok pre e rest eq_refl) as (Hb & Hl & Hde & _).
  cbn [copy_loop]. rewrite blocks_in. destruct (decide (wanted = -1 ∨ i < wanted)) as [Hw|Hw].
  2:{ rewrite decide_False by tauto. unfold copied. rewrite listed_none by done. simpl. by rewrite app_nil_r, Z.add_0_r. }
  rewrite decide_True by (split_and!; [done|by left|rewrite He, length_app; simpl; lia]).
  destruct (fields_read bs1 pre e rest bs2 He) as (Hin & Hrl & Hnl & Hnm). rewrite Hin, Hrl, Hnl. cbn [mbind option_bind].
  cbn [app] in *. rewrite budget_cons in Hlim. pose proof (dirent_len_bound e Hde) as Hbd. pose proof extra_pos. pose proof (rec_len_pos e).
  pose proof (budget_nonneg (rest ++ concat bs2)). destruct (decide (e_inode e ≠ 0)) as [Hi|Hi].
  - rewrite decide_True by lia. rewrite Hnm. cbn [mbind option_bind].
    pose proof (copy_next fuel bs1 pre e rest bs2 (i + 1) (datap + dirent_len (zlen (e_name e))) (out ++ [(e_inode e, e_name e)]) IH He) as Hn.
    unfold copied in *. rewrite listed_live by done. rewrite Hn; [|lia..|simpl in Hfuel; lia]. rewrite <-app_assoc. simpl. do 3 f_equal. lia.
  - unfold copied. rewrite listed_dead by lia. apply (copy_next fuel bs1 pre e rest bs2); try done; [lia|simpl in Hfuel; lia].
Qed.
End copy.

Lemma all_ok ess : dir_ok BLK ess → Forall dirent_ok (concat ess).
Proof. intros Hok. apply Forall_concat. eapply Forall_impl; [apply Hok|]. by intros es [Hes _]. Qed.

Lemma bytes_concat ess : bytes_of ess = encs (concat ess).
Proof. induction ess as [|es ess IH]; [done|]. simpl concat. rewrite encs_app, <-IH. done. Qed.

(** The buffer is large enough for the whole directory. *)
Lemma whole_size_ok dp ess : dirnode_ok BLK dp ess → budget (concat ess) ≤ whole_size d_name_offset dirent_align page_size dp.
Proof.
  intros Hdp. unfold whole_size. change (EXT2_DIR_REC_LEN 0) with 8.
  set (ex := dirent_align + _). assert (Hex : ex = extra) by (unfold ex, extra; case_decide; lia). rewrite Hex.
  assert (Hround : ∀ x, x ≤ round_page page_size x).
  { intros x. unfold round_page. pose proof (Z.mul_succ_div_gt (x + page_size - 1) page_size). nia. }
  etransitivity; [|apply Hround]. unfold budget. rewrite <-bytes_concat, <-(dn_mem _ _ _ Hdp).
  pose proof (all_ok ess (dn_dir _ _ _ Hdp)) as Hall.
  pose proof (encs_length _ Hall) as Hle. rewrite <-bytes_concat, <-(dn_mem _ _ _ Hdp) in Hle.
  assert (zlen (concat ess) ≤ st_size dp / 8) by (apply Z.div_le_lower_bound; lia). pose proof extra_pos. nia.
Qed.

Lemma no_live es : count_live es ≤ 0 → pairs es = [].
Proof. rewrite count_live_pairs. destruct (pairs es); [done|]. simpl. lia. Qed.

(** Where the blocks are split does not matter as long as the same number of entries is before. *)
Lemma same_split (bs1 bs2 b1 b2 : list (list dirent)) :
  bs1 ++ bs2 = b1 ++ b2 → count_live (concat b1) ≤ count_live (concat bs1) →
  match b2 with [] => True | es :: _ => count_live (concat bs1) < count_live (concat b1) + count_live es end →
  count_live (concat b1) = count_live (concat bs1) ∧ pairs (concat b2) = pairs (concat bs2).
Proof.
  intros Heq Hle Hb2. apply app_eq_inv in Heq as [(m & -> & ->)|(m & -> & ->)].
  - rewrite !concat_app, !count_live_app in *. destruct m as [|es m]; simpl in *; [by rewrite Z.add_0_r|].
    exfalso. rewrite count_live_app in Hb2. pose proof (count_live_nonneg (concat m)). lia.
  - rewrite concat_app, count_live_app in Hle. pose proof (count_live_nonneg (concat m)). rewrite !concat_app, count_live_app, pairs_app.
    rewrite (no_live (concat m)) by lia. split; [lia|done].
Qed.

Lemma listed_same wanted i es es' : pairs es = pairs es' → listed wanted i es = listed wanted i es'.
Proof. intros He. unfold listed, entries. by rewrite He. Qed.

Lemma dirents_len_bound wanted i es : Forall dirent_ok es → 0 ≤ dirents_len (listed wanted i es) ≤ budget es.
Proof.
  intros Hall. revert i. induction Hall as [|e es He Hall IH]; intros i.
  { unfold listed, entries, pairs, budget. case_decide; simpl; rewrite ?take_nil; simpl; lia. }
  rewrite budget_cons. pose proof (dirent_len_bound e He). pose proof (budget_nonneg es).
  destruct (decide (live e)) as [Hl|Hl]; [|rewrite listed_dead by (unfold live in Hl; lia); specialize (IH i); lia].
  destruct (decide (wanted = -1 ∨ i < wanted)) as [Hw|Hw]; [|rewrite listed_none by done; simpl; lia].
  rewrite listed_live by done. simpl. specialize (IH (i + 1)). lia.
Qed.

Lemma get_directs_ok bs1 bs2 wanted dp :
  dirnode_ok BLK dp (bs1 ++ bs2) → whole_size d_name_offset dirent_align page_size dp < 2 ^ 31 →
  ∃ dp', diskfs_get_directs BLK d_name_offset dirent_align page_size (count_live (concat bs1)) wanted 0 dp
      = Some (inr (listed wanted 0 (concat bs2), dirents_len (listed wanted 0 (concat bs2)), dp'))
    ∧ dirnode_ok BLK dp' (bs1 ++ bs2) ∧ mem dp' = mem dp.
Proof.
  intros Hdp Hsize. set (ess := bs1 ++ bs2) in *. unfold diskfs_get_directs.
  rewrite (alloc_dirents_ok BLK false dp ess Hdp). cbn [mbind option_bind]. set (dp0 := set_dirents (the_dirents BLK dp) dp).
  assert (Hdp0 : dirnode_ok BLK dp0 ess).
  { pose proof (the_dirents_ok BLK HBLK dp ess Hdp). destruct Hdp. by split. }
  destruct (size_ok BLK HBLK dp0 ess Hdp0) as [Hsz Hn].
  destruct (find_entry_block_ok BLK HBLK (count_live (concat bs1)) ess (S (Z.to_nat (zlen ess))) [] ess (the_dirents BLK dp) dp0)
    as (b1 & b2 & l & Hf & Hess & Hdp1 & Hle & Hb2); [done|done|done|apply count_live_nonneg|lia|].
  rewrite Hn. change (zlen []) with 0 in Hf. change (count_live (concat [])) with 0 in Hf. rewrite Hf. cbn [mbind option_bind]. set (dp1 := set_dirents l dp0) in *. exists dp1.
  destruct (same_split bs1 bs2 b1 b2 Hess Hle Hb2) as [Hcur Hpairs]. rewrite <-(listed_same wanted 0 _ _ Hpairs).
  destruct b2 as [|es b2].
  { rewrite app_nil_r in Hess. rewrite decide_True by congruence. split; [|done]. unfold listed, entries, pairs. simpl.
    case_decide; rewrite ?take_nil; done. }
  rewrite decide_False by (rewrite Hess, length_app; simpl; lia). rewrite Hcur, (decide_False (P := _ ≠ _)) by tauto.
  cbn [mbind option_bind]. unfold directs_allocsize. rewrite decide_True by (by left).
  change (whole_size _ _ _ dp1) with (whole_size d_name_offset dirent_align page_size dp). pose proof (whole_size_ok dp ess Hdp) as Hw.
  pose proof (budget_nonneg (concat ess)). rewrite s32_id by lia.
  pose proof (copy_loop_ok ess wanted (whole_size d_name_offset dirent_align page_size dp) (dn_dir _ _ _ Hdp) (S (Z.to_nat (zlen (bytes_of ess))))) as Hc.
  pose proof (all_ok ess (dn_dir _ _ _ Hdp)) as Hall.
  specialize (Hc b1 [] es b2 0 0 [] Hess). unfold copied in Hc. change (mem dp1) with (mem dp). rewrite (dn_mem _ _ _ Hdp).
  change (zlen (encs [])) with 0 in Hc. simpl concat. rewrite Hc; [done|..].
  - by apply (block_not_empty ess (dn_dir _ _ _ Hdp) b1 es b2).
  - lia.
  - rewrite Hess, concat_app in Hw. simpl concat in Hw. unfold budget in *. rewrite encs_app, !length_app in Hw. pose proof extra_pos.
    rewrite encs_app, !length_app in *. nia.
  - pose proof (encs_length _ Hall) as Hlen. rewrite <-bytes_concat in Hlen. assert (Hl2 : length (concat ess) = (length (concat b1) + length (es ++ concat b2))%nat)
      by (rewrite Hess, concat_app, length_app; done). lia.
Qed.

Lemma directs_fit bs1 bs2 wanted dp :
  dirnode_ok BLK dp (bs1 ++ bs2) → whole_size d_name_offset dirent_align page_size dp < 2 ^ 31 →
  0 ≤ dirents_len (listed wanted 0 (concat bs2)) ≤ directs_allocsize d_name_offset dirent_align page_size 0 dp.
Proof.
  intros Hdp Hsz. pose proof (all_ok _ (dn_dir _ _ _ Hdp)) as Hall. pose proof (whole_size_ok dp _ Hdp) as Hw.
  rewrite concat_app in *. apply Forall_app in Hall as [_ Hall]. pose proof (dirents_len_bound wanted 0 (concat bs2) Hall).
  pose proof (budget_app (concat bs1) (concat bs2)). unfold directs_allocsize. rewrite decide_True by (by left). rewrite s32_id by lia. lia.
Qed.
End listing.

(** ** Empty directories *)
Definition dots (name : list Z) : Prop := name = [46] ∨ name = [46; 46].

#[global] Instance dots_dec name : Decision (dots name).
Proof. unfold dots. apply _. Defined.

(** A byte of zero behind the name ".", which is what the loop expects there. *)
Definition clean (e : dirent) : Prop := live e → e_name e ≠ [] ∧ (e_name e = [46] → e_pad e !! 0%nat = Some 0).

(** What the loop tests in an entry in use. *)
Definition not_dots (d : list Z) (curoff name_len : Z) : option bool :=
  if decide (2 < name_len) then Some true else
  c0 ← d !z (curoff + 8);
  if decide (c0 ≠ 46) then Some true else
  c1 ← d !z (curoff + 9); Some (bool_decide (c1 ≠ 46 ∧ c1 ≠ 0)).

Lemma not_dots_ok pre e post off :
  dirent_ok e → clean e → live e → off = zlen pre →
  not_dots (pre ++ enc e ++ post) off (zlen (e_name e)) = Some (bool_decide (¬ dots (e_name e))).
Proof.
  intros He Hc Hl ->. destruct (Hc Hl) as [Hne Hpad]. destruct (de_name e He) as [_ Hz]. unfold not_dots.
  assert (Hbyte : ∀ k : nat, (pre ++ enc e ++ post) !z (zlen pre + (8 + Z.of_nat k)) = (e_name e ++ e_pad e ++ post) !! k).
  { intros k. rewrite lookupz_app_r by lia. unfold lookupz. rewrite decide_True by lia.
    replace (Z.to_nat (8 + Z.of_nat k)) with (8 + k)%nat by lia. unfold enc. by rewrite <-!app_assoc. }
  change (zlen pre + 9) with (zlen pre + (8 + Z.of_nat 1)).
  change (zlen pre + 8) with (zlen pre + (8 + Z.of_nat 0)). rewrite !Hbyte. clear Hbyte. unfold dots.
  destruct (e_name e) as [|c0 [|c1 [|c2 name]]]; [done|..].
  - rewrite decide_False by (simpl; lia). cbn [mbind option_bind lookup app]. simpl. destruct (decide (c0 = 46)) as [->|H0].
    + rewrite decide_False by tauto. destruct (e_pad e) as [|p pad]; [by specialize (Hpad eq_refl)|]. simpl in Hpad.
      by injection (Hpad eq_refl) as ->.
    + rewrite decide_True by done. f_equal. symmetry. apply bool_decide_true. naive_solver.
  - rewrite decide_False by (simpl; lia). simpl. destruct (decide (c0 = 46)) as [->|H0].
    + rewrite decide_False by tauto. simpl. f_equal. apply bool_decide_ext. split; [naive_solver|]. intros H. split; [naive_solver|].
      intros ->. apply Hz. set_solver.
    + rewrite decide_True by done. f_equal. symmetry. apply bool_decide_true. naive_solver.
  - rewrite decide_True by (simpl; lia). f_equal. symmetry. apply bool_decide_true. naive_solver.
Qed.

Lemma empty_loop_ok fuel : ∀ rest pre,
  Forall dirent_ok rest → Forall clean rest → (length rest < fuel)%nat →
  empty_loop fuel (encs (pre ++ rest)) (zlen (encs pre)) = Some (bool_decide (Forall dots (pairs rest).*1)).
Proof.
  induction fuel as [|fuel IH]; intros rest pre Hall Hclean Hfuel; [lia|]. cbn [empty_loop]. destruct rest as [|e rest].
  { rewrite app_nil_r, decide_False by lia. done. }
  apply Forall_cons in Hall as [He Hall], Hclean as [Hce Hclean]. pose proof (zlen_enc e) as Hz. pose proof (rec_len_pos e).
  assert (Hb : encs (pre ++ e :: rest) = encs pre ++ enc e ++ encs rest) by (by rewrite encs_app, encs_cons).
  rewrite decide_True by (rewrite Hb, !length_app; lia).
  assert (Hrest : empty_loop fuel (encs (pre ++ e :: rest)) (zlen (encs pre) + rec_len e) = Some (bool_decide (Forall dots (pairs rest).*1))).
  { replace (zlen (encs pre) + rec_len e) with (zlen (encs (pre ++ [e]))) by (rewrite encs_snoc, length_app; lia).
    replace (pre ++ e :: rest) with ((pre ++ [e]) ++ rest) by (by rewrite <-app_assoc). apply IH; [done|done|simpl in Hfuel; lia]. }
  assert (Hi : inode_at (zlen (encs pre)) (encs (pre ++ e :: rest)) = Some (e_inode e)) by (rewrite Hb; by apply inode_at_ok).
  assert (Hn : name_len_at (zlen (encs pre)) (encs (pre ++ e :: rest)) = Some (zlen (e_name e))) by (rewrite Hb; by apply name_len_at_ok).
  assert (Hr : rec_len_at (zlen (encs pre)) (encs (pre ++ e :: rest)) = Some (rec_len e)) by (rewrite Hb; by apply rec_len_at_ok).
  rewrite Hi, Hn, Hr. cbn [mbind option_bind]. destruct (decide (e_inode e ≠ 0)) as [Hl|Hl].
  - fold (not_dots (encs (pre ++ e :: rest)) (zlen (encs pre)) (zlen (e_name e))).
    assert (Hd : not_dots (encs (pre ++ e :: rest)) (zlen (encs pre)) (zlen (e_name e)) = Some (bool_decide (¬ dots (e_name e))))
      by (rewrite Hb; by apply not_dots_ok).
    rewrite Hd. cbn [mbind option_bind]. rewrite pairs_live by done. simpl fmap. case_bool_decide as Hnd.
    + f_equal. symmetry. apply bool_decide_false. rewrite Forall_cons. tauto.
    + rewrite Hrest. f_equal. apply bool_decide_ext. rewrite Forall_cons. tauto.
  - cbn [mbind option_bind]. rewrite Hrest, pairs_dead by lia. done.
Qed.

Theorem diskfs_dirempty_correct BLK dp ess :
  264 ≤ BLK < 2 ^ 16 ∧ BLK mod 4 = 0 → dirnode_ok BLK dp ess → Forall clean (concat ess) →
  ∃ b, diskfs_dirempty dp = Some b ∧ (b = true ↔ ∀ name inode, contents ess !! name = Some inode → dots name).
Proof.
  intros HBLK Hdp Hclean. unfold diskfs_dirempty. rewrite (dn_mem _ _ _ Hdp), bytes_concat.
  pose proof (all_ok BLK ess (dn_dir _ _ _ Hdp)) as Hall. pose proof (encs_length _ Hall) as Hlen.
  pose proof (empty_loop_ok (S (Z.to_nat (zlen (encs (concat ess))))) (concat ess) [] Hall Hclean ltac:(lia)) as He.
  change (zlen (encs [])) with 0 in He. simpl app in He. rewrite He. eexists. split; [done|]. rewrite bool_decide_eq_true, Forall_forall.
  unfold contents. split.
  - intros Hd name inode Hin. apply elem_of_list_to_map_2 in Hin. apply Hd. apply list_elem_of_fmap. by exists (name, inode).
  - intros Hd name Hin. apply list_elem_of_fmap in Hin as ([nm inode] & -> & Hin). apply (Hd nm inode).
    by apply elem_of_list_to_map_1; [apply Hdp|].
Qed.

(** Without the byte of zero behind ".", a directory that is empty is not found to be. *)
Example dirempty_reads_padding :
  let dir := [[mk_dirent 2 2 [46] [120; 0; 0]; mk_dirent 2 2 [46; 46] (replicate 1002 0)]] in
  contents dir = {[ [46] := 2; [46; 46] := 2 ]} ∧ diskfs_dirempty (mk_dirnode (bytes_of dir) 0 None small_space false 0 []) = Some false.
Proof. split; by vm_compute. Qed.

(** ** What is listed *)
(** C26. Listing a directory from the first entry of a block, without a limit on the
    size of the result, gives the entries in use from there in order, all of them
    or as many as are wanted.  They fit in the buffer, whose size is computed from
    that of the directory only, so that the assertion on it does not fail; and
    the counts of entries that are noted on the way, for which there is memory,
    are right. *)
Theorem ext2_get_directs_correct BLK d_name_offset dirent_align page_size bs1 bs2 wanted dp :
  264 ≤ BLK < 2 ^ 16 ∧ BLK mod 4 = 0 → 0 ≤ d_name_offset ∧ 0 < dirent_align ∧ 0 < page_size →
  dirnode_ok BLK dp (bs1 ++ bs2) → whole_size d_name_offset dirent_align page_size dp < 2 ^ 31 →
  let out := listed wanted 0 (concat bs2) in
  let len := dirents_len d_name_offset dirent_align out in
  ∃ dp', diskfs_get_directs BLK d_name_offset dirent_align page_size (count_live (concat bs1)) wanted 0 dp = Some (inr (out, len, dp'))
    ∧ 0 ≤ len ≤ directs_allocsize d_name_offset dirent_align page_size 0 dp ∧ dirnode_ok BLK dp' (bs1 ++ bs2) ∧ mem dp' = mem dp.
Proof.
  intros HBLK Hlay Hdp Hsz out len. destruct (get_directs_ok BLK d_name_offset dirent_align page_size HBLK Hlay bs1 bs2 wanted dp Hdp Hsz)
    as (dp' & Hg & Hdp' & Hm). exists dp'. split_and!; [done|..|done|done]; by apply (directs_fit BLK d_name_offset dirent_align page_size HBLK Hlay bs1 bs2 wanted dp Hdp Hsz).
Qed.

Lemma ext2_get_directs_witness :
  let out := [(2, [46]); (2, [46; 46]); (11, [97])] in
  ∃ dp', diskfs_get_directs 1024 12 8 4096 0 (-1) 0 small = Some (inr (out, 48, dp')) ∧ dirnode_ok 1024 dp' small_dir.
Proof.
  destruct (ext2_get_directs_correct 1024 12 8 4096 [] small_dir (-1) small) as (dp' & Hg & _ & Hdp & _);
    [done|done|exact small_ok|by vm_compute|]. exists dp'. split; [|exact Hdp]. exact Hg.
Defined.

(** An unused entry at the start of a block is taken for one of those to skip: from
    entry 1 on, the listing has entry 0 again. *)
Example get_directs_repeats :
  let dir := [[mk_dirent 0 0 [120] [0; 0; 0]; mk_dirent 11 0 [97] [0; 0; 0]; mk_dirent 12 0 [98] (replicate 991 0)]] in
  let dp := mk_dirnode (bytes_of dir) 0 None small_space false 0 [] in
  let list entry wanted := r ← diskfs_get_directs 1024 12 8 4096 entry wanted 0 dp; match r with inr (out, _, _) => Some out | inl _ => None end in
  list 0 1 = Some [(11, [97])] ∧ list 1 1 = Some [(11, [97])] ∧ list 0 (-1) = Some [(11, [97]); (12, [98])].
Proof. split_and!; by vm_compute. Qed.
